(* ===== verification/_CoqProject ===== *)
-Q . S2P
Prelude.v
GoInt.v
Sha256.v
Abi.v
Protobuf.v
Packet.v
Broker.v
BrokerInv.v
BrokerSys.v
BrokerProps.v
BrokerTimers.v
Session.v
SessionSys.v
SessionAcks.v
SessionProps.v
SessionSpec.v
EndToEnd.v
Callback.v
CallbackSys.v
GoStrings.v
GoText.v
Supervisor.v
RakNet.v
RunOnce.v
RunOnceProps.v
Launches.v
EmbeddedRun.v
EmbeddedRunInv.v
EmbeddedRunProps.v
Ready.v
Options.v
MergeMap.v
Config.v
Server.v
Gate.v
Os.v
Download.v
Locate.v
Library.v
Launch.v
ServerRun.v
Managed.v
Base64.v
Commands.v
Examples.v
Locks.v
Healthcheck.v
