(* ===== verification/Prelude.v ===== *)
(** * geyserlite: a verification library for the Go host of the Geyser native image

    [src/go] runs GeyserMC's Bedrock server, compiled to a native image, inside or next to
    a Go program (the Gate proxy): it finds or downloads the native code, configures and
    supervises it, and brokers the "verified ingress" by which Gate and the native side
    agree, once per connection, on who is connecting. This library models that Go code and
    proves what makes it correct.

    ** The parts, and the files that model them

    - Foundations. Prelude.v: results of Go code ([res]: value, error or panic), byte
      strings and slice bounds. GoInt.v: machine integers with their wrap-around,
      big-endian coding, time. Sha256.v: SHA-256 and HMAC, executable, and the class [Mac]
      by which the rest uses them. GoStrings.v, GoText.v: what is used of [strings],
      [strconv], [unicode] and [encoding/hex]. Os.v: files, paths and requests in a monad
      [io] with weakest preconditions; any operation can fail. Abi.v: the constants of the
      ABI module, which is not in the repository, as a class with its documented laws.
    - The broker ([go/ingress.go]: [ingressBroker]). Broker.v has one function per method.
      BrokerInv.v: the invariant. BrokerSys.v: its methods interleaved, the specification
      [spec_step] and the refinement. BrokerProps.v, BrokerTimers.v: the theorems.
    - The subprocess transport ([go/subprocess_ingress.go]). Packet.v: the authenticated
      packets; Protobuf.v: [extractIngressCorrelation]; Session.v: the sections of
      [assign], [readLoop], [close], [wait] and the timers; SessionSys.v: their
      interleaving with an adversary on the connection; SessionAcks.v, SessionProps.v:
      invariants; SessionSpec.v: the theorems. The session is a client of the interface
      [IngressSink], which the broker implements. EndToEnd.v: the session, the broker and
      the broker's client as one system.
    - The embedded transport ([go/embedded_ingress.go], [go/embedded.go]). Callback.v: the
      gate of a generation and the two native callbacks; CallbackSys.v: any number of
      generations, supervisors and native threads. EmbeddedRun.v: [embeddedRunner.run],
      its locked goroutine, [pollHealth] and [callOnAttachedThread] over the life of the
      isolate, interleaved with the process of CallbackSys.v; EmbeddedRunInv.v: the
      invariant; EmbeddedRunProps.v: the theorems, and runs played step by step.
    - Supervision. Supervisor.v: [go/backoff.go] and the restart loop of
      [go/subprocess.go]; RunOnce.v: one launch, [runOnce], interleaved with the process, the
      readers of its output and the session of SessionSys.v; RunOnceProps.v: its theorems;
      Launches.v: the loop over such launches, one after the other, in a process whose other
      runners number theirs with the same counter; Ready.v: the reader of the output.
    - The public surface. Options.v: [go/geyserlite.go], [go/options.go], [go/fly.go],
      [go/floodgate.go]; Server.v: [New], [Start], [Stop], [Healthy] of [go/server.go] from
      any number of goroutines; ServerRun.v: a server beside its runner, which is behind the
      interface [RunnerSys]; Managed.v: both runners implement it; Gate.v:
      [go/integration/gate].
    - Configuration. MergeMap.v: the deep merge on a heap of shared Go maps; Config.v:
      [buildConfigMap]. Both of [go/config.go].
    - Native code on disk. Download.v: [go/download.go]; Locate.v: [go/locate.go] and
      [go/embed*.go]; Library.v: [load] of [go/embedded.go], which opens the library and binds
      its symbols; Launch.v: the work directory of a run ([writeFloodgateKey],
      [renderConfig], [copyPermissionsYML], the deferred removal).
    - The health probe. RakNet.v: [buildPing], [parsePong], [Probe] and [Wait] of
      [go/internal/synthetic/bedrock.go].
    - The commands and the examples. Commands.v: [go/cmd], from the parsed flags to the exit
      code; Examples.v: [go/examples], from the environment to the options of [New];
      Base64.v: what they use of [encoding/base64]; Healthcheck.v: [main] of
      [go/examples/healthcheck] with its goroutines and the signal, around a server of
      ServerRun.v.
    - The locks. Locks.v: the methods of the broker, the session, the generations and the
      server, reduced to the mutexes, the [sync.Once] and the wait groups they use and to
      their calls to the outside ([lk_open] is [open] and so on), run by any number of
      goroutines.

    ** How the code is read

    A struct is a record, an enum of Go a [Z], a sum of errors an inductive type. A method
    under a mutex is a function on the state; code that other goroutines can interleave
    with is cut into sections, a phase each, and a step relation runs the sections in any
    order ([step], [sstep], [pstep], [lstep], [rstep], [ostep]), and systems are composed by a
    relation whose steps are theirs ([jstep], [svstep], [mstep]). What the environment
    decides (the clock, the order of ranging over a map, the code a native call returns,
    the bytes read from a connection, which operations of the file system fail) is an
    argument of the functions, so a theorem holds for all of it. Shared Go maps live on a heap
    (MergeMap.v); channels with room are lists or options, a send without a receiver waits.

    ** What is shown

    - Broker: it refines "a handle is opened, bound once, consumed once"
      ([broker_refines_spec], [published_at_most_once]); its invariant; the behaviour of
      [open], [assign], [deliver] on every branch, errors included; assignments expire.
    - Packets: a packet is accepted only if it is the encoding of what it decodes to
      ([decode_only_encodings]); the round trip; refusals of replayed and forged packets;
      the correlation reader accepts exactly a grammar of protobuf messages.
    - Session: [assign] succeeds only on an acknowledgement that came in time, each frame is
      delivered once, every failure closes the session for good, sequence numbers,
      termination of [assign], no panic, the key is wiped after the last use.
    - From the process to the client: a frame that the client receives was sent by the
      process, for a correlation that the client assigned to the frame's connection and the
      process had acknowledged ([frames_end_to_end]).
    - Embedded: nothing of a generation runs once it is drained ([callbacks_drained]); the
      isolate is used only while live and torn down once ([isolate_discipline]); what a
      run leaves behind ([run_returns_clean]); a cancelled run ends, unless it waits for a
      [geyser_run] that was not told to return ([run_terminates]).
    - A launch of the subprocess: what it leaves behind, which is nothing but, on the paths
      of the error named, a copy of the key or the write end of a pipe ([once_leaves_clean]);
      its session is a run of the session system ([once_session_runs]); it ends
      ([once_ends]); its error has the cause it names ([once_returns_cause]), though every
      clean exit can be reported as the session's end instead ([clean_exit_races]). The
      launches of a run: each ends as clean before the next, and the broker serves the newest
      only ([restarts_isolated]); their loop is the loop of Supervisor.v
      ([launches_refine_loop]) and is never stuck ([loop_progress]).
    - Server and Gate: one run, errors of the lifecycle ([server_lifecycle]); a server that
      has stopped is over ([subprocess_server_over]), and a [Stop] ends
      ([subprocess_stop_ends], [embedded_stop_ends]);
      a configuration in Gate's terms becomes the options it means, the key intact.
    - Files: a download that succeeds has the sum of the manifest and nothing else of the
      user's files is changed whatever fails ([download_verified]); the order of the
      sources ([locateBinary_spec]); what is in the work directory, with which permissions,
      and that it goes away, unless a goroutine that outlives the run makes it again
      ([prepare_stages], [run_cleans_up]); what is bound of the library,
      and which error says what is not ([load_binds]).
    - Configuration: the rendered map is the baseline, then the typed options, then the
      overrides, key by key ([buildConfigMap_spec], [mergeMap_spec]), and has the types that
      Geyser reads if baseline and overrides have ([config_well_typed]).
    - Commands and examples: the exit codes and what they say ([bedrock_probe_exit],
      [integration_test_exit]); the examples' options are accepted ([examples_get_servers]),
      and what Geyser is configured with on Fly ([fly_key_round_trip], [fly_config]); the
      end of healthcheck, which may come before that of Geyser ([healthcheck_ends]).
    - Locks: every mutex has one holder, none deadlocks, none but the one around the writes
      is held up by a connection or by native code, and what runs ends once its calls to
      the outside return ([no_deadlock]).
    - Supervisor and probe: the delays, the number of runs, the boot line, the pong and the
      inputs on which parsing it panics.

    ** Bounds and fuel

    Integers have the width they have in Go ([uwrap], [swrap]; lengths are below [2^63]).
    Fuel appears where a loop is not structural: [extract_loop] (the length of the frame
    is enough, [extract_loop_total]), [strip_loop] (the length of the line), [mergeMap] (the
    depth of the source; a theorem gives the fuel), [ancestors] (the length of the path).
    The proofs of termination of the concurrent systems are measures: no schedule runs
    for ever ([assign_terminates], [run_terminates], [once_ends], and [mleft] for a server);
    what can raise them is in the theorems: a thread more that an [assign] attaches, the
    [select] of the restart loop taking the timer that elapsed with the context.

    ** What is not modelled

    - What is in the native library (whether it opens, its symbols, what its functions
      return), the YAML library, HTTP beyond a response or none, and the cryptographic
      strength of HMAC: parameters.
    - Windows paths, symbolic links, and other processes changing files between two
      operations of this one.
    - Memory visibility below a critical section: a section runs as one step (Locks.v shows
      that a mutex has one holder). The session's [closeOnce] body and the channel sends into
      buffers with room are one step each. Locks.v leaves the data out: each branch of the
      code is possible there, and a reader has any finite number of turns.
    - What os/exec, sockets and pipes do inside: their calls return anything they may.
      Of the commands and examples: the parsing of flags, the formats of what is printed,
      and what net/http does around the handlers.
    - In EmbeddedRun.v, [geyser_run] and [geyser_shutdown] are calls that return any code, but
      for one thing that the Go code relies on, the latch of GeyserBridge.java: [geyser_run]
      puts its own in place and then returns once [geyser_shutdown] has counted that down, or
      by itself ([shut], [exits]).
    - In Launch.v, the goroutine of an embedded run that outlives it does what it still does
      after the removal of the directory, not in the middle of it.
    - In Managed.v, the preparation of a run is one step, which fails with any error of
      Launch.v or not, and the removal of its directory is left to Launch.v.
    - In Launches.v, the sessions' goroutines of an earlier launch: they have ended by then,
      but for the timers of its assignments, which find the session closed.
    - The rest of the Java overlay and the Rust bindings (other languages; the constants that the
      overlay repeats are [abi_v1]), packaging and workflows. *)

From stdpp Require Export base tactics list gmap strings numbers fin_maps.
From Stdlib Require Export ZArith Lia.

#[global] Open Scope Z_scope.
#[global] Unset Printing Records.

(** ** Results of Go code

    A Go function that may return an error or panic returns a [res E A]:
    [Ok] for a normal return, [Err] for a non-nil error value and [Panic] for
    a run-time panic (index or slice out of range). *)

Inductive res (E A : Type) : Type :=
| Ok (a : A)
| Err (e : E)
| Panic.
Arguments Ok {E A} a.
Arguments Err {E A} e.
Arguments Panic {E A}.

#[global] Instance res_ret {E} : MRet (res E) := λ A a, Ok a.
#[global] Instance res_bind {E} : MBind (res E) := λ A B f m,
  match m with Ok a => f a | Err e => Err e | Panic => Panic end.
#[global] Instance res_fmap {E} : FMap (res E) := λ A B f m,
  match m with Ok a => Ok (f a) | Err e => Err e | Panic => Panic end.

#[global] Instance res_eq_dec `{EqDecision E, EqDecision A} : EqDecision (res E A).
Proof. solve_decision. Defined.

(** [err_if b e]: the early return [if b { return e }]. *)
Definition err_if {E} (b : bool) (e : E) : res E unit := if b then Err e else Ok tt.

Lemma res_bind_Ok {E A B} (a : A) (f : A → res E B) : (Ok a ≫= f) = f a.
Proof. done. Qed.

Lemma res_bind_Ok_inv {E A B} (m : res E A) (f : A → res E B) (b : B) :
  (m ≫= f) = Ok b → ∃ a, m = Ok a ∧ f a = Ok b.
Proof. destruct m; simpl; try discriminate; eauto. Qed.

Lemma res_bind_Panic_inv {E A B} (m : res E A) (f : A → res E B) :
  (m ≫= f) = Panic → m = Panic ∨ ∃ a, m = Ok a ∧ f a = Panic.
Proof. destruct m; simpl; try discriminate; eauto. Qed.

Lemma err_if_Ok_inv {E} (b : bool) (e : E) u : err_if b e = Ok u → b = false.
Proof. by destruct b. Qed.

Lemma err_if_not_Panic {E} (b : bool) (e : E) : err_if b e ≠ Panic.
Proof. by destruct b. Qed.

(** ** Byte strings

    A Go [[]byte] or [string] is the list of its bytes, each a [Z] in
    [0, 256). *)

Abbreviation bytes := (list Z).

Definition is_byte (b : Z) : Prop := 0 ≤ b < 256.

#[global] Instance is_byte_dec b : Decision (is_byte b).
Proof. unfold is_byte. apply _. Defined.

Abbreviation Bytes := (Forall is_byte).

(** [zlen l] is Go's [len(l)]. *)
Definition zlen {A} (l : list A) : Z := Z.of_nat (length l).

(** [zrep n x]: the [n] bytes of [make([]byte, n)] when [x] is 0. *)
Definition zrep {A} (n : Z) (x : A) : list A := replicate (Z.to_nat n) x.

Definition ztake {A} (n : Z) (l : list A) : list A := take (Z.to_nat n) l.
Definition zdrop {A} (n : Z) (l : list A) : list A := drop (Z.to_nat n) l.

(** The bytes of a Go string literal. *)
Fixpoint str (s : string) : bytes :=
  match s with
  | EmptyString => []
  | String a s' => Z.of_N (Ascii.N_of_ascii a) :: str s'
  end.

(** [slice l i j] is [l[i:j]]: out of order or out of range bounds panic. *)
Definition slice {E A} (l : list A) (i j : Z) : res E (list A) :=
  if (0 <=? i) && (i <=? j) && (j <=? zlen l)
  then Ok (ztake (j - i) (zdrop i l)) else Panic.

(** [index l i] is [l[i]]. *)
Definition index {E A} (l : list A) (i : Z) : res E A :=
  if 0 <=? i then
    match l !! Z.to_nat i with Some x => Ok x | None => Panic end
  else Panic.

(** [copy_at buf off src] is [copy(buf[off:], src)]: [buf[off:]] panics when
    [off] is out of range, and at most [len(buf) - off] bytes are copied. *)
Definition copy_at {E} (buf : bytes) (off : Z) (src : bytes) : res E bytes :=
  if (0 <=? off) && (off <=? zlen buf) then
    let n := Z.min (zlen src) (zlen buf - off) in
    Ok (ztake off buf ++ ztake n src ++ zdrop (off + n) buf)
  else Panic.

(** ** Lemmas on lengths, slices and buffers *)

Section lists.
Context {A : Type}.
Implicit Types l k : list A.

Lemma zlen_nonneg l : 0 ≤ zlen l.
Proof. unfold zlen. lia. Qed.
Lemma zlen_nil : zlen (@nil A) = 0.
Proof. done. Qed.
Lemma zlen_cons x l : zlen (x :: l) = 1 + zlen l.
Proof. unfold zlen. simpl. lia. Qed.
Lemma zlen_app l k : zlen (l ++ k) = zlen l + zlen k.
Proof. unfold zlen. rewrite length_app. lia. Qed.
Lemma zlen_zrep n (x : A) : 0 ≤ n → zlen (zrep n x) = n.
Proof. unfold zlen, zrep. rewrite length_replicate. lia. Qed.
Lemma zlen_ztake n l : 0 ≤ n ≤ zlen l → zlen (ztake n l) = n.
Proof. unfold zlen, ztake. rewrite length_take. lia. Qed.
Lemma zlen_zdrop n l : 0 ≤ n ≤ zlen l → zlen (zdrop n l) = zlen l - n.
Proof. unfold zlen, zdrop. rewrite length_drop. lia. Qed.
Lemma zlen_zero_inv l : zlen l = 0 → l = [].
Proof. destruct l; [done|]. rewrite zlen_cons. pose proof (zlen_nonneg l). lia. Qed.

Lemma ztake_zdrop n l : ztake n l ++ zdrop n l = l.
Proof. apply take_drop. Qed.
Lemma zdrop_0 l : zdrop 0 l = l.
Proof. done. Qed.
Lemma ztake_all n l : n = zlen l → ztake n l = l.
Proof. intros ->. unfold ztake, zlen. rewrite Nat2Z.id. by apply firstn_all2. Qed.
Lemma ztake_app_eq n l k : n = zlen l → ztake n (l ++ k) = l.
Proof. intros ->. unfold ztake, zlen. rewrite Nat2Z.id. by rewrite take_app_length. Qed.
Lemma zdrop_app_eq n l k : n = zlen l → zdrop n (l ++ k) = k.
Proof. intros ->. unfold zdrop, zlen. rewrite Nat2Z.id. by rewrite drop_app_length. Qed.
Lemma zdrop_zdrop n m l : 0 ≤ n → 0 ≤ m → zdrop n (zdrop m l) = zdrop (m + n) l.
Proof. intros. unfold zdrop. rewrite drop_drop. f_equal. lia. Qed.
Lemma zdrop_zrep n m (x : A) : 0 ≤ m → zdrop m (zrep n x) = zrep (n - m) x.
Proof. intros. unfold zdrop, zrep. rewrite drop_replicate. f_equal. lia. Qed.
Lemma Forall_ztake (P : A → Prop) n l : Forall P l → Forall P (ztake n l).
Proof. apply Forall_take. Qed.
Lemma Forall_zdrop (P : A → Prop) n l : Forall P l → Forall P (zdrop n l).
Proof. apply Forall_drop. Qed.
Lemma Forall_zrep (P : A → Prop) n x : P x → Forall P (zrep n x).
Proof. intros. by apply Forall_replicate. Qed.
End lists.

Create Rewrite HintDb golen.
#[export] Hint Rewrite @zlen_cons @zlen_app : golen.
#[export] Hint Rewrite @zlen_zrep @zlen_ztake @zlen_zdrop using lia : golen.

(** [golen]: linear arithmetic over list lengths. *)
Ltac golen :=
  autorewrite with golen in *; repeat change (zlen (@nil ?A)) with 0 in *; lia.

Create HintDb bytesdb.
#[export] Hint Resolve Forall_ztake Forall_zdrop Forall_zrep : bytesdb.
#[export] Hint Resolve Forall_nil_2 Forall_cons_2 Forall_app_2 : bytesdb.

Lemma slice_Ok {E A} (l : list A) i j :
  0 ≤ i ≤ j → j ≤ zlen l → @slice E A l i j = Ok (ztake (j - i) (zdrop i l)).
Proof.
  intros. unfold slice.
  by replace ((0 <=? i) && (i <=? j) && (j <=? zlen l)) with true by lia.
Qed.

(** The slice of a concatenation at the boundaries of one of its parts. *)
Lemma slice_app {E A} (l1 l2 l3 : list A) i j :
  i = zlen l1 → j = zlen l1 + zlen l2 → @slice E A (l1 ++ l2 ++ l3) i j = Ok l2.
Proof.
  intros -> ->. pose proof (zlen_nonneg l1). pose proof (zlen_nonneg l2).
  pose proof (zlen_nonneg l3).
  rewrite slice_Ok by golen.
  rewrite zdrop_app_eq by done. f_equal. apply ztake_app_eq. lia.
Qed.

Lemma slice_to_end {E A} (l1 l2 : list A) i j :
  i = zlen l1 → j = zlen l1 + zlen l2 → @slice E A (l1 ++ l2) i j = Ok l2.
Proof. intros. rewrite <-(slice_app (E := E) l1 l2 [] i j) by done. by rewrite app_nil_r. Qed.

Lemma slice_inv {E A} (l : list A) i j r :
  @slice E A l i j = Ok r →
  0 ≤ i ≤ j ∧ j ≤ zlen l ∧ r = ztake (j - i) (zdrop i l).
Proof.
  unfold slice. destruct (_ && _) eqn:H; [|done]. intros [= <-].
  apply andb_prop in H as [[??]%andb_prop ?]. repeat split; lia.
Qed.

Lemma slice_Panic {E A} (l : list A) i j :
  @slice E A l i j = Panic ↔ ¬ (0 ≤ i ≤ j ∧ j ≤ zlen l).
Proof.
  unfold slice. split.
  - destruct (_ && _) eqn:H; [done|]. lia.
  - destruct (_ && _) eqn:H; [lia|done].
Qed.

Lemma index_app {E A} (l1 l2 : list A) x i :
  i = zlen l1 → @index E A (l1 ++ x :: l2) i = Ok x.
Proof.
  intros ->. unfold index. pose proof (zlen_nonneg l1).
  replace (0 <=? zlen l1) with true by lia.
  unfold zlen. rewrite Nat2Z.id. by rewrite list_lookup_middle.
Qed.

Lemma index_Ok {E A} (l : list A) i :
  0 ≤ i < zlen l → ∃ x, @index E A l i = Ok x ∧ l !! Z.to_nat i = Some x.
Proof.
  intros Hi. unfold index. replace (0 <=? i) with true by lia.
  destruct (lookup_lt_is_Some_2 l (Z.to_nat i)) as [x Hx].
  - unfold zlen in Hi. lia.
  - rewrite Hx. eauto.
Qed.

(** Writing at the end of what has been written so far of a zeroed buffer. *)
Lemma copy_at_zrep {E} (pre src : bytes) (n off : Z) :
  off = zlen pre → zlen src ≤ n →
  @copy_at E (pre ++ zrep n 0) off src = Ok (pre ++ src ++ zrep (n - zlen src) 0).
Proof.
  intros -> Hn. unfold copy_at.
  pose proof (zlen_nonneg pre). pose proof (zlen_nonneg src).
  assert (zlen (zrep n 0) = n) as Hz by (apply zlen_zrep; lia).
  rewrite !zlen_app, Hz.
  replace ((0 <=? zlen pre) && (zlen pre <=? zlen pre + n)) with true by lia.
  replace (Z.min (zlen src) (zlen pre + n - zlen pre)) with (zlen src) by lia.
  rewrite ztake_app_eq by done. rewrite (ztake_all _ src) by done.
  rewrite <-zdrop_zdrop by lia. rewrite zdrop_app_eq by done.
  by rewrite zdrop_zrep by lia.
Qed.

Lemma slice_drop {E A} (l : list A) i :
  0 ≤ i ≤ zlen l → @slice E A l i (zlen l) = Ok (zdrop i l).
Proof.
  intros. rewrite slice_Ok by lia. f_equal. apply ztake_all.
  by rewrite zlen_zdrop by lia.
Qed.

Lemma slice_mid {E A} (l : list A) i n :
  0 ≤ i → 0 ≤ n → i + n ≤ zlen l → @slice E A l i (i + n) = Ok (ztake n (zdrop i l)).
Proof. intros. rewrite slice_Ok by lia. do 2 f_equal. lia. Qed.

Lemma slice_drop_inv {E A} (l : list A) i r :
  @slice E A l i (zlen l) = Ok r → 0 ≤ i ≤ zlen l ∧ r = zdrop i l.
Proof.
  intros H. apply slice_inv in H as H'. rewrite slice_drop in H by lia.
  injection H as <-. split; [lia|done].
Qed.

Lemma slice_mid_inv {E A} (l : list A) i n r :
  @slice E A l i (i + n) = Ok r → 0 ≤ i ∧ 0 ≤ n ∧ i + n ≤ zlen l ∧ r = ztake n (zdrop i l).
Proof.
  intros (?&?&->)%slice_inv. split_and!; try lia. f_equal. lia.
Qed.

(** [go_inv]: take apart a successful run, step by step. *)
Ltac go_inv :=
  repeat match goal with
  | H : (_ ≫= _) = Ok _ |- _ => apply res_bind_Ok_inv in H as (? & ? & ?)
  | H : err_if _ _ = Ok _ |- _ => apply err_if_Ok_inv in H
  | H : mret _ = Ok _ |- _ => injection H as H
  | H : Ok _ = Ok _ |- _ => injection H as H
  | H : Err _ = Ok _ |- _ => discriminate H
  | H : Panic = Ok _ |- _ => discriminate H
  | H : (_, _) = (_, _) |- _ => injection H as ? ?
  | H : slice ?l _ (zlen ?l) = Ok _ |- _ => apply slice_drop_inv in H as [? H]
  | H : slice _ ?i (?i + _) = Ok _ |- _ => apply slice_mid_inv in H as (? & ? & ? & H)
  | H : _ || _ = false |- _ => apply orb_false_elim in H as [? ?]
  end; subst.

(** [go_run]: run a monadic step whose value is known. *)
Ltac go_run H := rewrite H; rewrite ?res_bind_Ok; cbv beta.

(** [rw_guards]: decide the guards of the goal from the hypotheses. *)
Ltac rw_guards :=
  repeat match goal with
  | H : ?b = true |- context [?b] => rewrite H
  | H : ?b = false |- context [?b] => rewrite H
  end; cbn [orb andb negb].

(** [buf[i] = v]. *)
Definition put_byte {E} (buf : bytes) (i v : Z) : res E bytes :=
  if (0 <=? i) && (i <? zlen buf) then copy_at buf i [v] else Panic.

Lemma put_byte_zrep {E} (pre : bytes) (n i v : Z) :
  i = zlen pre → 1 ≤ n →
  @put_byte E (pre ++ zrep n 0) i v = Ok (pre ++ [v] ++ zrep (n - 1) 0).
Proof.
  intros -> Hn. unfold put_byte. pose proof (zlen_nonneg pre).
  rewrite zlen_app, zlen_zrep by lia.
  replace ((0 <=? zlen pre) && (zlen pre <? zlen pre + n)) with true by lia.
  by rewrite copy_at_zrep by golen.
Qed.

(** Reading a part of a buffer whose structure is known. *)
Lemma slice_at {E A} (l l1 l2 l3 : list A) i j :
  l = l1 ++ l2 ++ l3 → i = zlen l1 → j = i + zlen l2 → @slice E A l i j = Ok l2.
Proof. intros -> -> ->. by apply slice_app. Qed.

Lemma index_at {E A} (l l1 l2 : list A) x i :
  l = l1 ++ x :: l2 → i = zlen l1 → @index E A l i = Ok x.
Proof. intros ->. apply index_app. Qed.

(** A list is long enough to be cut in two. *)
Lemma cut_at {A} (l : list A) n :
  0 ≤ n ≤ zlen l → ∃ l1 l2, l = l1 ++ l2 ∧ zlen l1 = n.
Proof.
  intros. exists (ztake n l), (zdrop n l). rewrite ztake_zdrop. by rewrite zlen_ztake.
Qed.

(** ** Functions that cannot panic *)

Lemma res_bind_not_Panic {E A B} (m : res E A) (f : A → res E B) :
  m ≠ Panic → (∀ a, f a ≠ Panic) → (m ≫= f) ≠ Panic.
Proof. destruct m; cbn; auto. Qed.
Lemma Ok_not_Panic {E A} (a : A) : @Ok E A a ≠ Panic.
Proof. done. Qed.
Lemma Err_not_Panic {E A} (e : E) : @Err E A e ≠ Panic.
Proof. done. Qed.

Create HintDb nopanic.
#[export] Hint Resolve res_bind_not_Panic err_if_not_Panic Ok_not_Panic Err_not_Panic : nopanic.
