(* ===== verification/GoInt.v ===== *)
(** * Go's machine integers, big-endian encoding and time *)
From S2P Require Import Prelude.

(** ** Wrap-around *)

(** Conversion to [uintW] and to [intW] (two's complement). *)
Definition uwrap (w z : Z) : Z := z mod 2 ^ w.
Definition swrap (w z : Z) : Z := (z + 2 ^ (w - 1)) mod 2 ^ w - 2 ^ (w - 1).

Abbreviation u64 := (uwrap 64).
Abbreviation u16 := (uwrap 16).
Abbreviation i64 := (swrap 64).

Definition is_u64 (z : Z) : Prop := 0 ≤ z < 2 ^ 64.
Definition is_i64 (z : Z) : Prop := - 2 ^ 63 ≤ z < 2 ^ 63.

Lemma uwrap_range w z : 0 ≤ w → 0 ≤ uwrap w z < 2 ^ w.
Proof. intros. apply Z.mod_pos_bound. lia. Qed.

Lemma uwrap_id w z : 0 ≤ z < 2 ^ w → uwrap w z = z.
Proof. apply Z.mod_small. Qed.

Lemma swrap_range w z : 0 < w → - 2 ^ (w - 1) ≤ swrap w z < 2 ^ (w - 1).
Proof.
  intros. unfold swrap.
  assert (2 ^ w = 2 * 2 ^ (w - 1)) as E
    by (rewrite <-Z.pow_succ_r by lia; f_equal; lia).
  pose proof (Z.mod_pos_bound (z + 2 ^ (w - 1)) (2 ^ w)). lia.
Qed.

Lemma swrap_id w z : 0 < w → - 2 ^ (w - 1) ≤ z < 2 ^ (w - 1) → swrap w z = z.
Proof.
  intros. unfold swrap.
  assert (2 ^ w = 2 * 2 ^ (w - 1)) as E
    by (rewrite <-Z.pow_succ_r by lia; f_equal; lia).
  rewrite Z.mod_small; lia.
Qed.

(** [int64(uint64(x))] is [x]: a signed value survives the trip through the
    unsigned type. *)
Lemma i64_u64 z : is_i64 z → i64 (u64 z) = z.
Proof.
  unfold is_i64, uwrap, swrap. intros.
  rewrite Zplus_mod_idemp_l. rewrite Z.mod_small; lia.
Qed.

(** ** Big-endian encoding ([encoding/binary.BigEndian]) *)

(** [be_split n z]: the low [n] bytes of [z], most significant first. *)
Fixpoint be_split (n : nat) (z : Z) : bytes :=
  match n with
  | O => []
  | S m => (z / 256 ^ Z.of_nat m) mod 256 :: be_split m z
  end.

(** [be_combine l]: the number whose base-256 digits are [l]. *)
Fixpoint be_combine (l : bytes) : Z :=
  match l with
  | [] => 0
  | b :: k => b * 256 ^ zlen k + be_combine k
  end.

Definition be64 (z : Z) : bytes := be_split 8 z.

#[global] Arguments be64 : simpl never.

(** [binary.BigEndian.PutUint64(buf[off:], v)]: panics unless eight bytes are
    left. *)
Definition put_u64 {E} (buf : bytes) (off v : Z) : res E bytes :=
  if (0 <=? off) && (off + 8 <=? zlen buf) then copy_at buf off (be64 v) else Panic.

(** [binary.BigEndian.Uint64(buf[off:])]. *)
Definition get_u64 {E} (buf : bytes) (off : Z) : res E Z :=
  l ← slice buf off (off + 8); mret (be_combine l).

(** [binary.BigEndian.Uint16(buf[off:])]. *)
Definition get_u16 {E} (buf : bytes) (off : Z) : res E Z :=
  l ← slice buf off (off + 2); mret (be_combine l).

Lemma length_be_split n z : length (be_split n z) = n.
Proof. induction n; simpl; lia. Qed.

Lemma zlen_be64 z : zlen (be64 z) = 8.
Proof. done. Qed.

Lemma Bytes_be_split n z : Bytes (be_split n z).
Proof.
  induction n; simpl; constructor; [|done].
  unfold is_byte. apply Z.mod_pos_bound. lia.
Qed.

Lemma be_combine_range l : Bytes l → 0 ≤ be_combine l < 256 ^ zlen l.
Proof.
  induction 1 as [|b k Hb _ IH]; cbn [be_combine]; [change (zlen []) with 0; lia|].
  unfold is_byte in Hb. pose proof (zlen_nonneg k).
  rewrite zlen_cons, Z.pow_add_r by lia. nia.
Qed.

Lemma be_combine_split n z : be_combine (be_split n z) = z mod 256 ^ Z.of_nat n.
Proof.
  induction n as [|m IH]; [by rewrite Z.mod_1_r|].
  cbn [be_split be_combine]. rewrite IH.
  unfold zlen. rewrite length_be_split.
  replace (Z.of_nat (S m)) with (Z.of_nat m + 1) by lia.
  rewrite Z.pow_add_r by lia. change (256 ^ 1) with 256.
  rewrite Z.rem_mul_r by lia. lia.
Qed.

Lemma be_split_combine l : Bytes l → be_split (length l) (be_combine l) = l.
Proof.
  induction 1 as [|b k Hb Hk IH]; [done|].
  pose proof (be_combine_range k Hk) as Hr. unfold zlen in Hr.
  assert (∀ n c z, (n ≤ length k)%nat →
    be_split n (c * 256 ^ Z.of_nat (length k) + z) = be_split n z) as Hshift.
  { clear. induction n as [|n IHn]; intros c z Hn; [done|]. cbn [be_split].
    rewrite IHn by lia. f_equal.
    replace (Z.of_nat (length k)) with
      (Z.of_nat (length k - S n) + 1 + Z.of_nat n) by lia.
    rewrite (Z.pow_add_r _ (_ + 1)), (Z.pow_add_r _ _ 1) by lia. rewrite !Z.mul_assoc.
    rewrite Z.div_add_l by lia. change (256 ^ 1) with 256.
    rewrite Z.add_comm, Z_mod_plus_full. done. }
  cbn [length be_split be_combine]. unfold zlen.
  rewrite Hshift, IH by lia. f_equal.
  rewrite Z.div_add_l by lia. rewrite Z.div_small by lia.
  rewrite Z.add_0_r. apply Z.mod_small. exact Hb.
Qed.

Lemma be_combine_be64 z : is_u64 z → be_combine (be64 z) = z.
Proof.
  intros Hz. unfold be64. rewrite be_combine_split.
  apply Z.mod_small. exact Hz.
Qed.

Lemma be64_be_combine l : Bytes l → zlen l = 8 → be64 (be_combine l) = l.
Proof.
  intros Hl Hlen. unfold be64. replace 8%nat with (length l) by (unfold zlen in Hlen; lia).
  by apply be_split_combine.
Qed.

Lemma be_combine_u64 l : Bytes l → zlen l = 8 → is_u64 (be_combine l).
Proof. intros Hl Hlen. pose proof (be_combine_range l Hl) as H. by rewrite Hlen in H. Qed.

Lemma put_u64_zrep {E} (pre : bytes) (n off v : Z) :
  off = zlen pre → 8 ≤ n →
  @put_u64 E (pre ++ zrep n 0) off v = Ok (pre ++ be64 v ++ zrep (n - 8) 0).
Proof.
  intros -> Hn. unfold put_u64. pose proof (zlen_nonneg pre).
  rewrite zlen_app, zlen_zrep by lia.
  replace ((0 <=? zlen pre) && (zlen pre + 8 <=? zlen pre + n)) with true by lia.
  rewrite copy_at_zrep by (rewrite ?zlen_be64; lia). by rewrite zlen_be64.
Qed.

#[export] Hint Resolve Bytes_be_split : bytesdb.
#[export] Hint Rewrite zlen_be64 : golen.

(** ** Durations and instants

    A [time.Duration] is an [int64] count of nanoseconds; a [time.Time] is the
    nanoseconds since the Unix epoch on one time line (monotonic readings and
    wall readings are not told apart). *)

Definition Millisecond : Z := 1000000.
Definition Second : Z := 1000 * Millisecond.
Definition Minute : Z := 60 * Second.

Definition minDuration : Z := - 2 ^ 63.
Definition maxDuration : Z := 2 ^ 63 - 1.

(** [t.Sub(u)] saturates at the ends of the [Duration] range. *)
Definition time_sub (t u : Z) : Z := Z.max minDuration (Z.min maxDuration (t - u)).

(** [t.UnixMilli()] rounds down and is an [int64]; [time.UnixMilli(ms)]. *)
Definition unix_milli (t : Z) : Z := i64 (t / Millisecond).
Definition from_unix_milli (ms : Z) : Z := ms * Millisecond.

Lemma time_sub_gt t u d : minDuration ≤ d < maxDuration → (d < time_sub t u ↔ d < t - u).
Proof. unfold time_sub. lia. Qed.

Lemma time_sub_pos t u : 0 < time_sub t u ↔ u < t.
Proof. unfold time_sub, minDuration, maxDuration. lia. Qed.

Lemma unix_milli_from ms : is_i64 ms → unix_milli (from_unix_milli ms) = ms.
Proof.
  intros H. unfold unix_milli, from_unix_milli. rewrite Z.div_mul by done.
  apply swrap_id; [lia|exact H].
Qed.

(** ** Bit fields *)

(** Or-ing in a field above the bits of the accumulator is an addition. *)
Lemma lor_shiftl_add a x n : 0 ≤ n → 0 ≤ a < 2 ^ n → Z.lor a (Z.shiftl x n) = a + x * 2 ^ n.
Proof.
  intros Hn Ha. rewrite <-Z.add_nocarry_lor; [by rewrite Z.shiftl_mul_pow2|].
  apply Z.bits_inj'. intros i Hi. rewrite Z.land_spec, Z.bits_0, Z.shiftl_spec by done.
  destruct (Z.lt_ge_cases i n) as [?|?].
  - rewrite (Z.testbit_neg_r x) by lia. apply andb_false_r.
  - destruct (decide (a = 0)) as [->|]; [by rewrite Z.bits_0|].
    rewrite (Z.bits_above_log2 a i); [done|lia|].
    apply Z.lt_le_trans with n; [|lia]. by apply Z.log2_lt_pow2; lia.
Qed.

Lemma land_low a n : 0 ≤ n → Z.land a (2 ^ n - 1) = a mod 2 ^ n.
Proof.
  intros. replace (2 ^ n - 1) with (Z.ones n) by (rewrite Z.ones_equiv; lia).
  by apply Z.land_ones.
Qed.
