(* ===== verification/Sha256.v ===== *)
(** * SHA-256 and HMAC-SHA256 (Go's [crypto/sha256] and [crypto/hmac])

    The packet codec authenticates with HMAC-SHA256 and the downloader compares
    hex digests. The functions are executable and checked on the FIPS 180-4 and
    RFC 4231 vectors; the rest of the library only uses the length and byte
    range of a digest, through the class [Mac]. *)
From S2P Require Import Prelude GoInt.

Abbreviation w32 := (uwrap 32).

Definition rotr (n x : Z) : Z := w32 (Z.lor (Z.shiftr x n) (Z.shiftl x (32 - n))).
Definition xor3 (a b c : Z) : Z := Z.lxor (Z.lxor a b) c.
Definition ch (e f g : Z) : Z := Z.lxor (Z.land e f) (Z.land (2 ^ 32 - 1 - e) g).
Definition maj (a b c : Z) : Z := xor3 (Z.land a b) (Z.land a c) (Z.land b c).
Definition bsig0 x := xor3 (rotr 2 x) (rotr 13 x) (rotr 22 x).
Definition bsig1 x := xor3 (rotr 6 x) (rotr 11 x) (rotr 25 x).
Definition ssig0 x := xor3 (rotr 7 x) (rotr 18 x) (Z.shiftr x 3).
Definition ssig1 x := xor3 (rotr 17 x) (rotr 19 x) (Z.shiftr x 10).

(** The constants of FIPS 180-4: the first 32 bits of the fractional parts of the cube
    roots of the first 64 primes, and of the square roots of the first 8. *)
Definition primes (n : nat) : list Z :=
  filter (λ p, forallb (λ d, negb (p mod d =? 0)) (Z.of_nat <$> seq 2 (Z.to_nat (Z.sqrt p) - 1)))
    (Z.of_nat <$> seq 2 n).

(** The largest [r + x] with [x < 2 ^ bits] and [(r + x) ^ 3 <= v], bit by bit. *)
Fixpoint cube_root (bits : nat) (v r : Z) : Z :=
  match bits with
  | O => r
  | S n => let r' := r + 2 ^ Z.of_nat n in cube_root n v (if r' ^ 3 <=? v then r' else r)
  end.

Definition sha_k : list Z :=
  Eval vm_compute in (λ p, cube_root 36 (p * 2 ^ 96) 0 mod 2 ^ 32) <$> primes 310.
Definition sha_h0 : list Z :=
  Eval vm_compute in (λ p, Z.sqrt (p * 2 ^ 64) mod 2 ^ 32) <$> primes 18.

Definition nth_z (l : list Z) (i : nat) : Z := default 0 (l !! i).

Example sha_constants : (length sha_k, length sha_h0) = (64, 8)%nat.
Proof. reflexivity. Qed.

(** The message schedule, most recent word first. *)
Fixpoint schedule (n : nat) (rw : list Z) : list Z :=
  match n with
  | O => rw
  | S m =>
      let w := w32 (ssig1 (nth_z rw 1) + nth_z rw 6 + ssig0 (nth_z rw 14) + nth_z rw 15) in
      schedule m (w :: rw)
  end.

Fixpoint words (n : nat) (l : bytes) : list Z :=
  match n with
  | O => []
  | S m => be_combine (take 4 l) :: words m (drop 4 l)
  end.

Definition sha_round (st : list Z) (kw : Z * Z) : list Z :=
  match st with
  | [a; b; c; d; e; f; g; h] =>
      let t1 := h + bsig1 e + ch e f g + kw.1 + kw.2 in
      let t2 := bsig0 a + maj a b c in
      [w32 (t1 + t2); a; b; c; w32 (d + t1); e; f; g]
  | _ => st
  end.

Definition compress (st : list Z) (block : bytes) : list Z :=
  let w := rev (schedule 48 (rev (words 16 block))) in
  zip_with (λ x y, w32 (x + y)) st (foldl sha_round st (zip sha_k w)).

Fixpoint hash_blocks (n : nat) (st : list Z) (l : bytes) : list Z :=
  match n with
  | O => st
  | S m => hash_blocks m (compress st (take 64 l)) (drop 64 l)
  end.

Definition sha_pad (l : bytes) : bytes :=
  l ++ [0x80] ++ zrep ((55 - zlen l) mod 64) 0 ++ be64 (8 * zlen l).

(** [sha256.Sum256]. *)
Definition sha256 (l : bytes) : bytes :=
  let p := sha_pad l in
  let h := hash_blocks (length p / 64) sha_h0 p in
  concat ((λ i, be_split 4 (nth_z h i)) <$> seq 0 8).

(** [hmac.New(sha256.New, key)], [Write(msg)], [Sum(nil)]. *)
Definition hmac_block_key (key : bytes) : bytes :=
  let k := if 64 <? zlen key then sha256 key else key in
  k ++ zrep (64 - zlen k) 0.

Definition hmac_sha256 (key msg : bytes) : bytes :=
  let k := hmac_block_key key in
  sha256 ((Z.lxor 0x5c <$> k) ++ sha256 ((Z.lxor 0x36 <$> k) ++ msg)).

(** [hex.EncodeToString]. *)
Definition hex_digit (d : Z) : Z := if d <? 10 then 48 + d else 87 + d.
Definition hex_encode (l : bytes) : bytes := b ← l; [hex_digit (b / 16); hex_digit (b mod 16)].

Lemma zlen_sha256 l : zlen (sha256 l) = 32.
Proof. done. Qed.

Lemma Bytes_sha256 l : Bytes (sha256 l).
Proof.
  unfold sha256. apply Forall_concat, Forall_fmap, Forall_true.
  intros i. apply Bytes_be_split.
Qed.

(** ** The interface of a message authentication code *)

Class Mac := {
  mac_sum : bytes → bytes → bytes;
  mac_len : ∀ key msg, zlen (mac_sum key msg) = 32;
  mac_bytes : ∀ key msg, Bytes (mac_sum key msg);
}.

#[export] Instance hmac_sha256_mac : Mac := {|
  mac_sum := hmac_sha256;
  mac_len key msg := zlen_sha256 _;
  mac_bytes key msg := Bytes_sha256 _;
|}.

#[export] Hint Resolve mac_bytes Bytes_sha256 : bytesdb.
#[export] Hint Rewrite @mac_len : golen.

(** ** Published test vectors *)

Example sha256_abc : hex_encode (sha256 (str "abc")) =
  str "ba7816bf8f01cfea414140de5dae2223b00361a396177a9cb410ff61f20015ad".
Proof. vm_compute. reflexivity. Qed.

Example sha256_empty : hex_encode (sha256 []) =
  str "e3b0c44298fc1c149afbf4c8996fb92427ae41e4649b934ca495991b7852b855".
Proof. vm_compute. reflexivity. Qed.

Example sha256_two_blocks :
  hex_encode (sha256 (str "abcdbcdecdefdefgefghfghighijhijkijkljklmklmnlmnomnopnopq")) =
  str "248d6a61d20638b8e5c026930c3e6039a33ce45964ff2167f6ecedd419db06c1".
Proof. vm_compute. reflexivity. Qed.

Example hmac_rfc4231_2 :
  hex_encode (hmac_sha256 (str "Jefe") (str "what do ya want for nothing?")) =
  str "5bdcc146bf60754e6a042426089575c75a003f089d2739839dec58b964ec3843".
Proof. vm_compute. reflexivity. Qed.
