(* ===== verification/Abi.v ===== *)
(** * The frozen verified-ingress ABI ([go.minekube.com/connect/geyserliteabi])

    The constants come from another module, so they are parameters of the
    library: the class [IngressAbi]. The class [AbiLaws] states what the Go code
    relies on, the documented layout of the four authenticated packets and of the
    bootstrap packet. [abi_v1] gives the values of version 1, which the Java side
    of the repository repeats (VerifiedIngressSubprocess.java lines 26-53,
    IngressTransport.java lines 26-36), and satisfies the laws. *)
From S2P Require Import Prelude GoInt.

Class IngressAbi := {
  CorrelationBytes : Z;
  MinIngressFrameBytes : Z;
  MaxIngressFrameBytes : Z;
  MaxIngressLifetime : Z;
  VerifiedIngressVersion : Z;

  AssignmentOK : Z;
  AssignmentUnknownOrClosedHandle : Z;
  AssignmentDuplicateHandleOrCorrelation : Z;
  AssignmentInvalidOrExpiredTime : Z;
  AssignmentWrongConnectionState : Z;
  CallbackRegistrationOK : Z;

  SubprocessFrameVersion : Z;
  SubprocessAssignment : Z;
  SubprocessAssignmentACK : Z;
  SubprocessVerifiedIngress : Z;
  SubprocessConnectionOpen : Z;
  SubprocessACKPositive : Z;
  SubprocessACKNegative : Z;

  SubprocessIPCKeyBytes : Z;
  SubprocessMACBytes : Z;
  SubprocessBootstrapPacketBytes : Z;
  SubprocessVersionOffset : Z;
  SubprocessTypeOffset : Z;
  SubprocessGenerationOffset : Z;
  SubprocessSequenceOffset : Z;
  SubprocessConnectionHandleOffset : Z;
  SubprocessCorrelationOffset : Z;
  SubprocessAssignmentExpiresOffset : Z;
  SubprocessAssignmentMACOffset : Z;
  SubprocessAssignmentPacketBytes : Z;
  SubprocessAssignmentACKStatusOffset : Z;
  SubprocessAssignmentACKMACOffset : Z;
  SubprocessAssignmentACKPacketBytes : Z;
  SubprocessVerifiedIngressPayloadOffset : Z;
  MinSubprocessVerifiedIngressPacketBytes : Z;
  MaxSubprocessVerifiedIngressPacketBytes : Z;
  SubprocessConnectionOpenMACOffset : Z;
  SubprocessConnectionOpenPacketBytes : Z;
  MaxAuthenticatedPacketBytes : Z;
}.

Class AbiLaws (A : IngressAbi) : Prop := {
  law_correlation : 0 < CorrelationBytes;
  law_min_frame : 0 < MinIngressFrameBytes;
  law_frame : MinIngressFrameBytes ≤ MaxIngressFrameBytes;
  law_lifetime : 0 < MaxIngressLifetime < maxDuration;

  law_version_byte : is_byte SubprocessFrameVersion;
  law_type_bytes : Bytes [SubprocessAssignment; SubprocessAssignmentACK;
                          SubprocessVerifiedIngress; SubprocessConnectionOpen];
  law_types : NoDup [SubprocessAssignment; SubprocessAssignmentACK;
                     SubprocessVerifiedIngress; SubprocessConnectionOpen];
  law_acks : SubprocessACKPositive ≠ SubprocessACKNegative;
  law_ack_bytes : Bytes [SubprocessACKPositive; SubprocessACKNegative];
  law_codes : NoDup [AssignmentOK; AssignmentUnknownOrClosedHandle;
                     AssignmentDuplicateHandleOrCorrelation;
                     AssignmentInvalidOrExpiredTime;
                     AssignmentWrongConnectionState; -2147483648];

  law_key : 0 < SubprocessIPCKeyBytes;
  law_mac : SubprocessMACBytes = 32;
  law_bootstrap : SubprocessBootstrapPacketBytes = 9 + SubprocessIPCKeyBytes;
  law_version_off : SubprocessVersionOffset = 0;
  law_type_off : SubprocessTypeOffset = 1;
  law_generation_off : SubprocessGenerationOffset = 2;
  law_sequence_off : SubprocessSequenceOffset = 10;
  law_handle_off : SubprocessConnectionHandleOffset = 18;
  law_correlation_off : SubprocessCorrelationOffset = 26;
  law_expires_off : SubprocessAssignmentExpiresOffset = 26 + CorrelationBytes;
  law_assignment_mac : SubprocessAssignmentMACOffset = 34 + CorrelationBytes;
  law_assignment_len : SubprocessAssignmentPacketBytes = 66 + CorrelationBytes;
  law_status_off : SubprocessAssignmentACKStatusOffset = 26 + CorrelationBytes;
  law_ack_mac : SubprocessAssignmentACKMACOffset = 27 + CorrelationBytes;
  law_ack_len : SubprocessAssignmentACKPacketBytes = 59 + CorrelationBytes;
  law_payload_off : SubprocessVerifiedIngressPayloadOffset = 26;
  law_min_verified : MinSubprocessVerifiedIngressPacketBytes = 58 + MinIngressFrameBytes;
  law_max_verified : MaxSubprocessVerifiedIngressPacketBytes = 58 + MaxIngressFrameBytes;
  law_open_mac : SubprocessConnectionOpenMACOffset = 26;
  law_open_len : SubprocessConnectionOpenPacketBytes = 58;
  law_max_packet : 66 + CorrelationBytes ≤ MaxAuthenticatedPacketBytes
                   ∧ 58 + MaxIngressFrameBytes ≤ MaxAuthenticatedPacketBytes;
  (* a constant used as an int *)
  law_max_int : MaxAuthenticatedPacketBytes < 2 ^ 63;
}.

(** Version 1. Two values the Java side does not name, the protobuf version
    field and the largest packet, are 1 and the 8192-byte read buffer. *)
#[export] Instance abi_v1 : IngressAbi := {|
  CorrelationBytes := 16;
  MinIngressFrameBytes := 1;
  MaxIngressFrameBytes := 4096;
  MaxIngressLifetime := 5 * Second;
  VerifiedIngressVersion := 1;
  AssignmentOK := 0;
  AssignmentUnknownOrClosedHandle := -1;
  AssignmentDuplicateHandleOrCorrelation := -2;
  AssignmentInvalidOrExpiredTime := -3;
  AssignmentWrongConnectionState := -4;
  CallbackRegistrationOK := 0;
  SubprocessFrameVersion := 1;
  SubprocessAssignment := 1;
  SubprocessAssignmentACK := 2;
  SubprocessVerifiedIngress := 3;
  SubprocessConnectionOpen := 4;
  SubprocessACKPositive := 0;
  SubprocessACKNegative := 1;
  SubprocessIPCKeyBytes := 32;
  SubprocessMACBytes := 32;
  SubprocessBootstrapPacketBytes := 41;
  SubprocessVersionOffset := 0;
  SubprocessTypeOffset := 1;
  SubprocessGenerationOffset := 2;
  SubprocessSequenceOffset := 10;
  SubprocessConnectionHandleOffset := 18;
  SubprocessCorrelationOffset := 26;
  SubprocessAssignmentExpiresOffset := 42;
  SubprocessAssignmentMACOffset := 50;
  SubprocessAssignmentPacketBytes := 82;
  SubprocessAssignmentACKStatusOffset := 42;
  SubprocessAssignmentACKMACOffset := 43;
  SubprocessAssignmentACKPacketBytes := 75;
  SubprocessVerifiedIngressPayloadOffset := 26;
  MinSubprocessVerifiedIngressPacketBytes := 59;
  MaxSubprocessVerifiedIngressPacketBytes := 4154;
  SubprocessConnectionOpenMACOffset := 26;
  SubprocessConnectionOpenPacketBytes := 58;
  MaxAuthenticatedPacketBytes := 8192;
|}.

#[export] Instance abi_v1_laws : AbiLaws abi_v1.
Proof.
  split; unfold is_byte, maxDuration; cbn;
    try lia; try (by repeat constructor);
    try (repeat constructor; cbn; unfold is_byte; lia);
    by apply (bool_decide_unpack _); vm_compute.
Qed.

(** The sentinel errors of ingress.go, and of a transport's reads and writes. *)
Inductive IngressError :=
| ErrIngressABI
| ErrIngressAuthentication
| ErrIngressClosed
| ErrIngressDuplicate
| ErrIngressFrame
| ErrIngressGeneration
| ErrIngressLifetime
| ErrIngressMismatch
| ErrIngressOverflow
| ErrIngressRejected
| ErrIngressSequence.

#[export] Instance IngressError_eq_dec : EqDecision IngressError.
Proof. solve_decision. Defined.
