(* ===== verification/Protobuf.v ===== *)
(** * Reading the correlation out of a VerifiedIngressV1 protobuf

    Models [consumeVarint] and [extractIngressCorrelation] of
    subprocess_ingress.go and proves them equivalent to a declarative grammar of
    protobuf messages ([VarintAt], [Fields]). *)
From S2P Require Import Prelude GoInt Abi.

(** ** The code *)

(** One iteration per byte of [for i, b := range value]. *)
Fixpoint consumeVarint_loop (i result : Z) (value : bytes) : Z * Z :=
  match value with
  | [] => (0, 0)
  | b :: value =>
      if (i =? 10) || (i =? 9) && (1 <? b) then (0, -1)
      else
        let result := Z.lor result (u64 (Z.shiftl (Z.land b 0x7f) (7 * i))) in
        if b <? 0x80 then (result, i + 1) else consumeVarint_loop (i + 1) result value
  end.

Definition consumeVarint (value : bytes) : Z * Z := consumeVarint_loop 0 0 value.

(** The variables of [extractIngressCorrelation]'s loop, besides [frame]. *)
Record extractState := {
  es_correlation : bytes;
  es_seenVersion : bool;
  es_seenCorrelation : bool;
}.

Section code.
Context {A : IngressAbi}.

Definition zeroCorrelation : bytes := zrep CorrelationBytes 0.

Definition extract_init : extractState :=
  {| es_correlation := zeroCorrelation; es_seenVersion := false; es_seenCorrelation := false |}.

(** The [switch wire]: the new variables and the rest of [frame]. *)
Definition extract_payload (s : extractState) (field wire : Z) (frame : bytes)
    : res IngressError (extractState * bytes) :=
  if wire =? 0 then
    let '(value, size) := consumeVarint frame in
    _ ← err_if (size <? 1) ErrIngressABI;
    s ← (if field =? 1 then
           _ ← err_if (es_seenVersion s || negb (value =? u64 VerifiedIngressVersion)) ErrIngressABI;
           mret {| es_correlation := es_correlation s; es_seenVersion := true;
                   es_seenCorrelation := es_seenCorrelation s |}
         else mret s);
    frame ← slice frame size (zlen frame);
    mret (s, frame)
  else if wire =? 1 then
    _ ← err_if (zlen frame <? 8) ErrIngressABI;
    frame ← slice frame 8 (zlen frame);
    mret (s, frame)
  else if wire =? 2 then
    let '(length, size) := consumeVarint frame in
    _ ← err_if ((size <? 1) || (u64 (zlen frame - size) <? length)) ErrIngressABI;
    value ← slice frame size (size + i64 length);
    s ← (if field =? 2 then
           _ ← err_if (es_seenCorrelation s || negb (zlen value =? CorrelationBytes)) ErrIngressMismatch;
           correlation ← copy_at (es_correlation s) 0 value;
           mret {| es_correlation := correlation; es_seenVersion := es_seenVersion s;
                   es_seenCorrelation := true |}
         else mret s);
    frame ← slice frame (size + i64 length) (zlen frame);
    mret (s, frame)
  else if wire =? 5 then
    _ ← err_if (zlen frame <? 4) ErrIngressABI;
    frame ← slice frame 4 (zlen frame);
    mret (s, frame)
  else Err ErrIngressABI.

(** The body of [for len(frame) > 0]. *)
Definition extract_step (s : extractState) (frame : bytes)
    : res IngressError (extractState * bytes) :=
  let '(tag, n) := consumeVarint frame in
  _ ← err_if (n <? 1) ErrIngressABI;
  frame ← slice frame n (zlen frame);
  let field := Z.shiftr tag 3 in
  let wire := Z.land tag 7 in
  _ ← err_if ((field =? 0) || (8 <? field)) ErrIngressABI;
  extract_payload s field wire frame.

(** The loop, with fuel: [None] when the fuel runs out. *)
Fixpoint extract_loop (fuel : nat) (s : extractState) (frame : bytes)
    : option (res IngressError extractState) :=
  match frame with
  | [] => Some (Ok s)
  | _ =>
      match fuel with
      | O => None
      | S fuel =>
          match extract_step s frame with
          | Ok (s, frame) => extract_loop fuel s frame
          | Err e => Some (Err e)
          | Panic => Some Panic
          end
      end
  end.

Definition extract_finish (s : extractState) : res IngressError bytes :=
  if negb (es_seenVersion s) || negb (es_seenCorrelation s)
     || bool_decide (es_correlation s = zeroCorrelation)
  then Err ErrIngressMismatch else Ok (es_correlation s).

(** [extractIngressCorrelation(frame)]: every iteration consumes a byte, so
    [len(frame)] iterations are enough ([extract_total]). *)
Definition extractIngressCorrelation (frame : bytes) : option (res IngressError bytes) :=
  r ← extract_loop (length frame) extract_init frame; Some (r ≫= extract_finish).
End code.

(** ** The grammar *)

(** The value of base-128 digits, least significant first. *)
Fixpoint varint_value (l : bytes) : Z :=
  match l with
  | [] => 0
  | b :: k => b mod 128 + 128 * varint_value k
  end.

(** [VarintAt l v rest]: [l] starts with a varint of value [v], of at most ten
    bytes, that fits 64 bits; [rest] follows. *)
Definition VarintAt (l : bytes) (v : Z) (rest : bytes) : Prop :=
  ∃ ds d, l = ds ++ d :: rest ∧ Forall (λ b, 128 ≤ b) ds ∧ d < 128
    ∧ zlen ds ≤ 9 ∧ v = varint_value (ds ++ [d]) ∧ v < 2 ^ 64.

Inductive wireValue :=
| Varint (v : Z)
| Fixed64 (b : bytes)
| LenDelimited (b : bytes)
| Fixed32 (b : bytes).

(** [PayloadAt wire l v rest]: the payload of a field of wire type [wire]. *)
Inductive PayloadAt : Z → bytes → wireValue → bytes → Prop :=
| Payload_varint l v rest : VarintAt l v rest → PayloadAt 0 l (Varint v) rest
| Payload_fixed64 b rest : zlen b = 8 → PayloadAt 1 (b ++ rest) (Fixed64 b) rest
| Payload_len l b rest :
    VarintAt l (zlen b) (b ++ rest) → PayloadAt 2 l (LenDelimited b) rest
| Payload_fixed32 b rest : zlen b = 4 → PayloadAt 5 (b ++ rest) (Fixed32 b) rest.

Inductive Fields : bytes → list (Z * wireValue) → Prop :=
| Fields_nil : Fields [] []
| Fields_cons l tag r v rest fs :
    VarintAt l tag r → 1 ≤ tag / 8 ≤ 8 → PayloadAt (tag mod 8) r v rest →
    Fields rest fs → Fields l ((tag / 8, v) :: fs).

(** The version fields and the correlation fields of a message. *)
Definition versions (fs : list (Z * wireValue)) : list Z :=
  omap (λ f, match f with (1, Varint v) => Some v | _ => None end) fs.
Definition correlations (fs : list (Z * wireValue)) : list bytes :=
  omap (λ f, match f with (2, LenDelimited b) => Some b | _ => None end) fs.

(** ** Varints *)

Lemma varint_value_bound ds : 0 ≤ varint_value ds < 2 ^ (7 * zlen ds).
Proof.
  induction ds as [|b k IH]; [done|]. cbn [varint_value].
  pose proof (Z.mod_pos_bound b 128). pose proof (zlen_nonneg k).
  rewrite zlen_cons. replace (7 * (1 + zlen k)) with (7 + 7 * zlen k) by lia.
  rewrite Z.pow_add_r by lia. change (2 ^ 7) with 128. lia.
Qed.

Lemma varint_value_app ds d :
  varint_value (ds ++ [d]) = varint_value ds + 2 ^ (7 * zlen ds) * (d mod 128).
Proof.
  induction ds as [|b k IH]; cbn [varint_value app].
  - change (zlen []) with 0. simpl. lia.
  - rewrite IH, zlen_cons. pose proof (zlen_nonneg k).
    replace (7 * (1 + zlen k)) with (7 + 7 * zlen k) by lia.
    rewrite Z.pow_add_r by lia. change (2 ^ 7) with 128. lia.
Qed.

Lemma pow7_succ i : 0 ≤ i → 2 ^ (7 * (i + 1)) = 128 * 2 ^ (7 * i).
Proof. intros. change 128 with (2 ^ 7). rewrite <-Z.pow_add_r by lia. f_equal. lia. Qed.

(** One accumulation step of the loop, when it does not overflow. *)
Lemma varint_step acc b i :
  0 ≤ i ≤ 9 → 0 ≤ acc < 2 ^ (7 * i) → is_byte b → (i = 9 → b ≤ 1) →
  let r := Z.lor acc (u64 (Z.shiftl (Z.land b 0x7f) (7 * i))) in
  r = acc + b mod 128 * 2 ^ (7 * i) ∧ 0 ≤ r < 2 ^ (7 * (i + 1)) ∧ r < 2 ^ 64.
Proof.
  intros Hi Hacc Hb Hov. cbv zeta. unfold is_byte in Hb.
  change 0x7f with (2 ^ 7 - 1). rewrite land_low by lia. change (2 ^ 7) with 128.
  pose proof (Z.mod_pos_bound b 128).
  assert (b mod 128 * 2 ^ (7 * i) + 2 ^ (7 * i) ≤ 2 ^ 64) as Hfit.
  { destruct (decide (i = 9)) as [->|].
    - rewrite Z.mod_small by lia. lia.
    - assert (2 ^ (7 * (i + 1)) ≤ 2 ^ 63) as Hle by (apply Z.pow_le_mono_r; lia).
      rewrite pow7_succ in Hle by lia. nia. }
  rewrite (uwrap_id 64); [|rewrite Z.shiftl_mul_pow2 by lia; lia].
  rewrite lor_shiftl_add by lia.
  rewrite pow7_succ by lia. repeat split; nia.
Qed.

Lemma consumeVarint_loop_sound l i acc v n :
  Bytes l → 0 ≤ i ≤ 10 → 0 ≤ acc < 2 ^ (7 * i) →
  consumeVarint_loop i acc l = (v, n) → 1 ≤ n →
  ∃ ds d rest, l = ds ++ d :: rest ∧ Forall (λ b, 128 ≤ b) ds ∧ d < 128
    ∧ n = i + zlen ds + 1 ∧ n ≤ 10 ∧ v = acc + 2 ^ (7 * i) * varint_value (ds ++ [d])
    ∧ v < 2 ^ 64.
Proof.
  intros Hl. revert i acc.
  induction Hl as [|b k Hb Hk IH]; intros i acc Hi Hacc; cbn [consumeVarint_loop].
  { intros [= <- <-] ?. lia. }
  destruct (_ || _) eqn:Hstop; [intros [= <- <-] ?; lia|].
  apply orb_false_elim in Hstop as [Hi10 Hov].
  destruct (varint_step acc b i) as (Hr & Hrange & Hfit); [lia|done|done|lia|].
  destruct (b <? 128) eqn:Hlast.
  - intros [= <- <-] _. exists [], b, k. cbn [app varint_value]. rewrite Hr in *.
    change (zlen []) with 0. repeat split; try done; lia.
  - intros Heq Hn. rewrite Hr in *.
    destruct (IH (i + 1) _ ltac:(lia) Hrange Heq Hn)
      as (ds & d & rest & -> & Hds & Hd & -> & Hlen & -> & Hv).
    exists (b :: ds), d, rest. rewrite zlen_cons. cbn [app varint_value].
    rewrite pow7_succ in * by lia.
    split_and!; try done; try lia. constructor; [lia|done].
Qed.

Lemma consumeVarint_loop_complete ds d rest i acc :
  Bytes (ds ++ [d]) → Forall (λ b, 128 ≤ b) ds → d < 128 →
  0 ≤ i → i + zlen ds ≤ 9 → 0 ≤ acc < 2 ^ (7 * i) →
  acc + 2 ^ (7 * i) * varint_value (ds ++ [d]) < 2 ^ 64 →
  consumeVarint_loop i acc (ds ++ d :: rest) =
    (acc + 2 ^ (7 * i) * varint_value (ds ++ [d]), i + zlen ds + 1).
Proof.
  intros Hb Hds Hd. revert i acc.
  induction Hds as [|b k Hbig Hk IH]; intros i acc Hi Hlen Hacc Hfit;
    cbn [app consumeVarint_loop varint_value] in *; apply Forall_cons_1 in Hb as [Hb Hrest].
  - change (zlen []) with 0 in *.
    assert (i = 9 → d ≤ 1) as Hov.
    { intros ->. unfold is_byte in Hb. rewrite Z.mod_small in Hfit by lia. lia. }
    destruct (varint_step acc d i) as (Hr & _ & _); [lia|done|done|done|].
    replace ((i =? 10) || (i =? 9) && (1 <? d)) with false by lia.
    replace (d <? 128) with true by lia. rewrite Hr. f_equal; lia.
  - rewrite zlen_cons in *. pose proof (zlen_nonneg k).
    destruct (varint_step acc b i) as (Hr & Hrange & _); [lia|done|done|lia|].
    replace ((i =? 10) || (i =? 9) && (1 <? b)) with false by lia.
    replace (b <? 128) with false by lia. rewrite Hr in *.
    rewrite IH; try done; rewrite ?pow7_succ in * by lia; [f_equal|..]; lia.
Qed.

(** [consumeVarint] reads exactly the varints of the grammar. *)
Lemma consumeVarint_VarintAt l v n :
  Bytes l → (consumeVarint l = (v, n) ∧ 1 ≤ n) ↔ (1 ≤ n ≤ zlen l ∧ VarintAt l v (zdrop n l)).
Proof.
  intros Hl. unfold consumeVarint, VarintAt. split.
  - intros [Heq Hn].
    destruct (consumeVarint_loop_sound l 0 0 v n) as
      (ds & d & rest & -> & Hds & Hd & -> & Hlen & -> & Hv); try done; try lia.
    pose proof (zlen_nonneg ds). pose proof (zlen_nonneg rest).
    rewrite zlen_app, zlen_cons. split; [lia|].
    rewrite cons_middle, app_assoc, zdrop_app_eq by golen.
    exists ds, d. rewrite <-app_assoc. cbn [app]. split_and!; try done; lia.
  - intros [Hn (ds & d & Heq & Hds & Hd & Hlen & -> & Hv)].
    assert (zlen (zdrop n l) = zlen l - n) as Hr by (apply zlen_zdrop; lia).
    set (rest := zdrop n l) in *. clearbody rest. subst l.
    rewrite zlen_app, zlen_cons in Hr. pose proof (zlen_nonneg ds).
    rewrite (consumeVarint_loop_complete ds d rest 0 0); try done; try lia.
    + split; [f_equal|]; lia.
    + rewrite cons_middle, app_assoc in Hl. by apply Forall_app in Hl as [? _].
Qed.

Lemma VarintAt_suffix l v rest :
  VarintAt l v rest → ∃ n, 1 ≤ n ≤ zlen l ∧ rest = zdrop n l.
Proof.
  intros (ds & d & -> & _). exists (zlen ds + 1).
  pose proof (zlen_nonneg ds). pose proof (zlen_nonneg rest).
  rewrite zlen_app, zlen_cons. split; [lia|].
  by rewrite cons_middle, app_assoc, zdrop_app_eq by golen.
Qed.

Lemma VarintAt_nonneg l v rest : VarintAt l v rest → 0 ≤ v < 2 ^ 64.
Proof. intros (ds & d & _ & _ & _ & _ & -> & Hv). pose proof (varint_value_bound (ds ++ [d])). lia. Qed.

(** The two directions in the form the proofs below use. *)
Lemma consumeVarint_sound l v n :
  Bytes l → consumeVarint l = (v, n) → 1 ≤ n → n ≤ zlen l ∧ VarintAt l v (zdrop n l).
Proof. intros Hl Heq Hn. destruct (proj1 (consumeVarint_VarintAt l v n Hl)) as [??]; [done|]. split; [lia|done]. Qed.

Lemma consumeVarint_complete l v rest :
  Bytes l → VarintAt l v rest →
  ∃ n, consumeVarint l = (v, n) ∧ 1 ≤ n ≤ zlen l ∧ rest = zdrop n l.
Proof.
  intros Hl Hv. destruct (VarintAt_suffix _ _ _ Hv) as (n & Hn & ->).
  exists n. by destruct (proj2 (consumeVarint_VarintAt l v n Hl)).
Qed.

(** ** Fields *)

Section fields.
Context {A : IngressAbi}.

(** What one parsed field does to the loop's variables. *)
Definition apply_field (s : extractState) (f : Z * wireValue) : option extractState :=
  match f with
  | (1, Varint v) =>
      if es_seenVersion s || negb (v =? u64 VerifiedIngressVersion) then None
      else Some {| es_correlation := es_correlation s; es_seenVersion := true;
                   es_seenCorrelation := es_seenCorrelation s |}
  | (2, LenDelimited b) =>
      if es_seenCorrelation s || negb (zlen b =? CorrelationBytes) then None
      else Some {| es_correlation := b; es_seenVersion := es_seenVersion s;
                   es_seenCorrelation := true |}
  | _ => Some s
  end.

Fixpoint apply_fields (s : extractState) (fs : list (Z * wireValue)) : option extractState :=
  match fs with [] => Some s | f :: fs => s ← apply_field s f; apply_fields s fs end.

Definition corr_len (s : extractState) : Prop := zlen (es_correlation s) = CorrelationBytes.

Lemma copy_whole {E} (c b : bytes) : zlen c = zlen b → @copy_at E c 0 b = Ok b.
Proof.
  intros Hc. unfold copy_at. pose proof (zlen_nonneg c).
  replace ((0 <=? 0) && (0 <=? zlen c)) with true by lia.
  replace (Z.min (zlen b) (zlen c - 0)) with (zlen b) by lia.
  rewrite (ztake_all (zlen b) b) by done. change (ztake 0 c) with (@nil Z).
  rewrite <-(app_nil_r c), zdrop_app_eq by lia. by rewrite app_nil_r.
Qed.

(** The bits of a tag are its quotient and remainder by 8. *)
Lemma tag_bits tag : Z.shiftr tag 3 = tag / 8 ∧ Z.land tag 7 = tag mod 8.
Proof.
  split; [by rewrite Z.shiftr_div_pow2|].
  change 7 with (2 ^ 3 - 1). by rewrite land_low.
Qed.

Lemma apply_field_other s n v :
  match v with Varint _ => n ≠ 1 | LenDelimited _ => n ≠ 2 | _ => True end →
  apply_field s (n, v) = Some s.
Proof. destruct v; cbn; intros; repeat case_match; done. Qed.

(** The length of a field of wire type 2 fits an [int] when it passes the
    bounds check, so the conversions are harmless. *)
Lemma len_in_range (r : bytes) length size :
  zlen r < 2 ^ 63 → 1 ≤ size ≤ zlen r → 0 ≤ length →
  (u64 (zlen r - size) <? length) = false →
  length ≤ zlen r - size ∧ i64 length = length.
Proof.
  intros Hr Hsize Hl. rewrite uwrap_id by lia. intros.
  split; [lia|]. apply swrap_id; lia.
Qed.

Lemma extract_payload_sound s field wire r s' rest :
  zlen r < 2 ^ 63 → Bytes r → corr_len s →
  extract_payload s field wire r = Ok (s', rest) →
  ∃ v, PayloadAt wire r v rest ∧ apply_field s (field, v) = Some s'.
Proof.
  intros Hlt Hr Hs. unfold extract_payload.
  destruct (wire =? 0) eqn:W0; [|destruct (wire =? 1) eqn:W1;
    [|destruct (wire =? 2) eqn:W2; [|destruct (wire =? 5) eqn:W5; [|done]]]].
  - apply Z.eqb_eq in W0 as ->. destruct (consumeVarint r) as [v size] eqn:Hv.
    intros H. go_inv. destruct (consumeVarint_sound _ _ _ Hr Hv) as [Hn Hat]; [lia|].
    exists (Varint v). split; [by constructor|].
    destruct (Z.eqb_spec field 1) as [->|]; go_inv; [|by apply apply_field_other].
    cbn [apply_field]. by rw_guards.
  - apply Z.eqb_eq in W1 as ->. intros H. go_inv. exists (Fixed64 (ztake 8 r)).
    split; [|by apply apply_field_other]. rewrite <-(ztake_zdrop 8 r) at 1.
    constructor. apply zlen_ztake. lia.
  - apply Z.eqb_eq in W2 as ->. destruct (consumeVarint r) as [length size] eqn:Hv.
    intros H. go_inv. destruct (consumeVarint_sound _ _ _ Hr Hv) as [Hn Hat]; [lia|].
    pose proof (VarintAt_nonneg _ _ _ Hat).
    destruct (len_in_range r length size) as [Hle Hi64]; [done|lia|lia|done|].
    rewrite Hi64 in *.
    set (b := ztake length (zdrop size r)) in *.
    assert (zlen b = length) as Hb by (apply zlen_ztake; rewrite zlen_zdrop; lia).
    exists (LenDelimited b). split.
    + constructor. rewrite Hb, <-zdrop_zdrop by lia.
      change b with (ztake length (zdrop size r)). by rewrite ztake_zdrop.
    + clearbody b. destruct (Z.eqb_spec field 2) as [->|]; go_inv; [|by apply apply_field_other].
      assert (zlen b = CorrelationBytes) as Hcb by lia.
      match goal with H : copy_at _ _ _ = _ |- _ => rewrite copy_whole in H by congruence end.
      go_inv. cbn [apply_field]. by rw_guards.
  - apply Z.eqb_eq in W5 as ->. intros H. go_inv. exists (Fixed32 (ztake 4 r)).
    split; [|by apply apply_field_other]. rewrite <-(ztake_zdrop 4 r) at 1.
    constructor. apply zlen_ztake. lia.
Qed.

Lemma extract_step_sound s frame s' rest :
  zlen frame < 2 ^ 63 → Bytes frame → corr_len s → extract_step s frame = Ok (s', rest) →
  ∃ tag r v, VarintAt frame tag r ∧ 1 ≤ tag / 8 ≤ 8 ∧ PayloadAt (tag mod 8) r v rest
    ∧ apply_field s (tag / 8, v) = Some s'.
Proof.
  intros Hlt Hb Hs. unfold extract_step. destruct (consumeVarint frame) as [tag n] eqn:Htag.
  destruct (tag_bits tag) as [-> ->]. intros H. go_inv.
  destruct (consumeVarint_sound _ _ _ Hb Htag) as [Hn Hv]; [lia|].
  pose proof (VarintAt_nonneg _ _ _ Hv). pose proof (Z.div_pos tag 8).
  match goal with H : extract_payload _ _ _ _ = _ |- _ =>
    apply extract_payload_sound in H as (v & Hp & Ha) end;
    [|rewrite zlen_zdrop; lia|by apply Forall_zdrop|done].
  exists tag, (zdrop n frame), v. split_and!; try done; lia.
Qed.

Lemma extract_payload_complete s field wire r v s' rest :
  zlen r < 2 ^ 63 → Bytes r → corr_len s → PayloadAt wire r v rest →
  apply_field s (field, v) = Some s' →
  extract_payload s field wire r = Ok (s', rest).
Proof.
  intros Hlt Hr Hs Hp Ha. destruct Hp as [l v rest Hat|b rest Hb|l b rest Hat|b rest Hb];
    unfold extract_payload; cbn [Z.eqb Pos.eqb].
  - destruct (consumeVarint_complete _ _ _ Hr Hat) as (n & -> & Hn & ->).
    replace (n <? 1) with false by lia. cbn. rewrite slice_drop by lia.
    destruct (Z.eqb_spec field 1) as [->|].
    + cbn [apply_field] in Ha. destruct (_ || _); [done|]. by injection Ha as <-.
    + rewrite apply_field_other in Ha by done. by injection Ha as <-.
  - rewrite apply_field_other in Ha by done. injection Ha as <-.
    pose proof (zlen_nonneg rest). replace (zlen (b ++ rest) <? 8) with false by golen.
    cbn. by rewrite slice_drop, zdrop_app_eq by golen.
  - destruct (consumeVarint_complete _ _ _ Hr Hat) as (n & -> & Hn & Hrest).
    pose proof (zlen_nonneg b). pose proof (zlen_nonneg rest).
    assert (zlen b + zlen rest = zlen l - n) as Hlen
      by (rewrite <-zlen_app, Hrest; apply zlen_zdrop; lia).
    rewrite (uwrap_id 64) by lia. rewrite (swrap_id 64) by lia.
    replace ((n <? 1) || (zlen l - n <? zlen b)) with false by lia. cbn.
    rewrite slice_mid by lia. rewrite <-Hrest, ztake_app_eq by done. cbn.
    rewrite slice_drop by lia. rewrite <-zdrop_zdrop, <-Hrest, zdrop_app_eq by lia.
    destruct (Z.eqb_spec field 2) as [->|].
    + cbn [apply_field] in Ha. destruct (_ || _) eqn:Hbad; [done|]. injection Ha as <-. cbn.
      rewrite copy_whole; [done|]. unfold corr_len in Hs. lia.
    + rewrite apply_field_other in Ha by done. by injection Ha as <-.
  - rewrite apply_field_other in Ha by done. injection Ha as <-.
    pose proof (zlen_nonneg rest). replace (zlen (b ++ rest) <? 4) with false by golen.
    cbn. by rewrite slice_drop, zdrop_app_eq by golen.
Qed.

Lemma extract_step_complete s frame tag r v rest s' :
  zlen frame < 2 ^ 63 → Bytes frame → corr_len s →
  VarintAt frame tag r → 1 ≤ tag / 8 ≤ 8 → PayloadAt (tag mod 8) r v rest →
  apply_field s (tag / 8, v) = Some s' →
  extract_step s frame = Ok (s', rest).
Proof.
  intros Hlt Hb Hs Hat Hfield Hp Ha. unfold extract_step.
  destruct (consumeVarint_complete _ _ _ Hb Hat) as (n & -> & Hn & ->).
  replace (n <? 1) with false by lia. cbn. rewrite slice_drop by lia. cbn.
  destruct (tag_bits tag) as [-> ->].
  replace ((tag / 8 =? 0) || (8 <? tag / 8)) with false by lia. cbn.
  eapply extract_payload_complete; try done; [rewrite zlen_zdrop by lia; lia|].
  by apply Forall_zdrop.
Qed.

(** ** The loop terminates, and nothing in it panics *)

Lemma PayloadAt_suffix w l v rest : PayloadAt w l v rest → ∃ p, l = p ++ rest.
Proof.
  intros [l' x r Hv|b r _|l' b r Hv|b r _]; try (by exists b);
    apply VarintAt_suffix in Hv as (n & _ & Hr); [exists (ztake n l')|].
  - by rewrite Hr, ztake_zdrop.
  - exists (ztake n l' ++ b). by rewrite <-app_assoc, Hr, ztake_zdrop.
Qed.

Lemma extract_step_shorter s frame s' rest :
  zlen frame < 2 ^ 63 → Bytes frame → corr_len s → extract_step s frame = Ok (s', rest) →
  zlen rest < zlen frame ∧ Bytes rest ∧ corr_len s'.
Proof.
  intros Hlt Hb Hs H.
  destruct (extract_step_sound _ _ _ _ Hlt Hb Hs H) as (tag & r & v & Hat & _ & Hp & Ha).
  destruct (VarintAt_suffix _ _ _ Hat) as (n & Hn & ->).
  destruct (PayloadAt_suffix _ _ _ _ Hp) as [p Hsuffix].
  apply (Forall_zdrop _ n) in Hb as Hr. rewrite Hsuffix in Hr.
  assert (zlen (zdrop n frame) = zlen frame - n) as Hlen by (apply zlen_zdrop; lia).
  rewrite Hsuffix, zlen_app in Hlen. pose proof (zlen_nonneg p).
  split_and!; [lia| |].
  - by apply Forall_app in Hr as [_ ?].
  - unfold apply_field in Ha. repeat case_match; simplify_eq; try done.
    unfold corr_len. cbn. match goal with G : _ || _ = false |- _ => apply orb_false_elim in G as [_ G] end.
    lia.
Qed.

Lemma extract_step_no_panic s frame :
  zlen frame < 2 ^ 63 → Bytes frame → corr_len s → extract_step s frame ≠ Panic.
Proof.
  intros Hlt Hb Hs. unfold extract_step. destruct (consumeVarint frame) as [tag n] eqn:Htag.
  destruct (tag_bits tag) as [-> ->].
  destruct (n <? 1) eqn:Hn; [done|]. cbn.
  destruct (consumeVarint_sound _ _ _ Hb Htag) as [Hn' Hv]; [lia|].
  rewrite slice_drop by lia. cbn. destruct (_ || _); [done|]. cbn.
  assert (zlen (zdrop n frame) < 2 ^ 63) as Hrlt by (rewrite zlen_zdrop; lia).
  apply (Forall_zdrop _ n) in Hb. set (r := zdrop n frame) in *. clearbody r.
  clear Htag Hn Hn' Hv Hlt. unfold extract_payload.
  destruct (_ =? 0); [|destruct (_ =? 1); [|destruct (_ =? 2); [|destruct (_ =? 5); [|done]]]].
  - destruct (consumeVarint r) as [v size] eqn:Hval.
    destruct (size <? 1) eqn:Hsize; [done|]. cbn.
    destruct (consumeVarint_sound _ _ _ Hb Hval) as [??]; [lia|].
    rewrite slice_drop by lia. destruct (_ =? 1); [destruct (_ || _)|]; done.
  - destruct (zlen r <? 8) eqn:?; [done|]. cbn. by rewrite slice_drop by lia.
  - destruct (consumeVarint r) as [len size] eqn:Hval.
    destruct (_ || _) eqn:Hbad; [done|]. cbn. apply orb_false_elim in Hbad as [Hsize Hlen].
    destruct (consumeVarint_sound _ _ _ Hb Hval) as [? Hat]; [lia|].
    pose proof (VarintAt_nonneg _ _ _ Hat).
    destruct (len_in_range r len size) as [? Hi]; [done|lia|lia|done|]. rewrite Hi.
    rewrite slice_mid by lia. cbn. rewrite slice_drop by lia.
    destruct (_ =? 2); [|done]. destruct (_ || _) eqn:Hbad; [done|]. cbn.
    rewrite copy_whole; [done|]. unfold corr_len in Hs. lia.
  - destruct (zlen r <? 4) eqn:?; [done|]. cbn. by rewrite slice_drop by lia.
Qed.

Lemma extract_loop_total fuel s frame :
  zlen frame < 2 ^ 63 → Bytes frame → corr_len s → (length frame ≤ fuel)%nat →
  ∃ r, extract_loop fuel s frame = Some r ∧ r ≠ Panic.
Proof.
  revert s frame. induction fuel as [|fuel IH]; intros s frame Hlt Hb Hs Hfuel.
  - destruct frame; [by eexists|]. simpl in Hfuel. lia.
  - destruct frame as [|b0 k]; [by eexists|]. cbn [extract_loop].
    destruct (extract_step s (b0 :: k)) as [[s' rest]| |] eqn:Hstep; [|by eexists|].
    + destruct (extract_step_shorter _ _ _ _ Hlt Hb Hs Hstep) as (Hless & ? & ?).
      apply IH; try done; unfold zlen in *; lia.
    + by destruct (extract_step_no_panic s (b0 :: k)).
Qed.

(** ** The loop computes the effect of the parsed fields *)

Lemma Fields_nil_inv fs : Fields [] fs → fs = [].
Proof.
  inversion 1 as [|l tag r v rest fs' Hat]; subst; [done|].
  apply VarintAt_suffix in Hat as (n & Hn & _). change (zlen []) with 0 in Hn. lia.
Qed.

Lemma extract_loop_Fields fuel s frame s' :
  zlen frame < 2 ^ 63 → Bytes frame → corr_len s → (length frame ≤ fuel)%nat →
  extract_loop fuel s frame = Some (Ok s') ↔
  ∃ fs, Fields frame fs ∧ apply_fields s fs = Some s'.
Proof.
  revert s frame. induction fuel as [|fuel IH]; intros s frame Hlt Hb Hs Hfuel.
  all: destruct frame as [|b0 k]; [|try (simpl in Hfuel; lia)]; cbn [extract_loop].
  1,2: split; [intros [= <-]; exists []; split; [constructor|done]|].
  1,2: intros (fs & ->%Fields_nil_inv & Ha); by injection Ha as <-.
  split.
  - destruct (extract_step s (b0 :: k)) as [[s1 rest]| |] eqn:Hstep; try done.
    destruct (extract_step_shorter _ _ _ _ Hlt Hb Hs Hstep) as (Hless & Hb' & Hs').
    intros Hloop. apply IH in Hloop as (fs & Hfs & Ha); try done; [|unfold zlen in *; lia..].
    destruct (extract_step_sound _ _ _ _ Hlt Hb Hs Hstep) as (tag & r & v & ? & ? & ? & Hf).
    exists ((tag / 8, v) :: fs). split; [by econstructor|]. cbn [apply_fields]. by rewrite Hf.
  - intros (fs & Hf & Ha). inversion Hf as [|l tag r v rest fs' Hat Hfield Hp Hfs]; subst.
    cbn [apply_fields] in Ha. destruct (apply_field s (tag / 8, v)) as [s1|] eqn:Hf1; [|done].
    rewrite (extract_step_complete s (b0 :: k) tag r v rest s1) by done.
    pose proof (extract_step_complete s (b0 :: k) tag r v rest s1
      Hlt Hb Hs Hat Hfield Hp Hf1) as Hstep.
    destruct (extract_step_shorter _ _ _ _ Hlt Hb Hs Hstep) as (Hless & Hb' & Hs').
    apply IH; try done; [unfold zlen in *; lia..|]. by exists fs'.
Qed.

(** ** What the fields leave behind: at most one version, one correlation *)

Definition seen_versions (s : extractState) : list Z :=
  if es_seenVersion s then [u64 VerifiedIngressVersion] else [].
Definition seen_correlations (s : extractState) : list bytes :=
  if es_seenCorrelation s then [es_correlation s] else [].

Lemma apply_fields_seen fs s s' :
  apply_fields s fs = Some s' →
  seen_versions s' = seen_versions s ++ versions fs
  ∧ seen_correlations s' = seen_correlations s ++ correlations fs
  ∧ (corr_len s → corr_len s').
Proof.
  revert s. induction fs as [|[n v] fs IH]; intros s; cbn [apply_fields].
  { intros [= <-]. by rewrite !app_nil_r. }
  destruct (apply_field s (n, v)) as [s1|] eqn:Hf; [|done]. cbn.
  intros (-> & -> & Hlen)%IH. unfold apply_field in Hf.
  repeat case_match; simplify_eq; try done;
    match goal with G : _ || _ = false |- _ => apply orb_false_elim in G as [E G] end;
    unfold seen_versions, seen_correlations; rewrite E; cbn; split_and!; try done.
  - intros _. apply Hlen. unfold corr_len. cbn. lia.
  - f_equal. lia.
Qed.

Lemma apply_fields_Some fs s c :
  seen_versions s ++ versions fs = [u64 VerifiedIngressVersion] →
  seen_correlations s ++ correlations fs = [c] → zlen c = CorrelationBytes →
  ∃ s', apply_fields s fs = Some s'.
Proof.
  revert s. induction fs as [|[n v] fs IH]; intros s Hv Hc Hlen; cbn [apply_fields]; [by eexists|].
  destruct (apply_field s (n, v)) as [s1|] eqn:Hf.
  - assert (apply_fields s [(n, v)] = Some s1) as (Hv1 & Hc1 & _)%apply_fields_seen
      by (cbn [apply_fields]; by rewrite Hf).
    cbn. apply IH; [| |done];
      rewrite ?Hv1, ?Hc1, <-app_assoc; unfold versions, correlations in *;
      rewrite <-omap_app; assumption.
  - exfalso. unfold apply_field in Hf.
    unfold seen_versions, seen_correlations in *.
    repeat case_match; simplify_eq; cbn in *; simplify_eq; lia.
Qed.
End fields.

(** ** Properties *)

Section properties.
Context {A : IngressAbi} {L : AbiLaws A}.

Lemma corr_len_init : corr_len extract_init.
Proof. apply zlen_zrep. pose proof law_correlation. lia. Qed.

(** C22: [extractIngressCorrelation] accepts exactly the messages of the
    protobuf grammar with field numbers 1 to 8 that have one version field, of
    the frozen version, and one correlation field, of the frozen width and not
    all zero; it then returns that correlation. *)
Theorem extractIngressCorrelation_spec (frame c : bytes) :
  Bytes frame → zlen frame < 2 ^ 63 →
  extractIngressCorrelation frame = Some (Ok c) ↔
  ∃ fs, Fields frame fs ∧ versions fs = [u64 VerifiedIngressVersion]
    ∧ correlations fs = [c] ∧ zlen c = CorrelationBytes ∧ c ≠ zeroCorrelation.
Proof.
  intros Hb Hlt. unfold extractIngressCorrelation.
  pose proof corr_len_init as Hinit.
  pose proof (extract_loop_Fields (length frame) extract_init frame) as Hloop. split.
  - destruct (extract_loop _ _ _) as [[s| |]|]; cbn; try done. unfold extract_finish.
    destruct (_ || _) eqn:Hfin; [done|]. intros [= <-].
    apply orb_false_elim in Hfin as [[Hv Hc]%orb_false_elim Hz%bool_decide_eq_false].
    destruct (proj1 (Hloop s Hlt Hb Hinit ltac:(lia)) eq_refl) as (fs & Hf & Ha).
    apply apply_fields_seen in Ha as (Hv' & Hc' & Hlen).
    unfold seen_versions, seen_correlations in *. apply negb_false_iff in Hv, Hc.
    rewrite Hv in Hv'. rewrite Hc in Hc'. exists fs.
    split_and!; [done|by rewrite Hv'|by rewrite Hc'|by apply Hlen|done].
  - intros (fs & Hf & Hv & Hc & Hlen & Hz).
    destruct (apply_fields_Some fs extract_init c) as [s Ha]; [done..|].
    rewrite (proj2 (Hloop s Hlt Hb Hinit ltac:(lia))) by eauto. cbn.
    apply apply_fields_seen in Ha as (Hv' & Hc' & _). rewrite Hv in Hv'. rewrite Hc in Hc'.
    unfold seen_versions, seen_correlations, extract_finish in *. cbn in Hv', Hc'.
    destruct (es_seenVersion s); [|done]. destruct (es_seenCorrelation s); [|done].
    injection Hc' as ->. by rewrite bool_decide_eq_false_2.
Qed.

Lemma extract_returns (frame : bytes) :
  Bytes frame → zlen frame < 2 ^ 63 →
  ∃ r, extractIngressCorrelation frame = Some r ∧ r ≠ Panic.
Proof.
  intros Hb Hlt. unfold extractIngressCorrelation.
  destruct (extract_loop_total (length frame) extract_init frame) as (r & -> & Hr);
    [done|done|apply corr_len_init|lia|].
  cbn. eexists. split; [done|]. destruct r; cbn; try done.
  unfold extract_finish. by destruct (_ || _).
Qed.
(** [extractIngressCorrelation] returns on every byte string, with a
    correlation or an error: the loop terminates and no slice expression is out
    of range. *)
Theorem extractIngressCorrelation_total (frame : bytes) :
  Bytes frame → zlen frame < 2 ^ 63 →
  ∃ r, extractIngressCorrelation frame = Some r ∧ r ≠ Panic.
Proof. apply extract_returns. Qed.
End properties.

(** ** Witnesses *)

(** Field 1 is version 1, field 2 the correlation 1..16, field 3 a fixed64. *)
Definition sample_correlation : bytes := Z.of_nat <$> seq 1 16.
Definition sample_frame : bytes :=
  [8; 1; 18; 16] ++ sample_correlation ++ [25; 0; 0; 0; 0; 0; 0; 0; 0].

Lemma extractIngressCorrelation_spec_witness :
  extractIngressCorrelation sample_frame = Some (Ok sample_correlation)
  ∧ ∃ fs, Fields sample_frame fs ∧ versions fs = [u64 VerifiedIngressVersion]
      ∧ correlations fs = [sample_correlation] ∧ zlen sample_correlation = CorrelationBytes
      ∧ sample_correlation ≠ zeroCorrelation.
Proof.
  split; [by vm_compute|].
  apply (extractIngressCorrelation_spec sample_frame sample_correlation); [|done|by vm_compute].
  by apply (bool_decide_unpack _); vm_compute.
Defined.

Lemma extractIngressCorrelation_total_witness :
  ∃ r, extractIngressCorrelation [18; 200; 1; 0] = Some r ∧ r ≠ Panic.
Proof.
  apply extractIngressCorrelation_total; [|done].
  by apply (bool_decide_unpack _); vm_compute.
Defined.
