(* ===== verification/Packet.v ===== *)
(** * The authenticated packets of the subprocess transport

    Models the codec of subprocess_ingress.go: the bootstrap packet, the four
    encoders and [decodeAuthenticatedPacket]. The main results: an encoder never
    panics and lays its fields out as the frozen ABI says; decoding inverts
    encoding; and a packet is accepted only if it is the encoding, under the key,
    of what was decoded, with the expected generation and sequence number. *)
From S2P Require Import Prelude GoInt Sha256 Abi Protobuf.

Record authenticatedPacket := AuthenticatedPacket {
  ap_typ : Z;
  ap_generation : Z;
  ap_sequence : Z;
  ap_handle : Z;
  ap_correlation : bytes;
  ap_expiresUnixMS : Z;
  ap_status : Z;
  ap_payload : bytes;
}.

#[export] Instance authenticatedPacket_eq_dec : EqDecision authenticatedPacket.
Proof. solve_decision. Defined.

Section code.
Context {A : IngressAbi} {M : Mac}.

Definition encodeSubprocessBootstrap (generation : Z) (key : bytes)
    : res IngressError bytes :=
  _ ← err_if ((generation =? 0) || negb (zlen key =? SubprocessIPCKeyBytes)) ErrIngressABI;
  let packet := zrep SubprocessBootstrapPacketBytes 0 in
  packet ← put_byte packet 0 SubprocessFrameVersion;
  packet ← put_u64 packet 1 generation;
  copy_at packet 9 key.

Definition authenticatedPrefix (typ generation sequence handle size : Z)
    : res IngressError bytes :=
  let packet := zrep size 0 in
  packet ← put_byte packet SubprocessVersionOffset SubprocessFrameVersion;
  packet ← put_byte packet SubprocessTypeOffset typ;
  packet ← put_u64 packet SubprocessGenerationOffset generation;
  packet ← put_u64 packet SubprocessSequenceOffset sequence;
  put_u64 packet SubprocessConnectionHandleOffset handle.

Definition signAuthenticatedPacket (packet key : bytes) (macOffset : Z)
    : res IngressError bytes :=
  prefix ← slice packet 0 macOffset;
  copy_at packet macOffset (mac_sum key prefix).

Definition encodeAssignmentPacket (key : bytes) (generation sequence handle : Z)
    (correlation : bytes) (expiresUnixMS : Z) : res IngressError bytes :=
  packet ← authenticatedPrefix SubprocessAssignment generation sequence handle
             SubprocessAssignmentPacketBytes;
  packet ← copy_at packet SubprocessCorrelationOffset correlation;
  packet ← put_u64 packet SubprocessAssignmentExpiresOffset expiresUnixMS;
  signAuthenticatedPacket packet key SubprocessAssignmentMACOffset.

Definition encodeACKPacket (key : bytes) (generation sequence handle : Z)
    (correlation : bytes) (status : Z) : res IngressError bytes :=
  packet ← authenticatedPrefix SubprocessAssignmentACK generation sequence handle
             SubprocessAssignmentACKPacketBytes;
  packet ← copy_at packet SubprocessCorrelationOffset correlation;
  packet ← put_byte packet SubprocessAssignmentACKStatusOffset status;
  signAuthenticatedPacket packet key SubprocessAssignmentACKMACOffset.

Definition encodeConnectionOpenPacket (key : bytes) (generation sequence handle : Z)
    : res IngressError bytes :=
  packet ← authenticatedPrefix SubprocessConnectionOpen generation sequence handle
             SubprocessConnectionOpenPacketBytes;
  signAuthenticatedPacket packet key SubprocessConnectionOpenMACOffset.

Definition encodeVerifiedPacket (key : bytes) (generation sequence handle : Z)
    (payload : bytes) : res IngressError bytes :=
  let macOffset := SubprocessVerifiedIngressPayloadOffset + zlen payload in
  packet ← authenticatedPrefix SubprocessVerifiedIngress generation sequence handle
             (macOffset + SubprocessMACBytes);
  packet ← copy_at packet SubprocessVerifiedIngressPayloadOffset payload;
  signAuthenticatedPacket packet key macOffset.

(** The first [switch typ]: the length check of each type and where its MAC
    starts. *)
Definition packetMACOffset (typ len : Z) : res IngressError Z :=
  if typ =? SubprocessAssignment then
    _ ← err_if (negb (len =? SubprocessAssignmentPacketBytes)) ErrIngressABI;
    mret SubprocessAssignmentMACOffset
  else if typ =? SubprocessAssignmentACK then
    _ ← err_if (negb (len =? SubprocessAssignmentACKPacketBytes)) ErrIngressABI;
    mret SubprocessAssignmentACKMACOffset
  else if typ =? SubprocessVerifiedIngress then
    _ ← err_if ((len <? MinSubprocessVerifiedIngressPacketBytes)
                || (MaxSubprocessVerifiedIngressPacketBytes <? len)) ErrIngressFrame;
    mret (len - SubprocessMACBytes)
  else if typ =? SubprocessConnectionOpen then
    _ ← err_if (negb (len =? SubprocessConnectionOpenPacketBytes)) ErrIngressABI;
    mret SubprocessConnectionOpenMACOffset
  else Err ErrIngressABI.

(** The second [switch typ]: the fields after the handle. *)
Definition decodeBody (packet : bytes) (macOffset typ generation sequence handle : Z)
    : res IngressError authenticatedPacket :=
  let decoded correlation expires status payload :=
    AuthenticatedPacket typ generation sequence handle correlation expires status payload in
  if typ =? SubprocessAssignment then
    field ← slice packet SubprocessCorrelationOffset SubprocessAssignmentExpiresOffset;
    correlation ← copy_at zeroCorrelation 0 field;
    expires ← get_u64 packet SubprocessAssignmentExpiresOffset;
    mret (decoded correlation expires 0 [])
  else if typ =? SubprocessAssignmentACK then
    field ← slice packet SubprocessCorrelationOffset SubprocessAssignmentACKStatusOffset;
    correlation ← copy_at zeroCorrelation 0 field;
    status ← index packet SubprocessAssignmentACKStatusOffset;
    _ ← err_if (negb (status =? SubprocessACKPositive) && negb (status =? SubprocessACKNegative))
          ErrIngressRejected;
    mret (decoded correlation 0 status [])
  else if typ =? SubprocessVerifiedIngress then
    payload ← slice packet SubprocessVerifiedIngressPayloadOffset macOffset;
    mret (decoded zeroCorrelation 0 0 payload)
  else mret (decoded zeroCorrelation 0 0 []).

Definition decodeAuthenticatedPacket (packet key : bytes) (generation sequence : Z)
    : res IngressError authenticatedPacket :=
  _ ← err_if (negb (zlen key =? SubprocessIPCKeyBytes)
              || (MaxAuthenticatedPacketBytes <? zlen packet)
              || (zlen packet <? SubprocessConnectionOpenPacketBytes)) ErrIngressABI;
  typ ← index packet SubprocessTypeOffset;
  macOffset ← packetMACOffset typ (zlen packet);
  prefix ← slice packet 0 macOffset;
  tail ← slice packet macOffset (zlen packet);
  _ ← err_if (negb (bool_decide (tail = mac_sum key prefix))) ErrIngressAuthentication;
  version ← index packet SubprocessVersionOffset;
  _ ← err_if (negb (version =? SubprocessFrameVersion)) ErrIngressABI;
  gen ← get_u64 packet SubprocessGenerationOffset;
  seq ← get_u64 packet SubprocessSequenceOffset;
  handle ← get_u64 packet SubprocessConnectionHandleOffset;
  _ ← err_if (negb (gen =? generation) || (generation =? 0)) ErrIngressGeneration;
  _ ← err_if (negb (seq =? sequence) || (sequence =? 0)) ErrIngressSequence;
  _ ← err_if (handle =? 0) ErrIngressMismatch;
  decodeBody packet macOffset typ gen seq handle.
End code.

(** ** The layout of the packets *)

Section layout.
Context {A : IngressAbi} {L : AbiLaws A} {M : Mac}.

(** The 26 bytes every authenticated packet starts with. *)
Definition header (typ generation sequence handle : Z) : bytes :=
  [SubprocessFrameVersion; typ] ++ be64 generation ++ be64 sequence ++ be64 handle.

Definition signed (key body : bytes) : bytes := body ++ mac_sum key body.

(** What an authenticated packet carries after the header. *)
Definition fields_of (p : authenticatedPacket) : bytes :=
  if ap_typ p =? SubprocessAssignment then ap_correlation p ++ be64 (ap_expiresUnixMS p)
  else if ap_typ p =? SubprocessAssignmentACK then ap_correlation p ++ [ap_status p]
  else if ap_typ p =? SubprocessVerifiedIngress then ap_payload p
  else [].

Definition wire (key : bytes) (p : authenticatedPacket) : bytes :=
  signed key (header (ap_typ p) (ap_generation p) (ap_sequence p) (ap_handle p)
              ++ fields_of p).

(** The encoder of each type. *)
Definition encodePacket (key : bytes) (p : authenticatedPacket) : res IngressError bytes :=
  let '(AuthenticatedPacket typ generation sequence handle correlation expires status payload) := p in
  if typ =? SubprocessAssignment then
    encodeAssignmentPacket key generation sequence handle correlation expires
  else if typ =? SubprocessAssignmentACK then
    encodeACKPacket key generation sequence handle correlation status
  else if typ =? SubprocessVerifiedIngress then
    encodeVerifiedPacket key generation sequence handle payload
  else encodeConnectionOpenPacket key generation sequence handle.

#[local] Arguments header : simpl never.

Lemma zlen_header typ g s h : zlen (header typ g s h) = 26.
Proof. done. Qed.

Lemma authenticatedPrefix_layout typ g s h size :
  26 ≤ size →
  authenticatedPrefix typ g s h size = Ok (header typ g s h ++ zrep (size - 26) 0).
Proof.
  intros Hsize. unfold authenticatedPrefix, header.
  rewrite law_version_off, law_type_off, law_generation_off, law_sequence_off, law_handle_off.
  rewrite <-(app_nil_l (zrep size 0)), put_byte_zrep by (done || lia).
  rewrite res_bind_Ok, app_nil_l, put_byte_zrep by (done || lia).
  rewrite res_bind_Ok, app_assoc, put_u64_zrep by (done || lia).
  rewrite res_bind_Ok, app_assoc, put_u64_zrep by (done || lia).
  rewrite res_bind_Ok, app_assoc, put_u64_zrep by (done || lia).
  replace (size - 1 - 1 - 8 - 8 - 8) with (size - 26) by lia. by rewrite <-!app_assoc.
Qed.

Lemma signAuthenticatedPacket_layout body key :
  signAuthenticatedPacket (body ++ zrep 32 0) key (zlen body) = Ok (signed key body).
Proof.
  unfold signAuthenticatedPacket. pose proof (zlen_nonneg body).
  rewrite (slice_at _ [] body (zrep 32 0)) by (done || lia). cbn [mbind res_bind].
  rewrite copy_at_zrep by (rewrite ?mac_len; lia). rewrite mac_len.
  unfold signed. change (zrep (32 - 32) 0) with (@nil Z). by rewrite app_nil_r.
Qed.

(** A well-formed packet value: what the encoders are called with, and the
    fields the type does not carry at their zero value. *)
Record wf_packet (p : authenticatedPacket) : Prop := {
  wf_typ : ap_typ p ∈ [SubprocessAssignment; SubprocessAssignmentACK;
                       SubprocessVerifiedIngress; SubprocessConnectionOpen];
  wf_generation : is_u64 (ap_generation p) ∧ ap_generation p ≠ 0;
  wf_sequence : is_u64 (ap_sequence p) ∧ ap_sequence p ≠ 0;
  wf_handle : is_u64 (ap_handle p) ∧ ap_handle p ≠ 0;
  wf_correlation : zlen (ap_correlation p) = CorrelationBytes ∧ Bytes (ap_correlation p);
  wf_no_correlation : ap_typ p ∈ [SubprocessVerifiedIngress; SubprocessConnectionOpen] →
    ap_correlation p = zeroCorrelation;
  wf_expires : is_u64 (ap_expiresUnixMS p);
  wf_no_expires : ap_typ p ≠ SubprocessAssignment → ap_expiresUnixMS p = 0;
  wf_status : ap_typ p = SubprocessAssignmentACK →
    ap_status p = SubprocessACKPositive ∨ ap_status p = SubprocessACKNegative;
  wf_no_status : ap_typ p ≠ SubprocessAssignmentACK → ap_status p = 0;
  wf_payload : Bytes (ap_payload p)
    ∧ (ap_typ p = SubprocessVerifiedIngress →
       MinIngressFrameBytes ≤ zlen (ap_payload p) ≤ MaxIngressFrameBytes);
  wf_no_payload : ap_typ p ≠ SubprocessVerifiedIngress → ap_payload p = [];
}.

(** The four types are different. *)
Lemma types_differ :
  (SubprocessAssignmentACK =? SubprocessAssignment) = false
  ∧ (SubprocessVerifiedIngress =? SubprocessAssignment) = false
  ∧ (SubprocessVerifiedIngress =? SubprocessAssignmentACK) = false
  ∧ (SubprocessConnectionOpen =? SubprocessAssignment) = false
  ∧ (SubprocessConnectionOpen =? SubprocessAssignmentACK) = false
  ∧ (SubprocessConnectionOpen =? SubprocessVerifiedIngress) = false.
Proof.
  pose proof law_types as Htypes.
  repeat setoid_rewrite NoDup_cons in Htypes.
  repeat setoid_rewrite not_elem_of_cons in Htypes.
  rewrite !Z.eqb_neq. destruct_and?. split_and!; congruence.
Qed.

Lemma encodeAssignment_layout key g s h c e :
  zlen c = CorrelationBytes →
  encodeAssignmentPacket key g s h c e =
    Ok (signed key (header SubprocessAssignment g s h ++ c ++ be64 e)).
Proof.
  intros Hc. unfold encodeAssignmentPacket. pose proof law_correlation.
  rewrite law_assignment_len, law_correlation_off, law_expires_off, law_assignment_mac.
  rewrite authenticatedPrefix_layout, res_bind_Ok by lia.
  rewrite copy_at_zrep, res_bind_Ok by (rewrite ?zlen_header; lia).
  rewrite app_assoc, put_u64_zrep, res_bind_Ok by (rewrite ?zlen_app, ?zlen_header; lia).
  rewrite !app_assoc, <-!(app_assoc (header _ _ _ _)).
  replace (66 + CorrelationBytes - 26 - zlen c - 8) with 32 by lia.
  replace (34 + CorrelationBytes) with (zlen (header SubprocessAssignment g s h ++ c ++ be64 e))
    by (rewrite !zlen_app, zlen_header, zlen_be64; lia).
  apply signAuthenticatedPacket_layout.
Qed.

Lemma encodeACK_layout key g s h c st :
  zlen c = CorrelationBytes →
  encodeACKPacket key g s h c st =
    Ok (signed key (header SubprocessAssignmentACK g s h ++ c ++ [st])).
Proof.
  intros Hc. unfold encodeACKPacket. pose proof law_correlation.
  rewrite law_ack_len, law_correlation_off, law_status_off, law_ack_mac.
  rewrite authenticatedPrefix_layout, res_bind_Ok by lia.
  rewrite copy_at_zrep, res_bind_Ok by (rewrite ?zlen_header; lia).
  rewrite app_assoc, put_byte_zrep, res_bind_Ok by (rewrite ?zlen_app, ?zlen_header; lia).
  rewrite !app_assoc, <-!(app_assoc (header _ _ _ _)).
  replace (59 + CorrelationBytes - 26 - zlen c - 1) with 32 by lia.
  replace (27 + CorrelationBytes) with (zlen (header SubprocessAssignmentACK g s h ++ c ++ [st]))
    by (rewrite !zlen_app, zlen_header; change (zlen [st]) with 1; lia).
  apply signAuthenticatedPacket_layout.
Qed.

Lemma encodeVerified_layout key g s h payload :
  encodeVerifiedPacket key g s h payload =
    Ok (signed key (header SubprocessVerifiedIngress g s h ++ payload)).
Proof.
  unfold encodeVerifiedPacket. pose proof (zlen_nonneg payload).
  rewrite law_payload_off, law_mac.
  rewrite authenticatedPrefix_layout, res_bind_Ok by lia.
  rewrite copy_at_zrep, res_bind_Ok by (rewrite ?zlen_header; lia).
  replace (26 + zlen payload + 32 - 26 - zlen payload) with 32 by lia.
  rewrite app_assoc.
  replace (26 + zlen payload) with (zlen (header SubprocessVerifiedIngress g s h ++ payload))
    by (rewrite zlen_app, zlen_header; lia).
  apply signAuthenticatedPacket_layout.
Qed.

Lemma encodeConnectionOpen_layout key g s h :
  encodeConnectionOpenPacket key g s h =
    Ok (signed key (header SubprocessConnectionOpen g s h)).
Proof.
  unfold encodeConnectionOpenPacket. rewrite law_open_len, law_open_mac.
  rewrite authenticatedPrefix_layout, res_bind_Ok by lia.
  apply signAuthenticatedPacket_layout.
Qed.

Lemma encodePacket_wire key p : wf_packet p → encodePacket key p = Ok (wire key p).
Proof.
  intros [Htyp _ _ _ [Hc _] _ _ _ _ _ _ _]. destruct p as [typ g s h c e st payload]. cbn in *.
  unfold wire, fields_of. cbn. destruct types_differ as (Ha & Hb & Hd & He & Hf & Hg).
  rewrite !elem_of_cons in Htyp. destruct Htyp as [-> | [-> | [-> | [-> | []%not_elem_of_nil]]]];
    rewrite ?Z.eqb_refl; rw_guards.
  - by apply encodeAssignment_layout.
  - by apply encodeACK_layout.
  - apply encodeVerified_layout.
  - rewrite encodeConnectionOpen_layout. by rewrite app_nil_r.
Qed.
End layout.

(** ** Decoding *)

Section decoding.
Context {A : IngressAbi} {L : AbiLaws A} {M : Mac}.
#[local] Arguments header : simpl never.

Lemma packetMACOffset_Ok typ len off :
  packetMACOffset typ len = Ok off → off = len - 32 ∧
    typ ∈ [SubprocessAssignment; SubprocessAssignmentACK;
           SubprocessVerifiedIngress; SubprocessConnectionOpen].
Proof.
  unfold packetMACOffset, err_if. intros H.
  repeat match type of H with context [if ?b then _ else _] =>
    destruct b eqn:?; simpl in H end; simplify_eq;
    rewrite ?law_assignment_len, ?law_assignment_mac, ?law_ack_len, ?law_ack_mac,
      ?law_open_len, ?law_open_mac, ?law_mac in *;
    go_inv; (split; [lia|]); rewrite !elem_of_cons; lia.
Qed.

(** The decoder on a packet cut into its parts: no offsets left. *)
Definition decodeFields (t gen seq handle : Z) (body : bytes)
    : res IngressError authenticatedPacket :=
  let decoded c e st p := AuthenticatedPacket t gen seq handle c e st p in
  if t =? SubprocessAssignment then
    Ok (decoded (ztake CorrelationBytes body) (be_combine (zdrop CorrelationBytes body)) 0 [])
  else if t =? SubprocessAssignmentACK then
    let st := be_combine (zdrop CorrelationBytes body) in
    _ ← err_if (negb (st =? SubprocessACKPositive) && negb (st =? SubprocessACKNegative))
          ErrIngressRejected;
    Ok (decoded (ztake CorrelationBytes body) 0 st [])
  else if t =? SubprocessVerifiedIngress then Ok (decoded zeroCorrelation 0 0 body)
  else Ok (decoded zeroCorrelation 0 0 []).

Definition decodeParts (v t : Z) (g s h body mac key : bytes) (generation sequence : Z)
    : res IngressError authenticatedPacket :=
  _ ← packetMACOffset t (58 + zlen body);
  _ ← err_if (negb (bool_decide (mac = mac_sum key ([v; t] ++ g ++ s ++ h ++ body))))
        ErrIngressAuthentication;
  _ ← err_if (negb (v =? SubprocessFrameVersion)) ErrIngressABI;
  _ ← err_if (negb (be_combine g =? generation) || (generation =? 0)) ErrIngressGeneration;
  _ ← err_if (negb (be_combine s =? sequence) || (sequence =? 0)) ErrIngressSequence;
  _ ← err_if (be_combine h =? 0) ErrIngressMismatch;
  decodeFields t (be_combine g) (be_combine s) (be_combine h) body.

Lemma be_combine_byte b : be_combine [b] = b.
Proof. cbn [be_combine]. change (zlen []) with 0. lia. Qed.

Lemma copy_correlation (c : bytes) :
  zlen c = CorrelationBytes → @copy_at IngressError zeroCorrelation 0 c = Ok c.
Proof.
  intros Hc. apply copy_whole. pose proof law_correlation.
  unfold zeroCorrelation. rewrite zlen_zrep; lia.
Qed.

Lemma decodeBody_parts pre body mac off t gen seq handle :
  zlen pre = 26 → zlen mac = 32 → packetMACOffset t (58 + zlen body) = Ok off →
  decodeBody (pre ++ body ++ mac) off t gen seq handle = decodeFields t gen seq handle body.
Proof.
  intros Hpre Hmac Hoff. destruct (packetMACOffset_Ok _ _ _ Hoff) as [-> _].
  unfold packetMACOffset in Hoff. unfold decodeBody, decodeFields.
  pose proof law_correlation. pose proof (zlen_nonneg body).
  rewrite law_correlation_off, law_expires_off, law_status_off, law_payload_off.
  rewrite law_assignment_len, law_ack_len in Hoff.
  destruct (t =? SubprocessAssignment); [|destruct (t =? SubprocessAssignmentACK);
    [|destruct (t =? SubprocessVerifiedIngress); [|done]]]; go_inv.
  1,2: destruct (cut_at body CorrelationBytes) as (c & rest & -> & Hc); [lia|];
    rewrite zlen_app in *; rewrite ztake_app_eq, zdrop_app_eq by lia.
  - rewrite (slice_at _ pre c (rest ++ mac)), res_bind_Ok, copy_correlation, res_bind_Ok
      by (rewrite <-?app_assoc; done || lia).
    unfold get_u64.
    rewrite (slice_at _ (pre ++ c) rest mac), res_bind_Ok
      by (rewrite ?zlen_app, <-?app_assoc; done || lia). done.
  - destruct rest as [|st [|? ?]]; rewrite ?zlen_cons in *; change (zlen []) with 0 in *;
      [lia| |pose proof (zlen_nonneg l); lia].
    rewrite (slice_at _ pre c ([st] ++ mac)), res_bind_Ok, copy_correlation, res_bind_Ok
      by (rewrite <-?app_assoc; done || lia).
    rewrite (index_at _ (pre ++ c) mac st), res_bind_Ok
      by (rewrite ?zlen_app, <-?app_assoc; done || lia).
    by rewrite be_combine_byte.
  - rewrite (slice_at _ pre body mac) by (done || lia). done.
Qed.

Lemma decode_parts v t g s h body mac key gen seq :
  zlen g = 8 → zlen s = 8 → zlen h = 8 → zlen mac = 32 →
  zlen key = SubprocessIPCKeyBytes → 58 + zlen body ≤ MaxAuthenticatedPacketBytes →
  decodeAuthenticatedPacket (([v; t] ++ g ++ s ++ h) ++ body ++ mac) key gen seq =
  decodeParts v t g s h body mac key gen seq.
Proof.
  intros Hg Hs Hh Hmac Hkey Hmax. unfold decodeAuthenticatedPacket, decodeParts.
  pose proof (zlen_nonneg body).
  assert (zlen ([v; t] ++ g ++ s ++ h) = 26) as Hpre
    by (rewrite !zlen_app; change (zlen [v; t]) with 2; lia).
  set (pre := [v; t] ++ g ++ s ++ h) in *.
  assert (zlen (pre ++ body ++ mac) = 58 + zlen body) as Hlen by (rewrite !zlen_app; lia).
  rewrite Hlen, law_open_len, law_type_off, law_version_off, law_generation_off,
    law_sequence_off, law_handle_off, Hkey, Z.eqb_refl.
  replace (_ || _ || _) with false by lia. cbn [err_if]. rewrite res_bind_Ok.
  rewrite (index_at _ [v] (g ++ s ++ h ++ body ++ mac) t 1), res_bind_Ok
    by (unfold pre; rewrite <-?app_assoc; done).
  destruct (packetMACOffset t (58 + zlen body)) as [off| |] eqn:Hoff; [|done..].
  destruct (packetMACOffset_Ok _ _ _ Hoff) as [Heq _]. rewrite !res_bind_Ok.
  rewrite (slice_at _ [] (pre ++ body) mac 0 off), res_bind_Ok
    by (rewrite ?zlen_app, <-?app_assoc; done || lia).
  rewrite (slice_at _ (pre ++ body) mac [] off (58 + zlen body)), res_bind_Ok
    by (rewrite ?zlen_app, ?app_nil_r, <-?app_assoc; done || lia).
  replace (pre ++ body) with ([v; t] ++ g ++ s ++ h ++ body)
    by (unfold pre; by rewrite <-!app_assoc).
  destruct (err_if _ ErrIngressAuthentication); [|done..]. rewrite !res_bind_Ok.
  rewrite (index_at _ [] (t :: g ++ s ++ h ++ body ++ mac) v 0), res_bind_Ok
    by (unfold pre; rewrite <-?app_assoc; done).
  destruct (err_if _ ErrIngressABI); [|done..]. rewrite !res_bind_Ok. unfold get_u64.
  rewrite (slice_at _ [v; t] g (s ++ h ++ body ++ mac) 2), !res_bind_Ok
    by (unfold pre; rewrite <-?app_assoc; done || lia).
  rewrite (slice_at _ ([v; t] ++ g) s (h ++ body ++ mac) 10), !res_bind_Ok
    by (unfold pre; rewrite <-?app_assoc; done || lia || golen).
  rewrite (slice_at _ ([v; t] ++ g ++ s) h (body ++ mac) 18), !res_bind_Ok
    by (unfold pre; rewrite <-?app_assoc; done || lia || golen).
  unfold mret, res_ret. rewrite !res_bind_Ok.
  repeat (destruct (err_if _ _); [|done..]; rewrite !res_bind_Ok).
  by apply decodeBody_parts.
Qed.

Lemma Bytes_zeroCorrelation : Bytes zeroCorrelation.
Proof. apply Forall_zrep. unfold is_byte. lia. Qed.

Lemma zlen_zeroCorrelation : zlen zeroCorrelation = CorrelationBytes.
Proof. apply zlen_zrep. pose proof law_correlation. lia. Qed.

Lemma is_u64_0 : is_u64 0.
Proof. unfold is_u64. lia. Qed.

(** The clauses of [wf_packet] for a packet whose type is known. *)
Ltac solve_wf :=
  split; cbn; rewrite ?elem_of_cons, ?elem_of_nil; intros; destruct_or?;
  try done; try congruence; try lia; auto with lia.

(** What the structural decoder returns carries the type's bytes. *)
Lemma decodeFields_Ok t off gen seq handle body p :
  packetMACOffset t (58 + zlen body) = Ok off → Bytes body →
  is_u64 gen ∧ gen ≠ 0 → is_u64 seq ∧ seq ≠ 0 → is_u64 handle ∧ handle ≠ 0 →
  decodeFields t gen seq handle body = Ok p →
  wf_packet p ∧ fields_of p = body ∧ ap_typ p = t ∧ ap_generation p = gen
  ∧ ap_sequence p = seq ∧ ap_handle p = handle.
Proof.
  intros Hoff Hb Hg Hs Hh. destruct (packetMACOffset_Ok _ _ _ Hoff) as [_ Ht].
  pose proof Bytes_zeroCorrelation. pose proof zlen_zeroCorrelation. pose proof is_u64_0.
  pose proof law_correlation. destruct types_differ as (N1 & N2 & N3 & N4 & N5 & N6).
  pose proof N1 as ?%Z.eqb_neq. pose proof N2 as ?%Z.eqb_neq. pose proof N3 as ?%Z.eqb_neq.
  pose proof N4 as ?%Z.eqb_neq. pose proof N5 as ?%Z.eqb_neq. pose proof N6 as ?%Z.eqb_neq.
  unfold packetMACOffset in Hoff. unfold decodeFields, fields_of.
  rewrite law_assignment_len, law_ack_len, law_open_len, law_min_verified, law_max_verified in Hoff.
  destruct (Z.eqb_spec t SubprocessAssignment) as [->|NA];
    [|destruct (Z.eqb_spec t SubprocessAssignmentACK) as [->|NK];
    [|destruct (Z.eqb_spec t SubprocessVerifiedIngress) as [->|NV];
    [|destruct (Z.eqb_spec t SubprocessConnectionOpen) as [->|NO]; [|done]]]];
    apply res_bind_Ok_inv in Hoff as (? & Hlen%err_if_Ok_inv & _); intros Hdec; go_inv.
  1,2: destruct (cut_at body CorrelationBytes) as (c & rest & -> & Hc); [lia|];
    apply Forall_app in Hb as [Hbc Hbr]; rewrite zlen_app in Hlen;
    rewrite ztake_app_eq, zdrop_app_eq in * by lia.
  - cbn. rewrite Z.eqb_refl, be64_be_combine by (done || lia).
    split; [|done]. solve_wf. apply be_combine_u64; [done|lia].
  - destruct rest as [|st [|? ?]]; rewrite ?zlen_cons in Hlen; change (zlen []) with 0 in Hlen;
      [lia| |pose proof (zlen_nonneg l); lia].
    rewrite be_combine_byte in *. cbn. rw_guards. rewrite Z.eqb_refl.
    split; [|done]. solve_wf.
  - cbn. rw_guards. rewrite Z.eqb_refl. split; [|done]. solve_wf.
  - cbn. rw_guards. rewrite (zlen_zero_inv body) by lia. split; [|done]. solve_wf.
Qed.
End decoding.

(** ** Properties *)

Section properties.
Context {A : IngressAbi} {L : AbiLaws A} {M : Mac}.

(** [decodeAuthenticatedPacket] rejects what is too short, too long or read with
    a key of the wrong size before it looks at a byte. *)
Lemma decode_bounds packet key gen seq :
  zlen key = SubprocessIPCKeyBytes →
  zlen packet < 58 ∨ MaxAuthenticatedPacketBytes < zlen packet →
  decodeAuthenticatedPacket packet key gen seq = Err ErrIngressABI.
Proof.
  intros Hkey Hlen. unfold decodeAuthenticatedPacket. rewrite law_open_len.
  by replace (_ || _ || _) with true by lia.
Qed.

(** A packet within the bounds is a header, a body and a MAC. *)
Lemma packet_parts (packet : bytes) :
  58 ≤ zlen packet → ∃ v t g s h body mac,
    packet = ([v; t] ++ g ++ s ++ h) ++ body ++ mac
    ∧ zlen g = 8 ∧ zlen s = 8 ∧ zlen h = 8 ∧ zlen mac = 32 ∧ zlen packet = 58 + zlen body.
Proof.
  intros Hlen.
  destruct (cut_at packet (zlen packet - 32)) as (front & mac & -> & Hf); [lia|].
  rewrite zlen_app in *.
  destruct front as [|v [|t front]]; rewrite ?zlen_cons in *;
    change (zlen []) with 0 in *; [lia..|].
  destruct (cut_at front 8) as (g & r1 & -> & Hg); [lia|]. rewrite zlen_app in *.
  destruct (cut_at r1 8) as (s & r2 & -> & Hs); [lia|]. rewrite zlen_app in *.
  destruct (cut_at r2 8) as (h & body & -> & Hh); [lia|]. rewrite zlen_app in *.
  exists v, t, g, s, h, body, mac. rewrite <-!app_assoc. cbn [app]. rewrite <-!app_assoc.
  split_and!; try done; lia.
Qed.

Lemma decodeParts_Ok v t g s h body mac key gen seq p :
  zlen g = 8 → zlen s = 8 → zlen h = 8 →
  Bytes g → Bytes s → Bytes h → Bytes body →
  decodeParts v t g s h body mac key gen seq = Ok p →
  wf_packet p ∧ ap_generation p = gen ∧ ap_sequence p = seq
  ∧ wire key p = ([v; t] ++ g ++ s ++ h) ++ body ++ mac.
Proof.
  intros Hg Hs Hh Bg Bs Bh Bb. unfold decodeParts. intros H. go_inv.
  pose proof (be_combine_u64 _ Bg Hg). pose proof (be_combine_u64 _ Bs Hs).
  pose proof (be_combine_u64 _ Bh Hh).
  match goal with Hdec : decodeFields _ _ _ _ _ = _, Hoff : packetMACOffset _ _ = _ |- _ =>
    apply (decodeFields_Ok _ _ _ _ _ _ _ Hoff Bb) in Hdec
      as (Hwf & Hfields & Ht & Hgen & Hseq & Hhandle); [|split; [done|lia]..] end.
  unfold wire. rewrite Hfields, Ht, Hgen, Hseq, Hhandle. split_and!; [done|lia|lia|].
  unfold header, signed. rewrite !be64_be_combine by done.
  match goal with Hv : negb (v =? _) = false |- _ =>
    replace v with SubprocessFrameVersion in * by lia end.
  match goal with Hm : negb (bool_decide _) = false |- _ =>
    apply negb_false_iff, bool_decide_eq_true in Hm; rewrite Hm end.
  by rewrite <-!app_assoc.
Qed.

(** The decoder reads back the bytes a type carries. *)
Lemma decode_fields_of p :
  wf_packet p →
  packetMACOffset (ap_typ p) (58 + zlen (fields_of p)) = Ok (26 + zlen (fields_of p))
  ∧ 58 + zlen (fields_of p) ≤ MaxAuthenticatedPacketBytes
  ∧ decodeFields (ap_typ p) (ap_generation p) (ap_sequence p) (ap_handle p) (fields_of p) = Ok p.
Proof.
  intros [Htyp _ _ _ [Hc _] Hnc He Hne Hst Hnst [_ Hp] Hnp].
  destruct p as [typ g s h c e st payload]. cbn in *.
  pose proof law_max_packet. pose proof law_correlation. pose proof (zlen_nonneg payload).
  destruct types_differ as (N1 & N2 & N3 & N4 & N5 & N6).
  pose proof N1 as ?%Z.eqb_neq. pose proof N2 as ?%Z.eqb_neq. pose proof N3 as ?%Z.eqb_neq.
  pose proof N4 as ?%Z.eqb_neq. pose proof N5 as ?%Z.eqb_neq. pose proof N6 as ?%Z.eqb_neq.
  unfold fields_of, packetMACOffset, decodeFields. cbn.
  rewrite law_assignment_len, law_assignment_mac, law_ack_len, law_ack_mac, law_open_len,
    law_open_mac, law_min_verified, law_max_verified, law_mac.
  rewrite !elem_of_cons in Htyp.
  destruct Htyp as [-> | [-> | [-> | [-> | []%not_elem_of_nil]]]]; rewrite ?Z.eqb_refl; rw_guards.
  - rewrite zlen_app, zlen_be64, ztake_app_eq, zdrop_app_eq, be_combine_be64 by (done || lia).
    rewrite Hnst, Hnp by congruence.
    replace (58 + (zlen c + 8) =? _) with true by lia. cbn. split_and!; [f_equal; lia|lia|done].
  - rewrite zlen_app, ztake_app_eq, zdrop_app_eq, be_combine_byte by (done || lia).
    change (zlen [st]) with 1. rewrite Hne, Hnp by congruence.
    replace (58 + (zlen c + 1) =? _) with true by lia.
    destruct (Hst eq_refl) as [-> | ->]; rewrite !Z.eqb_refl, ?andb_false_r; cbn;
      (split_and!; [f_equal; lia|lia|done]).
  - rewrite Hnc, Hne, Hnst by (congruence || by left).
    replace ((58 + zlen payload <? _) || _) with false by (specialize (Hp eq_refl); lia).
    cbn. split_and!; [f_equal; lia|specialize (Hp eq_refl); lia|done].
  - rewrite Hnc, Hne, Hnst, Hnp by (congruence || by right; left).
    change (zlen []) with 0. cbn. split_and!; [done|lia|done].
Qed.

Lemma decode_wire key p :
  zlen key = SubprocessIPCKeyBytes → wf_packet p →
  decodeAuthenticatedPacket (wire key p) key (ap_generation p) (ap_sequence p) = Ok p.
Proof.
  intros Hkey Hwf. pose proof law_max_packet. pose proof law_frame.
  assert (packetMACOffset (ap_typ p) (58 + zlen (fields_of p)) =
            Ok (26 + zlen (fields_of p))
          ∧ 58 + zlen (fields_of p) ≤ MaxAuthenticatedPacketBytes
          ∧ decodeFields (ap_typ p) (ap_generation p) (ap_sequence p) (ap_handle p)
              (fields_of p) = Ok p) as (Hoff & Hmax & Hfields) by by apply decode_fields_of.
  destruct Hwf as [_ [Hg Hg0] [Hs Hs0] [Hh Hh0] _ _ _ _ _ _ _ _].
  unfold wire, signed, header. rewrite <-(app_assoc _ (fields_of p)).
  rewrite decode_parts by (done || apply mac_len). unfold decodeParts.
  rewrite Hoff, res_bind_Ok, <-!app_assoc, bool_decide_eq_true_2 by done.
  rewrite !be_combine_be64, !Z.eqb_refl by done.
  replace (ap_generation p =? 0) with false by lia.
  replace (ap_sequence p =? 0) with false by lia.
  replace (ap_handle p =? 0) with false by lia. cbn [negb orb err_if].
  by rewrite !res_bind_Ok.
Qed.

(** C23: a packet value survives the trip through its encoder and the decoder. *)
Theorem decode_encode (key : bytes) (p : authenticatedPacket) :
  zlen key = SubprocessIPCKeyBytes → wf_packet p →
  ∃ packet, encodePacket key p = Ok packet
    ∧ decodeAuthenticatedPacket packet key (ap_generation p) (ap_sequence p) = Ok p.
Proof.
  intros Hkey Hwf. exists (wire key p).
  by rewrite encodePacket_wire, decode_wire.
Qed.

Lemma decode_sound (packet key : bytes) (gen seq : Z) (p : authenticatedPacket) :
  Bytes packet → decodeAuthenticatedPacket packet key gen seq = Ok p →
  wf_packet p ∧ ap_generation p = gen ∧ ap_sequence p = seq
  ∧ encodePacket key p = Ok packet.
Proof.
  intros Hb Hdec.
  assert (zlen key = SubprocessIPCKeyBytes
    ∧ 58 ≤ zlen packet ≤ MaxAuthenticatedPacketBytes) as [Hkey Hlen].
  { pose proof Hdec as H. unfold decodeAuthenticatedPacket in H.
    rewrite law_open_len in H. go_inv. lia. }
  destruct (packet_parts packet) as (v & t & g & s & h & body & mac & -> & Hg & Hs & Hh & Hm & Hl);
    [lia|].
  rewrite decode_parts in Hdec by (done || lia).
  apply Forall_app in Hb as [Hb [Bb _]%Forall_app].
  apply Forall_app in Hb as [_ [Bg [Bs Bh]%Forall_app]%Forall_app].
  apply decodeParts_Ok in Hdec as (Hwf & Hgen & Hseq & Hw); try done.
  rewrite encodePacket_wire by done. by rewrite Hw.
Qed.

(** C4: [decodeAuthenticatedPacket] accepts only encodings under the key: what it
    accepts is well formed, carries the expected generation and sequence number,
    and is byte for byte the packet the encoder of its type produces. *)
Theorem decode_only_encodings (packet key : bytes) (gen seq : Z) (p : authenticatedPacket) :
  Bytes packet → decodeAuthenticatedPacket packet key gen seq = Ok p →
  wf_packet p ∧ ap_generation p = gen ∧ ap_sequence p = seq
  ∧ encodePacket key p = Ok packet.
Proof. apply decode_sound. Qed.

Lemma decode_no_panic (packet key : bytes) (gen seq : Z) :
  decodeAuthenticatedPacket packet key gen seq ≠ Panic.
Proof.
  destruct (decide (zlen key = SubprocessIPCKeyBytes)) as [Hkey|Hkey].
  2:{ unfold decodeAuthenticatedPacket. by replace (_ || _ || _) with true by lia. }
  destruct (decide (58 ≤ zlen packet ≤ MaxAuthenticatedPacketBytes)) as [Hlen|Hlen].
  2:{ rewrite decode_bounds; [done|done|lia]. }
  destruct (packet_parts packet) as (v & t & g & s & h & body & mac & -> & Hg & Hs & Hh & Hm & Hl);
    [lia|].
  rewrite decode_parts by (done || lia). unfold decodeParts.
  assert (packetMACOffset t (58 + zlen body) ≠ Panic).
  { unfold packetMACOffset. repeat case_match; auto with nopanic. }
  repeat (apply res_bind_not_Panic; [by auto with nopanic|intros _]).
  unfold decodeFields. repeat case_match; auto with nopanic.
Qed.

(** Decoding never panics, whatever the peer sends. *)
Theorem decode_never_panics (packet key : bytes) (gen seq : Z) :
  decodeAuthenticatedPacket packet key gen seq ≠ Panic.
Proof. apply decode_no_panic. Qed.

(** A packet whose MAC is not the one of its content under the key is
    rejected with an error that does not depend on the expected generation and
    sequence number: no field past the type is looked at. *)
Theorem decode_unauthenticated (body mac key : bytes) :
  zlen mac = 32 → mac ≠ mac_sum key body →
  ∃ e, e ∈ [ErrIngressABI; ErrIngressFrame; ErrIngressAuthentication]
    ∧ ∀ gen seq, decodeAuthenticatedPacket (body ++ mac) key gen seq = Err e.
Proof.
  intros Hmac Hforged. pose proof (zlen_nonneg body).
  destruct (decide (zlen key = SubprocessIPCKeyBytes)) as [Hkey|Hkey].
  2:{ exists ErrIngressABI. split; [by left|]. intros gen seq.
      unfold decodeAuthenticatedPacket. by replace (_ || _ || _) with true by lia. }
  destruct (decide (58 ≤ zlen (body ++ mac) ≤ MaxAuthenticatedPacketBytes)) as [Hlen|Hlen].
  2:{ exists ErrIngressABI. split; [by left|]. intros. apply decode_bounds; [done|lia]. }
  rewrite zlen_app in Hlen.
  destruct body as [|v [|t front]]; rewrite ?zlen_cons in *; change (zlen []) with 0 in *; [lia..|].
  destruct (cut_at front 8) as (g & r1 & -> & Hg); [lia|]. rewrite zlen_app in *.
  destruct (cut_at r1 8) as (s & r2 & -> & Hs); [lia|]. rewrite zlen_app in *.
  destruct (cut_at r2 8) as (h & rest & -> & Hh); [lia|]. rewrite zlen_app in *.
  replace ((v :: t :: g ++ s ++ h ++ rest) ++ mac)
    with (([v; t] ++ g ++ s ++ h) ++ rest ++ mac) by (cbn; by rewrite <-!app_assoc).
  setoid_rewrite decode_parts; [|done || lia..].
  unfold decodeParts. destruct (packetMACOffset t (58 + zlen rest)) as [off|e|] eqn:Hoff.
  - exists ErrIngressAuthentication. split; [by right; right; left|]. intros gen seq.
    rewrite res_bind_Ok, bool_decide_eq_false_2; [done|exact Hforged].
  - exists e. split; [|done].
    unfold packetMACOffset, err_if in Hoff. repeat case_match; simplify_eq; set_solver.
  - exfalso. unfold packetMACOffset, err_if in Hoff. by repeat case_match.
Qed.

Lemma decode_expected packet key gen seq gen' seq' p :
  decodeAuthenticatedPacket packet key gen seq = Ok p →
  decodeAuthenticatedPacket packet key gen' seq' =
    if negb (gen =? gen') then Err ErrIngressGeneration
    else if negb (seq =? seq') then Err ErrIngressSequence else Ok p.
Proof.
  unfold decodeAuthenticatedPacket. intros H. go_inv.
  repeat match goal with
  | H : ?m = Ok _ |- context [?m ≫= _] => rewrite H, res_bind_Ok
  | H : ?b = false |- context [err_if ?b _] => rewrite H; cbn [err_if]; rewrite res_bind_Ok
  end.
  rw_guards. cbn [err_if]. rewrite res_bind_Ok, slice_drop, res_bind_Ok by lia.
  rw_guards. cbn [err_if]. rewrite res_bind_Ok.
  match goal with H : negb (?x =? gen) = false |- _ => assert (x = gen) as -> by lia end.
  match goal with H : negb (?x =? seq) = false |- _ => assert (x = seq) as -> by lia end.
  destruct (Z.eqb_spec gen gen') as [<-|]; cbn [negb orb]; [|done].
  rw_guards. cbn [err_if]. rewrite res_bind_Ok.
  destruct (Z.eqb_spec seq seq') as [<-|]; cbn [negb orb]; [|done]. by rw_guards.
Qed.

(** Replay and reordering. A packet accepted for one generation and sequence
    number is rejected for every other: with [ErrIngressGeneration] when the
    generation differs, else with [ErrIngressSequence]. *)
Theorem decode_replay (packet key : bytes) (gen seq gen' seq' : Z) (p : authenticatedPacket) :
  decodeAuthenticatedPacket packet key gen seq = Ok p → (gen', seq') ≠ (gen, seq) →
  decodeAuthenticatedPacket packet key gen' seq' =
    Err (if gen =? gen' then ErrIngressSequence else ErrIngressGeneration).
Proof.
  intros Hdec Hne. rewrite (decode_expected _ _ _ _ gen' seq' _ Hdec).
  destruct (Z.eqb_spec gen gen') as [<-|]; [|done].
  destruct (Z.eqb_spec seq seq') as [<-|]; [|done]. done.
Qed.

(** The bootstrap packet is the version, the generation and the key, and only
    a nonzero generation and a key of the frozen width have one. *)
Lemma encodeSubprocessBootstrap_layout (generation : Z) (key : bytes) :
  encodeSubprocessBootstrap generation key =
    if (generation =? 0) || negb (zlen key =? SubprocessIPCKeyBytes) then Err ErrIngressABI
    else Ok (SubprocessFrameVersion :: be64 generation ++ key).
Proof.
  unfold encodeSubprocessBootstrap. destruct (_ || _) eqn:Hbad; [done|]. cbn [err_if].
  apply orb_false_elim in Hbad as [_ Hkey]. pose proof (zlen_nonneg key).
  rewrite res_bind_Ok, law_bootstrap, <-(app_nil_l (zrep _ 0)), put_byte_zrep by (done || lia).
  rewrite res_bind_Ok, app_nil_l, put_u64_zrep by (done || lia).
  rewrite res_bind_Ok, app_assoc, copy_at_zrep by (done || lia).
  replace (9 + _ - 1 - 8 - zlen key) with 0 by lia.
  change (zrep 0 0) with (@nil Z). by rewrite app_nil_r, <-app_assoc.
Qed.

End properties.

(** ** Witnesses: version 1 of the ABI, HMAC-SHA256 *)

Definition sample_key : bytes := zrep 32 0x5a.
Definition sample_packet : authenticatedPacket :=
  AuthenticatedPacket SubprocessAssignment 9 1 44 sample_correlation 1234 0 [].

(** The assignment packet of [sample_packet], computed. *)
Definition sample_bytes : bytes :=
  Eval vm_compute in wire sample_key sample_packet.

Lemma sample_wf : wf_packet sample_packet.
Proof.
  split; cbn; try done; try (unfold is_u64; lia).
  - by left.
  - split; [done|]. by apply (bool_decide_unpack _); vm_compute.
  - intros H. exfalso. rewrite !elem_of_cons, elem_of_nil in H. lia.
Qed.

Lemma decode_encode_witness :
  ∃ packet, encodePacket sample_key sample_packet = Ok packet
    ∧ decodeAuthenticatedPacket packet sample_key 9 1 = Ok sample_packet.
Proof. apply (decode_encode sample_key sample_packet); [done|apply sample_wf]. Defined.

Lemma decode_only_encodings_witness :
  wf_packet sample_packet ∧ ap_generation sample_packet = 9 ∧ ap_sequence sample_packet = 1
  ∧ encodePacket sample_key sample_packet = Ok sample_bytes.
Proof.
  apply (decode_only_encodings sample_bytes sample_key 9 1 sample_packet).
  - by apply (bool_decide_unpack _); vm_compute.
  - by vm_compute.
Defined.

Lemma decode_unauthenticated_witness :
  ∃ e, e ∈ [ErrIngressABI; ErrIngressFrame; ErrIngressAuthentication]
    ∧ ∀ gen seq, decodeAuthenticatedPacket (ztake 50 sample_bytes ++ zrep 32 0)
        sample_key gen seq = Err e.
Proof.
  apply (decode_unauthenticated (ztake 50 sample_bytes) (zrep 32 0) sample_key); [done|].
  by apply (bool_decide_unpack _); vm_compute.
Defined.

Lemma decode_replay_witness :
  decodeAuthenticatedPacket sample_bytes sample_key 9 2 = Err ErrIngressSequence.
Proof. by apply (decode_replay sample_bytes sample_key 9 1 9 2 sample_packet); vm_compute. Defined.

Lemma decode_never_panics_witness :
  decodeAuthenticatedPacket (zrep 100 255) sample_key 9 1 ≠ Panic.
Proof. apply decode_never_panics. Defined.

Lemma encodeSubprocessBootstrap_layout_witness :
  encodeSubprocessBootstrap 9 sample_key = Ok ([1; 0; 0; 0; 0; 0; 0; 0; 9] ++ sample_key).
Proof. rewrite (encodeSubprocessBootstrap_layout 9 sample_key). by vm_compute. Defined.
