(* ===== verification/Broker.v ===== *)
(** * The ingress broker (ingress.go)

    The broker is the state both transports share: the handles the native side
    opened, the assignments Gate made, and the two queues it reads. Every method
    runs under [b.mu], except that [assign] releases it around the native call;
    a method is a function on the state, and [assign] is cut at the call. *)
From S2P Require Import Prelude GoInt Abi Protobuf.

Definition defaultIngressQueueCapacity : Z := 256.
Definition ingressHandleTTL : Z := Minute.
Definition maxIngressHandles : Z := 4096.

Record ConnectionOpen := Opened {
  co_Generation : Z;
  co_ConnectionHandle : Z;
}.

Record ConnectionAssignment := Assignment {
  ca_Generation : Z;
  ca_ConnectionHandle : Z;
  ca_CorrelationID : bytes;
  ca_ExpiresAt : Z;
}.

#[export] Instance ConnectionAssignment_eq_dec : EqDecision ConnectionAssignment.
Proof. solve_decision. Defined.

Record verifiedFrameValue := VerifiedFrame {
  vf_generation : Z;
  vf_handle : Z;
  vf_correlation : bytes;
  vf_frame : bytes;
  vf_expiresAt : Z;
}.

(** A pending assignment; [ip_timer] names its timer ([*time.Timer], never nil
    once the entry is in the map). *)
Record ingressPending := Pending {
  ip_handle : Z;
  ip_correlation : bytes;
  ip_expiresAt : Z;
  ip_timer : option Z;
}.

(** The call [b.expire(...)] an armed [time.AfterFunc] timer will make. *)
Record timerCall := TimerCall {
  tc_generation : Z;
  tc_handle : Z;
  tc_correlation : bytes;
  tc_expiresAt : Z;
}.

(** [ingressBroker], its two buffered channels as queues of at most [b_capacity]
    values, plus the armed timers of the runtime. [N] and [F] are the types of
    the function values [assignNative] and [fatal]. *)
Record ingressBroker {N F : Type} := Broker {
  b_capacity : Z;
  b_opened : list ConnectionOpen;
  b_verified : list verifiedFrameValue;
  b_active : bool;
  b_generation : Z;
  b_assignNative : option N;
  b_fatal : option F;
  b_handles : gmap Z Z;
  b_correlations : gmap bytes ingressPending;
  b_timers : gmap Z timerCall;
  b_nextTimer : Z;
}.
Arguments ingressBroker : clear implicits.

(** Go iterates over a map in an unspecified order: the order is an argument. *)
Definition mapOrder : Type := gmap Z Z → list (Z * Z).
Definition range_order (ord : mapOrder) : Prop := ∀ m, ord m ≡ₚ map_to_list m.

Section code.
Context {A : IngressAbi} {N F : Type}.
Abbreviation broker := (ingressBroker N F).

(** Field updates. *)
Definition set_gate (active : bool) (assign : option N) (fatal : option F) (b : broker) : broker :=
  Broker N F (b_capacity b) (b_opened b) (b_verified b) active (b_generation b) assign fatal
    (b_handles b) (b_correlations b) (b_timers b) (b_nextTimer b).
Definition set_maps (handles : gmap Z Z) (correlations : gmap bytes ingressPending)
    (timers : gmap Z timerCall) (b : broker) : broker :=
  Broker N F (b_capacity b) (b_opened b) (b_verified b) (b_active b) (b_generation b)
    (b_assignNative b) (b_fatal b) handles correlations timers (b_nextTimer b).
Definition set_queues (opened : list ConnectionOpen) (verified : list verifiedFrameValue)
    (b : broker) : broker :=
  Broker N F (b_capacity b) opened verified (b_active b) (b_generation b)
    (b_assignNative b) (b_fatal b) (b_handles b) (b_correlations b) (b_timers b) (b_nextTimer b).
Definition set_handles (handles : gmap Z Z) (b : broker) : broker :=
  set_maps handles (b_correlations b) (b_timers b) b.

(** What a method leaves to do once the mutex is released: the error it
    returns, and the [fatal] callback it calls. *)
Record outcome := Outcome {
  o_err : option IngressError;
  o_fatal : option (F * IngressError);
}.
Definition returns (e : option IngressError) : outcome := Outcome e None.

Definition newIngressBroker (capacity : Z) : broker :=
  let capacity := if capacity <? 1 then 1 else capacity in
  Broker N F capacity [] [] false 0 None None ∅ ∅ ∅ 0.

(** [pending.timer.Stop()], when the timer is not nil. *)
Definition stop_timer (p : ingressPending) (timers : gmap Z timerCall) : gmap Z timerCall :=
  match ip_timer p with Some t => delete t timers | None => timers end.
Definition stop_timers (ps : gmap bytes ingressPending) (timers : gmap Z timerCall)
    : gmap Z timerCall :=
  foldr stop_timer timers (map_to_list ps).*2.

Definition clearLocked (b : broker) : broker :=
  set_queues [] []
    (set_maps ∅ ∅ (stop_timers (b_correlations b) (b_timers b)) b).

Definition activate (generation : Z) (assign : option N) (fatal : option F) (b : broker) : broker :=
  let active := negb (generation =? 0) && bool_decide (is_Some assign) in
  clearLocked
    (Broker N F (b_capacity b) (b_opened b) (b_verified b) active generation assign fatal
       (b_handles b) (b_correlations b) (b_timers b) (b_nextTimer b)).

Definition deactivate (generation : Z) (b : broker) : broker :=
  if negb (b_generation b =? generation) then b
  else clearLocked (set_gate false None None b).

(** Returns the callback for the caller to run after unlocking. *)
Definition failLocked (b : broker) : broker * option F :=
  let b := clearLocked (set_gate false None (b_fatal b) b) in
  (b, b_fatal b).

Definition failGeneration (generation : Z) (b : broker) : broker :=
  if generation =? b_generation b then clearLocked (set_gate false None None b) else b.

(** [fatal := b.failLocked(err); b.mu.Unlock(); if fatal != nil { fatal(err) };
    return err]. *)
Definition fail_with (e : IngressError) (b : broker) : broker * outcome :=
  let '(b, fatal) := failLocked b in (b, Outcome (Some e) (fatal ≫= λ f, Some (f, e))).

(** The handles with a pending correlation ([assigning]). *)
Definition assigning (b : broker) : list Z := ip_handle <$> (map_to_list (b_correlations b)).*2.

(** The search for the oldest handle that is not assigning. *)
Definition older (busy : list Z) (best : option (Z * Z)) (entry : Z * Z) : option (Z * Z) :=
  if bool_decide (entry.1 ∈ busy) then best
  else match best with
       | None => Some entry
       | Some (_, oldestAt) => if entry.2 <? oldestAt then Some entry else best
       end.

Definition evictStaleHandlesLocked (ord : mapOrder) (now : Z) (b : broker) : broker * bool :=
  let busy := assigning b in
  let handles := filter (λ e, e.1 ∈ busy ∨ ¬ ingressHandleTTL < time_sub now e.2) (b_handles b) in
  if Z.of_nat (size handles) <? maxIngressHandles then (set_handles handles b, true)
  else match foldl (older busy) None (ord handles) with
       | None => (set_handles handles b, false)
       | Some (oldest, _) => (set_handles (delete oldest handles) b, true)
       end.

Definition open (ord : mapOrder) (now generation handle : Z) (b : broker) : broker * outcome :=
  if negb (generation =? b_generation b) then (b, returns (Some ErrIngressGeneration))
  else if negb (b_active b) then (b, returns (Some ErrIngressClosed))
  else if handle =? 0 then fail_with ErrIngressMismatch b
  else if bool_decide (is_Some (b_handles b !! handle)) then fail_with ErrIngressDuplicate b
  else
    let '(b, ok) := evictStaleHandlesLocked ord now b in
    if negb ok then fail_with ErrIngressOverflow b
    else
      let b := set_handles (<[handle := now]> (b_handles b)) b in
      if zlen (b_opened b) <? b_capacity b
      then (set_queues (b_opened b ++ [Opened generation handle]) (b_verified b) b, returns None)
      else fail_with ErrIngressOverflow b.

(** Drop every correlation of a handle, stopping its timer: the loops of
    [closeHandle] and [clearAssignmentLocked]. *)
Definition drop_correlations_of (handle : Z) (b : broker) : broker :=
  let gone := filter (λ e, ip_handle e.2 = handle) (b_correlations b) in
  let kept := filter (λ e, ip_handle e.2 ≠ handle) (b_correlations b) in
  set_maps (b_handles b) kept (stop_timers gone (b_timers b)) b.

Definition closeHandle (generation handle : Z) (b : broker) : broker :=
  if negb (generation =? b_generation b) then b
  else drop_correlations_of handle (set_handles (delete handle (b_handles b)) b).

(** Drop one pending entry with its handle, stopping its timer. *)
Definition drop_pending (correlation : bytes) (p : ingressPending) (b : broker) : broker :=
  set_maps (delete (ip_handle p) (b_handles b)) (delete correlation (b_correlations b))
    (stop_timer p (b_timers b)) b.

Definition clearAssignmentLocked (handle : Z) (correlation : bytes) (b : broker) : broker :=
  let b := set_handles (delete handle (b_handles b)) b in
  let b := match b_correlations b !! correlation with
           | Some pending => drop_pending correlation pending b
           | None => b
           end in
  drop_correlations_of handle b.

Definition closeCorrelation (generation : Z) (correlation : bytes) (b : broker) : broker :=
  if negb (generation =? b_generation b) then b
  else match b_correlations b !! correlation with
       | Some pending => drop_pending correlation pending b
       | None => b
       end.

(** [time.AfterFunc]: a new armed timer. *)
Definition after_func (call : timerCall) (b : broker) : broker * Z :=
  (Broker N F (b_capacity b) (b_opened b) (b_verified b) (b_active b) (b_generation b)
     (b_assignNative b) (b_fatal b) (b_handles b) (b_correlations b)
     (<[b_nextTimer b := call]> (b_timers b)) (b_nextTimer b + 1),
   b_nextTimer b).

(** [assign] up to the native call: an error, or the function to call. Calling
    a nil [assignNative] would panic. *)
Definition assign_begin (now : Z) (a : ConnectionAssignment) (b : broker)
    : broker * res IngressError N :=
  if (ca_ExpiresAt a <=? now) || (MaxIngressLifetime <? time_sub (ca_ExpiresAt a) now)
  then (closeHandle (ca_Generation a) (ca_ConnectionHandle a) b, Err ErrIngressLifetime)
  else if bool_decide (ca_CorrelationID a = zeroCorrelation)
  then (closeHandle (ca_Generation a) (ca_ConnectionHandle a) b, Err ErrIngressMismatch)
  else if negb (ca_Generation a =? b_generation b) then (b, Err ErrIngressGeneration)
  else if negb (b_active b) then (b, Err ErrIngressClosed)
  else if bool_decide (b_handles b !! ca_ConnectionHandle a = None) then (b, Err ErrIngressClosed)
  else if bool_decide (is_Some (b_correlations b !! ca_CorrelationID a))
  then (clearAssignmentLocked (ca_ConnectionHandle a) (ca_CorrelationID a) b, Err ErrIngressDuplicate)
  else
    match list_find (λ p, ip_handle p = ca_ConnectionHandle a) (map_to_list (b_correlations b)).*2 with
    | Some (_, pending) =>
        (clearAssignmentLocked (ca_ConnectionHandle a) (ip_correlation pending) b,
         Err ErrIngressDuplicate)
    | None =>
        let '(b, timer) := after_func
          (TimerCall (ca_Generation a) (ca_ConnectionHandle a) (ca_CorrelationID a) (ca_ExpiresAt a)) b in
        let pending := Pending (ca_ConnectionHandle a) (ca_CorrelationID a) (ca_ExpiresAt a) (Some timer) in
        (set_maps (b_handles b) (<[ca_CorrelationID a := pending]> (b_correlations b)) (b_timers b) b,
         match b_assignNative b with Some f => Ok f | None => Panic end)
    end.

(** [assign] from the native return code on. *)
Definition assign_end (a : ConnectionAssignment) (rc : Z) (b : broker)
    : broker * option IngressError :=
  if rc =? AssignmentOK then (b, None)
  else
    (closeHandle (ca_Generation a) (ca_ConnectionHandle a) b,
     Some (if (rc =? AssignmentUnknownOrClosedHandle)
              || (rc =? AssignmentDuplicateHandleOrCorrelation)
              || (rc =? AssignmentInvalidOrExpiredTime)
              || (rc =? AssignmentWrongConnectionState)
           then ErrIngressRejected else ErrIngressABI)).

(** [assign], with the native function free to change the broker (its
    transport delivers frames while the call is in progress). *)
Definition assign (native : N → ConnectionAssignment → broker → broker * Z)
    (now : Z) (a : ConnectionAssignment) (b : broker) : broker * res IngressError unit :=
  match assign_begin now a b with
  | (b, Ok f) =>
      let '(b, rc) := native f a b in
      let '(b, e) := assign_end a rc b in
      (b, match e with None => Ok tt | Some e => Err e end)
  | (b, Err e) => (b, Err e)
  | (b, Panic) => (b, Panic)
  end.

Definition expire (generation handle : Z) (correlation : bytes) (expiresAt : Z) (b : broker) : broker :=
  if negb (generation =? b_generation b) then b
  else match b_correlations b !! correlation with
       | None => b
       | Some pending =>
           if negb (ip_handle pending =? handle) || negb (ip_expiresAt pending =? expiresAt) then b
           else set_maps (delete handle (b_handles b)) (delete correlation (b_correlations b))
                  (b_timers b) b
       end.

(** An armed timer fires: the runtime starts [expire] in a goroutine, which may
    run later. *)
Definition fire (timer : Z) (b : broker) : broker :=
  set_maps (b_handles b) (b_correlations b) (delete timer (b_timers b)) b.

Definition deliver (now generation : Z) (correlation frame : bytes) (expiresUnixMS : Z) (b : broker)
    : broker * outcome :=
  if (zlen frame <? MinIngressFrameBytes) || (MaxIngressFrameBytes <? zlen frame)
  then (closeCorrelation generation correlation b, returns (Some ErrIngressFrame))
  else
    let expiresAt := from_unix_milli (i64 expiresUnixMS) in
    if (expiresAt <=? now) || (MaxIngressLifetime <? time_sub expiresAt now)
    then (closeCorrelation generation correlation b, returns (Some ErrIngressLifetime))
    else if negb (generation =? b_generation b) then (b, returns (Some ErrIngressGeneration))
    else if negb (b_active b) then (b, returns (Some ErrIngressClosed))
    else match b_correlations b !! correlation with
    | None => (b, returns (Some ErrIngressMismatch))
    | Some pending =>
        let b := drop_pending correlation pending b in
        if negb (unix_milli (ip_expiresAt pending) =? i64 expiresUnixMS)
        then (b, returns (Some ErrIngressMismatch))
        else
          let value := VerifiedFrame generation (ip_handle pending) correlation frame expiresAt in
          if zlen (b_verified b) <? b_capacity b
          then (set_queues (b_opened b) (b_verified b ++ [value]) b, returns None)
          else fail_with ErrIngressOverflow b
    end.

Definition deliverCallback := deliver.

(** [deliverIPCFrame]: the first critical section reads the pending entry; the
    second is [deliver], on the broker [b2] of that later moment. *)
Definition deliverIPCFrame (now generation handle : Z) (correlation frame : bytes) (b b2 : broker)
    : broker * outcome :=
  match b_correlations b !! correlation with
  | Some pending =>
      if negb (ip_handle pending =? handle) then (b2, returns (Some ErrIngressMismatch))
      else deliver now generation correlation frame (u64 (unix_milli (ip_expiresAt pending))) b2
  | None => (b2, returns (Some ErrIngressMismatch))
  end.

(** The two receive operations of the clients. *)
Definition recv_opened (b : broker) : option (ConnectionOpen * broker) :=
  match b_opened b with
  | [] => None
  | o :: rest => Some (o, set_queues rest (b_verified b) b)
  end.
Definition recv_verified (b : broker) : option (verifiedFrameValue * broker) :=
  match b_verified b with
  | [] => None
  | v :: rest => Some (v, set_queues (b_opened b) rest b)
  end.
End code.
