(* ===== verification/BrokerInv.v ===== *)
(** * The broker's invariant

    [wf] is the well-formedness invariant of [ingressBroker]; every method
    preserves it. The methods that only take things away do so through one
    relation, [closes]: they remove a correlation only together with its handle
    and its timer. *)
From S2P Require Import Prelude GoInt Abi Protobuf Broker.

Section invariant.
Context {A : IngressAbi} {N F : Type}.
Abbreviation broker := (ingressBroker N F).
Implicit Types b : broker.

(** The timer call of a pending entry. *)
Definition call_of (generation : Z) (p : ingressPending) : timerCall :=
  TimerCall generation (ip_handle p) (ip_correlation p) (ip_expiresAt p).

Record wf (b : broker) : Prop := {
  wf_capacity : 1 ≤ b_capacity b;
  wf_opened_len : zlen (b_opened b) ≤ b_capacity b;
  wf_verified_len : zlen (b_verified b) ≤ b_capacity b;
  (* an inactive broker holds nothing *)
  wf_inactive : b_active b = false →
    b_handles b = ∅ ∧ b_correlations b = ∅ ∧ b_opened b = [] ∧ b_verified b = [];
  wf_active : b_active b = true → b_generation b ≠ 0 ∧ is_Some (b_assignNative b);
  (* what it holds belongs to the current generation and is well formed *)
  wf_handles : ∀ h t, b_handles b !! h = Some t → h ≠ 0;
  wf_size : Z.of_nat (size (b_handles b)) ≤ maxIngressHandles;
  wf_correlations : ∀ c p, b_correlations b !! c = Some p →
    ip_correlation p = c ∧ c ≠ zeroCorrelation ∧ is_Some (b_handles b !! ip_handle p);
  wf_unique : ∀ c c' p p', b_correlations b !! c = Some p → b_correlations b !! c' = Some p' →
    ip_handle p = ip_handle p' → c = c';
  wf_opened : Forall (λ o, co_Generation o = b_generation b ∧ co_ConnectionHandle o ≠ 0) (b_opened b);
  wf_verified : Forall (λ v, vf_generation v = b_generation b ∧ vf_handle v ≠ 0
    ∧ vf_correlation v ≠ zeroCorrelation
    ∧ MinIngressFrameBytes ≤ zlen (vf_frame v) ≤ MaxIngressFrameBytes) (b_verified b);
  wf_timers : ∀ t call, b_timers b !! t = Some call → t < b_nextTimer b;
}.

(** No timer leaks: an armed timer is the one of a pending assignment. *)
Definition timers_owned (b : broker) : Prop :=
  ∀ t call, b_timers b !! t = Some call →
    ∃ p, b_correlations b !! tc_correlation call = Some p ∧ ip_timer p = Some t
      ∧ call = call_of (b_generation b) p.

(** [closes stops b b']: [b'] is [b] with some handles and correlations gone,
    each correlation with its handle and, when [stops], with its timer. *)
Record closes (stops : bool) (b b' : broker) : Prop := {
  cl_capacity : b_capacity b' = b_capacity b;
  cl_generation : b_generation b' = b_generation b;
  cl_next : b_nextTimer b' = b_nextTimer b;
  cl_handles : b_handles b' ⊆ b_handles b;
  cl_correlations : b_correlations b' ⊆ b_correlations b;
  cl_together : ∀ c p, b_correlations b !! c = Some p → b_correlations b' !! c = None →
    b_handles b' !! ip_handle p = None;
  cl_kept : ∀ c p, b_correlations b' !! c = Some p →
    b_handles b' !! ip_handle p = b_handles b !! ip_handle p;
  cl_timers : ∀ t call, b_timers b' !! t = Some call → b_timers b !! t = Some call;
  cl_stops : stops = true → ∀ t call, b_timers b' !! t = Some call →
    ∀ p, b_correlations b !! tc_correlation call = Some p → ip_timer p = Some t →
      b_correlations b' !! tc_correlation call = Some p;
}.

(** Stopping timers removes exactly the armed timers of the entries. *)
Lemma lookup_stop_timers (ps : gmap bytes ingressPending) ts t call :
  stop_timers ps ts !! t = Some call ↔
  ts !! t = Some call ∧ ∀ c p, ps !! c = Some p → ip_timer p ≠ Some t.
Proof.
  unfold stop_timers.
  assert (∀ l : list ingressPending,
    foldr stop_timer ts l !! t = Some call ↔
    ts !! t = Some call ∧ ∀ p, p ∈ l → ip_timer p ≠ Some t) as Hl.
  { induction l as [|p l IH]; cbn; [set_solver|]. setoid_rewrite elem_of_cons.
    unfold stop_timer at 1. destruct (ip_timer p) as [t'|] eqn:Hp.
    - rewrite lookup_delete_Some, IH. split.
      + intros (Hne & Ht & Hps). split; [done|]. intros q [-> | Hq]; [congruence|by apply Hps].
      + intros (Ht & Hps). split_and!; [|done|by eauto]. intros ->. by apply (Hps p); [left|].
    - rewrite IH. split.
      + intros (Ht & Hps). split; [done|]. intros q [-> | Hq]; [congruence|by apply Hps].
      + intros (Ht & Hps). by eauto. }
  rewrite Hl. split; intros [Ht Hps]; (split; [done|]).
  - intros c p Hc. apply Hps. apply list_elem_of_fmap. exists (c, p). split; [done|].
    by apply elem_of_map_to_list.
  - intros p ([c p'] & -> & Hin%elem_of_map_to_list)%list_elem_of_fmap. by eapply Hps.
Qed.

Lemma lookup_stop_timer p (ts : gmap Z timerCall) t call :
  stop_timer p ts !! t = Some call ↔ ts !! t = Some call ∧ ip_timer p ≠ Some t.
Proof.
  unfold stop_timer. destruct (ip_timer p); [rewrite lookup_delete_Some|].
  - split; intros [??]; split; congruence.
  - split; [intros; split; congruence|by intros [? _]].
Qed.

#[global] Instance closes_preorder stops : PreOrder (closes stops).
Proof.
  split.
  - intros b. split; try done; intros; congruence || eauto.
  - intros b1 b2 b3 [] []. split; try congruence.
    + by etrans.
    + by etrans.
    + intros c p Hc Hn. destruct (b_correlations b2 !! c) as [p'|] eqn:Hc2.
      * rewrite (lookup_weaken _ _ _ _ Hc2 cl_correlations0) in Hc. simplify_eq. by eapply cl_together1.
      * eapply lookup_weaken_None; [by eapply cl_together0|done].
    + intros c p Hc. rewrite (cl_kept1 _ _ Hc). by eapply cl_kept0, lookup_weaken.
    + eauto.
    + intros Hs t call Ht p Hp Hpt. eapply cl_stops1; eauto.
Qed.

(** [wf] of what is left after closing, when the queues only shrank. *)
Lemma closes_wf stops b b' :
  wf b → closes stops b b' → b_active b' = b_active b → b_assignNative b' = b_assignNative b →
  b_opened b' = b_opened b → b_verified b' = b_verified b → wf b'.
Proof.
  intros [] [] Ha Hn Ho Hv. split; rewrite ?cl_capacity0, ?cl_generation0, ?cl_next0, ?Ha, ?Hn, ?Ho, ?Hv; try done.
  - intros Hin. destruct (wf_inactive0 Hin) as (Hh & Hc & Hop & Hve). split_and!; try done.
    + apply (anti_symm (⊆)); [by rewrite <-Hh|apply map_empty_subseteq].
    + apply (anti_symm (⊆)); [by rewrite <-Hc|apply map_empty_subseteq].
  - intros h t Hh. eapply wf_handles0, lookup_weaken; eauto.
  - apply map_subseteq_size in cl_handles0. lia.
  - intros c p Hc. destruct (wf_correlations0 c p) as (? & ? & ?); [by eapply lookup_weaken|].
    split_and!; try done. by rewrite (cl_kept0 _ _ Hc).
  - intros c c' p p' Hc Hc'. eapply wf_unique0; by eapply lookup_weaken.
  - intros t call Ht%cl_timers0. by eapply wf_timers0.
Qed.

Lemma closes_timers b b' : timers_owned b → closes true b b' → timers_owned b'.
Proof.
  intros Hb [] t call Ht. destruct (Hb _ _ (cl_timers0 _ _ Ht)) as (p & Hp & Hpt & ->).
  exists p. rewrite cl_generation0. split_and!; try done. by eapply cl_stops0.
Qed.

(** ** The closing methods *)

Lemma drop_pending_closes c p b :
  wf b → b_correlations b !! c = Some p → closes true b (drop_pending c p b).
Proof.
  intros Hwf Hc. split; cbn; try done.
  - apply delete_subseteq.
  - apply delete_subseteq.
  - intros c' p' Hc' [-> | Hn]%lookup_delete_None; simplify_eq. apply lookup_delete_eq.
  - intros c' p' [Hne Hc']%lookup_delete_Some. apply lookup_delete_ne.
    intros Heq. by apply Hne, (wf_unique b Hwf c c' p p').
  - by intros t call [Ht _]%lookup_stop_timer.
  - intros _ t call [Ht Hp]%lookup_stop_timer p' Hp' Hpt.
    rewrite lookup_delete_ne; [done|]. congruence.
Qed.

(** Deleting a handle with all its correlations. *)
Lemma drop_handle_closes h b :
  closes true b (drop_correlations_of h (set_handles (delete h (b_handles b)) b)).
Proof.
  split; cbn; try done.
  - apply delete_subseteq.
  - apply map_filter_subseteq.
  - intros c p Hc Hn. rewrite map_lookup_filter_None in Hn.
    destruct Hn as [?|Hn]; [congruence|]. specialize (Hn _ Hc). cbn in Hn.
    destruct (decide (ip_handle p = h)) as [->|]; [apply lookup_delete_eq|done].
  - intros c p [_ Hne]%map_lookup_filter_Some. by apply lookup_delete_ne.
  - by intros t call [Ht _]%lookup_stop_timers.
  - intros _ t call [Ht Hgone]%lookup_stop_timers p Hp Hpt. apply map_lookup_filter_Some. split; [done|]. cbn. intros Heq.
    eapply (Hgone (tc_correlation call) p); [|done]. by apply map_lookup_filter_Some.
Qed.

Lemma closeHandle_closes g h b : closes true b (closeHandle g h b).
Proof. unfold closeHandle. case_match; [reflexivity|apply drop_handle_closes]. Qed.

Lemma closeCorrelation_closes g c b : wf b → closes true b (closeCorrelation g c b).
Proof.
  intros. unfold closeCorrelation. repeat case_match; try reflexivity. by apply drop_pending_closes.
Qed.

Lemma clearAssignmentLocked_closes h c b : wf b → closes true b (clearAssignmentLocked h c b).
Proof.
  intros Hwf. set (b1 := match b_correlations b !! c with
                         | Some p => drop_pending c p b | None => b end).
  assert (clearAssignmentLocked h c b =
    drop_correlations_of h (set_handles (delete h (b_handles b1)) b1)) as ->.
  { unfold clearAssignmentLocked, b1. cbn. destruct (b_correlations b !! c); [|done].
    unfold drop_pending, set_handles, set_maps. cbn. by rewrite delete_delete. }
  transitivity b1; [|apply drop_handle_closes].
  unfold b1. destruct (b_correlations b !! c) eqn:Hc; [by apply drop_pending_closes|reflexivity].
Qed.

Lemma elem_of_assigning h b :
  h ∈ assigning b ↔ ∃ c p, b_correlations b !! c = Some p ∧ ip_handle p = h.
Proof.
  unfold assigning. rewrite list_elem_of_fmap. setoid_rewrite list_elem_of_fmap. split.
  - intros (p & -> & [c p'] & -> & Hin%elem_of_map_to_list). eauto.
  - intros (c & p & Hc & <-). exists p. split; [done|]. exists (c, p). split; [done|].
    by apply elem_of_map_to_list.
Qed.

(** Removing handles that are not assigning closes nothing else. *)
Lemma set_handles_closes hs b :
  hs ⊆ b_handles b →
  (∀ h, h ∈ assigning b → hs !! h = b_handles b !! h) →
  closes true b (set_handles hs b).
Proof.
  intros Hsub Hbusy. split; cbn; try done.
  - congruence.
  - intros c p Hc. apply Hbusy, elem_of_assigning. eauto.
Qed.

Lemma foldl_older_Some busy l best h t :
  foldl (older busy) best l = Some (h, t) →
  best = Some (h, t) ∨ ((h, t) ∈ l ∧ h ∉ busy).
Proof.
  revert best. induction l as [|[h' t'] l IH]; intros best; cbn; [by left|].
  intros [Hbest|[Hin Hb]]%IH; [|right; split; [by right|done]].
  unfold older in Hbest. cbn in Hbest. repeat case_match; simplify_eq; auto.
  all: right; split; [by left|]; by eapply bool_decide_eq_false_1.
Qed.

Lemma evict_closes ord now b :
  range_order ord → closes true b (evictStaleHandlesLocked ord now b).1.
Proof.
  intros Hord. unfold evictStaleHandlesLocked.
  set (hs := filter _ (b_handles b)).
  assert (hs ⊆ b_handles b) as Hsub by apply map_filter_subseteq.
  assert (∀ h, h ∈ assigning b → hs !! h = b_handles b !! h) as Hbusy.
  { intros h Hh. destruct (b_handles b !! h) as [t|] eqn:Ht.
    - apply map_lookup_filter_Some. split; [done|]. by left.
    - apply map_lookup_filter_None. by left. }
  case_match; [by apply set_handles_closes|].
  destruct (foldl _ _ _) as [[h t]|] eqn:Hold; [|by apply set_handles_closes].
  apply foldl_older_Some in Hold as [?|[_ Hnb]]; [done|].
  apply set_handles_closes.
  - etrans; [apply delete_subseteq|done].
  - intros h' Hh'. rewrite lookup_delete_ne; [by apply Hbusy|]. by intros <-.
Qed.

(** [expire] does not stop the timer: it runs because it fired. *)
Lemma expire_closes g h c e b : wf b → closes false b (expire g h c e b).
Proof.
  intros Hwf. unfold expire. case_match; [reflexivity|].
  destruct (b_correlations b !! c) as [p|] eqn:Hc; [|reflexivity].
  destruct (_ || _) eqn:Hm; [reflexivity|]. apply orb_false_elim in Hm as [Hm _].
  apply negb_false_iff, Z.eqb_eq in Hm as <-.
  destruct (drop_pending_closes c p b Hwf Hc) as [? ? ? Hh Hcs Ht Hk _ _].
  split; cbn; done.
Qed.

(** ** Every method preserves the invariant *)

Lemma clearLocked_wf b :
  1 ≤ b_capacity b → (∀ t call, b_timers b !! t = Some call → t < b_nextTimer b) →
  (b_active b = true → b_generation b ≠ 0 ∧ is_Some (b_assignNative b)) →
  wf (clearLocked b).
Proof.
  intros Hcap Ht Ha. split; cbn; try done.
  - change (zlen []) with 0. lia.
  - change (zlen []) with 0. lia.
  - by intros t call [? _]%lookup_stop_timers; eauto.
Qed.

Lemma new_wf capacity : wf (newIngressBroker capacity).
Proof.
  split; cbn; try done; change (zlen []) with 0; destruct (capacity <? 1) eqn:?; lia.
Qed.

Lemma activate_wf g n f b : wf b → wf (activate g n f b).
Proof.
  intros []. apply clearLocked_wf; cbn; [done|done|].
  intros [Hg Hn%bool_decide_eq_true]%andb_prop. split; [lia|done].
Qed.

Lemma gate_cleared_wf n f b : wf b → wf (clearLocked (set_gate false n f b)).
Proof. intros []. by apply clearLocked_wf. Qed.

Lemma deactivate_wf g b : wf b → wf (deactivate g b).
Proof. intros. unfold deactivate. case_match; [done|by apply gate_cleared_wf]. Qed.

Lemma failGeneration_wf g b : wf b → wf (failGeneration g b).
Proof. intros. unfold failGeneration. case_match; [by apply gate_cleared_wf|done]. Qed.

Lemma fail_with_wf e b : wf b → wf (fail_with e b).1.
Proof. intros. by apply gate_cleared_wf. Qed.

Lemma closeHandle_wf g h b : wf b → wf (closeHandle g h b).
Proof.
  intros. eapply closes_wf; [done|apply closeHandle_closes|..]; unfold closeHandle; by case_match.
Qed.

Lemma closeCorrelation_wf g c b : wf b → wf (closeCorrelation g c b).
Proof.
  intros. eapply closes_wf; [done|by apply closeCorrelation_closes|..];
    unfold closeCorrelation; by repeat case_match.
Qed.

Lemma drop_pending_wf c p b : wf b → b_correlations b !! c = Some p → wf (drop_pending c p b).
Proof. intros. by eapply closes_wf; [|by apply drop_pending_closes|..]. Qed.

Lemma clearAssignmentLocked_wf h c b : wf b → wf (clearAssignmentLocked h c b).
Proof.
  intros. eapply closes_wf; [done|by apply clearAssignmentLocked_closes|..];
    unfold clearAssignmentLocked; cbn; by case_match.
Qed.

Lemma expire_wf g h c e b : wf b → wf (expire g h c e b).
Proof.
  intros. eapply closes_wf; [done|by apply expire_closes|..]; unfold expire; by repeat case_match.
Qed.

Lemma fire_wf t b : wf b → wf (fire t b).
Proof. intros []. split; try done. cbn. intros t' call [_ ?]%lookup_delete_Some. eauto. Qed.

Lemma recv_opened_wf o b b' : wf b → recv_opened b = Some (o, b') → wf b'.
Proof.
  unfold recv_opened. intros []. destruct (b_opened b) as [|o' rest] eqn:Ho; [done|].
  intros [= <- <-]. rewrite ?zlen_cons in *. apply Forall_cons in wf_opened0 as [_ ?].
  split; cbn; try done; [lia|]. intros Hi. by destruct (wf_inactive0 Hi) as (_ & _ & ? & _).
Qed.

Lemma recv_verified_wf v b b' : wf b → recv_verified b = Some (v, b') → wf b'.
Proof.
  unfold recv_verified. intros []. destruct (b_verified b) as [|v' rest] eqn:Hv; [done|].
  intros [= <- <-]. rewrite ?zlen_cons in *. apply Forall_cons in wf_verified0 as [_ ?].
  split; cbn; try done; [lia|]. intros Hi. by destruct (wf_inactive0 Hi) as (_ & _ & _ & ?).
Qed.

Lemma foldl_older_None busy l best h t :
  foldl (older busy) best l = None → best = None ∧ ((h, t) ∈ l → h ∈ busy).
Proof.
  revert best. induction l as [|[h' t'] l IH]; intros best; cbn; [set_solver|].
  intros [Hb Hin]%IH. unfold older in Hb. cbn in Hb.
  case_bool_decide; [|by repeat case_match]. split; [done|].
  intros [[= -> ->]|?]%elem_of_cons; eauto.
Qed.

(** Eviction makes room, unless every handle is assigning. *)
Lemma evict_room ord now b :
  range_order ord → wf b →
  let '(b', ok) := evictStaleHandlesLocked ord now b in
  if ok then Z.of_nat (size (b_handles b')) < maxIngressHandles
  else maxIngressHandles ≤ Z.of_nat (size (b_handles b'))
       ∧ ∀ h t, b_handles b' !! h = Some t → h ∈ assigning b.
Proof.
  intros Hord Hwf. unfold evictStaleHandlesLocked. set (hs := filter _ (b_handles b)).
  assert (hs ⊆ b_handles b) as Hsub%map_subseteq_size by apply map_filter_subseteq.
  pose proof (wf_size b Hwf). destruct (_ <? _) eqn:Hroom; [cbn; lia|].
  destruct (foldl _ _ _) as [[h t]|] eqn:Hold; cbn.
  - apply foldl_older_Some in Hold as [?|[Hin _]]; [done|].
    rewrite (Hord hs), elem_of_map_to_list in Hin.
    rewrite map_size_delete, Hin. assert (size hs ≠ 0%nat); [|lia].
    intros ->%map_size_empty_iff. done.
  - split; [lia|]. intros h t Hh.
    assert ((h, t) ∈ ord hs) as Hin by by rewrite (Hord hs), elem_of_map_to_list.
    destruct (foldl_older_None _ _ _ h t Hold) as [_ Hbusy]; auto.
Qed.

Lemma evict_wf ord now b : range_order ord → wf b → wf (evictStaleHandlesLocked ord now b).1.
Proof.
  intros Hord Hwf. eapply closes_wf; [done|by apply evict_closes|..];
    unfold evictStaleHandlesLocked; repeat case_match; done.
Qed.

Lemma evict_frame ord now b :
  range_order ord →
  let b' := (evictStaleHandlesLocked ord now b).1 in
  b_active b' = b_active b ∧ b_generation b' = b_generation b ∧ b_capacity b' = b_capacity b
  ∧ b_correlations b' = b_correlations b ∧ b_opened b' = b_opened b
  ∧ b_verified b' = b_verified b ∧ b_handles b' ⊆ b_handles b
  ∧ b_fatal b' = b_fatal b ∧ b_assignNative b' = b_assignNative b.
Proof.
  intros Hord. cbv zeta. pose proof (cl_handles _ _ _ (evict_closes ord now b Hord)).
  unfold evictStaleHandlesLocked in *. repeat case_match; cbn; by split_and!.
Qed.

Lemma open_wf ord now g h b : range_order ord → wf b → wf (open ord now g h b).1.
Proof.
  intros Hord Hwf. unfold open.
  destruct (negb (g =? _)) eqn:Hg; [done|]. destruct (negb (b_active b)) eqn:Ha; [done|].
  destruct (h =? 0) eqn:Hh0; [by apply fail_with_wf|].
  case_bool_decide as Hdup; [by apply fail_with_wf|].
  pose proof (evict_room ord now b Hord Hwf) as Hroom.
  pose proof (evict_wf ord now b Hord Hwf) as Hwf'.
  pose proof (evict_frame ord now b Hord) as (Ha' & Hg' & _ & _ & _ & _ & Hsub & _).
  destruct (evictStaleHandlesLocked ord now b) as [b1 ok]. cbn in *.
  destruct ok; cbn [negb]; [|exact (fail_with_wf _ _ Hwf')].
  assert (b_handles b1 !! h = None) as Hnew.
  { apply eq_None_not_Some. intros [t Ht]. apply Hdup. eexists. by eapply lookup_weaken. }
  assert (wf (set_handles (<[h:=now]> (b_handles b1)) b1)) as Hins.
  { destruct Hwf'. split; cbn; try done.
    - intros Hi. rewrite Ha' in Hi. by rewrite Hi in Ha.
    - intros h' t [[<- _]|[_ ?]]%lookup_insert_Some; [lia|eauto].
    - rewrite map_size_insert_None by done. lia.
    - intros c p Hc. destruct (wf_correlations0 c p Hc) as (? & ? & Hp). split_and!; try done.
      apply lookup_insert_is_Some'. by right. }
  case_match eqn:Hcap; [|exact (fail_with_wf _ _ Hins)].
  destruct Hins. split; cbn in *; try done.
  - rewrite zlen_app. change (zlen [_]) with 1. lia.
  - intros Hi. rewrite Ha' in Hi. by rewrite Hi in Ha.
  - apply Forall_app. split; [done|]. repeat constructor; cbn; lia.
Qed.

Lemma deliver_wf now g c frame ms b : wf b → wf (deliver now g c frame ms b).1.
Proof.
  intros Hwf. unfold deliver.
  destruct (_ || _) eqn:Hlen; [by apply closeCorrelation_wf|].
  destruct (_ || _) in |- *; [by apply closeCorrelation_wf|].
  destruct (negb (g =? _)) eqn:Hg; [done|]. destruct (negb (b_active b)) eqn:Ha; [done|].
  destruct (b_correlations b !! c) as [p|] eqn:Hc; [|done].
  pose proof (drop_pending_wf c p b Hwf Hc) as Hwf'.
  destruct (negb (_ =? _)) in |- *; [done|].
  case_match eqn:Hcap; [|by apply fail_with_wf].
  destruct (wf_correlations b Hwf c p Hc) as (_ & Hc0 & [t Ht]).
  pose proof (wf_handles b Hwf _ _ Ht).
  destruct Hwf'. split; cbn in *; try done.
  - rewrite zlen_app. change (zlen [_]) with 1. lia.
  - intros Hi. by rewrite Hi in Ha.
  - apply Forall_app. split; [done|]. repeat constructor; cbn; try done; lia.
Qed.

Lemma assign_begin_wf now a b : wf b → wf (assign_begin now a b).1.
Proof.
  intros Hwf. unfold assign_begin.
  destruct (_ || _); [by apply closeHandle_wf|].
  case_bool_decide as Hc0; [by apply closeHandle_wf|].
  destruct (negb (_ =? _)) eqn:Hg; [done|]. destruct (negb (b_active b)) eqn:Ha; [done|].
  case_bool_decide as Hh; [done|]. case_bool_decide as Hdup; [by apply clearAssignmentLocked_wf|].
  destruct (list_find _ _) as [[i p]|] eqn:Hfind; [by apply clearAssignmentLocked_wf|].
  apply eq_None_not_Some in Hdup. apply not_eq_None_Some in Hh.
  assert (ca_ConnectionHandle a ∉ assigning b) as Hfree.
  { intros (p & Heq & Hin)%list_elem_of_fmap. rewrite list_find_None, Forall_forall in Hfind.
    by apply (Hfind p). }
  destruct Hwf. split; cbn; try done.
  - intros Hi. by rewrite Hi in Ha.
  - intros c p [[<- <-]|[_ Hc]]%lookup_insert_Some; [by split_and!|by eauto].
  - intros c c' p p' [[<- <-]|[Hn Hc]]%lookup_insert_Some [[<- <-]|[Hn' Hc']]%lookup_insert_Some;
      cbn; intros Heq; try done; [| |by eauto];
      exfalso; apply Hfree, elem_of_assigning; eauto.
  - intros t call [[<- <-]|[_ Ht]]%lookup_insert_Some; [lia|]. apply wf_timers0 in Ht. lia.
Qed.

Lemma assign_end_wf a rc b : wf b → wf (assign_end a rc b).1.
Proof. intros. unfold assign_end. case_match; [done|by apply closeHandle_wf]. Qed.

End invariant.

