(* ===== verification/BrokerSys.v ===== *)
(** * The broker as a concurrent system, and its specification

    Goroutines interleave at the granularity of the critical sections of [b.mu]:
    [step] lets any method run at any time, with any arguments, any clock reading
    and any map iteration order. [spec_step] is what the broker promises: a handle
    is opened, then bound once to a correlation, then consumed once. The broker
    refines it ([step_refines]), so every published frame answers exactly one
    assignment of one opened connection. *)
From S2P Require Import Prelude GoInt Abi Protobuf Broker BrokerInv.

(** What a client observes. Instants are milliseconds, as frames carry them. *)
Inductive obs :=
| OOpened (generation handle : Z)
| OAssigned (generation handle : Z) (correlation : bytes) (expiresMS : Z)
| OPublished (generation handle : Z) (correlation : bytes) (expiresMS : Z).

#[export] Instance obs_eq_dec : EqDecision obs.
Proof. solve_decision. Defined.

(** ** The specification *)

Inductive handleState :=
| Free
| Bound (correlation : bytes) (expiresMS : Z).

Record specState := Spec {
  sp_generation : Z;
  sp_handles : gmap Z handleState;
}.

Inductive spec_step : specState → list obs → specState → Prop :=
(* a generation ends: everything is forgotten *)
| spec_reset g g' m : spec_step (Spec g m) [] (Spec g' ∅)
(* handles may be forgotten: closed, expired, evicted *)
| spec_forget g m m' : m' ⊆ m → spec_step (Spec g m) [] (Spec g m')
| spec_open g h m : m !! h = None →
    spec_step (Spec g m) [OOpened g h] (Spec g (<[h := Free]> m))
| spec_bind g h c e m : m !! h = Some Free →
    (∀ h' e', m !! h' ≠ Some (Bound c e')) →
    spec_step (Spec g m) [OAssigned g h c e] (Spec g (<[h := Bound c e]> m))
| spec_publish g h c e m : m !! h = Some (Bound c e) →
    spec_step (Spec g m) [OPublished g h c e] (Spec g (delete h m)).

Inductive spec_steps : specState → list obs → specState → Prop :=
| spec_refl s : spec_steps s [] s
| spec_trans s1 es s2 es' s3 : spec_step s1 es s2 → spec_steps s2 es' s3 →
    spec_steps s1 (es ++ es') s3.

Lemma spec_one s es s' : spec_step s es s' → spec_steps s es s'.
Proof. intros. rewrite <-(app_nil_r es). econstructor; [done|constructor]. Qed.

Lemma spec_two s1 es s2 es' s3 :
  spec_step s1 es s2 → spec_step s2 es' s3 → spec_steps s1 (es ++ es') s3.
Proof. intros. econstructor; [done|by apply spec_one]. Qed.

(** Runs from the empty specification state. *)
Inductive spec_run : list obs → specState → Prop :=
| spec_start g : spec_run [] (Spec g ∅)
| spec_next tr s es s' : spec_run tr s → spec_step s es s' → spec_run (tr ++ es) s'.

Lemma spec_run_steps tr s es s' : spec_run tr s → spec_steps s es s' → spec_run (tr ++ es) s'.
Proof.
  intros Hrun Hsteps. revert tr Hrun. induction Hsteps as [|s1 es s2 es' s3 Hs _ IH]; intros tr Hrun.
  - by rewrite app_nil_r.
  - rewrite app_assoc. apply IH. by econstructor.
Qed.

(** Counting events. *)
Definition count (p : obs → bool) (tr : list obs) : Z := zlen (filter p tr).
Definition is_opened g h (o : obs) : bool := bool_decide (o = OOpened g h).
Definition is_assigned g h c e (o : obs) : bool := bool_decide (o = OAssigned g h c e).
Definition is_published g h c e (o : obs) : bool := bool_decide (o = OPublished g h c e).
Definition is_assigned_handle g h (o : obs) : bool :=
  match o with OAssigned g' h' _ _ => (g =? g') && (h =? h') | _ => false end.

Lemma count_app p tr tr' : count p (tr ++ tr') = count p tr + count p tr'.
Proof. unfold count. by rewrite filter_app, zlen_app. Qed.
Lemma count_one p o : count p [o] = if p o then 1 else 0.
Proof. unfold count. rewrite filter_cons. by destruct (p o). Qed.
Lemma count_nil p : count p [] = 0.
Proof. done. Qed.

(** The credit a specification state holds: a bound handle stands for one
    assignment not yet published, a free one for one opening not yet assigned. *)
#[export] Instance handleState_eq_dec : EqDecision handleState.
Proof. solve_decision. Defined.

(** 1 when the handle is in state [st], in generation [g]. *)
Definition credit g h (st : handleState) (s : specState) : Z :=
  if decide (sp_generation s = g ∧ sp_handles s !! h = Some st) then 1 else 0.

Lemma credit_empty g g' h st : credit g h st (Spec g' ∅) = 0.
Proof. unfold credit. cbn. rewrite lookup_empty. by rewrite decide_False by naive_solver. Qed.
Lemma credit_mono g g' h st m m' : m' ⊆ m → credit g h st (Spec g' m') ≤ credit g h st (Spec g' m).
Proof.
  intros Hsub. unfold credit. cbn. do 2 case_decide; try lia. destruct_and?.
  exfalso. eauto using lookup_weaken.
Qed.
Lemma credit_bounds g h st s : 0 ≤ credit g h st s ≤ 1.
Proof. unfold credit. case_decide; lia. Qed.
Lemma credit_insert g g' h h' st st' m :
  credit g h st (Spec g' (<[h' := st']> m))
  = if decide (h' = h) then (if decide (g' = g ∧ st' = st) then 1 else 0) else credit g h st (Spec g' m).
Proof.
  unfold credit. cbn. destruct (decide (h' = h)) as [->|];
    [rewrite lookup_insert_eq|by rewrite lookup_insert_ne].
  apply decide_ext. naive_solver.
Qed.
Lemma credit_delete g g' h h' m st :
  credit g h st (Spec g' (delete h' m)) = if decide (h' = h) then 0 else credit g h st (Spec g' m).
Proof.
  unfold credit. cbn. destruct (decide (h' = h)) as [->|];
    [rewrite lookup_delete_eq|by rewrite lookup_delete_ne].
  by rewrite decide_False by naive_solver.
Qed.
Lemma credit_lookup g g' h st m :
  credit g h st (Spec g' m) = if decide (g' = g ∧ m !! h = Some st) then 1 else 0.
Proof. done. Qed.

(** One step keeps the books: a bound handle stands for one assignment not yet
    published, a free one for one opening not yet assigned. *)
Lemma spec_step_bound s es s' g h c e :
  spec_step s es s' →
  count (is_published g h c e) es + credit g h (Bound c e) s'
  ≤ count (is_assigned g h c e) es + credit g h (Bound c e) s.
Proof.
  destruct 1 as [g0 g1 m|g0 m m' Hsub|g0 h0 m Hn|g0 h0 c0 e0 m Hf Hc|g0 h0 c0 e0 m Hb];
    rewrite ?count_one, ?count_nil; cbn.
  - rewrite credit_empty. pose proof (credit_bounds g h (Bound c e) (Spec g0 m)). lia.
  - pose proof (credit_mono g g0 h (Bound c e) m m' Hsub). lia.
  - rewrite credit_insert, credit_lookup. repeat case_decide; naive_solver lia.
  - rewrite credit_insert, credit_lookup. unfold is_assigned.
    case_bool_decide; repeat case_decide; naive_solver lia.
  - rewrite credit_delete, credit_lookup. unfold is_published.
    case_bool_decide; repeat case_decide; naive_solver lia.
Qed.

Lemma spec_step_free s es s' g h :
  spec_step s es s' →
  count (is_assigned_handle g h) es + credit g h Free s'
  ≤ count (is_opened g h) es + credit g h Free s.
Proof.
  destruct 1 as [g0 g1 m|g0 m m' Hsub|g0 h0 m Hn|g0 h0 c0 e0 m Hf Hc|g0 h0 c0 e0 m Hb];
    rewrite ?count_one, ?count_nil; cbn.
  - rewrite credit_empty. pose proof (credit_bounds g h Free (Spec g0 m)). lia.
  - pose proof (credit_mono g g0 h Free m m' Hsub). lia.
  - rewrite credit_insert, credit_lookup. unfold is_opened.
    case_bool_decide; repeat case_decide; naive_solver lia.
  - rewrite credit_insert, credit_lookup.
    destruct (g =? g0) eqn:?, (h =? h0) eqn:?; repeat case_decide; naive_solver lia.
  - rewrite credit_delete, credit_lookup. repeat case_decide; naive_solver lia.
Qed.

Lemma spec_balance tr s :
  spec_run tr s →
  (∀ g h c e, count (is_published g h c e) tr + credit g h (Bound c e) s
    ≤ count (is_assigned g h c e) tr)
  ∧ (∀ g h, count (is_assigned_handle g h) tr + credit g h Free s ≤ count (is_opened g h) tr).
Proof.
  induction 1 as [g|tr s es s' _ [IH1 IH2] Hstep].
  - split; intros; rewrite credit_empty; done.
  - split.
    + intros g h c e. rewrite !count_app. specialize (IH1 g h c e).
      pose proof (spec_step_bound _ _ _ g h c e Hstep). lia.
    + intros g h. rewrite !count_app. specialize (IH2 g h).
      pose proof (spec_step_free _ _ _ g h Hstep). lia.
Qed.

(** ** The broker as a step relation *)

Section system.
Context {A : IngressAbi} {N F : Type}.
Abbreviation broker := (ingressBroker N F).
Implicit Types b : broker.

(** What the caller of a method sees happen. *)
Definition open_obs (generation handle : Z) (o : @outcome F) : list obs :=
  match o_err o with None => [OOpened generation handle] | Some _ => [] end.
Definition assign_obs (a : ConnectionAssignment) (r : res IngressError N) : list obs :=
  match r with
  | Ok _ => [OAssigned (ca_Generation a) (ca_ConnectionHandle a) (ca_CorrelationID a)
               (unix_milli (ca_ExpiresAt a))]
  | _ => []
  end.
Definition deliver_obs (b : broker) (o : @outcome F) : list obs :=
  match o_err o, last (b_verified b) with
  | None, Some v => [OPublished (vf_generation v) (vf_handle v) (vf_correlation v)
                       (unix_milli (vf_expiresAt v))]
  | _, _ => []
  end.

(** The methods, each an atomic critical section. *)
Inductive method : broker → list obs → broker → Prop :=
| m_activate g n f b : method b [] (activate g n f b)
| m_deactivate g b : method b [] (deactivate g b)
| m_failGeneration g b : method b [] (failGeneration g b)
| m_open ord now g h b b' o : range_order ord → open ord now g h b = (b', o) →
    method b (open_obs g h o) b'
| m_assign_begin now a b b' r : assign_begin now a b = (b', r) → method b (assign_obs a r) b'
| m_assign_end a rc b : method b [] (assign_end a rc b).1
| m_closeHandle g h b : method b [] (closeHandle g h b)
| m_closeCorrelation g c b : method b [] (closeCorrelation g c b)
| m_deliver now g c frame ms b b' o : deliver now g c frame ms b = (b', o) →
    method b (deliver_obs b' o) b'
| m_deliverIPC now g h c frame b0 b b' o : deliverIPCFrame now g h c frame b0 b = (b', o) →
    method b (deliver_obs b' o) b'
| m_recv_opened o b b' : recv_opened b = Some (o, b') → method b [] b'
| m_recv_verified v b b' : recv_verified b = Some (v, b') → method b [] b'.

(** ... and the timers: one fires, or the call it made runs. *)
Inductive step : broker → list obs → broker → Prop :=
| step_method b es b' : method b es b' → step b es b'
| step_expire g h c e b : step b [] (expire g h c e b)
| step_fire t b : step b [] (fire t b).

(** Everything that can happen to a broker after its creation. *)
Inductive run : list obs → broker → Prop :=
| run_start capacity : run [] (newIngressBroker capacity)
| run_step tr es b b' : run tr b → step b es b' → run (tr ++ es) b'.

(** ** The abstraction *)

Definition handle_state (b : broker) (h : Z) : handleState :=
  match list_find (λ p, ip_handle p = h) (map_to_list (b_correlations b)).*2 with
  | Some (_, p) => Bound (ip_correlation p) (unix_milli (ip_expiresAt p))
  | None => Free
  end.
Definition abs (b : broker) : specState :=
  Spec (b_generation b) (map_imap (λ h _, Some (handle_state b h)) (b_handles b)).

Lemma handle_state_pending b c p :
  wf b → b_correlations b !! c = Some p →
  handle_state b (ip_handle p) = Bound c (unix_milli (ip_expiresAt p)).
Proof.
  intros Hwf Hc. unfold handle_state.
  destruct (list_find _ _) as [[i q]|] eqn:Hf.
  - apply list_find_Some in Hf as (Hin%list_elem_of_lookup_2 & Hq & _).
    apply list_elem_of_fmap in Hin as ([c' q'] & -> & Hin'%elem_of_map_to_list). cbn in *.
    assert (c = c') as <- by by eapply (wf_unique b Hwf).
    simplify_eq.
    by destruct (wf_correlations b Hwf _ _ Hc) as [-> _].
  - exfalso. rewrite list_find_None, Forall_forall in Hf. apply (Hf p); [|done].
    apply list_elem_of_fmap. exists (c, p). split; [done|]. by apply elem_of_map_to_list.
Qed.

Lemma handle_state_free b h : h ∉ assigning b → handle_state b h = Free.
Proof.
  intros Hh. unfold handle_state. destruct (list_find _ _) as [[i q]|] eqn:Hf; [|done].
  apply list_find_Some in Hf as (Hin%list_elem_of_lookup_2 & Hq & _).
  exfalso. apply Hh, list_elem_of_fmap. by exists q.
Qed.

Lemma abs_lookup b h st :
  sp_handles (abs b) !! h = Some st ↔ is_Some (b_handles b !! h) ∧ st = handle_state b h.
Proof.
  cbn. rewrite map_lookup_imap. destruct (b_handles b !! h) as [t|]; cbn.
  - split; [intros [= <-]; by eauto|by intros [_ ->]].
  - split; [done|by intros [[? ?] _]].
Qed.
Lemma abs_lookup_None b h : sp_handles (abs b) !! h = None ↔ b_handles b !! h = None.
Proof. cbn. rewrite map_lookup_imap. by destruct (b_handles b !! h). Qed.

Lemma abs_bound b h c e :
  wf b → sp_handles (abs b) !! h = Some (Bound c e) ↔
  ∃ p, b_correlations b !! c = Some p ∧ ip_handle p = h ∧ unix_milli (ip_expiresAt p) = e.
Proof.
  intros Hwf. rewrite abs_lookup. split.
  - intros [_ Hst]. destruct (decide (h ∈ assigning b)) as [Hin|Hn];
      [|by rewrite handle_state_free in Hst].
    apply elem_of_assigning in Hin as (c' & p & Hc & <-).
    rewrite (handle_state_pending b c' p) in Hst by done. simplify_eq. eauto.
  - intros (p & Hc & <- & <-). rewrite (handle_state_pending b c p) by done.
    by destruct (wf_correlations b Hwf c p Hc) as (_ & _ & ?).
Qed.

Lemma abs_free b h :
  wf b → sp_handles (abs b) !! h = Some Free ↔ is_Some (b_handles b !! h) ∧ h ∉ assigning b.
Proof.
  intros Hwf. rewrite abs_lookup. split; intros [Hh Hst]; (split; [done|]).
  - intros (c & p & Hc & <-)%elem_of_assigning. by rewrite (handle_state_pending b c p) in Hst.
  - by rewrite handle_state_free.
Qed.

Lemma handle_state_stable b b' h :
  wf b → wf b' →
  (∀ c p, ip_handle p = h → b_correlations b !! c = Some p ↔ b_correlations b' !! c = Some p) →
  handle_state b' h = handle_state b h.
Proof.
  intros Hwf Hwf' Hsame. destruct (decide (h ∈ assigning b)) as [(c & p & Hc & <-)%elem_of_assigning|Hn].
  - rewrite (handle_state_pending b c p) by done.
    by rewrite (handle_state_pending b' c p); [|done|by apply Hsame].
  - rewrite !handle_state_free; [done..|]. intros (c & p & Hc & Hh)%elem_of_assigning.
    apply Hn, elem_of_assigning. exists c, p. split; [|done]. by apply Hsame.
Qed.

(** ** Refinement, method by method *)

Lemma cleared_refines b b' : b_handles b' = ∅ → spec_steps (abs b) [] (abs b').
Proof.
  intros Hh. apply spec_one. unfold abs at 2. rewrite Hh, map_imap_empty. apply spec_reset.
Qed.

Lemma same_refines b b' :
  b_generation b' = b_generation b → b_handles b' = b_handles b →
  b_correlations b' = b_correlations b → spec_steps (abs b) [] (abs b').
Proof.
  intros Hg Hh Hc. unfold abs, handle_state. rewrite Hg, Hh, Hc. constructor.
Qed.

Lemma closes_forgets stops b b' :
  wf b → wf b' → closes stops b b' → spec_step (abs b) [] (abs b').
Proof.
  intros Hwf Hwf' Hcl. pose proof Hcl as []. unfold abs. rewrite cl_generation. apply spec_forget.
  apply map_subseteq_spec. intros h st Hst. change (sp_handles (abs b) !! h = Some st).
  change (sp_handles (abs b') !! h = Some st) in Hst. destruct st as [|c e].
  - apply abs_free in Hst as [[t Ht] Hn]; [|done]. apply abs_free; [done|].
    split; [eexists; by eapply lookup_weaken|].
    intros (c & p & Hc & <-)%elem_of_assigning. destruct (b_correlations b' !! c) as [p'|] eqn:Hc'.
    + rewrite (lookup_weaken _ _ _ _ Hc' cl_correlations) in Hc. simplify_eq.
      apply Hn, elem_of_assigning. eauto.
    + rewrite (cl_together _ _ Hc Hc') in Ht. done.
  - apply abs_bound in Hst as (p & Hc & Hp); [|done]. apply abs_bound; [done|].
    exists p. split; [by eapply lookup_weaken|done].
Qed.

Lemma closes_refines stops b b' :
  wf b → wf b' → closes stops b b' → spec_steps (abs b) [] (abs b').
Proof. intros. eapply spec_one, closes_forgets; eauto. Qed.

Lemma open_refines ord now g h b b' o :
  range_order ord → wf b → open ord now g h b = (b', o) →
  spec_steps (abs b) (open_obs g h o) (abs b').
Proof.
  intros Hord Hwf. unfold open.
  destruct (negb (g =? _)) eqn:Hg; [intros [= <- <-]; constructor|].
  destruct (negb (b_active b)) eqn:Ha; [intros [= <- <-]; constructor|].
  destruct (h =? 0); [intros [= <- <-]; by apply cleared_refines|].
  case_bool_decide as Hdup; [intros [= <- <-]; by apply cleared_refines|].
  pose proof (evict_wf ord now b Hord Hwf) as Hwf'.
  pose proof (evict_closes ord now b Hord) as Hcl.
  pose proof (evict_frame ord now b Hord) as (_ & Hg' & _ & Hc' & _ & _ & Hsub & _).
  destruct (evictStaleHandlesLocked ord now b) as [b1 ok]. cbn in *.
  destruct ok; cbn [negb]; [|intros [= <- <-]; by apply cleared_refines].
  destruct (_ <? _) in |- *; [|intros [= <- <-]; by apply cleared_refines].
  intros [= <- <-]. apply negb_false_iff, Z.eqb_eq in Hg as ->.
  change (spec_steps (abs b) ([] ++ [OOpened (b_generation b) h])
    (abs (set_handles (<[h:=now]> (b_handles b1)) b1))).
  eapply spec_two; [by eapply closes_forgets|].
  assert (b_handles b !! h = None) as Hnone by by apply eq_None_not_Some.
  assert (handle_state b1 h = Free) as Hfree.
  { apply handle_state_free. intros (c & p & Hp & Hh)%elem_of_assigning. rewrite Hc' in Hp.
    destruct (wf_correlations b Hwf c p Hp) as (_ & _ & [? Hin]). congruence. }
  unfold abs. cbn. change (handle_state (set_handles _ b1)) with (handle_state b1).
  rewrite Hg'. rewrite (map_imap_insert_Some _ _ _ _ Free) by (by rewrite Hfree).
  apply spec_open. rewrite map_lookup_imap. by rewrite (lookup_weaken_None _ _ _ Hnone Hsub).
Qed.

Lemma deliver_refines now g c frame ms b b' o :
  wf b → deliver now g c frame ms b = (b', o) → spec_steps (abs b) (deliver_obs b' o) (abs b').
Proof.
  intros Hwf. pose proof (closeCorrelation_closes g c b Hwf) as Hcl.
  pose proof (closeCorrelation_wf g c b Hwf) as Hclwf. unfold deliver.
  destruct (_ || _); [intros [= <- <-]; by eapply closes_refines|].
  destruct (_ || _) in |- *; [intros [= <- <-]; by eapply closes_refines|].
  destruct (negb (g =? _)) eqn:Hg; [intros [= <- <-]; constructor|].
  destruct (negb (b_active b)) eqn:Ha; [intros [= <- <-]; constructor|].
  destruct (b_correlations b !! c) as [p|] eqn:Hc; [|intros [= <- <-]; constructor].
  pose proof (drop_pending_wf c p b Hwf Hc) as Hwf'.
  pose proof (drop_pending_closes c p b Hwf Hc) as Hcl'.
  destruct (negb (unix_milli _ =? _)) eqn:Hms; [intros [= <- <-]; by eapply closes_refines|].
  destruct (_ <? _) in |- *; [|intros [= <- <-]; by apply cleared_refines].
  intros [= <- <-]. apply negb_false_iff, Z.eqb_eq in Hms, Hg. subst g.
  set (b1 := drop_pending c p b) in *. unfold deliver_obs. cbn [o_err returns b_verified set_queues].
  rewrite last_snoc. cbn [vf_generation vf_handle vf_correlation vf_expiresAt].
  rewrite unix_milli_from by (apply (swrap_range 64); lia). rewrite <-Hms.
  apply spec_one.
  match goal with |- spec_step _ _ (abs ?b') => set (b2 := b') end.
  assert (abs b2 = Spec (b_generation b) (delete (ip_handle p) (sp_handles (abs b)))) as ->.
  { unfold abs. f_equal. apply map_eq. intros h.
    change (handle_state b2) with (handle_state b1).
    change (b_handles b2) with (delete (ip_handle p) (b_handles b)).
    destruct (decide (h = ip_handle p)) as [->|Hne].
    - rewrite map_lookup_imap. cbn. by rewrite !lookup_delete_eq.
    - rewrite lookup_delete_ne by done. cbn [sp_handles abs]. rewrite !map_lookup_imap.
      rewrite lookup_delete_ne by done. destruct (b_handles b !! h); cbn; [|done].
      f_equal. apply handle_state_stable; [done|done|]. intros c' p' Hp'. cbn.
      rewrite lookup_delete_Some. split; [|by intros [_ ?]].
      intros Hc'. split; [|done]. intros ->. simplify_eq. }
  apply spec_publish. apply abs_bound; [done|]. eauto.
Qed.

Lemma assign_begin_refines now a b b' r :
  wf b → assign_begin now a b = (b', r) → spec_steps (abs b) (assign_obs a r) (abs b').
Proof.
  intros Hwf Heq. pose proof (assign_begin_wf now a b Hwf) as Hwf'. rewrite Heq in Hwf'.
  cbn in Hwf'. revert Heq. unfold assign_begin.
  destruct (_ || _);
    [intros [= <- <-]; eapply closes_refines; [done|done|apply closeHandle_closes]|].
  case_bool_decide as Hc0;
    [intros [= <- <-]; eapply closes_refines; [done|done|apply closeHandle_closes]|].
  destruct (negb (_ =? _)) eqn:Hg; [intros [= <- <-]; constructor|].
  destruct (negb (b_active b)) eqn:Ha; [intros [= <- <-]; constructor|].
  case_bool_decide as Hh; [intros [= <- <-]; constructor|].
  case_bool_decide as Hdup;
    [intros [= <- <-]; eapply closes_refines; [done|done|by apply clearAssignmentLocked_closes]|].
  destruct (list_find _ _) as [[i p]|] eqn:Hfind;
    [intros [= <- <-]; eapply closes_refines; [done|done|by apply clearAssignmentLocked_closes]|].
  apply eq_None_not_Some in Hdup. apply not_eq_None_Some in Hh.
  apply negb_false_iff, Z.eqb_eq in Hg. apply negb_false_iff in Ha.
  destruct (wf_active b Hwf Ha) as [_ [f Hf]]. cbn. rewrite Hf. intros [= <- <-]. cbn.
  assert (ca_ConnectionHandle a ∉ assigning b) as Hfree.
  { intros (p & Heq & Hin)%list_elem_of_fmap. rewrite list_find_None, Forall_forall in Hfind.
    by apply (Hfind p). }
  match type of Hwf' with wf ?b1 => set (b1' := b1) in * end.
  rewrite Hg. apply spec_one.
  assert (abs b1' = Spec (b_generation b) (<[ca_ConnectionHandle a :=
    Bound (ca_CorrelationID a) (unix_milli (ca_ExpiresAt a))]> (sp_handles (abs b)))) as ->.
  { unfold abs at 1. f_equal. apply map_eq. intros h.
    destruct (decide (h = ca_ConnectionHandle a)) as [->|Hne].
    - rewrite map_lookup_imap, lookup_insert_eq. cbn. destruct Hh as [t ->]. cbn. f_equal.
      eapply (handle_state_pending b1' (ca_CorrelationID a)
        (Pending _ _ _ _)); [done|]. cbn. apply lookup_insert_eq.
    - rewrite lookup_insert_ne by done. unfold abs. cbn [sp_handles]. rewrite !map_lookup_imap. cbn.
      destruct (b_handles b !! h); cbn; [|done].
      f_equal. apply handle_state_stable; [done|done|]. intros c' p' <-. cbn.
      rewrite lookup_insert_Some. split; [|naive_solver].
      intros Hc'. right. split; [|done]. intros <-. congruence. }
  apply spec_bind; [by apply abs_free|].
  intros h e Hb. apply abs_bound in Hb as (p & Hp & _); [|done]. congruence.
Qed.

Lemma method_wf b es b' : wf b → method b es b' → wf b'.
Proof.
  intros Hwf Hm. destruct Hm as [| | |ord now g h b b' o Hord Heq|now a b b' r Heq| | |
    |now g c frame ms b b' o Heq|now g h c frame b0 b b' o Heq|o b b' Heq|v b b' Heq].
  - by apply activate_wf.
  - by apply deactivate_wf.
  - by apply failGeneration_wf.
  - pose proof (open_wf ord now g h b Hord Hwf). by rewrite Heq in *.
  - pose proof (assign_begin_wf now a b Hwf). by rewrite Heq in *.
  - by apply assign_end_wf.
  - by apply closeHandle_wf.
  - by apply closeCorrelation_wf.
  - pose proof (deliver_wf now g c frame ms b Hwf). by rewrite Heq in *.
  - unfold deliverIPCFrame in Heq. destruct (b_correlations b0 !! c) as [p|]; [|by simplify_eq].
    destruct (negb _); [by simplify_eq|].
    pose proof (deliver_wf now g c frame (u64 (unix_milli (ip_expiresAt p))) b Hwf).
    by rewrite Heq in *.
  - by eapply recv_opened_wf.
  - by eapply recv_verified_wf.
Qed.

Lemma step_wf b es b' : wf b → step b es b' → wf b'.
Proof.
  intros Hwf Hstep. destruct Hstep as [b0 es0 b1 Hm|g h c e b0|t b0];
    [by eapply method_wf|by apply expire_wf|by apply fire_wf].
Qed.

Lemma method_spec b es b' : wf b → method b es b' → spec_steps (abs b) es (abs b').
Proof.
  intros Hwf Hm. pose proof (method_wf b es b' Hwf Hm) as Hwf'.
  destruct Hm as [| | |ord now g h b b' o Hord Heq|now a b b' r Heq| | |
    |now g c frame ms b b' o Heq|now g h c frame b0 b b' o Heq|o b b' Heq|v b b' Heq].
  - by apply cleared_refines.
  - unfold deactivate. case_match; [constructor|by apply cleared_refines].
  - unfold failGeneration. case_match; [by apply cleared_refines|constructor].
  - by eapply open_refines.
  - by eapply assign_begin_refines.
  - unfold assign_end in *. case_match; [constructor|]. cbn.
    eapply closes_refines; [done|done|apply closeHandle_closes].
  - eapply closes_refines; [done|done|apply closeHandle_closes].
  - by eapply closes_refines; [| |apply closeCorrelation_closes].
  - by eapply deliver_refines.
  - unfold deliverIPCFrame in Heq. repeat case_match; simplify_eq; try constructor.
    by eapply deliver_refines.
  - unfold recv_opened in Heq. case_match; simplify_eq. by apply same_refines.
  - unfold recv_verified in Heq. case_match; simplify_eq. by apply same_refines.
Qed.

Lemma step_spec b es b' : wf b → step b es b' → spec_steps (abs b) es (abs b').
Proof.
  intros Hwf Hstep. destruct Hstep as [b0 es0 b1 Hm|g h c e b0|t b0].
  - by apply method_spec.
  - eapply closes_refines; [done|by apply expire_wf|by apply expire_closes].
  - by apply same_refines.
Qed.

Lemma run_wf tr b : run tr b → wf b.
Proof. induction 1; eauto using new_wf, step_wf. Qed.

Lemma run_spec tr b : run tr b → spec_run tr (abs b).
Proof.
  induction 1 as [capacity|tr es b b' Hrun IH Hstep].
  - unfold abs. cbn. rewrite map_imap_empty. constructor.
  - eapply spec_run_steps; [done|]. eapply step_spec; [by eapply run_wf|done].
Qed.
End system.
