(* ===== verification/BrokerProps.v ===== *)
(** * What the broker guarantees

    The properties of [ingressBroker]: the invariant of every reachable broker,
    the refinement of its specification, and the functional behaviour of [open],
    [evictStaleHandlesLocked], [assign] and [deliver] on every branch. *)
From S2P Require Import Prelude GoInt Abi Protobuf Broker BrokerInv BrokerSys.

Section props.
Context {A : IngressAbi} {N F : Type}.
Abbreviation broker := (ingressBroker N F).
Implicit Types b : broker.

(** Nothing is left: the state a failed or closed generation leaves behind. *)
Definition silenced (b : broker) : Prop :=
  b_active b = false ∧ b_handles b = ∅ ∧ b_correlations b = ∅
  ∧ b_opened b = [] ∧ b_verified b = [].

(** The handle was opened and is not being assigned, for too long. *)
Definition stale (now : Z) (b : broker) (h : Z) : Prop :=
  h ∉ assigning b ∧ ∃ t, b_handles b !! h = Some t ∧ ingressHandleTTL < now - t.

Lemma stale_sub now t : ingressHandleTTL < time_sub now t ↔ ingressHandleTTL < now - t.
Proof. apply time_sub_gt. by vm_compute. Qed.

Lemma fail_with_spec e b b' o :
  fail_with e b = (b', o) →
  silenced b' ∧ o = Outcome (Some e) (b_fatal b ≫= λ f, Some (f, e)).
Proof. intros [= <- <-]. by split. Qed.

(** The oldest handle of the list that is not busy. *)
Lemma foldl_older_least busy l best h t :
  foldl (older busy) best l = Some (h, t) →
  (∀ h' t', (h', t') ∈ l → h' ∉ busy → t ≤ t') ∧ (∀ h' t', best = Some (h', t') → t ≤ t').
Proof.
  revert best. induction l as [|[h' t'] l IH]; intros best; cbn; [set_solver by naive_solver lia|].
  intros Hf. destruct (IH _ Hf) as [Hl Hb]. unfold older in Hb. cbn in Hb. split.
  - intros h0 t0 [[= -> ->]|?]%elem_of_cons Hnb; [|by eauto].
    rewrite bool_decide_eq_false_2 in Hb by done.
    destruct best as [[hb tb]|]; [|by eauto]. destruct (t' <? tb) eqn:?; [by eauto|].
    specialize (Hb _ _ eq_refl). lia.
  - intros h0 t0 ->. case_bool_decide; [by eauto|].
    destruct (t' <? t0) eqn:?; [|by eauto]. specialize (Hb _ _ eq_refl). lia.
Qed.
End props.

(** C19: every broker reachable from [newIngressBroker] by any interleaving of its
    methods is well formed: the queues are within capacity, at most 4096 handles,
    an inactive broker is empty, every pending correlation is non-zero, belongs to
    one open handle and to no other, and the queues hold only values of the current
    generation. *)
Theorem broker_invariant {A : IngressAbi} {N F : Type} tr (b : ingressBroker N F) :
  run tr b → wf b.
Proof. apply run_wf. Qed.

(** C1: the broker refines its specification: whatever the interleaving, clock and
    map order, what its clients see is a run of [spec_step], where a handle is
    opened, bound to one correlation, and consumed by one publication. *)
Theorem broker_refines_spec {A : IngressAbi} {N F : Type} tr (b : ingressBroker N F) :
  run tr b → spec_run tr (abs b).
Proof. apply run_spec. Qed.

(** C3: exactly-once: in every reachable history a frame is published for a handle,
    correlation and deadline at most once per native assignment of that very triple,
    the pending ones not counted, and a handle is assigned at most once per opening. *)
Theorem published_at_most_once {A : IngressAbi} {N F : Type} tr (b : ingressBroker N F) :
  run tr b →
  (∀ g h c e, count (is_published g h c e) tr + credit g h (Bound c e) (abs b)
    ≤ count (is_assigned g h c e) tr)
  ∧ (∀ g h, count (is_assigned_handle g h) tr + credit g h Free (abs b)
    ≤ count (is_opened g h) tr).
Proof. intros Hrun. eapply spec_balance, run_spec, Hrun. Qed.

Section functional.
Context {A : IngressAbi} {N F : Type}.
Abbreviation broker := (ingressBroker N F).
Implicit Types b : broker.

(** [evictStaleHandlesLocked] never touches a handle that is being assigned;
    it removes exactly the stale handles, and one more, the oldest that is not
    being assigned, only when 4096 are left; it reports failure exactly when
    4096 are left and all of them are being assigned. *)
Theorem evict_spec ord now b b' ok :
  range_order ord → wf b → evictStaleHandlesLocked ord now b = (b', ok) →
  let fresh h t := b_handles b !! h = Some t ∧ ¬ stale now b h in
  (∀ h t, b_handles b' !! h = Some t → fresh h t)
  ∧ (if ok
     then Z.of_nat (size (b_handles b')) < maxIngressHandles
          ∧ ∀ h t, fresh h t → b_handles b' !! h = None →
              Z.of_nat (size (b_handles b')) = maxIngressHandles - 1
              ∧ h ∉ assigning b
              ∧ ∀ h' t', b_handles b' !! h' = Some t' → h' ∉ assigning b → t ≤ t'
     else Z.of_nat (size (b_handles b')) = maxIngressHandles
          ∧ (∀ h t, b_handles b' !! h = Some t ↔ fresh h t)
          ∧ ∀ h t, fresh h t → h ∈ assigning b).
Proof.
  intros Hord Hwf Heq fresh.
  pose proof (evict_room ord now b Hord Hwf) as Hroom. rewrite Heq in Hroom.
  revert Heq. unfold evictStaleHandlesLocked. set (hs := filter _ (b_handles b)).
  assert (∀ h t, hs !! h = Some t ↔ fresh h t) as Hhs.
  { intros h t. unfold hs, fresh, stale. rewrite map_lookup_filter_Some. cbn.
    rewrite stale_sub. destruct (decide (h ∈ assigning b)); naive_solver. }
  assert (size hs ≤ size (b_handles b))%nat as Hsize
    by apply map_subseteq_size, map_filter_subseteq.
  pose proof (wf_size b Hwf).
  destruct (_ <? _) eqn:Hlt.
  { intros [= <- <-]. cbn in *. split; [apply Hhs|]. split; [done|].
    intros h t Hf%Hhs Hn. congruence. }
  destruct (foldl _ _ _) as [[h0 t0]|] eqn:Hold; intros [= <- <-]; cbn in *.
  - assert (hs !! h0 = Some t0 ∧ h0 ∉ assigning b) as [Hh0 Hfree].
    { apply foldl_older_Some in Hold as [?|[Hin ?]]; [done|].
      by rewrite (Hord hs), elem_of_map_to_list in Hin. }
    apply foldl_older_least in Hold as [Hleast _].
    assert (∀ h t, hs !! h = Some t → h ∉ assigning b → t0 ≤ t) as Hle.
    { intros h t Hh. apply Hleast. by rewrite (Hord hs), elem_of_map_to_list. }
    split; [by intros h t [_ Hh]%lookup_delete_Some; apply Hhs|]. split; [done|].
    intros h t Hf%Hhs Hn. apply lookup_delete_None in Hn as [<-|?]; [|congruence].
    rewrite map_size_delete, Hh0 in *. split_and!; [lia|done|].
    intros h' t' [_ Hh']%lookup_delete_Some. simplify_eq. by apply Hle.
  - destruct Hroom as [? Hbusy]. split; [apply Hhs|].
    split_and!; [lia|done|]. intros h t Hf%Hhs. by eapply Hbusy.
Qed.

(** [open] on every branch: it rejects another generation and a closed broker
    without an effect; a zero handle, a duplicate handle, a full queue, or 4096
    handles all being assigned end the generation, empty the broker and call the
    fatal callback, once, with that error; otherwise the handle is recorded, its
    opening is queued last, and no handle being assigned is lost. *)
Theorem open_spec ord now g h b b' o :
  range_order ord → wf b → open ord now g h b = (b', o) →
  match o_err o with
  | None =>
      g = b_generation b ∧ b_active b = true ∧ h ≠ 0 ∧ b_handles b !! h = None
      ∧ o_fatal o = None
      ∧ b_opened b' = b_opened b ++ [Opened g h]
      ∧ b_handles b' !! h = Some now ∧ b_handles b' ⊆ <[h := now]> (b_handles b)
      ∧ b_correlations b' = b_correlations b ∧ b_verified b' = b_verified b
      ∧ wf b'
  | Some ErrIngressGeneration => g ≠ b_generation b ∧ b' = b ∧ o_fatal o = None
  | Some ErrIngressClosed =>
      g = b_generation b ∧ b_active b = false ∧ b' = b ∧ o_fatal o = None
  | Some e =>
      g = b_generation b ∧ b_active b = true
      ∧ (h = 0 ∧ e = ErrIngressMismatch
         ∨ h ≠ 0 ∧ is_Some (b_handles b !! h) ∧ e = ErrIngressDuplicate
         ∨ h ≠ 0 ∧ b_handles b !! h = None ∧ e = ErrIngressOverflow
           ∧ ((evictStaleHandlesLocked ord now b).2 = false
              ∨ zlen (b_opened b) = b_capacity b))
      ∧ silenced b' ∧ o_fatal o = (b_fatal b ≫= λ f, Some (f, e))
  end.
Proof.
  intros Hord Hwf. pose proof (open_wf ord now g h b Hord Hwf) as Hwf'. revert Hwf'.
  unfold open.
  destruct (g =? _) eqn:Hg; cbn [negb]; [|intros _ [= <- <-]; cbn; split_and!; [lia|done..]].
  apply Z.eqb_eq in Hg.
  destruct (b_active b) eqn:Ha; cbn [negb]; [|by intros _ [= <- <-]].
  destruct (h =? 0) eqn:Hh0.
  { intros _ [Hs ->]%fail_with_spec. cbn. split_and!; try done. left. split; [lia|done]. }
  case_bool_decide as Hdup.
  { intros _ [Hs ->]%fail_with_spec. cbn. split_and!; try done. right. left. split_and!; [lia|done..]. }
  apply eq_None_not_Some in Hdup.
  pose proof (evict_frame ord now b Hord) as (_ & Hg' & Hcap & Hc' & Ho' & Hv' & Hsub & Hf' & _).
  pose proof (wf_opened_len b Hwf).
  destruct (evictStaleHandlesLocked ord now b) as [b1 ok]. cbn in *.
  destruct ok; cbn [negb].
  2:{ intros _ [Hs ->]%fail_with_spec. cbn. rewrite Hf'. split_and!; try done.
      right. right. split_and!; [lia|done..|]. by left. }
  rewrite Ho', Hcap. destruct (_ <? _) eqn:Hlt in |- *.
  - intros Hwf' [= <- <-]. cbn in *. split_and!; try done; [lia|by apply lookup_insert_eq|].
    by apply insert_mono.
  - intros _ [= <- <-]. cbn. rewrite Hf'. split_and!; try done.
    right. right. split_and!; [lia|done..|]. right. lia.
Qed.

(** [deliver] on every branch: it publishes a frame, last in the queue, only
    for the current generation, while active, for a pending correlation whose
    deadline is the frame's to the millisecond, before that deadline, with a frame
    within bounds; and the correlation and its handle are then gone. Every error
    about a frame or a deadline consumes the correlation as well, and an overflow
    ends the generation. *)
Theorem deliver_spec now g c frame ms b b' o :
  wf b → deliver now g c frame ms b = (b', o) →
  let expiresAt := from_unix_milli (i64 ms) in
  match o_err o with
  | None =>
      g = b_generation b ∧ b_active b = true ∧ o_fatal o = None
      ∧ MinIngressFrameBytes ≤ zlen frame ≤ MaxIngressFrameBytes
      ∧ now < expiresAt
      ∧ ∃ p, b_correlations b !! c = Some p ∧ unix_milli (ip_expiresAt p) = i64 ms
        ∧ b_verified b' = b_verified b ++ [VerifiedFrame g (ip_handle p) c frame expiresAt]
        ∧ b_handles b' = delete (ip_handle p) (b_handles b)
        ∧ b_correlations b' = delete c (b_correlations b)
        ∧ b_opened b' = b_opened b
  | Some ErrIngressGeneration => g ≠ b_generation b ∧ b' = b ∧ o_fatal o = None
  | Some ErrIngressClosed => b_active b = false ∧ b' = b ∧ o_fatal o = None
  | Some ErrIngressOverflow =>
      zlen (b_verified b) = b_capacity b ∧ silenced b'
      ∧ o_fatal o = (b_fatal b ≫= λ f, Some (f, ErrIngressOverflow))
  | Some e =>
      (e = ErrIngressFrame ∨ e = ErrIngressLifetime ∨ e = ErrIngressMismatch)
      ∧ o_fatal o = None ∧ b_verified b' = b_verified b ∧ b_opened b' = b_opened b
      ∧ closes true b b'
      ∧ (g = b_generation b → b_correlations b' !! c = None)
  end.
Proof.
  intros Hwf. pose proof (closeCorrelation_closes g c b Hwf) as Hcl.
  assert (g = b_generation b → b_correlations (closeCorrelation g c b) !! c = None) as Hgone.
  { intros ->. unfold closeCorrelation. rewrite Z.eqb_refl. cbn.
    destruct (b_correlations b !! c) eqn:?; [apply lookup_delete_eq|done]. }
  assert (b_verified (closeCorrelation g c b) = b_verified b
    ∧ b_opened (closeCorrelation g c b) = b_opened b) as [Hv Ho]
    by (unfold closeCorrelation; repeat case_match; done).
  unfold deliver. destruct (_ || _) eqn:Hlen.
  { intros [= <- <-]. cbn. split_and!; auto. }
  destruct (_ || _) eqn:Hlife in |- *.
  { intros [= <- <-]. cbn. split_and!; auto. }
  destruct (g =? _) eqn:Hg; cbn [negb]; [|intros [= <- <-]; cbn; split_and!; [lia|done..]].
  destruct (b_active b) eqn:Ha; cbn [negb]; [|by intros [= <- <-]].
  destruct (b_correlations b !! c) as [p|] eqn:Hc.
  2:{ intros [= <- <-]. cbn. split_and!; auto. reflexivity. }
  destruct (unix_milli _ =? _) eqn:Hms; cbn [negb].
  2:{ intros [= <- <-]. cbn. split_and!; auto; [by apply drop_pending_closes|].
      intros _. apply lookup_delete_eq. }
  pose proof (wf_verified_len b Hwf). cbn.
  destruct (_ <? _) eqn:Hlt in |- *; intros [= <- <-]; cbn.
  - split_and!; try done; try lia. exists p. split_and!; try done. lia.
  - split_and!; try done. lia.
Qed.

(** Closing a handle of the current generation removes it and its assignment. *)
Lemma closeHandle_gone g h b :
  g = b_generation b →
  b_handles (closeHandle g h b) !! h = None ∧ h ∉ assigning (closeHandle g h b).
Proof.
  intros ->. unfold closeHandle. rewrite Z.eqb_refl. cbn. split; [apply lookup_delete_eq|].
  intros (c & p & [_ Hne]%map_lookup_filter_Some & Hp)%elem_of_assigning. done.
Qed.

Lemma clearAssignmentLocked_gone h c b :
  b_handles (clearAssignmentLocked h c b) !! h = None
  ∧ h ∉ assigning (clearAssignmentLocked h c b)
  ∧ b_correlations (clearAssignmentLocked h c b) !! c = None.
Proof.
  unfold clearAssignmentLocked. cbn. split_and!.
  - destruct (b_correlations b !! c) as [p|]; cbn; [|apply lookup_delete_eq].
    destruct (decide (ip_handle p = h)) as [->|];
      [apply lookup_delete_eq|rewrite lookup_delete_ne by done; apply lookup_delete_eq].
  - intros (c' & p & [_ Hne]%map_lookup_filter_Some & Hp)%elem_of_assigning. done.
  - apply map_lookup_filter_None. left. destruct (b_correlations b !! c) eqn:?; [|done].
    apply lookup_delete_eq.
Qed.

Lemma closeHandle_generation g h b : b_generation (closeHandle g h b) = b_generation b.
Proof. apply (cl_generation _ _ _ (closeHandle_closes g h b)). Qed.

(** What a refused [assign] leaves, for the theorems below. *)
Lemma assign_begin_refused now a b b' r :
  wf b → assign_begin now a b = (b', r) →
  match r with
  | Ok _ => True
  | Err e =>
      (e = ErrIngressGeneration ∧ b' = b ∧ ca_Generation a ≠ b_generation b)
      ∨ (e = ErrIngressClosed ∧ b' = b
         ∧ (b_active b = false ∨ b_handles b !! ca_ConnectionHandle a = None))
      ∨ (e ≠ ErrIngressGeneration ∧ e ≠ ErrIngressClosed
         ∧ (ca_Generation a = b_generation b' → b_handles b' !! ca_ConnectionHandle a = None
            ∧ ca_ConnectionHandle a ∉ assigning b'))
  | Panic => False
  end.
Proof.
  intros Hwf. unfold assign_begin.
  pose proof (closeHandle_gone (ca_Generation a) (ca_ConnectionHandle a) b) as Hgone.
  pose proof (clearAssignmentLocked_gone (ca_ConnectionHandle a)) as Hclear.
  rewrite <-(closeHandle_generation (ca_Generation a) (ca_ConnectionHandle a) b) in Hgone at 1.
  destruct (_ || _); [intros [= <- <-]; by right; right|].
  case_bool_decide; [intros [= <- <-]; by right; right|].
  destruct (_ =? b_generation b) eqn:Hg; cbn [negb]; [|intros [= <- <-]; left; split_and!; [done..|lia]].
  destruct (b_active b) eqn:Ha; cbn [negb]; [|intros [= <- <-]; right; left; auto].
  case_bool_decide; [intros [= <- <-]; right; left; auto|].
  case_bool_decide; [intros [= <- <-]; right; right; split_and!; [done..|intros _; split; apply Hclear]|].
  destruct (list_find _ _) as [[i p]|];
    [intros [= <- <-]; right; right; split_and!; [done..|intros _; split; apply Hclear]|].
  destruct (wf_active b Hwf Ha) as [_ [f Hf]]. cbn. rewrite Hf. by intros [= <- <-].
Qed.

(** A silenced broker stays silenced. *)
Lemma closeHandle_silenced g h b : silenced b → silenced (closeHandle g h b).
Proof.
  intros (Ha & Hh & Hc & Ho & Hv). unfold closeHandle. case_match; [done|].
  unfold silenced. cbn. rewrite Hh, Hc, delete_empty, map_filter_empty. by split_and!.
Qed.
Lemma closeCorrelation_silenced g c b : silenced b → silenced (closeCorrelation g c b).
Proof.
  intros Hb. unfold closeCorrelation. case_match; [done|].
  destruct Hb as (Ha & Hh & Hc & Ho & Hv). by rewrite Hc, lookup_empty.
Qed.
Lemma assign_begin_silenced now a b b' r :
  silenced b → assign_begin now a b = (b', r) → silenced b' ∧ assign_obs a r = [].
Proof.
  intros Hb. unfold assign_begin. pose proof (closeHandle_silenced (ca_Generation a) (ca_ConnectionHandle a) b Hb).
  destruct (_ || _); [by intros [= <- <-]|]. case_bool_decide; [by intros [= <- <-]|].
  rewrite (proj1 Hb). cbn. case_match; by intros [= <- <-].
Qed.
Lemma deliver_silenced now g c frame ms b b' o :
  silenced b → deliver now g c frame ms b = (b', o) → deliver_obs b' o = [] ∧ silenced b'.
Proof.
  intros Hb. unfold deliver. pose proof (closeCorrelation_silenced g c b Hb).
  destruct (_ || _); [by intros [= <- <-]|]. destruct (_ || _) in |- *; [by intros [= <- <-]|].
  rewrite (proj1 Hb). cbn. case_match; by intros [= <- <-].
Qed.

(** [assign] up to the native call, on every branch: it goes on only for a
    deadline at most the ingress lifetime ahead, a non-zero correlation nobody
    uses, in the current active generation, for an open handle that is not being
    assigned; it has then recorded the pending entry and armed its timer, and the
    native function is there to call (it never panics). An invalid deadline, a
    zero correlation or a duplicate drops the handle with what it was bound to. *)
Theorem assign_begin_spec now a b b' r :
  wf b → assign_begin now a b = (b', r) →
  let h := ca_ConnectionHandle a in let c := ca_CorrelationID a in
  match r with
  | Ok f =>
      b_assignNative b = Some f
      ∧ now < ca_ExpiresAt a ∧ time_sub (ca_ExpiresAt a) now ≤ MaxIngressLifetime
      ∧ c ≠ zeroCorrelation ∧ ca_Generation a = b_generation b ∧ b_active b = true
      ∧ is_Some (b_handles b !! h) ∧ h ∉ assigning b ∧ b_correlations b !! c = None
      ∧ b_handles b' = b_handles b
      ∧ b_correlations b'
        = <[c := Pending h c (ca_ExpiresAt a) (Some (b_nextTimer b))]> (b_correlations b)
      ∧ b_timers b'
        = <[b_nextTimer b := TimerCall (ca_Generation a) h c (ca_ExpiresAt a)]> (b_timers b)
  | Err ErrIngressGeneration => ca_Generation a ≠ b_generation b ∧ b' = b
  | Err ErrIngressClosed => b' = b ∧ (b_active b = false ∨ b_handles b !! h = None)
  | Err e =>
      (e = ErrIngressLifetime ∨ e = ErrIngressMismatch ∨ e = ErrIngressDuplicate)
      ∧ closes true b b' ∧ b_opened b' = b_opened b ∧ b_verified b' = b_verified b
      ∧ (ca_Generation a = b_generation b → b_handles b' !! h = None ∧ h ∉ assigning b')
  | Panic => False
  end.
Proof.
  intros Hwf Heq h c. revert Heq. unfold assign_begin. fold h c.
  pose proof (closeHandle_closes (ca_Generation a) h b) as Hcl.
  pose proof (closeHandle_gone (ca_Generation a) h b) as Hgone.
  assert (b_opened (closeHandle (ca_Generation a) h b) = b_opened b
    ∧ b_verified (closeHandle (ca_Generation a) h b) = b_verified b) as [Ho Hv]
    by (unfold closeHandle; case_match; done).
  assert (∀ c', b_opened (clearAssignmentLocked h c' b) = b_opened b
    ∧ b_verified (clearAssignmentLocked h c' b) = b_verified b) as Hclear
    by (intros; unfold clearAssignmentLocked; cbn; case_match; done).
  destruct (_ || _) eqn:Hlife; [intros [= <- <-]; split_and!; auto|].
  case_bool_decide as Hc0; [intros [= <- <-]; split_and!; auto|].
  destruct (_ =? b_generation b) eqn:Hg; cbn [negb]; [|intros [= <- <-]; split; [lia|done]].
  destruct (b_active b) eqn:Ha; cbn [negb]; [|intros [= <- <-]; auto].
  case_bool_decide as Hh; [intros [= <- <-]; auto|].
  case_bool_decide as Hdup.
  { intros [= <- <-]. destruct (Hclear c), (clearAssignmentLocked_gone h c b) as (? & ? & _).
    split_and!; auto. by apply clearAssignmentLocked_closes. }
  destruct (list_find _ _) as [[i p]|] eqn:Hfind.
  { intros [= <- <-]. destruct (Hclear (ip_correlation p)).
    destruct (clearAssignmentLocked_gone h (ip_correlation p) b) as (? & ? & _).
    split_and!; auto. by apply clearAssignmentLocked_closes. }
  apply not_eq_None_Some in Hh. apply eq_None_not_Some in Hdup.
  destruct (wf_active b Hwf Ha) as [_ [f Hf]]. cbn. rewrite Hf. intros [= <- <-]. cbn.
  split_and!; try done; try lia.
  intros (p & Hp & Hin)%list_elem_of_fmap. rewrite list_find_None, Forall_forall in Hfind.
  by apply (Hfind p).
Qed.

(** C20: [assign] fails closed: whatever the native function answers, and whatever
    happens to the broker while it runs, an assignment that is not accepted leaves
    the handle neither open nor bound in its generation; [assign] succeeds only if
    the native function answered [AssignmentOK], and it never panics. *)
Theorem assign_fails_closed native now a b b' r :
  wf b → assign native now a b = (b', r) →
  match r with
  | Ok _ => ∃ f b1, assign_begin now a b = (b1, Ok f) ∧ native f a b1 = (b', AssignmentOK)
  | Err ErrIngressGeneration => b' = b ∧ ca_Generation a ≠ b_generation b
  | Err ErrIngressClosed =>
      b' = b ∧ (b_active b = false ∨ b_handles b !! ca_ConnectionHandle a = None)
  | Err _ =>
      ca_Generation a = b_generation b' →
      b_handles b' !! ca_ConnectionHandle a = None ∧ ca_ConnectionHandle a ∉ assigning b'
  | Panic => False
  end.
Proof.
  intros Hwf. unfold assign. destruct (assign_begin now a b) as [b1 r1] eqn:Hbegin.
  apply assign_begin_refused in Hbegin as Hrefused; [|done].
  destruct r1 as [f|e|]; [|intros [= <- <-]|done].
  - destruct (native f a b1) as [b2 rc] eqn:Hn. unfold assign_end.
    destruct (rc =? AssignmentOK) eqn:Hrc; intros [= <- <-].
    + apply Z.eqb_eq in Hrc as ->. eauto.
    + rewrite closeHandle_generation.
      destruct (_ || _); apply closeHandle_gone.
  - destruct Hrefused as [(-> & ?)|[(-> & ?)|(? & ? & ?)]]; [done..|]. by destruct e.
Qed.

Lemma method_silenced b es b' :
  silenced b → method b es b' →
  (es = [] ∧ silenced b') ∨ ∃ g n f, b' = activate g n f b ∧ es = [].
Proof.
  intros Hb Hm. pose proof Hb as (Ha & Hh & Hc & Ho & Hv).
  destruct Hm as [| | |ord now g h b b' o Hord Heq|now a b b' r Heq| | |
    |now g c frame ms b b' o Heq|now g h c frame b0 b b' o Heq|o b b' Heq|v b b' Heq];
    try (by right; eauto); left.
  - unfold deactivate. by case_match.
  - unfold failGeneration. by case_match.
  - revert Heq. unfold open. rewrite Ha. cbn. case_match; by intros [= <- <-].
  - destruct (assign_begin_silenced now a b b' r Hb Heq) as [? Hr]. by destruct r.
  - unfold assign_end. case_match; [done|]. split; [done|]. by apply closeHandle_silenced.
  - split; [done|]. by apply closeHandle_silenced.
  - split; [done|]. by apply closeCorrelation_silenced.
  - by apply deliver_silenced in Heq as [? ?].
  - unfold deliverIPCFrame in Heq. repeat case_match; simplify_eq; try done.
    by apply deliver_silenced in Heq as [? ?].
  - unfold recv_opened in Heq. by rewrite Ho in Heq.
  - unfold recv_verified in Heq. by rewrite Hv in Heq.
Qed.

(** Fail-stop: once a generation has failed or been closed, no method has any
    effect a client can see and the broker stays empty, until [activate]. *)
Theorem silenced_until_activated b es b' :
  silenced b → step b es b' →
  (es = [] ∧ silenced b') ∨ ∃ g n f, b' = activate g n f b ∧ es = [].
Proof.
  intros Hb Hstep. destruct Hstep as [b0 es0 b1 Hm|g h c e b0|t b0]; [by apply method_silenced| |by left].
  left. split; [done|]. pose proof Hb as (_ & _ & Hc & _).
  unfold expire. rewrite Hc, lookup_empty. by case_match.
Qed.
End functional.

(** ** A concrete history: one connection opened, assigned, verified

    Generation 7, handle 5, deadline four seconds after the epoch. *)
Module demo.
Abbreviation broker := (ingressBroker unit unit).
Definition correlation : bytes := 1 :: zrep 15 0.
Definition assignment : ConnectionAssignment := Assignment 7 5 correlation (4 * Second).

Definition active : broker := activate 7 (Some tt) (Some tt) (newIngressBroker 2).
Definition opened : broker := (open map_to_list 0 7 5 active).1.
Definition assigned : broker := (assign_begin 0 assignment opened).1.
Definition verified : broker := (deliver Second 7 correlation [10] 4000 assigned).1.

Definition history : list obs :=
  [OOpened 7 5; OAssigned 7 5 correlation 4000; OPublished 7 5 correlation 4000].

Lemma order : range_order map_to_list.
Proof. intros m. reflexivity. Qed.

(** The steps, evaluated. *)
Lemma open_eq : open map_to_list 0 7 5 active = (opened, returns None).
Proof. by vm_compute. Qed.
Lemma assign_eq : assign_begin 0 assignment opened = (assigned, Ok tt).
Proof. by vm_compute. Qed.
Lemma deliver_eq : deliver Second 7 correlation [10] 4000 assigned = (verified, returns None).
Proof. by vm_compute. Qed.

Lemma run_active : run [] active.
Proof. apply (run_step [] [] _ _ (run_start 2)), step_method, m_activate. Qed.
Lemma run_opened : run [OOpened 7 5] opened.
Proof.
  apply (run_step [] [OOpened 7 5] _ _ run_active), step_method.
  exact (m_open map_to_list 0 7 5 active opened (returns None) order open_eq).
Qed.
Lemma run_assigned : run (take 2 history) assigned.
Proof.
  apply (run_step [OOpened 7 5] [OAssigned 7 5 correlation 4000] _ _ run_opened), step_method.
  exact (m_assign_begin 0 assignment opened assigned (Ok tt) assign_eq).
Qed.
Lemma run_verified : run history verified.
Proof.
  apply (run_step (take 2 history) [OPublished 7 5 correlation 4000] _ _ run_assigned), step_method.
  assert (deliver_obs verified (returns (F := unit) None) = drop 2 history) as Heq by by vm_compute.
  change [OPublished 7 5 correlation 4000] with (drop 2 history). rewrite <-Heq.
  exact (m_deliver Second 7 correlation [10] 4000 assigned verified (returns None) deliver_eq).
Qed.
End demo.

Lemma broker_invariant_witness : run demo.history demo.verified ∧ wf demo.verified.
Proof. split; [exact demo.run_verified|apply (broker_invariant _ _ demo.run_verified)]. Defined.

Lemma broker_refines_spec_witness :
  run demo.history demo.verified ∧ spec_run demo.history (abs demo.verified).
Proof. split; [exact demo.run_verified|apply (broker_refines_spec _ _ demo.run_verified)]. Defined.

Lemma published_at_most_once_witness :
  run demo.history demo.verified
  ∧ count (is_published 7 5 demo.correlation 4000) demo.history = 1
  ∧ count (is_published 7 5 demo.correlation 4000) demo.history
    + credit 7 5 (Bound demo.correlation 4000) (abs demo.verified)
    ≤ count (is_assigned 7 5 demo.correlation 4000) demo.history.
Proof.
  split; [exact demo.run_verified|]. split; [by vm_compute|].
  destruct (published_at_most_once _ _ demo.run_verified) as [Hp _].
  exact (Hp 7 5 demo.correlation 4000).
Defined.

(** A broker full of stale handles but one. *)
Lemma evict_spec_witness :
  ∃ b' ok, evictStaleHandlesLocked map_to_list (2 * Minute) demo.opened = (b', ok)
  ∧ ok = true ∧ b_handles b' = ∅
  ∧ ∀ h t, b_handles b' !! h = Some t → b_handles demo.opened !! h = Some t
      ∧ ¬ stale (2 * Minute) demo.opened h.
Proof.
  eexists _, _. split; [reflexivity|]. split; [by vm_compute|]. split; [by vm_compute|].
  destruct (evict_spec map_to_list (2 * Minute) demo.opened _ _ demo.order
    (run_wf _ _ demo.run_opened) (surjective_pairing _)) as [Hfresh _]. exact Hfresh.
Defined.

(** A duplicate open ends the generation. *)
Lemma open_spec_witness :
  ∃ b' o, open map_to_list 1 7 5 demo.opened = (b', o)
  ∧ o_err o = Some ErrIngressDuplicate ∧ o_fatal o = Some (tt, ErrIngressDuplicate) ∧ silenced b'.
Proof.
  eexists _, _. split; [reflexivity|].
  pose proof (open_spec map_to_list 1 7 5 demo.opened _ _ demo.order
    (run_wf _ _ demo.run_opened) (surjective_pairing _)) as H.
  split; [by vm_compute|]. split; [by vm_compute|]. apply H.
Defined.

Lemma deliver_spec_witness :
  deliver Second 7 demo.correlation [10] 4000 demo.assigned = (demo.verified, returns None)
  ∧ ∃ p, b_verified demo.verified = b_verified demo.assigned
      ++ [VerifiedFrame 7 (ip_handle p) demo.correlation [10] (from_unix_milli (i64 4000))].
Proof.
  split; [exact demo.deliver_eq|].
  destruct (deliver_spec _ _ _ _ _ _ _ _ (run_wf _ _ demo.run_assigned) demo.deliver_eq)
    as (_ & _ & _ & _ & _ & p & _ & _ & Hv & _).
  exists p. exact Hv.
Defined.

Lemma assign_begin_spec_witness :
  assign_begin 0 demo.assignment demo.opened = (demo.assigned, Ok tt)
  ∧ b_handles demo.assigned = b_handles demo.opened ∧ 5 ∉ assigning demo.opened.
Proof.
  split; [exact demo.assign_eq|].
  destruct (assign_begin_spec _ _ _ _ _ (run_wf _ _ demo.run_opened) demo.assign_eq)
    as (_ & _ & _ & _ & _ & _ & _ & Hfree & _ & Hh & _).
  exact (conj Hh Hfree).
Defined.

(** The native side refuses: the handle is gone. *)
Lemma assign_fails_closed_witness :
  ∃ b', assign (λ _ _ b, (b, AssignmentWrongConnectionState)) 0 demo.assignment demo.opened
    = (b', Err ErrIngressRejected)
  ∧ b_handles b' !! 5 = None ∧ 5 ∉ assigning b'.
Proof.
  set (r := assign (λ _ _ b, (b, AssignmentWrongConnectionState)) 0 demo.assignment demo.opened).
  assert (r = (r.1, Err ErrIngressRejected)) as H by by vm_compute.
  exists r.1. split; [exact H|].
  apply (assign_fails_closed _ _ _ _ _ _ (run_wf _ _ demo.run_opened) H). by vm_compute.
Defined.

Lemma silenced_until_activated_witness :
  let b := (fail_with ErrIngressDuplicate demo.opened).1 in
  silenced b ∧ step b [] (expire 7 5 demo.correlation 0 b)
  ∧ (([] : list obs) = [] ∧ silenced (expire 7 5 demo.correlation 0 b)
     ∨ ∃ g n f, expire 7 5 demo.correlation 0 b = activate g n f b ∧ ([] : list obs) = []).
Proof.
  intros b. assert (silenced b) as Hs by by vm_compute.
  split; [exact Hs|]. split; [apply step_expire|].
  apply (silenced_until_activated b _ _ Hs). apply step_expire.
Defined.
