(* ===== verification/BrokerTimers.v ===== *)
(** * The broker's timers

    [assign] arms a [time.AfterFunc] timer for the deadline of the assignment; the
    methods stop it when they drop the assignment. The runtime runs the call of a
    timer that fires in a goroutine of its own, at any later time, so a state here is
    a broker with the [expire] calls in flight. No pending assignment is without its
    expiry, and no method leaves a timer behind. *)
From S2P Require Import Prelude GoInt Abi Protobuf Broker BrokerInv BrokerSys BrokerProps.

Section timers.
Context {A : IngressAbi} {N F : Type}.
Abbreviation broker := (ingressBroker N F).
Implicit Types b : broker.

Definition run_call (call : timerCall) (b : broker) : broker :=
  expire (tc_generation call) (tc_handle call) (tc_correlation call) (tc_expiresAt call) b.

Inductive tstep : broker * list timerCall → broker * list timerCall → Prop :=
| t_method b es b' fl : method b es b' → tstep (b, fl) (b', fl)
| t_fire b t call fl : b_timers b !! t = Some call → tstep (b, fl) (fire t b, call :: fl)
| t_expire b fl fl' call : fl ≡ₚ call :: fl' → tstep (b, fl) (run_call call b, fl').

Inductive treach : broker → list timerCall → Prop :=
| t_start capacity : treach (newIngressBroker capacity) []
| t_next b fl b' fl' : treach b fl → tstep (b, fl) (b', fl') → treach b' fl'.

(** The entries of a broker name different timers. *)
Definition timers_distinct b : Prop :=
  ∀ c c' p p', b_correlations b !! c = Some p → b_correlations b !! c' = Some p' →
    ip_timer p = ip_timer p' → c = c'.

Record expiring b (fl : list timerCall) : Prop := {
  ex_pending : ∀ c p, b_correlations b !! c = Some p → ∃ t, ip_timer p = Some t
    ∧ t < b_nextTimer b
    ∧ (b_timers b !! t = Some (call_of (b_generation b) p) ∨ call_of (b_generation b) p ∈ fl);
  ex_distinct : timers_distinct b;
}.

(** [spares b b']: entries are dropped, and the timers of the others are left alone. *)
Record spares b b' : Prop := {
  sp_gen : b_generation b' = b_generation b;
  sp_next : b_nextTimer b' = b_nextTimer b;
  sp_corr : b_correlations b' ⊆ b_correlations b;
  sp_timers : timers_distinct b → ∀ c p t call, b_correlations b' !! c = Some p →
    ip_timer p = Some t → b_timers b !! t = Some call → b_timers b' !! t = Some call;
}.

Lemma distinct_sub b b' :
  timers_distinct b → b_correlations b' ⊆ b_correlations b → timers_distinct b'.
Proof. intros Hd Hsub c c' p p' Hc Hc'. eapply Hd; by eapply lookup_weaken. Qed.

#[export] Instance spares_preorder : PreOrder spares.
Proof.
  split.
  - intros b. by split.
  - intros b1 b2 b3 [] []. split; try congruence; [by etrans|].
    intros Hd c p t call Hc Hp Ht. eapply sp_timers1; eauto using distinct_sub.
    eapply sp_timers0; eauto using lookup_weaken.
Qed.

Lemma spares_expiring b b' fl : spares b b' → expiring b fl → expiring b' fl.
Proof.
  intros [Hg Hn Hc Ht] [Hp Hd]. split; [|by eapply distinct_sub]. rewrite Hg, Hn. intros c p Hcp.
  destruct (Hp c p) as (t & Hpt & ? & Hcov); [by eapply lookup_weaken|].
  exists t. split_and!; try done. destruct Hcov as [Hcov|]; [left|by right]. by eapply Ht.
Qed.

Lemma cleared_expiring b fl : b_correlations b = ∅ → expiring b fl.
Proof.
  intros Hc. split; [intros c p|intros c c' p p']; by rewrite Hc, lookup_empty.
Qed.

Lemma set_handles_spares hs b : spares b (set_handles hs b).
Proof. by split. Qed.

Lemma drop_pending_spares c p b : b_correlations b !! c = Some p → spares b (drop_pending c p b).
Proof.
  intros Hc. split; cbn; try done; [apply delete_subseteq|].
  intros Hd c' p' t call [Hne Hc']%lookup_delete_Some Hp' Ht.
  apply lookup_stop_timer. split; [done|]. intros Hp. apply Hne.
  eapply Hd; [done..|congruence].
Qed.

Lemma drop_correlations_spares h b : spares b (drop_correlations_of h b).
Proof.
  split; cbn; try done; [apply map_filter_subseteq|].
  intros Hd c p t call [Hc Hne]%map_lookup_filter_Some Hp Ht.
  apply lookup_stop_timers. split; [done|].
  intros c' p' [Hc' Heq]%map_lookup_filter_Some Hp'. apply Hne. cbn in *.
  assert (c = c') as <- by (eapply Hd; [done..|congruence]). congruence.
Qed.

Lemma closeHandle_spares g h b : spares b (closeHandle g h b).
Proof.
  unfold closeHandle. case_match; [reflexivity|].
  etrans; [apply set_handles_spares|apply drop_correlations_spares].
Qed.
Lemma closeCorrelation_spares g c b : spares b (closeCorrelation g c b).
Proof. unfold closeCorrelation. repeat case_match; try reflexivity. by apply drop_pending_spares. Qed.
Lemma clearAssignment_spares h c b : spares b (clearAssignmentLocked h c b).
Proof.
  unfold clearAssignmentLocked. cbn.
  etrans; [apply (set_handles_spares (delete h (b_handles b)))|].
  destruct (b_correlations b !! c) eqn:Hc; [|apply drop_correlations_spares].
  etrans; [by apply (drop_pending_spares c i)|apply drop_correlations_spares].
Qed.

Lemma evict_spares ord now b : spares b (evictStaleHandlesLocked ord now b).1.
Proof. unfold evictStaleHandlesLocked. repeat case_match; apply set_handles_spares. Qed.

(** The queues do not matter here. *)
Lemma expiring_queues o v b fl : expiring b fl → expiring (set_queues o v b) fl.
Proof. intros []. by split. Qed.

Lemma open_expiring ord now g h b fl :
  expiring b fl → expiring (open ord now g h b).1 fl.
Proof.
  intros Hex. pose proof (evict_spares ord now b) as Hsp. unfold open.
  destruct (negb _); [done|]. destruct (negb _); [done|].
  destruct (h =? 0); [by apply cleared_expiring|]. case_bool_decide; [by apply cleared_expiring|].
  destruct (evictStaleHandlesLocked ord now b) as [b1 ok]. destruct (negb ok); [by apply cleared_expiring|].
  case_match; [|by apply cleared_expiring]. apply expiring_queues.
  eapply spares_expiring; [apply set_handles_spares|]. by eapply spares_expiring.
Qed.

Lemma assign_begin_expiring now a b fl :
  wf b → expiring b fl → expiring (assign_begin now a b).1 fl.
Proof.
  intros Hwf Hex. unfold assign_begin.
  destruct (_ || _); [eapply spares_expiring; [apply closeHandle_spares|done]|].
  case_bool_decide; [eapply spares_expiring; [apply closeHandle_spares|done]|].
  destruct (ca_Generation a =? _) eqn:Hg; [|done]. destruct (b_active b); [|done]. cbn [negb].
  case_bool_decide; [done|].
  case_bool_decide as Hdup; [eapply spares_expiring; [apply clearAssignment_spares|done]|].
  destruct (list_find _ _) as [[i p]|]; [eapply spares_expiring; [apply clearAssignment_spares|done]|].
  destruct Hex as [Hp Hd]. apply Z.eqb_eq in Hg. apply eq_None_not_Some in Hdup.
  split; [|unfold timers_distinct]; cbn.
  - intros c p [[<- <-]|[_ Hc]]%lookup_insert_Some; cbn.
    + eexists. split_and!; [done|lia|]. left. by rewrite lookup_insert_eq, Hg.
    + destruct (Hp c p Hc) as (t & ? & ? & Hcov). exists t. split_and!; [done|lia|].
      rewrite lookup_insert_ne by lia. done.
  - intros c c' p p' [[<- <-]|[_ Hc]]%lookup_insert_Some [[<- <-]|[_ Hc']]%lookup_insert_Some Heq;
      cbn in Heq; try done; [| |by eapply Hd].
    + destruct (Hp c' p' Hc') as (t & ? & ? & _). assert (t = b_nextTimer b) by congruence. lia.
    + destruct (Hp c p Hc) as (t & ? & ? & _). assert (t = b_nextTimer b) by congruence. lia.
Qed.

Lemma deliver_expiring now g c frame ms b fl :
  expiring b fl → expiring (deliver now g c frame ms b).1 fl.
Proof.
  intros Hex. assert (expiring (closeCorrelation g c b) fl)
    by (eapply spares_expiring; [apply closeCorrelation_spares|done]).
  unfold deliver. do 2 (destruct (_ || _) in |- *; [done|]).
  do 2 (destruct (negb _) in |- *; [done|]).
  destruct (b_correlations b !! c) as [p|] eqn:Hc; [|done].
  assert (expiring (drop_pending c p b) fl)
    by (eapply spares_expiring; [by apply drop_pending_spares|done]).
  destruct (negb _) in |- *; [done|]. case_match; [by apply expiring_queues|by apply cleared_expiring].
Qed.

Lemma method_expiring b es b' fl : wf b → expiring b fl → method b es b' → expiring b' fl.
Proof.
  intros Hwf Hex Hm. destruct Hm as [| | |ord now g h b b' o Hord Heq|now a b b' r Heq| | |
    |now g c frame ms b b' o Heq|now g h c frame b0 b b' o Heq|o b b' Heq|v b b' Heq].
  - by apply cleared_expiring.
  - unfold deactivate. case_match; [done|by apply cleared_expiring].
  - unfold failGeneration. case_match; [by apply cleared_expiring|done].
  - pose proof (open_expiring ord now g h b fl Hex). by rewrite Heq in *.
  - pose proof (assign_begin_expiring now a b fl Hwf Hex). by rewrite Heq in *.
  - unfold assign_end. case_match; [done|]. eapply spares_expiring; [apply closeHandle_spares|done].
  - eapply spares_expiring; [apply closeHandle_spares|done].
  - eapply spares_expiring; [apply closeCorrelation_spares|done].
  - pose proof (deliver_expiring now g c frame ms b fl Hex). by rewrite Heq in *.
  - unfold deliverIPCFrame in Heq. destruct (b_correlations b0 !! c) as [p|]; [|by simplify_eq].
    destruct (negb _); [by simplify_eq|].
    pose proof (deliver_expiring now g c frame (u64 (unix_milli (ip_expiresAt p))) b fl Hex).
    by rewrite Heq in *.
  - unfold recv_opened in Heq. case_match; simplify_eq. by apply expiring_queues.
  - unfold recv_verified in Heq. case_match; simplify_eq. by apply expiring_queues.
Qed.

Lemma run_call_other call b c p :
  b_correlations (run_call call b) !! c = Some p →
  b_correlations b !! c = Some p ∧ (wf b → call ≠ call_of (b_generation b) p).
Proof.
  unfold run_call, expire. destruct (_ =? b_generation b) eqn:Hg; cbn.
  2:{ intros Hc. split; [done|]. intros _ ->. cbn in Hg. lia. }
  destruct (b_correlations b !! tc_correlation call) as [q|] eqn:Hq.
  - destruct (_ || _) eqn:Hm; cbn.
    + intros Hc. split; [done|]. intros Hwf ->. cbn in *.
      destruct (wf_correlations b Hwf c p Hc) as (Hpc & _). rewrite Hpc in Hq. simplify_eq.
      rewrite !Z.eqb_refl in Hm. done.
    + intros [Hne Hc]%lookup_delete_Some. split; [done|]. intros Hwf ->. apply Hne. cbn.
      by destruct (wf_correlations b Hwf c p Hc).
  - intros Hc. split; [done|]. intros Hwf ->. cbn in Hq.
    destruct (wf_correlations b Hwf c p Hc) as (Hpc & _). by rewrite Hpc, Hc in Hq.
Qed.

Lemma run_call_keeps call b :
  b_generation (run_call call b) = b_generation b ∧ b_nextTimer (run_call call b) = b_nextTimer b
  ∧ b_timers (run_call call b) = b_timers b.
Proof. unfold run_call, expire. repeat case_match; done. Qed.

Lemma tstep_expiring b fl b' fl' :
  wf b → expiring b fl → tstep (b, fl) (b', fl') → wf b' ∧ expiring b' fl'.
Proof.
  intros Hwf Hex Hstep.
  inversion Hstep as [? es ? ? Hm|? t call ? Ht|? ? ? call Hfl]; subst; clear Hstep.
  - split; [by eapply method_wf|by eapply method_expiring].
  - split; [by apply fire_wf|]. destruct Hex as [Hp Hd]. split; [|done].
    intros c p Hc. destruct (Hp c p Hc) as (t' & Hpt & ? & Hcov). exists t'. split_and!; try done.
    cbn. destruct Hcov as [Hcov|]; [|by right; right].
    destruct (decide (t' = t)) as [->|]; [right; apply elem_of_cons; left; simplify_eq; congruence|left; by rewrite lookup_delete_ne].
  - split; [by apply expire_wf|]. destruct Hex as [Hp Hd].
    destruct (run_call_keeps call b) as (Hg & Hn & Ht). split.
    + rewrite Hg, Hn, Ht. intros c p [Hc Hne]%run_call_other. specialize (Hne Hwf).
      destruct (Hp c p Hc) as (t & Hpt & ? & Hcov). exists t. split_and!; try done.
      destruct Hcov as [|Hin]; [by left|]. rewrite Hfl, elem_of_cons in Hin.
      destruct Hin as [|]; [congruence|by right].
    + eapply distinct_sub; [done|]. apply map_subseteq_spec. by intros c p [Hc _]%run_call_other.
Qed.

Lemma treach_expiring b fl : treach b fl → wf b ∧ expiring b fl.
Proof.
  induction 1 as [capacity|b fl b' fl' _ [Hwf Hex] Hstep]; [|by eapply tstep_expiring].
  split; [apply new_wf|by apply cleared_expiring].
Qed.

(** Every assignment expires: in every reachable state, with any timer calls in
    flight, the expiry of each pending assignment is armed or in flight, for its own
    deadline; and running that call drops the assignment and its handle. *)
Theorem assignments_expire b fl c p :
  treach b fl → b_correlations b !! c = Some p →
  let call := TimerCall (b_generation b) (ip_handle p) c (ip_expiresAt p) in
  ((∃ t, ip_timer p = Some t ∧ b_timers b !! t = Some call) ∨ call ∈ fl)
  ∧ b_correlations (run_call call b) !! c = None
  ∧ b_handles (run_call call b) !! ip_handle p = None.
Proof.
  intros Hreach Hc. destruct (treach_expiring b fl Hreach) as [Hwf [Hp _]]. intros call.
  destruct (wf_correlations b Hwf c p Hc) as (Hpc & _).
  assert (call = call_of (b_generation b) p) as Hcall by by unfold call, call_of; rewrite Hpc.
  split_and!.
  - destruct (Hp c p Hc) as (t & Hpt & _ & Hcov). rewrite Hcall. naive_solver.
  - unfold run_call, expire. cbn. rewrite Z.eqb_refl, Hc, !Z.eqb_refl. cbn. apply lookup_delete_eq.
  - unfold run_call, expire. cbn. rewrite Z.eqb_refl, Hc, !Z.eqb_refl. cbn. apply lookup_delete_eq.
Qed.

Lemma cleared_owned b b' :
  timers_owned b → b_timers b' = stop_timers (b_correlations b) (b_timers b) → timers_owned b'.
Proof.
  intros Hown Heq t call Ht. rewrite Heq in Ht. apply lookup_stop_timers in Ht as [Ht Hnone].
  destruct (Hown t call Ht) as (p & Hc & Hp & _). by destruct (Hnone _ _ Hc).
Qed.

Lemma owned_queues o v b : timers_owned b → timers_owned (set_queues o v b).
Proof. done. Qed.

Lemma open_owned ord now g h b :
  range_order ord → wf b → timers_owned b → timers_owned (open ord now g h b).1.
Proof.
  intros Hord Hwf Hown. pose proof (closes_timers _ _ Hown (evict_closes ord now b Hord)) as Hev.
  unfold open. destruct (negb (g =? _)); [done|]. destruct (negb (b_active b)); [done|].
  destruct (h =? 0); [by eapply (cleared_owned b)|]. case_bool_decide; [by eapply (cleared_owned b)|].
  destruct (evictStaleHandlesLocked ord now b) as [b1 ok]. cbn in Hev.
  destruct (negb ok); [by eapply (cleared_owned b1)|].
  case_match; [exact Hev|]. by eapply (cleared_owned b1).
Qed.

Lemma assign_begin_owned now a b :
  wf b → timers_owned b → timers_owned (assign_begin now a b).1.
Proof.
  intros Hwf Hown. unfold assign_begin.
  destruct (_ || _); [by eapply closes_timers, closeHandle_closes|].
  case_bool_decide; [by eapply closes_timers, closeHandle_closes|].
  destruct (ca_Generation a =? _) eqn:Hg; [|done]. destruct (b_active b); [|done]. cbn [negb].
  case_bool_decide; [done|].
  case_bool_decide as Hdup; [by eapply closes_timers, clearAssignmentLocked_closes|].
  destruct (list_find _ _) as [[i p]|]; [by eapply closes_timers, clearAssignmentLocked_closes|].
  intros t call. cbn. intros [[<- <-]|[_ Ht]]%lookup_insert_Some.
  - cbn. eexists. rewrite lookup_insert_eq. split_and!; [done..|]. unfold call_of. cbn. f_equal. lia.
  - destruct (Hown t call Ht) as (p & Hp & ? & ->). exists p. rewrite lookup_insert_ne; [done|].
    intros Heq. apply Hdup. rewrite Heq. eauto.
Qed.

Lemma deliver_owned now g c frame ms b :
  wf b → timers_owned b → timers_owned (deliver now g c frame ms b).1.
Proof.
  intros Hwf Hown. assert (timers_owned (closeCorrelation g c b))
    by by eapply closes_timers, closeCorrelation_closes.
  unfold deliver. do 2 (destruct (_ || _) in |- *; [done|]).
  do 2 (destruct (negb _) in |- *; [done|]).
  destruct (b_correlations b !! c) as [p|] eqn:Hc; [|done].
  assert (timers_owned (drop_pending c p b)) by by eapply closes_timers, drop_pending_closes.
  destruct (negb _) in |- *; [done|]. case_match; [done|].
  by eapply (cleared_owned (drop_pending c p b)).
Qed.

(** No method leaks a timer: if every armed timer is the one of a pending
    assignment before the method, the same holds after it, whatever the method
    drops, so a broker that is empty has no armed timer. *)
Lemma methods_leak_no_timer b es b' :
  wf b → timers_owned b → method b es b' →
  timers_owned b' ∧ (b_correlations b' = ∅ → b_timers b' = ∅).
Proof.
  intros Hwf Hown Hm. apply and_comm. assert (timers_owned b') as Hown'; [|split; [|done]].
  - destruct Hm as [| | |ord now g h b b' o Hord Heq|now a b b' r Heq| | |
    |now g c frame ms b b' o Heq|now g h c frame b0 b b' o Heq|o b b' Heq|v b b' Heq].
    + by eapply (cleared_owned b).
    + unfold deactivate. case_match; [done|by eapply (cleared_owned b)].
    + unfold failGeneration. case_match; [by eapply (cleared_owned b)|done].
    + pose proof (open_owned ord now g h b Hord Hwf Hown). by rewrite Heq in *.
    + pose proof (assign_begin_owned now a b Hwf Hown). by rewrite Heq in *.
    + unfold assign_end. case_match; [done|]. by eapply closes_timers, closeHandle_closes.
    + by eapply closes_timers, closeHandle_closes.
    + by eapply closes_timers, closeCorrelation_closes.
    + pose proof (deliver_owned now g c frame ms b Hwf Hown). by rewrite Heq in *.
    + unfold deliverIPCFrame in Heq. destruct (b_correlations b0 !! c) as [p|]; [|by simplify_eq].
      destruct (negb _); [by simplify_eq|].
      pose proof (deliver_owned now g c frame (u64 (unix_milli (ip_expiresAt p))) b Hwf Hown).
      by rewrite Heq in *.
    + unfold recv_opened in Heq. case_match; simplify_eq. done.
    + unfold recv_verified in Heq. case_match; simplify_eq. done.
  - intros Hc. apply map_empty. intros t. apply eq_None_not_Some. intros [call Ht].
    destruct (Hown' t call Ht) as (p & Hp & _). by rewrite Hc, lookup_empty in Hp.
Qed.
End timers.

Lemma treach_assigned : treach demo.assigned [].
Proof.
  refine (t_next demo.opened [] demo.assigned [] _
    (t_method _ _ _ _ (m_assign_begin 0 demo.assignment _ _ (Ok tt) demo.assign_eq))).
  refine (t_next demo.active [] demo.opened [] _
    (t_method _ _ _ _ (m_open map_to_list 0 7 5 _ _ (returns None) demo.order demo.open_eq))).
  exact (t_next _ [] demo.active [] (t_start 2) (t_method _ _ _ _ (m_activate _ _ _ _))).
Qed.

Lemma assignments_expire_witness :
  ∃ p, b_correlations demo.assigned !! demo.correlation = Some p
  ∧ let call := TimerCall 7 (ip_handle p) demo.correlation (ip_expiresAt p) in
    (∃ t, ip_timer p = Some t ∧ b_timers demo.assigned !! t = Some call) ∨ call ∈ [].
Proof.
  eexists. assert (b_correlations demo.assigned !! demo.correlation
    = Some (Pending 5 demo.correlation (4 * Second) (Some 0))) as H by by vm_compute.
  split; [exact H|]. apply (assignments_expire _ _ _ _ treach_assigned H).
Defined.
