(* ===== verification/Session.v ===== *)
(** * The subprocess ingress session (subprocess_ingress.go)

    One session serves one launch of the subprocess: the reader goroutine
    ([readLoop]), the goroutines inside [assign], the timers, and whoever closes it,
    all sharing [subprocessIngressSession]. The functions here are the sections
    between two points where goroutines can interleave; [sstep] interleaves them.
    The broker is behind the interface [IngressSink]. *)
From S2P Require Import Prelude GoInt Sha256 Abi Protobuf Packet Broker BrokerInv BrokerSys BrokerProps.

(** What the session needs of the broker. [sink_choice] resolves what the broker
    leaves open (a map iteration order). An operation returns the error of the
    caller and the error the [fatal] callback, here the session's own [fail], was
    called with. *)
Class IngressSink (B : Type) := {
  sink_choice : Type;
  sink_open : sink_choice → Z → Z → Z → B → B * option IngressError * option IngressError;
  (* [now generation handle correlation frame], the broker at the first lookup, and now *)
  sink_deliver : Z → Z → Z → bytes → bytes → B → B → B * option IngressError * option IngressError;
  sink_deactivate : Z → B → B;
  (* the generation is served *)
  sink_live : Z → B → Prop;
  (* what the other users of the broker do *)
  sink_other : B → B → Prop;
}.

(** A generation that is not served stays so, and rejects everything quietly. *)
Class SinkLaws (B : Type) `{IngressSink B} : Prop := {
  sink_deactivate_dead g b : ¬ sink_live g (sink_deactivate g b);
  sink_other_dead g b b' : sink_other b b' → ¬ sink_live g b → ¬ sink_live g b';
  sink_open_dead ch now g h b :
    ¬ sink_live g b → ∃ e, sink_open ch now g h b = (b, Some e, None);
  sink_deliver_dead now g h c frame b0 b :
    ¬ sink_live g b →
    let '(b', e, fatal) := sink_deliver now g h c frame b0 b in
    is_Some e ∧ fatal = None ∧ ¬ sink_live g b';
}.

(** The reason a session was closed with. *)
Inductive closeReason :=
| ReasonIngress (e : IngressError)
| ReasonEOF
| ReasonRead     (* another error of [conn.Read] *)
| ReasonWrite    (* an error of [conn.Write], or a short write *)
| ReasonExit.    (* the subprocess ended; its status may be nil *)

#[export] Instance closeReason_eq_dec : EqDecision closeReason.
Proof. solve_decision. Defined.

Definition embeddedAssignmentTransportFailure : Z := -2147483648.

(** [subprocessPendingKey]: handle and correlation. *)
Definition subprocessPendingKey : Type := Z * bytes.
Definition key_of (a : ConnectionAssignment) : subprocessPendingKey :=
  (ca_ConnectionHandle a, ca_CorrelationID a).

(** [sp_waiter] names the waiter channel, [sp_timer] the timer. *)
Record subprocessPending := SubPending {
  sp_waiter : Z;
  sp_expiresAt : Z;
  sp_acknowledged : bool;
  sp_timer : option Z;
}.

(** [subprocessIngressSession]. The channels and timers it refers to are in
    [ss_waiters] (the contents of each waiter, capacity 1) and [ss_timers] (the
    arguments of the [expirePending] call an armed timer will make). *)
Record session {B : Type} := Session {
  ss_generation : Z;
  ss_key : bytes;
  ss_conn : bool;                 (* the connection is open *)
  ss_broker : B;
  ss_writeSequence : Z;
  ss_accepting : bool;
  ss_opWG : Z;
  ss_pending : gmap subprocessPendingKey subprocessPending;
  ss_closeOnce : bool;            (* [close] has run *)
  ss_closeErr : option closeReason;
  ss_done : bool;                 (* the channel [done] is closed *)
  ss_waiters : gmap Z (list Z);
  ss_timers : gmap Z (subprocessPendingKey * Z);
  ss_next : Z;                    (* the next name of a channel or timer *)
}.
Arguments session : clear implicits.

(** What [conn.Write] returned: an error, or a byte count. *)
Inductive writeResult := WriteErr | WriteN (n : Z).

(** Where a goroutine inside [assign] is. *)
Inductive phase :=
| PRegister (a : ConnectionAssignment)
| PSend (a : ConnectionAssignment) (w : Z)
| PRecheck (a : ConnectionAssignment) (w : Z)
| PWait (a : ConnectionAssignment) (w : Z)
| PCheck (a : ConnectionAssignment)
| PFail (a : ConnectionAssignment)
| PRemove (a : ConnectionAssignment) (rc : Z)
| PReturn (a : ConnectionAssignment) (rc : Z)
| PPanic.

(** Where the reader goroutine is. *)
Inductive readerPhase :=
| RRead
| RNotify (w status : Z)
| RDeliver (handle : Z) (correlation payload : bytes)
| RFail (reason : closeReason)
| RStopped
| RPanic.

Section code.
Context {A : IngressAbi} {M : Mac} {B : Type} `{SB : IngressSink B}.
Abbreviation session := (session B).

(** Field updates. *)
Definition set_pending (pending : gmap subprocessPendingKey subprocessPending)
    (timers : gmap Z (subprocessPendingKey * Z)) (s : session) : session :=
  Session B (ss_generation s) (ss_key s) (ss_conn s) (ss_broker s) (ss_writeSequence s)
    (ss_accepting s) (ss_opWG s) pending (ss_closeOnce s) (ss_closeErr s) (ss_done s)
    (ss_waiters s) timers (ss_next s).
Definition set_waiters (waiters : gmap Z (list Z)) (s : session) : session :=
  Session B (ss_generation s) (ss_key s) (ss_conn s) (ss_broker s) (ss_writeSequence s)
    (ss_accepting s) (ss_opWG s) (ss_pending s) (ss_closeOnce s) (ss_closeErr s) (ss_done s)
    waiters (ss_timers s) (ss_next s).
Definition set_next (next : Z) (s : session) : session :=
  Session B (ss_generation s) (ss_key s) (ss_conn s) (ss_broker s) (ss_writeSequence s)
    (ss_accepting s) (ss_opWG s) (ss_pending s) (ss_closeOnce s) (ss_closeErr s) (ss_done s)
    (ss_waiters s) (ss_timers s) next.
Definition set_broker (b : B) (s : session) : session :=
  Session B (ss_generation s) (ss_key s) (ss_conn s) b (ss_writeSequence s)
    (ss_accepting s) (ss_opWG s) (ss_pending s) (ss_closeOnce s) (ss_closeErr s) (ss_done s)
    (ss_waiters s) (ss_timers s) (ss_next s).
Definition set_writeSequence (n : Z) (s : session) : session :=
  Session B (ss_generation s) (ss_key s) (ss_conn s) (ss_broker s) n
    (ss_accepting s) (ss_opWG s) (ss_pending s) (ss_closeOnce s) (ss_closeErr s) (ss_done s)
    (ss_waiters s) (ss_timers s) (ss_next s).
Definition set_ops (accepting : bool) (opWG : Z) (s : session) : session :=
  Session B (ss_generation s) (ss_key s) (ss_conn s) (ss_broker s) (ss_writeSequence s)
    accepting opWG (ss_pending s) (ss_closeOnce s) (ss_closeErr s) (ss_done s)
    (ss_waiters s) (ss_timers s) (ss_next s).
Definition set_closed (conn closeOnce : bool) (closeErr : option closeReason) (done : bool)
    (s : session) : session :=
  Session B (ss_generation s) (ss_key s) conn (ss_broker s) (ss_writeSequence s)
    (ss_accepting s) (ss_opWG s) (ss_pending s) closeOnce closeErr done
    (ss_waiters s) (ss_timers s) (ss_next s).
Definition set_key (key : bytes) (s : session) : session :=
  Session B (ss_generation s) key (ss_conn s) (ss_broker s) (ss_writeSequence s)
    (ss_accepting s) (ss_opWG s) (ss_pending s) (ss_closeOnce s) (ss_closeErr s) (ss_done s)
    (ss_waiters s) (ss_timers s) (ss_next s).

Definition newSubprocessIngressSession (generation : Z) (key : bytes) (broker : B) : session :=
  Session B generation key true broker 0 true 0 ∅ false None false ∅ ∅ 0.

(** [select { case waiter <- status: default: }], on a channel of capacity 1. *)
Definition notify (w status : Z) (waiters : gmap Z (list Z)) : gmap Z (list Z) :=
  match waiters !! w with
  | Some [] => <[w := [status]]> waiters
  | _ => waiters
  end.

(** [pending.timer.Stop()], when the timer is not nil. *)
Definition stop_pending (p : subprocessPending) (timers : gmap Z (subprocessPendingKey * Z))
    : gmap Z (subprocessPendingKey * Z) :=
  match sp_timer p with Some t => delete t timers | None => timers end.

(** [delete(s.pending, key)] with its timer stopped. *)
Definition drop_pending_key (key : subprocessPendingKey) (p : subprocessPending) (s : session) : session :=
  set_pending (delete key (ss_pending s)) (stop_pending p (ss_timers s)) s.

(** The body of [closeOnce.Do] in [close]; the timers and waiters of the pending
    entries in any order. *)
Definition close (reason : closeReason) (s : session) : session :=
  if ss_closeOnce s then s
  else
    let entries := (map_to_list (ss_pending s)).*2 in
    let s := set_ops false (ss_opWG s) s in
    let s := set_closed (ss_conn s) true (Some reason) (ss_done s) s in
    let s := set_broker (sink_deactivate (ss_generation s) (ss_broker s)) s in
    let s := set_closed false true (Some reason) true s in
    let s := set_waiters
      (foldr (λ p ws, notify (sp_waiter p) SubprocessACKNegative ws) (ss_waiters s) entries) s in
    set_pending ∅ (foldr stop_pending (ss_timers s) entries) s.

Definition fail (reason : closeReason) (s : session) : session := close reason s.

Definition removePending (key : subprocessPendingKey) (s : session) : session :=
  match ss_pending s !! key with
  | Some pending => drop_pending_key key pending s
  | None => s
  end.

Definition expirePending (key : subprocessPendingKey) (expiresAt : Z) (s : session) : session :=
  match ss_pending s !! key with
  | None => s
  | Some pending =>
      if negb (sp_expiresAt pending =? expiresAt) then s
      else set_waiters (notify (sp_waiter pending) SubprocessACKNegative (ss_waiters s))
             (set_pending (delete key (ss_pending s)) (ss_timers s) s)
  end.

Definition writeFullPacket (packet : bytes) (w : writeResult) : option closeReason :=
  match w with
  | WriteErr => Some ReasonWrite
  | WriteN n => if negb (n =? zlen packet) then Some ReasonWrite else None
  end.

(** ** [assign], in sections *)

Definition invalid_remaining (d : Z) : bool := (d <=? 0) || (MaxIngressLifetime <? d).

(** The section of [opMu]. *)
Definition admit_op (a : ConnectionAssignment) (s : session) : session * option phase :=
  if negb (ss_accepting s) then (s, None)
  else (set_ops (ss_accepting s) (ss_opWG s + 1) s, Some (PRegister a)).

(** Up to the end of the section of [mu]. *)
Definition register (now : Z) (a : ConnectionAssignment) (s : session) : session * phase :=
  if negb (ca_Generation a =? ss_generation s)
  then (s, PReturn a embeddedAssignmentTransportFailure)
  else if invalid_remaining (time_sub (ca_ExpiresAt a) now)
  then (s, PReturn a AssignmentInvalidOrExpiredTime)
  else if bool_decide (is_Some (ss_pending s !! key_of a))
  then (s, PReturn a AssignmentDuplicateHandleOrCorrelation)
  else
    let w := ss_next s in
    let t := ss_next s + 1 in
    let s := set_next (ss_next s + 2) s in
    let s := set_waiters (<[w := []]> (ss_waiters s)) s in
    (set_pending (<[key_of a := SubPending w (ca_ExpiresAt a) false (Some t)]> (ss_pending s))
       (<[t := (key_of a, ca_ExpiresAt a)]> (ss_timers s)) s, PSend a w).

(** The section of [writeMu], and the packet handed to the connection. *)
Definition send (now : Z) (written : writeResult) (a : ConnectionAssignment) (w : Z) (s : session)
    : session * phase * option bytes :=
  if invalid_remaining (time_sub (ca_ExpiresAt a) now)
  then (s, PRemove a AssignmentInvalidOrExpiredTime, None)
  else
    let s := set_writeSequence (u64 (ss_writeSequence s + 1)) s in
    match encodeAssignmentPacket (ss_key s) (ss_generation s) (ss_writeSequence s)
            (ca_ConnectionHandle a) (ca_CorrelationID a) (u64 (unix_milli (ca_ExpiresAt a))) with
    | Ok packet =>
        match writeFullPacket packet written with
        | Some _ => (s, PFail a, Some packet)
        | None => (s, PRecheck a w, Some packet)
        end
    | _ => (s, PPanic, None)
    end.

Definition recheck (now : Z) (a : ConnectionAssignment) (w : Z) : phase :=
  if invalid_remaining (time_sub (ca_ExpiresAt a) now)
  then PRemove a AssignmentInvalidOrExpiredTime
  else PWait a w.

(** The [select]: the first case. *)
Definition receive (a : ConnectionAssignment) (w : Z) (s : session) : option (session * phase) :=
  match ss_waiters s !! w with
  | Some (status :: rest) =>
      Some (set_waiters (<[w := rest]> (ss_waiters s)) s,
            if status =? SubprocessACKPositive then PCheck a
            else PRemove a AssignmentWrongConnectionState)
  | _ => None
  end.

Definition check (now : Z) (a : ConnectionAssignment) : phase :=
  if negb (now <? ca_ExpiresAt a) then PRemove a AssignmentInvalidOrExpiredTime
  else PReturn a AssignmentOK.

(** ** [readLoop], in sections *)

(** [s.broker.open], whose fatal callback is [s.fail]. *)
Definition read_open (ch : sink_choice) (now handle : Z) (s : session) : session * readerPhase :=
  let '(b, e, fatal) := sink_open ch now (ss_generation s) handle (ss_broker s) in
  let s := set_broker b s in
  let s := match fatal with Some f => fail (ReasonIngress f) s | None => s end in
  (s, match e with Some e => RFail (ReasonIngress e) | None => RRead end).

(** The section of [mu] of an ACK. *)
Definition read_ack (now handle : Z) (correlation : bytes) (status : Z) (s : session)
    : session * readerPhase :=
  let key := (handle, correlation) in
  match ss_pending s !! key with
  | None => (s, RRead)
  | Some pending =>
      if negb (now <? sp_expiresAt pending)
      then (drop_pending_key key pending s, RNotify (sp_waiter pending) SubprocessACKNegative)
      else if status =? SubprocessACKPositive
      then if sp_acknowledged pending then (s, RFail (ReasonIngress ErrIngressDuplicate))
           else (set_pending (<[key := SubPending (sp_waiter pending) (sp_expiresAt pending) true
                                         (sp_timer pending)]> (ss_pending s)) (ss_timers s) s,
                 RNotify (sp_waiter pending) status)
      else if sp_acknowledged pending then (s, RFail (ReasonIngress ErrIngressRejected))
      else (drop_pending_key key pending s, RNotify (sp_waiter pending) status)
  end.

(** The correlation of a frame ([None] is the model's fuel, always enough) and the section of [mu]. *)
Definition read_verified (handle : Z) (payload : bytes) (s : session) : session * readerPhase :=
  match extractIngressCorrelation payload with
  | Some (Err e) => (s, RFail (ReasonIngress e))
  | Some Panic | None => (s, RPanic)
  | Some (Ok correlation) =>
      let key := (handle, correlation) in
      match ss_pending s !! key with
      | None => (s, RRead)
      | Some pending =>
          (drop_pending_key key pending s,
           if negb (sp_acknowledged pending) then RFail (ReasonIngress ErrIngressRejected)
           else RDeliver handle correlation payload)
      end
  end.

(** One iteration of [readLoop] that read [buffer[:n]], up to where it waits for
    another lock; [sequence] is its local variable. *)
Definition read_packet (ch : sink_choice) (now : Z) (buffer : bytes) (sequence : Z) (s : session)
    : session * Z * readerPhase :=
  match decodeAuthenticatedPacket buffer (ss_key s) (ss_generation s) sequence with
  | Err e => (s, sequence, RFail (ReasonIngress e))
  | Panic => (s, sequence, RPanic)
  | Ok packet =>
      let sequence := u64 (sequence + 1) in
      let '(s, r) :=
        if ap_typ packet =? SubprocessConnectionOpen
        then read_open ch now (ap_handle packet) s
        else if ap_typ packet =? SubprocessAssignmentACK
        then read_ack now (ap_handle packet) (ap_correlation packet) (ap_status packet) s
        else if ap_typ packet =? SubprocessVerifiedIngress
        then read_verified (ap_handle packet) (ap_payload packet) s
        else (s, RFail (ReasonIngress ErrIngressABI)) in
      (s, sequence, r)
  end.

(** [s.broker.deliverIPCFrame]; [b0] is the broker at its first lookup. *)
Definition read_deliver (now handle : Z) (correlation payload : bytes) (b0 : B) (s : session)
    : session * readerPhase :=
  let '(b, e, fatal) :=
    sink_deliver now (ss_generation s) handle correlation payload b0 (ss_broker s) in
  let s := set_broker b s in
  let s := match fatal with Some f => fail (ReasonIngress f) s | None => s end in
  (s, match e with
      | None => RRead
      | Some ErrIngressMismatch | Some ErrIngressLifetime => RRead
      | Some e => RFail (ReasonIngress e)
      end).

(** [wait], once both wait groups are at zero. *)
Definition wait (s : session) : session := set_key (zrep (zlen (ss_key s)) 0) s.
End code.
