(* ===== verification/SessionSys.v ===== *)
(** * The session as a concurrent system

    [sstep] interleaves the sections of Session.v: any number of goroutines inside
    [assign], the reader, the timers, whoever calls [close], and the other users of
    the broker. The connection is the adversary: it returns any bytes and any write
    result. The trace records what crosses the session's boundary. *)
From S2P Require Import Prelude GoInt Sha256 Abi Protobuf Packet Broker Session.

Inductive event :=
| ERegistered (w : Z) (key : subprocessPendingKey)   (* a pending entry was made *)
| EWritten (packet : bytes)                           (* [conn.Write] was called *)
| EReceived (buffer : bytes) (p : authenticatedPacket) (* a packet was accepted *)
| EAcked (key : subprocessPendingKey)                 (* a positive ACK was recorded *)
| EChecked (a : ConnectionAssignment) (now : Z)       (* [assign], its ACK received, read the clock *)
| EDelivered (key : subprocessPendingKey) (payload : bytes) (* [deliverIPCFrame] was called *)
| EReturned (a : ConnectionAssignment) (rc : Z).      (* [assign] returned *)

Section system.
Context {A : IngressAbi} {M : Mac} {B : Type} `{SB : IngressSink B}.
Abbreviation session := (session B).

Record sys := Sys {
  y_session : session;
  y_threads : gmap Z phase;
  y_reader : readerPhase;
  y_sequence : Z;               (* the local variable of [readLoop] *)
}.

Definition with_session (s : session) (y : sys) : sys :=
  Sys s (y_threads y) (y_reader y) (y_sequence y).
Definition with_thread (i : Z) (s : session) (p : phase) (y : sys) : sys :=
  Sys s (<[i := p]> (y_threads y)) (y_reader y) (y_sequence y).
Definition with_reader (s : session) (r : readerPhase) (y : sys) : sys :=
  Sys s (y_threads y) r (y_sequence y).

(** The session created by [runOnce], its reader started. *)
Definition start (generation : Z) (key : bytes) (broker : B) : sys :=
  Sys (newSubprocessIngressSession generation key broker) ∅ RRead 1.

(** What the sections show. *)
Definition registered_obs (a : ConnectionAssignment) (p : phase) : list event :=
  match p with PSend _ w => [ERegistered w (key_of a)] | _ => [] end.
Definition written_obs (packet : option bytes) : list event :=
  match packet with Some packet => [EWritten packet] | None => [] end.
(** A packet was accepted; it was a positive ACK that was recorded. *)
Definition received_obs (buffer : bytes) (s : session) (sequence : Z) (r : readerPhase) : list event :=
  match decodeAuthenticatedPacket buffer (ss_key s) (ss_generation s) sequence with
  | Ok p =>
      EReceived buffer p ::
      match r with
      | RNotify _ status =>
          if status =? SubprocessACKPositive then [EAcked (ap_handle p, ap_correlation p)] else []
      | _ => []
      end
  | _ => []
  end.

Inductive sstep : sys → list event → sys → Prop :=
(* [assign] *)
| y_refused a y :
    admit_op a (y_session y) = (y_session y, None) →
    sstep y [EReturned a embeddedAssignmentTransportFailure] y
| y_admit i a s p y :
    zlen (ca_CorrelationID a) = CorrelationBytes → y_threads y !! i = None →
    admit_op a (y_session y) = (s, Some p) →
    sstep y [] (with_thread i s p y)
| y_register i a now s p y :
    y_threads y !! i = Some (PRegister a) → register now a (y_session y) = (s, p) →
    sstep y (registered_obs a p) (with_thread i s p y)
| y_send i a w now written s p packet y :
    y_threads y !! i = Some (PSend a w) → send now written a w (y_session y) = (s, p, packet) →
    sstep y (written_obs packet) (with_thread i s p y)
| y_recheck i a w now y :
    y_threads y !! i = Some (PRecheck a w) →
    sstep y [] (with_thread i (y_session y) (recheck now a w) y)
| y_receive i a w s p y :
    y_threads y !! i = Some (PWait a w) → receive a w (y_session y) = Some (s, p) →
    sstep y [] (with_thread i s p y)
| y_timeout i a w now y :
    y_threads y !! i = Some (PWait a w) → ca_ExpiresAt a ≤ now →
    sstep y [] (with_thread i (y_session y) (PRemove a AssignmentInvalidOrExpiredTime) y)
| y_done i a w y :
    y_threads y !! i = Some (PWait a w) → ss_done (y_session y) = true →
    sstep y [] (with_thread i (y_session y) (PReturn a embeddedAssignmentTransportFailure) y)
| y_check i a now y :
    y_threads y !! i = Some (PCheck a) →
    sstep y [EChecked a now] (with_thread i (y_session y) (check now a) y)
| y_fail i a y :
    y_threads y !! i = Some (PFail a) →
    sstep y [] (with_thread i (fail ReasonWrite (y_session y))
                  (PRemove a embeddedAssignmentTransportFailure) y)
| y_remove i a rc y :
    y_threads y !! i = Some (PRemove a rc) →
    sstep y [] (with_thread i (removePending (key_of a) (y_session y)) (PReturn a rc) y)
| y_return i a rc y :
    y_threads y !! i = Some (PReturn a rc) →
    let s := y_session y in
    sstep y [EReturned a rc]
      (Sys (set_ops (ss_accepting s) (ss_opWG s - 1) s) (delete i (y_threads y))
         (y_reader y) (y_sequence y))
(* [readLoop] *)
| y_read ch now buffer s sequence r y :
    y_reader y = RRead → Bytes buffer → zlen buffer ≤ MaxAuthenticatedPacketBytes →
    read_packet ch now buffer (y_sequence y) (y_session y) = (s, sequence, r) →
    sstep y (received_obs buffer (y_session y) (y_sequence y) r) (Sys s (y_threads y) r sequence)
| y_read_error reason y :
    y_reader y = RRead → reason = ReasonEOF ∨ reason = ReasonRead →
    sstep y [] (with_reader (y_session y) (RFail reason) y)
| y_notify w status y :
    y_reader y = RNotify w status →
    sstep y [] (with_reader (set_waiters (notify w status (ss_waiters (y_session y))) (y_session y))
                  RRead y)
| y_deliver now handle correlation payload b0 s r y :
    y_reader y = RDeliver handle correlation payload →
    read_deliver now handle correlation payload b0 (y_session y) = (s, r) →
    sstep y [EDelivered (handle, correlation) payload] (with_reader s r y)
| y_reader_fail reason y :
    y_reader y = RFail reason → sstep y [] (with_reader (fail reason (y_session y)) RStopped y)
(* the others *)
| y_close reason y : sstep y [] (with_session (close reason (y_session y)) y)
| y_expire key expiresAt y :
    sstep y [] (with_session (expirePending key expiresAt (y_session y)) y)
| y_fire t y :
    let s := y_session y in
    sstep y [] (with_session (set_pending (ss_pending s) (delete t (ss_timers s)) s) y)
| y_other b y :
    sink_other (ss_broker (y_session y)) b →
    sstep y [] (with_session (set_broker b (y_session y)) y)
| y_wait y :
    y_reader y = RStopped → ss_opWG (y_session y) = 0 →
    sstep y [] (with_session (wait (y_session y)) y).

Inductive srun (generation : Z) (key : bytes) : list event → sys → Prop :=
| srun_start broker : srun generation key [] (start generation key broker)
| srun_step tr es y y' : srun generation key tr y → sstep y es y' → srun generation key (tr ++ es) y'.

(** ** Closing

    Once closed, a session stays closed for the same reason; the broker no longer
    serves its generation; the key is wiped only when nothing can use it. *)

Record closing (generation : Z) (s : session) : Prop := {
  cg_generation : ss_generation s = generation;
  cg_open : ss_closeOnce s = false →
    ss_accepting s = true ∧ ss_done s = false ∧ ss_conn s = true ∧ ss_closeErr s = None;
  cg_closed : ss_closeOnce s = true →
    ss_accepting s = false ∧ ss_done s = true ∧ ss_conn s = false
    ∧ is_Some (ss_closeErr s) ∧ ¬ sink_live generation (ss_broker s);
}.

Record lifecycle (generation : Z) (key : bytes) (y : sys) : Prop := {
  lc_closing : closing generation (y_session y);
  lc_ops : ss_opWG (y_session y) = Z.of_nat (size (y_threads y));
  lc_stopped : y_reader y = RStopped → ss_closeOnce (y_session y) = true;
  lc_key : ss_key (y_session y) = key
    ∨ y_reader y = RStopped ∧ y_threads y = ∅ ∧ ss_closeOnce (y_session y) = true;
}.

(** Sections that leave the life of the session alone, and what they can do to it. *)
Record calm (s s' : session) : Prop := {
  ca_generation : ss_generation s' = ss_generation s;
  ca_key : ss_key s' = ss_key s;
  ca_opWG : ss_opWG s' = ss_opWG s;
  ca_closeOnce : ss_closeOnce s' = ss_closeOnce s;
  ca_accepting : ss_accepting s' = ss_accepting s;
  ca_done : ss_done s' = ss_done s;
  ca_conn : ss_conn s' = ss_conn s;
  ca_closeErr : ss_closeErr s' = ss_closeErr s;
  ca_broker : ss_broker s' = ss_broker s;
}.

(** ... or close it. *)
Record closes_or_keeps (s s' : session) : Prop := {
  ck_generation : ss_generation s' = ss_generation s;
  ck_key : ss_key s' = ss_key s;
  ck_opWG : ss_opWG s' = ss_opWG s;
  ck_closed : ss_closeOnce s = true → ss_closeOnce s' = true;
}.

Lemma calm_refl s : calm s s.
Proof. by split. Qed.
Lemma calm_closing g s s' : calm s s' → closing g s → closing g s'.
Proof. intros [] []. split; rewrite ?ca_generation0, ?ca_closeOnce0, ?ca_accepting0, ?ca_done0,
  ?ca_conn0, ?ca_closeErr0, ?ca_broker0; done. Qed.
Lemma calm_keeps s s' : calm s s' → closes_or_keeps s s'.
Proof. intros []. split; congruence. Qed.

Lemma register_calm now a s : calm s (register now a s).1.
Proof. unfold register. repeat case_match; by split. Qed.
Lemma send_calm now w a i s : calm s (send now w a i s).1.1.
Proof. unfold send. repeat case_match; by split. Qed.
Lemma receive_calm a w s s' p : receive a w s = Some (s', p) → calm s s'.
Proof. unfold receive. repeat case_match; intros; simplify_eq; by split. Qed.
Lemma removePending_calm k s : calm s (removePending k s).
Proof. unfold removePending. case_match; by split. Qed.
Lemma expirePending_calm k e s : calm s (expirePending k e s).
Proof. unfold expirePending. repeat case_match; by split. Qed.
Lemma read_ack_calm now h c st s : calm s (read_ack now h c st s).1.
Proof. unfold read_ack. repeat case_match; by split. Qed.
Lemma read_verified_calm h payload s : calm s (read_verified h payload s).1.
Proof. unfold read_verified. repeat case_match; by split. Qed.

Context {SL : SinkLaws B}.

Lemma close_closing g reason s : closing g s → closing g (close reason s).
Proof.
  intros []. unfold close. destruct (ss_closeOnce s) eqn:Hc; [by split; rewrite ?Hc|].
  split; cbn; try done. intros _. split_and!; try done. rewrite cg_generation0.
  apply sink_deactivate_dead.
Qed.
Lemma close_keeps reason s : closes_or_keeps s (close reason s).
Proof. unfold close. destruct (ss_closeOnce s) eqn:Hc; split; cbn; congruence. Qed.
Lemma close_closed reason s : ss_closeOnce (close reason s) = true.
Proof. unfold close. by destruct (ss_closeOnce s) eqn:Hc. Qed.

(** A broker operation, and the fatal callback it may run. *)
Lemma fatal_closing g b fatal s :
  closing g s →
  (ss_closeOnce s = true → fatal = None ∧ ¬ sink_live g b) →
  let s' := match fatal with Some f => fail (ReasonIngress f) (set_broker b s) | None => set_broker b s end in
  closing g s' ∧ closes_or_keeps s s'.
Proof.
  intros [] Hdead. destruct fatal as [f|]; cbv zeta.
  - destruct (ss_closeOnce s) eqn:Hc; [by destruct Hdead|]. split.
    + apply close_closing. split; cbn; rewrite ?Hc; done.
    + destruct (close_keeps (ReasonIngress f) (set_broker b s)). by split.
  - split; [|by split]. split; cbn; try done. intros Hc.
    destruct (cg_closed0 Hc) as (? & ? & ? & ? & ?), (Hdead Hc). by split_and!.
Qed.

Lemma read_open_closing g ch now h s :
  closing g s → closing g (read_open ch now h s).1 ∧ closes_or_keeps s (read_open ch now h s).1.
Proof.
  intros Hs. unfold read_open. destruct (sink_open _ _ _ _ _) as [[b e] fatal] eqn:Hop.
  apply fatal_closing; [done|]. intros Hc. destruct Hs as [Hg _ Hcl].
  destruct (Hcl Hc) as (_ & _ & _ & _ & Hdead).
  destruct (sink_open_dead ch now (ss_generation s) h (ss_broker s)) as [e' He]; [by rewrite Hg|].
  rewrite He in Hop. by simplify_eq.
Qed.

Lemma read_deliver_closing g now h c payload b0 s :
  closing g s →
  closing g (read_deliver now h c payload b0 s).1
  ∧ closes_or_keeps s (read_deliver now h c payload b0 s).1.
Proof.
  intros Hs. unfold read_deliver. destruct (sink_deliver _ _ _ _ _ _ _) as [[b e] fatal] eqn:Hop.
  apply fatal_closing; [done|]. intros Hc. destruct Hs as [Hg _ Hcl].
  destruct (Hcl Hc) as (_ & _ & _ & _ & Hdead).
  pose proof (sink_deliver_dead now (ss_generation s) h c payload b0 (ss_broker s)) as Hd.
  rewrite Hop, Hg in Hd. by apply Hd.
Qed.

Lemma read_packet_closing g ch now buffer seq s :
  closing g s →
  let s' := (read_packet ch now buffer seq s).1.1 in closing g s' ∧ closes_or_keeps s s'.
Proof.
  intros Hs. unfold read_packet. cbv zeta.
  assert (closing g s ∧ closes_or_keeps s s) by (split; [done|by split]).
  destruct (decodeAuthenticatedPacket _ _ _ _) as [p|e|]; [|done..].
  assert (∀ m : session * readerPhase, closing g m.1 ∧ closes_or_keeps s m.1 →
    closing g (let '(s', r) := m in (s', u64 (seq + 1), r)).1.1
    ∧ closes_or_keeps s (let '(s', r) := m in (s', u64 (seq + 1), r)).1.1) as Hlet by by intros [].
  apply Hlet. destruct (_ =? _); [by apply read_open_closing|].
  destruct (_ =? SubprocessAssignmentACK).
  { pose proof (read_ack_calm now (ap_handle p) (ap_correlation p) (ap_status p) s) as Hc.
    split; [by eapply calm_closing|by apply calm_keeps]. }
  destruct (_ =? SubprocessVerifiedIngress); [|done].
  pose proof (read_verified_calm (ap_handle p) (ap_payload p) s) as Hc.
  split; [by eapply calm_closing|by apply calm_keeps].
Qed.

(** A section of a goroutine in [assign]. *)
Lemma thread_lifecycle g key i p0 p s y :
  lifecycle g key y → y_threads y !! i = Some p0 →
  closing g s → closes_or_keeps (y_session y) s →
  lifecycle g key (with_thread i s p y).
Proof.
  intros [] Hi Hs []. split; cbn; try done.
  - by rewrite map_size_insert_Some, ck_opWG0.
  - intros Hr. by apply ck_closed0, lc_stopped0.
  - rewrite ck_key0. destruct lc_key0 as [|(_ & He & _)]; [by left|].
    by rewrite He, lookup_empty in Hi.
Qed.

(** A section of the reader. *)
Lemma reader_lifecycle g key s r seq y :
  lifecycle g key y → y_reader y ≠ RStopped →
  closing g s → closes_or_keeps (y_session y) s → (r = RStopped → ss_closeOnce s = true) →
  lifecycle g key (Sys s (y_threads y) r seq).
Proof.
  intros [] Hr Hs [] Hst. split; cbn; try done; [by rewrite ck_opWG0|].
  rewrite ck_key0. destruct lc_key0 as [|(? & _)]; [by left|done].
Qed.

(** Anyone else. *)
Lemma other_lifecycle g key s y :
  lifecycle g key y → closing g s → closes_or_keeps (y_session y) s →
  lifecycle g key (with_session s y).
Proof.
  intros [] Hs []. split; cbn; try done; [by rewrite ck_opWG0|auto|].
  rewrite ck_key0. naive_solver.
Qed.

Lemma read_packet_phase ch now buffer seq s :
  (read_packet ch now buffer seq s).2 ≠ RStopped.
Proof.
  unfold read_packet, read_open, read_ack, read_verified.
  repeat case_match; simplify_eq; cbn; done || (repeat case_match; simplify_eq; done).
Qed.

Lemma sstep_lifecycle g key y es y' : lifecycle g key y → sstep y es y' → lifecycle g key y'.
Proof.
  intros Hl Hstep. pose proof Hl as [Hcl Hops Hst Hkey]. destruct Hstep.
  - done.
  - (* admit_op *) revert H1. unfold admit_op. destruct (ss_accepting (y_session y)) eqn:Ha; [|done].
    cbn. intros [= <- <-]. assert (ss_closeOnce (y_session y) = false) as Hopen.
    { destruct (ss_closeOnce _) eqn:Hc; [|done]. destruct (cg_closed _ _ Hcl Hc). congruence. }
    split; cbn; try done.
    + destruct Hcl as [? Ho _]. split; cbn; [done| |congruence].
      intros _. by destruct (Ho Hopen) as (_ & ?).
    + rewrite map_size_insert_None by done. lia.
    + left. by destruct Hkey as [|(_ & _ & ?)]; [|congruence].
  - pose proof (register_calm now a (y_session y)) as Hc. rewrite H0 in Hc.
    eapply thread_lifecycle; [done..|by eapply calm_closing|by apply calm_keeps].
  - pose proof (send_calm now written a w (y_session y)) as Hc. rewrite H0 in Hc.
    eapply thread_lifecycle; [done..|by eapply calm_closing|by apply calm_keeps].
  - eapply thread_lifecycle; [done..|by split].
  - apply receive_calm in H0.
    eapply thread_lifecycle; [done..|by eapply calm_closing|by apply calm_keeps].
  - eapply thread_lifecycle; [done..|by split].
  - eapply thread_lifecycle; [done..|by split].
  - eapply thread_lifecycle; [done..|by split].
  - eapply thread_lifecycle; [done..|by apply close_closing|apply close_keeps].
  - pose proof (removePending_calm (key_of a) (y_session y)) as Hc.
    eapply thread_lifecycle; [done..|by eapply calm_closing|by apply calm_keeps].
  - (* return *) subst s. split; cbn.
    + destruct Hcl. by split.
    + rewrite map_size_delete_Some by done.
      assert (size (y_threads y) ≠ 0%nat); [|lia]. intros Hz%map_size_empty_iff.
      by rewrite Hz, lookup_empty in H.
    + done.
    + destruct Hkey as [|(? & He & _)]; [by left|]. by rewrite He, lookup_empty in H.
  - pose proof (read_packet_closing g ch now buffer (y_sequence y) (y_session y) Hcl) as Hr.
    pose proof (read_packet_phase ch now buffer (y_sequence y) (y_session y)) as Hp.
    rewrite H2 in Hr, Hp. cbn in *. destruct Hr. apply reader_lifecycle; congruence.
  - apply reader_lifecycle; try done; congruence || by split.
  - apply reader_lifecycle; try done; [congruence|by destruct Hcl; split].
  - pose proof (read_deliver_closing g now handle correlation payload b0 (y_session y) Hcl) as Hr.
    rewrite H0 in Hr. cbn in *. destruct Hr. apply reader_lifecycle; try done; [congruence|].
    revert H0. unfold read_deliver. repeat case_match; intros; by simplify_eq.
  - apply reader_lifecycle; [done|congruence|by apply close_closing|apply close_keeps|].
    intros _. apply close_closed.
  - apply other_lifecycle; [done|by apply close_closing|apply close_keeps].
  - pose proof (expirePending_calm key0 expiresAt (y_session y)) as Hc.
    apply other_lifecycle; [done|by eapply calm_closing|by apply calm_keeps].
  - apply other_lifecycle; [done|by destruct Hcl; split|by split].
  - apply other_lifecycle; [done| |by split]. destruct Hcl. split; cbn; try done.
    intros Hc. destruct (cg_closed0 Hc) as (? & ? & ? & ? & Hd). split_and!; try done.
    by eapply sink_other_dead.
  - (* wait *) pose proof (Hst H) as Hc. split; cbn; try done.
    + destruct Hcl. by split.
    + right. split_and!; try done. apply map_size_empty_inv. lia.
Qed.

Lemma srun_lifecycle g key tr y : srun g key tr y → lifecycle g key y.
Proof.
  induction 1 as [broker|]; [|by eapply sstep_lifecycle].
  split; cbn; [by split|done|done|by left].
Qed.
End system.
