(* ===== verification/SessionAcks.v ===== *)
(** * Acknowledgements and frames of a session

    The invariants behind the session's protocol: [assign] reports success only for
    an acknowledged assignment, and every frame handed to the broker was announced,
    registered, acknowledged and authenticated, once each. *)
From S2P Require Import Prelude GoInt Sha256 Abi Protobuf Packet Broker Session SessionSys.

#[export] Instance event_eq_dec : EqDecision event.
Proof. solve_decision. Defined.

Section acks.
Context {A : IngressAbi} {AL : AbiLaws A} {M : Mac} {B : Type} `{SB : IngressSink B}.
Abbreviation session := (session B).
Implicit Types (s : session) (k : subprocessPendingKey) (tr : list event).

(** The waiter stands for an acknowledged assignment. *)
Definition good_waiter tr (w : Z) : Prop := ∃ k, ERegistered w k ∈ tr ∧ EAcked k ∈ tr.

(** After the ACK of the assignment was recorded, the clock read [now]. *)
Definition checked_after_ack tr (a : ConnectionAssignment) (now : Z) : Prop :=
  ∃ tr1 tr2, tr = tr1 ++ EChecked a now :: tr2 ∧ EAcked (key_of a) ∈ tr1.
(** ... and the deadline had not passed. *)
Definition acked_in_time tr (a : ConnectionAssignment) : Prop :=
  ∃ now, now < ca_ExpiresAt a ∧ checked_after_ack tr a now.

Definition thread_ok tr (p : phase) : Prop :=
  match p with
  | PSend a w | PRecheck a w | PWait a w => ERegistered w (key_of a) ∈ tr
  | PCheck a => EAcked (key_of a) ∈ tr
  | PRemove _ rc => rc ≠ AssignmentOK
  | PReturn a rc => rc = AssignmentOK → acked_in_time tr a
  | _ => True
  end.

(** A packet that carried this was accepted. *)
Definition received_frame tr (handle : Z) (payload : bytes) : Prop :=
  ∃ buffer p, EReceived buffer p ∈ tr ∧ ap_typ p = SubprocessVerifiedIngress
    ∧ ap_handle p = handle ∧ ap_payload p = payload.
Definition received_ack tr k : Prop :=
  ∃ buffer p, EReceived buffer p ∈ tr ∧ ap_typ p = SubprocessAssignmentACK
    ∧ (ap_handle p, ap_correlation p) = k ∧ ap_status p = SubprocessACKPositive.

Record session_acks tr s : Prop := {
  sa_fresh : ∀ w k, ERegistered w k ∈ tr → w < ss_next s;
  sa_unique : ∀ w k k', ERegistered w k ∈ tr → ERegistered w k' ∈ tr → k = k';
  sa_pending : ∀ k p, ss_pending s !! k = Some p →
    ERegistered (sp_waiter p) k ∈ tr ∧ (sp_acknowledged p = true → EAcked k ∈ tr);
  sa_waiters : ∀ w l, ss_waiters s !! w = Some l → SubprocessACKPositive ∈ l → good_waiter tr w;
}.

Definition reader_ok tr (r : readerPhase) : Prop :=
  match r with
  | RNotify w status => status = SubprocessACKPositive → good_waiter tr w
  | RDeliver handle correlation payload =>
      extractIngressCorrelation payload = Some (Ok correlation) ∧ received_frame tr handle payload
  | _ => True
  end.

Definition event_ok tr (e : event) : Prop :=
  match e with
  | EAcked k => received_ack tr k
  | EDelivered k payload =>
      extractIngressCorrelation payload = Some (Ok k.2) ∧ received_frame tr k.1 payload
  | EReturned a rc => rc = AssignmentOK → acked_in_time tr a
  | _ => True
  end.

Record acks tr (y : sys) : Prop := {
  ak_session : session_acks tr (y_session y);
  ak_threads : ∀ i p, y_threads y !! i = Some p → thread_ok tr p;
  ak_reader : reader_ok tr (y_reader y);
  ak_events : ∀ e, e ∈ tr → event_ok tr e;
}.

(** Everything holds of a longer trace. *)
Lemma good_waiter_app tr es w : good_waiter tr w → good_waiter (tr ++ es) w.
Proof. intros (k & ? & ?). exists k. rewrite !elem_of_app. auto. Qed.
Lemma acked_in_time_app tr es a : acked_in_time tr a → acked_in_time (tr ++ es) a.
Proof.
  intros (now & ? & tr1 & tr2 & -> & ?). exists now. split; [done|].
  exists tr1, (tr2 ++ es). by rewrite <-app_assoc.
Qed.
Lemma thread_ok_app tr es p : thread_ok tr p → thread_ok (tr ++ es) p.
Proof. destruct p; cbn; rewrite ?elem_of_app; auto using acked_in_time_app. Qed.
Lemma received_frame_app tr es h payload :
  received_frame tr h payload → received_frame (tr ++ es) h payload.
Proof. intros (buffer & p & ? & ?). exists buffer, p. rewrite elem_of_app. auto. Qed.
Lemma reader_ok_app tr es r : reader_ok tr r → reader_ok (tr ++ es) r.
Proof.
  destruct r; cbn; auto using good_waiter_app. intros []. auto using received_frame_app.
Qed.
Lemma event_ok_app tr es e : event_ok tr e → event_ok (tr ++ es) e.
Proof.
  destruct e as [| | |k| |k payload|a rc]; cbn; try done.
  - intros (buffer & p & ? & ?). exists buffer, p. rewrite elem_of_app. auto.
  - intros []. auto using received_frame_app.
  - auto using acked_in_time_app.
Qed.

(** A section that registers nothing, drops entries, and adds no good news. *)
Record quiet s s' : Prop := {
  qu_next : ss_next s' = ss_next s;
  qu_pending : ss_pending s' ⊆ ss_pending s;
  qu_waiters : ∀ w l', ss_waiters s' !! w = Some l' → SubprocessACKPositive ∈ l' →
    ∃ l, ss_waiters s !! w = Some l ∧ SubprocessACKPositive ∈ l;
}.

#[export] Instance quiet_preorder : PreOrder quiet.
Proof.
  split; [intros s; split; eauto|].
  intros s1 s2 s3 [] []. split; [congruence|by etrans|].
  intros w l' Hl Hin. destruct (qu_waiters1 w l' Hl Hin) as (l & ? & ?). eauto.
Qed.

Lemma quiet_acks tr s s' : quiet s s' → session_acks tr s → session_acks tr s'.
Proof.
  intros [Hn Hp Hw] []. split; rewrite ?Hn; try done.
  - intros k p Hk. by eapply sa_pending0, lookup_weaken.
  - intros w l' Hl Hin. destruct (Hw w l' Hl Hin) as (l & ? & ?). eauto.
Qed.

(** Notifying a waiter adds at most that status. *)
Lemma notify_lookup w st ws w' l' x :
  notify w st ws !! w' = Some l' → x ∈ l' →
  (∃ l, ws !! w' = Some l ∧ x ∈ l) ∨ (w' = w ∧ x = st).
Proof.
  unfold notify. destruct (ws !! w) as [[|y l]|] eqn:Hw; try (intros; by left; eauto).
  intros [[<- <-]|[_ ?]]%lookup_insert_Some Hin; [|by left; eauto].
  right. split; [done|]. by apply list_elem_of_singleton in Hin.
Qed.

Lemma notify_negative w ws w' l' :
  notify w SubprocessACKNegative ws !! w' = Some l' → SubprocessACKPositive ∈ l' →
  ∃ l, ws !! w' = Some l ∧ SubprocessACKPositive ∈ l.
Proof.
  intros Hl Hin. destruct (notify_lookup _ _ _ _ _ _ Hl Hin) as [|[_ Heq]]; [done|].
  by destruct law_acks.
Qed.

Lemma close_quiet reason s : quiet s (close reason s).
Proof.
  unfold close. destruct (ss_closeOnce s); [reflexivity|]. split; cbn; try done.
  - apply map_empty_subseteq.
  - generalize (map_to_list (ss_pending s)).*2. intros ps w.
    induction ps as [|p ps IH]; cbn; [eauto|]. intros l' Hl Hin.
    destruct (notify_negative _ _ _ _ Hl Hin) as (l & Hw & Hl'). by eapply IH.
Qed.

Lemma drop_quiet k p s : quiet s (drop_pending_key k p s).
Proof. split; cbn; eauto. apply delete_subseteq. Qed.

Lemma removePending_quiet k s : quiet s (removePending k s).
Proof. unfold removePending. case_match; [apply drop_quiet|reflexivity]. Qed.

Lemma expirePending_quiet k e s : quiet s (expirePending k e s).
Proof.
  unfold expirePending. destruct (ss_pending s !! k); [|reflexivity]. case_match; [reflexivity|].
  split; cbn; [done|apply delete_subseteq|]. intros w l'. apply notify_negative.
Qed.

Lemma receive_quiet a w s s' p : receive a w s = Some (s', p) → quiet s s'.
Proof.
  unfold receive. destruct (ss_waiters s !! w) as [[|st rest]|] eqn:Hw; try done.
  intros [= <- _]. split; cbn; try done. intros w' l' [[<- <-]|[_ ?]]%lookup_insert_Some Hin; [|eauto].
  eexists. split; [done|]. by right.
Qed.

Lemma fatal_quiet (fatal : option IngressError) b s :
  quiet s (match fatal with Some f => fail (ReasonIngress f) (set_broker b s) | None => set_broker b s end).
Proof.
  assert (quiet s (set_broker b s)) by (split; cbn; eauto).
  destruct fatal; [|done]. etrans; [done|apply close_quiet].
Qed.

Lemma read_open_quiet ch now h s : quiet s (read_open ch now h s).1.
Proof. unfold read_open. destruct (sink_open _ _ _ _ _) as [[b e] fatal]. apply fatal_quiet. Qed.
Lemma read_deliver_quiet now h c payload b0 s : quiet s (read_deliver now h c payload b0 s).1.
Proof. unfold read_deliver. destruct (sink_deliver _ _ _ _ _ _ _) as [[b e] fatal]. apply fatal_quiet. Qed.
Lemma read_verified_quiet h payload s : quiet s (read_verified h payload s).1.
Proof. unfold read_verified. repeat case_match; try reflexivity; apply drop_quiet. Qed.

(** Where the reader goes next, when it has nothing good to tell. *)
Definition bland (r : readerPhase) : Prop :=
  match r with RNotify _ st => st ≠ SubprocessACKPositive | RDeliver _ _ _ => False | _ => True end.

Lemma bland_ok tr r : bland r → reader_ok tr r.
Proof. destruct r; cbn; [done| |done..]. by intros ? ->. Qed.

Lemma read_open_bland ch now h s : bland (read_open ch now h s).2.
Proof. unfold read_open. destruct (sink_open _ _ _ _ _) as [[b [e|]] fatal]; done. Qed.
Lemma read_deliver_bland now h c payload b0 s : bland (read_deliver now h c payload b0 s).2.
Proof.
  unfold read_deliver. destruct (sink_deliver _ _ _ _ _ _ _) as [[b [e|]] fatal]; [by destruct e|done].
Qed.
Lemma read_verified_cases h payload s s' r :
  read_verified h payload s = (s', r) →
  bland r ∨ ∃ c p, r = RDeliver h c payload ∧ extractIngressCorrelation payload = Some (Ok c)
    ∧ ss_pending s !! (h, c) = Some p ∧ sp_acknowledged p = true ∧ s' = drop_pending_key (h, c) p s.
Proof.
  unfold read_verified.
  destruct (extractIngressCorrelation payload) as [[c|e|]|] eqn:Hex; try (intros [= <- <-]; by left).
  destruct (ss_pending s !! (h, c)) as [p|] eqn:Hp; [|intros [= <- <-]; by left].
  destruct (sp_acknowledged p) eqn:Hack; intros [= <- <-]; [right; eauto 10|by left].
Qed.

(** An ACK: nothing new, unless it is the first positive one, in time. *)
Lemma read_ack_cases now h c st s s' r :
  read_ack now h c st s = (s', r) →
  (quiet s s' ∧ bland r)
  ∨ ∃ p, ss_pending s !! (h, c) = Some p ∧ sp_acknowledged p = false ∧ now < sp_expiresAt p
      ∧ st = SubprocessACKPositive ∧ r = RNotify (sp_waiter p) st
      ∧ s' = set_pending (<[(h, c) := SubPending (sp_waiter p) (sp_expiresAt p) true (sp_timer p)]>
                            (ss_pending s)) (ss_timers s) s.
Proof.
  unfold read_ack. pose proof law_acks as Hacks.
  destruct (ss_pending s !! (h, c)) as [p|] eqn:Hp; [|by intros [= <- <-]; left].
  destruct (now <? _) eqn:Hnow; cbn [negb].
  2:{ intros [= <- <-]. left. split; [apply drop_quiet|]. cbn. by apply not_eq_sym. }
  destruct (st =? SubprocessACKPositive) eqn:Hst.
  - apply Z.eqb_eq in Hst as ->. destruct (sp_acknowledged p) eqn:Hack; intros [= <- <-]; [by left|].
    right. exists p. split_and!; try done. lia.
  - destruct (sp_acknowledged p); intros [= <- <-]; left; [by split|]. split; [apply drop_quiet|].
    cbn. lia.
Qed.

Lemma send_next now wr a w s :
  let s' := (send now wr a w s).1.1 in
  ss_next s' = ss_next s ∧ ss_pending s' = ss_pending s ∧ ss_waiters s' = ss_waiters s.
Proof. unfold send. repeat case_match; done. Qed.
Lemma same_quiet s s' :
  ss_next s' = ss_next s → ss_pending s' = ss_pending s → ss_waiters s' = ss_waiters s → quiet s s'.
Proof. intros Hn Hp Hw. split; [done|by rewrite Hp|]. rewrite Hw. eauto. Qed.

Lemma register_acks tr now a s s' p :
  session_acks tr s → register now a s = (s', p) →
  session_acks (tr ++ registered_obs a p) s' ∧ thread_ok (tr ++ registered_obs a p) p.
Proof.
  pose proof law_codes as Hcodes. repeat setoid_rewrite NoDup_cons in Hcodes.
  repeat setoid_rewrite not_elem_of_cons in Hcodes. destruct_and?.
  intros Hs. unfold register. pose proof Hs as [Hf Hu Hp Hw].
  repeat (match goal with |- context [if ?b then _ else _] => destruct b end;
    [intros [= <- <-]; cbn; rewrite app_nil_r; split; [done|intros Heq; by destruct Heq]|]).
  intros [= <- <-]. cbn. split; [|rewrite elem_of_app; right; apply list_elem_of_here].
  split; cbn.
  - intros w k. rewrite elem_of_app, list_elem_of_singleton. intros [Hin|[= -> ->]]; [|lia].
    apply Hf in Hin. lia.
  - intros w k k'. rewrite !elem_of_app, !list_elem_of_singleton.
    intros [Hin|Heq] [Hin'|Heq']; simplify_eq; eauto.
    + apply Hf in Hin. lia.
    + apply Hf in Hin'. lia.
  - intros k p [[<- <-]|[_ Hk]]%lookup_insert_Some; cbn; rewrite !elem_of_app.
    + split; [right; apply list_elem_of_here|done].
    + destruct (Hp k p Hk). auto.
  - intros w l [[<- <-]|[_ Hl]]%lookup_insert_Some Hin; [by apply elem_of_nil in Hin|].
    apply good_waiter_app. by eapply Hw.
Qed.

Lemma session_acks_app tr es s :
  session_acks tr s → (∀ w k, ERegistered w k ∉ es) → session_acks (tr ++ es) s.
Proof.
  intros [Hf Hu Hp Hw] Hno.
  assert (∀ w k, ERegistered w k ∈ tr ++ es → ERegistered w k ∈ tr) as Hreg.
  { intros w k [|Hin]%elem_of_app; [done|]. by destruct (Hno w k). }
  split; eauto.
  - intros k p Hk. rewrite !elem_of_app. destruct (Hp k p Hk). auto.
  - intros w l Hl Hin. apply good_waiter_app. eauto.
Qed.

(** One step, from what it does to each part. *)
Lemma acks_step tr es y s threads r seq :
  acks tr y → session_acks (tr ++ es) s →
  (∀ i p, threads !! i = Some p → y_threads y !! i = Some p ∨ thread_ok (tr ++ es) p) →
  reader_ok (tr ++ es) r → (∀ e, e ∈ es → event_ok (tr ++ es) e) →
  acks (tr ++ es) (Sys s threads r seq).
Proof.
  intros [_ Ht _ He] Hs Hths Hr Hes. split; cbn; try done.
  - intros i p [Hp|]%Hths; [|done]. eapply thread_ok_app, Ht, Hp.
  - intros e [Hin|]%elem_of_app; [|by apply Hes]. by apply event_ok_app, He.
Qed.

(** A section of a goroutine in [assign] that is quiet. *)
Lemma thread_acks tr y i s p :
  acks tr y → quiet (y_session y) s → thread_ok tr p → acks (tr ++ []) (with_thread i s p y).
Proof.
  intros Hak Hq Hp. rewrite app_nil_r. destruct Hak as [Hs Ht Hr He].
  split; cbn; try done; [by eapply quiet_acks|].
  intros j q [[<- <-]|[_ ?]]%lookup_insert_Some; [done|eauto].
Qed.

(** The last section of [assign] reads the clock. *)
Lemma check_acks tr y i a now :
  acks tr y → y_threads y !! i = Some (PCheck a) →
  acks (tr ++ [EChecked a now]) (with_thread i (y_session y) (check now a) y).
Proof.
  intros Hak Hi. pose proof Hak as [Hs Ht Hr _].
  apply acks_step with (1 := Hak); [| |by apply reader_ok_app|].
  - apply session_acks_app; [done|]. by intros w k Hin%list_elem_of_singleton.
  - intros j q [[<- <-]|[_ ?]]%lookup_insert_Some; [right|by left]. unfold check.
    destruct (now <? ca_ExpiresAt a) eqn:Hnow; cbn.
    + intros _. exists now. split; [lia|]. exists tr, []. split; [done|]. exact (Ht i _ Hi).
    + pose proof law_codes as Hcodes. repeat setoid_rewrite NoDup_cons in Hcodes.
      repeat setoid_rewrite not_elem_of_cons in Hcodes. destruct_and?. by apply not_eq_sym.
  - by intros e ->%list_elem_of_singleton.
Qed.

(** A quiet section of anyone. *)
Lemma quiet_step tr y s r :
  acks tr y → quiet (y_session y) s → reader_ok tr r → acks (tr ++ []) (with_reader s r y).
Proof.
  intros [Hs Ht _ He] Hq Hr. rewrite app_nil_r. split; cbn; try done. by eapply quiet_acks.
Qed.

(** The first positive ACK of a pending entry. *)
Lemma ack_acks tr y buffer p q seq :
  acks tr y → ap_typ p = SubprocessAssignmentACK → ap_status p = SubprocessACKPositive →
  ss_pending (y_session y) !! (ap_handle p, ap_correlation p) = Some q →
  let k := (ap_handle p, ap_correlation p) in
  let s := y_session y in
  acks (tr ++ [EReceived buffer p; EAcked k])
    (Sys (set_pending (<[k := SubPending (sp_waiter q) (sp_expiresAt q) true (sp_timer q)]>
                         (ss_pending s)) (ss_timers s) s)
       (y_threads y) (RNotify (sp_waiter q) SubprocessACKPositive) seq).
Proof.
  intros Hak Htyp Hst Hq k s. pose proof Hak as [Hs _ _ _].
  set (tr' := tr ++ [EReceived buffer p; EAcked k]).
  assert (EReceived buffer p ∈ tr' ∧ EAcked k ∈ tr') as [Hrecv Hack].
  { unfold tr'. rewrite !elem_of_app, !elem_of_cons. auto 10. }
  assert (session_acks tr' s) as Hs'.
  { apply session_acks_app; [done|]. intros w k' Hin. rewrite !elem_of_cons in Hin.
    destruct Hin as [|[|?%elem_of_nil]]; done. }
  destruct (sa_pending _ _ Hs' k q Hq) as [Hreg _]. eapply acks_step; [done| |by left| |].
  - destruct Hs' as [Hf Hu Hp Hw]. split; cbn; try done.
    intros k' p' [[<- <-]|[_ ?]]%lookup_insert_Some; [|by apply Hp]. by split.
  - cbn. intros _. by exists k.
  - intros e He. rewrite !elem_of_cons in He. destruct He as [->|[->|?%elem_of_nil]]; try done.
    exists buffer, p. by split_and!.
Qed.

(** One packet: rejected, or accepted and handled in one of three ways. *)
Inductive read_result (buffer : bytes) (seq : Z) s : session → Z → readerPhase → list event → Prop :=
| rr_rejected r :
    (∀ p, decodeAuthenticatedPacket buffer (ss_key s) (ss_generation s) seq ≠ Ok p) → bland r →
    read_result buffer seq s s seq r []
| rr_quiet p s' r :
    decodeAuthenticatedPacket buffer (ss_key s) (ss_generation s) seq = Ok p →
    quiet s s' → bland r → read_result buffer seq s s' (u64 (seq + 1)) r [EReceived buffer p]
| rr_acked p q :
    decodeAuthenticatedPacket buffer (ss_key s) (ss_generation s) seq = Ok p →
    let k : subprocessPendingKey := (ap_handle p, ap_correlation p) in
    ap_typ p = SubprocessAssignmentACK → ap_status p = SubprocessACKPositive →
    ss_pending s !! k = Some q → sp_acknowledged q = false →
    read_result buffer seq s
      (set_pending (<[k := SubPending (sp_waiter q) (sp_expiresAt q) true (sp_timer q)]>
                     (ss_pending s)) (ss_timers s) s)
      (u64 (seq + 1)) (RNotify (sp_waiter q) SubprocessACKPositive) [EReceived buffer p; EAcked k]
| rr_verified p c k q :
    decodeAuthenticatedPacket buffer (ss_key s) (ss_generation s) seq = Ok p →
    ap_typ p = SubprocessVerifiedIngress →
    extractIngressCorrelation (ap_payload p) = Some (Ok c) →
    k = (ap_handle p, c) → ss_pending s !! k = Some q → sp_acknowledged q = true →
    read_result buffer seq s (drop_pending_key k q s) (u64 (seq + 1))
      (RDeliver (ap_handle p) c (ap_payload p)) [EReceived buffer p].

Lemma bland_obs (r : readerPhase) k :
  bland r → match r with
            | RNotify _ status => if status =? SubprocessACKPositive then [EAcked k] else []
            | _ => []
            end = [].
Proof. destruct r; try done. cbn. intros Hne. by rewrite (proj2 (Z.eqb_neq _ _) Hne). Qed.

Lemma read_packet_cases ch now buffer seq s s' seq' r :
  read_packet ch now buffer seq s = (s', seq', r) →
  read_result buffer seq s s' seq' r (received_obs buffer s seq r).
Proof.
  unfold read_packet, received_obs.
  destruct (decodeAuthenticatedPacket _ _ _ _) as [p|e|] eqn:Hdec;
    [|intros [= <- <- <-]; apply rr_rejected; [congruence|done]..].
  destruct (ap_typ p =? SubprocessConnectionOpen) eqn:Hopen.
  { pose proof (read_open_quiet ch now (ap_handle p) s) as Hq.
    pose proof (read_open_bland ch now (ap_handle p) s) as Hr.
    destruct (read_open _ _ _ _). intros [= <- <- <-]. rewrite bland_obs by done. by apply rr_quiet. }
  destruct (ap_typ p =? SubprocessAssignmentACK) eqn:Hack.
  { destruct (read_ack _ _ _ _ _) as [s1 r1] eqn:Hra. intros [= <- <- <-].
    apply Z.eqb_eq in Hack. apply read_ack_cases in Hra as [[Hq Hr]|(q & Hq & Hun & _ & Hst & -> & ->)].
    - rewrite bland_obs by done. by apply rr_quiet.
    - rewrite Hst, Z.eqb_refl. by apply rr_acked. }
  destruct (ap_typ p =? SubprocessVerifiedIngress) eqn:Hver;
    [|intros [= <- <- <-]; by apply rr_quiet].
  apply Z.eqb_eq in Hver. pose proof (read_verified_quiet (ap_handle p) (ap_payload p) s) as Hq.
  destruct (read_verified _ _ _) as [s1 r1] eqn:Hrv. intros [= <- <- <-].
  apply read_verified_cases in Hrv as [Hr|(c & q & -> & Hex & Hc & Hqa & ->)].
  - rewrite bland_obs by done. by apply rr_quiet.
  - by eapply rr_verified.
Qed.

Lemma read_acks tr y ch now buffer s seq r :
  acks tr y → read_packet ch now buffer (y_sequence y) (y_session y) = (s, seq, r) →
  acks (tr ++ received_obs buffer (y_session y) (y_sequence y) r) (Sys s (y_threads y) r seq).
Proof.
  intros Hak Hread%read_packet_cases. revert Hread.
  generalize (received_obs buffer (y_session y) (y_sequence y) r). intros es Hread.
  assert (∀ p s' r' seq', quiet (y_session y) s' → reader_ok (tr ++ [EReceived buffer p]) r' →
    acks (tr ++ [EReceived buffer p]) (Sys s' (y_threads y) r' seq')) as Hstep.
  { intros p s' r' seq' Hq Hr'. apply acks_step with (1 := Hak); [|by left|done|].
    - apply (quiet_acks _ (y_session y)); [done|]. apply session_acks_app; [apply Hak|].
      by intros w k Hin%list_elem_of_singleton.
    - by intros e ->%list_elem_of_singleton. }
  destruct Hread as [r ? Hr|p s r _ Hq Hr|p q _ k Htyp Hst Hq _|p c k q _ Htyp Hex _ Hq _].
  - by apply (quiet_step tr y), bland_ok.
  - by apply Hstep, bland_ok.
  - by apply ack_acks.
  - apply Hstep; [apply drop_quiet|]. split; [done|]. exists buffer, p.
    split_and!; try done. apply elem_of_app. right. apply list_elem_of_here.
Qed.

(** The codes that report a failure are not [AssignmentOK]. *)
Lemma codes_not_ok :
  AssignmentInvalidOrExpiredTime ≠ AssignmentOK ∧ AssignmentWrongConnectionState ≠ AssignmentOK
  ∧ embeddedAssignmentTransportFailure ≠ AssignmentOK.
Proof.
  pose proof law_codes as Hcodes. repeat setoid_rewrite NoDup_cons in Hcodes.
  repeat setoid_rewrite not_elem_of_cons in Hcodes. destruct_and?.
  unfold embeddedAssignmentTransportFailure. split_and!; by apply not_eq_sym.
Qed.

Lemma sstep_acks tr y es y' : acks tr y → sstep y es y' → acks (tr ++ es) y'.
Proof.
  pose proof codes_not_ok as (Hexp & Hwrong & Htransport).
  intros Hak Hstep. pose proof Hak as [Hs Ht Hr He].
  destruct Hstep as [a y Hadm|i a s p y Hlen Hi Hadm|i a now s p y Hi Hreg
    |i a w now wr s p packet y Hi Hsend|i a w now y Hi|i a w s p y Hi Hrecv|i a w now y Hi Hnow
    |i a w y Hi Hdone|i a now y Hi|i a y Hi|i a rc y Hi|i a rc y Hi s
    |ch now buffer s seq r y Hrd Hb Hl Hread|reason y Hrd|w st y Hrd|now h c payload b0 s r y Hrd Hdel
    |reason y Hrd|reason y|k e y|t y s|b y Hoth|y Hrd Hops].
  - destruct y. apply acks_step with (1 := Hak); cbn; try done; [|by left|by apply reader_ok_app|].
    + apply session_acks_app; [done|]. by intros w k Hin%list_elem_of_singleton.
    + intros e ->%list_elem_of_singleton Heq. by destruct Htransport.
  - revert Hadm. unfold admit_op. destruct (ss_accepting _); [|done]. intros [= <- <-].
    apply thread_acks; [done| |done]. by apply same_quiet.
  - destruct (register_acks tr now a _ s p Hs Hreg) as [Hs' Hp].
    apply acks_step with (1 := Hak); [done| |by apply reader_ok_app|].
    + intros j q [[<- <-]|[_ ?]]%lookup_insert_Some; auto.
    + intros e. destruct p; cbn; try (by intros ?%elem_of_nil). by intros ->%list_elem_of_singleton.
  - pose proof (send_next now wr a w (y_session y)) as (Hn & Hp & Hw). rewrite Hsend in Hn, Hp, Hw.
    cbn in Hn, Hp, Hw. apply acks_step with (1 := Hak); [| |by apply reader_ok_app|].
    + apply session_acks_app; [by eapply quiet_acks; [apply same_quiet|]|].
      intros w' k. destruct packet; cbn; [by intros ?%list_elem_of_singleton|by intros ?%elem_of_nil].
    + intros j q [[<- <-]|[_ ?]]%lookup_insert_Some; [right|by left]. apply thread_ok_app.
      revert Hsend. unfold send. specialize (Ht i _ Hi). cbn in Ht.
      destruct (invalid_remaining _); [by intros [= <- <- <-]|].
      destruct (encodeAssignmentPacket _ _ _ _ _ _) as [x| |]; [|by intros [= <- <- <-]..].
      destruct (writeFullPacket _ _); by intros [= <- <- <-].
    + intros e. destruct packet; cbn; [by intros ->%list_elem_of_singleton|by intros ?%elem_of_nil].
  - apply thread_acks; [done|reflexivity|]. unfold recheck. case_match; [done|exact (Ht i _ Hi)].
  - apply thread_acks; [done|by eapply receive_quiet|].
    revert Hrecv. unfold receive. destruct (ss_waiters _ !! w) as [[|st rest]|] eqn:Hw; try done.
    intros [= _ <-]. destruct (st =? _) eqn:Hst; [|done]. apply Z.eqb_eq in Hst as ->. cbn.
    destruct (sa_waiters _ _ Hs w _ Hw) as (k & Hk & Hack); [apply list_elem_of_here|].
    specialize (Ht i _ Hi). cbn in Ht. by rewrite (sa_unique _ _ Hs w _ _ Ht Hk).
  - by apply thread_acks.
  - apply thread_acks; [done|done|]. intros Heq. by destruct Htransport.
  - by apply check_acks.
  - apply thread_acks; [done|apply close_quiet|done].
  - apply thread_acks; [done|apply removePending_quiet|]. intros Heq. by destruct (Ht i _ Hi).
  - apply acks_step with (1 := Hak); [| |by apply reader_ok_app|].
    + apply session_acks_app; [apply (quiet_acks _ (y_session y)); [by apply same_quiet|done]|].
      by intros w' k Hin%list_elem_of_singleton.
    + intros j q [_ ?]%lookup_delete_Some. by left.
    + intros e ->%list_elem_of_singleton Hrc. by apply acked_in_time_app, (Ht i _ Hi).
  - by eapply read_acks.
  - by apply quiet_step.
  - (* notify *) rewrite app_nil_r. rewrite Hrd in Hr. destruct Hs as [Hf Hu Hp Hw].
    split; cbn; try done. split; cbn; try done. intros w' l Hl Hin.
    destruct (notify_lookup _ _ _ _ _ _ Hl Hin) as [(l0 & ? & ?)|[-> Heq]]; [by eapply Hw|by apply Hr].
  - (* deliver *) rewrite Hrd in Hr. destruct Hr as [Hex Hfr].
    pose proof (read_deliver_quiet now h c payload b0 (y_session y)) as Hq.
    pose proof (read_deliver_bland now h c payload b0 (y_session y)) as Hbl.
    rewrite Hdel in Hq, Hbl. apply acks_step with (1 := Hak); [|by left|by apply bland_ok|].
    + apply session_acks_app; [by eapply quiet_acks|]. by intros w' k Hin%list_elem_of_singleton.
    + intros e ->%list_elem_of_singleton. split; [done|]. by apply received_frame_app.
  - apply quiet_step; [done|apply close_quiet|done].
  - apply quiet_step; [done|apply close_quiet|done].
  - apply quiet_step; [done|apply expirePending_quiet|done].
  - apply quiet_step; [done|by apply same_quiet|done].
  - apply quiet_step; [done|by apply same_quiet|done].
  - apply quiet_step; [done|by apply same_quiet|done].
Qed.

Lemma srun_acks g key tr y : srun g key tr y → acks tr y.
Proof.
  induction 1 as [broker|]; [|by eapply sstep_acks]. split; cbn; try done.
  - split; cbn; try done.
    + by intros w k Hin%elem_of_nil.
    + by intros w k k' Hin%elem_of_nil.
  - by intros e ?%elem_of_nil.
Qed.
End acks.
