(* ===== verification/SessionProps.v ===== *)
(** * What the session guarantees

    The bookkeeping of acknowledgements and frames, the sequence numbers of both
    directions, termination of [assign], the life of the session, and the broker as
    an instance of the interface. *)
From S2P Require Import Prelude GoInt Sha256 Abi Protobuf Packet Broker BrokerInv BrokerSys BrokerProps Session SessionSys SessionAcks.

Section books.
Context {A : IngressAbi} {AL : AbiLaws A} {M : Mac} {B : Type} `{SB : IngressSink B}.
Abbreviation session := (session B).
Implicit Types (s : session) (k : subprocessPendingKey) (tr : list event).

Definition ecount (f : event → bool) tr : Z := zlen (filter f tr).
Definition is_registered k (e : event) : bool :=
  match e with ERegistered _ k' => bool_decide (k' = k) | _ => false end.
Definition is_acked k (e : event) : bool :=
  match e with EAcked k' => bool_decide (k' = k) | _ => false end.
Definition is_delivered k (e : event) : bool :=
  match e with EDelivered k' _ => bool_decide (k' = k) | _ => false end.

(** 1 when the entry of the key is pending, acknowledged or not. *)
Definition pending_credit (acknowledged : bool) k s : Z :=
  match ss_pending s !! k with
  | Some p => if eqb (sp_acknowledged p) acknowledged then 1 else 0
  | None => 0
  end.
(** 1 when the reader is about to hand over a frame of the key. *)
Definition reader_credit k (r : readerPhase) : Z :=
  match r with RDeliver h c _ => if decide ((h, c) = k) then 1 else 0 | _ => 0 end.

Lemma ecount_app f tr es : ecount f (tr ++ es) = ecount f tr + ecount f es.
Proof. unfold ecount. by rewrite filter_app, zlen_app. Qed.
Lemma ecount_cons f e es : ecount f (e :: es) = (if f e then 1 else 0) + ecount f es.
Proof.
  unfold ecount. rewrite filter_cons. destruct (f e) eqn:Hf; case_decide; try done.
  by rewrite zlen_cons.
Qed.
Lemma ecount_nil f : ecount f [] = 0.
Proof. done. Qed.
Lemma credit_range b k s : 0 ≤ pending_credit b k s ≤ 1.
Proof. unfold pending_credit. repeat case_match; lia. Qed.
Lemma reader_credit_bland k r : bland r → reader_credit k r = 0.
Proof. by destruct r. Qed.
Lemma reader_credit_nonneg k r : 0 ≤ reader_credit k r.
Proof. destruct r; cbn; try case_decide; lia. Qed.

Lemma quiet_credit b k s s' : quiet s s' → pending_credit b k s' ≤ pending_credit b k s.
Proof.
  intros [_ Hsub _]. pose proof (credit_range b k s). unfold pending_credit in *.
  destruct (ss_pending s' !! k) as [p|] eqn:Hp; [|lia].
  by rewrite (lookup_weaken _ _ _ _ Hp Hsub).
Qed.

(** The two accounts of a key. *)
Record balance k tr s r : Prop := {
  bl_frames : ecount (is_delivered k) tr + reader_credit k r + pending_credit true k s
    ≤ ecount (is_acked k) tr;
  bl_acks : ecount (is_acked k) tr + pending_credit false k s ≤ ecount (is_registered k) tr;
}.

(** Steps that leave the accounts alone. *)
Definition uncounted k (e : event) : Prop :=
  is_registered k e = false ∧ is_acked k e = false ∧ is_delivered k e = false.

Lemma balance_quiet k tr es s s' r r' :
  balance k tr s r → quiet s s' → reader_credit k r' ≤ reader_credit k r →
  Forall (uncounted k) es → balance k (tr ++ es) s' r'.
Proof.
  intros [Hf Ha] Hq Hr Hes.
  pose proof (quiet_credit true k _ _ Hq). pose proof (quiet_credit false k _ _ Hq).
  assert (ecount (is_registered k) es = 0 ∧ ecount (is_acked k) es = 0
    ∧ ecount (is_delivered k) es = 0) as (H1 & H2 & H3).
  { induction Hes as [|e es (He1 & He2 & He3) _ IH]; [by rewrite !ecount_nil|].
    rewrite !ecount_cons, He1, He2, He3. lia. }
  split; rewrite !ecount_app; lia.
Qed.

Lemma balance_register k tr now a s s' p r :
  balance k tr s r → register now a s = (s', p) → balance k (tr ++ registered_obs a p) s' r.
Proof.
  intros Hb. unfold register.
  destruct (negb _); [intros [= <- <-]; by apply (balance_quiet _ _ [] s _ r)|].
  destruct (invalid_remaining _); [intros [= <- <-]; by apply (balance_quiet _ _ [] s _ r)|].
  case_bool_decide as Hdup; [intros [= <- <-]; by apply (balance_quiet _ _ [] s _ r)|].
  apply eq_None_not_Some in Hdup. intros [= <- <-]. destruct Hb as [Hf Ha].
  split; rewrite !ecount_app; cbn [registered_obs]; rewrite !ecount_cons, !ecount_nil; cbn;
    unfold pending_credit in *; cbn; destruct (decide (key_of a = k)) as [<-|Hne].
  - rewrite lookup_insert_eq. rewrite Hdup in Hf. cbn. lia.
  - rewrite lookup_insert_ne by done. lia.
  - rewrite lookup_insert_eq, bool_decide_eq_true_2 by done. rewrite Hdup in Ha. cbn. lia.
  - rewrite lookup_insert_ne by done. case_bool_decide; [done|lia].
Qed.

Lemma balance_read k tr buffer seq s s' seq' r es :
  balance k tr s RRead → read_result buffer seq s s' seq' r es → balance k (tr ++ es) s' r.
Proof.
  intros Hb Hread. destruct Hread as [r ? Hr|p s' r _ Hq Hr|p q _ k' Htyp Hst Hq Hqa|p c k' q _ Htyp Hex Heq Hq Hqa].
  - apply (balance_quiet _ _ [] s _ RRead); [done|done|by rewrite reader_credit_bland|done].
  - eapply balance_quiet; [done|done|by rewrite reader_credit_bland|]. by repeat constructor.
  - destruct Hb as [Hf Ha]. split; rewrite !ecount_app, !ecount_cons, !ecount_nil;
      unfold pending_credit in *; cbn -[k'] in *; clearbody k'; destruct (decide (k' = k)) as [<-|Hne].
    + rewrite lookup_insert_eq, bool_decide_eq_true_2 by done. rewrite Hq, Hqa in Hf. cbn in *. lia.
    + rewrite lookup_insert_ne, bool_decide_eq_false_2 by done. lia.
    + rewrite lookup_insert_eq, bool_decide_eq_true_2 by done. rewrite Hq, Hqa in Ha. cbn in *. lia.
    + rewrite lookup_insert_ne, bool_decide_eq_false_2 by done. lia.
  - pose proof (quiet_credit false k _ _ (drop_quiet k' q s)) as Hfalse.
    destruct Hb as [Hf Ha]. split; rewrite !ecount_app, !ecount_cons, !ecount_nil;
      cbn [is_acked is_delivered is_registered].
    + revert Hf. unfold pending_credit. cbn. rewrite <-Heq. case_decide as Hk.
      * rewrite <-Hk, Hq, Hqa, lookup_delete_eq. cbn. lia.
      * rewrite lookup_delete_ne by done. lia.
    + lia.
Qed.

Lemma sstep_balance k tr y es y' :
  balance k tr (y_session y) (y_reader y) → sstep y es y' →
  balance k (tr ++ es) (y_session y') (y_reader y').
Proof.
  intros Hb Hstep.
  destruct Hstep as [a y Hadm|i a s p y Hlen Hi Hadm|i a now s p y Hi Hreg
    |i a w now wr s p packet y Hi Hsend|i a w now y Hi|i a w s p y Hi Hrecv|i a w now y Hi Hnow
    |i a w y Hi Hdone|i a now y Hi|i a y Hi|i a rc y Hi|i a rc y Hi s
    |ch now buffer s seq r y Hrd Hbuf Hl Hread|reason y Hrd|w st y Hrd|now h c payload b0 s r y Hrd Hdel
    |reason y Hrd|reason y|ke e y|t y s|b y Hoth|y Hrd Hops].
  all: try (by apply (balance_quiet k tr [] (y_session y) _ (y_reader y))).
  - apply balance_quiet with (1 := Hb); [reflexivity|done|by repeat constructor].
  - apply (balance_quiet k tr [] (y_session y) _ (y_reader y)); try done.
    revert Hadm. unfold admit_op. case_match; [done|]. intros [= <- <-]. by apply same_quiet.
  - by eapply balance_register.
  - pose proof (send_next now wr a w (y_session y)) as (Hn & Hp & Hw). rewrite Hsend in Hn, Hp, Hw.
    apply balance_quiet with (1 := Hb); [by apply same_quiet|done|].
    destruct packet; by repeat constructor.
  - apply (balance_quiet k tr [] (y_session y) _ (y_reader y)); [done|by eapply receive_quiet|done..].
  - apply balance_quiet with (1 := Hb); [reflexivity|done|by repeat constructor].
  - apply (balance_quiet k tr [] (y_session y) _ (y_reader y)); [done|apply close_quiet|done..].
  - apply (balance_quiet k tr [] (y_session y) _ (y_reader y)); [done|apply removePending_quiet|done..].
  - apply balance_quiet with (1 := Hb); [by apply same_quiet|done|]. by repeat constructor.
  - rewrite Hrd in Hb. by eapply balance_read, read_packet_cases.
  - apply (balance_quiet k tr [] (y_session y) _ (y_reader y)); try done. cbn. apply reader_credit_nonneg.
  - destruct Hb as [Hf Ha]. rewrite app_nil_r. pose proof (reader_credit_nonneg k (y_reader y)).
    split; unfold pending_credit in *; cbn in *; lia.
  - pose proof (read_deliver_quiet now h c payload b0 (y_session y)) as Hq.
    pose proof (read_deliver_bland now h c payload b0 (y_session y)) as Hbl. rewrite Hdel in Hq, Hbl.
    cbn in Hq, Hbl.
    pose proof (quiet_credit true k _ _ Hq). pose proof (quiet_credit false k _ _ Hq).
    rewrite Hrd in Hb. destruct Hb as [Hf Ha]. cbn in Hf.
    split; rewrite !ecount_app, !ecount_cons, !ecount_nil; cbn;
      rewrite ?(reader_credit_bland k r) by done; [|lia].
    case_decide; case_bool_decide; done || lia.
  - apply (balance_quiet k tr [] (y_session y) _ (y_reader y)); [done|apply close_quiet| |done].
    apply reader_credit_nonneg.
  - apply (balance_quiet k tr [] (y_session y) _ (y_reader y)); [done|apply close_quiet|done..].
  - apply (balance_quiet k tr [] (y_session y) _ (y_reader y)); [done|apply expirePending_quiet|done..].
  - apply (balance_quiet k tr [] (y_session y) _ (y_reader y)); [done|by apply same_quiet|done..].
  - apply (balance_quiet k tr [] (y_session y) _ (y_reader y)); [done|by apply same_quiet|done..].
  - apply (balance_quiet k tr [] (y_session y) _ (y_reader y)); [done|by apply same_quiet|done..].
Qed.

Lemma srun_balance g key tr y k : srun g key tr y → balance k tr (y_session y) (y_reader y).
Proof. induction 1; [by split|by eapply sstep_balance]. Qed.
End books.

Section sequences.
Context {A : IngressAbi} {AL : AbiLaws A} {M : Mac} {B : Type} `{SB : IngressSink B} {SL : SinkLaws B}.
Abbreviation session := (session B).
Implicit Types (s : session) (tr : list event).

(** The accepted packets and the written ones, in order. *)
Definition received tr : list (bytes * authenticatedPacket) :=
  omap (λ e, match e with EReceived buffer p => Some (buffer, p) | _ => None end) tr.
Definition written tr : list bytes :=
  omap (λ e, match e with EWritten packet => Some packet | _ => None end) tr.

(** The assignment a goroutine works on, and whether its session serves it. *)
Definition phase_ok (generation : Z) (p : phase) : Prop :=
  match p with
  | PRegister a => zlen (ca_CorrelationID a) = CorrelationBytes
  | PSend a _ => zlen (ca_CorrelationID a) = CorrelationBytes ∧ ca_Generation a = generation
  | PPanic => False
  | _ => True
  end.

Record sequences g key tr (y : sys (B := B)) : Prop := {
  sq_received : ∀ i buffer p, received tr !! i = Some (buffer, p) →
    Bytes buffer ∧ decodeAuthenticatedPacket buffer key g (u64 (1 + Z.of_nat i)) = Ok p;
  sq_sequence : y_sequence y = u64 (1 + zlen (received tr));
  sq_written : ∀ i packet, written tr !! i = Some packet → ∃ a, ca_Generation a = g
    ∧ zlen (ca_CorrelationID a) = CorrelationBytes
    ∧ encodeAssignmentPacket key g (u64 (1 + Z.of_nat i)) (ca_ConnectionHandle a)
        (ca_CorrelationID a) (u64 (unix_milli (ca_ExpiresAt a))) = Ok packet;
  sq_writeSequence : ss_writeSequence (y_session y) = u64 (zlen (written tr));
  sq_threads : ∀ i p, y_threads y !! i = Some p → phase_ok g p;
  sq_reader : y_reader y ≠ RPanic;
}.

Lemma u64_succ n : u64 (u64 n + 1) = u64 (n + 1).
Proof. unfold u64, uwrap. by rewrite Zplus_mod_idemp_l. Qed.

Lemma close_writeSequence reason s : ss_writeSequence (close reason s) = ss_writeSequence s.
Proof. unfold close. by case_match. Qed.
Lemma fatal_writeSequence (fatal : option IngressError) b s :
  ss_writeSequence (match fatal with Some f => fail (ReasonIngress f) (set_broker b s)
                    | None => set_broker b s end) = ss_writeSequence s.
Proof. destruct fatal; [apply (close_writeSequence _ (set_broker b s))|done]. Qed.
Lemma read_deliver_writeSequence now h c payload b0 s :
  ss_writeSequence (read_deliver now h c payload b0 s).1 = ss_writeSequence s.
Proof.
  unfold read_deliver. destruct (sink_deliver _ _ _ _ _ _ _) as [[b e] fatal]. apply fatal_writeSequence.
Qed.
Lemma read_packet_writeSequence ch now buffer seq s :
  ss_writeSequence (read_packet ch now buffer seq s).1.1 = ss_writeSequence s.
Proof.
  unfold read_packet, read_ack, read_verified, read_open.
  destruct (decodeAuthenticatedPacket _ _ _ _) as [p|e|]; [|done..].
  destruct (_ =? SubprocessConnectionOpen).
  - destruct (sink_open _ _ _ _ _) as [[b e] fatal]. apply fatal_writeSequence.
  - repeat case_match; simplify_eq; done.
Qed.

(** Steps that neither accept nor write a packet. *)
Lemma sequences_quiet g key tr es y s threads r :
  sequences g key tr y → received es = [] → written es = [] →
  ss_writeSequence s = ss_writeSequence (y_session y) →
  (∀ i p, threads !! i = Some p → y_threads y !! i = Some p ∨ phase_ok g p) → r ≠ RPanic →
  sequences g key (tr ++ es) (Sys s threads r (y_sequence y)).
Proof.
  intros [] Hr Hw Hs Ht Hrd. unfold received, written in *.
  split; unfold received, written; rewrite ?omap_app, ?Hr, ?Hw, ?app_nil_r; cbn; try done.
  - by rewrite Hs.
  - intros i p [?|?]%Ht; eauto.
Qed.

Lemma sequences_thread g key tr y i s p :
  sequences g key tr y → ss_writeSequence s = ss_writeSequence (y_session y) → phase_ok g p →
  sequences g key (tr ++ []) (with_thread i s p y).
Proof.
  intros Hsq Hs Hp. apply sequences_quiet; [done..| |apply Hsq].
  intros j q [[<- <-]|[_ ?]]%lookup_insert_Some; auto.
Qed.

Lemma sequences_other g key tr y s r :
  sequences g key tr y → ss_writeSequence s = ss_writeSequence (y_session y) → r ≠ RPanic →
  sequences g key (tr ++ []) (with_reader s r y).
Proof. intros. apply sequences_quiet; auto. Qed.

Lemma received_cons buffer p es :
  received (EReceived buffer p :: es) = (buffer, p) :: received es.
Proof. done. Qed.

(** The payload of an accepted frame is what [extractIngressCorrelation] expects. *)
Lemma accepted_payload buffer key g seq p :
  Bytes buffer → decodeAuthenticatedPacket buffer key g seq = Ok p →
  ap_typ p = SubprocessVerifiedIngress → Bytes (ap_payload p) ∧ zlen (ap_payload p) < 2 ^ 63.
Proof.
  intros Hb Hdec Htyp. destruct (decode_sound _ _ _ _ _ Hb Hdec) as (Hwf & _).
  destruct (wf_payload _ Hwf) as [Hp Hlen]. specialize (Hlen Htyp).
  destruct law_max_packet as [_ Hmax]. pose proof law_max_int. split; [done|lia].
Qed.

Lemma read_no_panic ch now buffer seq s :
  Bytes buffer → (read_packet ch now buffer seq s).2 ≠ RPanic.
Proof.
  intros Hb. unfold read_packet.
  pose proof (decode_no_panic buffer (ss_key s) (ss_generation s) seq) as Hnp.
  destruct (decodeAuthenticatedPacket _ _ _ _) as [p|e|] eqn:Hdec; [|done..].
  destruct (_ =? SubprocessConnectionOpen).
  { unfold read_open. destruct (sink_open _ _ _ _ _) as [[b [e|]] fatal]; done. }
  destruct (_ =? SubprocessAssignmentACK).
  { unfold read_ack. repeat case_match; simplify_eq; done. }
  destruct (ap_typ p =? SubprocessVerifiedIngress) eqn:Hver; [|done]. apply Z.eqb_eq in Hver.
  destruct (accepted_payload _ _ _ _ _ Hb Hdec Hver) as [Hp Hlen].
  destruct (extract_returns (ap_payload p) Hp Hlen) as ([c|e|] & Hex & Hnp'); [| |done];
    unfold read_verified; rewrite Hex; [|done]. repeat case_match; simplify_eq; done.
Qed.

Lemma sequences_read g key tr y ch now buffer s seq r :
  sequences g key tr y → ss_key (y_session y) = key → ss_generation (y_session y) = g →
  Bytes buffer → read_packet ch now buffer (y_sequence y) (y_session y) = (s, seq, r) →
  sequences g key (tr ++ received_obs buffer (y_session y) (y_sequence y) r) (Sys s (y_threads y) r seq).
Proof.
  intros Hsq Hkey Hg Hb Hread.
  pose proof (read_packet_writeSequence ch now buffer (y_sequence y) (y_session y)) as Hws.
  pose proof (read_no_panic ch now buffer (y_sequence y) (y_session y) Hb) as Hnp.
  rewrite Hread in Hws, Hnp. cbn in Hws, Hnp.
  assert (∀ p es, decodeAuthenticatedPacket buffer key g (y_sequence y) = Ok p →
    received es = [] → written es = [] →
    sequences g key (tr ++ EReceived buffer p :: es) (Sys s (y_threads y) r (u64 (y_sequence y + 1)))) as Hstep.
  { intros p es Hdec Hr Hw. destruct Hsq.
    assert (received (tr ++ EReceived buffer p :: es) = received tr ++ [(buffer, p)]) as Hrecv.
    { unfold received in *. rewrite omap_app. f_equal. cbn. by rewrite Hr. }
    assert (written (tr ++ EReceived buffer p :: es) = written tr) as Hwrit.
    { unfold written in *. rewrite omap_app. cbn. by rewrite Hw, app_nil_r. }
    split; rewrite ?Hrecv, ?Hwrit; cbn; try done.
    - intros i buffer' p' [Hi|[Hi Heq]]%lookup_app_Some; [by apply sq_received0|].
      apply list_lookup_singleton_Some in Heq as [Hi' [= <- <-]]. split; [done|].
      rewrite sq_sequence0 in Hdec. unfold zlen in Hdec. by replace i with (length (received tr)) by lia.
    - rewrite sq_sequence0, u64_succ, zlen_app. change (zlen [_]) with 1. f_equal. lia.
    - by rewrite Hws. }
  revert Hread Hstep. intros Hread%read_packet_cases. revert Hread.
  generalize (received_obs buffer (y_session y) (y_sequence y) r). intros es Hread Hstep.
  destruct Hread as [r ? Hr|p s r Hdec Hq Hr|p q Hdec k Htyp Hst Hq _|p c k q Hdec Htyp Hex _ Hq _];
    rewrite ?Hkey, ?Hg in *.
  - by apply sequences_quiet; auto.
  - by apply (Hstep p []).
  - by apply (Hstep p [EAcked k]).
  - by apply (Hstep p []).
Qed.

Lemma sequences_send g key tr y i now wr a w s p packet :
  sequences g key tr y → ss_key (y_session y) = key → ss_generation (y_session y) = g →
  y_threads y !! i = Some (PSend a w) → send now wr a w (y_session y) = (s, p, packet) →
  sequences g key (tr ++ written_obs packet) (with_thread i s p y).
Proof.
  intros Hsq Hkey Hg Hi. pose proof (sq_threads _ _ _ _ Hsq i _ Hi) as [Hlen Hgen].
  unfold send. destruct (invalid_remaining _).
  { intros [= <- <- <-]. by apply sequences_thread. }
  cbn. rewrite Hkey, Hg. pose proof (encodeAssignment_layout key g
    (u64 (ss_writeSequence (y_session y) + 1)) (ca_ConnectionHandle a) (ca_CorrelationID a)
    (u64 (unix_milli (ca_ExpiresAt a))) Hlen) as Henc.
  destruct (encodeAssignmentPacket _ _ _ _ _ _) as [pk|e|] eqn:Hpk; [|done..]. clear Henc.
  assert (∀ q, phase_ok g q → sequences g key (tr ++ [EWritten pk])
    (with_thread i (set_writeSequence (u64 (ss_writeSequence (y_session y) + 1)) (y_session y)) q y)) as Hstep.
  { intros q Hq. destruct Hsq.
    assert (received (tr ++ [EWritten pk]) = received tr) as Hrecv.
    { unfold received. by rewrite omap_app, app_nil_r. }
    assert (written (tr ++ [EWritten pk]) = written tr ++ [pk]) as Hwrit.
    { unfold written. by rewrite omap_app. }
    split; rewrite ?Hrecv, ?Hwrit; cbn; try done.
    - intros j packet' [Hj|[Hj Heq]]%lookup_app_Some; [by apply sq_written0|].
      apply list_lookup_singleton_Some in Heq as [Hj' <-]. exists a. split_and!; try done.
      rewrite sq_writeSequence0, u64_succ in Hpk. unfold zlen in Hpk. rewrite <-Hpk.
      f_equal. f_equal. lia.
    - rewrite sq_writeSequence0, u64_succ, zlen_app. done.
    - intros j q' [[<- <-]|[_ ?]]%lookup_insert_Some; eauto. }
  destruct (writeFullPacket _ _); intros [= <- <- <-]; by apply Hstep.
Qed.

Lemma lifecycle_key g key y :
  lifecycle g key y → y_reader y ≠ RStopped ∨ y_threads y ≠ ∅ → ss_key (y_session y) = key.
Proof. intros [_ _ _ [|(? & ? & _)]] [|]; done. Qed.

Lemma sstep_sequences g key tr y es y' :
  lifecycle g key y → sequences g key tr y → sstep y es y' → sequences g key (tr ++ es) y'.
Proof.
  intros Hlc Hsq Hstep. pose proof (cg_generation _ _ (lc_closing _ _ _ Hlc)) as Hg.
  pose proof (lifecycle_key g key y Hlc) as Hkey.
  assert (∀ i p, y_threads y !! i = Some p → y_threads y ≠ ∅) as Hne
    by (intros i p Hi He; by rewrite He, lookup_empty in Hi).
  destruct Hstep as [a y Hadm|i a s p y Hlen Hi Hadm|i a now s p y Hi Hreg
    |i a w now wr s p packet y Hi Hsend|i a w now y Hi|i a w s p y Hi Hrecv|i a w now y Hi Hnow
    |i a w y Hi Hdone|i a now y Hi|i a y Hi|i a rc y Hi|i a rc y Hi s
    |ch now buffer s seq r y Hrd Hbuf Hl Hread|reason y Hrd|w st y Hrd|now h c payload b0 s r y Hrd Hdel
    |reason y Hrd|reason y|ke e y|t y s|b y Hoth|y Hrd Hops].
  - destruct y. apply sequences_quiet with (1 := Hsq); auto. apply Hsq.
  - revert Hadm. unfold admit_op. case_match; [done|]. intros [= <- <-]. by apply sequences_thread.
  - pose proof (sq_threads _ _ _ _ Hsq i _ Hi) as Hlen. revert Hreg. unfold register.
    destruct (negb _) eqn:Hgen; [intros [= <- <-]; by apply sequences_thread|].
    destruct (invalid_remaining _); [intros [= <- <-]; by apply sequences_thread|].
    case_bool_decide; intros [= <- <-]; [by apply sequences_thread|].
    apply sequences_quiet; try done; [|apply Hsq].
    intros j q [[<- <-]|[_ ?]]%lookup_insert_Some; [right|by left]. split; [done|]. lia.
  - eapply sequences_send; eauto.
  - apply sequences_thread; [done|done|]. unfold recheck. by case_match.
  - revert Hrecv. unfold receive. repeat case_match; try done; intros [= <- <-]; by apply sequences_thread.
  - by apply sequences_thread.
  - by apply sequences_thread.
  - apply sequences_quiet; try done; [|apply Hsq].
    intros j q [[<- <-]|[_ ?]]%lookup_insert_Some; [right|by left]. unfold check. by case_match.
  - apply sequences_thread; [done|apply close_writeSequence|done].
  - apply sequences_thread; [done| |done]. unfold removePending. by case_match.
  - apply sequences_quiet; try done; [|apply Hsq]. intros j q [_ ?]%lookup_delete_Some. by left.
  - eapply sequences_read; eauto. apply Hkey. left. congruence.
  - by apply sequences_other.
  - by apply sequences_other.
  - pose proof (read_deliver_writeSequence now h c payload b0 (y_session y)) as Hws.
    pose proof (read_deliver_bland now h c payload b0 (y_session y)) as Hbl.
    revert Hdel Hws. unfold read_deliver. destruct (sink_deliver _ _ _ _ _ _ _) as [[b e] fatal].
    intros [= <- <-] Hws. apply sequences_quiet; try done; [by auto|]. by repeat case_match.
  - apply sequences_other; [done|apply close_writeSequence|done].
  - apply sequences_other; [done|apply close_writeSequence|apply Hsq].
  - apply sequences_other; [done| |apply Hsq]. unfold expirePending. by repeat case_match.
  - apply sequences_other; [done|done|apply Hsq].
  - apply sequences_other; [done|done|apply Hsq].
  - apply sequences_other; [done|done|apply Hsq].
Qed.

Lemma srun_sequences g key tr y : srun g key tr y → sequences g key tr y.
Proof.
  induction 1 as [broker|tr es y y' Hrun IH Hstep].
  - split; cbn; try done; by intros ? ?.
  - eapply sstep_sequences; [by eapply srun_lifecycle|done..].
Qed.

(** ** Progress of [assign] *)

(** Sections left to run, at most. *)
Definition rank (p : phase) : Z :=
  match p with
  | PRegister _ => 7 | PSend _ _ => 6 | PRecheck _ _ => 5 | PWait _ _ => 4
  | PCheck _ => 3 | PFail _ => 3 | PRemove _ _ => 2 | PReturn _ _ => 1 | PPanic => 0
  end.

(** The goroutine got closer to returning, or returned. *)
Definition advanced (i : Z) (p : phase) (es : list event) (y' : sys (B := B)) : Prop :=
  (∃ p', y_threads y' !! i = Some p' ∧ rank p' < rank p)
  ∨ (y_threads y' !! i = None ∧ ∃ a rc, es = [EReturned a rc]).

Lemma advanced_thread i p es s p' y : rank p' < rank p → advanced i p es (with_thread i s p' y).
Proof. intros. left. exists p'. cbn. by rewrite lookup_insert_eq. Qed.

Lemma register_rank now a s s' p : register now a s = (s', p) → rank p < 7.
Proof. unfold register. repeat case_match; intros [= <- <-]; done. Qed.
Lemma send_rank now wr a w s s' p packet : send now wr a w s = (s', p, packet) → rank p < 6.
Proof. unfold send. repeat case_match; intros [= <- <- <-]; done. Qed.
Lemma recheck_rank now a w : rank (recheck now a w) < 5.
Proof. unfold recheck. by case_match. Qed.
Lemma receive_rank a w s s' p : receive a w s = Some (s', p) → rank p < 4.
Proof. unfold receive. repeat case_match; intros; by simplify_eq. Qed.
Lemma check_rank now a : rank (check now a) < 3.
Proof. unfold check. by case_match. Qed.

(** A step is by the goroutine, and advances it, or leaves it where it is. *)
Lemma thread_kept_or_advanced y es y' i p :
  sstep y es y' → y_threads y !! i = Some p →
  y_threads y' !! i = Some p ∨ advanced i p es y'.
Proof.
  intros Hstep Hp.
  assert (∀ j s p0 p' es', y_threads y !! j = Some p0 → rank p' < rank p0 →
    y_threads (with_thread j s p' y) !! i = Some p ∨ advanced i p es' (with_thread j s p' y)) as Hthread.
  { intros j s p0 p' es' Hj Hr. destruct (decide (j = i)) as [->|Hne].
    - simplify_eq. right. by apply advanced_thread.
    - left. cbn. by rewrite lookup_insert_ne. }
  destruct Hstep as [a y Hadm|j a s q y Hlen Hj Hadm|j a now s q y Hj Hreg
    |j a w now wr s q packet y Hj Hsend|j a w now y Hj|j a w s q y Hj Hrecv|j a w now y Hj Hnow
    |j a w y Hj Hdone|j a now y Hj|j a y Hj|j a rc y Hj|j a rc y Hj s
    |ch now buffer s seq r y Hrd Hbuf Hl Hread|reason y Hrd|w st y Hrd|now h c payload b0 s r y Hrd Hdel
    |reason y Hrd|reason y|ke e y|t y s|b y Hoth|y Hrd Hops]; try (by left).
  - left. cbn. rewrite lookup_insert_ne; [done|]. congruence.
  - eapply Hthread; [done|]. by apply register_rank in Hreg.
  - eapply Hthread; [done|]. by apply send_rank in Hsend.
  - eapply Hthread; [done|]. apply recheck_rank.
  - eapply Hthread; [done|]. by apply receive_rank in Hrecv.
  - by eapply Hthread.
  - by eapply Hthread.
  - eapply Hthread; [done|]. apply check_rank.
  - by eapply Hthread.
  - by eapply Hthread.
  - destruct (decide (j = i)) as [->|Hne].
    + right. right. cbn. rewrite lookup_delete_eq. eauto.
    + left. cbn. by rewrite lookup_delete_ne.
Qed.

(** The goroutine can always take a step once the connection answers its write:
    at the latest, at the deadline. *)
Lemma thread_can_advance y i p :
  y_threads y !! i = Some p → p ≠ PPanic → ∃ es y', sstep y es y' ∧ advanced i p es y'.
Proof.
  intros Hp Hnp. destruct p as [a|a w|a w|a w|a|a|a rc|a rc|]; [..|done].
  - destruct (register 0 a (y_session y)) as [s q] eqn:Hreg. do 2 eexists.
    split; [by eapply y_register|]. apply advanced_thread. by apply register_rank in Hreg.
  - destruct (send 0 WriteErr a w (y_session y)) as [[s q] packet] eqn:Hsend. do 2 eexists.
    split; [by eapply y_send|]. apply advanced_thread. by apply send_rank in Hsend.
  - do 2 eexists. split; [by apply (y_recheck i a w 0)|]. apply advanced_thread, recheck_rank.
  - do 2 eexists. split; [by apply (y_timeout i a w (ca_ExpiresAt a))|]. by apply advanced_thread.
  - do 2 eexists. split; [by apply (y_check i a 0)|]. apply advanced_thread, check_rank.
  - do 2 eexists. split; [by apply (y_fail i a)|]. by apply advanced_thread.
  - do 2 eexists. split; [by apply (y_remove i a rc)|]. by apply advanced_thread.
  - do 2 eexists. split; [by apply (y_return i a rc)|]. right. cbn. rewrite lookup_delete_eq. eauto.
Qed.
End sequences.
