(* ===== verification/SessionSpec.v ===== *)
(** * The session's theorems

    Stated against the interface [IngressSink], and a run of the protocol over the
    broker of Broker.v, which implements it. *)
From S2P Require Import Prelude GoInt Sha256 Abi Protobuf Packet Broker BrokerInv BrokerSys BrokerProps Session SessionSys SessionAcks SessionProps.

(** ** The broker implements the interface *)

Section instance.
Context {A : IngressAbi} {N F : Type}.
Abbreviation broker := (ingressBroker N F).

Definition sink_result (r : broker * @outcome F) : broker * option IngressError * option IngressError :=
  (r.1, o_err r.2, snd <$> o_fatal r.2).

#[export] Instance broker_sink : IngressSink broker := {|
  sink_choice := { ord : mapOrder | range_order ord };
  sink_open ch now g h b := sink_result (open (proj1_sig ch) now g h b);
  sink_deliver now g h c frame b0 b := sink_result (deliverIPCFrame now g h c frame b0 b);
  sink_deactivate := deactivate;
  sink_live g b := b_generation b = g ∧ b_active b = true;
  (* any method, short of starting another generation *)
  sink_other b b' := ∃ es, step b es b' ∧ b_generation b' = b_generation b
    ∧ (b_active b' = true → b_active b = true);
|}.

Lemma closeCorrelation_gate g c (b : broker) :
  b_generation (closeCorrelation g c b) = b_generation b ∧ b_active (closeCorrelation g c b) = b_active b.
Proof. unfold closeCorrelation. repeat case_match; done. Qed.

Lemma deliver_dead now g c frame ms (b : broker) :
  ¬ (b_generation b = g ∧ b_active b = true) →
  let '(b', o) := deliver now g c frame ms b in
  is_Some (o_err o) ∧ o_fatal o = None ∧ ¬ (b_generation b' = g ∧ b_active b' = true).
Proof.
  intros Hdead. destruct (closeCorrelation_gate g c b) as [Hg Ha]. unfold deliver.
  destruct (_ || _); [cbn; rewrite Hg, Ha; split_and!; eauto|].
  destruct (_ || _) in |- *; [cbn; rewrite Hg, Ha; split_and!; eauto|].
  destruct (g =? b_generation b) eqn:Hgen; cbn [negb]; [|cbn; split_and!; eauto].
  destruct (b_active b) eqn:Hact; cbn [negb]; [|cbn; split_and!; try done; intros []; congruence].
  exfalso. apply Hdead. split; [lia|done].
Qed.

#[export] Instance broker_sink_laws : SinkLaws broker.
Proof.
  split; cbn.
  - intros g b [Hg Ha]. unfold deactivate in *.
    destruct (b_generation b =? g) eqn:Heq; cbn in *; [done|lia].
  - intros g b b' (es & _ & Hg & Ha) Hdead []. apply Hdead. rewrite <-Hg. auto.
  - intros ch now g h b Hdead. unfold sink_result, open.
    destruct (g =? b_generation b) eqn:Hg; cbn; [|eauto].
    destruct (b_active b) eqn:Ha; cbn; [|eauto]. exfalso. apply Hdead. split; [lia|done].
  - intros now g h c frame b0 b Hdead. unfold sink_result, deliverIPCFrame.
    destruct (b_correlations b0 !! c) as [p|]; cbn; [|split_and!; eauto].
    destruct (negb _); cbn; [split_and!; eauto|].
    pose proof (deliver_dead now g c frame (u64 (unix_milli (ip_expiresAt p))) b Hdead) as Hd.
    destruct (deliver _ _ _ _ _ _) as [b' o]. destruct Hd as (? & Hf & ?). cbn. by rewrite Hf.
Qed.
End instance.

(** ** The theorems *)

Section theorems.
Context {A : IngressAbi} {AL : AbiLaws A} {M : Mac} {B : Type} `{SB : IngressSink B} {SL : SinkLaws B}.
Abbreviation session := (session B).

(** A closed session stays closed, for the same reason. *)
Definition keeps_reason (s s' : session) : Prop :=
  ss_closeOnce s = true → ss_closeOnce s' = true ∧ ss_closeErr s' = ss_closeErr s.

Lemma calm_reason s s' : calm s s' → keeps_reason s s'.
Proof. intros [] Hc. split; congruence. Qed.
Lemma close_reason reason s : keeps_reason s (close reason s).
Proof. intros Hc. unfold close. by rewrite Hc. Qed.
Lemma fatal_reason (fatal : option IngressError) b s :
  keeps_reason s (match fatal with Some f => fail (ReasonIngress f) (set_broker b s)
                  | None => set_broker b s end).
Proof. destruct fatal as [f|]; [|done]. apply (close_reason _ (set_broker b s)). Qed.
Lemma read_reason ch now buffer seq s : keeps_reason s (read_packet ch now buffer seq s).1.1.
Proof.
  unfold read_packet. destruct (decodeAuthenticatedPacket _ _ _ _) as [p|e|]; [|done..].
  assert (∀ m : session * readerPhase, keeps_reason s m.1 →
    keeps_reason s (let '(s', r) := m in (s', u64 (seq + 1), r)).1.1) as Hlet by by intros [].
  apply Hlet. destruct (_ =? SubprocessConnectionOpen).
  { unfold read_open. destruct (sink_open _ _ _ _ _) as [[b e] fatal]. apply fatal_reason. }
  destruct (_ =? SubprocessAssignmentACK); [by apply calm_reason, read_ack_calm|].
  destruct (_ =? SubprocessVerifiedIngress); [by apply calm_reason, read_verified_calm|done].
Qed.

Lemma sstep_reason y es y' : sstep y es y' → keeps_reason (y_session y) (y_session y').
Proof.
  intros Hstep. destruct Hstep as [a y Hadm|i a s p y Hlen Hi Hadm|i a now s p y Hi Hreg
    |i a w now wr s p packet y Hi Hsend|i a w now y Hi|i a w s p y Hi Hrecv|i a w now y Hi Hnow
    |i a w y Hi Hdone|i a now y Hi|i a y Hi|i a rc y Hi|i a rc y Hi s
    |ch now buffer s seq r y Hrd Hbuf Hl Hread|reason y Hrd|w st y Hrd|now h c payload b0 s r y Hrd Hdel
    |reason y Hrd|reason y|ke e y|t y s|b y Hoth|y Hrd Hops]; try done.
  - revert Hadm. unfold admit_op. case_match; [done|]. by intros [= <- <-].
  - pose proof (register_calm now a (y_session y)) as Hc. rewrite Hreg in Hc. by apply calm_reason.
  - pose proof (send_calm now wr a w (y_session y)) as Hc. rewrite Hsend in Hc. by apply calm_reason.
  - by apply receive_calm, calm_reason in Hrecv.
  - apply close_reason.
  - apply calm_reason, removePending_calm.
  - pose proof (read_reason ch now buffer (y_sequence y) (y_session y)) as Hr. by rewrite Hread in Hr.
  - revert Hdel. unfold read_deliver. destruct (sink_deliver _ _ _ _ _ _ _) as [[b e] fatal].
    intros [= <- _]. apply fatal_reason.
  - apply close_reason.
  - apply close_reason.
  - apply calm_reason, expirePending_calm.
Qed.

(** C6: a session fails closed and for good: from the moment [close] has run, it
    admits no assignment, its connection is closed, [done] is closed, the broker no
    longer serves its generation, and all of it, with the reason of the first
    [close], holds after every further step of any goroutine. The reader stops only
    with the session closed. *)
Theorem session_fails_closed g key tr y es y' :
  srun g key tr y → sstep y es y' →
  (y_reader y = RStopped → ss_closeOnce (y_session y) = true)
  ∧ (ss_closeOnce (y_session y) = true →
      ss_closeOnce (y_session y') = true
      ∧ is_Some (ss_closeErr (y_session y)) ∧ ss_closeErr (y_session y') = ss_closeErr (y_session y)
      ∧ ss_accepting (y_session y') = false ∧ ss_done (y_session y') = true
      ∧ ss_conn (y_session y') = false ∧ ¬ sink_live g (ss_broker (y_session y'))).
Proof.
  intros Hrun Hstep. pose proof (srun_lifecycle _ _ _ _ Hrun) as Hlc.
  pose proof (sstep_lifecycle _ _ _ _ _ Hlc Hstep) as Hlc'. split; [apply Hlc|]. intros Hc.
  destruct (sstep_reason _ _ _ Hstep Hc) as [Hc' Hr].
  destruct (cg_closed _ _ (lc_closing _ _ _ Hlc) Hc) as (_ & _ & _ & Hs & _).
  destruct (cg_closed _ _ (lc_closing _ _ _ Hlc') Hc') as (? & ? & ? & _ & ?). by split_and!.
Qed.

(** C5: [assign] reports success only for an assignment the subprocess accepted in
    time: the session received, on this very generation, an authenticated positive
    acknowledgement of that handle and correlation, and after it had been recorded
    [assign] read the clock at a time before the assignment's deadline. *)
Theorem assign_ok_acknowledged g key tr y a :
  srun g key tr y → EReturned a AssignmentOK ∈ tr →
  (∃ now tr1 tr2, tr = tr1 ++ EChecked a now :: tr2
    ∧ EAcked (key_of a) ∈ tr1 ∧ now < ca_ExpiresAt a)
  ∧ ∃ buffer p, EReceived buffer p ∈ tr ∧ ap_typ p = SubprocessAssignmentACK
      ∧ ap_status p = SubprocessACKPositive ∧ ap_generation p = g
      ∧ (ap_handle p, ap_correlation p) = key_of a
      ∧ encodePacket key p = Ok buffer.
Proof.
  intros Hrun Hret. pose proof (ak_events _ _ (srun_acks _ _ _ _ Hrun)) as Hev.
  destruct (Hev _ Hret eq_refl) as (now & Hnow & tr1 & tr2 & Heq & Hack1).
  assert (EAcked (key_of a) ∈ tr) as Hack by (rewrite Heq; apply elem_of_app; by left).
  split; [by exists now, tr1, tr2|].
  destruct (Hev _ Hack) as (buffer & p & Hin & Htyp & Hk & Hst).
  assert (∃ i, received tr !! i = Some (buffer, p)) as [i Hi].
  { apply list_elem_of_lookup. apply list_elem_of_omap. by eexists. }
  destruct (sq_received _ _ _ _ (srun_sequences _ _ _ _ Hrun) _ _ _ Hi) as [Hb Hdec].
  destruct (decode_sound _ _ _ _ _ Hb Hdec) as (_ & Hg & _ & Henc).
  exists buffer, p. by split_and!.
Qed.

(** Frames of a session: for each handle and correlation, the frames handed to
    the broker are at most as many as the positive acknowledgements recorded, which
    are at most as many as the assignments registered; and every frame handed over
    came in an authenticated packet of that handle and carries that correlation. *)
Theorem frames_acknowledged_once g key tr y k :
  srun g key tr y →
  ecount (is_delivered k) tr ≤ ecount (is_acked k) tr ≤ ecount (is_registered k) tr
  ∧ ∀ payload, EDelivered k payload ∈ tr →
      extractIngressCorrelation payload = Some (Ok k.2)
      ∧ ∃ buffer p, EReceived buffer p ∈ tr ∧ ap_typ p = SubprocessVerifiedIngress
          ∧ ap_handle p = k.1 ∧ ap_payload p = payload.
Proof.
  intros Hrun. destruct (srun_balance _ _ _ _ k Hrun) as [Hf Ha].
  pose proof (reader_credit_nonneg k (y_reader y)).
  pose proof (credit_range true k (y_session y)). pose proof (credit_range false k (y_session y)).
  split; [lia|]. intros payload Hin. exact (ak_events _ _ (srun_acks _ _ _ _ Hrun) _ Hin).
Qed.

(** Both directions are numbered without gap, repetition or reordering: the
    i-th packet accepted is the encoding, under the session's key and generation,
    of a packet numbered i, and the i-th packet written is the assignment packet
    numbered i of an assignment of this generation. *)
Theorem session_sequence_numbers g key tr y :
  srun g key tr y →
  (∀ i buffer p, received tr !! i = Some (buffer, p) →
    ap_sequence p = u64 (1 + Z.of_nat i) ∧ ap_generation p = g ∧ encodePacket key p = Ok buffer)
  ∧ (∀ i packet, written tr !! i = Some packet → ∃ a, ca_Generation a = g
      ∧ encodeAssignmentPacket key g (u64 (1 + Z.of_nat i)) (ca_ConnectionHandle a)
          (ca_CorrelationID a) (u64 (unix_milli (ca_ExpiresAt a))) = Ok packet).
Proof.
  intros Hrun. destruct (srun_sequences _ _ _ _ Hrun) as [Hr _ Hw _ _ _]. split.
  - intros i buffer p Hi. destruct (Hr _ _ _ Hi) as [Hb Hdec].
    destruct (decode_sound _ _ _ _ _ Hb Hdec) as (_ & ? & ? & ?). done.
  - intros i packet Hi. destruct (Hw _ _ Hi) as (a & ? & _ & ?). by exists a.
Qed.

(** C24: [assign] terminates: in every reachable state, a goroutine inside it can
    take its next section (at the latest when the deadline has passed), every step
    of the system leaves it where it is or brings it closer to its return, and it
    has at most seven sections to run. *)
Theorem assign_terminates g key tr y i p :
  srun g key tr y → y_threads y !! i = Some p →
  rank p ≤ 7
  ∧ (∃ es y', sstep y es y' ∧ advanced i p es y')
  ∧ (∀ es y', sstep y es y' → y_threads y' !! i = Some p ∨ advanced i p es y').
Proof.
  intros Hrun Hp. split_and!.
  - by destruct p.
  - apply thread_can_advance; [done|]. intros ->.
    by apply (sq_threads _ _ _ _ (srun_sequences _ _ _ _ Hrun)) in Hp.
  - intros es y' Hstep. by eapply thread_kept_or_advanced.
Qed.

(** C34: the session never panics, whatever bytes the subprocess sends and however
    its goroutines interleave: no slice expression, conversion or native call of
    the reader or of [assign] goes wrong. *)
Theorem session_never_panics g key tr y :
  srun g key tr y → y_reader y ≠ RPanic ∧ ∀ i, y_threads y !! i ≠ Some PPanic.
Proof.
  intros Hrun. destruct (srun_sequences _ _ _ _ Hrun) as [_ _ _ _ Ht Hr].
  split; [done|]. intros i Hi. by apply Ht in Hi.
Qed.

(** [wait] wipes the key only when nothing can use it: as long as the reader
    runs or a goroutine is inside [assign], the key is the one of the session; the
    wait group counts exactly the goroutines inside; and once it is wiped the
    session is closed, so none can enter. *)
Theorem key_wiped_when_idle g key tr y :
  srun g key tr y →
  ss_opWG (y_session y) = Z.of_nat (size (y_threads y))
  ∧ (ss_key (y_session y) = key
     ∨ y_reader y = RStopped ∧ y_threads y = ∅ ∧ ss_accepting (y_session y) = false).
Proof.
  intros Hrun. destruct (srun_lifecycle _ _ _ _ Hrun) as [Hcl Hops _ Hkey]. split; [done|].
  destruct Hkey as [|(? & ? & Hc)]; [by left|right].
  by destruct (cg_closed _ _ Hcl Hc).
Qed.
End theorems.

(** ** A concrete session: one assignment written, acknowledged and returned, one
    frame received and handed over *)
Module sdemo.
Abbreviation broker := (ingressBroker unit unit).
Abbreviation sys := (sys (B := broker)).

Definition a : ConnectionAssignment := demo.assignment.
Definition order : { ord : mapOrder | range_order ord } := exist _ map_to_list demo.order.
Definition payload : bytes := [8; 1; 18; 16] ++ demo.correlation.

(** What the subprocess sends. *)
Definition ok {T} (default : T) (r : res IngressError T) : T := match r with Ok x => x | _ => default end.
Definition ack : bytes := Eval vm_compute in
  ok [] (encodeACKPacket sample_key 7 1 5 demo.correlation SubprocessACKPositive).
Definition frame : bytes := Eval vm_compute in ok [] (encodeVerifiedPacket sample_key 7 2 5 payload).

Definition y0 : sys := start 7 sample_key demo.assigned.
Definition r1 := Eval vm_compute in admit_op a (y_session y0).
Definition y1 : sys := with_thread 1 r1.1 (PRegister a) y0.
Definition r2 := Eval vm_compute in register 0 a (y_session y1).
Definition y2 : sys := with_thread 1 r2.1 r2.2 y1.
Definition r3 := Eval vm_compute in send 0 (WriteN 82) a 0 (y_session y2).
Definition y3 : sys := with_thread 1 r3.1.1 r3.1.2 y2.
Definition y4 : sys := with_thread 1 (y_session y3) (recheck 0 a 0) y3.
Definition r5 := Eval vm_compute in read_packet (SB := broker_sink) order 0 ack (y_sequence y4) (y_session y4).
Definition y5 : sys := Sys r5.1.1 (y_threads y4) r5.2 r5.1.2.
Definition y6 : sys :=
  with_reader (set_waiters (notify 0 SubprocessACKPositive (ss_waiters (y_session y5))) (y_session y5))
    RRead y5.
Definition r7 := Eval vm_compute in default (y_session y6, PPanic) (receive a 0 (y_session y6)).
Definition y7 : sys := with_thread 1 r7.1 r7.2 y6.
Definition y8 : sys := with_thread 1 (y_session y7) (check Second a) y7.
Definition y9 : sys :=
  let s := y_session y8 in
  Sys (set_ops (ss_accepting s) (ss_opWG s - 1) s) (delete 1 (y_threads y8)) (y_reader y8) (y_sequence y8).
Definition r10 := Eval vm_compute in read_packet (SB := broker_sink) order Second frame (y_sequence y9) (y_session y9).
Definition y10 : sys := Sys r10.1.1 (y_threads y9) r10.2 r10.1.2.
Definition r11 := Eval vm_compute in
  read_deliver Second 5 demo.correlation payload (ss_broker (y_session y10)) (y_session y10).
Definition y11 : sys := with_reader r11.1 r11.2 y10.
Definition y12 : sys := with_session (close ReasonExit (y_session y11)) y11.

(** The traces of the steps. *)
Definition t2 : list event := ([] ++ []) ++ registered_obs a r2.2.
Definition t3 : list event := t2 ++ written_obs r3.2.
Definition t5 : list event := (t3 ++ []) ++ received_obs ack (y_session y4) (y_sequence y4) r5.2.
Definition t9 : list event := (((t5 ++ []) ++ []) ++ [EChecked a Second]) ++ [EReturned a AssignmentOK].
Definition t10 : list event := t9 ++ received_obs frame (y_session y9) (y_sequence y9) r10.2.
Definition t11 : list event := t10 ++ [EDelivered (5, demo.correlation) payload].

Lemma run3 : srun 7 sample_key t3 y3.
Proof.
  apply srun_step with y2.
  2:{ apply (y_send 1 a 0 0 (WriteN 82) r3.1.1 r3.1.2 r3.2); by vm_compute. }
  apply srun_step with y1.
  2:{ apply (y_register 1 a 0 r2.1 r2.2); by vm_compute. }
  apply srun_step with y0; [apply srun_start|].
  apply (y_admit 1 a r1.1 (PRegister a)); by vm_compute.
Qed.

Lemma run5 : srun 7 sample_key t5 y5.
Proof.
  apply srun_step with y4.
  2:{ apply (y_read (SB := broker_sink) order 0 ack r5.1.1 r5.1.2 r5.2);
      [by vm_compute| |by vm_compute|by vm_compute].
      apply (bool_decide_unpack _). by vm_compute. }
  apply srun_step with y3; [exact run3|]. apply (y_recheck 1 a 0 0). by vm_compute.
Qed.

Lemma run9 : srun 7 sample_key t9 y9.
Proof.
  assert (y_reader y5 = RNotify 0 SubprocessACKPositive) as H5 by by vm_compute.
  assert (y_threads y6 !! 1 = Some (PWait a 0)) as H6 by by vm_compute.
  assert (receive a 0 (y_session y6) = Some (r7.1, r7.2)) as H6' by by vm_compute.
  assert (y_threads y7 !! 1 = Some (PCheck a)) as H7 by by vm_compute.
  assert (y_threads y8 !! 1 = Some (PReturn a AssignmentOK)) as H8 by by vm_compute.
  refine (srun_step _ _ _ _ y8 y9 _ (y_return 1 a AssignmentOK y8 H8)).
  refine (srun_step _ _ _ _ y7 y8 _ (y_check 1 a Second y7 H7)).
  refine (srun_step _ _ _ _ y6 y7 _ (y_receive 1 a 0 r7.1 r7.2 y6 H6 H6')).
  exact (srun_step _ _ _ _ y5 y6 run5 (y_notify 0 SubprocessACKPositive y5 H5)).
Qed.

Lemma run10 : srun 7 sample_key t10 y10.
Proof.
  apply srun_step with y9; [exact run9|].
  apply (y_read (SB := broker_sink) order Second frame r10.1.1 r10.1.2 r10.2);
    [by vm_compute| |by vm_compute|by vm_compute].
  apply (bool_decide_unpack _). by vm_compute.
Qed.

Lemma run11 : srun 7 sample_key t11 y11.
Proof.
  apply srun_step with y10; [exact run10|].
  apply (y_deliver Second 5 demo.correlation payload (ss_broker (y_session y10)) r11.1 r11.2);
    by vm_compute.
Qed.

Lemma run12 : srun 7 sample_key (t11 ++ []) y12.
Proof. apply srun_step with y11; [exact run11|]. apply y_close. Qed.
End sdemo.

Lemma session_fails_closed_witness :
  srun 7 sample_key (sdemo.t11 ++ []) sdemo.y12
  ∧ ss_closeOnce (y_session sdemo.y12) = true
  ∧ ∀ es y', sstep sdemo.y12 es y' →
      ss_accepting (y_session y') = false ∧ ¬ sink_live 7 (ss_broker (y_session y')).
Proof.
  assert (ss_closeOnce (y_session sdemo.y12) = true) as Hc by by vm_compute.
  split; [exact sdemo.run12|]. split; [exact Hc|]. intros es y' Hstep.
  destruct (session_fails_closed _ _ _ _ _ _ sdemo.run12 Hstep) as [_ H].
  destruct (H Hc) as (_ & _ & _ & Ha & _ & _ & Hl). exact (conj Ha Hl).
Defined.

Lemma assign_ok_acknowledged_witness :
  EReturned sdemo.a AssignmentOK ∈ sdemo.t9
  ∧ ∃ now tr1 tr2, sdemo.t9 = tr1 ++ EChecked sdemo.a now :: tr2
      ∧ EAcked (key_of sdemo.a) ∈ tr1 ∧ now < ca_ExpiresAt sdemo.a.
Proof.
  assert (EReturned sdemo.a AssignmentOK ∈ sdemo.t9) as Hin
    by (apply (bool_decide_unpack _); by vm_compute).
  split; [exact Hin|]. apply (assign_ok_acknowledged _ _ _ _ _ sdemo.run9 Hin).
Defined.

Lemma frames_acknowledged_once_witness :
  ecount (is_delivered (5, demo.correlation)) sdemo.t11 = 1
  ∧ ecount (is_delivered (5, demo.correlation)) sdemo.t11
    ≤ ecount (is_acked (5, demo.correlation)) sdemo.t11
    ≤ ecount (is_registered (5, demo.correlation)) sdemo.t11.
Proof.
  split; [by vm_compute|].
  destruct (frames_acknowledged_once _ _ _ _ (5, demo.correlation) sdemo.run11) as [H _]. exact H.
Defined.

Lemma session_sequence_numbers_witness :
  zlen (received sdemo.t10) = 2
  ∧ ∀ buffer p, received sdemo.t10 !! 1%nat = Some (buffer, p) →
      ap_sequence p = u64 (1 + Z.of_nat 1).
Proof.
  split; [by vm_compute|]. intros buffer p Hr.
  destruct (session_sequence_numbers _ _ _ _ sdemo.run10) as [H _].
  destruct (H _ _ _ Hr) as [Hs _]. exact Hs.
Defined.

Lemma assign_terminates_witness :
  y_threads sdemo.y4 !! 1 = Some (PWait sdemo.a 0)
  ∧ ∃ es y', sstep sdemo.y4 es y' ∧ advanced 1 (PWait sdemo.a 0) es y'.
Proof.
  assert (y_threads sdemo.y4 !! 1 = Some (PWait sdemo.a 0)) as Hp by by vm_compute.
  split; [exact Hp|].
  assert (srun 7 sample_key (sdemo.t3 ++ []) sdemo.y4) as Hrun
    by (apply srun_step with sdemo.y3; [exact sdemo.run3|apply (y_recheck 1 sdemo.a 0 0); by vm_compute]).
  destruct (assign_terminates _ _ _ _ _ _ Hrun Hp) as (_ & H & _). exact H.
Defined.

Lemma session_never_panics_witness :
  srun 7 sample_key sdemo.t11 sdemo.y11 ∧ y_reader sdemo.y11 ≠ RPanic.
Proof. split; [exact sdemo.run11|apply (session_never_panics _ _ _ _ sdemo.run11)]. Defined.

Lemma key_wiped_when_idle_witness :
  srun 7 sample_key sdemo.t3 sdemo.y3
  ∧ ss_opWG (y_session sdemo.y3) = Z.of_nat (size (y_threads sdemo.y3)).
Proof. split; [exact sdemo.run3|apply (key_wiped_when_idle _ _ _ _ sdemo.run3)]. Defined.
