(* ===== verification/EndToEnd.v ===== *)
(** * From the subprocess to the client (ingress.go and subprocess_ingress.go together)

    The session of SessionSys.v over the broker of Broker.v, with the client's calls on the
    broker as labelled steps among the session's: what the client takes from
    [VerifiedIngress] is traced back to the packets the subprocess sent. *)
From S2P Require Import Prelude GoInt Sha256 Abi Protobuf Packet Broker BrokerInv BrokerSys BrokerProps Session SessionSys SessionAcks SessionProps SessionSpec.

(** What the client does that is seen: an assignment it made got as far as the native call;
    a frame it received. *)
Inductive cevent := CAssigned (a : ConnectionAssignment) | CReceived (v : verifiedFrameValue).

Section moves.
Context {A : IngressAbi} {N F : Type}.
Abbreviation broker := (ingressBroker N F).

(** ** What an operation of the broker leaves

    [moves new b b']: the handles in [b'] are of [b], or [new]; no correlation is new, and
    the queue of frames is the same or empty. *)
Record moves (new : Z → Prop) (b b' : broker) : Prop := {
  mv_generation : b_generation b' = b_generation b;
  mv_handles h t : b_handles b' !! h = Some t → is_Some (b_handles b !! h) ∨ new h;
  mv_correlations : b_correlations b' ⊆ b_correlations b;
  mv_verified : b_verified b' = b_verified b ∨ b_verified b' = [];
}.
Definition nothing (h : Z) : Prop := False.

Lemma moves_refl new b : moves new b b.
Proof. split; auto; intros; left; by eexists. Qed.
Lemma moves_same new b b' :
  b_generation b' = b_generation b → b_handles b' = b_handles b → b_correlations b' = b_correlations b →
  b_verified b' = b_verified b → moves new b b'.
Proof.
  intros Hg Hh Hc Hv. split; [done| |by rewrite Hc|by left]. intros h t Ht. left. rewrite <-Hh. by eexists.
Qed.
Lemma moves_trans new b1 b2 b3 : moves new b1 b2 → moves new b2 b3 → moves new b1 b3.
Proof.
  intros [G1 H1 C1 V1] [G2 H2 C2 V2]. split; [congruence| |by etrans|].
  - intros h t Ht. destruct (H2 h t Ht) as [[t2 Ht2]|]; eauto.
  - destruct V2 as [-> | ->]; auto.
Qed.
Lemma moves_weaken (new new' : Z → Prop) b b' : (∀ h, new h → new' h) → moves new b b' → moves new' b b'.
Proof. intros Hn [G H C V]. split; try done. intros h t Ht. destruct (H h t Ht); auto. Qed.
(** A closing method of BrokerInv.v. *)
Lemma closes_moves new stops b b' : closes stops b b' → b_verified b' = b_verified b → moves new b b'.
Proof.
  intros [] Hv. split; [done| |done|by left]. intros h t Ht. left. eexists. by eapply lookup_weaken.
Qed.
Lemma cleared_moves new b b' :
  b_generation b' = b_generation b → b_handles b' = ∅ → b_correlations b' = ∅ → b_verified b' = [] → moves new b b'.
Proof.
  intros Hg Hh Hc Hv. split; [done| |rewrite Hc; apply map_empty_subseteq|by right]. intros h t. by rewrite Hh.
Qed.
Lemma fail_with_moves new e b : moves new b (fail_with e b).1.
Proof. by apply cleared_moves. Qed.
Lemma deactivate_moves new g b : moves new b (deactivate g b).
Proof. unfold deactivate. destruct (negb _); [apply moves_refl|by apply cleared_moves]. Qed.

Lemma open_moves ord now g h b : range_order ord → moves (eq h) b (open ord now g h b).1.
Proof.
  intros Hord. unfold open. destruct (negb _); [apply moves_refl|]. destruct (negb (b_active b)); [apply moves_refl|].
  destruct (h =? 0); [apply fail_with_moves|]. case_bool_decide; [apply fail_with_moves|].
  pose proof (evict_frame ord now b Hord) as (_ & Hg & _ & Hc & _ & Hv & Hh & _).
  destruct (evictStaleHandlesLocked ord now b) as [b1 ok]. cbn in Hg, Hc, Hv, Hh.
  assert (moves (eq h) b b1) as H1.
  { split; [done| |by rewrite Hc|by left]. intros h' t Ht. left. eexists. by eapply lookup_weaken. }
  destruct (negb ok); [eapply moves_trans; [done|apply fail_with_moves]|].
  assert (moves (eq h) b1 (set_handles (<[h:=now]> (b_handles b1)) b1)) as H2.
  { split; cbn; [done| |done|by left]. intros h' t. destruct (decide (h' = h)) as [->|Hne]; [by right|].
    rewrite lookup_insert_ne by done. left. by eexists. }
  destruct (_ <? _); cbn [fst]; (eapply moves_trans; [exact H1|]); (eapply moves_trans; [exact H2|]); [|apply fail_with_moves].
  by apply moves_same.
Qed.

(** The two ways of [deliver]. *)
Definition publishes (g : Z) (c frame : bytes) (b b' : broker) : Prop :=
  ∃ p v, b_correlations b !! c = Some p ∧ b_generation b = g
    ∧ vf_generation v = g ∧ vf_handle v = ip_handle p ∧ vf_correlation v = c ∧ vf_frame v = frame
    ∧ b_generation b' = g ∧ b_handles b' = delete (ip_handle p) (b_handles b)
    ∧ b_correlations b' = delete c (b_correlations b) ∧ b_verified b' = b_verified b ++ [v].
Lemma drop_moves c p b : moves nothing b (drop_pending c p b).
Proof.
  split; cbn; [done| |apply delete_subseteq|by left]. intros h t [_ Ht]%lookup_delete_Some. left. by eexists.
Qed.
Lemma deliver_moves now g c frame ms b :
  let '(b', o) := deliver now g c frame ms b in
  moves nothing b b' ∨ publishes g c frame b b' ∧ o_fatal o = None.
Proof.
  assert (moves nothing b (closeCorrelation g c b)) as Hc.
  { unfold closeCorrelation. destruct (negb _); [apply moves_refl|]. destruct (b_correlations b !! c); [apply drop_moves|apply moves_refl]. }
  unfold deliver. destruct (_ || _); [by left|]. destruct (_ || _) in |- *; [by left|].
  destruct (Z.eqb_spec g (b_generation b)) as [Hg|]; [|left; apply moves_refl]. cbn [negb].
  destruct (negb (b_active b)); [left; apply moves_refl|].
  destruct (b_correlations b !! c) as [p|] eqn:Hp; [|left; apply moves_refl].
  destruct (negb _); [left; apply drop_moves|].
  destruct (_ <? _); [right; split; [|done]|left].
  2: { eapply moves_trans; [apply (drop_moves c p)|exact (fail_with_moves nothing ErrIngressOverflow _)]. }
  exists p, (VerifiedFrame g (ip_handle p) c frame (from_unix_milli (i64 ms))). by split_and!.
Qed.

(** ** The client *)

Inductive client : broker → list cevent → broker → Prop :=
| c_assign now a b b' r : assign_begin now a b = (b', r) →
    client b (match r with Err _ => [] | _ => [CAssigned a] end) b'
| c_assign_end a rc b : client b [] (assign_end a rc b).1
| c_recv_opened o b b' : recv_opened b = Some (o, b') → client b [] b'
| c_recv_verified v b b' : recv_verified b = Some (v, b') → client b [CReceived v] b'
(* the timers of the assignments *)
| c_expire g h c e b : client b [] (expire g h c e b)
| c_fire t b : client b [] (fire t b).

(** An assignment that is admitted. *)
Definition admits (a : ConnectionAssignment) (b b' : broker) : Prop :=
  ca_Generation a = b_generation b ∧ is_Some (b_handles b !! ca_ConnectionHandle a)
  ∧ b_correlations b !! ca_CorrelationID a = None
  ∧ b_generation b' = b_generation b ∧ b_handles b' = b_handles b ∧ b_verified b' = b_verified b
  ∧ ∃ p, ip_handle p = ca_ConnectionHandle a ∧ b_correlations b' = <[ca_CorrelationID a := p]> (b_correlations b).
Lemma clearAssignment_moves h c b : moves nothing b (clearAssignmentLocked h c b).
Proof.
  unfold clearAssignmentLocked.
  assert (∀ b1, moves nothing b b1 → moves nothing b (drop_correlations_of h b1)) as Hd.
  { intros b1 H. eapply moves_trans; [exact H|]. split; cbn; [done| |apply map_filter_subseteq|by left].
    intros h' t Ht. left. by eexists. }
  apply Hd. assert (moves nothing b (set_handles (delete h (b_handles b)) b)) as H1.
  { split; cbn; [done| |done|by left]. intros h' t [_ Ht]%lookup_delete_Some. left. by eexists. }
  destruct (b_correlations _ !! c); [|done]. eapply moves_trans; [exact H1|apply drop_moves].
Qed.
Lemma closeHandle_moves g h b : moves nothing b (closeHandle g h b).
Proof.
  apply (closes_moves _ true); [apply closeHandle_closes|]. unfold closeHandle. by destruct (negb _).
Qed.
Lemma assign_begin_moves now a b :
  let '(b', r) := assign_begin now a b in
  moves nothing b b' ∧ (∃ e, r = Err e) ∨ admits a b b' ∧ (∀ e, r ≠ Err e).
Proof.
  unfold assign_begin.
  destruct (_ || _); [left; split; [apply closeHandle_moves|by eexists]|].
  case_bool_decide; [left; split; [apply closeHandle_moves|by eexists]|].
  destruct (Z.eqb_spec (ca_Generation a) (b_generation b)) as [Hg|]; [|left; split; [apply moves_refl|by eexists]]. cbn [negb].
  destruct (negb (b_active b)); [left; split; [apply moves_refl|by eexists]|].
  case_bool_decide as Hh; [left; split; [apply moves_refl|by eexists]|].
  case_bool_decide as Hc; [left; split; [apply clearAssignment_moves|by eexists]|].
  destruct (list_find _ _) as [[i p]|]; [left; split; [apply clearAssignment_moves|by eexists]|].
  right. cbn. split; [|by destruct (b_assignNative b)].
  split_and!; try done; [by apply not_eq_None_Some|by apply eq_None_not_Some|]. by eexists (Pending _ _ _ _).
Qed.
(** A frame that is received. *)
Definition takes (v : verifiedFrameValue) (b b' : broker) : Prop :=
  b_generation b' = b_generation b ∧ b_handles b' = b_handles b ∧ b_correlations b' = b_correlations b
  ∧ b_verified b = v :: b_verified b'.
Lemma client_effect b cs b' :
  client b cs b' →
  cs = [] ∧ moves nothing b b' ∨ (∃ a, cs = [CAssigned a] ∧ admits a b b') ∨ ∃ v, cs = [CReceived v] ∧ takes v b b'.
Proof.
  intros Hc. destruct Hc as [now a b b' r H|a rc b|o b b' H|v b b' H|g h c e b|t b].
  - pose proof (assign_begin_moves now a b) as Ha. rewrite H in Ha. destruct Ha as [[Hm [e ->]]|[Ha Hr]]; [by left|].
    right; left. exists a. split; [|done]. destruct r as [n|e|]; [done|by destruct (Hr e)|done].
  - left. split; [done|]. unfold assign_end. destruct (_ =? _); [apply moves_refl|apply closeHandle_moves].
  - left. split; [done|]. unfold recv_opened in H. destruct (b_opened b); simplify_eq. by apply moves_same.
  - right; right. exists v. split; [done|]. unfold recv_verified in H. destruct (b_verified b) eqn:Hv; simplify_eq. by split_and!.
  - left. split; [done|]. unfold expire. destruct (negb _); [apply moves_refl|].
    destruct (b_correlations b !! c); [|apply moves_refl]. destruct (_ || _); [apply moves_refl|].
    split; cbn; [done| |apply delete_subseteq|by left]. intros h' t [_ Ht]%lookup_delete_Some. left. by eexists.
  - left. split; [done|]. by apply moves_same.
Qed.
End moves.

(** ** The session over the broker *)

Section joint.
Context {A : IngressAbi} {AL : AbiLaws A} {M : Mac} {N F : Type}.
Abbreviation broker := (ingressBroker N F).
Abbreviation sys := (@SessionSys.sys broker).
Abbreviation session := (session broker).

(** The interface, with the given other users: none, when a step is the session's own; the
    client, when its steps are not told apart. *)
#[local] Instance sink_with (other : broker → broker → Prop) : IngressSink broker := {|
  sink_choice := { ord : mapOrder | range_order ord };
  sink_open ch now g h b := sink_result (open (proj1_sig ch) now g h b);
  sink_deliver now g h c frame b0 b := sink_result (deliverIPCFrame now g h c frame b0 b);
  sink_deactivate := deactivate;
  sink_live g b := b_generation b = g ∧ b_active b = true;
  sink_other := other;
|}.
Definition alone : IngressSink broker := sink_with (λ _ _, False).
Definition joined : IngressSink broker := sink_with (λ b b', ∃ cs, client b cs b').

Lemma client_gate (b : broker) cs b' :
  client b cs b' → b_generation b' = b_generation b ∧ b_active b' = b_active b.
Proof.
  intros Hc. destruct Hc as [now a b b' r H|a rc b|o b b' H|v b b' H|g h c e b|t b]; try done.
  - assert (∀ g h (b : broker), b_generation (closeHandle g h b) = b_generation b ∧ b_active (closeHandle g h b) = b_active b) as Hch.
    { intros g h b0. unfold closeHandle. by destruct (negb _). }
    assert (∀ h c (b : broker), b_generation (clearAssignmentLocked h c b) = b_generation b
      ∧ b_active (clearAssignmentLocked h c b) = b_active b) as Hca.
    { intros h c b0. unfold clearAssignmentLocked. by destruct (b_correlations _ !! c). }
    revert H. unfold assign_begin.
    destruct (_ || _); [intros [= <- <-]; apply Hch|]. case_bool_decide; [intros [= <- <-]; apply Hch|].
    destruct (negb _); [by intros [= <- <-]|]. destruct (negb (b_active b)); [by intros [= <- <-]|].
    case_bool_decide; [by intros [= <- <-]|]. case_bool_decide; [intros [= <- <-]; apply Hca|].
    destruct (list_find _ _) as [[i p]|]; [intros [= <- <-]; apply Hca|]. by intros [= <- <-].
  - unfold assign_end. destruct (_ =? _); [done|]. cbn. unfold closeHandle. by destruct (negb _).
  - unfold recv_opened in H. destruct (b_opened b); by simplify_eq.
  - unfold recv_verified in H. destruct (b_verified b); by simplify_eq.
  - unfold expire. by repeat case_match.
Qed.
Lemma joined_laws : SinkLaws broker (H := joined).
Proof.
  destruct (broker_sink_laws (N := N) (F := F)) as [H1 _ H3 H4]. split; [exact H1| |exact H3|exact H4].
  intros g b b' [cs Hc]. destruct (client_gate b cs b' Hc) as [Hg Ha]. cbn. by rewrite Hg, Ha.
Qed.
#[local] Existing Instance joined_laws.

(** A step of the session alone is one of the session with the client. *)
Lemma alone_joined (y : sys) es y' : sstep (SB := alone) y es y' → sstep (SB := joined) y es y'.
Proof.
  intros Hs. destruct Hs as [a y Hadm|i a s p y Hlen Hi Hadm|i a now s p y Hi Hreg
    |i a w now wr s p packet y Hi Hsend|i a w now y Hi|i a w s p y Hi Hrecv|i a w now y Hi Hnow
    |i a w y Hi Hdone|i a now y Hi|i a y Hi|i a rc y Hi|i a rc y Hi s
    |ch now buffer s seq r y Hrd Hbuf Hl Hread|reason y Hrd|w st y Hrd|now h c payload b0 s r y Hrd Hdel
    |reason y Hrd|reason y|ke e y|t y s|b y Hoth|y Hrd Hops]; try (by econstructor).
  - exact (y_fail (SB := joined) i a y Hi).
  - exact (y_reader_fail (SB := joined) reason y Hrd).
  - exact (y_close (SB := joined) reason y).
Qed.

(** ** What a step of the session does to the broker *)

Abbreviation moved y es y' new := (moves new (ss_broker (y_session y)) (ss_broker (y_session y'))).
(** The connections opened by packets of the trace. *)
Definition opens (es : list event) (h : Z) : Prop :=
  ∃ buffer p, EReceived buffer p ∈ es ∧ ap_typ p = SubprocessConnectionOpen ∧ ap_handle p = h.

Lemma calm_moves new (s s' : session) : calm s s' → moves new (ss_broker s) (ss_broker s').
Proof. intros []. rewrite ca_broker. apply moves_refl. Qed.
Lemma close_moves new reason (s : session) : moves new (ss_broker s) (ss_broker (close (SB := alone) reason s)).
Proof. unfold close. destruct (ss_closeOnce s); [apply moves_refl|]. apply deactivate_moves. Qed.
Lemma fatal_moves new (fatal : option IngressError) b0 b (s : session) :
  moves new b0 b →
  moves new b0 (ss_broker (match fatal with Some f => fail (SB := alone) (ReasonIngress f) (set_broker b s) | None => set_broker b s end)).
Proof.
  intros H. destruct fatal as [f|]; [|done]. eapply moves_trans; [exact H|]. apply (close_moves new _ (set_broker b s)).
Qed.
Lemma read_moves ch now buffer seq (s : session) :
  let '(s', _, r) := read_packet (SB := alone) ch now buffer seq s in
  moves (opens (received_obs buffer s seq r)) (ss_broker s) (ss_broker s').
Proof.
  unfold read_packet, received_obs.
  destruct (decodeAuthenticatedPacket _ _ _ _) as [p|e|]; [|apply moves_refl..].
  destruct (ap_typ p =? SubprocessConnectionOpen) eqn:Ht.
  { unfold read_open. pose proof (open_moves (proj1_sig ch) now (ss_generation s) (ap_handle p) (ss_broker s) (proj2_sig ch)) as Ho.
    cbn [sink_open alone sink_with]. unfold sink_result. destruct (open _ _ _ _ _) as [b o]. cbn in Ho.
    apply fatal_moves. eapply moves_weaken; [|exact Ho]. intros h <-. exists buffer, p. split; [by left|]. split; [lia|done]. }
  destruct (_ =? SubprocessAssignmentACK).
  { destruct (read_ack _ _ _ _ _) as [s' r] eqn:Hr. pose proof (read_ack_calm now (ap_handle p) (ap_correlation p) (ap_status p) s) as Hc.
    rewrite Hr in Hc. by apply calm_moves. }
  destruct (_ =? SubprocessVerifiedIngress); [|apply moves_refl].
  destruct (read_verified _ _ _) as [s' r] eqn:Hr. pose proof (read_verified_calm (ap_handle p) (ap_payload p) s) as Hc.
  rewrite Hr in Hc. by apply calm_moves.
Qed.

Lemma sstep_moves (y : sys) es y' :
  sstep (SB := alone) y es y' → (∀ k f, EDelivered k f ∉ es) → moved y es y' (opens es).
Proof.
  intros Hs Hnd. destruct Hs as [a y Hadm|i a s p y Hlen Hi Hadm|i a now s p y Hi Hreg
    |i a w now wr s p packet y Hi Hsend|i a w now y Hi|i a w s p y Hi Hrecv|i a w now y Hi Hnow
    |i a w y Hi Hdone|i a now y Hi|i a y Hi|i a rc y Hi|i a rc y Hi s
    |ch now buffer s seq r y Hrd Hbuf Hl Hread|reason y Hrd|w st y Hrd|now h c payload b0 s r y Hrd Hdel
    |reason y Hrd|reason y|ke e y|t y s|b y Hoth|y Hrd Hops]; try apply moves_refl.
  - revert Hadm. unfold admit_op. case_match; [done|]. intros [= <- <-]. apply moves_refl.
  - pose proof (register_calm now a (y_session y)) as Hc. rewrite Hreg in Hc. by apply calm_moves.
  - pose proof (send_calm now wr a w (y_session y)) as Hc. rewrite Hsend in Hc. by apply calm_moves.
  - apply receive_calm in Hrecv. by apply calm_moves.
  - apply close_moves.
  - apply calm_moves, removePending_calm.
  - pose proof (read_moves ch now buffer (y_sequence y) (y_session y)) as Hm. by rewrite Hread in Hm.
  - destruct (Hnd (h, c) payload). by left.
  - apply close_moves.
  - apply close_moves.
  - apply calm_moves, expirePending_calm.
  - destruct Hoth.
Qed.

(** Handing a frame over. *)
Lemma deliver_publishes now h c payload (seen : broker) (s : session) :
  let s' := (read_deliver (SB := alone) now h c payload seen s).1 in
  moves nothing (ss_broker s) (ss_broker s')
  ∨ (∃ p, b_correlations seen !! c = Some p ∧ ip_handle p = h)
    ∧ publishes (ss_generation s) c payload (ss_broker s) (ss_broker s').
Proof.
  unfold read_deliver. cbn [sink_deliver alone sink_with]. unfold sink_result, deliverIPCFrame.
  destruct (b_correlations seen !! c) as [p|]; [|left; apply moves_refl].
  destruct (Z.eqb_spec (ip_handle p) h) as [Hh|]; [|left; apply moves_refl]. cbn [negb].
  pose proof (deliver_moves now (ss_generation s) c payload (u64 (unix_milli (ip_expiresAt p))) (ss_broker s)) as Hd.
  destruct (deliver _ _ _ _ _ _) as [b o]. destruct Hd as [Hm|[Hp Hf]].
  - left. exact (fatal_moves nothing (snd <$> o_fatal o) _ b _ Hm).
  - right. split; [by exists p|]. cbn. by rewrite Hf.
Qed.

(** ** The joint system

    [j_seen]: the broker as the first critical section of [deliverIPCFrame] saw it. *)

Record joint := Joint { j_sys : sys; j_seen : broker }.
Definition j_broker (j : joint) : broker := ss_broker (y_session (j_sys j)).
Definition jevent : Type := event + cevent.

Inductive jstep : joint → list jevent → joint → Prop :=
| j_session y seen es y' :
    sstep (SB := alone) y es y' → (∀ k f, EDelivered k f ∉ es) → jstep (Joint y seen) (inl <$> es) (Joint y' seen)
| j_lookup y seen handle correlation payload :
    y_reader y = RDeliver handle correlation payload → jstep (Joint y seen) [] (Joint y (ss_broker (y_session y)))
| j_deliver now handle correlation payload s r y seen :
    y_reader y = RDeliver handle correlation payload →
    read_deliver (SB := alone) now handle correlation payload seen (y_session y) = (s, r) →
    jstep (Joint y seen) [inl (EDelivered (handle, correlation) payload)] (Joint (with_reader s r y) seen)
| j_client y seen cs b :
    client (ss_broker (y_session y)) cs b →
    jstep (Joint y seen) (inr <$> cs) (Joint (with_session (set_broker b (y_session y)) y) seen).

(** From [activate] on, whatever the broker held before. *)
Inductive jrun (g : Z) (key : bytes) : list jevent → joint → Prop :=
| jrun_start n f b0 : let b := activate g n f b0 in jrun g key [] (Joint (start g key b) b)
| jrun_step tr es j j' : jrun g key tr j → jstep j es j' → jrun g key (tr ++ es) j'.

(** The session's part of a trace. *)
Definition sess (tr : list jevent) : list event := omap (λ e, match e with inl e => Some e | inr _ => None end) tr.
Lemma elem_of_sess e tr : e ∈ sess tr ↔ inl e ∈ tr.
Proof.
  unfold sess. rewrite list_elem_of_omap. split; [intros ([e'|c] & Hin & [= <-]); done|]. intros Hin. by exists (inl e).
Qed.
Lemma sess_inl es : sess (inl <$> es) = es.
Proof. unfold sess. induction es as [|e es IH]; [done|]. cbn. by rewrite IH. Qed.
Lemma sess_inr cs : sess (inr <$> cs) = [].
Proof. unfold sess. by induction cs. Qed.

Lemma jrun_srun g key tr j : jrun g key tr j → srun (SB := joined) g key (sess tr) (j_sys j).
Proof.
  induction 1 as [n f b0 b|tr es j j' _ IH Hs]; [constructor|].
  unfold sess. rewrite omap_app. fold (sess tr) (sess es).
  destruct Hs as [y seen es y' Hs _|y seen h c f Hr|now h c f s r y seen Hr Hd|y seen cs b Hc].
  - rewrite sess_inl. eapply srun_step; [done|]. by apply alone_joined.
  - by rewrite app_nil_r.
  - eapply srun_step; [done|]. exact (y_deliver (SB := joined) now h c f seen s r y Hr Hd).
  - rewrite sess_inr. eapply srun_step; [done|]. apply (y_other (SB := joined)). by exists cs.
Qed.

(** ** What the broker holds, and where it came from *)

Definition opened (tr : list jevent) (h : Z) : Prop := opens (sess tr) h.
Definition assigned (g : Z) (tr : list jevent) (k : subprocessPendingKey) : Prop :=
  ∃ a, inr (CAssigned a) ∈ tr ∧ key_of a = k ∧ ca_Generation a = g.
(** Where a frame comes from; [h] is the handle of its packet. *)
Definition came (g : Z) (tr : list jevent) (v : verifiedFrameValue) : Prop :=
  vf_generation v = g ∧ assigned g tr (vf_handle v, vf_correlation v)
  ∧ ∃ h, inl (EDelivered (h, vf_correlation v) (vf_frame v)) ∈ tr ∧ assigned g tr (h, vf_correlation v).
Definition pending_assigned (g : Z) (tr : list jevent) (b : broker) : Prop :=
  ∀ c p, b_correlations b !! c = Some p → assigned g tr (ip_handle p, c).

Record jinv (g : Z) (tr : list jevent) (j : joint) : Prop := {
  ji_generation : b_generation (j_broker j) = g;
  ji_handles : ∀ h t, b_handles (j_broker j) !! h = Some t → opened tr h;
  ji_pending : pending_assigned g tr (j_broker j);
  ji_seen : pending_assigned g tr (j_seen j);
  ji_queue : ∀ v, v ∈ b_verified (j_broker j) → came g tr v;
  ji_assigned : ∀ a, inr (CAssigned a) ∈ tr → ca_Generation a = g ∧ opened tr (ca_ConnectionHandle a);
  ji_received : ∀ v, inr (CReceived v) ∈ tr → came g tr v;
}.

Lemma opened_app tr es h : opened tr h → opened (tr ++ es) h.
Proof.
  intros (buffer & p & Hin & Hp). exists buffer, p. split; [|done]. rewrite elem_of_sess in *. apply elem_of_app. by left.
Qed.
Lemma opened_new tr es h : opens es h → opened (tr ++ (inl <$> es)) h.
Proof.
  intros (buffer & p & Hin & Hp). exists buffer, p. split; [|done]. rewrite elem_of_sess. apply elem_of_app. right.
  by apply list_elem_of_fmap_2.
Qed.
Lemma assigned_app g tr es k : assigned g tr k → assigned g (tr ++ es) k.
Proof. intros (a & Hin & Ha). exists a. split; [apply elem_of_app; by left|done]. Qed.
Lemma came_app g tr es v : came g tr v → came g (tr ++ es) v.
Proof.
  intros (Hg & Ha & h & Hd & Hh). split; [done|]. split; [by apply assigned_app|]. exists h.
  split; [apply elem_of_app; by left|by apply assigned_app].
Qed.
Lemma pending_app g tr es b : pending_assigned g tr b → pending_assigned g (tr ++ es) b.
Proof. intros H c p Hc. by apply assigned_app, H. Qed.

(** Every step but an assignment, a frame handed over and a frame received. *)
Lemma jinv_moves g tr es new (y y' : sys) seen seen' :
  jinv g tr (Joint y seen) → moved y es y' new → seen' = seen ∨ seen' = ss_broker (y_session y) →
  (∀ h, new h → opened (tr ++ es) h) → (∀ c, inr c ∉ es) →
  jinv g (tr ++ es) (Joint y' seen').
Proof.
  intros [Hg Hh Hp Hse Hq Ha Hr] [Mg Mh Mc Mv] Hseen Hnew Hes. unfold j_broker in *. cbn in *.
  assert (∀ c, inr c ∈ tr ++ es → inr c ∈ tr) as Hin.
  { intros c [?|Hc]%elem_of_app; [done|]. by destruct (Hes c). }
  constructor; unfold j_broker; cbn.
  - congruence.
  - intros h t Ht. destruct (Mh h t Ht) as [[t' Ht']|Hn]; [eapply opened_app, Hh; done|by apply Hnew].
  - intros c p Hc. apply assigned_app, Hp. by eapply lookup_weaken.
  - apply pending_app. by destruct Hseen as [-> | ->].
  - intros v Hv. apply came_app, Hq. by destruct Mv as [<-|Hnil]; [|rewrite Hnil in Hv; apply elem_of_nil in Hv].
  - intros a Hin'%Hin. destruct (Ha a Hin'). split; [done|by apply opened_app].
  - intros v Hin'%Hin. by apply came_app, Hr.
Qed.
Lemma jinv_deliver g tr h c payload (y y' : sys) seen :
  jinv g tr (Joint y seen) → (∃ p, b_correlations seen !! c = Some p ∧ ip_handle p = h) →
  publishes g c payload (ss_broker (y_session y)) (ss_broker (y_session y')) →
  jinv g (tr ++ [inl (EDelivered (h, c) payload)]) (Joint y' seen).
Proof.
  intros [Hg Hh Hp Hse Hq Ha Hr] (p0 & Hp0 & Hh0) (p & v & Hc & _ & Vg & Vh & Vc & Vf & Mg & Mh & Mc & Mv).
  unfold j_broker in *. cbn in *.
  assert (∀ c', inr c' ∈ tr ++ [inl (EDelivered (h, c) payload)] → inr c' ∈ tr) as Hin.
  { intros c' [?|Hc']%elem_of_app; [done|]. by apply list_elem_of_singleton in Hc'. }
  constructor; unfold j_broker; cbn; rewrite ?Mg, ?Mh, ?Mv, ?Mc.
  - done.
  - intros h' t [_ Ht]%lookup_delete_Some. eapply opened_app, Hh. done.
  - intros c' p' Hc'. rewrite Mc in Hc'. apply lookup_delete_Some in Hc' as [_ Hc']. by apply assigned_app, Hp.
  - by apply pending_app.
  - intros v' [Hv'|Hv']%elem_of_app; [by apply came_app, Hq|]. apply list_elem_of_singleton in Hv' as ->.
    split; [done|]. rewrite Vh, Vc, Vf. split; [by apply assigned_app, Hp|]. exists h. split.
    + apply elem_of_app. right. by apply list_elem_of_singleton.
    + apply assigned_app. rewrite <-Hh0. by apply Hse.
  - intros a Hin'%Hin. destruct (Ha a Hin'). split; [done|by apply opened_app].
  - intros v' Hin'%Hin. by apply came_app, Hr.
Qed.
Lemma jinv_client g tr cs (y : sys) b seen :
  jinv g tr (Joint y seen) → client (ss_broker (y_session y)) cs b →
  jinv g (tr ++ (inr <$> cs)) (Joint (with_session (set_broker b (y_session y)) y) seen).
Proof.
  intros Hi [[-> Hm]|[(a & -> & Hadm)|(v & -> & Ht)]]%client_effect.
  - eapply jinv_moves; [exact Hi|exact Hm|by left|done|]. intros c. apply not_elem_of_nil.
  - destruct Hi as [Hg Hh Hp Hse Hq Ha Hr]. unfold j_broker in *. cbn in *.
    destruct Hadm as (Ag & [t At] & Ac & Bg & Bh & Bv & p & Hpa & Bc).
    assert (assigned g (tr ++ [inr (CAssigned a)]) (key_of a)) as Hnew.
    { exists a. split; [apply elem_of_app; right; by apply list_elem_of_singleton|]. split; [done|congruence]. }
    constructor; unfold j_broker; cbn; rewrite ?Bg, ?Bh, ?Bv.
    + done.
    + intros h' t' Ht. by eapply opened_app, Hh.
    + intros c' p'. rewrite Bc. intros [[<- <-]|[_ Hc']]%lookup_insert_Some; [by rewrite Hpa|by apply assigned_app, Hp].
    + by apply pending_app.
    + intros v Hv. by apply came_app, Hq.
    + intros a' [Hin|Hin]%elem_of_app; [destruct (Ha a' Hin); split; [done|by apply opened_app]|].
      apply list_elem_of_singleton in Hin as [= ->]. split; [congruence|]. by eapply opened_app, Hh.
    + intros v [Hin|Hin]%elem_of_app; [by apply came_app, Hr|]. by apply list_elem_of_singleton in Hin.
  - destruct Hi as [Hg Hh Hp Hse Hq Ha Hr]. unfold j_broker in *. cbn in *. destruct Ht as (Bg & Bh & Bc & Bv).
    rewrite Bv in Hq. constructor; unfold j_broker; cbn; rewrite ?Bg, ?Bh.
    + done.
    + intros h' t' Ht. by eapply opened_app, Hh.
    + intros c' p'. rewrite Bc. intros Hc'. by apply assigned_app, Hp.
    + by apply pending_app.
    + intros v' Hv. apply came_app, Hq. by right.
    + intros a' [Hin|Hin]%elem_of_app; [destruct (Ha a' Hin); split; [done|by apply opened_app]|].
      by apply list_elem_of_singleton in Hin.
    + intros v' [Hin|Hin]%elem_of_app; [by apply came_app, Hr|].
      apply list_elem_of_singleton in Hin as [= ->]. apply came_app, Hq. by left.
Qed.
Lemma jrun_generation g key tr j : jrun g key tr j → ss_generation (y_session (j_sys j)) = g.
Proof.
  intros Hr. apply jrun_srun in Hr. by destruct (lc_closing _ _ _ (srun_lifecycle (SB := joined) _ _ _ _ Hr)).
Qed.
Lemma jrun_jinv g key tr j : jrun g key tr j → jinv g tr j.
Proof.
  induction 1 as [n f b0 b|tr es j j' Hr IH Hs].
  - assert (b_generation b = g ∧ b_handles b = ∅ ∧ b_correlations b = ∅ ∧ b_verified b = []) as (Hg & Hh & Hc & Hv) by done.
    clearbody b. assert (pending_assigned g [] b) as Hp by (intros c p; by rewrite Hc, lookup_empty).
    constructor; unfold j_broker; cbn; rewrite ?Hh, ?Hv; try done.
    + intros v Hin. by apply elem_of_nil in Hin.
    + intros a Hin. by apply elem_of_nil in Hin.
    + intros v Hin. by apply elem_of_nil in Hin.
  - pose proof (jrun_generation _ _ _ _ Hr) as Hgen.
    destruct Hs as [y seen es y' Hs Hnd|y seen h c f Hrd|now h c f s r y seen Hrd Hd|y seen cs b Hc].
    + eapply jinv_moves; [exact IH|by eapply sstep_moves|by left|apply opened_new|].
      intros c Hc. apply list_elem_of_fmap in Hc as (e & [=] & _).
    + eapply jinv_moves; [exact IH|apply moves_refl|by right|done|]. intros c0. apply not_elem_of_nil.
    + pose proof (deliver_publishes now h c f seen (y_session y)) as Hp. rewrite Hd in Hp. cbn in Hp, Hgen.
      rewrite Hgen in Hp. destruct Hp as [Hm|[Hs Hp]].
      * eapply jinv_moves; [exact IH|exact Hm|by left|done|]. intros c0 Hin. by apply list_elem_of_singleton in Hin.
      * by eapply jinv_deliver.
    + by apply jinv_client.
Qed.

(** ** No frame twice *)

Definition frame_key (v : verifiedFrameValue) : subprocessPendingKey := (vf_handle v, vf_correlation v).
Definition jcount (f : jevent → bool) (tr : list jevent) : Z := zlen (filter (λ e, f e = true) tr).
Definition is_received (k : subprocessPendingKey) (e : jevent) : bool :=
  match e with inr (CReceived v) => bool_decide (frame_key v = k) | _ => false end.
Definition is_assigned (k : subprocessPendingKey) (e : jevent) : bool :=
  match e with inr (CAssigned a) => bool_decide (key_of a = k) | _ => false end.

(** The frames the broker still owes for a key: queued, or to come for its assignment. *)
Definition queued (k : subprocessPendingKey) (l : list verifiedFrameValue) : Z := zlen (filter (λ v, frame_key v = k) l).
Definition expected (k : subprocessPendingKey) (b : broker) : Z :=
  match b_correlations b !! k.2 with Some p => if decide (ip_handle p = k.1) then 1 else 0 | None => 0 end.
Definition held (k : subprocessPendingKey) (b : broker) : Z := queued k (b_verified b) + expected k b.

Lemma jcount_app f tr es : jcount f (tr ++ es) = jcount f tr + jcount f es.
Proof. unfold jcount. by rewrite filter_app, zlen_app. Qed.
Lemma jcount_one f e : jcount f [e] = if f e then 1 else 0.
Proof. unfold jcount. destruct (f e) eqn:H; [by rewrite filter_cons_True|by rewrite filter_cons_False by (by rewrite H)]. Qed.
Lemma jcount_nil f : jcount f [] = 0.
Proof. done. Qed.
Lemma jcount_inl k es : jcount (is_received k) (inl <$> es) = 0 ∧ jcount (is_assigned k) (inl <$> es) = 0.
Proof.
  induction es as [|e es [IH1 IH2]]; [done|]. change (inl <$> e :: es) with ([inl e] ++ (inl <$> es : list jevent)).
  by rewrite !jcount_app, IH1, IH2, !jcount_one.
Qed.

Lemma queued_nonneg k l : 0 ≤ queued k l.
Proof. apply zlen_nonneg. Qed.
Lemma expected_range k b : 0 ≤ expected k b ≤ 1.
Proof. unfold expected. destruct (_ !! _); [case_decide|]; lia. Qed.
Lemma expected_le k b b' : b_correlations b' ⊆ b_correlations b → expected k b' ≤ expected k b.
Proof.
  intros Hs. pose proof (expected_range k b). unfold expected at 1. destruct (b_correlations b' !! k.2) as [p|] eqn:Hp; [|lia].
  unfold expected. by rewrite (lookup_weaken _ _ _ _ Hp Hs).
Qed.
Lemma held_moves new k b b' : moves new b b' → held k b' ≤ held k b.
Proof.
  intros [_ _ Hc Hv]. pose proof (expected_le k b b' Hc). pose proof (queued_nonneg k (b_verified b)).
  unfold held. destruct Hv as [-> | ->]; [lia|]. change (queued k []) with 0. lia.
Qed.
Lemma queued_one k v l : queued k (v :: l) = (if decide (frame_key v = k) then 1 else 0) + queued k l.
Proof. unfold queued. rewrite filter_cons. case_decide; [rewrite zlen_cons|]; lia. Qed.
Lemma held_publishes g c frame k b b' : publishes g c frame b b' → held k b' ≤ held k b.
Proof.
  intros (p & v & Hp & _ & _ & Vh & Vc & _ & _ & _ & Mc & Mv). unfold held. rewrite Mv.
  unfold queued. rewrite filter_app, zlen_app. fold (queued k (b_verified b)). fold (queued k [v]).
  rewrite queued_one. change (queued k []) with 0. unfold frame_key. rewrite Vh, Vc.
  pose proof (expected_range k b). unfold expected at 1. rewrite Mc.
  destruct (decide (k.2 = c)) as [Hk|Hk].
  - rewrite Hk, lookup_delete_eq. case_decide as He; [|lia]. unfold expected. rewrite Hk, Hp.
    rewrite decide_True by (by rewrite <-He). lia.
  - rewrite lookup_delete_ne by done. rewrite decide_False by (intros <-; done). fold (expected k b). lia.
Qed.
Lemma held_admits a k b b' :
  admits a b b' → held k b' ≤ held k b + (if decide (key_of a = k) then 1 else 0).
Proof.
  intros (_ & _ & Hn & _ & _ & Bv & p & Hp & Bc). unfold held. rewrite Bv. unfold expected at 1. rewrite Bc.
  pose proof (expected_range k b). destruct (decide (k.2 = ca_CorrelationID a)) as [Hk|Hk].
  - rewrite Hk, lookup_insert_eq, Hp. destruct k as [h c]. cbn in *. subst c. unfold key_of.
    case_decide as He; [subst h; rewrite decide_True by done|]; repeat case_decide; lia.
  - rewrite lookup_insert_ne by done. fold (expected k b). case_decide; lia.
Qed.

(** What was received and what is still owed is at most what was assigned. *)
Lemma jrun_balance g key tr j k :
  jrun g key tr j → jcount (is_received k) tr + held k (j_broker j) ≤ jcount (is_assigned k) tr.
Proof.
  induction 1 as [n f b0 b|tr es j j' Hr IH Hs]; [done|]. rewrite !jcount_app.
  pose proof (jrun_generation _ _ _ _ Hr) as Hgen. unfold j_broker in *.
  destruct Hs as [y seen es y' Hs Hnd|y seen h c f Hrd|now h c f s r y seen Hrd Hd|y seen cs b Hc];
    cbn [j_sys y_session with_reader with_session set_broker ss_broker] in *.
  - destruct (jcount_inl k es) as [-> ->]. apply sstep_moves in Hs; [|done]. apply (held_moves _ k) in Hs. lia.
  - rewrite !jcount_nil. lia.
  - rewrite !jcount_one. cbn [is_received is_assigned]. pose proof (deliver_publishes now h c f seen (y_session y)) as Hp.
    rewrite Hd in Hp. cbn [fst] in Hp.
    assert (held k (ss_broker s) ≤ held k (ss_broker (y_session y))); [|lia].
    destruct Hp as [Hm|[_ Hp]]; [by eapply held_moves|by eapply held_publishes].
  - destruct (client_effect _ _ _ Hc) as [[-> Hm]|[(a & -> & Ha)|(v & -> & Ht)]]; cbn [fmap list_fmap].
    + rewrite !jcount_nil. apply (held_moves _ k) in Hm. lia.
    + rewrite !jcount_one. cbn [is_received is_assigned]. apply (held_admits _ k) in Ha. case_bool_decide; case_decide; try done; lia.
    + rewrite !jcount_one. cbn [is_received is_assigned]. destruct Ht as (_ & _ & Bc & Bv). unfold held, expected in *. rewrite Bv in IH. rewrite Bc.
      rewrite queued_one in IH. case_bool_decide; case_decide; try done; lia.
Qed.

(** ** The theorem *)

(** A packet of the subprocess that was accepted: it is the encoding, under the key of the
    session, of a packet of its generation. *)
Definition authentic (g : Z) (key : bytes) (tr : list jevent) (p : authenticatedPacket) : Prop :=
  ∃ buffer, inl (EReceived buffer p) ∈ tr ∧ ap_generation p = g ∧ encodePacket key p = Ok buffer.
Lemma received_authentic g key tr j buffer p :
  jrun g key tr j → EReceived buffer p ∈ sess tr → authentic g key tr p.
Proof.
  intros Hr Hin. exists buffer. split; [by apply elem_of_sess|].
  assert (∃ i, received (sess tr) !! i = Some (buffer, p)) as [i Hi].
  { apply list_elem_of_lookup. apply list_elem_of_omap. by eexists. }
  destruct (sq_received _ _ _ _ (srun_sequences (SB := joined) _ _ _ _ (jrun_srun _ _ _ _ Hr)) _ _ _ Hi) as [Hb Hdec].
  by destruct (decode_sound _ _ _ _ _ Hb Hdec) as (_ & ? & _ & ?).
Qed.
Lemma ecount_pos f (tr : list event) : 0 < ecount f tr ↔ ∃ e, e ∈ tr ∧ f e = true.
Proof.
  induction tr as [|e tr IH]; [split; [by rewrite ecount_nil|by intros (e & Hin%elem_of_nil & _)]|].
  rewrite ecount_cons. assert (0 ≤ ecount f tr) by apply zlen_nonneg. destruct (f e) eqn:Hf.
  - split; [intros _; exists e; split; [by left|done]|lia].
  - rewrite Z.add_0_l, IH. split; intros (e' & Hin & He); exists e'; (split; [|done]); [by right|].
    apply elem_of_cons in Hin as [->|]; [congruence|done].
Qed.
Lemma delivered_acked g key tr j k payload :
  jrun g key tr j → inl (EDelivered k payload) ∈ tr →
  EAcked k ∈ sess tr ∧ event_ok (sess tr) (EDelivered k payload) ∧ event_ok (sess tr) (EAcked k).
Proof.
  intros Hr%jrun_srun Hin%elem_of_sess. pose proof (srun_acks (SB := joined) _ _ _ _ Hr) as Hacks.
  assert (EAcked k ∈ sess tr) as Hk.
  { destruct (srun_balance (SB := joined) _ _ _ _ k Hr) as [Hf _].
    pose proof (reader_credit_nonneg k (y_reader (j_sys j))). pose proof (credit_range true k (y_session (j_sys j))).
    assert (0 < ecount (is_delivered k) (sess tr)) as Hd.
    { apply ecount_pos. exists (EDelivered k payload). split; [done|]. cbn. by rewrite bool_decide_true. }
    assert (0 < ecount (is_acked k) (sess tr)) as (e & Hin' & He)%ecount_pos by lia.
    destruct e; try done. cbn in He. by apply bool_decide_eq_true in He as ->. }
  split_and!; [done|by apply (ak_events _ _ Hacks)..].
Qed.

(** C2: from the subprocess to the client: every frame the client receives in a generation
    is the payload of an authenticated packet of that generation, which names the frame's
    correlation; the subprocess had acknowledged the assignment of that correlation in
    another; the client had assigned the correlation to the frame's connection; and the
    connection had been announced in a third. The packets carry the handle of the frame,
    unless the client assigns one correlation to two connections ([deliverIPCFrame]
    compares handles before it takes the lock again). For each connection and correlation,
    there are at most as many frames received as assignments made. *)
Theorem frames_end_to_end g key tr j :
  jrun g key tr j →
  (∀ v, inr (CReceived v) ∈ tr →
    vf_generation v = g
    ∧ (∃ o, authentic g key tr o ∧ ap_typ o = SubprocessConnectionOpen ∧ ap_handle o = vf_handle v)
    ∧ (∃ a, inr (CAssigned a) ∈ tr ∧ key_of a = frame_key v ∧ ca_Generation a = g)
    ∧ extractIngressCorrelation (vf_frame v) = Some (Ok (vf_correlation v))
    ∧ ∃ f ack, authentic g key tr f ∧ ap_typ f = SubprocessVerifiedIngress ∧ ap_payload f = vf_frame v
        ∧ authentic g key tr ack ∧ ap_typ ack = SubprocessAssignmentACK ∧ ap_status ack = SubprocessACKPositive
        ∧ ap_correlation ack = vf_correlation v ∧ ap_handle ack = ap_handle f
        ∧ ((∀ a a', inr (CAssigned a) ∈ tr → inr (CAssigned a') ∈ tr → ca_CorrelationID a = ca_CorrelationID a' →
              ca_ConnectionHandle a = ca_ConnectionHandle a') → ap_handle f = vf_handle v))
  ∧ ∀ k, jcount (is_received k) tr ≤ jcount (is_assigned k) tr.
Proof.
  intros Hr. pose proof (jrun_jinv _ _ _ _ Hr) as Hi. split.
  - intros v Hv. destruct (ji_received _ _ _ Hi v Hv) as (Hg & (a & Ha & Hk & Hag) & h & Hd & (a' & Ha' & Hk' & _)).
    destruct (ji_assigned _ _ _ Hi a Ha) as [_ (bo & o & Ho & Hot & Hoh)].
    destruct (delivered_acked _ _ _ _ _ _ Hr Hd) as (_ & [Hx (bf & f & Hf & Hft & Hfh & Hfp)] & (ba & ack & Hack & Hat & Hak & Has)).
    unfold key_of in Hk, Hk'. injection Hk as Hkh Hkc. injection Hk' as Hkh' Hkc'. injection Hak as Hah Hac.
    split; [done|]. split; [exists o; split; [by eapply received_authentic|split; [done|congruence]]|].
    split; [exists a; split_and!; [done| |done]; unfold key_of, frame_key; by rewrite Hkh, Hkc|]. split; [done|].
    exists f, ack. split; [by eapply received_authentic|]. do 2 (split; [done|]).
    split; [by eapply received_authentic|]. do 3 (split; [done|]). split; [by rewrite Hah, Hfh|].
    intros Huniq. rewrite Hfh. cbn. rewrite <-Hkh, <-Hkh'. apply Huniq; [done..|congruence].
  - intros k. pose proof (jrun_balance _ _ _ _ k Hr). pose proof (queued_nonneg k (b_verified (j_broker j))).
    pose proof (expected_range k (j_broker j)). unfold held in *. lia.
Qed.

(** ** Runs step by step *)

Inductive jmove :=
| JAssign (now : Z) (a : ConnectionAssignment) | JRecv
| JAdmit (i : Z) (a : ConnectionAssignment) | JRegister (i : Z) (a : ConnectionAssignment) (now : Z)
| JRead (now : Z) (buffer : bytes) | JNotify | JLookup | JDeliver (now : Z).

Definition jmove_step (ch : { ord : mapOrder | range_order ord }) (m : jmove) (j : joint) : option (list jevent * joint) :=
  let y := j_sys j in
  let s := y_session y in
  let on_broker b := Joint (with_session (set_broker b s) y) (j_seen j) in
  match m with
  | JAssign now a =>
      let '(b, r) := assign_begin now a (ss_broker s) in
      Some (inr <$> match r with Err _ => [] | _ => [CAssigned a] end, on_broker b)
  | JRecv => '(v, b) ← recv_verified (ss_broker s); Some ([inr (CReceived v)], on_broker b)
  | JAdmit i a =>
      match admit_op a s, y_threads y !! i with
      | (s, Some p), None =>
          if bool_decide (zlen (ca_CorrelationID a) = CorrelationBytes)
          then Some ([], Joint (with_thread i s p y) (j_seen j)) else None
      | _, _ => None
      end
  | JRegister i a now =>
      let '(s, p) := register now a s in
      match y_threads y !! i with
      | Some (PRegister a') =>
          if bool_decide (a' = a) then Some (inl <$> registered_obs a p, Joint (with_thread i s p y) (j_seen j)) else None
      | _ => None
      end
  | JRead now buffer =>
      match y_reader y with
      | RRead =>
          if bool_decide (Bytes buffer ∧ zlen buffer ≤ MaxAuthenticatedPacketBytes) then
            let '(s', sequence, r) := read_packet (SB := alone) ch now buffer (y_sequence y) s in
            Some (inl <$> received_obs buffer s (y_sequence y) r, Joint (Sys s' (y_threads y) r sequence) (j_seen j))
          else None
      | _ => None
      end
  | JNotify =>
      match y_reader y with
      | RNotify w status =>
          Some ([], Joint (with_reader (set_waiters (notify w status (ss_waiters s)) s) RRead y) (j_seen j))
      | _ => None
      end
  | JLookup => match y_reader y with RDeliver _ _ _ => Some ([], Joint y (ss_broker s)) | _ => None end
  | JDeliver now =>
      match y_reader y with
      | RDeliver h c payload =>
          let '(s, r) := read_deliver (SB := alone) now h c payload (j_seen j) s in
          Some ([inl (EDelivered (h, c) payload)], Joint (with_reader s r y) (j_seen j))
      | _ => None
      end
  end.
Definition jplay (ch : { ord : mapOrder | range_order ord }) (ms : list jmove) : list jevent * joint → option (list jevent * joint) :=
  λ s, foldl (λ o m, '(tr, j) ← o; '(es, j) ← jmove_step ch m j; Some (tr ++ es, j)) (Some s) ms.

Lemma received_obs_delivers buffer (s : session) seq r k f : EDelivered k f ∉ received_obs buffer s seq r.
Proof.
  unfold received_obs. destruct (decodeAuthenticatedPacket _ _ _ _) as [p|e|]; [|apply not_elem_of_nil..].
  intros [H|H]%elem_of_cons; [done|]. destruct r; try by apply elem_of_nil in H.
  destruct (_ =? _); [|by apply elem_of_nil in H]. by apply list_elem_of_singleton in H.
Qed.
Lemma jmove_jstep ch m j es j' : jmove_step ch m j = Some (es, j') → jstep j es j'.
Proof.
  destruct j as [y seen]. destruct m as [now a| |i a|i a now|now buffer| | |now]; cbn; intros H.
  - destruct (assign_begin now a _) as [b r] eqn:Ha. injection H as <- <-. apply j_client. by apply (c_assign now a _ _ r).
  - destruct (recv_verified _) as [[v b]|] eqn:Hv; [|done]. injection H as <- <-. apply (j_client _ _ [CReceived v]). by constructor.
  - destruct (admit_op a (y_session y)) as [s [p|]] eqn:Ha; [|done]. destruct (y_threads y !! i) eqn:Hi; [done|].
    case_bool_decide; [|done]. injection H as <- <-. apply (j_session y seen []); [by eapply y_admit|intros ??; apply not_elem_of_nil].
  - destruct (register now a (y_session y)) as [s p] eqn:Hreg. destruct (y_threads y !! i) as [[]|] eqn:Hi; try done.
    case_bool_decide; [|done]. injection H as <- <-. subst. apply j_session; [by eapply y_register|].
    intros k f. unfold registered_obs. destruct p; try apply not_elem_of_nil. by intros ?%list_elem_of_singleton.
  - destruct (y_reader y) eqn:Hrd; try done. case_bool_decide as Hb; [|done]. destruct Hb as [Hb Hl].
    destruct (read_packet _ _ _ _ _) as [[s' sq] r] eqn:Hread. injection H as <- <-. apply j_session.
    + by apply (y_read (SB := alone) ch now).
    + intros k f. apply received_obs_delivers.
  - destruct (y_reader y) eqn:Hrd; try done. injection H as <- <-.
    apply (j_session y seen []); [by apply y_notify|intros ??; apply not_elem_of_nil].
  - destruct (y_reader y) eqn:Hrd; try done. injection H as <- <-. by eapply j_lookup.
  - destruct (y_reader y) eqn:Hrd; try done. injection H as <- <-.
    exact (j_deliver now _ _ _ _ _ y seen Hrd eq_refl).
Qed.
Lemma jplay_jrun g key ch ms tr j tr' j' :
  jrun g key tr j → jplay ch ms (tr, j) = Some (tr', j') → jrun g key tr' j'.
Proof.
  unfold jplay. revert tr j. induction ms as [|m ms IH]; intros tr j Hj H; [by injection H as <- <-|].
  cbn in H. destruct (jmove_step ch m j) as [[es j1]|] eqn:Hm; cbn in H.
  - eapply IH; [|exact H]. eapply jrun_step; [done|]. by eapply jmove_jstep.
  - exfalso. clear -H. induction ms; [done|]. by apply IHms.
Qed.
End joint.

(** ** A frame, from the announcement of its connection to the client *)
Module jdemo.
Definition start_b : ingressBroker unit unit := activate 7 (Some tt) (Some tt) (newIngressBroker 2).
Definition j0 : joint := Joint (start 7 sample_key start_b) start_b.
Definition announced : bytes := Eval vm_compute in sdemo.ok [] (encodeConnectionOpenPacket sample_key 7 1 5).
Definition ack : bytes := Eval vm_compute in sdemo.ok [] (encodeACKPacket sample_key 7 2 5 demo.correlation SubprocessACKPositive).
Definition frame : bytes := Eval vm_compute in sdemo.ok [] (encodeVerifiedPacket sample_key 7 3 5 sdemo.payload).
Definition moves_ : list jmove :=
  [JRead 0 announced; JAssign 0 sdemo.a; JAdmit 1 sdemo.a; JRegister 1 sdemo.a 0; JRead 0 ack; JNotify;
   JRead Second frame; JLookup; JDeliver Second; JRecv].
Definition final : list jevent * joint := Eval vm_compute in default ([], j0) (jplay sdemo.order moves_ ([], j0)).
Definition received_frame : verifiedFrameValue := VerifiedFrame 7 5 demo.correlation sdemo.payload (4 * Second).

Lemma final_run : jrun 7 sample_key final.1 final.2.
Proof.
  assert (jplay sdemo.order moves_ ([], j0) = Some (final.1, final.2)) as Hp by (vm_compute; reflexivity).
  apply (jplay_jrun 7 sample_key sdemo.order moves_ [] j0); [|exact Hp].
  apply (jrun_start 7 sample_key (Some tt) (Some tt) (newIngressBroker 2)).
Qed.
Lemma final_received : inr (CReceived received_frame) ∈ final.1.
Proof.
  assert (last final.1 = Some (inr (CReceived received_frame))) as H by (vm_compute; reflexivity).
  by apply last_Some_elem_of.
Qed.

(** Between the two critical sections of [deliverIPCFrame] the client gives the correlation
    to another connection: the frame of connection 5 is published as one of connection 6. *)
Definition reply (seq h : Z) : bytes := sdemo.ok [] (encodeConnectionOpenPacket sample_key 7 seq h).
Definition assignment (h : Z) (c : bytes) : ConnectionAssignment := Assignment 7 h c (4 * Second).
Definition race : list jmove := Eval vm_compute in
  [JRead 0 (reply 1 5); JRead 0 (reply 2 6); JAssign 0 sdemo.a; JAdmit 1 sdemo.a; JRegister 1 sdemo.a 0;
   JRead 0 (sdemo.ok [] (encodeACKPacket sample_key 7 3 5 demo.correlation SubprocessACKPositive)); JNotify;
   JRead Second (sdemo.ok [] (encodeVerifiedPacket sample_key 7 4 5 sdemo.payload)); JLookup;
   JAssign Second (assignment 5 (2 :: zrep 15 0)); JAssign Second (assignment 6 demo.correlation);
   JDeliver Second; JRecv].
Example reassigned :
  drop 7 (default ([], j0) (jplay sdemo.order race ([], j0))).1
  = [inr (CAssigned (assignment 6 demo.correlation)); inl (EDelivered (5, demo.correlation) sdemo.payload);
     inr (CReceived (VerifiedFrame 7 6 demo.correlation sdemo.payload (4 * Second)))].
Proof. vm_compute. reflexivity. Qed.
End jdemo.

Lemma frames_end_to_end_witness :
  inr (CReceived jdemo.received_frame) ∈ jdemo.final.1
  ∧ (∃ a, inr (CAssigned a) ∈ jdemo.final.1 ∧ key_of a = frame_key jdemo.received_frame)
  ∧ ∃ f, authentic 7 sample_key jdemo.final.1 f ∧ ap_payload f = sdemo.payload.
Proof.
  split; [exact jdemo.final_received|].
  destruct (frames_end_to_end 7 sample_key _ _ jdemo.final_run) as [H _].
  destruct (H _ jdemo.final_received) as (_ & _ & (a & Ha & Hk & _) & _ & f & _ & Hf & _ & Hp & _).
  split; [exists a; exact (conj Ha Hk)|exists f; exact (conj Hf Hp)].
Defined.
