(* ===== verification/Callback.v ===== *)
(** * The native callbacks of the embedded transport (embedded_ingress.go)

    The native library calls two process-wide function pointers; the generation that
    is current answers them, behind a gate that [closeGate] shuts and [inFlight]
    drains. [callOnAttachedThread] (embedded.go) wraps the calls in the other
    direction. The functions here are the sections between which goroutines and
    native threads interleave; CallbackSys.v interleaves them. *)
From S2P Require Import Prelude GoInt Abi Protobuf Broker Session.

(** What [fail] is called with. *)
Inductive callbackError :=
| CbIngress (e : IngressError)
| CbNullPointer.

#[export] Instance callbackError_eq_dec : EqDecision callbackError.
Proof. solve_decision. Defined.

(** [callbackGeneration]; [cg_broker] names its broker, [cg_fatalWake] is the buffer
    of the channel (capacity 1), [cg_wakeClosed] whether the channel is closed. *)
Record callbackGeneration := CallbackGeneration {
  cg_id : Z;
  cg_broker : Z;
  cg_accepting : bool;
  cg_inFlight : Z;
  cg_fatalOnce : bool;
  cg_fatalWake : list callbackError;
  cg_wakeClosed : bool;
}.

Definition newCallbackGeneration (id broker : Z) : callbackGeneration :=
  CallbackGeneration id broker true 0 false [] false.

Definition set_callback_gate (accepting : bool) (inFlight : Z) (g : callbackGeneration) : callbackGeneration :=
  CallbackGeneration (cg_id g) (cg_broker g) accepting inFlight (cg_fatalOnce g) (cg_fatalWake g)
    (cg_wakeClosed g).
Definition set_wake (fatalOnce : bool) (wake : list callbackError) (closed : bool)
    (g : callbackGeneration) : callbackGeneration :=
  CallbackGeneration (cg_id g) (cg_broker g) (cg_accepting g) (cg_inFlight g) fatalOnce wake closed.

Definition enter (g : callbackGeneration) : callbackGeneration * bool :=
  if negb (cg_accepting g) then (g, false)
  else (set_callback_gate (cg_accepting g) (cg_inFlight g + 1) g, true).

(** [g.inFlight.Done()]. *)
Definition leave (g : callbackGeneration) : callbackGeneration :=
  set_callback_gate (cg_accepting g) (cg_inFlight g - 1) g.

Definition closeGate (g : callbackGeneration) : callbackGeneration :=
  set_callback_gate false (cg_inFlight g) g.

(** [g.inFlight.Wait()] returns. *)
Definition drained (g : callbackGeneration) : bool := cg_inFlight g =? 0.

(** A channel send or close: done, blocked, or a panic (the channel is closed). *)
Inductive chanResult (X : Type) := ChanDone (x : X) | ChanBlocked | ChanPanic.
Arguments ChanDone {X} x.
Arguments ChanBlocked {X}.
Arguments ChanPanic {X}.

Definition send_wake (err : callbackError) (g : callbackGeneration) : chanResult callbackGeneration :=
  if cg_wakeClosed g then ChanPanic
  else match cg_fatalWake g with
       | [] => ChanDone (set_wake (cg_fatalOnce g) [err] false g)
       | _ :: _ => ChanBlocked
       end.

Definition close_wake (g : callbackGeneration) : chanResult callbackGeneration :=
  if cg_wakeClosed g then ChanPanic
  else ChanDone (set_wake (cg_fatalOnce g) (cg_fatalWake g) true g).

(** The [fatalOnce.Do] of [fail]. *)
Definition fail_once (err : callbackError) (g : callbackGeneration) : chanResult callbackGeneration :=
  if cg_fatalOnce g then ChanDone g
  else
    let g := set_wake true (cg_fatalWake g) (cg_wakeClosed g) g in
    let g := closeGate g in
    match send_wake err g with
    | ChanDone g => close_wake g
    | ChanBlocked => ChanBlocked
    | ChanPanic => ChanPanic
    end.

(** A receive of the supervisor: the error, or the zero value of a closed channel. *)
Definition recv_wake (g : callbackGeneration) : option (option callbackError * callbackGeneration) :=
  match cg_fatalWake g with
  | err :: rest => Some (Some err, set_wake (cg_fatalOnce g) rest (cg_wakeClosed g) g)
  | [] => if cg_wakeClosed g then Some (None, g) else None
  end.

(** What the native side calls Go with, and the [assign] closure of
    [startIngressGeneration] Gate calls. *)
Inductive callback :=
| COpen (handle : Z)
| CVerified (correlationPtr framePtr frameLen expiresUnixMS : Z)
| CAssign (a : ConnectionAssignment).

(** The rest of a call of [fail] on generation [g]: revoke the broker's generation,
    then the [fatalOnce]. *)
Inductive failCall :=
| Revoke (g : Z) (err : callbackError)
| Wake (g : Z) (err : callbackError).
Definition fail_calls (g : Z) (err : callbackError) : list failCall := [Revoke g err; Wake g err].

Section code.
Context {A : IngressAbi}.
(** The brokers' [assignNative] and [fatal] are closures of a generation, named by
    its id. *)
Abbreviation broker := (ingressBroker Z Z).

(** [copyNativeBytes]: the native memory at the time of the call. *)
Definition copyNativeBytes (memory : Z → Z → bytes) (pointer length : Z) : bytes :=
  memory pointer length.

(** The calls of [fail] a broker operation leaves: the broker's own fatal callback,
    then the callback's [g.fail(err)]. *)
Definition outcome_calls (g : Z) (o : @outcome Z) : list failCall :=
  match o_fatal o with Some (f, e) => fail_calls f (CbIngress e) | None => [] end
  ++ match o_err o with Some e => fail_calls g (CbIngress e) | None => [] end.

(** The body of [openFn] after [enter]. *)
Definition openFn (ord : mapOrder) (now g handle : Z) (b : broker) : broker * list failCall :=
  let '(b, o) := open ord now g handle b in (b, outcome_calls g o).

(** The body of [verifiedFn] after [enter]. *)
Definition verifiedFn (memory : Z → Z → bytes)
    (now g correlationPtr framePtr frameLen expiresUnixMS : Z) (b : broker) : broker * list failCall :=
  if (correlationPtr =? 0) || (framePtr =? 0) then (b, fail_calls g CbNullPointer)
  else if (frameLen <? MinIngressFrameBytes) || (MaxIngressFrameBytes <? frameLen)
  then (b, fail_calls g (CbIngress ErrIngressFrame))
  else
    let correlation := copyNativeBytes memory correlationPtr CorrelationBytes in
    let frame := copyNativeBytes memory framePtr frameLen in
    let '(b, o) := deliverCallback now g correlation frame expiresUnixMS b in
    (b, outcome_calls g o).

(** [callOnAttachedThread]: the attach code, then the function. *)
Definition callOnAttachedThread {X} (attach : Z) (fn : X) : option X :=
  if negb (attach =? 0) then None else Some fn.

(** [assignIngress]: [attach] and [native] are the codes of the two native calls. *)
Definition assignIngress (attach native : Z) : Z :=
  match callOnAttachedThread attach native with
  | Some rc => rc
  | None => embeddedAssignmentTransportFailure
  end.
End code.
