(* ===== verification/CallbackSys.v ===== *)
(** * The embedded transport as a concurrent system

    Any number of generations, each with its supervisor ([startIngressGeneration],
    [stopIngressGeneration]), native threads calling back at any time, Gate calling
    [assign], one process-wide current generation, and one broker per server. The
    theorems: a callback that got past the gate is always waited for, so nothing of a
    generation runs once it is drained; [fail] wakes the supervisor at most once and
    never blocks or panics; one generation at a time answers the native pointers. *)
From S2P Require Import Prelude GoInt Abi Protobuf Broker BrokerSys Session SessionSpec Callback.

(** Where the supervisor of a generation is; [installed]: its generation is current. *)
Inductive sphase :=
| SActivate | SSwap | SRegister
| SAbortGate (installed : bool) | SAbortDrain (installed : bool) | SAbortDeactivate (installed : bool)
| SRunning | SStopGate | SStopDeactivate | SUnregister | SStopDrain
| SClear | SEnded.

(** Where a thread inside a callback is. *)
Inductive cphase :=
| CEnter (cb : callback)
| CBody (cb : callback)
| CFails (calls : list failCall)
| CStuck.

Section system.
Context {A : IngressAbi}.
Abbreviation broker := (ingressBroker Z Z).

Record process := Process {
  p_brokers : gmap Z broker;
  p_generations : gmap Z callbackGeneration;
  p_current : option Z;              (* [callbackRoots.current] *)
  p_supervisors : gmap Z sphase;
  p_threads : gmap Z (Z * cphase);   (* with the generation it loaded *)
}.

Definition set_generation (g : Z) (G : callbackGeneration) (p : process) : process :=
  Process (p_brokers p) (<[g := G]> (p_generations p)) (p_current p) (p_supervisors p) (p_threads p).
Definition set_phase (g : Z) (ph : sphase) (p : process) : process :=
  Process (p_brokers p) (p_generations p) (p_current p) (<[g := ph]> (p_supervisors p)) (p_threads p).
Definition set_current (c : option Z) (p : process) : process :=
  Process (p_brokers p) (p_generations p) c (p_supervisors p) (p_threads p).
Definition set_thread (t : Z) (g : Z) (ph : cphase) (p : process) : process :=
  Process (p_brokers p) (p_generations p) (p_current p) (p_supervisors p) (<[t := (g, ph)]> (p_threads p)).
Definition end_thread (t : Z) (p : process) : process :=
  Process (p_brokers p) (p_generations p) (p_current p) (p_supervisors p) (delete t (p_threads p)).
Definition map_broker (i : Z) (f : broker → broker) (p : process) : process :=
  Process (alter f i (p_brokers p)) (p_generations p) (p_current p) (p_supervisors p) (p_threads p).

(** [roots.current.CompareAndSwap(generation, nil)]. *)
Definition clearCurrentGeneration (g : Z) (p : process) : process :=
  if bool_decide (p_current p = Some g) then set_current None p else p.

(** The next section of [startIngressGeneration]; [rc] is the code of
    [setIngressCallbacks]. [None]: it waits, or it has ended. *)
Definition startIngressGeneration (rc : Z) (G : callbackGeneration) (ph : sphase) (p : process)
    : option process :=
  let g := cg_id G in
  match ph with
  | SActivate =>
      Some (set_phase g SSwap (map_broker (cg_broker G) (activate g (Some g) (Some g)) p))
  | SSwap =>
      match p_current p with
      | None => Some (set_phase g SRegister (set_current (Some g) p))
      | Some _ => Some (set_phase g (SAbortGate false) p)
      end
  | SRegister =>
      if negb (rc =? CallbackRegistrationOK) then Some (set_phase g (SAbortGate true) p)
      else Some (set_phase g SRunning p)
  | SAbortGate i => Some (set_phase g (SAbortDrain i) (set_generation g (closeGate G) p))
  | SAbortDrain i => if drained G then Some (set_phase g (SAbortDeactivate i) p) else None
  | SAbortDeactivate i =>
      Some (set_phase g (if i then SClear else SEnded) (map_broker (cg_broker G) (deactivate g) p))
  | SClear => Some (set_phase g SEnded (clearCurrentGeneration g p))
  | _ => None
  end.

(** The next section of [stopIngressGeneration]. *)
Definition stopIngressGeneration (G : callbackGeneration) (ph : sphase) (p : process) : option process :=
  let g := cg_id G in
  match ph with
  | SStopGate => Some (set_phase g SStopDeactivate (set_generation g (closeGate G) p))
  | SStopDeactivate => Some (set_phase g SUnregister (map_broker (cg_broker G) (deactivate g) p))
  | SUnregister => Some (set_phase g SStopDrain p)
  | SStopDrain => if drained G then Some (set_phase g SClear p) else None
  | SClear => Some (set_phase g SEnded (clearCurrentGeneration g p))
  | _ => None
  end.

(** The body of a callback, between [enter] and [leave]. *)
Definition callback_body (ord : mapOrder) (memory : Z → Z → bytes) (now g : Z) (cb : callback)
    (b : broker) : broker * list failCall :=
  match cb with
  | COpen h => openFn ord now g h b
  | CVerified c f n ms => verifiedFn memory now g c f n ms b
  | CAssign _ => (b, [])
  end.

(** One step of a call of [fail]. *)
Definition fail_step (c : failCall) (p : process) : chanResult process :=
  match c with
  | Revoke f _ =>
      match p_generations p !! f with
      | Some G => ChanDone (map_broker (cg_broker G) (failGeneration f) p)
      | None => ChanDone p
      end
  | Wake f err =>
      match p_generations p !! f with
      | Some G =>
          match fail_once err G with
          | ChanDone G => ChanDone (set_generation f G p)
          | ChanBlocked => ChanBlocked
          | ChanPanic => ChanPanic
          end
      | None => ChanDone p
      end
  end.

Inductive pstep : process → process → Prop :=
(* the supervisors *)
| p_new g i p :
    p_generations p !! g = None → p_supervisors p !! g = None →
    pstep p (set_phase g SActivate (set_generation g (newCallbackGeneration g i) p))
| p_start g G ph rc p p' :
    p_generations p !! g = Some G → p_supervisors p !! g = Some ph →
    startIngressGeneration rc G ph p = Some p' → pstep p p'
| p_stop_requested g p :
    p_supervisors p !! g = Some SRunning → pstep p (set_phase g SStopGate p)
| p_stop g G ph p p' :
    p_generations p !! g = Some G → p_supervisors p !! g = Some ph →
    stopIngressGeneration G ph p = Some p' → pstep p p'
| p_woken g G err G' p :
    p_generations p !! g = Some G → recv_wake G = Some (err, G') →
    pstep p (set_generation g G' p)
(* the callbacks *)
| p_dispatch t g cb p :
    p_threads p !! t = None → p_current p = Some g → pstep p (set_thread t g (CEnter cb) p)
| p_assign t g a p :
    p_threads p !! t = None → is_Some (p_generations p !! g) →
    pstep p (set_thread t g (CEnter (CAssign a)) p)
| p_refused t g cb G p :
    p_threads p !! t = Some (g, CEnter cb) → p_generations p !! g = Some G →
    enter G = (G, false) → pstep p (end_thread t p)
| p_entered t g cb G G' p :
    p_threads p !! t = Some (g, CEnter cb) → p_generations p !! g = Some G →
    enter G = (G', true) → pstep p (set_thread t g (CBody cb) (set_generation g G' p))
| p_body t g cb G b b' calls ord memory now p :
    p_threads p !! t = Some (g, CBody cb) → p_generations p !! g = Some G →
    p_brokers p !! cg_broker G = Some b → range_order ord →
    callback_body ord memory now g cb b = (b', calls) →
    pstep p (set_thread t g (CFails calls) (map_broker (cg_broker G) (λ _, b') p))
| p_fail t g c calls p p' :
    p_threads p !! t = Some (g, CFails (c :: calls)) → fail_step c p = ChanDone p' →
    pstep p (set_thread t g (CFails calls) p')
| p_stuck t g c calls p :
    p_threads p !! t = Some (g, CFails (c :: calls)) →
    fail_step c p = ChanBlocked ∨ fail_step c p = ChanPanic →
    pstep p (set_thread t g CStuck p)
| p_leave t g G p :
    p_threads p !! t = Some (g, CFails []) → p_generations p !! g = Some G →
    pstep p (end_thread t (set_generation g (leave G) p))
(* the other users of a broker *)
| p_other i b b' p :
    p_brokers p !! i = Some b → sink_other b b' → pstep p (map_broker i (λ _, b') p).

Inductive preach : process → Prop :=
| preach_start brokers : (∀ i b, brokers !! i = Some b → b_active b = false) →
    preach (Process brokers ∅ None ∅ ∅)
| preach_step p p' : preach p → pstep p p' → preach p'.

(** ** The gate *)

(** The callback is past [enter]. *)
Definition past_gate (ph : cphase) : bool := match ph with CEnter _ => false | _ => true end.
Definition is_inside (g : Z) (e : Z * (Z * cphase)) : Prop := e.2.1 = g ∧ past_gate e.2.2 = true.
#[export] Instance is_inside_dec g e : Decision (is_inside g e).
Proof. unfold is_inside. apply _. Defined.
Definition inside (g : Z) (th : gmap Z (Z * cphase)) : Z := Z.of_nat (size (filter (is_inside g) th)).

Lemma inside_delete g t x th :
  th !! t = Some x →
  inside g th = inside g (delete t th) + (if decide (is_inside g (t, x)) then 1 else 0).
Proof.
  intros Ht. unfold inside. rewrite map_filter_delete, map_size_delete.
  case_decide as Hin.
  - assert (filter (is_inside g) th !! t = Some x) as Hf by by apply map_lookup_filter_Some.
    rewrite Hf. assert (size (filter (is_inside g) th) ≠ 0%nat); [|lia].
    intros Hz%map_size_empty_iff. by rewrite Hz, lookup_empty in Hf.
  - assert (filter (is_inside g) th !! t = None) as ->.
    { apply map_lookup_filter_None. right. intros y ?. by simplify_eq. }
    cbn; lia.
Qed.

Lemma inside_insert g t x th :
  inside g (<[t := x]> th)
  = inside g (delete t th) + (if decide (is_inside g (t, x)) then 1 else 0).
Proof.
  rewrite (inside_delete g t x (<[t := x]> th)) by apply lookup_insert_eq.
  by rewrite delete_insert_eq.
Qed.

Lemma inside_zero g th t ph :
  inside g th = 0 → th !! t = Some (g, ph) → past_gate ph = false.
Proof.
  intros Hz Ht. rewrite (inside_delete g t (g, ph)) in Hz by done. revert Hz.
  unfold inside. case_decide as Hin; [lia|]. intros _. apply not_true_is_false. intros Hp.
  by apply Hin.
Qed.

(** ** The invariant *)

Definition gate_closed (ph : sphase) : bool :=
  match ph with
  | SAbortDrain _ | SAbortDeactivate _ | SStopDeactivate | SUnregister | SStopDrain | SClear | SEnded => true
  | _ => false
  end.
Definition waited (ph : sphase) : bool :=
  match ph with SAbortDeactivate _ | SClear | SEnded => true | _ => false end.
Definition installed (ph : sphase) : bool :=
  match ph with
  | SAbortGate i | SAbortDrain i | SAbortDeactivate i => i
  | SRegister | SRunning | SStopGate | SStopDeactivate | SUnregister | SStopDrain | SClear => true
  | SActivate | SSwap | SEnded => false
  end.
Definition may_live (ph : sphase) : bool :=
  match ph with SActivate | SUnregister | SStopDrain | SClear | SEnded => false | _ => true end.

Definition wake_ok (G : callbackGeneration) : Prop :=
  if cg_fatalOnce G
  then cg_wakeClosed G = true ∧ zlen (cg_fatalWake G) ≤ 1 ∧ cg_accepting G = false
  else cg_wakeClosed G = false ∧ cg_fatalWake G = [].

Record pinv (p : process) : Prop := {
  pi_ids : ∀ g G, p_generations p !! g = Some G → cg_id G = g;
  pi_same : ∀ g, is_Some (p_generations p !! g) ↔ is_Some (p_supervisors p !! g);
  pi_threads : ∀ t g ph, p_threads p !! t = Some (g, ph) → is_Some (p_generations p !! g) ∧ ph ≠ CStuck;
  pi_count : ∀ g G, p_generations p !! g = Some G → cg_inFlight G = inside g (p_threads p);
  pi_gate : ∀ g G ph, p_generations p !! g = Some G → p_supervisors p !! g = Some ph →
    gate_closed ph = true → cg_accepting G = false;
  pi_waited : ∀ g G ph, p_generations p !! g = Some G → p_supervisors p !! g = Some ph →
    waited ph = true → cg_inFlight G = 0;
  pi_current : ∀ g, p_current p = Some g ↔ ∃ ph, p_supervisors p !! g = Some ph ∧ installed ph = true;
  pi_wake : ∀ g G, p_generations p !! g = Some G → wake_ok G;
  pi_live : ∀ i b, p_brokers p !! i = Some b → b_active b = true →
    ∃ G ph, p_generations p !! b_generation b = Some G ∧ cg_broker G = i
      ∧ p_supervisors p !! b_generation b = Some ph ∧ may_live ph = true;
}.

(** A broker operation that does not start a generation. *)
Definition no_start (b b' : broker) : Prop :=
  b_generation b' = b_generation b ∧ (b_active b' = true → b_active b = true).

Lemma open_no_start ord now g h b : range_order ord → no_start b (open ord now g h b).1.
Proof.
  intros Hord. pose proof (BrokerInv.evict_frame ord now b Hord) as (Ha & Hg & _). unfold open.
  destruct (negb (g =? _)); [done|]. destruct (negb (b_active b)); [done|].
  destruct (h =? 0); [done|]. case_bool_decide; [done|].
  destruct (evictStaleHandlesLocked ord now b) as [b1 ok]. cbn in *. unfold no_start.
  destruct (negb ok); [done|]. case_match; cbn; [|done]. by rewrite Ha, Hg.
Qed.
Lemma deliver_no_start now g c frame ms b : no_start b (deliver now g c frame ms b).1.
Proof.
  destruct (closeCorrelation_gate g c b) as [Hg Ha]. unfold deliver.
  do 2 (destruct (_ || _) in |- *; [unfold no_start; cbn; by rewrite Hg, Ha|]).
  do 2 (destruct (negb _) in |- *; [done|]). repeat case_match; done.
Qed.
Lemma body_no_start ord memory now g cb b :
  range_order ord → no_start b (callback_body ord memory now g cb b).1.
Proof.
  intros Hord. destruct cb as [h|c f n ms|a]; cbn; [| |done].
  - unfold openFn. pose proof (open_no_start ord now g h b Hord). by destruct (open _ _ _ _ _).
  - unfold verifiedFn, deliverCallback. do 2 (destruct (_ || _) in |- *; [done|]).
    pose proof (deliver_no_start now g (copyNativeBytes memory c CorrelationBytes)
      (copyNativeBytes memory f n) ms b). by destruct (deliver _ _ _ _ _ _).
Qed.
Lemma failGeneration_no_start g b : no_start b (failGeneration g b).
Proof. unfold failGeneration. by case_match. Qed.
Lemma deactivate_no_start g b : no_start b (deactivate g b).
Proof. unfold deactivate. by case_match. Qed.

Lemma fail_once_done err G :
  wake_ok G →
  ∃ G', fail_once err G = ChanDone G' ∧ cg_id G' = cg_id G ∧ cg_broker G' = cg_broker G
    ∧ cg_inFlight G' = cg_inFlight G ∧ cg_accepting G' = false ∧ wake_ok G'.
Proof.
  unfold wake_ok, fail_once. destruct (cg_fatalOnce G) eqn:Ho.
  - intros (Hc & Hl & Ha). exists G. by rewrite Ho.
  - intros [Hc Hw]. unfold send_wake, close_wake. cbn. rewrite Hc, Hw. cbn. eexists. split_and!; done.
Qed.

(** ** Preservation, by the kind of change *)

Lemma pinv_broker i f p :
  pinv p → (∀ b, p_brokers p !! i = Some b → no_start b (f b)) → pinv (map_broker i f p).
Proof.
  intros [] Hf. split; cbn; try done. intros j b' Hb' Ha.
  apply lookup_alter_Some in Hb' as [(-> & b & Hb & ->)|[_ Hb']]; [|by apply pi_live0].
  destruct (Hf b Hb) as [Hg Hact]. rewrite Hg. eauto.
Qed.

Lemma pinv_generation g G G' p :
  pinv p → p_generations p !! g = Some G →
  cg_id G' = cg_id G → cg_broker G' = cg_broker G → cg_inFlight G' = cg_inFlight G →
  (cg_accepting G = false → cg_accepting G' = false) → wake_ok G' → pinv (set_generation g G' p).
Proof.
  intros [] HG Hid Hbr Hin Hacc Hwake. split; cbn; try done.
  - intros g' G0 [[<- <-]|[_ ?]]%lookup_insert_Some; [rewrite Hid|]; eauto.
  - intros g'. rewrite lookup_insert_is_Some', <-pi_same0. naive_solver.
  - intros t g' ph Ht. rewrite lookup_insert_is_Some'. destruct (pi_threads0 t g' ph Ht). auto.
  - intros g' G0 [[<- <-]|[_ ?]]%lookup_insert_Some; [rewrite Hin|]; eauto.
  - intros g' G0 ph [[<- <-]|[_ ?]]%lookup_insert_Some; eauto.
  - intros g' G0 ph [[<- <-]|[_ ?]]%lookup_insert_Some; [rewrite Hin|]; eauto.
  - intros g' G0 [[<- <-]|[_ ?]]%lookup_insert_Some; eauto.
  - intros i b Hb Ha. destruct (pi_live0 i b Hb Ha) as (G0 & ph & HG0 & Hi & Hph & Hl).
    destruct (decide (b_generation b = g)) as [Heq|Hne].
    + exists G', ph. rewrite Heq in *. rewrite lookup_insert_eq. simplify_eq. by split_and!.
    + exists G0, ph. by rewrite lookup_insert_ne.
Qed.

Lemma pinv_phase g ph ph' p :
  pinv p → p_supervisors p !! g = Some ph → installed ph' = installed ph →
  (gate_closed ph' = true → gate_closed ph = true ∨
     ∀ G, p_generations p !! g = Some G → cg_accepting G = false) →
  (waited ph' = true → ∀ G, p_generations p !! g = Some G → cg_inFlight G = 0) →
  (may_live ph' = true ∨ ∀ i b, p_brokers p !! i = Some b → b_active b = true → b_generation b ≠ g) →
  pinv (set_phase g ph' p).
Proof.
  intros [] Hph Hinst Hgate Hwait Hlive. split; cbn; try done.
  - intros g'. rewrite lookup_insert_is_Some', pi_same0. naive_solver.
  - intros g' G ph0 HG [[<- <-]|[_ ?]]%lookup_insert_Some Hc; [|by eauto].
    destruct (Hgate Hc); eauto.
  - intros g' G ph0 HG [[<- <-]|[_ ?]]%lookup_insert_Some Hc; eauto.
  - intros g'. rewrite pi_current0. destruct (decide (g = g')) as [<-|Hne].
    + rewrite lookup_insert_eq, Hph. naive_solver.
    + by rewrite lookup_insert_ne.
  - intros i b Hb Ha. destruct (pi_live0 i b Hb Ha) as (G & ph0 & HG & Hi & Hph0 & Hl).
    exists G. destruct (decide (g = b_generation b)) as [->|Hne].
    + exists ph'. rewrite lookup_insert_eq. destruct Hlive as [|Hno]; [done|]. by destruct (Hno i b Hb Ha).
    + exists ph0. by rewrite lookup_insert_ne.
Qed.

(** Threads change, nothing gets past a gate. *)
Lemma pinv_threads p th :
  pinv p →
  (∀ t g ph, th !! t = Some (g, ph) → is_Some (p_generations p !! g) ∧ ph ≠ CStuck) →
  (∀ g, inside g th = inside g (p_threads p)) →
  pinv (Process (p_brokers p) (p_generations p) (p_current p) (p_supervisors p) th).
Proof. intros [] Hth Hin. split; cbn; try done. intros g G HG. rewrite Hin. eauto. Qed.

Lemma pinv_set_thread t g ph ph0 p :
  pinv p → p_threads p !! t = Some (g, ph0) → past_gate ph = past_gate ph0 → ph ≠ CStuck →
  pinv (set_thread t g ph p).
Proof.
  intros Hp Ht Hpast Hns. apply pinv_threads; [done| |].
  - intros t' g' ph' [[<- [= <- <-]]|[_ ?]]%lookup_insert_Some; [|by eapply pi_threads].
    split; [|done]. by eapply pi_threads.
  - intros g'. rewrite inside_insert, (inside_delete g' t (g, ph0) (p_threads p)) by done.
    f_equal. apply decide_ext. unfold is_inside. cbn. by rewrite Hpast.
Qed.

Lemma pinv_end_thread t g ph0 p :
  pinv p → p_threads p !! t = Some (g, ph0) → past_gate ph0 = false → pinv (end_thread t p).
Proof.
  intros Hp Ht Hpast. apply pinv_threads; [done| |].
  - intros t' g' ph' [_ ?]%lookup_delete_Some. by eapply pi_threads.
  - intros g'. rewrite (inside_delete g' t (g, ph0) (p_threads p)) by done.
    rewrite decide_False; [lia|]. unfold is_inside. cbn. rewrite Hpast. naive_solver.
Qed.

Lemma pinv_new_thread t g cb p :
  pinv p → p_threads p !! t = None → is_Some (p_generations p !! g) →
  pinv (set_thread t g (CEnter cb) p).
Proof.
  intros Hp Ht Hg. apply pinv_threads; [done| |].
  - intros t' g' ph' [[<- [= <- <-]]|[_ ?]]%lookup_insert_Some; [done|by eapply pi_threads].
  - intros g'. rewrite inside_insert, delete_id by done.
    rewrite decide_False; [lia|]. unfold is_inside. cbn. naive_solver.
Qed.

(** [enter] and [leave] move the counter and the thread together. *)
Lemma pinv_count g G n th p :
  pinv p → p_generations p !! g = Some G →
  (∀ t g' ph, th !! t = Some (g', ph) → is_Some (p_generations p !! g') ∧ ph ≠ CStuck) →
  (∀ g', inside g' th = inside g' (p_threads p) + (if decide (g = g') then n else 0)) →
  (∀ ph, p_supervisors p !! g = Some ph → waited ph = false) →
  pinv (Process (p_brokers p) (<[g := set_callback_gate (cg_accepting G) (cg_inFlight G + n) G]> (p_generations p))
          (p_current p) (p_supervisors p) th).
Proof.
  intros [] HG Hth Hin Hwait. split; cbn; try done.
  - intros g' G0 [[<- <-]|[_ ?]]%lookup_insert_Some; cbn; eauto.
  - intros g'. rewrite lookup_insert_is_Some', <-pi_same0. naive_solver.
  - intros t' g' ph Ht. rewrite lookup_insert_is_Some'. destruct (Hth t' g' ph Ht). auto.
  - intros g' G0 [[<- <-]|[Hne ?]]%lookup_insert_Some; rewrite Hin; cbn.
    + rewrite decide_True by done. rewrite (pi_count0 g G HG). done.
    + rewrite decide_False by done. rewrite (pi_count0 g' G0) by done. lia.
  - intros g' G0 ph [[<- <-]|[_ ?]]%lookup_insert_Some; cbn; eauto.
  - intros g' G0 ph [[<- <-]|[_ ?]]%lookup_insert_Some Hph Hw; [|by eauto].
    by rewrite (Hwait ph Hph) in Hw.
  - intros g' G0 [[<- <-]|[_ ?]]%lookup_insert_Some; [|by eauto]. exact (pi_wake0 g G HG).
  - intros i b Hb Ha. destruct (pi_live0 i b Hb Ha) as (G0 & ph & HG0 & Hi & Hph & Hl).
    destruct (decide (b_generation b = g)) as [Heq|Hne].
    + rewrite Heq in *. eexists _, ph. rewrite lookup_insert_eq. simplify_eq. by split_and!.
    + exists G0, ph. by rewrite lookup_insert_ne.
Qed.

Lemma pinv_entered t g cb G G' p :
  pinv p → p_threads p !! t = Some (g, CEnter cb) → p_generations p !! g = Some G →
  enter G = (G', true) → pinv (set_thread t g (CBody cb) (set_generation g G' p)).
Proof.
  intros Hp Ht HG. unfold enter. destruct (cg_accepting G) eqn:Ha; [|done]. cbn. intros [= <-].
  rewrite <-Ha at 1. refine (pinv_count g G 1 _ p Hp HG _ _ _).
  - intros t' g' ph' [[<- [= <- <-]]|[_ ?]]%lookup_insert_Some; [by split|by eapply pi_threads].
  - intros g'. rewrite inside_insert, (inside_delete g' t _ (p_threads p) Ht). unfold is_inside. cbn.
    repeat case_decide; naive_solver lia.
  - intros ph Hph. destruct (waited ph) eqn:Hw; [|done].
    assert (gate_closed ph = true) as Hc by by destruct ph.
    rewrite (pi_gate p Hp g G ph HG Hph Hc) in Ha. done.
Qed.

Lemma pinv_leave t g G p :
  pinv p → p_threads p !! t = Some (g, CFails []) → p_generations p !! g = Some G →
  pinv (end_thread t (set_generation g (leave G) p)).
Proof.
  intros Hp Ht HG. refine (pinv_count g G (-1) _ p Hp HG _ _ _).
  - intros t' g' ph' [_ ?]%lookup_delete_Some. by eapply pi_threads.
  - intros g'. rewrite (inside_delete g' t _ (p_threads p) Ht). unfold is_inside. cbn.
    repeat case_decide; naive_solver lia.
  - intros ph Hph. destruct (waited ph) eqn:Hw; [|done].
    pose proof (pi_waited p Hp g G ph HG Hph Hw) as Hz. rewrite (pi_count p Hp g G HG) in Hz.
    by pose proof (inside_zero _ _ _ _ Hz Ht).
Qed.

(** A step of [fail] always gets through. *)
Lemma fail_step_done c p : pinv p → ∃ p', fail_step c p = ChanDone p' ∧ pinv p' ∧ p_threads p' = p_threads p.
Proof.
  intros Hp. destruct c as [f err|f err]; cbn.
  - destruct (p_generations p !! f) as [G|] eqn:HG; [|by exists p]. eexists. split_and!; [done| |done].
    apply pinv_broker; [done|]. intros b _. apply failGeneration_no_start.
  - destruct (p_generations p !! f) as [G|] eqn:HG; [|by exists p].
    destruct (fail_once_done err G (pi_wake p Hp f G HG)) as (G' & -> & Hid & Hbr & Hin & Ha & Hw).
    eexists. split_and!; [done| |done]. by apply (pinv_generation f G).
Qed.

(** A generation that may be live in a broker is that broker's. *)
Lemma not_live_after_deactivate g G p :
  pinv p → p_generations p !! g = Some G →
  ∀ i b, p_brokers (map_broker (cg_broker G) (deactivate g) p) !! i = Some b →
    b_active b = true → b_generation b ≠ g.
Proof.
  intros Hp HG i b Hb Ha Heq. cbn in Hb.
  apply lookup_alter_Some in Hb as [(<- & b0 & Hb0 & ->)|[Hne Hb]].
  - revert Ha Heq. unfold deactivate. destruct (b_generation b0 =? g) eqn:Hg; cbn; [done|lia].
  - destruct (pi_live p Hp i b Hb Ha) as (G0 & ph & HG0 & Hi & _). rewrite Heq in HG0. by simplify_eq.
Qed.

Lemma pinv_activate g G p :
  pinv p → p_generations p !! g = Some G → p_supervisors p !! g = Some SActivate →
  pinv (set_phase g SSwap (map_broker (cg_broker G) (activate g (Some g) (Some g)) p)).
Proof.
  intros Hp HG Hph. pose proof (pinv_phase g SActivate SSwap p Hp Hph eq_refl) as Hp'.
  destruct Hp' as []; [done|done|by left|]. split; cbn in *; try done.
  intros i b' Hb' Ha. apply lookup_alter_Some in Hb' as [(<- & b & Hb & ->)|[_ Hb']]; [|eauto].
  exists G, SSwap. cbn. by rewrite lookup_insert_eq.
Qed.

Lemma pinv_swap g p ph' c :
  pinv p → ∀ ph, p_supervisors p !! g = Some ph →
  may_live ph' = may_live ph → gate_closed ph' = gate_closed ph → waited ph' = waited ph →
  (p_current p = None ∧ c = Some g ∧ installed ph' = true
   ∨ p_current p = Some g ∧ c = None ∧ installed ph' = false) →
  pinv (set_phase g ph' (set_current c p)).
Proof.
  intros [] ph Hph Hl Hgc Hw Hc. split; cbn; try done.
  - intros g'. rewrite lookup_insert_is_Some', pi_same0. naive_solver.
  - intros g' G ph0 HG [[<- <-]|[_ ?]]%lookup_insert_Some; [rewrite Hgc|]; eauto.
  - intros g' G ph0 HG [[<- <-]|[_ ?]]%lookup_insert_Some; [rewrite Hw|]; eauto.
  - intros g'. destruct (decide (g = g')) as [<-|Hne].
    + rewrite lookup_insert_eq. destruct Hc as [(_ & -> & ?)|(_ & -> & ?)]; split; try done; [by eauto|].
      intros (? & [= <-] & ?). congruence.
    + rewrite lookup_insert_ne, <-pi_current0 by done.
      destruct Hc as [(-> & -> & _)|(-> & -> & _)]; split; congruence.
  - intros i b Hb Ha. destruct (pi_live0 i b Hb Ha) as (G & ph0 & HG & Hi & Hph0 & Hl0).
    exists G. destruct (decide (b_generation b = g)) as [Heq|Hne].
    + exists ph'. rewrite Heq in *. rewrite lookup_insert_eq. simplify_eq. split_and!; try done; congruence.
    + exists ph0. by rewrite lookup_insert_ne.
Qed.

Lemma pinv_clear g p :
  pinv p → p_supervisors p !! g = Some SClear → pinv (set_phase g SEnded (clearCurrentGeneration g p)).
Proof.
  intros Hp Hph. assert (p_current p = Some g) as Hc by (apply (pi_current p Hp); eauto).
  unfold clearCurrentGeneration. rewrite bool_decide_eq_true_2 by done.
  apply (pinv_swap g p SEnded None Hp SClear); auto.
Qed.

Lemma pinv_gate g G ph ph' p :
  pinv p → p_generations p !! g = Some G → p_supervisors p !! g = Some ph →
  installed ph' = installed ph → waited ph' = false → may_live ph' = true →
  pinv (set_phase g ph' (set_generation g (closeGate G) p)).
Proof.
  intros Hp HG Hph Hi Hw Hl. apply (pinv_phase g ph); [|done|done| |by rewrite Hw|by left].
  - apply (pinv_generation g G); try done. unfold wake_ok. cbn.
    pose proof (pi_wake p Hp g G HG) as Hwake. unfold wake_ok in Hwake.
    destruct (cg_fatalOnce G); naive_solver.
  - intros _. right. intros G0. cbn. rewrite lookup_insert_eq. by intros [= <-].
Qed.

Lemma pinv_deactivate g G ph ph' p :
  pinv p → p_generations p !! g = Some G → p_supervisors p !! g = Some ph →
  installed ph' = installed ph → gate_closed ph = true →
  (waited ph' = true → waited ph = true) →
  pinv (set_phase g ph' (map_broker (cg_broker G) (deactivate g) p)).
Proof.
  intros Hp HG Hph Hi Hgc Hw. apply (pinv_phase g ph); [|done|done|by left| |].
  - apply pinv_broker; [done|]. intros b _. apply deactivate_no_start.
  - intros Hw' G0 HG0. eapply (pi_waited p Hp g); eauto.
  - right. by apply not_live_after_deactivate.
Qed.

Lemma pinv_wait g G ph ph' p :
  pinv p → p_generations p !! g = Some G → p_supervisors p !! g = Some ph →
  drained G = true → installed ph' = installed ph → gate_closed ph = true →
  (may_live ph' = true ∨ may_live ph = false) → pinv (set_phase g ph' p).
Proof.
  intros Hp HG Hph Hd Hi Hgc Hl. unfold drained in Hd. apply (pinv_phase g ph); [done|done|done|by left| |].
  - intros _ G0 HG0. simplify_eq. lia.
  - destruct Hl as [|Hl]; [by left|right]. intros i b Hb Ha <-.
    destruct (pi_live p Hp i b Hb Ha) as (G0 & ph0 & _ & _ & Hph0 & Hl0). simplify_eq; congruence.
Qed.

Lemma start_pinv rc g G ph p p' :
  pinv p → p_generations p !! g = Some G → p_supervisors p !! g = Some ph →
  startIngressGeneration rc G ph p = Some p' → pinv p'.
Proof.
  intros Hp HG Hph. pose proof (pi_ids p Hp g G HG) as Hid. unfold startIngressGeneration. rewrite Hid.
  destruct ph as [| | |i|i|i| | | | | | |]; try done.
  - intros [= <-]. by apply pinv_activate.
  - destruct (p_current p) as [c|] eqn:Hc; intros [= <-].
    + apply (pinv_phase g SSwap); try done. by left.
    + apply (pinv_swap g p SRegister (Some g) Hp SSwap); auto.
  - destruct (negb _); intros [= <-]; apply (pinv_phase g SRegister); try done; by left.
  - intros [= <-]. by apply (pinv_gate g G (SAbortGate i)).
  - destruct (drained G) eqn:Hd; [|done]. intros [= <-].
    apply (pinv_wait g G (SAbortDrain i)); try done. by left.
  - intros [= <-]. apply (pinv_deactivate g G (SAbortDeactivate i)); try done. by destruct i.
  - intros [= <-]. by apply pinv_clear.
Qed.

Lemma stop_pinv g G ph p p' :
  pinv p → p_generations p !! g = Some G → p_supervisors p !! g = Some ph →
  stopIngressGeneration G ph p = Some p' → pinv p'.
Proof.
  intros Hp HG Hph. pose proof (pi_ids p Hp g G HG) as Hid. unfold stopIngressGeneration. rewrite Hid.
  destruct ph as [| | |i|i|i| | | | | | |]; try done.
  - intros [= <-]. by apply (pinv_gate g G SStopGate).
  - intros [= <-]. by apply (pinv_deactivate g G SStopDeactivate).
  - intros [= <-]. apply (pinv_phase g SUnregister); try done; [by left|]. right. intros i b Hb Ha <-.
    destruct (pi_live p Hp i b Hb Ha) as (G0 & ph0 & _ & _ & Hph0 & Hl0). by simplify_eq.
  - destruct (drained G) eqn:Hd; [|done]. intros [= <-].
    apply (pinv_wait g G SStopDrain); try done. by right.
  - intros [= <-]. by apply pinv_clear.
Qed.

Lemma pinv_new g i p :
  pinv p → p_generations p !! g = None → p_supervisors p !! g = None →
  pinv (set_phase g SActivate (set_generation g (newCallbackGeneration g i) p)).
Proof.
  intros [] HG Hph. assert (inside g (p_threads p) = 0) as Hin.
  { unfold inside. assert (filter (is_inside g) (p_threads p) = ∅) as ->; [|done].
    apply map_empty. intros t. apply map_lookup_filter_None. right.
    intros [g' ph] Ht [Hg' _]. cbn in Hg'. subst g'.
    destruct (pi_threads0 t g ph Ht) as [[? ?] _]. congruence. }
  split; cbn; try done.
  - intros g' G [[<- <-]|[_ ?]]%lookup_insert_Some; eauto.
  - intros g'. rewrite !lookup_insert_is_Some', pi_same0. done.
  - intros t g' ph Ht. rewrite lookup_insert_is_Some'. destruct (pi_threads0 t g' ph Ht). auto.
  - intros g' G [[<- <-]|[_ ?]]%lookup_insert_Some; eauto.
  - intros g' G ph [[<- <-]|[_ ?]]%lookup_insert_Some [[? <-]|[? ?]]%lookup_insert_Some; try done. eauto.
  - intros g' G ph [[<- <-]|[_ ?]]%lookup_insert_Some [[? <-]|[? ?]]%lookup_insert_Some; try done. eauto.
  - intros g'. rewrite pi_current0. destruct (decide (g = g')) as [<-|Hne].
    + rewrite lookup_insert_eq, Hph. naive_solver.
    + by rewrite lookup_insert_ne.
  - intros g' G [[<- <-]|[_ ?]]%lookup_insert_Some; [by split|eauto].
  - intros j b Hb Ha. destruct (pi_live0 j b Hb Ha) as (G & ph & HG' & Hj & Hph' & Hl).
    exists G, ph. rewrite !lookup_insert_ne by congruence. done.
Qed.

Lemma pstep_pinv p p' : pinv p → pstep p p' → pinv p'.
Proof.
  intros Hp Hstep. destruct Hstep as [g i p HG Hph|g G ph rc p p' HG Hph Hst|g p Hph|g G ph p p' HG Hph Hst
    |g G err G' p HG Hw|t g cb p Ht Hc|t g a p Ht HG|t g cb G p Ht HG He|t g cb G G' p Ht HG He
    |t g cb G b b' calls ord memory now p Ht HG Hb Hord Hbody|t g c calls p p' Ht Hf
    |t g c calls p Ht Hf|t g G p Ht HG|i b b' p Hb Ho].
  - by apply pinv_new.
  - by eapply start_pinv.
  - apply (pinv_phase g SRunning); try done. by left.
  - by eapply stop_pinv.
  - pose proof (pi_wake p Hp g G HG) as Hwk. revert Hw. unfold recv_wake, wake_ok in *.
    destruct (cg_fatalWake G) as [|e rest] eqn:Hwake.
    + destruct (cg_wakeClosed G) eqn:Hcl; [|done]. intros [= <- <-].
      apply (pinv_generation g G); try done. by apply (pi_wake p Hp g).
    + intros [= <- <-]. apply (pinv_generation g G); try done. unfold wake_ok. cbn.
      destruct (cg_fatalOnce G); [|naive_solver]. rewrite zlen_cons in Hwk.
      destruct Hwk as (-> & ? & ->). split_and!; [done|lia|done].
  - apply pinv_new_thread; [done|done|]. apply (pi_same p Hp).
    apply (pi_current p Hp) in Hc as (ph & -> & _). eauto.
  - by apply pinv_new_thread.
  - by eapply pinv_end_thread.
  - by eapply pinv_entered.
  - assert (pinv (map_broker (cg_broker G) (λ _, b') p)) as Hp'.
    { apply pinv_broker; [done|]. intros b0 Hb0. rewrite Hb in Hb0. injection Hb0 as <-.
      pose proof (body_no_start ord memory now g cb b Hord) as Hns. by rewrite Hbody in Hns. }
    by apply (pinv_set_thread t g _ (CBody cb)).
  - destruct (fail_step_done c p Hp) as (p1 & Hf' & Hp1 & Hth). rewrite Hf' in Hf. injection Hf as <-.
    apply (pinv_set_thread t g _ (CFails (c :: calls))); try done. by rewrite Hth.
  - exfalso. destruct (fail_step_done c p Hp) as (p1 & Hf' & _). destruct Hf; congruence.
  - by eapply pinv_leave.
  - apply pinv_broker; [done|]. intros b0 Hb0. simplify_eq. by destruct Ho as (es & _ & ? & ?).
Qed.

Lemma preach_pinv p : preach p → pinv p.
Proof.
  induction 1 as [brokers Hb|]; [|by eapply pstep_pinv]. split; cbn; try done.
  - intros g. rewrite !lookup_empty. done.
  - intros g. rewrite lookup_empty. naive_solver.
  - intros i b Hi Ha. by rewrite (Hb i b Hi) in Ha.
Qed.

(** What a supervisor's section does to the phases. *)
Lemma clear_supervisors g p : p_supervisors (clearCurrentGeneration g p) = p_supervisors p.
Proof. unfold clearCurrentGeneration. by case_match. Qed.

Lemma start_phase rc G ph p p' :
  startIngressGeneration rc G ph p = Some p' →
  ∃ q, p_supervisors p' = <[cg_id G := q]> (p_supervisors p) ∧ (waited ph = true → waited q = true).
Proof.
  unfold startIngressGeneration. destruct ph; try done; repeat case_match; try done; intros [= <-];
    eexists; (split; [cbn; by rewrite ?clear_supervisors|done]).
Qed.
Lemma stop_phase G ph p p' :
  stopIngressGeneration G ph p = Some p' →
  ∃ q, p_supervisors p' = <[cg_id G := q]> (p_supervisors p) ∧ (waited ph = true → waited q = true).
Proof.
  unfold stopIngressGeneration. destruct ph; try done; repeat case_match; try done; intros [= <-];
    eexists; (split; [cbn; by rewrite ?clear_supervisors|done]).
Qed.
Lemma fail_step_supervisors c p p' : fail_step c p = ChanDone p' → p_supervisors p' = p_supervisors p.
Proof. unfold fail_step. repeat case_match; intros; by simplify_eq. Qed.

Lemma waited_stable p p' g ph :
  pinv p → pstep p p' → p_supervisors p !! g = Some ph → waited ph = true →
  ∃ ph', p_supervisors p' !! g = Some ph' ∧ waited ph' = true.
Proof.
  intros Hp Hstep Hg Hw.
  assert (∀ g0 ph0 q (sup : gmap Z sphase), p_supervisors p !! g0 = Some ph0 →
    (waited ph0 = true → waited q = true) → sup = <[g0 := q]> (p_supervisors p) →
    ∃ ph', sup !! g = Some ph' ∧ waited ph' = true) as Hset.
  { intros g0 ph0 q sup Hph0 Hq ->. destruct (decide (g0 = g)) as [->|Hne].
    - rewrite lookup_insert_eq. simplify_eq. eauto.
    - rewrite lookup_insert_ne by done. eauto. }
  destruct Hstep as [g' i p HG Hph|g' G ph' rc p p' HG Hph Hst|g' p Hph|g' G ph' p p' HG Hph Hst
    |g' G err G' p HG Hwk|t g' cb p Ht Hc|t g' a p Ht HG|t g' cb G p Ht HG He|t g' cb G G' p Ht HG He
    |t g' cb G b b' calls ord memory now p Ht HG Hb Hord Hbody|t g' c calls p p' Ht Hf
    |t g' c calls p Ht Hf|t g' G p Ht HG|i b b' p Hb Ho]; try (by cbn; eauto).
  - cbn. rewrite lookup_insert_ne by congruence. eauto.
  - destruct (start_phase _ _ _ _ _ Hst) as (q & Hq & Hwq). rewrite (pi_ids p Hp g' G HG) in Hq. eauto.
  - by apply (Hset g' SRunning SStopGate).
  - destruct (stop_phase _ _ _ _ Hst) as (q & Hq & Hwq). rewrite (pi_ids p Hp g' G HG) in Hq. eauto.
  - cbn. rewrite (fail_step_supervisors c p p' Hf). eauto.
Qed.

(** C12: once the supervisor has waited for a generation, on the way out of a
    failed start or of [stopIngressGeneration], no callback and no [assign] of it is
    past the gate, none can get past it, no broker serves the generation once it is
    deactivated, and this stays so after any further step. *)
Theorem callbacks_drained p p' g G ph :
  preach p → pstep p p' →
  p_generations p !! g = Some G → p_supervisors p !! g = Some ph → waited ph = true →
  cg_inFlight G = 0 ∧ enter G = (G, false)
  ∧ (∀ t q, p_threads p !! t = Some (g, q) → past_gate q = false)
  ∧ (may_live ph = false → ∀ i b, p_brokers p !! i = Some b →
       ¬ (b_generation b = g ∧ b_active b = true))
  ∧ ∃ ph', p_supervisors p' !! g = Some ph' ∧ waited ph' = true.
Proof.
  intros Hreach Hstep HG Hph Hw. pose proof (preach_pinv p Hreach) as Hp.
  assert (gate_closed ph = true) as Hgc by by destruct ph.
  pose proof (pi_waited p Hp g G ph HG Hph Hw) as Hz. split_and!; [done| | | |].
  - unfold enter. by rewrite (pi_gate p Hp g G ph HG Hph Hgc).
  - intros t q Ht. rewrite (pi_count p Hp g G HG) in Hz. by eapply inside_zero.
  - intros Hl i b Hb [<- Ha]. destruct (pi_live p Hp i b Hb Ha) as (G0 & ph0 & _ & _ & Hph0 & Hl0).
    rewrite Hph in Hph0. injection Hph0 as <-. congruence.
  - by eapply waited_stable.
Qed.

(** [fail] wakes the supervisor at most once and always gets through: the
    channel holds at most one error, it is closed exactly when [fail] has run, then
    the gate is shut, and a further [fail] changes nothing; no callback ever blocks
    or panics on it. *)
Theorem fail_wakes_once p :
  preach p →
  (∀ t g q, p_threads p !! t = Some (g, q) → q ≠ CStuck)
  ∧ ∀ g G, p_generations p !! g = Some G →
      zlen (cg_fatalWake G) ≤ 1 ∧ cg_wakeClosed G = cg_fatalOnce G
      ∧ (cg_fatalOnce G = true → cg_accepting G = false)
      ∧ ∀ err, ∃ G', fail_once err G = ChanDone G' ∧ cg_fatalOnce G' = true
          ∧ cg_accepting G' = false
          ∧ (if cg_fatalOnce G then G' = G else cg_fatalWake G' = [err]).
Proof.
  intros Hreach. pose proof (preach_pinv p Hreach) as Hp. split.
  - intros t g q Ht. by destruct (pi_threads p Hp t g q Ht).
  - intros g G HG. pose proof (pi_wake p Hp g G HG) as Hw. unfold wake_ok, fail_once in *.
    destruct (cg_fatalOnce G) eqn:Ho.
    + destruct Hw as (Hc & Hl & Ha). split_and!; try done. intros err. exists G. by rewrite Ho.
    + destruct Hw as [Hc Hl]. rewrite Hl. split_and!; try done. intros err.
      unfold send_wake, close_wake. cbn. rewrite ?Hc, ?Hl. cbn. eexists. by split_and!.
Qed.

(** One generation at a time answers the process-wide native pointers: two
    generations whose supervisors hold the roots are the same one, and it is the
    current one; no other generation is reached by a native callback. *)
Theorem one_current_generation p g g' ph ph' :
  preach p → p_supervisors p !! g = Some ph → p_supervisors p !! g' = Some ph' →
  installed ph = true → installed ph' = true → g = g' ∧ p_current p = Some g.
Proof.
  intros Hreach Hph Hph' Hi Hi'. pose proof (preach_pinv p Hreach) as Hp.
  assert (p_current p = Some g) as Hc by (apply (pi_current p Hp); eauto).
  assert (p_current p = Some g') as Hc' by (apply (pi_current p Hp); eauto).
  split; congruence.
Qed.

(** [verifiedFn] reads native memory only through non-null pointers, and only
    the correlation and a frame of a length within bounds; otherwise it does not
    touch the broker and fails the generation. *)
Theorem verifiedFn_memory memory memory' now g c f n ms b :
  (c ≠ 0 → f ≠ 0 → MinIngressFrameBytes ≤ n ≤ MaxIngressFrameBytes →
    memory c CorrelationBytes = memory' c CorrelationBytes ∧ memory f n = memory' f n) →
  verifiedFn memory now g c f n ms b = verifiedFn memory' now g c f n ms b
  ∧ (c = 0 ∨ f = 0 ∨ n < MinIngressFrameBytes ∨ MaxIngressFrameBytes < n →
      verifiedFn memory now g c f n ms b
      = (b, fail_calls g (if (c =? 0) || (f =? 0) then CbNullPointer else CbIngress ErrIngressFrame))).
Proof.
  intros Hmem. unfold verifiedFn, copyNativeBytes.
  destruct ((c =? 0) || (f =? 0)) eqn:Hnull; [done|].
  destruct ((n <? _) || _) eqn:Hlen; [done|]. destruct (Hmem ltac:(lia) ltac:(lia) ltac:(lia)) as [-> ->].
  split; [done|]. lia.
Qed.
End system.

(** ** A generation whose registration fails *)
Module cdemo.
Definition p0 : process :=
  Process {[1 := newIngressBroker 1]} ∅ None ∅ ∅.
Definition p1 : process := set_phase 9 SActivate (set_generation 9 (newCallbackGeneration 9 1) p0).
Definition G0 : callbackGeneration := newCallbackGeneration 9 1.
Definition next (rc : Z) (G : callbackGeneration) (p : process) : process :=
  default p (ph ← p_supervisors p !! 9; startIngressGeneration rc G ph p).
Definition p2 : process := next 0 G0 p1.
Definition p3 : process := next 0 G0 p2.
Definition p4 : process := next 1 G0 p3.
Definition p5 : process := next 0 G0 p4.
Definition p6 : process := next 0 (closeGate G0) p5.
Definition p7 : process := next 0 (closeGate G0) p6.

Lemma next_step rc G p ph :
  p_generations p !! 9 = Some G → p_supervisors p !! 9 = Some ph →
  startIngressGeneration rc G ph p = Some (next rc G p) → pstep p (next rc G p).
Proof. apply p_start. Qed.

Lemma reach3 : preach p3.
Proof.
  apply preach_step with p2; [|by eapply next_step; vm_compute].
  apply preach_step with p1; [|by eapply next_step; vm_compute].
  apply preach_step with p0; [|by apply p_new].
  apply preach_start. by intros i b [_ <-]%lookup_singleton_Some.
Qed.
Lemma step67 : pstep p6 p7.
Proof. by eapply next_step; vm_compute. Qed.
Lemma reach6 : preach p6.
Proof.
  apply preach_step with p5; [|by eapply next_step; vm_compute].
  apply preach_step with p4; [|by eapply next_step; vm_compute].
  apply preach_step with p3; [exact reach3|by eapply next_step; vm_compute].
Qed.
End cdemo.

Lemma callbacks_drained_witness :
  p_supervisors cdemo.p6 !! 9 = Some (SAbortDeactivate true)
  ∧ enter (closeGate cdemo.G0) = (closeGate cdemo.G0, false)
  ∧ ∃ ph', p_supervisors cdemo.p7 !! 9 = Some ph' ∧ waited ph' = true.
Proof.
  assert (p_supervisors cdemo.p6 !! 9 = Some (SAbortDeactivate true)) as Hph by by vm_compute.
  assert (p_generations cdemo.p6 !! 9 = Some (closeGate cdemo.G0)) as HG by by vm_compute.
  split; [exact Hph|].
  destruct (callbacks_drained _ _ _ _ _ cdemo.reach6 cdemo.step67 HG Hph eq_refl) as (_ & He & _ & _ & Hs).
  exact (conj He Hs).
Defined.

Lemma fail_wakes_once_witness :
  ∃ G', fail_once CbNullPointer cdemo.G0 = ChanDone G' ∧ cg_fatalWake G' = [CbNullPointer].
Proof.
  assert (p_generations cdemo.p3 !! 9 = Some cdemo.G0) as HG by by vm_compute.
  destruct (fail_wakes_once cdemo.p3 cdemo.reach3) as [_ H].
  destruct (H _ _ HG) as (_ & _ & _ & Hf). destruct (Hf CbNullPointer) as (G' & Hd & _ & _ & Hw).
  exists G'. exact (conj Hd Hw).
Defined.

Lemma one_current_generation_witness :
  p_supervisors cdemo.p3 !! 9 = Some SRegister ∧ p_current cdemo.p3 = Some 9.
Proof.
  assert (p_supervisors cdemo.p3 !! 9 = Some SRegister) as Hph by by vm_compute.
  split; [exact Hph|].
  apply (one_current_generation cdemo.p3 9 9 _ _ cdemo.reach3 Hph Hph eq_refl eq_refl).
Defined.

(** A null frame pointer: any memory will do. *)
Lemma verifiedFn_memory_witness :
  verifiedFn (λ _ _, []) 0 9 1 0 5 4000 (newIngressBroker 1)
  = verifiedFn (λ _ _, [1]) 0 9 1 0 5 4000 (newIngressBroker 1).
Proof. apply verifiedFn_memory. intros _ H. by destruct H. Defined.
