(* ===== verification/GoStrings.v ===== *)
(** * What the code uses of Go's [strings] and [strconv]

    Strings are lists of bytes. A separator is one byte, as everywhere in the code. *)
From S2P Require Import Prelude GoInt.

(** ** Searching *)

(** [strings.HasPrefix(s, p)]. *)
Fixpoint has_prefix (p s : bytes) : bool :=
  match p, s with
  | [], _ => true
  | a :: p, b :: s => (a =? b) && has_prefix p s
  | _ :: _, [] => false
  end.

(** [strings.Index(s, c)] and [strings.LastIndex(s, c)]; [None] is -1. *)
Fixpoint index_byte (c : Z) (s : bytes) : option Z :=
  match s with
  | [] => None
  | b :: s => if b =? c then Some 0 else i ← index_byte c s; Some (i + 1)
  end.
Fixpoint last_index_byte (c : Z) (s : bytes) : option Z :=
  match s with
  | [] => None
  | b :: s =>
      match last_index_byte c s with
      | Some i => Some (i + 1)
      | None => if b =? c then Some 0 else None
      end
  end.

(** [strings.Split(s, c)]: at least one part. *)
Fixpoint split (c : Z) (s : bytes) : list bytes :=
  match s with
  | [] => [[]]
  | b :: s =>
      if b =? c then [] :: split c s
      else match split c s with
           | part :: parts => (b :: part) :: parts
           | [] => [[b]]
           end
  end.

(** Its inverse, [strings.Join]. *)
Fixpoint join (c : Z) (parts : list bytes) : bytes :=
  match parts with
  | [] => []
  | [part] => part
  | part :: parts => part ++ c :: join c parts
  end.

Lemma has_prefix_spec p s : has_prefix p s = true ↔ ∃ rest, s = p ++ rest.
Proof.
  revert s. induction p as [|a p IH]; intros s; cbn; [by split; eauto|]. destruct s as [|b s].
  - split; [done|]. by intros [rest [=]].
  - rewrite andb_true_iff, Z.eqb_eq, IH. split.
    + intros (-> & rest & ->). eauto.
    + intros [rest [= -> ->]]. eauto.
Qed.

Lemma index_byte_app c l r : c ∉ l → index_byte c (l ++ c :: r) = Some (zlen l).
Proof.
  induction l as [|b l IH]; cbn; intros Hl; [by rewrite Z.eqb_refl|].
  rewrite not_elem_of_cons in Hl. destruct Hl as [Hb Hl].
  replace (b =? c) with false by lia. rewrite IH by done. cbn. rewrite zlen_cons. f_equal. lia.
Qed.
Lemma index_byte_None c s : c ∉ s → index_byte c s = None.
Proof.
  induction s as [|b s IH]; cbn; [done|]. rewrite not_elem_of_cons. intros [Hb Hs].
  replace (b =? c) with false by lia. by rewrite IH.
Qed.
Lemma last_index_byte_None c s : c ∉ s → last_index_byte c s = None.
Proof.
  induction s as [|b s IH]; cbn; [done|]. rewrite not_elem_of_cons. intros [Hb Hs].
  rewrite IH by done. by replace (b =? c) with false by lia.
Qed.
Lemma last_index_byte_app c l r : c ∉ r → last_index_byte c (l ++ c :: r) = Some (zlen l).
Proof.
  intros Hr. induction l as [|b l IH]; cbn.
  - by rewrite last_index_byte_None, Z.eqb_refl.
  - rewrite IH, zlen_cons. f_equal. lia.
Qed.

Lemma split_nonempty c s : ∃ part parts, split c s = part :: parts.
Proof.
  induction s as [|b s (part & parts & IH)]; cbn; [eauto|].
  destruct (b =? c); [eauto|]. rewrite IH. eauto.
Qed.
Lemma split_part c s : c ∉ s → split c s = [s].
Proof.
  induction s as [|b s IH]; cbn; [done|]. rewrite not_elem_of_cons. intros [Hb Hs].
  replace (b =? c) with false by lia. by rewrite IH.
Qed.
Lemma split_app c l r : c ∉ l → split c (l ++ c :: r) = l :: split c r.
Proof.
  induction l as [|b l IH]; cbn; intros Hl; [by rewrite Z.eqb_refl|].
  rewrite not_elem_of_cons in Hl. destruct Hl as [Hb Hl].
  replace (b =? c) with false by lia. by rewrite IH.
Qed.
Lemma split_join c parts :
  parts ≠ [] → Forall (λ part, c ∉ part) parts → split c (join c parts) = parts.
Proof.
  induction parts as [|part parts IH]; [done|]. intros _ [Hp Hps]%Forall_cons.
  destruct parts as [|part' parts]; [by apply split_part|].
  change (join c (part :: part' :: parts)) with (part ++ c :: join c (part' :: parts)).
  rewrite split_app by done. by rewrite IH.
Qed.
Lemma join_split c s : join c (split c s) = s.
Proof.
  induction s as [|b s IH]; cbn; [done|].
  destruct (split_nonempty c s) as (part & parts & Hs). rewrite Hs in IH |- *.
  destruct (Z.eqb_spec b c) as [->|]; [by rewrite <-IH|].
  destruct parts; cbn in *; by rewrite <-IH.
Qed.

(** ** [strconv.Atoi] *)

Definition is_digit (c : Z) : bool := (48 <=? c) && (c <=? 57).

Inductive parsed := PSyntax | PRange | PValue (n : Z).

(** [strconv.ParseUint(_, 10, 64)] on the digits left, stopping at the first
    overflow even when the rest is malformed. *)
Fixpoint parse_uint (l : bytes) (n : Z) : parsed :=
  match l with
  | [] => PValue n
  | c :: l =>
      if negb (is_digit c) then PSyntax
      else if (2 ^ 64 - 1) / 10 + 1 <=? n then PRange
      else
        let n1 := n * 10 + (c - 48) in
        if 2 ^ 64 <=? n1 then PRange else parse_uint l n1
  end.

(** The value (clamped on overflow, 0 when malformed) and whether [err] is nil. *)
Definition atoi (s : bytes) : Z * bool :=
  let '(neg, ds) :=
    match s with
    | c :: r => if c =? 45 then (true, r) else if c =? 43 then (false, r) else (false, s)
    | [] => (false, [])
    end in
  match ds with
  | [] => (0, false)
  | _ =>
      match parse_uint ds 0 with
      | PSyntax => (0, false)
      | PRange => (if neg : bool then - 2 ^ 63 else 2 ^ 63 - 1, false)
      | PValue n =>
          if neg then if 2 ^ 63 <? n then (- 2 ^ 63, false) else (- n, true)
          else if 2 ^ 63 <=? n then (2 ^ 63 - 1, false) else (n, true)
      end
  end.

Lemma atoi_range s : is_i64 (atoi s).1.
Proof.
  assert (∀ l n, 0 ≤ n → ∀ m, parse_uint l n = PValue m → 0 ≤ m) as Hpos.
  { induction l as [|c l IH]; cbn [parse_uint]; intros n Hn m; [congruence|]. unfold is_digit.
    destruct (negb _) eqn:Hd; [done|]. destruct (_ <=? n); [done|]. cbv zeta.
    destruct (_ <=? n * 10 + _); [done|]. apply IH. lia. }
  unfold atoi, is_i64. destruct (match s with [] => _ | _ => _ end) as [neg ds].
  destruct ds as [|d ds]; cbn [fst]; [lia|].
  destruct (parse_uint (d :: ds) 0) as [| |m] eqn:Hp; cbn [fst]; [lia|destruct neg; cbn [fst]; lia|].
  apply Hpos in Hp; [|lia]. destruct neg; case_match; cbn [fst]; lia.
Qed.

(** The decimal value of digits, most significant first. *)
Definition decimal (l : bytes) : Z := foldl (λ n c, n * 10 + (c - 48)) 0 l.

Lemma foldl_decimal_le l n : 0 ≤ n → forallb is_digit l = true →
  n ≤ foldl (λ n c, n * 10 + (c - 48)) n l.
Proof.
  revert n. induction l as [|c l IH]; cbn; intros n Hn Hd; [lia|].
  apply andb_prop in Hd as [Hc Hd]. unfold is_digit in Hc.
  etrans; [|apply IH; [lia|done]]. lia.
Qed.
Lemma parse_uint_digits l n :
  0 ≤ n → forallb is_digit l = true → foldl (λ n c, n * 10 + (c - 48)) n l < 2 ^ 64 →
  parse_uint l n = PValue (foldl (λ n c, n * 10 + (c - 48)) n l).
Proof.
  revert n. induction l as [|c l IH]; cbn [parse_uint foldl]; intros n Hn Hd Hlt; [done|].
  apply andb_prop in Hd as [Hc Hd]. rewrite Hc. cbn [negb].
  assert (0 ≤ c - 48 ≤ 9) as Hr by (unfold is_digit in Hc; lia).
  pose proof (foldl_decimal_le l (n * 10 + (c - 48)) ltac:(lia) Hd).
  pose proof (Z.mul_div_le (2 ^ 64 - 1) 10). pose proof (Z.mod_pos_bound (2 ^ 64 - 1) 10).
  pose proof (Z.div_mod (2 ^ 64 - 1) 10).
  destruct (_ <=? n) eqn:Hcut; [lia|]. destruct (2 ^ 64 <=? _) eqn:Hov; [lia|]. apply IH; lia || done.
Qed.

(** A number in range is read back. *)
Lemma atoi_digits l :
  l ≠ [] → forallb is_digit l = true → decimal l < 2 ^ 63 → atoi l = (decimal l, true).
Proof.
  intros Hne Hd Hlt. destruct l as [|c l]; [done|]. pose proof Hd as Hd'. cbn in Hd'.
  apply andb_prop in Hd' as [Hc _]. unfold is_digit in Hc. unfold atoi.
  replace (c =? 45) with false by lia. replace (c =? 43) with false by lia.
  rewrite parse_uint_digits by (done || (unfold decimal in Hlt; lia)). fold (decimal (c :: l)).
  by replace (2 ^ 63 <=? decimal (c :: l)) with false by lia.
Qed.
