(* ===== verification/GoText.v ===== *)
(** * Text: trimming, fields, letter case and hexadecimal (Go's [strings], [encoding/hex])

    White space is [unicode.IsSpace]'s, recognised in UTF-8. Letter case beyond ASCII is
    the table of Go's [unicode] package, an argument. *)
From S2P Require Import Prelude GoInt GoStrings Sha256.

(** ** Prefixes and suffixes *)

(** [strings.HasSuffix(s, p)]. *)
Definition has_suffix (p s : bytes) : bool := bool_decide (p `suffix_of` s).

(** [strings.TrimPrefix] and [strings.TrimSuffix]. *)
Definition trim_prefix (p s : bytes) : bytes := if has_prefix p s then zdrop (zlen p) s else s.
Definition trim_suffix (p s : bytes) : bytes :=
  if has_suffix p s then ztake (zlen s - zlen p) s else s.

Lemma trim_prefix_app p s : trim_prefix p (p ++ s) = s.
Proof.
  unfold trim_prefix. rewrite (proj2 (has_prefix_spec _ _)) by eauto. by apply zdrop_app_eq.
Qed.
Lemma trim_prefix_other p s : has_prefix p s = false → trim_prefix p s = s.
Proof. unfold trim_prefix. by intros ->. Qed.
Lemma trim_suffix_app p s : trim_suffix p (s ++ p) = s.
Proof.
  unfold trim_suffix, has_suffix. rewrite bool_decide_true by (by exists s).
  apply ztake_app_eq. rewrite zlen_app. lia.
Qed.

(** ** White space *)

(** The UTF-8 encodings of the code points with [unicode.IsSpace]. *)
Definition spaces : list bytes :=
  [[9]; [10]; [11]; [12]; [13]; [32]; [194; 133]; [194; 160]; [225; 154; 128]]
  ++ ((λ i, [226; 128; 128 + Z.of_nat i]) <$> seq 0 11)
  ++ [[226; 128; 168]; [226; 128; 169]; [226; 128; 175]; [226; 129; 159]; [227; 128; 128]].

(** The length of the space [s] starts with, 0 if it starts with something else. A lead
    byte is never part of another character, so the place to look from does not matter. *)
Definition space_len (s : bytes) : nat :=
  match filter (λ p, has_prefix p s = true) spaces with p :: _ => length p | [] => 0 end.

(** [strings.Fields]: [skip] bytes of a space are left, [cur] is the field being read. *)
Fixpoint fields_from (skip : nat) (cur s : bytes) : list bytes :=
  let flush rest := if bool_decide (cur = []) then rest else cur :: rest in
  match s with
  | [] => flush []
  | b :: s' =>
      match skip with
      | S skip => fields_from skip cur s'
      | O =>
          match space_len s with
          | O => fields_from O (cur ++ [b]) s'
          | S skip => flush (fields_from skip [] s')
          end
      end
  end.
Definition fields (s : bytes) : list bytes := fields_from 0 [] s.

(** [strings.TrimSpace]. *)
Fixpoint trim_left (skip : nat) (s : bytes) : bytes :=
  match s with
  | [] => []
  | _ :: s' =>
      match skip with
      | S skip => trim_left skip s'
      | O => match space_len s with O => s | S skip => trim_left skip s' end
      end
  end.
(** The length of [s] without the spaces at its end. *)
Fixpoint text_len (skip : nat) (i last_end : Z) (s : bytes) : Z :=
  match s with
  | [] => last_end
  | _ :: s' =>
      match skip with
      | S skip => text_len skip (i + 1) last_end s'
      | O =>
          match space_len s with
          | O => text_len O (i + 1) (i + 1) s'
          | S skip => text_len skip (i + 1) last_end s'
          end
      end
  end.
Definition trim_space (s : bytes) : bytes :=
  let s := trim_left 0 s in ztake (text_len 0 0 0 s) s.

Example fields_example : fields (str "  ab  *dist/x" ++ [194; 160; 13]) = [str "ab"; str "*dist/x"].
Proof. vm_compute. done. Qed.
Example trim_space_example : trim_space (str "  a b " ++ [226; 128; 137; 10]) = str "a b".
Proof. vm_compute. done. Qed.

(** A printable ASCII character. *)
Definition is_print (c : Z) : bool := (33 <=? c) && (c <=? 126).

Lemma space_len_print c s : is_print c = true → space_len (c :: s) = 0%nat.
Proof.
  intros Hc. unfold is_print in Hc. unfold space_len.
  assert (Forall (λ p, ∃ b q, p = b :: q ∧ (b < 33 ∨ 126 < b)) spaces) as Hsp.
  { unfold spaces. cbn -[Z.add]. repeat constructor; eexists _, _; (split; [reflexivity|lia]). }
  induction Hsp as [|p ps (b & q & -> & Hb) _ IH]; [done|].
  rewrite filter_cons_False; [done|]. cbn. rewrite not_true_iff_false. apply andb_false_iff. left. lia.
Qed.
Lemma space_len_blank s : space_len (32 :: s) = 1%nat.
Proof. done. Qed.

Section printable.
Implicit Types w : bytes.

Lemma fields_word w cur rest :
  forallb is_print w = true → fields_from 0 cur (w ++ rest) = fields_from 0 (cur ++ w) rest.
Proof.
  revert cur. induction w as [|c w IH]; intros cur Hw; [by rewrite app_nil_r|].
  cbn [forallb] in Hw. apply andb_prop in Hw as [Hc Hw].
  change ((c :: w) ++ rest) with (c :: (w ++ rest)). cbn [fields_from].
  rewrite space_len_print by done. rewrite IH by done. by rewrite <-app_assoc.
Qed.
Lemma fields_blank cur rest :
  fields_from 0 cur (32 :: rest) = if bool_decide (cur = []) then fields_from 0 [] rest else cur :: fields_from 0 [] rest.
Proof. cbn [fields_from]. by rewrite space_len_blank. Qed.

(** The words of a line as [sha256sum] prints it. *)
Lemma fields_two w1 w2 :
  w1 ≠ [] → w2 ≠ [] → forallb is_print w1 = true → forallb is_print w2 = true →
  fields (w1 ++ [32; 32] ++ w2) = [w1; w2].
Proof.
  intros H1 H2 Hw1 Hw2. unfold fields. rewrite fields_word by done.
  change ([] ++ w1) with w1. change ([32; 32] ++ w2) with (32 :: 32 :: w2).
  rewrite !fields_blank. rewrite bool_decide_false by done. rewrite bool_decide_true by done.
  rewrite <-(app_nil_r w2) at 1. rewrite fields_word by done. cbn. by rewrite bool_decide_false.
Qed.

Lemma trim_left_print c w : is_print c = true → trim_left 0 (c :: w) = c :: w.
Proof. intros Hc. cbn [trim_left]. by rewrite space_len_print. Qed.
Lemma text_len_print w i j : forallb is_print w = true → w ≠ [] → text_len 0 i j w = i + zlen w.
Proof.
  revert i j. induction w as [|c w IH]; intros i j Hw Hne; [done|].
  cbn [forallb] in Hw. apply andb_prop in Hw as [Hc Hw]. cbn [text_len].
  rewrite space_len_print by done. destruct w as [|c' w].
  - cbn. unfold zlen. cbn. lia.
  - rewrite IH by done. rewrite (zlen_cons c). lia.
Qed.
Lemma trim_space_print w : forallb is_print w = true → trim_space w = w.
Proof.
  intros Hw. destruct w as [|c w]; [done|]. unfold trim_space.
  rewrite trim_left_print by (cbn in Hw; by apply andb_prop in Hw as [? _]).
  rewrite text_len_print by done. by apply ztake_all.
Qed.
End printable.

(** ** Letter case *)

Definition lower_byte (c : Z) : Z := if (65 <=? c) && (c <=? 90) then c + 32 else c.

(** [strings.ToLower]: the table is only for strings that are not ASCII. *)
Definition to_lower (unicode_lower : bytes → bytes) (s : bytes) : bytes :=
  if forallb (λ c, c <? 128) s then lower_byte <$> s else unicode_lower s.

Lemma lower_byte_idemp c : lower_byte (lower_byte c) = lower_byte c.
Proof.
  unfold lower_byte. destruct ((65 <=? c) && (c <=? 90)) eqn:H; [|by rewrite H].
  by replace ((65 <=? c + 32) && (c + 32 <=? 90)) with false by lia.
Qed.

(** A string of lower-case hexadecimal digits. *)
Definition is_hex_lower (c : Z) : bool := is_digit c || (97 <=? c) && (c <=? 102).
Lemma to_lower_hex u s : forallb is_hex_lower s = true → to_lower u s = s.
Proof.
  intros H. unfold to_lower. rewrite (proj2 (forallb_forall _ _)).
  - induction s as [|c s IH]; [done|]. cbn [forallb] in H. apply andb_prop in H as [Hc H].
    rewrite fmap_cons, IH by done. f_equal. unfold is_hex_lower, is_digit in Hc. unfold lower_byte. by replace ((65 <=? c) && (c <=? 90)) with false by lia.
  - rewrite forallb_forall in H. intros c Hin. specialize (H c Hin). unfold is_hex_lower, is_digit in H. lia.
Qed.

(** ** Hexadecimal *)

Definition hex_value (c : Z) : option Z :=
  if is_digit c then Some (c - 48)
  else if (97 <=? c) && (c <=? 102) then Some (c - 87)
  else if (65 <=? c) && (c <=? 70) then Some (c - 55)
  else None.

(** [hex.DecodeString]; [None]: an error. *)
Fixpoint hex_decode (s : bytes) : option bytes :=
  match s with
  | [] => Some []
  | [_] => None
  | a :: b :: s => h ← hex_value a; l ← hex_value b; rest ← hex_decode s; Some (h * 16 + l :: rest)
  end.

Lemma hex_value_digit d : 0 ≤ d < 16 → hex_value (hex_digit d) = Some d.
Proof.
  intros Hd. unfold hex_value, hex_digit, is_digit. destruct (d <? 10) eqn:E.
  - replace ((48 <=? 48 + d) && _) with true by lia. f_equal. lia.
  - replace ((48 <=? 87 + d) && _) with false by lia. replace ((97 <=? 87 + d) && _) with true by lia.
    f_equal. lia.
Qed.
Lemma hex_decode_encode l : Bytes l → hex_decode (hex_encode l) = Some l.
Proof.
  induction 1 as [|b l Hb Hl IH]; [done|]. unfold is_byte in Hb.
  change (hex_encode (b :: l)) with (hex_digit (b / 16) :: hex_digit (b mod 16) :: hex_encode l).
  cbn [hex_decode]. rewrite !hex_value_digit by (pose proof (Z.div_mod b 16); pose proof (Z.mod_pos_bound b 16); lia).
  cbn. rewrite IH. cbn. do 2 f_equal. pose proof (Z.div_mod b 16). lia.
Qed.

Lemma hex_digit_lower d : 0 ≤ d < 16 → is_hex_lower (hex_digit d) = true.
Proof. intros Hd. unfold is_hex_lower, hex_digit, is_digit. destruct (d <? 10) eqn:E; lia. Qed.
Lemma hex_encode_lower l : Bytes l → forallb is_hex_lower (hex_encode l) = true.
Proof.
  induction 1 as [|b l Hb Hl IH]; [done|]. unfold is_byte in Hb.
  change (hex_encode (b :: l)) with (hex_digit (b / 16) :: hex_digit (b mod 16) :: hex_encode l).
  cbn [forallb]. rewrite !hex_digit_lower by (pose proof (Z.div_mod b 16); pose proof (Z.mod_pos_bound b 16); lia).
  by rewrite IH.
Qed.
Lemma zlen_hex_encode l : zlen (hex_encode l) = 2 * zlen l.
Proof.
  induction l as [|b l IH]; [done|].
  change (hex_encode (b :: l)) with (hex_digit (b / 16) :: hex_digit (b mod 16) :: hex_encode l).
  rewrite !zlen_cons, IH. lia.
Qed.

(** What decodes has an even number of hexadecimal digits. *)
Lemma hex_decode_len s l : hex_decode s = Some l → zlen s = 2 * zlen l ∧ Bytes l.
Proof.
  revert s. induction l as [|x l IH]; intros s H.
  - destruct s as [|a [|b s]]; cbn in H; [by split|done|].
    destruct (hex_value a), (hex_value b), (hex_decode s); done.
  - destruct s as [|a [|b s]]; cbn in H; [done..|].
    destruct (hex_value a) as [h|] eqn:Ha; [|done]. destruct (hex_value b) as [d|] eqn:Hb; [|done].
    destruct (hex_decode s) as [rest|] eqn:Hs; [|done]. cbn in H. injection H as <- <-.
    destruct (IH s Hs) as [Hz HB]. split; [rewrite !zlen_cons; lia|].
    constructor; [|done]. unfold hex_value, is_digit in Ha, Hb. unfold is_byte.
    repeat case_match; simplify_eq; lia.
Qed.
