(* ===== verification/Supervisor.v ===== *)
(** * The subprocess supervisor (backoff.go and the loop of subprocess.go)

    [run] restarts the subprocess after an exponential backoff. One iteration of the
    loop is what [runOnce] returned and how the wait after it ended; the loop is a
    function of these. *)
From S2P Require Import Prelude GoInt.

(** ** The backoff *)

Record backoff := Backoff { bo_min : Z; bo_max : Z; bo_cur : Z }.

Definition newBackoff (minD maxD : Z) : backoff :=
  let minD := if minD <=? 0 then Second else minD in
  let maxD := if (maxD <=? 0) || (maxD <? minD) then 60 * Second else maxD in
  Backoff minD maxD minD.

(** [cur] is an [int64] of nanoseconds. *)
Definition next (b : backoff) : Z * backoff :=
  let cur := i64 (bo_cur b * 2) in
  let cur := if bo_max b <? cur then bo_max b else cur in
  (bo_cur b, Backoff (bo_min b) (bo_max b) cur).

Definition peek (b : backoff) : Z := bo_cur b.
Definition reset (b : backoff) : backoff := Backoff (bo_min b) (bo_max b) (bo_min b).

(** The delay of the k-th call of [next]. *)
Fixpoint delay (b : backoff) (k : nat) : Z :=
  match k with
  | O => (next b).1
  | S k => delay (next b).2 k
  end.

(** ** The loop *)

Record RestartPolicy := Policy { MinBackoff : Z; MaxBackoff : Z; MaxRetries : Z }.

(** The error of a context. *)
Inductive ctxError := Canceled | DeadlineExceeded.

(** What [runOnce] returned, as the loop looks at it: nil, an error that is
    [context.Canceled], or another one. *)
Inductive onceResult := OnceNil | OnceCanceled | OnceFailed.

(** How the [select] after a failed run ended. *)
Inductive waitResult := WaitCancelled (e : ctxError) | WaitElapsed.

Record iteration := Iteration {
  it_once : onceResult;
  it_ctx : option ctxError;     (* [ctx.Err()] when [runOnce] returned *)
  it_wait : waitResult;
}.

Inductive runError := RunCtx (e : ctxError) | RunMaxRetries (n : Z).

(** The delays waited for, and the error [run] returned, unless the iterations ran
    out first. *)
Fixpoint run_loop (policy : RestartPolicy) (attempt : Z) (b : backoff) (its : list iteration)
    : list Z * option (option runError) :=
  if (0 <? MaxRetries policy) && (MaxRetries policy <=? attempt)
  then ([], Some (Some (RunMaxRetries (MaxRetries policy))))
  else match its with
       | [] => ([], None)
       | it :: its =>
           match it_once it with
           | OnceNil | OnceCanceled => ([], Some (RunCtx <$> it_ctx it))
           | OnceFailed =>
               let '(d, b) := next b in
               match it_wait it with
               | WaitCancelled e => ([d], Some (Some (RunCtx e)))
               | WaitElapsed =>
                   let '(ds, r) := run_loop policy (attempt + 1) b its in (d :: ds, r)
               end
           end
       end.

Definition run (policy : RestartPolicy) (its : list iteration) : list Z * option (option runError) :=
  run_loop policy 0 (newBackoff (MinBackoff policy) (MaxBackoff policy)) its.

(** ** Delays *)

(** A well-formed backoff: doubling does not overflow. *)
Definition tame (b : backoff) : Prop :=
  0 < bo_cur b ∧ 0 < bo_max b ∧ bo_cur b < 2 ^ 62 ∧ bo_max b < 2 ^ 62.

Lemma next_tame b : tame b → tame (next b).2 ∧ bo_cur (next b).2 = Z.min (bo_max b) (2 * bo_cur b)
  ∧ bo_max (next b).2 = bo_max b.
Proof.
  intros (? & ? & ? & ?). unfold next, tame. cbn.
  rewrite (swrap_id 64 (bo_cur b * 2)) by lia. destruct (bo_max b <? bo_cur b * 2) eqn:?; lia.
Qed.

Lemma delay_S b k : tame b → delay b (S k) = Z.min (bo_max b) (bo_cur b * 2 ^ (Z.of_nat k + 1)).
Proof.
  revert b. induction k as [|k IH]; intros b Hb; pose proof (next_tame b Hb) as (Hb' & Hcur & Hmax).
  - cbn [delay]. change ((next (next b).2).1) with (bo_cur (next b).2). rewrite Hcur. f_equal.
    change (2 ^ (Z.of_nat 0 + 1)) with 2. lia.
  - change (delay b (S (S k))) with (delay (next b).2 (S k)).
    rewrite IH, Hcur, Hmax by done. destruct Hb as (Hc & Hm & _).
    assert (0 < 2 ^ (Z.of_nat k + 1)) as Hp by (apply Z.pow_pos_nonneg; lia).
    replace (2 ^ (Z.of_nat (S k) + 1)) with (2 * 2 ^ (Z.of_nat k + 1))
      by (rewrite <-Z.pow_succ_r by lia; f_equal; lia).
    destruct (Z.min_spec (bo_max b) (2 * bo_cur b)) as [[? ->]|[? ->]]; nia.
Qed.

Lemma newBackoff_tame minD maxD :
  minD < 2 ^ 62 → maxD < 2 ^ 62 → tame (newBackoff minD maxD).
Proof.
  intros. unfold newBackoff, tame, Second, Millisecond. cbn.
  destruct (minD <=? 0) eqn:?; destruct (_ || _) eqn:?; lia.
Qed.

(** C37: the delays of the supervisor: the first is the minimum (a second when none is
    given), each following one is the minimum doubled that many times, capped at the
    maximum (a minute when none is given or it is below the minimum). The first is not
    capped: it exceeds the maximum in use exactly when the minimum is above a minute and
    no maximum, or one below the minimum, is given. Both are taken to be below 2^62
    nanoseconds, about 146 years, so that no doubling leaves 64 bits. *)
Theorem backoff_delays minD maxD :
  minD < 2 ^ 62 → maxD < 2 ^ 62 →
  let lo := if minD <=? 0 then Second else minD in
  let hi := if (maxD <=? 0) || (maxD <? lo) then Minute else maxD in
  (∀ k, delay (newBackoff minD maxD) k
    = match k with O => lo | S _ => Z.min hi (lo * 2 ^ Z.of_nat k) end)
  ∧ (hi < delay (newBackoff minD maxD) 0 ↔ Minute < lo ∧ maxD < lo).
Proof.
  intros Hmin Hmax lo hi. split.
  - intros [|k]; [done|]. rewrite delay_S by by apply newBackoff_tame. cbn. do 2 f_equal. f_equal. lia.
  - change (delay (newBackoff minD maxD) 0) with lo. unfold hi.
    assert (0 < lo) by (unfold lo, Second, Millisecond; destruct (minD <=? 0) eqn:?; lia).
    destruct (_ || _) eqn:Hc; lia.
Qed.

(** ** The loop *)

Definition fails (it : iteration) : Prop := it_once it = OnceFailed ∧ it_wait it = WaitElapsed.

Lemma run_loop_fails policy n : ∀ its attempt b,
  0 < MaxRetries policy → MaxRetries policy - attempt = Z.of_nat n →
  Forall fails (take n its) → (n ≤ length its)%nat →
  ∃ ds, run_loop policy attempt b its = (ds, Some (Some (RunMaxRetries (MaxRetries policy))))
    ∧ length ds = n ∧ ∀ k d, ds !! k = Some d → d = delay b k.
Proof.
  induction n as [|n IH]; intros its attempt b Hpos Hn Hf Hlen.
  - exists []. split; [|by split]. destruct its; cbn;
      by replace ((0 <? MaxRetries policy) && (MaxRetries policy <=? attempt)) with true by lia.
  - destruct its as [|it its]; [cbn in Hlen; lia|]. cbn [take] in Hf.
    apply Forall_cons in Hf as [[Ho Hw] Hf]. cbn [run_loop].
    replace ((0 <? MaxRetries policy) && (MaxRetries policy <=? attempt)) with false by lia.
    rewrite Ho, Hw. destruct (next b) as [d b'] eqn:Hb.
    destruct (IH its (attempt + 1) b') as (ds & -> & Hds & Hd); [done|lia|done|cbn in Hlen; lia|].
    exists (d :: ds). split_and!; [done|cbn; lia|]. intros [|k] d' Hk; cbn [lookup list_lookup delay] in *.
    + simplify_eq. by rewrite Hb.
    + rewrite Hb. by apply Hd.
Qed.

Lemma run_loop_prefix policy its : ∀ attempt b its' ds r,
  run_loop policy attempt b its = (ds, Some r) → run_loop policy attempt b (its ++ its') = (ds, Some r).
Proof.
  induction its as [|it its IH]; intros attempt b its' ds r; cbn.
  - destruct its'; cbn; by destruct (_ && _).
  - destruct (_ && _); [done|]. destruct (it_once it); [done..|]. destruct (next b) as [d b'].
    destruct (it_wait it); [done|]. destruct (run_loop _ _ _ its) as [ds' r'] eqn:Hr.
    intros [= <- ->]. by rewrite (IH _ _ its' ds' r).
Qed.

(** C38: [MaxRetries] bounds the runs, not the restarts: when every run fails, the
    subprocess is started exactly [MaxRetries] times, hence restarted one time less,
    each run, the last one too, is followed by its backoff delay, and [run] then
    reports that the retries are exceeded. *)
Theorem max_retries_runs policy its :
  0 < MaxRetries policy → MaxRetries policy ≤ zlen its → Forall fails its →
  ∃ ds, run policy its = (ds, Some (Some (RunMaxRetries (MaxRetries policy))))
    ∧ zlen ds = MaxRetries policy
    ∧ run policy (take (Z.to_nat (MaxRetries policy)) its) = run policy its
    ∧ ∀ k d, ds !! k = Some d → d = delay (newBackoff (MinBackoff policy) (MaxBackoff policy)) k.
Proof.
  intros Hpos Hlen Hf. unfold run, zlen in *. set (n := Z.to_nat (MaxRetries policy)).
  set (b := newBackoff _ _).
  destruct (run_loop_fails policy n (take n its) 0 b) as (ds & Hr & Hn & Hd).
  { done. } { lia. } { by apply Forall_take, Forall_take. } { rewrite length_take. lia. }
  exists ds. pose proof (run_loop_prefix policy (take n its) 0 b (drop n its) ds _ Hr) as Hr'.
  rewrite take_drop in Hr'. split_and!; [done|lia|by rewrite Hr, Hr'|done].
Qed.

Lemma run_loop_stops policy its : ∀ attempt b ds e,
  run_loop policy attempt b its = (ds, Some e) →
  match e with
  | Some (RunMaxRetries _) => 0 < MaxRetries policy
  | _ => ∃ its1 it its2, its = its1 ++ it :: its2 ∧ Forall fails its1
      ∧ (it_once it ≠ OnceFailed ∧ e = RunCtx <$> it_ctx it
         ∨ it_once it = OnceFailed ∧ ∃ c, it_wait it = WaitCancelled c ∧ e = Some (RunCtx c))
  end.
Proof.
  induction its as [|it its IH]; intros attempt b ds e; cbn.
  - destruct (_ && _) eqn:Hm; [|done]. intros [= <- <-]. lia.
  - destruct (_ && _) eqn:Hm; [intros [= <- <-]; lia|].
    destruct (it_once it) eqn:Ho; [| |destruct (next b) as [d b']; destruct (it_wait it) eqn:Hw].
    + intros [= <- <-]. destruct (it_ctx it) eqn:Hc; cbn; exists [], it, its;
        (split_and!; [done|done|left; by rewrite Hc, Ho]).
    + intros [= <- <-]. destruct (it_ctx it) eqn:Hc; cbn; exists [], it, its;
        (split_and!; [done|done|left; by rewrite Hc, Ho]).
    + intros [= <- <-]. exists [], it, its. split_and!; [done|done|right; eauto].
    + destruct (run_loop _ _ _ its) as [ds' r'] eqn:Hr. intros [= <- ->]. apply IH in Hr.
      assert (fails it) as Hfit by done.
      destruct e as [[c|n]|]; [| exact Hr |];
        destruct Hr as (its1 & it' & its2 & -> & Hf & Hend); exists (it :: its1), it', its2;
        (split_and!; [done|by constructor|done]).
Qed.

(** Why the supervisor stops: without [MaxRetries] it returns only on a clean or
    cancelled run, with the context's error (nil if there is none), or when the
    context ends during a backoff, with that error; it restarts after every other
    run. *)
Theorem unlimited_supervisor policy its ds e :
  MaxRetries policy ≤ 0 → run policy its = (ds, Some e) →
  ∃ its1 it its2, its = its1 ++ it :: its2 ∧ Forall fails its1
    ∧ (it_once it ≠ OnceFailed ∧ e = RunCtx <$> it_ctx it
       ∨ it_once it = OnceFailed ∧ ∃ c, it_wait it = WaitCancelled c ∧ e = Some (RunCtx c)).
Proof.
  intros Hno Hr. apply run_loop_stops in Hr. destruct e as [[c|n]|]; [done|lia|done].
Qed.

(** ** Witnesses *)

Lemma backoff_delays_witness :
  delay (newBackoff Second Minute) 3 = 8 * Second
  ∧ bo_max (newBackoff (2 * Minute) 0) < delay (newBackoff (2 * Minute) 0) 0.
Proof.
  destruct (backoff_delays Second Minute) as [Hd _]; [done..|].
  destruct (backoff_delays (2 * Minute) 0) as [_ Hx]; [done..|].
  split; [apply (Hd 3%nat)|by apply Hx].
Defined.

Definition crash : iteration := Iteration OnceFailed None WaitElapsed.

Lemma max_retries_runs_witness :
  ∃ ds, run (Policy 0 0 1) [crash; crash] = (ds, Some (Some (RunMaxRetries 1))) ∧ zlen ds = 1.
Proof.
  destruct (max_retries_runs (Policy 0 0 1) [crash; crash]) as (ds & Hr & Hn & _);
    [done|done|by repeat constructor|].
  exists ds. exact (conj Hr Hn).
Defined.

Lemma unlimited_supervisor_witness :
  ∃ its1 it its2, [crash; Iteration OnceCanceled (Some Canceled) WaitElapsed] = its1 ++ it :: its2
    ∧ Forall fails its1
    ∧ (it_once it ≠ OnceFailed ∧ Some (RunCtx Canceled) = RunCtx <$> it_ctx it
       ∨ it_once it = OnceFailed ∧ ∃ c, it_wait it = WaitCancelled c ∧ Some (RunCtx Canceled) = Some (RunCtx c)).
Proof. apply (unlimited_supervisor (Policy 0 0 0) _ [Second] (Some (RunCtx Canceled))); done. Defined.
