(* ===== verification/RakNet.v ===== *)
(** * The synthetic Bedrock probe (internal/synthetic/bedrock.go)

    The unconnected ping the probe sends, the parser of the pong, and [Probe] and [Wait]
    around them, functions of what the socket, the clock and the context gave. *)
From S2P Require Import Prelude GoInt Sha256 GoStrings Supervisor.

Definition idUnconnectedPing : Z := 0x01.
Definition idUnconnectedPong : Z := 0x1c.
Definition rakNetMagic : bytes :=
  [0x00; 0xff; 0xff; 0x00; 0xfe; 0xfe; 0xfe; 0xfe;
   0xfd; 0xfd; 0xfd; 0xfd; 0x12; 0x34; 0x56; 0x78].

(** [MOTD], without the round-trip time that [Probe] sets. *)
Record MOTD := Motd {
  Edition : bytes;
  Line1 : bytes;
  ProtocolVer : Z;
  GameVersion : bytes;
  Players : Z;
  MaxPlayers : Z;
  ServerGUID : bytes;
  Line2 : bytes;
  GameMode : bytes;
  GameModeNum : Z;
  PortV4 : Z;
  PortV6 : Z;
  RawDescriptor : bytes;
}.

Inductive pongError :=
| PongTooShort (n : Z)
| PongBadID (id : Z)
| PongBadMagic
| PongTruncated.

Definition buildPing (t : Z) : res pongError bytes :=
  let pkt := zrep 33 0 in
  pkt ← put_byte pkt 0 idUnconnectedPing;
  pkt ← put_u64 pkt 1 (u64 (unix_milli t));
  pkt ← copy_at pkt 9 rakNetMagic;
  put_u64 pkt 25 1.

(** The loop of [equalBytes], after the length check. *)
Fixpoint equal_from (a b : bytes) : bool :=
  match a, b with
  | x :: a, y :: b => if negb (x =? y) then false else equal_from a b
  | _, _ => true
  end.
Definition equalBytes (a b : bytes) : bool :=
  if negb (zlen a =? zlen b) then false else equal_from a b.

(** [if len(parts) > i { ... parts[i] }], the zero value otherwise. *)
Definition part (parts : list bytes) (i : nat) : bytes := default [] (parts !! i).
Definition part_int (parts : list bytes) (i : nat) : Z :=
  match parts !! i with Some s => (atoi s).1 | None => 0 end.

(** [35+strLen] is computed in [uint16]. *)
Definition parsePong (data : bytes) : res pongError MOTD :=
  _ ← err_if (zlen data <? 35) (PongTooShort (zlen data));
  id ← index data 0;
  _ ← err_if (negb (id =? idUnconnectedPong)) (PongBadID id);
  guid ← slice data 9 17;
  gotMagic ← slice data 17 33;
  _ ← err_if (negb (equalBytes gotMagic rakNetMagic)) PongBadMagic;
  lenField ← slice data 33 35;
  let strLen := be_combine lenField in
  let until := u16 (35 + strLen) in
  _ ← err_if (zlen data <? until) PongTruncated;
  desc ← slice data 35 until;
  let parts := split 59 desc in
  mret (Motd (part parts 0) (part parts 1) (part_int parts 2) (part parts 3) (part_int parts 4)
          (part_int parts 5) (hex_encode guid) (part parts 7) (part parts 8) (part_int parts 9)
          (part_int parts 10) (part_int parts 11) desc).

(** ** The pong, part by part *)

Definition motd_of (guid desc : bytes) : MOTD :=
  let parts := split 59 desc in
  Motd (part parts 0) (part parts 1) (part_int parts 2) (part parts 3) (part_int parts 4)
    (part_int parts 5) (hex_encode guid) (part parts 7) (part parts 8) (part_int parts 9)
    (part_int parts 10) (part_int parts 11) desc.

(** A pong as a server lays it out. *)
Definition pong (id : Z) (time guid magic lenField rest : bytes) : bytes :=
  [id] ++ time ++ guid ++ magic ++ lenField ++ rest.

Lemma equal_from_spec a b : zlen a = zlen b → equal_from a b = true ↔ a = b.
Proof.
  revert b. induction a as [|x a IH]; intros [|y b]; rewrite ?zlen_cons; intros Hl; try done.
  - pose proof (zlen_nonneg b). change (zlen []) with 0 in Hl. lia.
  - pose proof (zlen_nonneg a). change (zlen []) with 0 in Hl. lia.
  - cbn. destruct (Z.eqb_spec x y) as [->|Hne]; cbn; [|split; congruence].
    rewrite IH by lia. split; congruence.
Qed.

(** [equalBytes] is equality. *)
Lemma equalBytes_spec a b : equalBytes a b = true ↔ a = b.
Proof.
  unfold equalBytes. destruct (Z.eqb_spec (zlen a) (zlen b)) as [Hl|Hl]; cbn.
  - by apply equal_from_spec.
  - split; [done|]. by intros ->.
Qed.

Lemma parse_pong_parts id time guid magic lenField rest :
  zlen time = 8 → zlen guid = 8 → zlen magic = 16 → zlen lenField = 2 →
  parsePong (pong id time guid magic lenField rest) =
    if negb (id =? idUnconnectedPong) then Err (PongBadID id)
    else if negb (bool_decide (magic = rakNetMagic)) then Err PongBadMagic
    else
      let until := u16 (35 + be_combine lenField) in
      if 35 + zlen rest <? until then Err PongTruncated
      else if until <? 35 then Panic
      else Ok (motd_of guid (ztake (until - 35) rest)).
Proof.
  intros Ht Hg Hm Hl. pose proof (zlen_nonneg rest).
  assert (zlen (pong id time guid magic lenField rest) = 35 + zlen rest) as Hlen
    by (unfold pong; golen).
  unfold parsePong. rewrite Hlen. replace (35 + zlen rest <? 35) with false by lia.
  cbn [err_if]. rewrite res_bind_Ok.
  unfold pong. rewrite (index_at _ [] (time ++ guid ++ magic ++ lenField ++ rest) id) by done.
  rewrite res_bind_Ok. destruct (negb (id =? _)); cbn [err_if]; [done|]. rewrite res_bind_Ok.
  rewrite (slice_at _ ([id] ++ time) guid (magic ++ lenField ++ rest) 9 17); [|by rewrite <-!app_assoc|golen|golen].
  rewrite res_bind_Ok.
  rewrite (slice_at _ ([id] ++ time ++ guid) magic (lenField ++ rest) 17 33); [|by rewrite <-!app_assoc|golen|golen].
  rewrite res_bind_Ok.
  assert (equalBytes magic rakNetMagic = bool_decide (magic = rakNetMagic)) as ->.
  { apply eq_bool_prop_intro. rewrite !Is_true_true, equalBytes_spec, bool_decide_eq_true. done. }
  destruct (negb (bool_decide _)); cbn [err_if]; [done|]. rewrite res_bind_Ok.
  rewrite (slice_at _ ([id] ++ time ++ guid ++ magic) lenField rest 33 35); [|by rewrite <-!app_assoc|golen|golen].
  rewrite res_bind_Ok. cbv zeta. set (until := u16 _).
  destruct (35 + zlen rest <? until) eqn:Htr; cbn [err_if]; [done|]. rewrite res_bind_Ok.
  destruct (until <? 35) eqn:Hpan.
  - assert (slice (E := pongError) ([id] ++ time ++ guid ++ magic ++ lenField ++ rest) 35 until = Panic) as ->;
      [|done]. apply slice_Panic. lia.
  - rewrite (slice_at _ ([id] ++ time ++ guid ++ magic ++ lenField) (ztake (until - 35) rest)
      (zdrop (until - 35) rest) 35 until); [done| |golen|golen].
    by rewrite ztake_zdrop, <-!app_assoc.
Qed.

(** Every datagram of 35 bytes or more has these parts. *)
Lemma pong_parts data :
  35 ≤ zlen data →
  ∃ id time guid magic lenField rest, data = pong id time guid magic lenField rest
    ∧ zlen time = 8 ∧ zlen guid = 8 ∧ zlen magic = 16 ∧ zlen lenField = 2.
Proof.
  intros Hl. destruct data as [|id d0]; [change (zlen []) with 0 in Hl; lia|]. rewrite zlen_cons in Hl.
  destruct (cut_at d0 8) as (time & d1 & -> & Ht); [lia|]. rewrite zlen_app in Hl.
  destruct (cut_at d1 8) as (guid & d2 & -> & Hg); [lia|]. rewrite zlen_app in Hl.
  destruct (cut_at d2 16) as (magic & d3 & -> & Hm); [lia|]. rewrite zlen_app in Hl.
  destruct (cut_at d3 2) as (lenField & rest & -> & Hf); [lia|].
  by exists id, time, guid, magic, lenField, rest.
Qed.

Lemma be_combine_2 l : Bytes l → zlen l = 2 → 0 ≤ be_combine l < 65536.
Proof. intros Hb Hl. pose proof (be_combine_range l Hb) as H. by rewrite Hl in H. Qed.

(** ** Properties *)

(** [parsePong] inverts a server's encoding: a pong whose descriptor is the
    fields joined by semicolons (at most 65500 bytes) is decoded to those fields, the
    numbers by [strconv.Atoi] and the GUID in hexadecimal, whatever follows it. *)
Theorem parsePong_decodes time guid fields rest :
  zlen time = 8 → zlen guid = 8 → fields ≠ [] → Forall (λ f, 59 ∉ f) fields →
  zlen (join 59 fields) ≤ 65500 →
  parsePong (pong idUnconnectedPong time guid rakNetMagic
               (be_split 2 (zlen (join 59 fields))) (join 59 fields ++ rest))
  = Ok (Motd (part fields 0) (part fields 1) (part_int fields 2) (part fields 3) (part_int fields 4)
          (part_int fields 5) (hex_encode guid) (part fields 7) (part fields 8) (part_int fields 9)
          (part_int fields 10) (part_int fields 11) (join 59 fields)).
Proof.
  intros Ht Hg Hne Hf Hlen. pose proof (zlen_nonneg (join 59 fields)). pose proof (zlen_nonneg rest).
  rewrite parse_pong_parts by done. rewrite bool_decide_eq_true_2 by done. cbn [negb Z.eqb].
  rewrite be_combine_split, Z.mod_small by (change (256 ^ Z.of_nat 2) with 65536; lia).
  cbv zeta. rewrite uwrap_id by lia. rewrite zlen_app.
  replace (35 + (_ + zlen rest) <? 35 + _) with false by lia.
  replace (35 + _ <? 35) with false by lia.
  replace (35 + zlen (join 59 fields) - 35) with (zlen (join 59 fields)) by lia.
  rewrite ztake_app_eq by done. unfold motd_of. by rewrite split_join.
Qed.

(** C36: the length check of [parsePong] wraps around: it panics exactly on the
    pongs, with the right id and magic, whose length field is at least 65501, however
    short they are; 35 bytes from the network suffice. *)
Theorem parsePong_panics data :
  Bytes data →
  parsePong data = Panic ↔
  ∃ time guid lenField rest, data = pong idUnconnectedPong time guid rakNetMagic lenField rest
    ∧ zlen time = 8 ∧ zlen guid = 8 ∧ zlen lenField = 2 ∧ 65501 ≤ be_combine lenField.
Proof.
  intros Hb. split.
  - intros Hp. destruct (decide (35 ≤ zlen data)) as [Hl|Hl].
    2:{ unfold parsePong in Hp. by replace (zlen data <? 35) with true in Hp by lia. }
    destruct (pong_parts data Hl) as (id & time & guid & magic & lenField & rest & -> & Ht & Hg & Hm & Hf).
    rewrite parse_pong_parts in Hp by done.
    destruct (Z.eqb_spec id idUnconnectedPong) as [->|]; cbn [negb] in Hp; [|done].
    case_bool_decide as Hmagic; cbn [negb] in Hp; [|done]. subst magic.
    exists time, guid, lenField, rest. split_and!; try done. cbv zeta in Hp.
    destruct (_ <? u16 _); [done|]. destruct (u16 (35 + be_combine lenField) <? 35) eqn:Hw; [|done].
    assert (Bytes lenField) as Hbl.
    { unfold pong in Hb. apply Forall_app in Hb as [_ Hb]. apply Forall_app in Hb as [_ Hb].
      apply Forall_app in Hb as [_ Hb]. apply Forall_app in Hb as [_ Hb]. by apply Forall_app in Hb as [Hb _]. }
    pose proof (be_combine_2 lenField Hbl Hf) as Hr.
    destruct (decide (65501 ≤ be_combine lenField)); [done|].
    rewrite uwrap_id in Hw by lia. lia.
  - intros (time & guid & lenField & rest & -> & Ht & Hg & Hf & Hw).
    rewrite parse_pong_parts by done. rewrite bool_decide_eq_true_2 by done. cbn [negb Z.eqb].
    assert (Bytes lenField) as Hbl.
    { unfold pong in Hb. apply Forall_app in Hb as [_ Hb]. apply Forall_app in Hb as [_ Hb].
      apply Forall_app in Hb as [_ Hb]. apply Forall_app in Hb as [_ Hb]. by apply Forall_app in Hb as [Hb _]. }
    pose proof (be_combine_2 lenField Hbl Hf) as Hr. pose proof (zlen_nonneg rest). cbv zeta.
    assert (u16 (35 + be_combine lenField) = be_combine lenField - 65501) as ->.
    { unfold uwrap. change (2 ^ 16) with 65536.
      replace (35 + be_combine lenField) with (be_combine lenField - 65501 + 1 * 65536) by lia.
      rewrite Z_mod_plus_full, Z.mod_small; lia. }
    replace (_ <? be_combine lenField - 65501) with false by lia.
    by replace (be_combine lenField - 65501 <? 35) with true by lia.
Qed.

(** The ping the probe sends: id, clock in milliseconds, magic, client GUID. *)
Lemma buildPing_layout t :
  buildPing t = Ok ([idUnconnectedPing] ++ be64 (u64 (unix_milli t)) ++ rakNetMagic ++ be64 1).
Proof.
  unfold buildPing. rewrite <-(app_nil_l (zrep 33 0)), put_byte_zrep by done.
  rewrite res_bind_Ok, app_nil_l, put_u64_zrep by done.
  rewrite res_bind_Ok, app_assoc, copy_at_zrep by done.
  rewrite res_bind_Ok, app_assoc, put_u64_zrep by done. by rewrite <-!app_assoc.
Qed.

(** ** Probing *)

Inductive probeError := ProbeDial | ProbeWrite | ProbeRead | ProbePong (e : pongError).

(** What the socket gave: it did not open, did not take the ping, gave no datagram in
    time, or a datagram, at a round-trip time. *)
Inductive exchange := NoDial | NoWrite | NoReply | Reply (data : bytes) (rtt : Z).

(** The datagram is cut at the size of the buffer. The second component is [RTTMillis],
    here in microseconds. *)
Definition Probe (t0 : Z) (x : exchange) : res probeError (MOTD * Z) :=
  match x with
  | NoDial => Err ProbeDial
  | _ =>
      match buildPing t0 with
      | Ok _ =>
          match x with
          | Reply data rtt =>
              match parsePong (ztake 2048 data) with
              | Ok motd => Ok (motd, rtt)
              | Err e => Err (ProbePong e)
              | Panic => Panic
              end
          | NoReply => Err ProbeRead
          | _ => Err ProbeWrite
          end
      | Err e => Err (ProbePong e)
      | Panic => Panic
      end
  end.

(** [Wait]: each attempt, and how the [select] after it ends; [None] when the attempts run
    out first. [pollEvery] is what it waits for between them. *)
Fixpoint wait_loop (pollEvery : Z) (attempts : list (Z * exchange * waitResult))
    : list Z * option (res ctxError (MOTD * Z)) :=
  match attempts with
  | [] => ([], None)
  | (t0, x, w) :: attempts =>
      match Probe t0 x with
      | Ok motd => ([], Some (Ok motd))
      | Panic => ([], Some Panic)
      | Err _ =>
          match w with
          | WaitCancelled e => ([pollEvery], Some (Err e))
          | WaitElapsed => let '(ds, r) := wait_loop pollEvery attempts in (pollEvery :: ds, r)
          end
      end
  end.
Definition Wait (pollEvery : Z) (attempts : list (Z * exchange * waitResult)) :=
  wait_loop (if pollEvery <=? 0 then 250 * Millisecond else pollEvery) attempts.

Lemma Probe_reply t0 data rtt :
  Probe t0 (Reply data rtt) =
    match parsePong (ztake 2048 data) with
    | Ok motd => Ok (motd, rtt) | Err e => Err (ProbePong e) | Panic => Panic
    end.
Proof. unfold Probe. by rewrite buildPing_layout. Qed.
Lemma Probe_panics t0 x : Probe t0 x = Panic ↔ ∃ data rtt, x = Reply data rtt ∧ parsePong (ztake 2048 data) = Panic.
Proof.
  unfold Probe. rewrite buildPing_layout. destruct x as [| | |data rtt]; try (by split; [|intros (? & ? & ? & ?)]).
  destruct (parsePong (ztake 2048 data)) eqn:Hp; split; try done; try (intros (? & ? & [= <- <-] & ?); congruence).
  intros _. by exists data, rtt.
Qed.

(** [Wait] retries as long as the probes fail and the context is not done, a positive
    time apart, and gives what the first probe that does not fail gives. *)
Lemma Wait_first pollEvery failed t0 x w rest :
  Forall (λ a, (∃ e, Probe a.1.1 a.1.2 = Err e) ∧ a.2 = WaitElapsed) failed →
  (∀ e, Probe t0 x ≠ Err e) →
  ∃ d, 0 < d ∧ Wait pollEvery (failed ++ (t0, x, w) :: rest)
    = (replicate (length failed) d,
       Some (match Probe t0 x with Ok m => Ok m | _ => Panic end)).
Proof.
  intros Hf Hx. exists (if pollEvery <=? 0 then 250 * Millisecond else pollEvery). split.
  { unfold Millisecond. destruct (pollEvery <=? 0) eqn:?; lia. }
  unfold Wait. generalize (if pollEvery <=? 0 then 250 * Millisecond else pollEvery). intros d.
  induction Hf as [|[[t1 x1] w1] failed [[e He] Hw] _ IH]; cbn [app wait_loop length replicate].
  - destruct (Probe t0 x) as [m|e|]; [done|by destruct (Hx e)|done].
  - cbn in He, Hw. by rewrite He, Hw, IH.
Qed.

(** ** Witnesses *)

Definition sample_fields : list bytes :=
  [str "MCPE"; str "hello"; str "748"; str "1.21.50"; str "3"; str "100"; str "1"; str "world"].

Lemma parsePong_decodes_witness :
  ∃ m, parsePong (pong idUnconnectedPong (zrep 8 0) (zrep 8 17) rakNetMagic
         (be_split 2 (zlen (join 59 sample_fields))) (join 59 sample_fields ++ [])) = Ok m
  ∧ Edition m = str "MCPE" ∧ ProtocolVer m = 748 ∧ Players m = 3.
Proof.
  eexists. split; [|split; [|split]].
  - apply (parsePong_decodes (zrep 8 0) (zrep 8 17) sample_fields []); try done.
    apply (bool_decide_unpack _). by vm_compute.
  - by vm_compute.
  - by vm_compute.
  - by vm_compute.
Defined.

(** A pong of 35 bytes, its length field 0xffff. *)
Definition crashing_pong : bytes := [28] ++ zrep 16 0 ++ rakNetMagic ++ [255; 255].

Lemma parsePong_panics_witness : zlen crashing_pong = 35 ∧ parsePong crashing_pong = Panic.
Proof.
  split; [done|]. apply parsePong_panics; [by apply (bool_decide_unpack _); vm_compute|].
  exists (zrep 8 0), (zrep 8 0), [255; 255], []. by split_and!.
Defined.

(** The datagram takes the prober down with it. *)
Example probe_crashes : Probe 0 (Reply crashing_pong 1) = Panic.
Proof. by vm_compute. Qed.
