(* ===== verification/RunOnce.v ===== *)
(** * One launch of the subprocess ([runOnce] of subprocess.go)

    [runOnce] makes the socket pair and the key, starts the process, hands it the key,
    runs the ingress session, and waits for the end of the process or of the session. Here
    its calls interleave with the process, the goroutine that waits for it, the readers
    of its output, and the session as SessionSys.v has it. A call returns anything. *)
From S2P Require Import Prelude GoInt Sha256 Abi Protobuf Packet Supervisor Session SessionSys.

(** An open file, by what became of it. *)
Inductive fd := FdNone | FdOpen | FdClosed.

(** What [cmd.Start] or [cmd.Wait] can fail with. *)
Inductive execErr := ExitError (code : Z) | CtxError (e : ctxError) | OtherError.
Inductive proc := ProcNone | ProcRunning | ProcExited (status : option execErr) | ProcReaped (status : option execErr).

(** The errors of [runOnce]. *)
Inductive onceErr :=
| OSocketpair | ONonblock | OKey | OBootstrap (e : IngressError) | OStdout | OStderr | OStart (e : execErr)
| OSend | OExited (code : Z) | OWait (e : execErr) | OSession (reason : closeReason).

(** What the supervisor sees of them: it unwraps [context.Canceled]. *)
Definition once_result (e : option onceErr) : onceResult :=
  match e with
  | None => OnceNil
  | Some (OStart (CtxError Canceled)) | Some (OWait (CtxError Canceled)) => OnceCanceled
  | Some _ => OnceFailed
  end.

(** [err] after the [select]: what [Wait] returned, or the session's error. *)
Inductive endErr := EWait (e : execErr) | ESession (reason : closeReason).
Definition final_error (e : option endErr) : option onceErr :=
  match e with
  | None => None
  | Some (EWait (ExitError code)) => Some (OExited code)
  | Some (EWait e) => Some (OWait e)
  | Some (ESession r) => Some (OSession r)
  end.

(** Where [runOnce] is. *)
Inductive lphase :=
| LSocket | LNonblock | LKey | LBootstrap | LStdout | LStderr | LStart | LSend | LAbort | LActivate | LSpawn
| LSelect | LKilled | LSession (e : option endErr) | LPipes (e : option endErr)
| LReturned (e : option onceErr) | LPanic.

(** What the call it makes returns, or which case of the [select] is taken. *)
Inductive reply := Success | Failure (e : execErr) | Random (key : bytes) | Wrote (w : writeResult) | PickWait | PickDone.

Section once.
Context {A : IngressAbi} {M : Mac} {B : Type} `{SB : IngressSink B}.
(** [ingressSubprocessSupported]; [broker.activate] for the session. *)
Context (supported : bool) (activate : Z → B → B).
Abbreviation sys := (@SessionSys.sys B).

Record launch := Launch {
  la_phase : lphase;
  la_parent : fd;     (* parentIngress, until the session owns it *)
  la_child : fd;
  la_stdout : fd;     (* the read ends of the pipes *)
  la_stderr : fd;
  la_stdoutW : fd;    (* this process's write ends, for [cmd.Start] *)
  la_stderrW : fd;
  la_key : option bytes;          (* [key], with its deferred wiping *)
  la_bootstrap : bytes;
  la_proc : proc;
  la_idle : option (session B);   (* the session, created and not started *)
  la_sys : option sys;            (* the session once started *)
  la_broker : B;                  (* the broker, until the session is started *)
  la_waiting : bool;              (* the goroutine in [cmd.Wait] *)
  la_waitDone : option (option execErr);
  la_readers : Z;                 (* the goroutines in [pipeToLogger] *)
  la_healthy : bool;
}.

Definition at_phase (p : lphase) (l : launch) : launch :=
  Launch p (la_parent l) (la_child l) (la_stdout l) (la_stderr l) (la_stdoutW l) (la_stderrW l) (la_key l) (la_bootstrap l) (la_proc l) (la_idle l)
    (la_sys l) (la_broker l) (la_waiting l) (la_waitDone l) (la_readers l) (la_healthy l).
Definition with_pair (parent child : fd) (l : launch) : launch :=
  Launch (la_phase l) parent child (la_stdout l) (la_stderr l) (la_stdoutW l) (la_stderrW l) (la_key l) (la_bootstrap l) (la_proc l) (la_idle l)
    (la_sys l) (la_broker l) (la_waiting l) (la_waitDone l) (la_readers l) (la_healthy l).
Definition with_pipes (stdout stderr : fd) (l : launch) : launch :=
  Launch (la_phase l) (la_parent l) (la_child l) stdout stderr (la_stdoutW l) (la_stderrW l) (la_key l) (la_bootstrap l) (la_proc l) (la_idle l)
    (la_sys l) (la_broker l) (la_waiting l) (la_waitDone l) (la_readers l) (la_healthy l).
Definition with_writers (stdoutW stderrW : fd) (l : launch) : launch :=
  Launch (la_phase l) (la_parent l) (la_child l) (la_stdout l) (la_stderr l) stdoutW stderrW (la_key l) (la_bootstrap l)
    (la_proc l) (la_idle l) (la_sys l) (la_broker l) (la_waiting l) (la_waitDone l) (la_readers l) (la_healthy l).
Definition with_key (key : option bytes) (bootstrap : bytes) (l : launch) : launch :=
  Launch (la_phase l) (la_parent l) (la_child l) (la_stdout l) (la_stderr l) (la_stdoutW l) (la_stderrW l) key bootstrap (la_proc l) (la_idle l)
    (la_sys l) (la_broker l) (la_waiting l) (la_waitDone l) (la_readers l) (la_healthy l).
Definition with_proc (p : proc) (l : launch) : launch :=
  Launch (la_phase l) (la_parent l) (la_child l) (la_stdout l) (la_stderr l) (la_stdoutW l) (la_stderrW l) (la_key l) (la_bootstrap l) p (la_idle l)
    (la_sys l) (la_broker l) (la_waiting l) (la_waitDone l) (la_readers l) (la_healthy l).
Definition with_idle (s : option (session B)) (b : B) (l : launch) : launch :=
  Launch (la_phase l) (la_parent l) (la_child l) (la_stdout l) (la_stderr l) (la_stdoutW l) (la_stderrW l) (la_key l) (la_bootstrap l) (la_proc l) s
    (la_sys l) b (la_waiting l) (la_waitDone l) (la_readers l) (la_healthy l).
Definition with_sys (y : option sys) (l : launch) : launch :=
  Launch (la_phase l) (la_parent l) (la_child l) (la_stdout l) (la_stderr l) (la_stdoutW l) (la_stderrW l) (la_key l) (la_bootstrap l) (la_proc l) (la_idle l)
    y (la_broker l) (la_waiting l) (la_waitDone l) (la_readers l) (la_healthy l).
Definition with_goroutines (waiting : bool) (waitDone : option (option execErr)) (readers : Z) (l : launch) : launch :=
  Launch (la_phase l) (la_parent l) (la_child l) (la_stdout l) (la_stderr l) (la_stdoutW l) (la_stderrW l) (la_key l) (la_bootstrap l) (la_proc l) (la_idle l)
    (la_sys l) (la_broker l) waiting waitDone readers (la_healthy l).
Definition with_healthy (h : bool) (l : launch) : launch :=
  Launch (la_phase l) (la_parent l) (la_child l) (la_stdout l) (la_stderr l) (la_stdoutW l) (la_stderrW l) (la_key l) (la_bootstrap l) (la_proc l) (la_idle l)
    (la_sys l) (la_broker l) (la_waiting l) (la_waitDone l) (la_readers l) h.

Definition close_fd (f : fd) : fd := match f with FdOpen => FdClosed | f => f end.
Definition closeIngressPair (l : launch) : launch := with_pair (close_fd (la_parent l)) (close_fd (la_child l)) l.
Definition close_pipes (l : launch) : launch := with_pipes (close_fd (la_stdout l)) (close_fd (la_stderr l)) l.

(** [cmd.Start] closes the write ends, whether it succeeds or not. *)
Definition close_writers (l : launch) : launch := with_writers (close_fd (la_stdoutW l)) (close_fd (la_stderrW l)) l.

(** The deferred wiping of the key; and a return. *)
Definition wipe (l : launch) : launch := with_key ((λ k, zrep (zlen k) 0) <$> la_key l) (la_bootstrap l) l.
Definition return_ (e : option onceErr) (l : launch) : launch := at_phase (LReturned e) (wipe l).

Definition is_ok (r : reply) : bool := match r with Success => true | _ => false end.

(** [newIngressSocketpair]: its two system calls that can fail. *)
Definition socketpair (r : reply) (l : launch) : launch :=
  if is_ok r then at_phase LNonblock (with_pair FdOpen FdOpen l) else return_ (Some OSocketpair) l.
Definition set_nonblock (r : reply) (l : launch) : launch :=
  if is_ok r then at_phase LKey l else return_ (Some ONonblock) (closeIngressPair l).

(** The next call of [runOnce] and what it does with the reply; [None]: it waits, or has
    returned. *)
Definition once_step (generation : Z) (r : reply) (l : launch) : option launch :=
  match la_phase l with
  | LSocket =>
      if negb supported then Some (at_phase LStdout l)
      else Some (socketpair r l)
  | LNonblock => Some (set_nonblock r l)
  | LKey =>
      match r with
      | Random key => Some (at_phase LBootstrap (with_key (Some key) [] l))
      | _ => Some (return_ (Some OKey) (closeIngressPair l))
      end
  | LBootstrap =>
      key ← la_key l;
      match encodeSubprocessBootstrap generation key with
      | Ok bootstrap => Some (at_phase LStdout (with_key (Some key) bootstrap l))
      | Err e => Some (return_ (Some (OBootstrap e)) (closeIngressPair l))
      | Panic => Some (at_phase LPanic l)
      end
  | LStdout =>
      if is_ok r then Some (at_phase LStderr (with_writers FdOpen (la_stderrW l) (with_pipes FdOpen (la_stderr l) l)))
      else Some (return_ (Some OStdout) (closeIngressPair l))
  | LStderr =>
      if is_ok r then Some (at_phase LStart (with_writers (la_stdoutW l) FdOpen (with_pipes (la_stdout l) FdOpen l)))
      else Some (return_ (Some OStderr) (closeIngressPair (close_pipes l)))
  | LStart =>
      let l := close_writers l in
      match r with
      | Failure e => Some (return_ (Some (OStart e)) (closeIngressPair (close_pipes l)))
      | _ =>
          let l := with_proc ProcRunning (with_pair (la_parent l) (close_fd (la_child l)) l) in
          Some (at_phase (match la_parent l with FdNone => LSpawn | _ => LSend end) l)
      end
  | LSend =>     (* newSubprocessIngressSession, writeFullPacket *)
      key ← la_key l;
      let session := newSubprocessIngressSession generation key (la_broker l) in
      let w := match r with Wrote w => w | _ => WriteErr end in
      match writeFullPacket (la_bootstrap l) w with
      | Some reason =>
          let session := close reason session in
          Some (at_phase LAbort (with_pair FdClosed (la_child l) (with_idle (Some session) (ss_broker session) l)))
      | None => Some (at_phase LActivate (with_idle (Some session) (la_broker l) l))
      end
  | LAbort =>    (* Signal, Wait, and the pipes *)
      match la_proc l with
      | ProcExited st => Some (return_ (Some OSend) (close_pipes (with_proc (ProcReaped st) l)))
      | _ => None
      end
  | LActivate =>    (* activate, session.start *)
      s ← la_idle l;
      let y := Sys (set_broker (activate generation (la_broker l)) s) ∅ RRead 1 in
      Some (at_phase LSpawn (with_idle None (la_broker l) (with_sys (Some y) l)))
  | LSpawn => Some (at_phase LSelect (with_goroutines true None 2 l))
  | LSelect =>
      match la_sys l, r with
      | None, _ =>
          st ← la_waitDone l;
          Some (at_phase (LPipes (EWait <$> st)) (with_goroutines (la_waiting l) None (la_readers l) l))
      | Some y, PickDone =>
          if ss_done (y_session y) then Some (at_phase LKilled l) else None
      | Some y, _ =>
          st ← la_waitDone l;
          Some (at_phase (LSession (EWait <$> st)) (with_goroutines (la_waiting l) None (la_readers l)
            (with_sys (Some (with_session (close ReasonExit (y_session y)) y)) l)))
      end
  | LKilled =>
      y ← la_sys l;
      st ← la_waitDone l;
      let err := match ss_closeErr (y_session y) with Some reason => Some (ESession reason) | None => EWait <$> st end in
      Some (at_phase (LSession err) (with_goroutines (la_waiting l) None (la_readers l) l))
  | LSession e =>
      y ← la_sys l;
      match y_reader y with
      | RStopped =>
          if ss_opWG (y_session y) =? 0
          then Some (at_phase (LPipes e) (with_sys (Some (with_session (wait (y_session y)) y)) l)) else None
      | _ => None
      end
  | LPipes e => if la_readers l =? 0 then Some (with_healthy false (return_ (final_error e) l)) else None
  | LReturned _ | LPanic => None
  end.

(** Everything else: the process, [cmd.Wait], which closes the pipes when the process has
    ended, the readers, the session's goroutines, and the users of the broker. *)
Inductive ostep (generation : Z) : launch → launch → Prop :=
| o_call r l l' :
    (∀ key, r = Random key → Bytes key ∧ zlen key = SubprocessIPCKeyBytes) →
    once_step generation r l = Some l' → ostep generation l l'
| o_exit st l : la_proc l = ProcRunning → ostep generation l (with_proc (ProcExited st) l)
| o_wait st l :
    la_waiting l = true → la_proc l = ProcExited st →
    ostep generation l (with_goroutines false (Some st) (la_readers l) (close_pipes (with_proc (ProcReaped st) l)))
| o_ready l : 0 < la_readers l → ostep generation l (with_healthy true l)
| o_eof l : 0 < la_readers l →
    ostep generation l (with_goroutines (la_waiting l) (la_waitDone l) (la_readers l - 1) l)
| o_session y es y' l : la_sys l = Some y → sstep y es y' → ostep generation l (with_sys (Some y') l)
| o_broker b l : la_sys l = None → sink_other (la_broker l) b → ostep generation l (with_idle (la_idle l) b l).

Definition once_start (b : B) : launch :=
  Launch LSocket FdNone FdNone FdNone FdNone FdNone FdNone None [] ProcNone None None b false None 0 false.

(** The generation is a new one: [subprocessGenerationCounter] has just been raised to it. *)
Inductive oreach (generation : Z) : launch → Prop :=
| oreach_start b : ¬ sink_live generation b → oreach generation (once_start b)
| oreach_step l l' : oreach generation l → ostep generation l l' → oreach generation l'.
End once.
