(* ===== verification/RunOnceProps.v ===== *)
(** * What a launch of the subprocess leaves

    The invariant of [RunOnce], by the place [runOnce] is at, and the theorems. *)
From S2P Require Import Prelude GoInt Sha256 Abi Protobuf Packet Supervisor Broker Session SessionSys SessionProps SessionSpec RunOnce.

Section props.
Context {A : IngressAbi} {AL : AbiLaws A} {M : Mac} {B : Type} `{SB : IngressSink B} {SL : SinkLaws B}.
Context (supported : bool) (activate : Z → B → B).
Abbreviation sys := (@SessionSys.sys B).
Abbreviation launch := (RunOnce.launch (B := B)).
Abbreviation once_step := (RunOnce.once_step supported activate).
Abbreviation ostep := (RunOnce.ostep supported activate).
Abbreviation oreach := (RunOnce.oreach supported activate).

(** ** The session *)

(** Nothing of a session is left: its goroutines have ended, its connection is closed, the
    broker does not serve it, and its copy of the key is wiped. *)
Record finished (g : Z) (y : sys) : Prop := {
  fi_reader : y_reader y = RStopped;
  fi_threads : y_threads y = ∅;
  fi_closing : closing g (y_session y);
  fi_closed : ss_closeOnce (y_session y) = true;
  fi_key : ss_key (y_session y) = zrep (zlen (ss_key (y_session y))) 0;
}.

Lemma zrep_zrep (s : bytes) : zrep (zlen (zrep (zlen s) 0)) 0 = zrep (zlen s) 0.
Proof. by rewrite zlen_zrep by apply zlen_nonneg. Qed.

Lemma finished_step g y es y' : finished g y → sstep y es y' → finished g y'.
Proof.
  intros [Hr Ht Hcl Hc Hk] Hs.
  assert (ss_accepting (y_session y) = false) as Ha by by destruct (cg_closed _ _ Hcl Hc).
  assert (∀ s, calm (y_session y) s → finished g (with_session s y)) as Hcalm.
  { intros s Hs'. constructor; cbn; rewrite ?(ca_key _ _ Hs'), ?(ca_closeOnce _ _ Hs'); try done. by eapply calm_closing. }
  destruct Hs; rewrite ?Ht in *; simplify_map_eq; try done; try congruence.
  - unfold admit_op in *. by rewrite Ha in *.
  - assert (close reason (y_session y) = y_session y) as -> by (unfold close; by rewrite Hc). by destruct y.
  - apply Hcalm, expirePending_calm.
  - apply Hcalm. by split.
  - constructor; cbn; try done. destruct Hcl as [Hg Ho Hd]. split; cbn; try done.
    intros Hc'. destruct (Hd Hc') as (? & ? & ? & ? & Hl). split_and!; try done. by eapply sink_other_dead.
  - constructor; cbn; try done; [|by rewrite zrep_zrep]. by destruct Hcl.
Qed.

(** ** The invariant *)

(** The key was made and the bootstrap packet carries it. *)
Definition carries (g : Z) (key bootstrap : bytes) : Prop :=
  Bytes key ∧ zlen key = SubprocessIPCKeyBytes ∧ encodeSubprocessBootstrap g key = Ok bootstrap.
Definition keyed (g : Z) (l : launch) : Prop :=
  if supported then ∃ key, la_key l = Some key ∧ carries g key (la_bootstrap l) else la_key l = None.
Definition wiped (l : launch) : Prop := ∀ k, la_key l = Some k → k = zrep (zlen k) 0.

(** The session is a run of [SessionSys] with the key of the bootstrap. *)
Definition session_runs (g : Z) (l : launch) : Prop :=
  ∀ y, la_sys l = Some y → ∃ key tr, carries g key (la_bootstrap l) ∧ srun g key tr y.
Definition session_over (g : Z) (l : launch) : Prop :=
  match la_sys l with Some y => finished g y | None => ¬ sink_live g (la_broker l) end.

(** No goroutine was started, and no session. *)
Definition early (g : Z) (l : launch) : Prop :=
  la_sys l = None ∧ ¬ sink_live g (la_broker l) ∧ la_waiting l = false ∧ la_waitDone l = None ∧ la_readers l = 0
  ∧ la_healthy l = false.
Definition owned (f : fd) : Prop := f = if supported then FdOpen else FdNone.
Definition alive (p : proc) : Prop := p = ProcRunning ∨ ∃ st, p = ProcExited st.
(** The process has been started. *)
Definition started (g : Z) (l : launch) : Prop :=
  la_child l ≠ FdOpen ∧ keyed g l ∧ (if supported then is_Some (la_sys l) else la_sys l = None ∧ la_parent l = FdNone).
(** [cmd.Wait]: in progress, or over and its result in the channel. *)
Definition waits_for (l : launch) : Prop :=
  la_waiting l = true ∧ alive (la_proc l) ∧ la_waitDone l = None
  ∨ la_waiting l = false ∧ la_stdout l ≠ FdOpen ∧ la_stderr l ≠ FdOpen
    ∧ ∃ st, la_proc l = ProcReaped st ∧ la_waitDone l = Some st.
(** ... received. *)
Definition waited_for (l : launch) : Prop :=
  la_waiting l = false ∧ la_stdout l ≠ FdOpen ∧ la_stderr l ≠ FdOpen ∧ la_waitDone l = None
  ∧ ∃ st, la_proc l = ProcReaped st.

(** What [runOnce] ends. *)
Record ended_clean (g : Z) (l : launch) : Prop := {
  lc_files : la_child l ≠ FdOpen ∧ la_stdout l ≠ FdOpen ∧ la_stderr l ≠ FdOpen;
  lc_parent : la_sys l = None → la_parent l ≠ FdOpen;
  lc_proc : la_proc l = ProcNone ∨ ∃ st, la_proc l = ProcReaped st;
  lc_goroutines : la_waiting l = false ∧ la_readers l = 0;
  lc_wiped : wiped l;
  lc_healthy : la_healthy l = false;
  lc_session : session_over g l;
}.

Definition phase_inv (g : Z) (l : launch) : Prop :=
  match la_phase l with
  | LSocket => early g l ∧ la_parent l = FdNone ∧ la_child l = FdNone ∧ la_stdout l = FdNone ∧ la_stderr l = FdNone
      ∧ la_key l = None ∧ la_proc l = ProcNone
  | LNonblock => early g l ∧ supported = true ∧ la_parent l = FdOpen ∧ la_child l = FdOpen ∧ la_stdout l = FdNone
      ∧ la_stderr l = FdNone ∧ la_key l = None ∧ la_proc l = ProcNone
  | LKey => early g l ∧ supported = true ∧ owned (la_parent l) ∧ owned (la_child l) ∧ la_stdout l = FdNone
      ∧ la_stderr l = FdNone ∧ la_key l = None ∧ la_proc l = ProcNone
  | LBootstrap => early g l ∧ supported = true ∧ owned (la_parent l) ∧ owned (la_child l) ∧ la_stdout l = FdNone
      ∧ la_stderr l = FdNone ∧ (∃ key, la_key l = Some key ∧ Bytes key ∧ zlen key = SubprocessIPCKeyBytes)
      ∧ la_proc l = ProcNone
  | LStdout => early g l ∧ owned (la_parent l) ∧ owned (la_child l) ∧ la_stdout l = FdNone ∧ la_stderr l = FdNone
      ∧ keyed g l ∧ la_proc l = ProcNone
  | LStderr => early g l ∧ owned (la_parent l) ∧ owned (la_child l) ∧ la_stdout l = FdOpen ∧ la_stderr l = FdNone
      ∧ keyed g l ∧ la_proc l = ProcNone
  | LStart => early g l ∧ owned (la_parent l) ∧ owned (la_child l) ∧ la_stdout l = FdOpen ∧ la_stderr l = FdOpen
      ∧ keyed g l ∧ la_proc l = ProcNone
  | LSend => early g l ∧ supported = true ∧ la_parent l = FdOpen ∧ la_child l ≠ FdOpen ∧ keyed g l ∧ alive (la_proc l)
  | LAbort => early g l ∧ la_parent l = FdClosed ∧ la_child l ≠ FdOpen ∧ keyed g l ∧ alive (la_proc l)
  | LActivate => early g l ∧ supported = true ∧ la_child l ≠ FdOpen ∧ keyed g l ∧ alive (la_proc l)
      ∧ ∃ key b, la_idle l = Some (newSubprocessIngressSession g key b) ∧ carries g key (la_bootstrap l)
  | LSpawn => started g l ∧ alive (la_proc l) ∧ la_waiting l = false ∧ la_waitDone l = None ∧ la_readers l = 0
      ∧ la_healthy l = false ∧ (la_sys l = None → ¬ sink_live g (la_broker l))
  | LSelect => started g l ∧ waits_for l ∧ 0 ≤ la_readers l ∧ (la_sys l = None → ¬ sink_live g (la_broker l))
  | LKilled => started g l ∧ waits_for l ∧ 0 ≤ la_readers l
      ∧ ∃ y, la_sys l = Some y ∧ ss_closeOnce (y_session y) = true
  | LSession e => started g l ∧ waited_for l ∧ 0 ≤ la_readers l
      ∧ ∃ y, la_sys l = Some y ∧ ss_closeOnce (y_session y) = true
  | LPipes e => started g l ∧ waited_for l ∧ 0 ≤ la_readers l ∧ session_over g l
  | LReturned e => ended_clean g l
  | LPanic => False
  end.

Record oinv (g : Z) (l : launch) : Prop := {
  on_runs : session_runs g l;
  on_phase : phase_inv g l;
}.

Lemma wiped_wipe l : wiped (wipe l).
Proof. intros k. unfold wipe. cbn. destruct (la_key l) as [k0|]; [|done]. cbn. intros [= <-]. by rewrite zrep_zrep. Qed.

(** A return before anything was started. *)
Lemma early_return g e l :
  early g l → la_child l ≠ FdOpen → la_stdout l ≠ FdOpen → la_stderr l ≠ FdOpen → la_parent l ≠ FdOpen →
  la_proc l = ProcNone ∨ (∃ st, la_proc l = ProcReaped st) → oinv g (return_ e l).
Proof.
  intros (Hs & Hb & Hw & Hd & Hr & Hh) Hc Ho He Hp Hproc. split.
  - intros y Hy. unfold return_, at_phase, wipe in Hy. cbn in Hy. congruence.
  - constructor; try done; [apply wiped_wipe|]. unfold session_over. cbn. by rewrite Hs.
Qed.
Lemma close_fd_closed f : close_fd f ≠ FdOpen.
Proof. by destruct f. Qed.

(** ** Preservation *)

Lemma encode_not_panic g key : zlen key = SubprocessIPCKeyBytes → encodeSubprocessBootstrap g key ≠ Panic.
Proof. intros Hk. rewrite encodeSubprocessBootstrap_layout. by destruct (_ || _). Qed.

Lemma early_same g p l l' :
  early g l → phase_inv g (at_phase p l') → la_sys l' = None → oinv g (at_phase p l').
Proof. intros _ H Hs. split; [|done]. intros y. cbn. by rewrite Hs. Qed.

(** Before the session is started. *)
Definition starting_up (p : lphase) : bool :=
  match p with
  | LSocket | LNonblock | LKey | LBootstrap | LStdout | LStderr | LStart | LSend | LAbort | LActivate => true
  | _ => false
  end.
Lemma starting_early g l : phase_inv g l → starting_up (la_phase l) = true → early g l.
Proof. unfold phase_inv. destruct (la_phase l); try done; by intros [? _]. Qed.

Lemma once_early_inv g r l l' :
  (∀ key, r = Random key → Bytes key ∧ zlen key = SubprocessIPCKeyBytes) →
  oinv g l → once_step g r l = Some l' → starting_up (la_phase l) = true → oinv g l'.
Proof.
  intros Hr [Hrun Hph] Hs Hup. pose proof (starting_early g l Hph Hup) as He. pose proof He as (Hsys & Hb & Hw & Hd & Hre & Hh).
  destruct l as [ph pa ch so se sow sew key bs pr idle y b w wd rd hy]. cbn in *. subst y w wd rd hy.
  unfold once_step, RunOnce.once_step, socketpair, set_nonblock in Hs. cbn in Hs. unfold phase_inv in Hph. cbn in Hph.
  destruct ph; cbn in *; try done; try (destruct Hph as (_ & Hph)).
  - destruct Hph as (-> & -> & -> & -> & -> & ->). unfold owned.
    destruct supported eqn:Hsu; cbn in Hs; [destruct (is_ok r)|]; injection Hs as <-;
      try (by apply early_return; auto); apply (early_same g _ _ _ He); try done;
      unfold phase_inv; cbn; unfold owned, keyed; rewrite Hsu; done.
  - destruct Hph as (Hsu & -> & -> & -> & -> & -> & ->). destruct (is_ok r); injection Hs as <-.
    + apply (early_same g _ _ _ He); [|done]. unfold phase_inv, owned. cbn. by rewrite Hsu.
    + apply early_return; try done; try apply close_fd_closed. auto.
  - destruct Hph as (Hsu & -> & -> & -> & -> & -> & ->). unfold owned in *. rewrite Hsu in *.
    destruct r; injection Hs as <-; try (by apply early_return; auto).
    destruct (Hr _ eq_refl). apply (early_same g _ _ _ He); [|done].
    unfold phase_inv, owned. cbn. rewrite Hsu. split_and!; eauto; done.
  - destruct Hph as (Hsu & -> & -> & -> & -> & (k & -> & Hk & Hl) & ->). cbn in Hs.
    destruct (encodeSubprocessBootstrap g k) as [bs'|e|] eqn:Henc; [| |by destruct (encode_not_panic g k Hl)]; injection Hs as <-.
    + apply (early_same g _ _ _ He); [|done]. unfold phase_inv, keyed, owned. cbn. rewrite Hsu. split_and!; try done. by exists k.
    + apply early_return; try done; try apply close_fd_closed. auto.
  - destruct Hph as (-> & -> & -> & -> & Hk & ->). destruct (is_ok r); injection Hs as <-.
    + by apply (early_same g _ _ _ He).
    + apply early_return; try done; try apply close_fd_closed. auto.
  - destruct Hph as (-> & -> & -> & -> & Hk & ->). destruct (is_ok r); injection Hs as <-.
    + by apply (early_same g _ _ _ He).
    + apply early_return; try done; try apply close_fd_closed. auto.
  - destruct Hph as (Hpa & Hch & -> & -> & Hk & ->).
    assert (close_fd ch ≠ FdOpen) as Hcl by apply close_fd_closed.
    assert (∀ e, oinv g (return_ (Some (OStart e)) (closeIngressPair (close_pipes (Launch LStart pa ch FdOpen FdOpen (close_fd sow) (close_fd sew) key bs ProcNone idle None b false None 0 false))))) as Hfail.
    { intros e. apply early_return; try done; try apply close_fd_closed. auto. }
    unfold owned in Hpa, Hch. destruct supported eqn:Hsu; subst pa ch; destruct r; injection Hs as <-; try apply Hfail;
      apply (early_same g _ _ _ He); try done; unfold phase_inv, alive, started, keyed in *; cbn; rewrite ?Hsu in *;
      split_and!; eauto; done.
  - destruct Hph as (Hsu & -> & Hch & Hk & Hal). unfold keyed in Hk. rewrite Hsu in Hk. destruct Hk as (k & Hk & Hcar). cbn in Hk, Hcar. subst key. cbn in Hs.
    destruct (writeFullPacket _ _) as [reason|]; injection Hs as <-; (apply (early_same g _ _ _ He); [|done]);
      unfold phase_inv, keyed, early; cbn; rewrite ?Hsu; split_and!; eauto; try done.
    apply sink_deactivate_dead.
  - destruct Hph as (-> & Hch & Hk & Hal). destruct pr as [| |st|]; try done. injection Hs as <-.
    apply early_return; try done; try apply close_fd_closed. eauto.
  - destruct Hph as (Hsu & Hch & Hk & Hal & k & b0 & -> & Hcar). cbn in Hs. injection Hs as <-. split.
    + intros y. cbn. intros [= <-]. exists k, []. split; [done|]. apply (srun_start g k (activate g b)).
    + unfold phase_inv, started, keyed in *. cbn. rewrite Hsu in *. split_and!; eauto; done.
Qed.

(** A session that runs on, or is closed or waited for by [runOnce]. *)
Lemma runs_step g l y y' es l' :
  session_runs g l → la_sys l = Some y → sstep y es y' →
  la_sys l' = Some y' → la_bootstrap l' = la_bootstrap l → session_runs g l'.
Proof.
  intros Hrun Hy Hs Hy' Hb y0 Hy0. rewrite Hy' in Hy0. injection Hy0 as <-.
  destruct (Hrun y Hy) as (key & tr & Hc & Hr). exists key, (tr ++ es). rewrite Hb. split; [done|].
  by eapply srun_step.
Qed.
Lemma runs_same g l l' :
  session_runs g l → la_sys l' = la_sys l → la_bootstrap l' = la_bootstrap l → session_runs g l'.
Proof. intros Hrun Hs Hb y. rewrite Hs, Hb. apply Hrun. Qed.
Lemma waited_finished g key tr y :
  srun g key tr y → y_reader y = RStopped → ss_opWG (y_session y) = 0 → finished g (with_session (wait (y_session y)) y).
Proof.
  intros Hrun Hr Ho. destruct (srun_lifecycle _ _ _ _ Hrun) as [Hcl Hops Hst _].
  constructor; cbn; try done; [|by destruct Hcl|auto|by rewrite zrep_zrep].
  apply map_size_empty_inv. lia.
Qed.

(** From there on. *)
Lemma once_late_inv g r l l' :
  oinv g l → once_step g r l = Some l' → starting_up (la_phase l) = false → oinv g l'.
Proof.
  intros [Hrun Hph] Hs Hup. unfold phase_inv, waits_for, waited_for in Hph. unfold once_step, RunOnce.once_step, socketpair, set_nonblock in Hs.
  destruct l as [ph pa ch so se sow sew key bs pr idle sy b w wd rd hy]. cbn in *.
  destruct ph; try done.
  - injection Hs as <-. destruct Hph as (Hst & Hal & -> & -> & -> & -> & Hb).
    split; [by eapply runs_same|]. unfold phase_inv, waits_for. cbn. split_and!; try done. left. done.
  - destruct Hph as (Hst & Hw & Hrd & Hb). destruct sy as [y|].
    + assert (wd ≫= (λ st, Some (at_phase (LSession (EWait <$> st)) (with_goroutines w None rd
          (with_sys (Some (with_session (close ReasonExit (y_session y)) y))
            (Launch LSelect pa ch so se sow sew key bs pr idle (Some y) b w wd rd hy))))) = Some l' → oinv g l') as Hwait.
      { destruct wd as [st|]; [|done]. cbn. intros [= <-]. destruct Hw as [(? & ? & ?)|(-> & Hso & Hse & st' & -> & _)]; [done|].
        split; [by eapply (runs_step _ _ y); [done..|apply y_close| |]|].
        unfold phase_inv, started, keyed, waited_for in *. cbn. destruct supported; cbn in *; split_and!; eauto; try naive_solver;
        eexists; (split; [done|]); apply close_closed. }
      destruct r; auto. destruct (ss_done (y_session y)) eqn:Hd; [|done]. injection Hs as <-.
      split; [by eapply runs_same|]. unfold phase_inv, started in *. cbn in *. split_and!; try done; [naive_solver..|].
      exists y. split; [done|]. destruct (Hrun y eq_refl) as (k & tr & _ & Hr).
      destruct (lc_closing _ _ _ (srun_lifecycle _ _ _ _ Hr)) as [_ Ho _].
      destruct (ss_closeOnce (y_session y)); [done|]. destruct Ho as (_ & ? & _); [done|congruence].
    + destruct wd as [st|]; [|by destruct r]. 
      assert (l' = at_phase (LPipes (EWait <$> st)) (with_goroutines w None rd (Launch LSelect pa ch so se sow sew key bs pr idle None b w (Some st) rd hy))) as -> by (by destruct r; injection Hs as <-).
      destruct Hw as [(? & ? & ?)|(-> & Hso & Hse & st' & -> & _)]; [done|].
      split; [by eapply runs_same|]. unfold phase_inv, started, keyed, waited_for, session_over in *. cbn in *. split_and!; eauto; naive_solver.
  - destruct Hph as (Hst & Hw & Hrd & y & -> & Hc). cbn in Hs. destruct wd as [st|]; [|done]. injection Hs as <-.
    destruct Hw as [(? & ? & ?)|(-> & Hso & Hse & st' & -> & _)]; [done|].
    split; [by eapply runs_same|]. unfold phase_inv, started, keyed, waited_for in *. cbn in *. split_and!; eauto; naive_solver.
  - destruct Hph as (Hst & Hw & Hrd & y & -> & Hc). cbn in Hs. destruct (y_reader y) eqn:Hr; try done.
    destruct (Z.eqb_spec (ss_opWG (y_session y)) 0) as [Ho|]; [|done]. injection Hs as <-.
    destruct (Hrun y eq_refl) as (k & tr & Hcar & Hrn). split.
    { by eapply (runs_step _ _ y); [done..|by apply y_wait| |]. }
    unfold phase_inv, started, keyed, waited_for, session_over in *. cbn in *.
    split_and!; eauto; try (by eapply waited_finished); destruct supported; naive_solver.
  - destruct Hph as ((Hch & Hk & Hs') & (-> & Hso & Hse & -> & st & ->) & Hrd & Hov). destruct (Z.eqb_spec rd 0) as [->|]; [|done].
    injection Hs as <-. split; [by eapply runs_same|]. constructor; cbn; eauto; [|apply wiped_wipe].
    intros Hn. cbn in *. destruct supported; [by destruct Hs' as [? ?]; congruence|]. by destruct Hs' as [_ ->].
Qed.

(** The rest of the process. *)
Lemma env_exit_inv g st l : oinv g l → la_proc l = ProcRunning → oinv g (with_proc (ProcExited st) l).
Proof.
  intros [Hrun Hph] Hp. split; [by eapply runs_same|].
  destruct l as [ph pa ch so se sow sew key bs pr idle sy b w wd rd hy]. cbn in Hp. subst pr.
  unfold phase_inv, waits_for, waited_for, started, keyed, early, alive in *. destruct ph; cbn in *; try naive_solver.
  destruct Hph as [Hf Hpa Hpr Hg Hw Hh Hs]. cbn in *. destruct Hpr as [|[? ?]]; done.
Qed.
Lemma env_wait_inv g st l :
  oinv g l → la_waiting l = true → la_proc l = ProcExited st →
  oinv g (with_goroutines false (Some st) (la_readers l) (close_pipes (with_proc (ProcReaped st) l))).
Proof.
  intros [Hrun Hph] Hw Hp. split; [by eapply runs_same|].
  destruct l as [ph pa ch so se sow sew key bs pr idle sy b w wd rd hy]. cbn in Hw, Hp. subst w pr.
  unfold phase_inv, waits_for, waited_for, started, keyed, early, alive in *.
  pose proof (close_fd_closed so). pose proof (close_fd_closed se).
  destruct ph; cbn in *; try naive_solver.
  destruct Hph as [_ _ _ [? _] _ _ _]. done.
Qed.
Lemma env_reader_inv g l : oinv g l → 0 < la_readers l →
  oinv g (with_healthy true l) ∧ oinv g (with_goroutines (la_waiting l) (la_waitDone l) (la_readers l - 1) l).
Proof.
  intros [Hrun Hph] Hr. split; (split; [by eapply runs_same|]);
    destruct l as [ph pa ch so se sow sew key bs pr idle sy b' w wd rd hy]; cbn in Hr;
    unfold phase_inv, waits_for, waited_for, started, keyed, early in *; destruct ph; cbn in *;
    repeat match goal with H : _ ∧ _ |- _ => destruct H end; subst; try lia; try (split_and!; done || lia);
    destruct Hph as [_ _ _ [_ ?] _ _ _]; cbn in *; lia.
Qed.
Lemma env_session_inv g y es y' l :
  oinv g l → la_sys l = Some y → sstep y es y' → oinv g (with_sys (Some y') l).
Proof.
  intros [Hrun Hph] Hy Hs. split; [by eapply runs_step|].
  pose proof (sstep_reason _ _ _ Hs) as Hreason.
  destruct l as [ph pa ch so se sow sew key bs pr idle sy b w wd rd hy]. cbn in Hy. subst sy.
  assert (finished g y → finished g y') as Hf by (intros ?; by eapply finished_step).
  assert (ss_closeOnce (y_session y) = true → ss_closeOnce (y_session y') = true) as Hc by (intros Hc; by apply Hreason).
  unfold phase_inv, waits_for, waited_for, started, keyed, early, session_over in *. destruct ph; cbn in *;
    [..|by destruct Hph; constructor; cbn in *; auto|done];
    repeat match goal with H : _ ∧ _ |- _ => destruct H | H : ∃ _, _ |- _ => destruct H end; simplify_eq;
    split_and!; eauto; destruct supported; try done; naive_solver.
Qed.
Lemma env_broker_inv g b l :
  oinv g l → la_sys l = None → sink_other (la_broker l) b → oinv g (with_idle (la_idle l) b l).
Proof.
  intros [Hrun Hph] Hy Ho. split; [by eapply runs_same|].
  assert (¬ sink_live g (la_broker l) → ¬ sink_live g b) as Hd by (by apply sink_other_dead).
  destruct l as [ph pa ch so se sow sew key bs pr idle sy b' w wd rd hy]. cbn in Hy, Hd. subst sy.
  unfold phase_inv, waits_for, waited_for, started, keyed, early, session_over in *. destruct ph; cbn in *;
    [..|by destruct Hph; constructor; cbn in *; auto|done];
    repeat match goal with H : _ ∧ _ |- _ => destruct H | H : ∃ _, _ |- _ => destruct H end; simplify_eq;
    split_and!; eauto.
Qed.

Lemma ostep_inv g l l' : oinv g l → ostep g l l' → oinv g l'.
Proof.
  intros Hi Hs. destruct Hs as [r l l' Hr H|st l Hp|st l Hw Hp|l Hr|l Hr|y es y' l Hy H|b l Hy H].
  - destruct (starting_up (la_phase l)) eqn:Hup; [by eapply once_early_inv|by eapply once_late_inv].
  - by apply env_exit_inv.
  - by apply env_wait_inv.
  - by apply env_reader_inv.
  - by apply env_reader_inv.
  - by eapply env_session_inv.
  - by apply env_broker_inv.
Qed.
Lemma oreach_inv g l : oreach g l → oinv g l.
Proof.
  induction 1 as [b Hb|l l' _ IH Hs]; [|by eapply ostep_inv].
  split; [by intros y|]. by unfold phase_inv, early.
Qed.

(** ** The write ends of the pipes, and the copies of the key *)

(** The write ends, which [cmd.Start] closes: if [StderrPipe] fails it never runs. *)
Definition writers_ok (l : launch) : Prop :=
  match la_phase l with
  | LSocket | LNonblock | LKey | LBootstrap | LStdout => la_stdoutW l = FdNone ∧ la_stderrW l = FdNone
  | LStderr | LReturned (Some OStderr) => la_stdoutW l = FdOpen ∧ la_stderrW l = FdNone
  | LStart => la_stdoutW l = FdOpen ∧ la_stderrW l = FdOpen
  | _ => la_stdoutW l ≠ FdOpen ∧ la_stderrW l ≠ FdOpen
  end.
(** The bootstrap packet holds the key in clear, and so does a session that waits to be
    started, for ever if the bootstrap could not be sent. *)
Definition bootstrap_ok (g : Z) (l : launch) : Prop := la_bootstrap l = [] ∨ ∃ key, carries g key (la_bootstrap l).
Definition idle_ok (g : Z) (l : launch) : Prop :=
  match la_phase l with
  | LAbort | LReturned (Some OSend) =>
      ∃ s, la_idle l = Some s ∧ ss_closeOnce s = true ∧ carries g (ss_key s) (la_bootstrap l)
  | LActivate => True
  | _ => la_idle l = None
  end.
Record kept (g : Z) (l : launch) : Prop := {
  kp_writers : writers_ok l;
  kp_bootstrap : bootstrap_ok g l;
  kp_idle : idle_ok g l;
}.

Lemma final_error_late e o : final_error e = Some o → o ≠ OStderr ∧ o ≠ OSend.
Proof. by destruct e as [[[]|]|]; intros [= <-]. Qed.
Lemma once_kept g r l l' :
  (∀ key, r = Random key → Bytes key ∧ zlen key = SubprocessIPCKeyBytes) →
  oinv g l → kept g l → once_step g r l = Some l' → kept g l'.
Proof.
  intros Hr [_ Hph] [Hw Hb Hi] Hs. unfold once_step, RunOnce.once_step, socketpair, set_nonblock in Hs.
  unfold phase_inv in Hph. unfold writers_ok, idle_ok, bootstrap_ok in *.
  destruct l as [ph pa ch so se sow sew key bs pr idle sy b w wd rd hy]. cbn in *.
  destruct ph; cbn in *; try done.
  - destruct Hw as [-> ->]. destruct supported, (is_ok r); injection Hs as <-; by constructor.
  - destruct Hw as [-> ->]. destruct (is_ok r); injection Hs as <-; by constructor.
  - destruct Hw as [-> ->]. destruct r; injection Hs as <-; constructor; try done; by left.
  - destruct Hph as (_ & _ & _ & _ & _ & _ & (k & -> & Hk & Hl) & _). cbn in Hs. destruct Hw as [-> ->].
    destruct (encodeSubprocessBootstrap g k) as [bs'|e|] eqn:Henc; injection Hs as <-; constructor; try done.
    right. by exists k.
  - destruct Hw as [-> ->]. destruct (is_ok r); injection Hs as <-; by constructor.
  - destruct Hw as [-> ->]. destruct (is_ok r); injection Hs as <-; by constructor.
  - destruct Hw as [-> ->]. destruct r; injection Hs as <-; constructor; try done; by destruct pa.
  - destruct Hph as (_ & Hsu & _ & _ & Hk & _). unfold keyed in Hk. rewrite Hsu in Hk. destruct Hk as (k & Hk & Hcar).
    cbn in Hk, Hcar. subst key. cbn in Hs.
    destruct (writeFullPacket _ _) as [reason|]; injection Hs as <-; constructor; try done. by eexists.
  - destruct pr; try done. by injection Hs as <-.
  - destruct idle; [|done]. by injection Hs as <-.
  - by injection Hs as <-.
  - destruct sy as [y|], r; try (destruct (ss_done _)); try done; try (destruct wd as [st|]; [|done]); by injection Hs as <-.
  - destruct sy as [y|]; [|done]. destruct wd; [|done]. by injection Hs as <-.
  - destruct sy as [y|]; [|done]. cbn in Hs. destruct (y_reader y); try done. destruct (_ =? 0); [|done]. by injection Hs as <-.
  - destruct (_ =? 0); [|done]. injection Hs as <-.
    destruct (final_error e) as [o|] eqn:Hf; [|by constructor]. destruct (final_error_late _ _ Hf).
    constructor; unfold writers_ok, idle_ok; cbn; by destruct o.
Qed.
Lemma ostep_kept g l l' : oinv g l → kept g l → ostep g l l' → kept g l'.
Proof.
  intros Hi Hk Hs. destruct Hs as [r l l' Hr H| | | | | |]; [by eapply once_kept|..]; destruct Hk; by constructor.
Qed.
Lemma oreach_kept g l : oreach g l → kept g l.
Proof.
  induction 1 as [b|l l' Hl IH Hs]; [|by eapply ostep_kept; [apply oreach_inv|..]].
  by constructor; [|left|].
Qed.

(** What [runOnce] leaves behind, with the two exceptions: a write end that nobody closes, and
    the copies of the key that nobody wipes. *)
Record left_clean (g : Z) (l : launch) : Prop := {
  lc_ended : ended_clean g l;
  lc_writers : la_stderrW l ≠ FdOpen ∧ (la_stdoutW l = FdOpen ↔ la_phase l = LReturned (Some OStderr));
  lc_bootstrap : bootstrap_ok g l;
  lc_idle : ∀ s, la_idle l = Some s →
    la_phase l = LReturned (Some OSend) ∧ ss_closeOnce s = true ∧ carries g (ss_key s) (la_bootstrap l);
}.
Lemma returned_clean g l o : oreach g l → la_phase l = LReturned o → left_clean g l.
Proof.
  intros Hl Hp. pose proof (oreach_inv _ _ Hl) as [_ Hph]. unfold phase_inv in Hph.
  destruct (oreach_kept _ _ Hl) as [Hw Hb Hi]. unfold writers_ok, idle_ok in *. rewrite Hp in *.
  constructor; [done| |done|].
  - destruct o as [[]|]; destruct Hw as [Hso Hse]; (split; [congruence|]); split; intros; congruence.
  - intros s Hs. rewrite Hs in Hi. destruct o as [[]|]; try done. by destruct Hi as (s' & [= <-] & ?).
Qed.

(** ** The error that is returned *)

(** Where the error after the [select] comes from. *)
Definition ended (l : launch) (e : option endErr) : Prop :=
  (∃ st, la_proc l = ProcReaped st ∧ e = EWait <$> st)
  ∨ ∃ y reason, la_sys l = Some y ∧ ss_closeErr (y_session y) = Some reason ∧ e = Some (ESession reason).
(** The errors of a launch that did not get to the [select]. *)
Definition failed_early (o : option onceErr) : Prop :=
  match o with
  | Some (OSocketpair | ONonblock | OKey | OBootstrap _ | OStdout | OStderr | OStart _ | OSend) => True
  | _ => False
  end.
Definition result_ok (l : launch) : Prop :=
  match la_phase l with
  | LSession e | LPipes e => ended l e
  | LReturned o => failed_early o ∧ la_sys l = None ∨ ∃ e, ended l e ∧ o = final_error e
  | _ => True
  end.

Lemma ended_same l l' e :
  ended l e → (∀ st, la_proc l = ProcReaped st → la_proc l' = ProcReaped st) →
  (∀ y r, la_sys l = Some y → ss_closeErr (y_session y) = Some r →
     ∃ y', la_sys l' = Some y' ∧ ss_closeErr (y_session y') = Some r) → ended l' e.
Proof.
  intros [(st & Hp & ->)|(y & r & Hy & Hr & ->)] H1 H2; [left; eauto|right].
  destruct (H2 y r Hy Hr) as (y' & ? & ?). eauto 6.
Qed.
Lemma result_same l l' :
  result_ok l → la_phase l' = la_phase l → (la_sys l = None → la_sys l' = None) → (∀ st, la_proc l = ProcReaped st → la_proc l' = ProcReaped st) →
  (∀ y r, la_sys l = Some y → ss_closeErr (y_session y) = Some r →
     ∃ y', la_sys l' = Some y' ∧ ss_closeErr (y_session y') = Some r) → result_ok l'.
Proof.
  unfold result_ok. intros H -> Hn H1 H2. destruct (la_phase l); auto; [by eapply ended_same..|].
  destruct H as [[? ?]|(e0 & He & ->)]; [left; auto|right]. exists e0. split; [by eapply ended_same|done].
Qed.

Lemma once_result_ok g r l l' : oinv g l → result_ok l → once_step g r l = Some l' → result_ok l'.
Proof.
  intros [_ Hph] Hr Hs. pose proof (starting_early g l Hph) as He. unfold phase_inv in Hph.
  unfold once_step, RunOnce.once_step, socketpair, set_nonblock in Hs.
  destruct l as [ph pa ch so se sow sew key bs pr idle sy b w wd rd hy]. unfold result_ok in *. cbn in *.
  assert (starting_up ph = true → sy = None) as Hn by (intros Hup; by apply He).
  destruct ph; try done.
  - destruct (negb supported), (is_ok r); injection Hs as <-; cbn; auto.
  - destruct (is_ok r); injection Hs as <-; cbn; auto.
  - destruct r; injection Hs as <-; cbn; auto.
  - destruct key as [k|]; [|done]. cbn in Hs. destruct (encodeSubprocessBootstrap g k); injection Hs as <-; cbn; auto.
  - destruct (is_ok r); injection Hs as <-; cbn; auto.
  - destruct (is_ok r); injection Hs as <-; cbn; auto.
  - destruct r; injection Hs as <-; cbn; auto; by destruct pa.
  - destruct key as [k|]; [|done]. cbn in Hs. destruct (writeFullPacket _ _); injection Hs as <-; cbn; auto.
  - destruct pr; try done. injection Hs as <-. cbn. auto.
  - destruct idle; [|done]. injection Hs as <-. done.
  - by injection Hs as <-.
  - destruct Hph as (_ & Hw & _). unfold waits_for in Hw. cbn in Hw.
    destruct wd as [st|]; [|destruct sy, r; try done; destruct (ss_done _); [by injection Hs as <-|done]].
    destruct Hw as [(_ & _ & [=])|(_ & _ & _ & st' & -> & [= ->])].
    destruct sy as [y|], r; try (destruct (ss_done _); [|done]); injection Hs as <-; cbn; try done; left; by exists st'.
  - destruct sy as [y|]; [|done]. destruct wd as [st|]; [|done]. cbn in Hs. injection Hs as <-. cbn.
    destruct Hph as (_ & Hw & _). unfold waits_for in Hw. cbn in Hw. destruct Hw as [(_ & _ & [=])|(_ & _ & _ & st' & -> & [= ->])].
    destruct (ss_closeErr (y_session y)) as [re|] eqn:Hre; [right|left; by exists st']. by exists y, re.
  - destruct sy as [y|]; [|done]. cbn in Hs. destruct (y_reader y); try done. destruct (_ =? 0); [|done]. injection Hs as <-. cbn.
    eapply ended_same; [exact Hr|done|]. cbn. intros y0 re [= <-] Hre. by eexists.
  - destruct (_ =? 0); [|done]. injection Hs as <-. right. exists e. split; [|done].
    eapply ended_same; [exact Hr|done|]. cbn. eauto.
Qed.
Lemma ostep_result g l l' : oinv g l → result_ok l → ostep g l l' → result_ok l'.
Proof.
  intros Hi Hr Hs. destruct Hs as [r l l' _ H|st l Hp|st l Hw Hp|l H|l H|y es y' l Hy H|b l Hy H].
  - by eapply once_result_ok.
  - eapply result_same; [done..| |by eauto]. intros st'. by rewrite Hp.
  - eapply result_same; [done..| |by eauto]. intros st'. by rewrite Hp.
  - eapply result_same; eauto.
  - eapply result_same; eauto.
  - eapply result_same; [done..|by rewrite Hy|done|]. intros y0 re Hy0 Hre. rewrite Hy in Hy0. injection Hy0 as <-. exists y'. split; [done|].
    destruct (on_runs _ _ Hi y Hy) as (k & tr & _ & Hrun).
    destruct (lc_closing _ _ _ (srun_lifecycle _ _ _ _ Hrun)) as [_ Ho _].
    destruct (ss_closeOnce (y_session y)) eqn:Hc; [|by destruct (Ho eq_refl) as (_ & _ & _ & ?); congruence].
    destruct (sstep_reason _ _ _ H Hc) as [_ ->]. done.
  - eapply result_same; eauto.
Qed.
Lemma oreach_result g l : oreach g l → result_ok l.
Proof. induction 1 as [|l l' Hl IH Hs]; [done|]. eapply ostep_result; [by apply oreach_inv|done..]. Qed.

(** ** Its end *)

Definition lrank (p : lphase) : Z :=
  match p with
  | LSocket => 15 | LNonblock => 14 | LKey => 13 | LBootstrap => 12 | LStdout => 11 | LStderr => 10 | LStart => 9 | LSend => 8
  | LActivate => 7 | LSpawn => 6 | LSelect => 5 | LKilled => 4 | LSession _ => 3 | LPipes _ => 2 | LAbort => 1
  | LReturned _ | LPanic => 0
  end.
Lemma once_step_rank g r l l' : once_step g r l = Some l' → 0 <= lrank (la_phase l') < lrank (la_phase l).
Proof.
  unfold once_step, RunOnce.once_step, socketpair, set_nonblock. intros H.
  destruct (la_phase l) eqn:Hp; try done;
    repeat (first [apply bind_Some in H as (? & ? & H)
      | match type of H with context [match ?x with _ => _ end] => first [is_var x; destruct x | destruct x eqn:?]; try done end]);
    try (injection H as <-; cbn; try (destruct (la_parent l)); done || lia).
Qed.

(** What [runOnce] waits for. *)
Definition awaited (l : launch) : Prop :=
  la_proc l = ProcRunning
  ∨ la_waiting l = true ∧ (∃ st, la_proc l = ProcExited st)
  ∨ (∃ y, la_sys l = Some y ∧ ss_closeOnce (y_session y) = true ∧ (y_reader y ≠ RStopped ∨ y_threads y ≠ ∅))
  ∨ 0 < la_readers l.

Lemma once_stuck g l :
  oinv g l → once_step g Success l = None → once_step g PickWait l = None →
  (∃ o, la_phase l = LReturned o) ∨ awaited l.
Proof.
  intros [Hrun Hph] H H2. unfold once_step, RunOnce.once_step, socketpair, set_nonblock in H, H2. unfold phase_inv in Hph. unfold awaited.
  destruct (la_phase l) eqn:Hp; try (by eauto); try done.
  - by destruct (negb supported).
  - destruct Hph as (_ & _ & _ & _ & _ & _ & (k & Hk & _ & Hl) & _). rewrite Hk in H. cbn in H. by destruct (encodeSubprocessBootstrap g k).
  - destruct Hph as (_ & Hsu & _ & _ & Hk & _). unfold keyed in Hk. rewrite Hsu in Hk. destruct Hk as (k & Hk & _).
    rewrite Hk in H. cbn in H. done.
  - destruct Hph as (_ & _ & _ & _ & [->|[st Hst]]); [auto|]. by rewrite Hst in H.
  - destruct Hph as (_ & _ & _ & _ & _ & k & b & Hi & _). by rewrite Hi in H.
  - destruct Hph as (_ & [(Hw & [Ha|Ha] & _)|(_ & _ & _ & st & _ & Hd)] & _); [auto|auto|].
    rewrite Hd in H2. by destruct (la_sys l).
  - destruct Hph as (_ & [(Hw & [Ha|Ha] & _)|(_ & _ & _ & st & _ & Hd)] & _ & y & Hy & _); [auto|auto|].
    by rewrite Hd, Hy in H.
  - destruct Hph as (_ & _ & _ & y & Hy & Hc). rewrite Hy in H. cbn in H. right; right; right; left.
    exists y. split_and!; [done..|]. destruct (Hrun y Hy) as (k & tr & _ & Hr).
    destruct (srun_lifecycle _ _ _ _ Hr) as [_ Hops _ _].
    destruct (y_reader y); try (by left). right. intros Ht. rewrite Ht in Hops. change (size ∅) with 0%nat in Hops.
    by rewrite Hops in H.
  - destruct Hph as (_ & _ & Hrd & _). destruct (Z.eqb_spec (la_readers l) 0) as [|Hne]; [done|].
    right; right; right; right. lia.
Qed.

(** Until its session runs, the generation is not served. *)
Lemma oinv_unserved g l : oinv g l → la_sys l = None → ¬ sink_live g (la_broker l).
Proof.
  intros [Hrun Hph] Hy. unfold phase_inv in Hph. destruct (la_phase l).
  1-10: by destruct Hph as [(_ & ? & _) _].
  - by apply Hph.
  - by apply Hph.
  - destruct Hph as (_ & _ & _ & y & ? & _). congruence.
  - destruct Hph as (_ & _ & _ & y & ? & _). congruence.
  - destruct Hph as (_ & _ & _ & H). unfold session_over in H. by rewrite Hy in H.
  - pose proof (lc_session _ _ Hph) as H. unfold session_over in H. by rewrite Hy in H.
  - done.
Qed.

(** ** The theorems *)

(** C16: what a launch of the subprocess leaves behind, whatever it returns and at whatever
    point it failed: no end of the socket pair and no end of the output pipes is open, with
    one exception: if [StderrPipe] failed the write end of the other pipe is (and then only);
    the process was never started or has been waited for, no goroutine is left in [cmd.Wait]
    or at the output, [key] is wiped and the server not healthy; a session that was started
    is closed, its goroutines gone and its copy of the key wiped, and the broker does not
    serve the generation. The copies of the key that are not wiped are the bootstrap packet
    and, only if the bootstrap could not be sent, the closed session that was never started.
    All of it stays so. *)
Theorem once_leaves_clean g l o :
  oreach g l → la_phase l = LReturned o →
  left_clean g l ∧ ∀ l', ostep g l l' → la_phase l' = LReturned o ∧ left_clean g l'.
Proof.
  intros Hl Hp. split; [by eapply returned_clean|]. intros l' Hs. assert (la_phase l' = LReturned o) as Hp'; [|split; [done|]].
  - destruct Hs as [r l l' _ H| | | | | |]; try done. unfold once_step, RunOnce.once_step, socketpair, set_nonblock in H. by rewrite Hp in H.
  - eapply returned_clean; [by eapply oreach_step|done].
Qed.

(** C18: the session of a launch is the one of SessionSys.v, so that all its theorems hold
    here: it runs from its start, with the key that the bootstrap packet carried to the
    subprocess; and until it runs the broker does not serve the generation. *)
Theorem once_session_runs g l :
  oreach g l →
  (∀ y, la_sys l = Some y → ∃ key tr, la_bootstrap l = SubprocessFrameVersion :: be64 g ++ key
     ∧ zlen key = SubprocessIPCKeyBytes ∧ srun g key tr y)
  ∧ (la_sys l = None → ¬ sink_live g (la_broker l)).
Proof.
  intros Hi%oreach_inv. pose proof Hi as [Hrun Hph]. split.
  - intros y Hy. destruct (Hrun y Hy) as (key & tr & (_ & Hk & He) & Hr). exists key, tr. split_and!; [|done..].
    rewrite encodeSubprocessBootstrap_layout in He. destruct (_ || _); [done|]. by injection He as <-.
  - by apply oinv_unserved.
Qed.

(** A launch ends: every call [runOnce] makes brings it closer to its return, at
    most 15 of them; and whenever it cannot make the next one it waits for the process to
    exit, for [cmd.Wait] of an exited process, for a goroutine of the session, which is
    closed then, or for the end of the output. *)
Theorem once_ends g l :
  oreach g l →
  lrank (la_phase l) <= 15
  ∧ (∀ r l', once_step g r l = Some l' → 0 <= lrank (la_phase l') < lrank (la_phase l))
  ∧ ((∀ r, once_step g r l = None) → (∃ o, la_phase l = LReturned o) ∨ awaited l).
Proof.
  intros Hi%oreach_inv. split_and!.
  - by destruct (la_phase l).
  - intros r l'. apply once_step_rank.
  - intros Hn. by apply (once_stuck g).
Qed.

(** What [runOnce] returns is what happened: nil only if the process exited with
    status 0; an exit code only if the process exited with it; the session's error only
    if the session was closed for that reason. *)
Theorem once_returns_cause g l o :
  oreach g l → la_phase l = LReturned o →
  match o with
  | None => la_proc l = ProcReaped None
  | Some (OExited code) => la_proc l = ProcReaped (Some (ExitError code))
  | Some (OWait e) => la_proc l = ProcReaped (Some e)
  | Some (OSession reason) => ∃ y, la_sys l = Some y ∧ ss_closeErr (y_session y) = Some reason
  | Some _ => la_sys l = None
  end.
Proof.
  intros Hl Hp. pose proof (oreach_result _ _ Hl) as Hr. unfold result_ok in Hr. rewrite Hp in Hr.
  destruct Hr as [[He Hy]|(e & [(st & Hst & ->)|(y & r & Hy & Hc & ->)] & ->)]; [by destruct o as [[]|]| |by exists y].
  rewrite Hst. by destruct st as [[]|].
Qed.

(** ** Launches step by step *)

Inductive move := MCall (r : reply) | MExit (st : option execErr) | MWait | MReady | MEof | MReadError (r : closeReason) | MStop.
Definition move_step (g : Z) (m : move) (l : launch) : option launch :=
  match m with
  | MCall (Random key) =>
      if bool_decide (Bytes key ∧ zlen key = SubprocessIPCKeyBytes) then once_step g (Random key) l else None
  | MCall r => once_step g r l
  | MExit st => match la_proc l with ProcRunning => Some (with_proc (ProcExited st) l) | _ => None end
  | MWait =>
      match la_waiting l, la_proc l with
      | true, ProcExited st =>
          Some (with_goroutines false (Some st) (la_readers l) (close_pipes (with_proc (ProcReaped st) l)))
      | _, _ => None
      end
  | MReady => if 0 <? la_readers l then Some (with_healthy true l) else None
  | MEof =>
      if 0 <? la_readers l then Some (with_goroutines (la_waiting l) (la_waitDone l) (la_readers l - 1) l) else None
  | MReadError reason =>
      y ← la_sys l;
      match y_reader y, reason with
      | RRead, (ReasonEOF | ReasonRead) => Some (with_sys (Some (with_reader (y_session y) (RFail reason) y)) l)
      | _, _ => None
      end
  | MStop =>
      y ← la_sys l;
      match y_reader y with
      | RFail reason => Some (with_sys (Some (with_reader (fail reason (y_session y)) RStopped y)) l)
      | _ => None
      end
  end.
Definition play_moves (g : Z) (ms : list move) (l : launch) : option launch := foldl (λ o m, o ≫= move_step g m) (Some l) ms.

Lemma move_ostep g m l l' : move_step g m l = Some l' → ostep g l l'.
Proof.
  destruct m as [r|st| | | |reason|]; cbn; intros H.
  - assert (∀ key, r = Random key → Bytes key ∧ zlen key = SubprocessIPCKeyBytes) as Hk.
    { intros key ->. by case_bool_decide. }
    destruct r; try (by eapply o_call). case_bool_decide; [by eapply o_call|done].
  - destruct (la_proc l) eqn:Hp; try done. injection H as <-. by constructor.
  - destruct (la_waiting l) eqn:Hw; [|done]. destruct (la_proc l) eqn:Hp; try done. injection H as <-. by constructor.
  - destruct (0 <? la_readers l) eqn:?; [|done]. injection H as <-. constructor. lia.
  - destruct (0 <? la_readers l) eqn:?; [|done]. injection H as <-. constructor. lia.
  - destruct (la_sys l) as [y|] eqn:Hy; [|done]. cbn in H. destruct (y_reader y) eqn:Hr; try done.
    destruct reason; try done; injection H as <-; (eapply o_session; [done|]); constructor; auto.
  - destruct (la_sys l) as [y|] eqn:Hy; [|done]. cbn in H. destruct (y_reader y) eqn:Hr; try done.
    injection H as <-. eapply o_session; [done|]. by apply y_reader_fail.
Qed.
Lemma moves_none g ms : foldl (λ o m, o ≫= move_step g m) None ms = None.
Proof. by induction ms. Qed.
Lemma moves_oreach g ms l l' : oreach g l → play_moves g ms l = Some l' → oreach g l'.
Proof.
  unfold play_moves. revert l. induction ms as [|m ms IH]; intros l Hl H; [by injection H as <-|].
  cbn in H. destruct (move_step g m l) as [l1|] eqn:Hm; [|by rewrite moves_none in H].
  apply (IH l1); [|done]. eapply oreach_step; [done|]. by eapply move_ostep.
Qed.
End props.

(** ** Two launches of a process that exits with status 0, and one that is not given its key *)
Module odemo.
Definition broker : Type := ingressBroker Z Z.
Definition act (g : Z) : broker → broker := activate g (Some g) (Some g).
Definition b0 : broker := newIngressBroker 4.
Definition key : bytes := Z.of_nat <$> seq 100 32.
Definition started : list move :=
  MCall <$> [Success; Success; Random key; Success; Success; Success; Success; Wrote (WriteN 41); Success; Success].
(** The result of [cmd.Wait] is seen first. *)
Definition exit_first : list move :=
  started ++ [MReady; MExit None; MWait; MCall PickWait; MReadError ReasonEOF; MStop; MCall Success; MEof; MEof; MCall Success].
(** The end of the connection is: the exit of the process closes its end. *)
Definition eof_first : list move :=
  started ++ [MReady; MExit None; MReadError ReasonEOF; MStop; MCall PickDone; MWait; MCall Success; MCall Success;
    MEof; MEof; MCall Success].
(** The process has exited, and nobody has noticed. *)
Definition exited : list move := started ++ [MReady; MExit None].
(** The bootstrap packet is cut short. *)
Definition cut_short : list move :=
  (MCall <$> [Success; Success; Random key; Success; Success; Success; Success; Wrote (WriteN 3)]) ++ [MExit None; MCall Success].

Definition at_end (ms : list move) : launch := default (once_start b0) (play_moves true act 7 ms (once_start b0)).
Lemma launch_reach ms : is_Some (play_moves true act 7 ms (once_start b0)) → oreach true act 7 (at_end ms).
Proof.
  intros [l Hl]. apply (moves_oreach true act 7 ms (once_start b0)); [|unfold at_end; by rewrite Hl].
  constructor. by intros [? ?].
Qed.

Lemma exit_first_ends :
  la_phase (at_end exit_first) = LReturned None ∧ la_proc (at_end exit_first) = ProcReaped None.
Proof. split; vm_compute; reflexivity. Qed.
Lemma eof_first_ends :
  la_phase (at_end eof_first) = LReturned (Some (OSession ReasonEOF)) ∧ la_proc (at_end eof_first) = ProcReaped None.
Proof. split; vm_compute; reflexivity. Qed.
Lemma exit_first_reach : oreach true act 7 (at_end exit_first).
Proof. apply launch_reach. vm_compute. eauto. Qed.
Lemma eof_first_reach : oreach true act 7 (at_end eof_first).
Proof. apply launch_reach. vm_compute. eauto. Qed.
Lemma exited_reach : oreach true act 7 (at_end exited).
Proof. apply launch_reach. vm_compute. eauto. Qed.
(** The parent's end cannot be made non-blocking: both are closed again. *)
Example nonblock_closes :
  la_phase (at_end (MCall <$> [Success; Failure OtherError])) = LReturned (Some ONonblock)
  ∧ la_parent (at_end (MCall <$> [Success; Failure OtherError])) = FdClosed
  ∧ la_child (at_end (MCall <$> [Success; Failure OtherError])) = FdClosed.
Proof. by vm_compute. Qed.
(** [StderrPipe] fails: the write end of the pipe of [StdoutPipe] stays open. *)
Definition no_stderr : list move :=
  MCall <$> [Success; Success; Random key; Success; Success; Failure OtherError].
Example stderr_pipe_fails :
  let l := at_end no_stderr in
  la_phase l = LReturned (Some OStderr) ∧ la_stdout l = FdClosed ∧ la_stdoutW l = FdOpen ∧ la_parent l = FdClosed.
Proof. by vm_compute. Qed.
(** The key is wiped, but not the copy of the session that was never started, nor the one
    in the bootstrap packet. *)
Example cut_short_copies :
  la_phase (at_end cut_short) = LReturned (Some OSend)
  ∧ la_key (at_end cut_short) = Some (zrep 32 0)
  ∧ ss_key <$> la_idle (at_end cut_short) = Some key
  ∧ drop 9 (la_bootstrap (at_end cut_short)) = key.
Proof. by vm_compute. Qed.
End odemo.

(** ** Two ends of a launch *)

Section races.
Context {A : IngressAbi} {AL : AbiLaws A} {M : Mac} {B : Type} `{SB : IngressSink B} {SL : SinkLaws B}.
Context (supported : bool) (activate : Z → B → B).
Abbreviation launch := (RunOnce.launch (B := B)).
Abbreviation ostep := (RunOnce.ostep supported activate).
Abbreviation oreach := (RunOnce.oreach supported activate).

Lemma moves_rtc g ms l l' : play_moves supported activate g ms l = Some l' → rtc (ostep g) l l'.
Proof.
  unfold play_moves. revert l. induction ms as [|m ms IH]; intros l H; [injection H as <-; apply rtc_refl|].
  cbn in H. destruct (move_step _ _ g m l) as [l1|] eqn:Hm; [|by rewrite moves_none in H].
  eapply rtc_l; [by eapply move_ostep|by apply IH].
Qed.
(** The readers come to the end of the output, and [runOnce] returns. *)
Lemma drains g n l e :
  la_phase l = LPipes e → la_readers l = Z.of_nat n →
  ∃ l', rtc (ostep g) l l' ∧ la_phase l' = LReturned (final_error e) ∧ la_proc l' = la_proc l.
Proof.
  revert l. induction n as [|n IH]; intros l Hp Hr.
  - eexists. split; [|split; [|]]; [apply rtc_once, (o_call _ _ _ Success); [done|]| |].
    + unfold RunOnce.once_step. by rewrite Hp, Hr.
    + done.
    + done.
  - destruct (IH (with_goroutines (la_waiting l) (la_waitDone l) (la_readers l - 1) l)) as (l' & Hs & ? & ?);
      [done|cbn; lia|]. exists l'. split; [|done]. eapply rtc_l; [apply o_eof; lia|done].
Qed.

(** What the steps look at. *)
Record point (ph : lphase) (pr : proc) (y : SessionSys.sys) (w : bool) (wd : option (option execErr)) (l : launch) : Prop := {
  pt_phase : la_phase l = ph;
  pt_proc : la_proc l = pr;
  pt_sys : la_sys l = Some y;
  pt_waiting : la_waiting l = w;
  pt_waitDone : la_waitDone l = wd;
  pt_readers : 0 ≤ la_readers l;
}.
Lemma point_call g r ph pr y w wd l l' ph' y' wd' :
  point ph pr y w wd l → (∀ key, r ≠ Random key) → RunOnce.once_step supported activate g r l = Some l' →
  la_phase l' = ph' → la_proc l' = la_proc l → la_sys l' = Some y' → la_waiting l' = la_waiting l →
  la_waitDone l' = wd' → la_readers l' = la_readers l → ostep g l l' ∧ point ph' pr y' w wd' l'.
Proof.
  intros [] Hr Hs ? Hp ? Hw ? Hd. split; [eapply o_call; [|done]; by intros key []%Hr|].
  split; congruence || by rewrite Hd.
Qed.
Lemma point_session g ph pr y w wd l es y' :
  point ph pr y w wd l → sstep y es y' →
  ostep g l (with_sys (Some y') l) ∧ point ph pr y' w wd (with_sys (Some y') l).
Proof. intros [] Hs. split; [by eapply o_session|by split]. Qed.
Lemma point_wait g ph st y wd l :
  point ph (ProcExited st) y true wd l → ∃ l', ostep g l l' ∧ point ph (ProcReaped st) y false (Some st) l'.
Proof. intros []. eexists. split; [by apply o_wait|by split]. Qed.
#[local] Arguments close : simpl never.
#[local] Arguments fail : simpl never.
Lemma close_opWG r (s : session B) : ss_opWG (close r s) = ss_opWG s.
Proof. unfold close. by case_match. Qed.
Lemma close_done r (s : session B) : ss_closeOnce s = false → ss_done (close r s) = true.
Proof. unfold close. by intros ->. Qed.
Lemma close_err r (s : session B) : ss_closeOnce s = false → ss_closeErr (close r s) = Some r.
Proof. unfold close. by intros ->. Qed.

(** The process has exited with status 0, and nothing else has happened to the launch. *)
Record exited_cleanly (l : launch) (y : SessionSys.sys) : Prop := {
  ec_phase : la_phase l = LSelect;
  ec_proc : la_proc l = ProcExited None;
  ec_sys : la_sys l = Some y;
  ec_reader : y_reader y = RRead;
  ec_threads : y_threads y = ∅;
  ec_open : ss_closeOnce (y_session y) = false;
}.

(** The reader comes to the end of the connection. *)
Lemma reader_ends g ph pr y w wd l :
  point ph pr y w wd l → y_reader y = RRead →
  ∃ l' y', rtc (ostep g) l l' ∧ point ph pr y' w wd l'
    ∧ y' = Sys (close ReasonEOF (y_session y)) (y_threads y) RStopped (y_sequence y).
Proof.
  intros Hpt Hr.
  destruct (point_session g _ _ _ _ _ _ _ _ Hpt (y_read_error ReasonEOF y Hr (or_introl eq_refl))) as [Hs1 Hp1].
  destruct (point_session g _ _ _ _ _ _ _ _ Hp1 (y_reader_fail ReasonEOF (with_reader (y_session y) (RFail ReasonEOF) y) eq_refl)) as [Hs2 Hp2].
  do 2 eexists. split; [by eapply rtc_l, rtc_once|]. by split.
Qed.
(** [runOnce] finishes the session and the output. *)
Lemma point_ends g e st y wd l :
  point (LSession e) (ProcReaped st) y false wd l → y_reader y = RStopped → ss_opWG (y_session y) = 0 →
  ∃ l', rtc (ostep g) l l' ∧ la_phase l' = LReturned (final_error e) ∧ la_proc l' = ProcReaped st.
Proof.
  intros Hpt Hr Ho. pose proof Hpt as [Hp Hpr Hy Hw Hd Hrd].
  eassert (RunOnce.once_step supported activate g Success l = Some _) as Hcall.
  { unfold RunOnce.once_step. rewrite Hp, Hy. cbn. by rewrite Hr, Ho. }
  destruct (point_call g Success _ _ _ _ _ l _ (LPipes e) (with_session (wait (y_session y)) y) wd Hpt ltac:(done) Hcall) as [Hs1 [Hp1 Hpr1 _ _ _ Hrd1]]; [done..|].
  destruct (drains g (Z.to_nat (la_readers l)) _ _ Hp1) as (l' & Hs & ? & Hpr'); [cbn; by rewrite Z2Nat.id|].
  exists l'. split; [by eapply rtc_l|]. split; [done|]. by rewrite Hpr'.
Qed.

(** C26: a clean exit is not told from a failure. On a platform with the ingress the exit of
    the process also ends its connection: from every state in which [runOnce] is in its
    [select], the process has exited with status 0, and the session is open, no [assign] is
    inside and its reader reads, the launch can end in two ways. If the result of [cmd.Wait]
    is received first [runOnce] returns nil, and the supervisor ends; if the reader sees the
    end of the connection first it returns the session's error, [io.EOF], of the same process
    with the same status, and the supervisor restarts. *)
Theorem clean_exit_races g l y :
  oreach g l → exited_cleanly l y →
  (∃ l', rtc (ostep g) l l' ∧ la_phase l' = LReturned None ∧ la_proc l' = ProcReaped None
     ∧ once_result None = OnceNil)
  ∧ ∃ l', rtc (ostep g) l l' ∧ la_phase l' = LReturned (Some (OSession ReasonEOF)) ∧ la_proc l' = ProcReaped None
     ∧ once_result (Some (OSession ReasonEOF)) = OnceFailed.
Proof.
  intros [Hrun Hph]%oreach_inv [Hp Hpr Hy Hrd Hth Hc]. unfold phase_inv in Hph. rewrite Hp in Hph.
  destruct Hph as (_ & Hw & Hr & _). destruct (Hrun _ Hy) as (key & tr & _ & Hsrun).
  pose proof (lc_ops _ _ _ (srun_lifecycle _ _ _ _ Hsrun)) as Hops. rewrite Hth, map_size_empty in Hops.
  destruct Hw as [(Hw & _ & Hd)|(_ & _ & _ & st & Hst & _)]; [|by rewrite Hpr in Hst].
  assert (point LSelect (ProcExited None) y true None l) as Hpt by by split.
  split.
  - destruct (point_wait g _ _ _ _ _ Hpt) as (l1 & Hs1 & Hp1). pose proof Hp1 as [Hph1 _ Hy1 _ Hd1 _].
    eassert (RunOnce.once_step supported activate g PickWait l1 = Some _) as Hc2.
    { unfold RunOnce.once_step. by rewrite Hph1, Hy1, Hd1. }
    destruct (point_call g PickWait _ _ _ _ _ l1 _ (LSession None) (with_session (close ReasonExit (y_session y)) y) None Hp1 ltac:(done) Hc2) as [Hs2 Hp2]; [done..|].
    destruct (reader_ends g _ _ _ _ _ _ Hp2 Hrd) as (l3 & y3 & Hs3 & Hp3 & ->).
    destruct (point_ends g _ _ _ _ _ Hp3 eq_refl) as (l' & Hs4 & ? & ?); [cbn; by rewrite !close_opWG|].
    exists l'. split; [|done]. eapply rtc_l, rtc_l; [done..|]. by etrans.
  - destruct (reader_ends g _ _ _ _ _ _ Hpt Hrd) as (l1 & y1 & Hs1 & Hp1 & Hy1). pose proof Hp1 as [Hph1 _ Hsy1 _ _ _].
    assert (ss_done (y_session y1) = true) as Hdone by (rewrite Hy1; by apply close_done).
    assert (ss_closeErr (y_session y1) = Some ReasonEOF) as Herr by (rewrite Hy1; by apply close_err).
    eassert (RunOnce.once_step supported activate g PickDone l1 = Some _) as Hc2.
    { unfold RunOnce.once_step. by rewrite Hph1, Hsy1, Hdone. }
    destruct (point_call g PickDone _ _ _ _ _ l1 _ LKilled y1 None Hp1 ltac:(done) Hc2) as [Hs2 Hp2]; [done|done|apply Hp1|done|apply Hp1|done|].
    destruct (point_wait g _ _ _ _ _ Hp2) as (l3 & Hs3 & Hp3). pose proof Hp3 as [Hph3 _ Hsy3 _ Hd3 _].
    eassert (RunOnce.once_step supported activate g Success l3 = Some _) as Hc4.
    { unfold RunOnce.once_step. rewrite Hph3, Hsy3, Hd3. cbn. by rewrite Herr. }
    destruct (point_call g Success _ _ _ _ _ l3 _ (LSession (Some (ESession ReasonEOF))) y1 None Hp3 ltac:(done) Hc4)
      as [Hs4 Hp4]; [done|done|apply Hp3|done..|].
    destruct (point_ends g _ _ _ _ _ Hp4) as (l' & Hs5 & ? & ?); [by rewrite Hy1|rewrite Hy1; cbn; by rewrite close_opWG|].
    exists l'. split; [|done]. etrans; [done|]. by eapply rtc_l, rtc_l, rtc_l.
Qed.
End races.

Lemma clean_exit_races_witness :
  ∃ y, exited_cleanly (odemo.at_end odemo.exited) y
  ∧ (∃ l', rtc (ostep true odemo.act 7) (odemo.at_end odemo.exited) l' ∧ la_phase l' = LReturned None)
  ∧ ∃ l', rtc (ostep true odemo.act 7) (odemo.at_end odemo.exited) l'
      ∧ la_phase l' = LReturned (Some (OSession ReasonEOF)) ∧ la_proc l' = ProcReaped None.
Proof.
  destruct (la_sys (odemo.at_end odemo.exited)) as [y|] eqn:Hy; [|exfalso; revert Hy; vm_compute; discriminate].
  assert (exited_cleanly (odemo.at_end odemo.exited) y) as He.
  { revert Hy. vm_compute. intros [= <-]. by constructor. }
  exists y. split; [exact He|].
  destruct (clean_exit_races true odemo.act 7 _ _ odemo.exited_reach He) as [(l' & H1 & H2 & _) (l2 & H3 & H4 & H5 & _)].
  split; [exists l'; exact (conj H1 H2)|exists l2; exact (conj H3 (conj H4 H5))].
Defined.

Lemma once_leaves_clean_witness :
  la_phase (odemo.at_end odemo.eof_first) = LReturned (Some (OSession ReasonEOF))
  ∧ left_clean 7 (odemo.at_end odemo.eof_first).
Proof.
  destruct odemo.eof_first_ends as [Hp _]. split; [exact Hp|].
  destruct (once_leaves_clean true odemo.act 7 _ _ odemo.eof_first_reach Hp) as [H _]. exact H.
Defined.

Lemma once_session_runs_witness :
  ∃ y, la_sys (odemo.at_end odemo.exit_first) = Some y ∧ ∃ key tr, zlen key = 32 ∧ srun 7 key tr y.
Proof.
  destruct (once_session_runs true odemo.act 7 _ odemo.exit_first_reach) as [H _].
  destruct (la_sys (odemo.at_end odemo.exit_first)) as [y|] eqn:Hy; [|exfalso; revert Hy; vm_compute; discriminate].
  exists y. split; [reflexivity|]. destruct (H y eq_refl) as (key & tr & _ & Hk & Hr). exists key, tr.
  split; [exact Hk|exact Hr].
Defined.

Lemma once_ends_witness :
  (∀ r, once_step true odemo.act 7 r (odemo.at_end odemo.exit_first) = None)
  ∧ ((∃ o, la_phase (odemo.at_end odemo.exit_first) = LReturned o) ∨ awaited (odemo.at_end odemo.exit_first)).
Proof.
  assert (∀ r, once_step true odemo.act 7 r (odemo.at_end odemo.exit_first) = None) as Hn.
  { intros r. unfold once_step. destruct odemo.exit_first_ends as [Hp _]. rewrite Hp. reflexivity. }
  split; [exact Hn|]. apply (once_ends true odemo.act 7 _ odemo.exit_first_reach). exact Hn.
Defined.

Lemma once_returns_cause_witness :
  la_phase (odemo.at_end odemo.exit_first) = LReturned None ∧ la_proc (odemo.at_end odemo.exit_first) = ProcReaped None.
Proof.
  destruct odemo.exit_first_ends as [Hp _]. split; [exact Hp|].
  exact (once_returns_cause true odemo.act 7 _ None odemo.exit_first_reach Hp).
Defined.
