(* ===== verification/Launches.v ===== *)
(** * The restart loop and its launches ([subprocessRunner.run] of subprocess.go)

    Supervisor.v has the loop as a function of what each [runOnce] returned, RunOnce.v one
    [runOnce] of a given generation. Here they are one system: the loop runs launches one
    after the other, each on the broker the one before it left, with a generation taken
    from the counter that every runner of the process shares; the context may end at any
    moment. *)
From Stdlib Require Import Sorting.Sorted.
From S2P Require Import Prelude GoInt Sha256 Abi Protobuf Packet Broker BrokerInv BrokerSys Supervisor Session SessionSys SessionProps SessionSpec RunOnce RunOnceProps.

(** What the loop needs of the broker: only [activate] makes it serve a generation, and
    only the one it is called with. *)
Class SinkServes (B : Type) `{IngressSink B} (activate : Z → B → B) : Prop := {
  serves_open ch now g h b g' : ¬ sink_live g' b → ¬ sink_live g' (sink_open ch now g h b).1.1;
  serves_deliver now g h c frame b0 b g' :
    ¬ sink_live g' b → ¬ sink_live g' (sink_deliver now g h c frame b0 b).1.1;
  serves_deactivate g b g' : ¬ sink_live g' b → ¬ sink_live g' (sink_deactivate g b);
  serves_activate g b g' : sink_live g' (activate g b) → g' = g;
}.

(** ** The broker does *)

Section broker.
Context {A : IngressAbi} {N F : Type}.
Abbreviation broker := (ingressBroker N F).

(** The generation stays, and an inactive broker stays inactive. *)
Definition gate_kept (b b' : broker) : Prop :=
  b_generation b' = b_generation b ∧ (b_active b' = true → b_active b = true).

Lemma gate_kept_dead (b b' : broker) g : gate_kept b b' → ¬ sink_live g b → ¬ sink_live g b'.
Proof. intros [Hg Ha] Hd [Hg' Ha']. apply Hd. split; [congruence|auto]. Qed.
Lemma fail_with_gate e (b b' : broker) : b_generation b' = b_generation b → gate_kept b (fail_with e b').1.
Proof. by split. Qed.
Lemma evict_gate ord now (b : broker) :
  let b' := (evictStaleHandlesLocked ord now b).1 in
  b_generation b' = b_generation b ∧ b_active b' = b_active b.
Proof. unfold evictStaleHandlesLocked. by repeat case_match. Qed.
Lemma open_gate ord now g h (b : broker) : gate_kept b (open ord now g h b).1.
Proof.
  unfold open. destruct (negb _); [by split|]. destruct (negb (b_active b)); [by split|].
  destruct (h =? 0); [by apply fail_with_gate|]. case_bool_decide; [by apply fail_with_gate|].
  pose proof (evict_gate ord now b) as [Hg Ha]. destruct (evictStaleHandlesLocked ord now b) as [b' ok]. cbn in Hg, Ha.
  destruct (negb ok); [by apply fail_with_gate|]. destruct (_ <? _); [|by apply fail_with_gate].
  split; cbn; [done|by rewrite Ha].
Qed.
Lemma deliver_gate now g c frame ms (b : broker) : gate_kept b (deliver now g c frame ms b).1.
Proof.
  pose proof (closeCorrelation_gate g c b) as [Hg Ha].
  assert (gate_kept b (closeCorrelation g c b)) by (split; [done|by rewrite Ha]).
  unfold deliver. destruct (_ || _); [done|]. destruct (_ || _) in |- *; [done|].
  destruct (negb _); [by split|]. destruct (negb (b_active b)); [by split|].
  destruct (b_correlations b !! c) as [p|]; [|by split]. destruct (negb _); [by split|].
  destruct (_ <? _); [by split|by apply fail_with_gate].
Qed.

#[export] Instance broker_serves (native : Z → option N) (fatal : Z → option F) :
  SinkServes broker (λ g, activate g (native g) (fatal g)).
Proof.
  split; cbn.
  - intros ch now g h b g'. apply gate_kept_dead, open_gate.
  - intros now g h c frame b0 b g'. apply gate_kept_dead. unfold deliverIPCFrame.
    destruct (b_correlations b0 !! c); [|by split]. destruct (negb _); [by split|apply deliver_gate].
  - intros g b g'. apply gate_kept_dead. unfold deactivate. by destruct (negb _).
  - by intros g b g' [? _].
Qed.
End broker.

(** ** One session, one launch *)

Section launches.
Context {A : IngressAbi} {AL : AbiLaws A} {M : Mac} {B : Type} `{SB : IngressSink B} {SL : SinkLaws B}.
Context (supported : bool) (activate : Z → B → B) {SV : SinkServes B activate}.
Abbreviation sys := (@SessionSys.sys B).
Abbreviation session := (session B).
Abbreviation launch := (RunOnce.launch (B := B)).
Abbreviation once_step := (RunOnce.once_step supported activate).
Abbreviation ostep := (RunOnce.ostep supported activate).
Abbreviation oreach := (RunOnce.oreach supported activate).

(** What a session does makes the broker serve nothing new. *)
Definition dims (b b' : B) : Prop := ∀ g, ¬ sink_live g b → ¬ sink_live g b'.

Lemma dims_same s s' : calm s s' → dims (ss_broker s) (ss_broker s').
Proof. intros [] g. congruence. Qed.
Lemma close_dims reason (s : session) : dims (ss_broker s) (ss_broker (close reason s)).
Proof. intros g. unfold close. destruct (ss_closeOnce s); [done|]. apply serves_deactivate. Qed.
Lemma fatal_dims (fatal : option IngressError) b (s : session) :
  dims b (ss_broker (match fatal with Some f => fail (ReasonIngress f) (set_broker b s) | None => set_broker b s end)).
Proof. destruct fatal as [f|]; [|by intros g]. apply (close_dims _ (set_broker b s)). Qed.
Lemma read_dims ch now buffer seq (s : session) :
  dims (ss_broker s) (ss_broker (read_packet ch now buffer seq s).1.1).
Proof.
  unfold read_packet. destruct (decodeAuthenticatedPacket _ _ _ _) as [p|e|]; [|by intros g..].
  assert (∀ m : session * readerPhase, dims (ss_broker s) (ss_broker m.1) →
    dims (ss_broker s) (ss_broker (let '(s', r) := m in (s', u64 (seq + 1), r)).1.1)) as Hlet by by intros [].
  apply Hlet. destruct (_ =? SubprocessConnectionOpen).
  { unfold read_open. intros g Hg. pose proof (serves_open ch now (ss_generation s) (ap_handle p) (ss_broker s) g Hg) as Ho.
    destruct (sink_open _ _ _ _ _) as [[b e] fatal]. by apply fatal_dims. }
  destruct (_ =? SubprocessAssignmentACK); [by apply dims_same, read_ack_calm|].
  destruct (_ =? SubprocessVerifiedIngress); [by apply dims_same, read_verified_calm|by intros g].
Qed.

Lemma sstep_dims (y : sys) es y' :
  sstep y es y' → dims (ss_broker (y_session y)) (ss_broker (y_session y')).
Proof.
  intros Hstep. destruct Hstep as [a y Hadm|i a s p y Hlen Hi Hadm|i a now s p y Hi Hreg
    |i a w now wr s p packet y Hi Hsend|i a w now y Hi|i a w s p y Hi Hrecv|i a w now y Hi Hnow
    |i a w y Hi Hdone|i a now y Hi|i a y Hi|i a rc y Hi|i a rc y Hi s
    |ch now buffer s seq r y Hrd Hbuf Hl Hread|reason y Hrd|w st y Hrd|now h c payload b0 s r y Hrd Hdel
    |reason y Hrd|reason y|ke e y|t y s|b y Hoth|y Hrd Hops]; try by intros g.
  - revert Hadm. unfold admit_op. case_match; [done|]. by intros [= <- <-] g.
  - pose proof (register_calm now a (y_session y)) as Hc. rewrite Hreg in Hc. by apply dims_same.
  - pose proof (send_calm now wr a w (y_session y)) as Hc. rewrite Hsend in Hc. by apply dims_same.
  - by apply receive_calm, dims_same in Hrecv.
  - apply close_dims.
  - apply dims_same, removePending_calm.
  - pose proof (read_dims ch now buffer (y_sequence y) (y_session y)) as Hr. by rewrite Hread in Hr.
  - revert Hdel. unfold read_deliver. intros Hdel g Hg.
    pose proof (serves_deliver now (ss_generation (y_session y)) h c payload b0 (ss_broker (y_session y)) g Hg) as Hd.
    destruct (sink_deliver _ _ _ _ _ _ _) as [[b e] fatal]. injection Hdel as <- _. by apply fatal_dims.
  - apply close_dims.
  - apply close_dims.
  - apply dims_same, expirePending_calm.
  - intros g. by apply sink_other_dead.
Qed.

(** The broker, whoever holds it; it serves at most the generation [g]. *)
Definition launch_broker (l : launch) : B :=
  match la_sys l with Some y => ss_broker (y_session y) | None => la_broker l end.
Definition serves_only (g : Z) (b : B) : Prop := ∀ g', g' ≠ g → ¬ sink_live g' b.
Definition serves_none (b : B) : Prop := ∀ g, ¬ sink_live g b.

Lemma dims_only g b b' : dims b b' → serves_only g b → serves_only g b'.
Proof. intros Hd Hs g' Hg. by apply Hd, Hs. Qed.
Lemma activate_only g b : serves_only g (activate g b).
Proof. intros g' Hne Hl. by apply Hne, (serves_activate g b). Qed.

Lemma return_broker e (l : launch) : launch_broker (return_ e l) = launch_broker l.
Proof. done. Qed.
Lemma once_step_broker g r l l' :
  once_step g r l = Some l' →
  dims (launch_broker l) (launch_broker l') ∨ ∃ b, launch_broker l' = activate g b.
Proof.
  unfold RunOnce.once_step, socketpair, set_nonblock. intros H.
  destruct (la_phase l) eqn:Hp; try done.
  - destruct (negb supported); [|destruct (is_ok r)]; injection H as <-; left; by intros g'.
  - destruct (is_ok r); injection H as <-; left; by intros g'.
  - destruct r; injection H as <-; left; by intros g'.
  - destruct (la_key l) as [k|]; [|done]. cbn in H.
    destruct (encodeSubprocessBootstrap g k); injection H as <-; left; by intros g'.
  - destruct (is_ok r); injection H as <-; left; by intros g'.
  - destruct (is_ok r); injection H as <-; left; by intros g'.
  - destruct r; injection H as <-; left; intros g' Hd; unfold launch_broker; cbn; done.
  - destruct (la_key l) as [k|]; [|done]. cbn in H. left. intros g' Hd. unfold launch_broker in *.
    destruct (writeFullPacket _ _) as [reason|]; injection H as <-; cbn;
      destruct (la_sys l); try done. by apply serves_deactivate.
  - destruct (la_proc l); try done. injection H as <-. left; by intros g'.
  - destruct (la_idle l) as [s|]; [|done]. injection H as <-. right. by eexists.
  - injection H as <-. left; by intros g'.
  - assert (∀ st, la_sys l = None → dims (launch_broker l) (launch_broker (at_phase (LPipes (EWait <$> st)) (with_goroutines (la_waiting l) None (la_readers l) l)))) as Hn by by intros ?? g'.
    destruct (la_sys l) as [y|] eqn:Hy.
    + assert (∀ l', (la_waitDone l ≫= (λ st, Some (at_phase (LSession (EWait <$> st)) (with_goroutines (la_waiting l) None (la_readers l)
            (with_sys (Some (with_session (close ReasonExit (y_session y)) y)) l))))) = Some l' → dims (launch_broker l) (launch_broker l')) as Hw.
      { intros l0. destruct (la_waitDone l); [|done]. cbn. intros [= <-]. unfold launch_broker. rewrite Hy. cbn. apply close_dims. }
      left. destruct r; auto. destruct (ss_done (y_session y)); [|done]. injection H as <-. by intros g'.
    + destruct (la_waitDone l) as [st|]; [|by destruct r]. left. destruct r; injection H as <-; by apply Hn.
  - destruct (la_sys l) as [y|] eqn:Hy; [|done]. destruct (la_waitDone l); [|done]. injection H as <-. left; by intros g'.
  - destruct (la_sys l) as [y|] eqn:Hy; [|done]. cbn in H. destruct (y_reader y); try done.
    destruct (_ =? 0); [|done]. injection H as <-. left. unfold launch_broker. rewrite Hy. by intros g'.
  - destruct (_ =? 0); [|done]. injection H as <-. left. by intros g'.
Qed.
Lemma ostep_only g l l' : ostep g l l' → serves_only g (launch_broker l) → serves_only g (launch_broker l').
Proof.
  intros Hs Ho. destruct Hs as [r l l' _ Hs|st l Hp|st l Hw Hp|l Hr|l Hr|y es y' l Hy Hs|b l Hy Hs]; try done.
  - apply once_step_broker in Hs as [Hd|[b ->]]; [by eapply dims_only|apply activate_only].
  - unfold launch_broker in *. rewrite Hy in Ho. cbn. by eapply dims_only, Ho; eapply sstep_dims.
  - unfold launch_broker in *. cbn. rewrite Hy in *. intros g' Hne. by eapply sink_other_dead, Ho.
Qed.

(** Before its key is made, a launch has no generation yet. *)
Definition unnumbered (p : lphase) : bool := match p with LSocket | LNonblock | LKey => true | _ => false end.
Lemma ostep_unnumbered g g' l l' : unnumbered (la_phase l) = true → ostep g l l' → ostep g' l l'.
Proof.
  intros Hp Hs. destruct Hs as [r l l' Hr Hs| | | | | |]; try (by econstructor).
  apply (o_call _ _ _ r); [done|]. unfold RunOnce.once_step, socketpair, set_nonblock in *. by destruct (la_phase l).
Qed.

(** ** The loop *)

Context (policy : RestartPolicy).

(** Where [run] is; after a failed launch, with what [ctx.Err()] was when it returned. *)
Inductive svphase := SvHead | SvLaunch (generation : Z) (l : launch) | SvBackoff (c : option ctxError) | SvReturned (e : option runError).

Record supervisor := Sv {
  sv_phase : svphase;
  sv_attempt : Z;
  sv_backoff : backoff;
  sv_ctx : option ctxError;    (* [ctx.Err()] *)
  sv_raised : Z;     (* how often [subprocessGenerationCounter] was raised, by any runner *)
  sv_broker : B;     (* the broker, between the launches *)
  (* history: the generations taken and the launches that returned, the newest first; the
     iterations that ended and the delays begun, in order *)
  sv_used : list Z;
  sv_past : list (Z * launch);
  sv_its : list iteration;
  sv_delays : list Z;
}.

Definition at_svphase (p : svphase) (s : supervisor) : supervisor :=
  Sv p (sv_attempt s) (sv_backoff s) (sv_ctx s) (sv_raised s) (sv_broker s) (sv_used s) (sv_past s) (sv_its s) (sv_delays s).
Definition with_ctx (e : ctxError) (s : supervisor) : supervisor :=
  Sv (sv_phase s) (sv_attempt s) (sv_backoff s) (Some e) (sv_raised s) (sv_broker s) (sv_used s) (sv_past s) (sv_its s) (sv_delays s).
Definition with_broker (b : B) (s : supervisor) : supervisor :=
  Sv (sv_phase s) (sv_attempt s) (sv_backoff s) (sv_ctx s) (sv_raised s) b (sv_used s) (sv_past s) (sv_its s) (sv_delays s).
(** An iteration that ended, and the attempts made. *)
Definition iterated (it : iteration) (attempt : Z) (s : supervisor) : supervisor :=
  Sv (sv_phase s) attempt (sv_backoff s) (sv_ctx s) (sv_raised s) (sv_broker s) (sv_used s) (sv_past s)
    (sv_its s ++ [it]) (sv_delays s).
(** [subprocessGenerationCounter.Add(1)], by this runner or another. *)
Definition raise_counter (s : supervisor) : supervisor :=
  Sv (sv_phase s) (sv_attempt s) (sv_backoff s) (sv_ctx s) (sv_raised s + 1) (sv_broker s) (sv_used s) (sv_past s)
    (sv_its s) (sv_delays s).
Definition take_generation (s : supervisor) : supervisor * Z :=
  let s := raise_counter s in
  let generation := u64 (sv_raised s) in
  (Sv (sv_phase s) (sv_attempt s) (sv_backoff s) (sv_ctx s) (sv_raised s) (sv_broker s) (generation :: sv_used s) (sv_past s)
     (sv_its s) (sv_delays s), generation).

Definition exceeded (s : supervisor) : bool := (0 <? MaxRetries policy) && (MaxRetries policy <=? sv_attempt s).

(** A launch returned [o]. *)
Definition finish (g : Z) (l : launch) (o : option onceErr) (s : supervisor) : supervisor :=
  let s := Sv (sv_phase s) (sv_attempt s) (sv_backoff s) (sv_ctx s) (sv_raised s) (launch_broker l) (sv_used s)
    ((g, l) :: sv_past s) (sv_its s) (sv_delays s) in
  match once_result o with
  | OnceNil | OnceCanceled =>
      at_svphase (SvReturned (RunCtx <$> sv_ctx s))
        (iterated (Iteration (once_result o) (sv_ctx s) WaitElapsed) (sv_attempt s) s)
  | OnceFailed =>
      let '(d, b) := next (sv_backoff s) in
      Sv (SvBackoff (sv_ctx s)) (sv_attempt s) b (sv_ctx s) (sv_raised s) (sv_broker s) (sv_used s) (sv_past s) (sv_its s)
        (sv_delays s ++ [d])
  end.

(** What [run] itself does next; in the [select], if [elapsed], the delay is over. [None]: it
    waits for the launch or the context, or has returned. *)
Definition loop_step (elapsed : bool) (s : supervisor) : option supervisor :=
  match sv_phase s with
  | SvHead =>
      if exceeded s then Some (at_svphase (SvReturned (Some (RunMaxRetries (MaxRetries policy)))) s)
      else Some (at_svphase (SvLaunch 0 (once_start (sv_broker s))) s)
  | SvLaunch g l => match la_phase l with LReturned o => Some (finish g l o s) | _ => None end
  | SvBackoff c =>
      if elapsed
      then Some (at_svphase SvHead (iterated (Iteration OnceFailed c WaitElapsed) (sv_attempt s + 1) s))
      else
        e ← sv_ctx s;
        Some (at_svphase (SvReturned (Some (RunCtx e)))
          (iterated (Iteration OnceFailed c (WaitCancelled e)) (sv_attempt s) s))
  | SvReturned _ => None
  end.

(** The loop; the launch in progress, which takes its generation once its key is made; and
    the others: the context, the other runners of the process, the users of the broker. *)
Inductive svstep : supervisor → supervisor → Prop :=
| sv_loop elapsed s s' : loop_step elapsed s = Some s' → svstep s s'
| sv_launch g l l' s :
    sv_phase s = SvLaunch g l → ostep g l l' → (la_phase l = LKey → la_phase l' ≠ LBootstrap) →
    svstep s (at_svphase (SvLaunch g l') s)
| sv_number g key l l' s :
    sv_phase s = SvLaunch g l → la_phase l = LKey → Bytes key → zlen key = SubprocessIPCKeyBytes →
    once_step g (Random key) l = Some l' →
    svstep s (let '(s, generation) := take_generation s in at_svphase (SvLaunch generation l') s)
| sv_cancel e s : sv_ctx s = None → svstep s (with_ctx e s)
| sv_raise s : svstep s (raise_counter s)
| sv_other b s : sink_other (sv_broker s) b → (∀ g l, sv_phase s ≠ SvLaunch g l) → svstep s (with_broker b s).

(** [run] enters the loop; the broker serves nobody yet. *)
Definition sv_start (raised : Z) (b : B) : supervisor :=
  Sv SvHead 0 (newBackoff (MinBackoff policy) (MaxBackoff policy)) None raised b [] [] [] [].
Inductive svreach : supervisor → Prop :=
| svreach_start raised b : 0 ≤ raised → serves_none b → svreach (sv_start raised b)
| svreach_step s s' : svreach s → svstep s s' → svreach s'.

(** The broker at the moment. *)
Definition sv_served (s : supervisor) : B :=
  match sv_phase s with SvLaunch _ l => launch_broker l | _ => sv_broker s end.

(** ** The invariants *)

(** The launch in progress. *)
Record launch_inv (used : list Z) (g : Z) (l : launch) : Prop := {
  li_reach : oreach g l;
  li_unnumbered : unnumbered (la_phase l) = true → ∀ g', oreach g' l;
  li_only : serves_only g (launch_broker l);
  li_used : g = 0 ∨ head used = Some g;
}.
Definition past_inv (p : Z * launch) : Prop :=
  oreach p.1 p.2 ∧ left_clean p.1 p.2 ∧ ∃ o, la_phase p.2 = LReturned o.

Record generations_inv (s : supervisor) : Prop := {
  gi_launch : match sv_phase s with SvLaunch g l => launch_inv (sv_used s) g l | _ => serves_none (sv_broker s) end;
  gi_past : Forall past_inv (sv_past s);
  gi_raised : 0 ≤ sv_raised s;
  gi_used : sv_raised s < 2 ^ 64 → StronglySorted Z.gt (sv_used s) ∧ Forall (λ g, 0 < g ≤ sv_raised s) (sv_used s);
}.

Lemma unnumbered_rank p : unnumbered p = true ↔ 13 ≤ lrank p.
Proof. destruct p; cbn; split; (done || lia). Qed.
Lemma ostep_stays_numbered g l l' : ostep g l l' → unnumbered (la_phase l') = true → unnumbered (la_phase l) = true.
Proof.
  intros Hs. destruct Hs as [r l l' _ H| | | | | |]; try done. apply once_step_rank in H. rewrite !unnumbered_rank. lia.
Qed.
(** A launch that has returned, or has no generation yet, is not served. *)
Lemma left_unserved g l : left_clean g l → ¬ sink_live g (launch_broker l).
Proof.
  intros [[_ _ _ _ _ _ Hs] _ _ _]. unfold session_over in Hs. unfold launch_broker. destruct (la_sys l) as [y|]; [|done].
  destruct Hs as [_ _ Hcl Hc _]. by apply (cg_closed _ _ Hcl).
Qed.
Lemma unnumbered_unserved l : unnumbered (la_phase l) = true → (∀ g, oreach g l) → serves_none (launch_broker l).
Proof.
  intros Hp Hr g. pose proof (oreach_inv _ _ _ _ (Hr g)) as [_ Hi]. unfold launch_broker.
  assert (early g l) as (-> & ? & _); [|done]. unfold phase_inv in Hi. by destruct (la_phase l); destruct Hi.
Qed.
Lemma start_launch b used : serves_none b → launch_inv used 0 (once_start b).
Proof.
  intros Hb. constructor; [|intros _ g'| |by left]; try (by apply oreach_start).
  intros g' _. apply Hb.
Qed.

Lemma launch_unserved_elsewhere used g l :
  launch_inv used g l → left_clean g l → serves_none (launch_broker l).
Proof.
  intros [_ _ Ho _] Hc g'. destruct (decide (g' = g)) as [->|Hne]; [by apply left_unserved|by apply Ho].
Qed.
Lemma launch_step used g l l' : launch_inv used g l → ostep g l l' → launch_inv used g l'.
Proof.
  intros [Hr Hu Ho Hg] Hs. constructor; [by eapply oreach_step| |by eapply ostep_only|done].
  intros Hp g'. pose proof (ostep_stays_numbered _ _ _ Hs Hp) as Hp0.
  eapply oreach_step; [by apply Hu|]. by eapply ostep_unnumbered.
Qed.
Lemma number_launch used g g' key l l' :
  launch_inv used g l → la_phase l = LKey → Bytes key → zlen key = SubprocessIPCKeyBytes →
  once_step g (Random key) l = Some l' → launch_inv (g' :: used) g' l'.
Proof.
  intros [Hr Hu Ho Hg] Hp Hb Hl Hs.
  assert (unnumbered (la_phase l) = true) as Hun by by rewrite Hp.
  assert (ostep g l l') as Hst by (eapply o_call; [|done]; by intros ? [= <-]).
  assert (l' = at_phase LBootstrap (with_key (Some key) [] l)) as Hl'.
  { unfold RunOnce.once_step, socketpair, set_nonblock in Hs. rewrite Hp in Hs. by injection Hs as <-. }
  constructor; [eapply oreach_step; [by apply Hu|by eapply ostep_unnumbered] | | |by right].
  - rewrite Hl'. done.
  - rewrite Hl'. intros g1 _. by apply (unnumbered_unserved l Hun (Hu Hun)).
Qed.

Lemma finish_generations g l o s :
  generations_inv s → sv_phase s = SvLaunch g l → la_phase l = LReturned o → generations_inv (finish g l o s).
Proof.
  intros [Hl Hpa Hra Hus] Hp Ho. rewrite Hp in Hl.
  assert (left_clean g l) as Hc by (eapply returned_clean; [apply Hl|done]).
  assert (past_inv (g, l)) as Hpast by (split; [apply Hl|split; [done|by exists o]]).
  pose proof (launch_unserved_elsewhere _ _ _ Hl Hc) as Hn.
  unfold finish. destruct (once_result o); [| |destruct (next (sv_backoff s))]; constructor; cbn; auto.
Qed.
Lemma loop_generations elapsed s s' :
  generations_inv s → loop_step elapsed s = Some s' → generations_inv s'.
Proof.
  intros Hi Hs. unfold loop_step in Hs. destruct (sv_phase s) as [|g l|c|e] eqn:Hp; [| | |done].
  - destruct Hi as [Hl Hpa Hra Hus]. rewrite Hp in Hl.
    destruct (exceeded s); injection Hs as <-; constructor; cbn; auto. by apply start_launch.
  - destruct (la_phase l) eqn:Hph; try done. injection Hs as <-. by eapply finish_generations.
  - destruct Hi as [Hl Hpa Hra Hus]. rewrite Hp in Hl. destruct elapsed; [injection Hs as <-; by constructor|].
    destruct (sv_ctx s); [|done]. injection Hs as <-. by constructor.
Qed.
Lemma svstep_generations s s' : generations_inv s → svstep s s' → generations_inv s'.
Proof.
  intros Hi Hs. pose proof Hi as [Hl Hpa Hra Hus].
  destruct Hs as [el s s' Hs|g l l' s Hp Hs Hn|g key l l' s Hp Hk Hb Hlen Hs|e s Hc|s|b s Ho Hnl].
  - by eapply loop_generations.
  - rewrite Hp in Hl. constructor; cbn; try done. by eapply launch_step.
  - rewrite Hp in Hl. constructor; cbn; try done; [by eapply number_launch|lia|].
    intros Hw. destruct Hus as [Hso Hall]; [lia|]. rewrite (uwrap_id 64) by lia. split.
    + constructor; [done|]. eapply Forall_impl; [exact Hall|]. cbn. lia.
    + constructor; [lia|]. eapply Forall_impl; [exact Hall|]. cbn. lia.
  - by constructor.
  - constructor; cbn; try done; [lia|]. intros Hw. destruct Hus as [Hso Hall]; [lia|]. split; [done|].
    eapply Forall_impl; [exact Hall|]. cbn. lia.
  - constructor; cbn; try done. destruct (sv_phase s) as [|g l|c|e]; [..|]; try (by destruct (Hnl g l));
      intros g'; by eapply sink_other_dead.
Qed.
Lemma svreach_generations s : svreach s → generations_inv s.
Proof.
  induction 1 as [raised b Hr Hb|s s' _ IH Hs]; [|by eapply svstep_generations].
  constructor; cbn; auto. split; constructor.
Qed.

(** ** Refinement of the loop of Supervisor.v *)

#[local] Arguments Supervisor.run : simpl never.
#[local] Arguments next : simpl never.
Definition prepends (ds : list Z) (r : list Z * option (option runError)) : list Z * option (option runError) :=
  (ds ++ r.1, r.2).
(** What is left to run from here. *)
Definition continues (s : supervisor) (its : list iteration) (ds : list Z) (b : backoff) : Prop :=
  ∀ more, run policy (its ++ more) = prepends ds (run_loop policy (sv_attempt s) b more).
Definition loop_inv (s : supervisor) : Prop :=
  match sv_phase s with
  | SvHead => continues s (sv_its s) (sv_delays s) (sv_backoff s)
  | SvLaunch _ _ => exceeded s = false ∧ continues s (sv_its s) (sv_delays s) (sv_backoff s)
  | SvBackoff _ => exceeded s = false ∧ ∃ b ds d, sv_delays s = ds ++ [d] ∧ next b = (d, sv_backoff s)
      ∧ continues s (sv_its s) ds b
  | SvReturned e => run policy (sv_its s) = (sv_delays s, Some e)
  end.

Lemma prepends_app ds ds' r : prepends ds (prepends ds' r) = prepends (ds ++ ds') r.
Proof. unfold prepends. cbn. by rewrite app_assoc. Qed.
Lemma run_loop_step attempt b it its :
  ((0 <? MaxRetries policy) && (MaxRetries policy <=? attempt)) = false →
  run_loop policy attempt b (it :: its)
  = match it_once it with
    | OnceNil | OnceCanceled => ([], Some (RunCtx <$> it_ctx it))
    | OnceFailed =>
        match it_wait it with
        | WaitCancelled e => ([(next b).1], Some (Some (RunCtx e)))
        | WaitElapsed => prepends [(next b).1] (run_loop policy (attempt + 1) (next b).2 its)
        end
    end.
Proof.
  intros He. cbn. rewrite He. destruct (it_once it); try done. destruct (next b) as [d b'].
  destruct (it_wait it); [done|]. by destruct (run_loop _ _ _ its).
Qed.
Lemma loop_step_inv elapsed s s' : loop_inv s → loop_step elapsed s = Some s' → loop_inv s'.
Proof.
  unfold loop_inv, loop_step. intros Hi Hs. destruct (sv_phase s) as [|g l|c|e] eqn:Hp; [| | |done].
  - destruct (exceeded s) eqn:He; injection Hs as <-; cbn; [|by split].
    specialize (Hi []). rewrite app_nil_r in Hi. rewrite Hi. unfold exceeded in He. cbn. rewrite He.
    unfold prepends. cbn. by rewrite app_nil_r.
  - destruct (la_phase l) as [| | | | | | | | | | | | | | |o|] eqn:Hph; try done. injection Hs as <-. destruct Hi as [He Hi].
    assert (∀ r, once_result o = r → r ≠ OnceFailed →
      run policy (sv_its s ++ [Iteration r (sv_ctx s) WaitElapsed]) = (sv_delays s, Some (RunCtx <$> sv_ctx s))) as Hend.
    { intros r _ Hr. rewrite (Hi [_]), run_loop_step by done. unfold prepends. destruct r; cbn; rewrite ?app_nil_r; done. }
    unfold finish. destruct (once_result o) eqn:Ho; [by apply Hend..|].
    cbn. destruct (next (sv_backoff s)) as [d b] eqn:Hb. cbn. split; [done|]. by exists (sv_backoff s), (sv_delays s), d.
  - destruct Hi as (He & b & ds & d & Hd & Hb & Hi). destruct elapsed.
    + injection Hs as <-. cbn. intros more. rewrite <-app_assoc. cbn. rewrite Hi, run_loop_step by done. cbn.
      rewrite prepends_app, Hb. cbn. by rewrite Hd.
    + destruct (sv_ctx s) as [e|]; [|done]. injection Hs as <-. cbn. rewrite Hi, run_loop_step by done. cbn. rewrite Hb, Hd. done.
Qed.
Lemma svreach_loop s : svreach s → loop_inv s.
Proof.
  induction 1 as [raised b _ _|s s' _ IH Hs].
  - intros more. cbn. unfold run. by destruct (run_loop _ _ _ _).
  - destruct Hs as [el s s' Hs|g l l' s Hp Hs Hn|g key l l' s Hp Hk Hb Hlen Hs|e s Hc|s|b s Ho Hnl]; try done.
    + by eapply loop_step_inv.
    + unfold loop_inv in IH. by rewrite Hp in IH.
    + unfold loop_inv in IH. by rewrite Hp in IH.
Qed.

(** ** What the launches returned *)

Definition launch_result (p : Z * launch) : onceResult :=
  match la_phase p.2 with LReturned o => once_result o | _ => OnceFailed end.
(** The iteration that is in its delay has a result too. *)
Definition results_inv (s : supervisor) : Prop :=
  reverse (launch_result <$> sv_past s)
  = (it_once <$> sv_its s) ++ match sv_phase s with SvBackoff _ => [OnceFailed] | _ => [] end.

Lemma loop_results elapsed s s' : results_inv s → loop_step elapsed s = Some s' → results_inv s'.
Proof.
  unfold results_inv, loop_step. intros Hi Hs. destruct (sv_phase s) as [|g l|c|e] eqn:Hp; [| | |done].
  - destruct (exceeded s); injection Hs as <-; done.
  - destruct (la_phase l) as [| | | | | | | | | | | | | | |o|] eqn:Hph; try done. injection Hs as <-.
    assert (reverse (launch_result <$> (g, l) :: sv_past s) = (it_once <$> sv_its s) ++ [once_result o]) as Hr.
    { rewrite fmap_cons, reverse_cons, Hi, app_nil_r. unfold launch_result. cbn. by rewrite Hph. }
    unfold finish. destruct (once_result o) eqn:Ho; [..|cbn; destruct (next (sv_backoff s))];
      etrans; try exact Hr; cbn; by rewrite ?fmap_app, ?app_nil_r.
  - destruct elapsed; [injection Hs as <-; cbn; by rewrite fmap_app, app_nil_r|].
    destruct (sv_ctx s); [|done]. injection Hs as <-. cbn. by rewrite fmap_app, app_nil_r.
Qed.
Lemma svreach_results s : svreach s → results_inv s.
Proof.
  induction 1 as [raised b _ _|s s' _ IH Hs]; [done|].
  destruct Hs as [el s s' Hs|g l l' s Hp Hs Hn|g key l l' s Hp Hk Hb Hlen Hs|e s Hc|s|b s Ho Hnl]; try done;
    [by eapply loop_results|..]; unfold results_inv in *; by rewrite Hp in IH.
Qed.

(** How many launches there were. *)
Definition count_inv (s : supervisor) : Prop :=
  0 < MaxRetries policy →
  match sv_phase s with
  | SvHead => zlen (sv_past s) = sv_attempt s ∧ sv_attempt s ≤ MaxRetries policy
  | SvLaunch _ _ => zlen (sv_past s) = sv_attempt s ∧ sv_attempt s < MaxRetries policy
  | SvBackoff _ => zlen (sv_past s) = sv_attempt s + 1 ∧ sv_attempt s < MaxRetries policy
  | SvReturned _ => zlen (sv_past s) ≤ MaxRetries policy
  end.
Lemma svreach_count s : svreach s → count_inv s.
Proof.
  induction 1 as [raised b _ _|s s' _ IH Hs]; [intros ?; cbn; split; [done|lia]|].
  destruct Hs as [el s s' Hs|g l l' s Hp Hs Hn|g key l l' s Hp Hk Hb Hlen Hs|e s Hc|s|b s Ho Hnl]; try done;
    unfold count_inv in *; intros Hm; specialize (IH Hm); [|by rewrite Hp in IH..].
  unfold loop_step in Hs. destruct (sv_phase s) as [|g l|c|e] eqn:Hp; [| | |done].
  - destruct (exceeded s) eqn:He; injection Hs as <-; cbn; [lia|]. split; [apply IH|]. unfold exceeded in He. lia.
  - destruct (la_phase l) as [| | | | | | | | | | | | | | |o|]; try done. injection Hs as <-. unfold finish.
    destruct (once_result o); cbn; [..|destruct (next (sv_backoff s)); cbn]; rewrite zlen_cons; lia.
  - destruct el; [injection Hs as <-; cbn; lia|]. destruct (sv_ctx s); [|done]. injection Hs as <-. cbn. lia.
Qed.

(** ** The theorems *)

(** C10: the loop over real launches is the loop of Supervisor.v: when [run] returns, the
    delays it waited for and its error are those of that loop on the iterations that
    happened, whose results are, in order, those of the launches. *)
Theorem launches_refine_loop s e :
  svreach s → sv_phase s = SvReturned e →
  Supervisor.run policy (sv_its s) = (sv_delays s, Some e)
  ∧ it_once <$> sv_its s = reverse (launch_result <$> sv_past s).
Proof.
  intros Hs Hp. pose proof (svreach_loop _ Hs) as Hl. pose proof (svreach_results _ Hs) as Hr.
  unfold loop_inv in Hl. unfold results_inv in Hr. rewrite Hp in Hl, Hr. rewrite app_nil_r in Hr. auto.
Qed.

(** C7: restarts are isolated from each other: of every launch that returned no process, no
    goroutine, no open descriptor and no served session is left, its [key] and the key of its
    started session are wiped (left, as [left_clean] has it, are the write end of its stdout
    pipe if [StderrPipe] failed, and the key in its bootstrap packet and, if that could not be
    sent, in its closed session, which was never started); the launch in progress is one of
    RunOnce.v, so that its theorems hold of it; the broker serves at most that launch, under
    the generation taken last and only once its session runs, and nobody between two
    launches; and no generation is taken twice, however many runners share the counter, as
    long as it was raised less than 2^64 times. *)
Theorem restarts_isolated s :
  svreach s →
  (∀ g l, (g, l) ∈ sv_past s → oreach g l ∧ left_clean g l)
  ∧ (∀ g l, sv_phase s = SvLaunch g l → oreach g l)
  ∧ (∀ g, sink_live g (sv_served s) →
      ∃ l, sv_phase s = SvLaunch g l ∧ is_Some (la_sys l) ∧ head (sv_used s) = Some g)
  ∧ (sv_raised s < 2 ^ 64 → StronglySorted Z.gt (sv_used s)).
Proof.
  intros Hs. destruct (svreach_generations _ Hs) as [Hl Hpa _ Hu]. split_and!.
  - intros g l Hin. rewrite Forall_forall in Hpa. by destruct (Hpa _ Hin) as (? & ? & _).
  - intros g l Hp. rewrite Hp in Hl. apply Hl.
  - intros g Hlive. unfold sv_served in Hlive. destruct (sv_phase s) as [|g' l|c|e]; try by destruct (Hl g).
    destruct Hl as [Hr _ Ho Hg]. destruct (decide (g = g')) as [<-|Hne]; [|by destruct (Ho g)].
    exists l. split; [done|]. pose proof (oreach_inv _ _ _ _ Hr) as Hi. unfold launch_broker in Hlive.
    destruct (la_sys l) as [y|] eqn:Hy; [|by destruct (oinv_unserved _ g l Hi)]. split; [done|].
    destruct Hg as [->|]; [|done]. destruct (on_runs _ _ _ Hi y Hy) as (key & tr & (_ & _ & Henc) & _).
    rewrite encodeSubprocessBootstrap_layout in Henc. done.
  - intros Hw. by apply Hu.
Qed.

(** [run] is never stuck: until it has returned it can take its next step, or the
    launch in progress can, or that launch waits for the process, for [cmd.Wait], for a
    goroutine of its closed session or for the end of the output; when the context has
    ended, a delay ends at once, and [run] with the context's error; and at most
    [MaxRetries] launches are made, if that is positive. *)
Theorem loop_progress s :
  svreach s →
  ((∃ s', loop_step true s = Some s')
   ∨ (∃ e, sv_phase s = SvReturned e)
   ∨ ∃ g l, sv_phase s = SvLaunch g l ∧ ((∃ r l', once_step g r l = Some l') ∨ awaited l))
  ∧ (∀ c e, sv_phase s = SvBackoff c → sv_ctx s = Some e →
      ∃ s', loop_step false s = Some s' ∧ sv_phase s' = SvReturned (Some (RunCtx e)))
  ∧ (0 < MaxRetries policy → zlen (sv_past s) ≤ MaxRetries policy).
Proof.
  intros Hs. split_and!.
  - pose proof (svreach_generations _ Hs) as [Hl _ _ _]. unfold loop_step. destruct (sv_phase s) as [|g l|c|e] eqn:Hp.
    + left. destruct (exceeded s); eauto.
    + destruct (once_step g Success l) as [l1|] eqn:H1; [right; right; exists g, l; eauto 6|].
      destruct (once_step g PickWait l) as [l1|] eqn:H2; [right; right; exists g, l; eauto 6|].
      destruct (once_stuck _ _ g l (oreach_inv _ _ _ _ (li_reach _ _ _ Hl)) H1 H2) as [[o Ho]|Hw];
        [left; rewrite Ho; eauto|right; right; exists g, l; auto].
    + left; eauto.
    + right; left. eauto.
  - intros c e Hp Hc. unfold loop_step. rewrite Hp, Hc. cbn. by eexists.
  - intros Hm. pose proof (svreach_count _ Hs Hm) as Hc. destruct (sv_phase s); lia.
Qed.

(** ** Runs step by step *)

Inductive svmove := SLoop (elapsed : bool) | SMove (m : move) | SCancel (e : ctxError).
Definition numbers (m : move) : option bytes := match m with MCall (Random key) => Some key | _ => None end.
Definition drive_step (m : svmove) (s : supervisor) : option supervisor :=
  match m with
  | SLoop elapsed => loop_step elapsed s
  | SCancel e => match sv_ctx s with None => Some (with_ctx e s) | Some _ => None end
  | SMove m =>
      match sv_phase s with
      | SvLaunch g l =>
          l' ← move_step supported activate g m l;
          match la_phase l, numbers m with
          | LKey, Some _ => Some (let '(s, generation) := take_generation s in at_svphase (SvLaunch generation l') s)
          | LKey, None => match la_phase l' with LBootstrap => None | _ => Some (at_svphase (SvLaunch g l') s) end
          | _, _ => Some (at_svphase (SvLaunch g l') s)
          end
      | _ => None
      end
  end.
Definition drive (ms : list svmove) (s : supervisor) : option supervisor :=
  foldl (λ o m, o ≫= drive_step m) (Some s) ms.

Lemma drive_svstep m s s' : drive_step m s = Some s' → svstep s s'.
Proof.
  destruct m as [el|m|e]; cbn; intros H.
  - by eapply sv_loop.
  - destruct (sv_phase s) as [|g l|c|e] eqn:Hp; try done. destruct (move_step _ _ g m l) as [l'|] eqn:Hm; [|done]. cbn in H.
    pose proof (move_ostep _ _ _ _ _ _ Hm) as Ho.
    assert (la_phase l ≠ LKey → svstep s (at_svphase (SvLaunch g l') s)) as Hother.
    { intros Hne. apply (sv_launch g l l'); [done..|]. by intros ?. }
    destruct (la_phase l) eqn:Hph; try (injection H as <-; by apply Hother).
    destruct (numbers m) as [key|] eqn:Hn.
    + destruct m as [[]| | | | | |]; try done. injection Hn as ->. cbn in Hm. case_bool_decide as Hk; [|done].
      injection H as <-. destruct Hk. by apply (sv_number g key l l').
    + destruct (la_phase l') eqn:Hl'; try done; injection H as <-; (apply (sv_launch g l l'); [done..|congruence]).
  - destruct (sv_ctx s) eqn:Hc; [done|]. injection H as <-. by constructor.
Qed.
Lemma drive_none ms : foldl (λ o m, o ≫= drive_step m) None ms = None.
Proof. by induction ms. Qed.
Lemma drive_svreach ms s s' : svreach s → drive ms s = Some s' → svreach s'.
Proof.
  unfold drive. revert s. induction ms as [|m ms IH]; intros s Hs H; [by injection H as <-|].
  cbn in H. destruct (drive_step m s) as [s1|] eqn:Hm; [|by rewrite drive_none in H].
  apply (IH s1); [|done]. eapply svreach_step; [done|]. by eapply drive_svstep.
Qed.
End launches.

(** ** A clean exit that is taken for a failure, its restart, and a clean exit *)
Module ldemo.
Import odemo.
Definition policy : RestartPolicy := Policy 0 0 0.
Definition s0 : supervisor := sv_start policy 0 b0.
Definition until_delay : list svmove := SLoop false :: (SMove <$> eof_first) ++ [SLoop false].
Definition until_served : list svmove := until_delay ++ [SLoop true; SLoop false] ++ (SMove <$> started).
Definition until_return : list svmove :=
  until_delay ++ [SLoop true; SLoop false] ++ (SMove <$> exit_first) ++ [SLoop false].
Definition at_ (ms : list svmove) : supervisor := default s0 (drive true act policy ms s0).

Lemma sv_start_reach : svreach true act policy s0.
Proof. constructor; [done|]. by intros g [_ ?]. Qed.
Lemma at_reach ms : is_Some (drive true act policy ms s0) → svreach true act policy (at_ ms).
Proof. intros [s Hs]. apply (drive_svreach true act policy ms s0); [apply sv_start_reach|]. unfold at_. by rewrite Hs. Qed.
Lemma return_reach : svreach true act policy (at_ until_return).
Proof. apply at_reach. vm_compute. eauto. Qed.
Lemma served_reach : svreach true act policy (at_ until_served).
Proof. apply at_reach. vm_compute. eauto. Qed.
Lemma return_ends : sv_phase (at_ until_return) = SvReturned None.
Proof. vm_compute. reflexivity. Qed.
Lemma served_live : sink_live 2 (sv_served (at_ until_served)).
Proof. split; vm_compute; reflexivity. Qed.
Lemma delay_reach : svreach true act policy (at_ until_delay).
Proof. apply at_reach. vm_compute. eauto. Qed.
End ldemo.

Lemma launches_refine_loop_witness :
  sv_phase (ldemo.at_ ldemo.until_return) = SvReturned None
  ∧ sv_delays (ldemo.at_ ldemo.until_return) = [Second]
  ∧ Supervisor.run ldemo.policy (sv_its (ldemo.at_ ldemo.until_return)) = ([Second], Some None)
  ∧ it_once <$> sv_its (ldemo.at_ ldemo.until_return) = [OnceFailed; OnceNil].
Proof.
  assert (sv_delays (ldemo.at_ ldemo.until_return) = [Second]) as Hd by (vm_compute; reflexivity).
  split; [exact ldemo.return_ends|]. split; [exact Hd|].
  destruct (launches_refine_loop _ _ _ _ _ ldemo.return_reach ldemo.return_ends) as [Hr Hi].
  rewrite Hd in Hr. split; [exact Hr|]. rewrite Hi. vm_compute. reflexivity.
Defined.

Lemma restarts_isolated_witness :
  sink_live 2 (sv_served (ldemo.at_ ldemo.until_served))
  ∧ head (sv_used (ldemo.at_ ldemo.until_served)) = Some 2
  ∧ StronglySorted Z.gt (sv_used (ldemo.at_ ldemo.until_served)).
Proof.
  split; [exact ldemo.served_live|].
  destruct (restarts_isolated _ _ _ _ ldemo.served_reach) as (_ & _ & Hl & Hu).
  destruct (Hl 2 ldemo.served_live) as (l & _ & _ & Hh). split; [exact Hh|].
  apply Hu. vm_compute. reflexivity.
Defined.

Lemma loop_progress_witness :
  (∃ c, sv_phase (ldemo.at_ ldemo.until_delay) = SvBackoff c)
  ∧ ((∃ s', loop_step ldemo.policy true (ldemo.at_ ldemo.until_delay) = Some s')
     ∨ (∃ e, sv_phase (ldemo.at_ ldemo.until_delay) = SvReturned e)
     ∨ ∃ g l, sv_phase (ldemo.at_ ldemo.until_delay) = SvLaunch g l
         ∧ ((∃ r l', once_step true odemo.act g r l = Some l') ∨ awaited l)).
Proof.
  split; [vm_compute; eauto|]. destruct (loop_progress _ _ _ _ ldemo.delay_reach) as [H _]. exact H.
Defined.
