(* ===== verification/EmbeddedRun.v ===== *)
(** * The life of an embedded run (embedded.go)

    [embeddedRunner.run] starts a goroutine locked to its thread that creates the isolate,
    initialises Geyser, registers the callbacks, hands the isolate over and blocks in
    [geyser_run]; a goroutine polls the health; the runner supervises both and shuts them
    down. Here they interleave with each other and with the callbacks of CallbackSys.v, a
    step at a time; a native call returns any code. The isolate is tracked: created, live,
    torn down. A send to a channel with room is part of the step before it. *)
From S2P Require Import Prelude GoInt Abi Protobuf Supervisor Broker BrokerSys Session SessionSpec Callback CallbackSys.

(** The errors of a run. *)
Inductive runErr :=
| RCreate (rc : Z) | RInit (rc : Z) | RAbi | RCtx (e : ctxError) | RFatal (e : option callbackError)
| RRunRc (rc : Z) | RAttach (rc : Z) | RShutdown (rc : Z) | RTearDown (rc : Z).

Inductive isolate := INone | ILive | ITorn.

(** Where the locked goroutine is. [NStart], [NStop]: inside [startIngressGeneration] and
    [stopIngressGeneration], whose progress is the generation's phase. *)
Inductive nphase :=
| NCreate | NCheck1 | NInit | NCheck2 | NStart | NCheck3 | NStop (err : runErr) | NTear (err : runErr)
| NHandOff | NRun | NRunning | NBlocked | NWaitTear | NTearFinal | NDone.

(** What became of the request to shut down. [geyser_run] (GeyserBridge.java) replaces the
    latch of the process, [NBlocked] from then on, and waits for its own; [geyser_shutdown]
    counts down the latch of the moment: the one [geyser_run] waits for, or an earlier one. *)
Inductive shut := NotAsked | Refused | Early | Told.

(** Where [run] is, with the [reason] so far and [runExited]. *)
Inductive vphase :=
| VSelect | VWait | VGate (reason : option runErr) (exited : bool) | VStop (reason : option runErr) (exited : bool)
| VCancelHealth (reason : option runErr) (exited : bool) | VHealthWait (reason : option runErr) (exited : bool)
| VAttach (reason : option runErr) | VShutdown (reason : option runErr) | VRunDone (reason : option runErr) | VTear (reason : option runErr) | VTearDone (reason : option runErr)
| VReturned (reason : option runErr).

(** Where [pollHealth] is. *)
Inductive hphase := HNone | HAttach | HCheck | HStatus | HSleep | HDetach | HDone.

Section runner.
Context {A : IngressAbi}.
(** Whether [graal_tear_down_isolate] waits for the other attached threads to detach, as
    its documentation says. *)
Context (waits : bool).

Record runner := Run {
  rn_p : process;
  rn_ctx : option ctxError;   (* the error of the context of the run *)
  rn_iso : isolate;
  rn_attached : Z;   (* threads attached to the isolate *)
  rn_helpers : Z;   (* threads of [callOnAttachedThread] that are yet to detach *)
  rn_bad : bool;   (* a native call was made without a live isolate, or a closed channel closed *)
  rn_native : nphase;
  rn_super : vphase;
  rn_health : hphase;
  rn_createErr : option runErr;   (* [createErr], capacity 1 *)
  rn_runDone : option Z;   (* [runDone], capacity 1 *)
  rn_tearStart : bool;   (* [tearDownStart] is closed *)
  rn_tearDone : option Z;   (* [tearDownDone], capacity 1 *)
  rn_healthStop : bool;   (* [cancelHealth] was called *)
  rn_healthy : bool;
  rn_shut : shut;
}.

Definition set_p (v : process) (r : runner) : runner :=
  Run v (rn_ctx r) (rn_iso r) (rn_attached r) (rn_helpers r) (rn_bad r) (rn_native r) (rn_super r) (rn_health r)
    (rn_createErr r) (rn_runDone r) (rn_tearStart r) (rn_tearDone r) (rn_healthStop r) (rn_healthy r) (rn_shut r).
Definition set_iso (v : isolate) (r : runner) : runner :=
  Run (rn_p r) (rn_ctx r) v (rn_attached r) (rn_helpers r) (rn_bad r) (rn_native r) (rn_super r) (rn_health r) (rn_createErr
    r) (rn_runDone r) (rn_tearStart r) (rn_tearDone r) (rn_healthStop r) (rn_healthy r) (rn_shut r).
Definition set_attached (v : Z) (r : runner) : runner :=
  Run (rn_p r) (rn_ctx r) (rn_iso r) v (rn_helpers r) (rn_bad r) (rn_native r) (rn_super r) (rn_health r) (rn_createErr r)
    (rn_runDone r) (rn_tearStart r) (rn_tearDone r) (rn_healthStop r) (rn_healthy r) (rn_shut r).
Definition set_helpers (v : Z) (r : runner) : runner :=
  Run (rn_p r) (rn_ctx r) (rn_iso r) (rn_attached r) v (rn_bad r) (rn_native r) (rn_super r) (rn_health r)
    (rn_createErr r) (rn_runDone r) (rn_tearStart r) (rn_tearDone r) (rn_healthStop r) (rn_healthy r) (rn_shut r).
Definition set_bad (v : bool) (r : runner) : runner :=
  Run (rn_p r) (rn_ctx r) (rn_iso r) (rn_attached r) (rn_helpers r) v (rn_native r) (rn_super r) (rn_health r) (rn_createErr
    r) (rn_runDone r) (rn_tearStart r) (rn_tearDone r) (rn_healthStop r) (rn_healthy r) (rn_shut r).
Definition set_native (v : nphase) (r : runner) : runner :=
  Run (rn_p r) (rn_ctx r) (rn_iso r) (rn_attached r) (rn_helpers r) (rn_bad r) v (rn_super r) (rn_health r) (rn_createErr r)
    (rn_runDone r) (rn_tearStart r) (rn_tearDone r) (rn_healthStop r) (rn_healthy r) (rn_shut r).
Definition set_super (v : vphase) (r : runner) : runner :=
  Run (rn_p r) (rn_ctx r) (rn_iso r) (rn_attached r) (rn_helpers r) (rn_bad r) (rn_native r) v (rn_health r) (rn_createErr r)
    (rn_runDone r) (rn_tearStart r) (rn_tearDone r) (rn_healthStop r) (rn_healthy r) (rn_shut r).
Definition set_health (v : hphase) (r : runner) : runner :=
  Run (rn_p r) (rn_ctx r) (rn_iso r) (rn_attached r) (rn_helpers r) (rn_bad r) (rn_native r) (rn_super r) v (rn_createErr r)
    (rn_runDone r) (rn_tearStart r) (rn_tearDone r) (rn_healthStop r) (rn_healthy r) (rn_shut r).
Definition set_createErr (v : option runErr) (r : runner) : runner :=
  Run (rn_p r) (rn_ctx r) (rn_iso r) (rn_attached r) (rn_helpers r) (rn_bad r) (rn_native r) (rn_super r) (rn_health r) v
    (rn_runDone r) (rn_tearStart r) (rn_tearDone r) (rn_healthStop r) (rn_healthy r) (rn_shut r).
Definition set_runDone (v : option Z) (r : runner) : runner :=
  Run (rn_p r) (rn_ctx r) (rn_iso r) (rn_attached r) (rn_helpers r) (rn_bad r) (rn_native r) (rn_super r) (rn_health r)
    (rn_createErr r) v (rn_tearStart r) (rn_tearDone r) (rn_healthStop r) (rn_healthy r) (rn_shut r).
Definition set_tearStart (v : bool) (r : runner) : runner :=
  Run (rn_p r) (rn_ctx r) (rn_iso r) (rn_attached r) (rn_helpers r) (rn_bad r) (rn_native r) (rn_super r) (rn_health r)
    (rn_createErr r) (rn_runDone r) v (rn_tearDone r) (rn_healthStop r) (rn_healthy r) (rn_shut r).
Definition set_tearDone (v : option Z) (r : runner) : runner :=
  Run (rn_p r) (rn_ctx r) (rn_iso r) (rn_attached r) (rn_helpers r) (rn_bad r) (rn_native r) (rn_super r) (rn_health r)
    (rn_createErr r) (rn_runDone r) (rn_tearStart r) v (rn_healthStop r) (rn_healthy r) (rn_shut r).
Definition set_healthStop (v : bool) (r : runner) : runner :=
  Run (rn_p r) (rn_ctx r) (rn_iso r) (rn_attached r) (rn_helpers r) (rn_bad r) (rn_native r) (rn_super r) (rn_health r)
    (rn_createErr r) (rn_runDone r) (rn_tearStart r) (rn_tearDone r) v (rn_healthy r) (rn_shut r).
Definition set_healthy (v : bool) (r : runner) : runner :=
  Run (rn_p r) (rn_ctx r) (rn_iso r) (rn_attached r) (rn_helpers r) (rn_bad r) (rn_native r) (rn_super r) (rn_health r)
    (rn_createErr r) (rn_runDone r) (rn_tearStart r) (rn_tearDone r) (rn_healthStop r) v (rn_shut r).
Definition set_shut (v : shut) (r : runner) : runner :=
  Run (rn_p r) (rn_ctx r) (rn_iso r) (rn_attached r) (rn_helpers r) (rn_bad r) (rn_native r) (rn_super r) (rn_health r)
    (rn_createErr r) (rn_runDone r) (rn_tearStart r) (rn_tearDone r) (rn_healthStop r) (rn_healthy r) v.
Definition set_ctx (v : option ctxError) (r : runner) : runner :=
  Run (rn_p r) v (rn_iso r) (rn_attached r) (rn_helpers r) (rn_bad r) (rn_native r) (rn_super r) (rn_health r) (rn_createErr
    r) (rn_runDone r) (rn_tearStart r) (rn_tearDone r) (rn_healthStop r) (rn_healthy r) (rn_shut r).

(** [if err != nil && reason == nil]. *)
Definition or_reason (reason : option runErr) (err : option runErr) : option runErr :=
  match reason with Some e => Some e | None => err end.

(** A native call on the isolate. *)
Definition native_call (r : runner) : runner :=
  match rn_iso r with ILive => r | _ => set_bad true r end.

(** [graal_create_isolate] and [graal_tear_down_isolate]. *)
Definition create_isolate (r : runner) : runner :=
  match rn_iso r with INone => set_iso ILive r | _ => set_bad true r end.
Definition tear_down (r : runner) : option runner :=
  if waits && negb (rn_attached r =? 0) then None else Some (set_iso ITorn (native_call r)).

(** [graal_attach_thread] and [graal_detach_thread]. *)
Definition attach (r : runner) : runner := set_attached (rn_attached r + 1) (native_call r).
Definition detach (r : runner) : runner := set_attached (rn_attached r - 1) (native_call r).

(** The goroutine of [callOnAttachedThread]: it attaches, unless [att] is not 0, and calls;
    it gives the result to its caller before the deferred detach. *)
Definition helper_call (att : Z) (r : runner) : runner :=
  if negb (att =? 0) then native_call r
  else set_helpers (rn_helpers r + 1) (native_call (attach r)).
Definition helper_detach (r : runner) : option runner :=
  if 0 <? rn_helpers r then Some (set_helpers (rn_helpers r - 1) (detach r)) else None.

(** The phase of the generation. *)
Definition phase_of (g : Z) (r : runner) : option sphase := p_supervisors (rn_p r) !! g.

(** The next section of [startIngressGeneration]; registering is a native call. *)
Definition start_section (g rc : Z) (r : runner) : option runner :=
  G ← p_generations (rn_p r) !! g;
  ph ← phase_of g r;
  p ← startIngressGeneration rc G ph (rn_p r);
  Some (set_p p (match ph with SRegister => native_call r | _ => r end)).

(** The next section of [stopIngressGeneration]; unregistering is a call on a thread of its
    own. *)
Definition stop_section (g att rc : Z) (r : runner) : option (runner * option runErr) :=
  G ← p_generations (rn_p r) !! g;
  ph ← phase_of g r;
  p ← stopIngressGeneration G ph (rn_p r);
  Some (match ph with
        | SUnregister =>
            (set_p p (helper_call att r),
             if negb (att =? 0) then Some (RAttach att)
             else if negb (rc =? CallbackRegistrationOK) then Some RAbi else None)
        | _ => (set_p p r, None)
        end).

Definition ctx_done (r : runner) : option ctxError := rn_ctx r.

(** [geyser_run] returns. *)
Definition run_returns (rc : Z) (r : runner) : runner := set_native NWaitTear (set_runDone (Some rc) r).
(** [geyser_shutdown] on an attached thread. *)
Definition shut_of (rc : Z) (r : runner) : shut :=
  if negb (rc =? 0) then Refused else match rn_native r with NRun | NRunning => Early | _ => Told end.

(** The locked goroutine: [rc] is the code of the native call of the step. *)
Definition native_step (g att rc : Z) (r : runner) : option runner :=
  match rn_native r with
  | NCreate =>
      if negb (rc =? 0) then Some (set_native NDone (set_createErr (Some (RCreate rc)) r))
      else Some (set_native NCheck1 (create_isolate r))
  | NCheck1 =>
      match ctx_done r with
      | Some e => Some (set_native (NTear (RCtx e)) r)
      | None => Some (set_native NInit r)
      end
  | NInit => Some (set_native (if rc =? 0 then NCheck2 else NTear (RInit rc)) (native_call r))
  | NCheck2 =>
      match ctx_done r with
      | Some e => Some (set_native (NTear (RCtx e)) r)
      | None => Some (set_native NStart r)
      end
  | NStart =>
      match phase_of g r with
      | Some SRunning => Some (set_native NCheck3 r)
      | Some SEnded => Some (set_native (NTear RAbi) r)
      | _ => start_section g rc r
      end
  | NCheck3 =>
      match ctx_done r with
      | Some e => Some (set_native (NStop (RCtx e)) (set_p (set_phase g SStopGate (rn_p r)) r))
      | None => Some (set_native NHandOff r)
      end
  | NHandOff =>    (* the case of the context; the other is [hand_off] *)
      match ctx_done r with
      | Some e => Some (set_native (NStop (RCtx e)) (set_p (set_phase g SStopGate (rn_p r)) r))
      | None => None
      end
  | NStop err =>
      match phase_of g r with
      | Some SEnded => Some (set_native (NTear err) r)
      | _ => fst <$> stop_section g att rc r
      end
  | NTear err => r ← tear_down r; Some (set_native NDone (set_createErr (Some err) r))
  | NRun => Some (set_native NRunning (native_call r))   (* geyser_run is called *)
  | NRunning => Some (set_native NBlocked r)   (* its latch is in place *)
  | NBlocked => match rn_shut r with Told => Some (run_returns rc r) | _ => None end
  | NWaitTear => if rn_tearStart r then Some (set_native NTearFinal r) else None
  | NTearFinal => r ← tear_down r; Some (set_native NDone (set_tearDone (Some rc) r))
  | NDone => None
  end.

(** [createDone <- refs] meets [refs = <-createDone]; then [pollHealth] is started. *)
Definition hand_off (r : runner) : option runner :=
  match rn_native r, rn_super r with
  | NHandOff, VSelect => Some (set_native NRun (set_super VWait (set_health HAttach r)))
  | _, _ => None
  end.

(** [run] after it started the goroutine; [pick] is the case of a [select] when several
    are ready. *)
Inductive pick := PickCreateErr | PickCtx | PickFatal | PickRunDone.

Definition super_step (g att rc : Z) (c : pick) (r : runner) : option runner :=
  match rn_super r with
  | VSelect =>
      match c with
      | PickCreateErr => err ← rn_createErr r; Some (set_super (VReturned (Some err)) (set_createErr None r))
      | PickCtx => e ← ctx_done r; Some (set_super (VReturned (Some (RCtx e))) r)
      | _ => None
      end
  | VWait =>
      match c with
      | PickFatal =>
          G ← p_generations (rn_p r) !! g;
          '(err, G') ← recv_wake G;
          Some (set_super (VGate (Some (RFatal err)) false) (set_p (set_generation g G' (rn_p r)) r))
      | PickRunDone =>
          rc ← rn_runDone r;
          Some (set_super (VGate (if rc =? 0 then None else Some (RRunRc rc)) true) (set_runDone None r))
      | PickCtx => e ← ctx_done r; Some (set_super (VGate (Some (RCtx e)) false) r)
      | PickCreateErr => None
      end
  | VGate reason exited =>      (* closeGate, and the call of stopIngressGeneration *)
      G ← p_generations (rn_p r) !! g;
      Some (set_super (VStop reason exited)
        (set_p (set_phase g SStopGate (set_generation g (closeGate G) (rn_p r))) r))
  | VStop reason exited =>
      match phase_of g r with
      | Some SEnded => Some (set_super (VCancelHealth reason exited) r)
      | _ => '(r, err) ← stop_section g att rc r; Some (set_super (VStop (or_reason reason err) exited) r)
      end
  | VCancelHealth reason exited => Some (set_super (VHealthWait reason exited) (set_healthStop true r))
  | VHealthWait reason exited =>
      match rn_health r with
      | HDone => Some (set_super (if exited then VTear reason else VAttach reason) r)
      | _ => None
      end
  | VAttach reason =>      (* callOnAttachedThread: attaching *)
      if negb (att =? 0) then Some (set_super (VRunDone (or_reason reason (Some (RAttach att)))) (set_shut Refused (native_call r)))
      else Some (set_super (VShutdown reason) (attach r))
  | VShutdown reason =>    (* geyser_shutdown; its thread detaches later *)
      Some (set_super (VRunDone (or_reason reason (if rc =? 0 then None else Some (RShutdown rc))))
        (set_shut (shut_of rc r) (set_helpers (rn_helpers r + 1) (native_call r))))
  | VRunDone reason =>
      rc ← rn_runDone r;
      Some (set_super (VTear (or_reason reason (if rc =? 0 then None else Some (RRunRc rc)))) (set_runDone None r))
  | VTear reason =>
      if rn_tearStart r then Some (set_bad true r)
      else Some (set_super (VTearDone reason) (set_tearStart true r))
  | VTearDone reason =>
      rc ← rn_tearDone r;
      Some (set_super (VReturned (or_reason reason (if rc =? 0 then None else Some (RTearDown rc))))
        (set_healthy false (set_tearDone None r)))
  | VReturned _ => None
  end.

(** The context of the polling: cancelled, or its parent is. *)
Definition health_cancelled (r : runner) : bool :=
  rn_healthStop r || match ctx_done r with Some _ => true | None => false end.

(** [pollHealth]; [timer]: the poll interval is over. *)
Definition health_step (rc : Z) (timer : bool) (r : runner) : option runner :=
  match rn_health r with
  | HNone | HDone => None
  | HAttach =>
      if negb (rc =? 0) then Some (set_health HDone (native_call r)) else Some (set_health HCheck (attach r))
  | HCheck => Some (set_health (if health_cancelled r then HDetach else HStatus) r)
  | HStatus =>
      if rc =? 1 then Some (set_health HDetach (set_healthy true (native_call r)))
      else Some (set_health HSleep (native_call r))
  | HSleep =>
      if health_cancelled r then Some (set_health HDetach r)
      else if timer then Some (set_health HCheck r) else None
  | HDetach => Some (set_health HDone (detach r))
  end.

(** Geyser ends by itself: [geyser_run] returns though nobody told it to. *)
Definition exits (rc : Z) (r : runner) : option runner :=
  match rn_native r with NRunning | NBlocked => Some (run_returns rc r) | _ => None end.

(** A step of anything else in the process: the other generations, the callbacks of this
    one, Gate. It does not run this run's sections, does not take from its wake channel,
    and has no thread of its generation before a broker was given that. *)
Definition others (g : Z) (p p' : process) : Prop :=
  pstep p p'
  ∧ p_supervisors p' !! g = p_supervisors p !! g
  ∧ (p_supervisors p !! g = Some SActivate →
       ∀ t ph, p_threads p' !! t = Some (g, ph) → ∃ ph0, p_threads p !! t = Some (g, ph0))
  ∧ (∀ G G', p_generations p !! g = Some G → p_generations p' !! g = Some G' →
       cg_fatalWake G ≠ [] → cg_fatalWake G' ≠ []).
(** Among them, the body of an [assign] of this generation, which calls [assignIngress]. *)
Definition assigns (g : Z) (p p' : process) : Prop :=
  ∃ t a calls, p_threads p !! t = Some (g, CBody (CAssign a)) ∧ p_threads p' !! t = Some (g, CFails calls).

Inductive rstep (g : Z) : runner → runner → Prop :=
| r_native att rc r r' : native_step g att rc r = Some r' → rstep g r r'
| r_hand_off r r' : hand_off r = Some r' → rstep g r r'
| r_super att rc c r r' : super_step g att rc c r = Some r' → rstep g r r'
| r_health rc timer r r' : health_step rc timer r = Some r' → rstep g r r'
| r_helper r r' : helper_detach r = Some r' → rstep g r r'
| r_exits rc r r' : exits rc r = Some r' → rstep g r r'
| r_cancel e r : rn_ctx r = None → rstep g r (set_ctx (Some e) r)
| r_others p' r : others g (rn_p r) p' → ¬ assigns g (rn_p r) p' → rstep g r (set_p p' r)
| r_assign att p' r :
    others g (rn_p r) p' → assigns g (rn_p r) p' → rstep g r (helper_call att (set_p p' r)).

(** [run] has made its channels and its generation and started the goroutine. *)
Definition run_start (p : process) : runner :=
  Run p None INone 0 0 false NCreate VSelect HNone None None false None false false NotAsked.

Inductive rreach (g i : Z) : runner → Prop :=
| rreach_start p :
    preach p → p_generations p !! g = None → p_supervisors p !! g = None →
    rreach g i (run_start (set_phase g SActivate (set_generation g (newCallbackGeneration g i) p)))
| rreach_step r r' : rreach g i r → rstep g r r' → rreach g i r'.
End runner.
