(* ===== verification/EmbeddedRunInv.v ===== *)
(** * The invariant of an embedded run

    How the goroutines of [EmbeddedRun] stand to each other, to the phase of the callback
    generation and to the isolate, and that every step keeps it so. *)
From S2P Require Import Prelude GoInt Abi Protobuf Supervisor Broker BrokerSys Session SessionSpec Callback CallbackSys EmbeddedRun.

Section runner.
Context {A : IngressAbi} (waits : bool).
Abbreviation stop_section := EmbeddedRun.stop_section.
Abbreviation native_step := (EmbeddedRun.native_step waits).
Abbreviation rstep := (EmbeddedRun.rstep waits).
Abbreviation rreach := (EmbeddedRun.rreach waits).

(** ** The invariant *)

(** The goroutine has not handed the isolate over; has, and is not tearing it down. *)
Definition before (n : nphase) : bool :=
  match n with
  | NCreate | NCheck1 | NInit | NCheck2 | NStart | NCheck3 | NStop _ | NTear _ | NHandOff => true
  | _ => false
  end.
Definition up (n : nphase) : bool := match n with NRun | NRunning | NBlocked | NWaitTear => true | _ => false end.
(** ... and is in [geyser_run], or about to call it. *)
Definition calling (n : nphase) : bool := match n with NRun | NRunning | NBlocked => true | _ => false end.

(** The supervisor has been handed the isolate, and has not given the start of the tear
    down; it has waited for the health goroutine. *)
Definition working (v : vphase) : bool :=
  match v with VSelect | VTearDone _ | VReturned _ => false | _ => true end.
Definition late (v : vphase) : bool :=
  match v with VAttach _ | VShutdown _ | VRunDone _ | VTear _ => true | _ => false end.
(** It has received from [runDone]. *)
Definition taken (v : vphase) : bool :=
  match v with
  | VGate _ x | VStop _ x | VCancelHealth _ x | VHealthWait _ x => x
  | VTear _ | VTearDone _ | VReturned _ => true
  | _ => false
  end.

(** How the goroutines stand to each other. *)
Inductive stage : nphase → vphase → hphase → bool → Prop :=
| StBefore n v : before n = true ∨ n = NDone → (v = VSelect ∨ ∃ e, v = VReturned e) → stage n v HNone false
| StUp n v h : up n = true → working v = true → h ≠ HNone → (late v = true → h = HDone) → stage n v h false
| StTear n e : up n = true ∨ n = NTearFinal ∨ n = NDone → stage n (VTearDone e) HDone true
| StEnd e : stage NDone (VReturned e) HDone true.

Definition starting (ph : sphase) : bool :=
  match ph with SStopGate | SStopDeactivate | SUnregister | SStopDrain => false | _ => true end.
Definition stopping (ph : sphase) : bool :=
  match ph with SStopGate | SStopDeactivate | SUnregister | SStopDrain | SClear | SEnded => true | _ => false end.
Definition unused (ph : sphase) : bool := match ph with SActivate | SEnded => true | _ => false end.

(** The phase of the generation, from where the goroutines are. *)
Definition phase_ok (n : nphase) (v : vphase) (ph : sphase) : Prop :=
  match n with
  | NCreate | NCheck1 | NInit | NCheck2 => ph = SActivate
  | NStart => starting ph = true
  | NCheck3 | NHandOff => ph = SRunning
  | NStop _ => stopping ph = true
  | NTear _ | NDone => unused ph = true
  | NRun | NRunning | NBlocked | NWaitTear | NTearFinal =>
      match v with
      | VWait | VGate _ _ => ph = SRunning
      | VStop _ _ => stopping ph = true
      | _ => ph = SEnded
      end
  end.

Definition isolate_ok (n : nphase) (i : isolate) : Prop :=
  match n with NCreate => i = INone | NDone => i ≠ ILive | _ => i = ILive end.

(** Threads attached by the health goroutine and the runner themselves. *)
Definition health_threads (h : hphase) : Z :=
  match h with HCheck | HStatus | HSleep | HDetach => 1 | _ => 0 end.
Definition super_threads (v : vphase) : Z := match v with VShutdown _ => 1 | _ => 0 end.

Record rinv (g : Z) (r : runner) : Prop := {
  ri_p : pinv (rn_p r);
  ri_phase : ∃ G ph, p_generations (rn_p r) !! g = Some G ∧ p_supervisors (rn_p r) !! g = Some ph
    ∧ phase_ok (rn_native r) (rn_super r) ph;
  ri_stage : stage (rn_native r) (rn_super r) (rn_health r) (rn_tearStart r);
  ri_iso : isolate_ok (rn_native r) (rn_iso r);
  ri_count : rn_attached r = rn_helpers r + health_threads (rn_health r) + super_threads (rn_super r);
  ri_helpers : 0 ≤ rn_helpers r;
  ri_gone : waits = true → rn_iso r ≠ ILive → rn_attached r = 0;
  ri_bad : waits = true → rn_bad r = false;
  ri_fresh : p_supervisors (rn_p r) !! g = Some SActivate → ∀ t ph, p_threads (rn_p r) !! t ≠ Some (g, ph);
  ri_run : (rn_native r = NWaitTear ∨ rn_native r = NTearFinal) → taken (rn_super r) = false → is_Some (rn_runDone r);
  ri_tear : rn_native r = NDone → rn_tearStart r = true → (∃ e, rn_super r = VTearDone e) → is_Some (rn_tearDone r);
  ri_err : rn_native r = NDone → rn_super r = VSelect → is_Some (rn_createErr r);
  ri_sent : is_Some (rn_createErr r) ∨ is_Some (rn_tearDone r) → rn_native r = NDone;
  ri_early : ∀ e, rn_super r = VReturned e → rn_health r = HNone →
    (∃ c, e = Some (RCtx c)) ∨ rn_native r = NDone;
  ri_calling : calling (rn_native r) = true → taken (rn_super r) = false;
  ri_running : before (rn_native r) = true ∨ calling (rn_native r) = true → rn_runDone r = None;
  ri_asked : ∀ e, rn_super r = VRunDone e → rn_shut r ≠ NotAsked;
  ri_healthy : rn_health r = HNone ∨ (∃ e, rn_super r = VReturned e) → rn_healthy r = false;
}.

(** ** Preservation *)

Lemma start_next rc G ph p p' :
  starting ph = true → startIngressGeneration rc G ph p = Some p' →
  ∃ q, p_supervisors p' = <[cg_id G := q]> (p_supervisors p) ∧ starting q = true ∧ q ≠ SActivate
    ∧ p_threads p' = p_threads p.
Proof.
  intros Hs. unfold startIngressGeneration. destruct ph; try done; repeat case_match; try done; intros [= <-];
    eexists; cbn; rewrite ?clear_supervisors; (split; [done|split; [done|split; [done|]]]);
    unfold clearCurrentGeneration; by repeat case_match.
Qed.
Lemma stop_next G ph p p' :
  stopIngressGeneration G ph p = Some p' →
  ∃ q, p_supervisors p' = <[cg_id G := q]> (p_supervisors p) ∧ stopping q = true
    ∧ p_threads p' = p_threads p.
Proof.
  unfold stopIngressGeneration. destruct ph; try done; repeat case_match; try done; intros [= <-];
    eexists; cbn; rewrite ?clear_supervisors; (split; [done|split; [done|]]);
    unfold clearCurrentGeneration; by repeat case_match.
Qed.
Lemma generation_kept (g : Z) (p' : process) : pinv p' → is_Some (p_supervisors p' !! g) → is_Some (p_generations p' !! g).
Proof. intros Hp. apply (pi_same p' Hp). Qed.

(** A section of the generation's start or stop, for the invariant. *)
Lemma start_section_rinv g rc r r' :
  start_section g rc r = Some r' → pinv (rn_p r) →
  (∃ ph, phase_of g r = Some ph ∧ starting ph = true) → rn_iso r = ILive →
  ∃ p', r' = set_p p' r ∧ pinv p' ∧ (∃ G q, p_generations p' !! g = Some G ∧ p_supervisors p' !! g = Some q
    ∧ starting q = true ∧ q ≠ SActivate).
Proof.
  intros H Hp (ph & Hph & Hs) Hi. unfold start_section in H.
  destruct (p_generations (rn_p r) !! g) as [G|] eqn:HG; [|done]. cbn in H. rewrite Hph in H. cbn in H.
  destruct (startIngressGeneration rc G ph (rn_p r)) as [p'|] eqn:Hst; [|done]. cbn in H. injection H as <-.
  exists p'. assert (pinv p') as Hp' by (by eapply start_pinv).
  destruct (start_next rc G ph _ p' Hs Hst) as (q & Hq & Hsq & Hne & _).
  rewrite (pi_ids _ Hp g G HG) in Hq.
  assert (p_supervisors p' !! g = Some q) as Hgq by (by rewrite Hq, lookup_insert_eq).
  destruct (generation_kept g p' Hp') as [G' HG']; [by rewrite Hgq|]. split_and!; [|done|by exists G', q].
  destruct ph; try done. unfold native_call. by rewrite Hi.
Qed.
Lemma stop_section_rinv g att rc r r' err :
  stop_section g att rc r = Some (r', err) → pinv (rn_p r) → rn_iso r = ILive →
  ∃ p', pinv p' ∧ (∃ G q, p_generations p' !! g = Some G ∧ p_supervisors p' !! g = Some q ∧ stopping q = true)
    ∧ (r' = set_p p' r ∨ r' = set_p p' (helper_call att r)).
Proof.
  intros H Hp Hi. unfold stop_section in H.
  destruct (p_generations (rn_p r) !! g) as [G|] eqn:HG; [|done]. cbn in H.
  destruct (phase_of g r) as [ph|] eqn:Hph; [|done]. cbn in H.
  destruct (stopIngressGeneration G ph (rn_p r)) as [p'|] eqn:Hst; [|done]. cbn in H. injection H as H.
  exists p'. assert (pinv p') as Hp' by (by eapply stop_pinv).
  destruct (stop_next G ph _ p' Hst) as (q & Hq & Hsq & _). rewrite (pi_ids _ Hp g G HG) in Hq.
  assert (p_supervisors p' !! g = Some q) as Hgq by (by rewrite Hq, lookup_insert_eq).
  destruct (generation_kept g p' Hp') as [G' HG']; [by rewrite Hgq|]. split_and!; [done|by exists G', q|].
  destruct ph; injection H as <- _; auto.
Qed.

(** What a helper's call does while the isolate is live. *)
Lemma helper_call_live att r :
  rn_iso r = ILive →
  helper_call att r = r
  ∨ helper_call att r = set_helpers (rn_helpers r + 1) (set_attached (rn_attached r + 1) r).
Proof.
  intros Hi. unfold helper_call, attach, native_call. rewrite Hi. destruct (negb _); [by left|right].
  cbn. by rewrite Hi.
Qed.
Lemma stage_before n v h ts :
  stage n v h ts → before n = true → (v = VSelect ∨ ∃ e, v = VReturned e) ∧ h = HNone ∧ ts = false.
Proof.
  intros [n0 v0 Hn Hv|n0 v0 h0 Hu|n0 e [Hu|[->| ->]]|e] Hb; try done; by destruct n0.
Qed.


(** The parts of an invariant that only the goroutine's own progress can decide. *)
Ltac inv_fin :=
  match goal with
  | |- stage _ _ _ _ => by constructor; eauto
  | |- (_ ∨ _) → taken _ = false → _ => by intros [|]
  | H : _ = true ∨ _ → ?rD = None |- _ ∨ _ → ?rD = None => intros [|]; solve [done|by apply H; auto]
  | Hs : is_Some ?c ∨ _ → _ |- is_Some ?c ∨ _ → _ => by intros ?%Hs
  | He : ∀ e, _ = VReturned e → _ |- ∀ e, _ = VReturned e → _ =>
      let e := fresh in let H1 := fresh in let H2 := fresh in
      intros e H1 H2; destruct (He e H1 H2); [by left|done]
  | |- ∃ _ _, _ => eexists _, _; split_and!; done
  end.
Ltac inv_auto := constructor; cbn; eauto; try done; try inv_fin.

Lemma stage_up n n' v h ts : up n = true → up n' = true → stage n v h ts → stage n' v h ts.
Proof.
  intros Hn Hn' H. destruct H as [n v [Hb| ->] _|n v h _ Hw Hh Hl|n e _|e]; try done; [by destruct n|by constructor|].
  constructor. by left.
Qed.

(** [geyser_run] returns. *)
Lemma returns_rinv g rc r : rinv g r → rn_native r = NRunning ∨ rn_native r = NBlocked → rinv g (run_returns rc r).
Proof.
  intros [Hp (G & ph & HG & Hph & Hok) Hst Hi Hc Hh Hgone Hbad Hfr Hrun Htear Herr Hsent Hearly Hcal Hnod Hask Hhy] Hn.
  destruct r as [p ctx iso at_ hel bad n v h cE rD tS tD hS hy sh]. cbn in *.
  assert (up n = true ∧ before n = false ∧ n ≠ NDone) as (Hu & Hb & Hd) by by destruct Hn as [->| ->].
  constructor; cbn; auto; try done.
  - exists G, ph. split_and!; [done..|]. by destruct Hn as [->| ->].
  - by eapply stage_up.
  - by destruct Hn as [->| ->].
  - intros Hs%Hsent. done.
  - intros e Hv Hhn. destruct (Hearly e Hv Hhn) as [|]; [by left|done].
  - by intros [|].
Qed.
Lemma exits_rinv g rc r r' : rinv g r → exits rc r = Some r' → rinv g r'.
Proof. unfold exits. intros Hr H. destruct (rn_native r) eqn:Hn; try done; injection H as <-; apply returns_rinv; auto. Qed.

Lemma native_rinv g att rc r r' : rinv g r → native_step g att rc r = Some r' → rinv g r'.
Proof.
  intros [Hp (G & ph & HG & Hph & Hok) Hst Hi Hc Hh Hgone Hbad Hfr Hrun Htear Herr Hsent Hearly Hcal Hnod Hask Hhy] H.
  unfold native_step in H. destruct r as [p ctx iso at_ hel bad n v h cE rD tS tD hS hy sh]. cbn in *.
  destruct n; cbn in *; try (destruct (stage_before _ _ _ _ Hst eq_refl) as (Hv & -> & ->)).
  - subst iso ph. destruct (negb _); injection H as <-; inv_auto.
  - subst iso ph. destruct ctx; injection H as <-; inv_auto.
  - subst iso ph. destruct (rc =? 0); injection H as <-; inv_auto.
  - subst iso ph. destruct ctx; injection H as <-; inv_auto.
  - subst iso. assert (start_section g rc (Run p ctx ILive at_ hel bad NStart v HNone cE rD false tD hS hy sh) = Some r' → rinv g r') as Hsec.
    { intros (p' & -> & Hp' & G' & q & HG' & Hq & Hsq & Hne)%start_section_rinv; [|done|by exists ph|done].
      inv_auto. cbn. intros Ha. congruence. }
    unfold phase_of in H. cbn in H. rewrite Hph in H. destruct ph; auto; injection H as <-; inv_auto.
  - subst iso ph. destruct ctx; injection H as <-; [|inv_auto].
    assert (pinv (set_phase g SStopGate p)) as Hp' by (apply (pstep_pinv p); [done|by constructor]).
    inv_auto; cbn.
    + exists G, SStopGate. by rewrite lookup_insert_eq.
    + by rewrite lookup_insert_eq.
  - subst iso. assert (∀ r'' e, stop_section g att rc (Run p ctx ILive at_ hel bad (NStop err) v HNone cE rD false tD hS hy sh)
      = Some (r'', e) → rinv g r'') as Hsec.
    { intros r'' e (p' & Hp' & (G' & q & HG' & Hq & Hsq) & Hr)%stop_section_rinv; [|done..].
      assert (q ≠ SActivate) as Hne by (by intros ->).
      assert (rinv g (set_p p' (Run p ctx ILive at_ hel bad (NStop err) v HNone cE rD false tD hS hy sh))) as Hi'.
      { inv_auto. cbn. intros Ha. congruence. }
      destruct Hr as [->| ->]; [done|].
      destruct (helper_call_live att (Run p ctx ILive at_ hel bad (NStop err) v HNone cE rD false tD hS hy sh) eq_refl)
        as [->| ->]; [done|].
      destruct Hi'. constructor; cbn in *; try done; lia. }
    unfold phase_of in H. cbn in H. rewrite Hph in H. 
    destruct ph; [..|injection H as <-; inv_auto]; 
      (destruct (stop_section _ _ _ _) as [[r'' e]|] eqn:Hss; [|done]; injection H as <-; by eapply Hsec).
  - subst iso. unfold tear_down in H. cbn in H. destruct (waits && _) eqn:Hw; [done|]. injection H as <-.
    inv_auto. intros Hwt _. rewrite Hwt in Hw. cbn in Hw. lia.
  - subst iso ph. destruct ctx; [|done]. injection H as <-.
    assert (pinv (set_phase g SStopGate p)) as Hp' by (apply (pstep_pinv p); [done|by constructor]).
    inv_auto; cbn.
    + exists G, SStopGate. by rewrite lookup_insert_eq.
    + by rewrite lookup_insert_eq.
  - injection H as <-. subst iso. inv_auto. by apply stage_up with NRun.
  - injection H as <-. subst iso. inv_auto. by apply stage_up with NRunning.
  - destruct sh; try done. injection H as <-. apply returns_rinv; [by constructor; eauto|by right].
  - destruct tS; [|done]. injection H as <-. subst iso.
    inversion Hst; subst. inv_auto.
  - unfold tear_down in H. cbn in H. destruct (waits && _) eqn:Hw; [done|]. injection H as <-. subst iso.
    inversion Hst; subst; [naive_solver|done|]. cbn in Hok. subst ph.
    inv_auto. intros Hwt _. rewrite Hwt in Hw. cbn in Hw. lia.
  - done.
Qed.

Lemma hand_off_rinv g r r' : rinv g r → hand_off r = Some r' → rinv g r'.
Proof.
  intros [Hp (G & ph & HG & Hph & Hok) Hst Hi Hc Hh Hgone Hbad Hfr Hrun Htear Herr Hsent Hearly Hcal Hnod Hask Hhy] H.
  unfold hand_off in H. destruct r as [p ctx iso at_ hel bad n v h cE rD tS tD hS hy sh]. cbn in *.
  destruct n; try done. destruct v; try done. injection H as <-.
  destruct (stage_before _ _ _ _ Hst eq_refl) as (_ & -> & ->). cbn in *. subst. inv_auto.
  by intros [|].
Qed.

(** While the health is polled. *)
Lemma stage_polling n v h ts :
  stage n v h ts → h ≠ HNone → h ≠ HDone →
  up n = true ∧ (∀ h', h' ≠ HNone → stage n v h' ts) ∧ ¬ (∃ e, v = VReturned e).
Proof.
  intros [n0 v0 _ _|n0 v0 h0 Hu Hw Hn Hl|n0 e _|e] H1 H2; try done. split_and!; [done| |by intros [e ->]].
  intros h' Hh'. constructor; [done..|]. intros Hlate. by apply Hl in Hlate.
Qed.
Lemma isolate_up n i : up n = true → isolate_ok n i → i = ILive.
Proof. by destruct n. Qed.

Lemma health_rinv g rc timer r r' : rinv g r → health_step rc timer r = Some r' → rinv g r'.
Proof.
  intros [Hp (G & ph & HG & Hph & Hok) Hst Hi Hc Hh Hgone Hbad Hfr Hrun Htear Herr Hsent Hearly Hcal Hnod Hask Hhy] H.
  unfold health_step in H. destruct r as [p ctx iso at_ hel bad n v h cE rD tS tD hS hy sh]. cbn in *.
  assert (h ≠ HNone ∧ h ≠ HDone) as [Hn1 Hn2] by (by split; intros ->).
  destruct (stage_polling _ _ _ _ Hst Hn1 Hn2) as (Hu & Hst' & Hret).
  pose proof (isolate_up n iso Hu Hi) as ->.
  assert (∀ h' at' hy', h' ≠ HNone → at' = hel + health_threads h' + super_threads v →
    rinv g (Run p ctx ILive at' hel bad n v h' cE rD tS tD hS hy' sh)) as Hset.
  { intros h' at' hy' Hn' Hat. constructor; cbn; auto; try done.
    - exists G, ph. done.
    - by intros [?|?]. }
  destruct h; try done; cbn in *.
  - destruct (negb _); injection H as <-; apply Hset; cbn; done || lia.
  - injection H as <-. destruct (health_cancelled _); apply Hset; cbn; done || lia.
  - destruct (rc =? 1); injection H as <-; apply Hset; cbn; done || lia.
  - destruct (health_cancelled _); [injection H as <-; apply Hset; cbn; done || lia|].
    destruct timer; [|done]. injection H as <-. apply Hset; cbn; done || lia.
  - injection H as <-. apply Hset; cbn; done || lia.
Qed.


Lemma helper_rinv g r r' : rinv g r → helper_detach r = Some r' → rinv g r'.
Proof.
  intros [Hp (G & ph & HG & Hph & Hok) Hst Hi Hc Hh Hgone Hbad Hfr Hrun Htear Herr Hsent Hearly Hcal Hnod Hask Hhy] H.
  unfold helper_detach in H. destruct r as [p ctx iso at_ hel bad n v h cE rD tS tD hS hy sh]. cbn in *.
  destruct (Z.ltb_spec 0 hel) as [Hpos|]; [|done]. injection H as <-.
  assert (0 <= health_threads h ∧ 0 <= super_threads v) as [? ?] by (by destruct h, v; cbn; lia).
  unfold detach, native_call. cbn. destruct iso; cbn; constructor; cbn; auto; try done; try lia;
    try (exists G, ph; done); intros Hwt; exfalso; assert (at_ = 0) by (by apply Hgone); lia.
Qed.

Lemma stage_super n v v' h ts :
  stage n v h ts → working v = true → working v' = true → (late v' = true → late v = true ∨ h = HDone) →
  up n = true ∧ ts = false ∧ stage n v' h ts.
Proof.
  intros [n0 v0 _ Hv|n0 v0 h0 Hu Hw Hn Hl|n0 e _|e] H1 H2 Hl'; try done.
  - destruct Hv as [->|[e ->]]; done.
  - split_and!; [done..|]. constructor; [done..|]. intros Hlt. by destruct (Hl' Hlt) as [?%Hl|].
Qed.

Lemma stage_late n v h ts : stage n v h ts → late v = true → h = HDone.
Proof. intros [n0 v0 _ [->|[e ->]]|n0 v0 h0 _ _ _ Hl| |] Hv; auto; done. Qed.

(** A step of the supervisor between the hand-off and the tear down. *)
Lemma rinv_working g p' ph' at' hel' bad' hS' rD' v' sh' p ctx at_ hel bad n v h cE rD tS tD hS hy sh :
  rinv g (Run p ctx ILive at_ hel bad n v h cE rD tS tD hS hy sh) →
  working v = true → working v' = true → (late v' = true → late v = true ∨ h = HDone) →
  pinv p' → (∃ G, p_generations p' !! g = Some G) → p_supervisors p' !! g = Some ph' → phase_ok NRun v' ph' →
  at' = hel' + health_threads h + super_threads v' → hel ≤ hel' → (bad = false → bad' = false) →
  (rD' = rD ∧ (taken v' = false → taken v = false) ∨ taken v' = true) →
  (calling n = true → rD' = None ∧ taken v' = false) →
  (∀ e, v' = VRunDone e → sh' ≠ NotAsked) →
  rinv g (Run p' ctx ILive at' hel' bad' n v' h cE rD' tS tD hS' hy sh').
Proof.
  intros [Hp (G & ph & HG & Hph & Hok) Hst Hi Hc Hh Hgone Hbad Hfr Hrun Htear Herr Hsent Hearly Hcal Hnod Hask Hhy]
    Hw Hw' Hl Hp' [G' HG'] Hph' Hok' Hat Hhel Hb HrD Hcal' Hask'. cbn in *.
  destruct (stage_super _ _ v' _ _ Hst Hw Hw' Hl) as (Hu & -> & Hst').
  constructor; cbn; auto; try lia; try done.
  - exists G', ph'. split_and!; [done..|]. by destruct n.
  - intros Ha. rewrite Ha in Hph'. injection Hph' as <-. by destruct v'.
  - intros Hn Ht. destruct HrD as [[-> Hv]|Ht']; [auto|congruence].
  - intros _ ->. done.
  - intros e ->. done.
  - intros Hn. by apply Hcal'.
  - intros [Hbf|Hn]; [by destruct n|by apply Hcal'].
  - intros [->|[e ->]]; [|done]. apply Hhy. by left.
Qed.

Ltac work :=
  eapply rinv_working; eauto; cbn; try lia; try done; try (by left); try (by rewrite lookup_insert_eq; eauto); try done;
  try (match goal with H : _ = _ + health_threads _ + _ |- _ => cbn in H; lia end);
  try (match goal with
       | Hd : _ ∨ calling ?n = true → ?rD = None, Hc : calling ?n = true → _ = false |- calling ?n = true → _ =>
           let Hx := fresh in intros Hx; first [by specialize (Hd (or_intror Hx)) | by split; auto]
       end).

Lemma shut_of_asked rc r : shut_of rc r ≠ NotAsked.
Proof. unfold shut_of. destruct (negb _); [done|]. by destruct (rn_native r). Qed.

Lemma super_rinv g att rc c r r' : rinv g r → super_step g att rc c r = Some r' → rinv g r'.
Proof.
  intros Hr H. pose proof Hr as [Hp (G & ph & HG & Hph & Hok) Hst Hi Hc Hh _ _ _ _ _ _ Hsent Hearly Hcal Hnod Hask Hhy].
  unfold super_step in H. destruct r as [p ctx iso at_ hel bad n v h cE rD tS tD hS hy sh]. cbn in *.
  assert (working v = true → iso = ILive ∧ phase_ok NRun v ph) as Hlive.
  { intros Hw. destruct (stage_super _ _ v _ _ Hst Hw Hw) as (Hu & _ & _); [auto|].
    split; [by eapply isolate_up|by destruct n]. }
  destruct v; try (destruct (Hlive eq_refl) as [-> Hphv]); cbn in Hphv || idtac; try done.
  - destruct Hr. cbn in *. inversion Hst; subst; [|done]. destruct c; try done.
    + destruct cE as [err|]; [|done]. injection H as <-. pose proof (Hsent (or_introl (ex_intro _ err eq_refl))) as ->.
      inv_auto.
    + destruct ctx as [e|]; [|done]. injection H as <-. inv_auto.
      * intros e' [= <-] _. left. eauto.
      * destruct H0 as [| ->]; [by destruct n|done].
  - destruct c; try done.
    + destruct ctx as [e|]; [|done]. injection H as <-. work.
    + rewrite HG in H. cbn in H. destruct (recv_wake G) as [[err G']|] eqn:Hw; [|done]. injection H as <-.
      work. apply (pstep_pinv p); [done|]. by eapply p_woken.
    + destruct rD as [rc'|]; [|done]. injection H as <-. work.
  - rewrite HG in H. cbn in H. injection H as <-. subst ph. work.
    apply (pstep_pinv (set_generation g (closeGate G) p)); [|by constructor].
    apply (pinv_generation g G); try done. pose proof (pi_wake p Hp g G HG) as Hwk.
    unfold wake_ok in *. cbn. destruct (cg_fatalOnce G); naive_solver.
  - assert (∀ r'' e, stop_section g att rc (Run p ctx ILive at_ hel bad n (VStop reason exited) h cE rD tS tD hS hy sh)
      = Some (r'', e) → rinv g (set_super (VStop (or_reason reason e) exited) r'')) as Hsec.
    { intros r'' e (p' & Hp' & (G' & q & HG' & Hq & Hsq) & Hr')%stop_section_rinv; [|done..].
      destruct Hr' as [->| ->]; [work|].
      destruct (helper_call_live att (Run p ctx ILive at_ hel bad n (VStop reason exited) h cE rD tS tD hS hy sh) eq_refl)
        as [->| ->]; work. }
    unfold phase_of in H. cbn in H. rewrite Hph in H.
    destruct ph; [..|injection H as <-; work];
      (destruct (stop_section _ _ _ _) as [[r'' e]|] eqn:Hss; [|done]; cbn in H; injection H as <-; by eapply Hsec).
  - injection H as <-. work.
  - destruct h; try done. injection H as <-. destruct exited; work.
  - destruct (negb _); injection H as <-; work.
  - injection H as <-. work. intros e _. apply shut_of_asked.
  - destruct rD as [rc'|]; [|done]. injection H as <-. work.
  - destruct (stage_super _ _ (VTear reason) _ _ Hst eq_refl eq_refl) as (Hu & -> & Hst'); [auto|]. injection H as <-.
    assert (h = HDone) as -> by (by eapply stage_late).
    destruct Hr. cbn in *. inv_auto.
    + by intros ->.
    + by intros [|[? ?]].
  - destruct tD as [rc'|]; [|done]. injection H as <-.
    pose proof (Hsent (or_intror (ex_intro _ rc' eq_refl))) as ->.
    assert (h = HDone ∧ tS = true) as [-> ->] by (by inversion Hst; subst; naive_solver).
    destruct Hr. cbn in *. inv_auto.
    by intros _ _ [e He].
Qed.

Lemma others_rinv g p' r : rinv g r → others g (rn_p r) p' → rinv g (set_p p' r).
Proof.
  intros [Hp (G & ph & HG & Hph & Hok) Hst Hi Hc Hh Hgone Hbad Hfr Hrun Htear Herr Hsent Hearly Hcal Hnod Hask Hhy]
    (Hstep & Hsup & Hnew & _). cbn in *.
  pose proof (pstep_pinv _ _ Hp Hstep) as Hp'.
  destruct (generation_kept g p' Hp') as [G' HG']; [by rewrite Hsup, Hph|].
  constructor; cbn; auto.
  - exists G', ph. by rewrite Hsup.
  - rewrite Hsup. intros Ha t ph' Ht. destruct (Hnew Ha t ph' Ht) as [ph0 Ht0]. by eapply Hfr.
Qed.

(** A callback past the gate: the isolate is live. *)
Lemma callback_live g r t q :
  rinv g r → p_threads (rn_p r) !! t = Some (g, q) → past_gate q = true → rn_iso r = ILive.
Proof.
  intros [Hp (G & ph & HG & Hph & Hok) _ Hi _ _ _ _ Hfr _ _ _ _ _ _ _ _ _] Ht Hq.
  assert (ph ≠ SActivate) as H1 by (intros ->; by apply (Hfr Hph t q)).
  assert (ph ≠ SEnded) as H2.
  { intros ->. pose proof (pi_waited _ Hp g G SEnded HG Hph eq_refl) as Hz.
    rewrite (pi_count _ Hp g G HG) in Hz. by rewrite (inside_zero g _ t q Hz Ht) in Hq. }
  destruct (rn_native r); try done; cbn in Hok; by destruct ph.
Qed.

Lemma assign_rinv g att p' r :
  rinv g r → others g (rn_p r) p' → assigns g (rn_p r) p' → rinv g (helper_call att (set_p p' r)).
Proof.
  intros Hr Ho (t & a & calls & Ht & _). pose proof (others_rinv g p' r Hr Ho) as Hr'.
  pose proof (callback_live g r t (CBody (CAssign a)) Hr Ht eq_refl) as Hl.
  destruct (helper_call_live att (set_p p' r)) as [->| ->]; [done..|].
  destruct Hr'. constructor; cbn in *; try done; lia.
Qed.

Lemma rstep_rinv g r r' : rinv g r → rstep g r r' → rinv g r'.
Proof.
  intros Hr Hs. destruct Hs as [att rc r0 r1 H|r0 r1 H|att rc c r0 r1 H|rc timer r0 r1 H|r0 r1 H|rc r0 r1 H|e r0 _|p' r0 Ho _|att p' r0 Ho Ha].
  - by eapply native_rinv.
  - by eapply hand_off_rinv.
  - by eapply super_rinv.
  - by eapply health_rinv.
  - by eapply helper_rinv.
  - by eapply exits_rinv.
  - by destruct Hr.
  - by apply others_rinv.
  - by apply assign_rinv.
Qed.

Lemma rreach_rinv g i r : rreach g i r → rinv g r.
Proof.
  induction 1 as [p Hp HG Hph|r r' _ IH Hs]; [|by eapply rstep_rinv].
  pose proof (preach_pinv p Hp) as Hi. constructor; cbn; try done.
  - by apply pinv_new.
  - eexists _, SActivate. rewrite !lookup_insert_eq. done.
  - constructor; auto.
  - intros _ t ph Ht. destruct (pi_threads p Hi t g ph Ht) as [[? ?] _]. congruence.
  - by intros [|].
  - by intros [[? ?]|[? ?]].
Qed.
End runner.
