(* ===== verification/EmbeddedRunProps.v ===== *)
(** * What an embedded run guarantees

    The isolate is never used outside of its life, what a run leaves when it returns, and
    that a cancelled run ends. *)
From S2P Require Import Prelude GoInt Abi Protobuf Supervisor Broker BrokerSys Session SessionSpec Callback CallbackSys EmbeddedRun EmbeddedRunInv.

Section props.
Context {A : IngressAbi} (waits : bool).

(** ** Ends *)

(** How much is left of the phases of a generation, once it is stopped or fails to start. *)
Definition phase_rank (ph : sphase) : Z :=
  match ph with
  | SActivate => 12 | SSwap => 11 | SRegister => 10 | SRunning => 9
  | SAbortGate _ => 8 | SAbortDrain _ => 7 | SAbortDeactivate _ => 6
  | SStopGate => 5 | SStopDeactivate => 4 | SUnregister => 3 | SStopDrain => 2 | SClear => 1 | SEnded => 0
  end.
Definition native_rank (n : nphase) : Z :=
  match n with
  | NCreate => 15 | NCheck1 => 14 | NInit => 13 | NCheck2 => 12 | NStart => 11 | NCheck3 => 10 | NHandOff => 9
  | NStop _ => 8 | NRun => 7 | NRunning => 6 | NBlocked => 5 | NWaitTear => 4 | NTearFinal => 3 | NTear _ => 1 | NDone => 0
  end.
Definition super_rank (v : vphase) : Z :=
  match v with
  | VSelect => 12 | VWait => 11 | VGate _ _ => 10 | VStop _ _ => 9 | VCancelHealth _ _ => 8 | VHealthWait _ _ => 7
  | VAttach _ => 6 | VShutdown _ => 5 | VRunDone _ => 3 | VTear _ => 2 | VTearDone _ => 1 | VReturned _ => 0
  end.
Definition health_rank (h : hphase) : Z :=
  match h with HNone => 0 | HAttach => 5 | HCheck => 4 | HStatus => 3 | HSleep => 2 | HDetach => 1 | HDone => 0 end.

Definition left_of (g : Z) (r : runner) : Z :=
  2 * phase_rank (default SEnded (phase_of g r)) + 6 * native_rank (rn_native r) + 2 * super_rank (rn_super r)
  + health_rank (rn_health r) + rn_helpers r.

(** A step of the run's own goroutines. Not among them is that Geyser ends by itself. *)
Inductive own_step (g : Z) : runner → runner → Prop :=
| o_native att rc r r' : native_step waits g att rc r = Some r' → own_step g r r'
| o_hand_off r r' : hand_off r = Some r' → own_step g r r'
| o_super att rc c r r' : super_step g att rc c r = Some r' → own_step g r r'
| o_health rc timer r r' : health_step rc timer r = Some r' → own_step g r r'
| o_helper r r' : helper_detach r = Some r' → own_step g r r'.

Lemma own_rstep g r r' : own_step g r r' → rstep waits g r r'.
Proof. intros []; by econstructor. Qed.

Lemma phase_rank_nonneg ph : 0 <= phase_rank ph.
Proof. by destruct ph. Qed.

Lemma start_rank rc G ph p p' :
  startIngressGeneration rc G ph p = Some p' →
  ∃ q, p_supervisors p' = <[cg_id G := q]> (p_supervisors p) ∧ phase_rank q < phase_rank ph.
Proof.
  unfold startIngressGeneration. destruct ph; try done; repeat case_match; try done; intros [= <-];
    eexists; cbn; rewrite ?clear_supervisors; by split.
Qed.
Lemma stop_rank G ph p p' :
  stopIngressGeneration G ph p = Some p' →
  ∃ q, p_supervisors p' = <[cg_id G := q]> (p_supervisors p) ∧ phase_rank q < phase_rank ph.
Proof.
  unfold stopIngressGeneration. destruct ph; try done; repeat case_match; try done; intros [= <-];
    eexists; cbn; rewrite ?clear_supervisors; by split.
Qed.

Lemma start_section_rank g rc r r' :
  pinv (rn_p r) → start_section g rc r = Some r' →
  rn_native r' = rn_native r ∧ rn_super r' = rn_super r ∧ rn_health r' = rn_health r ∧ rn_helpers r' = rn_helpers r
  ∧ phase_rank (default SEnded (phase_of g r')) < phase_rank (default SEnded (phase_of g r)).
Proof.
  intros Hp H. unfold start_section in H.
  destruct (p_generations (rn_p r) !! g) as [G|] eqn:HG; [|done]. cbn in H.
  destruct (phase_of g r) as [ph|] eqn:Hph; [|done]. cbn in H.
  destruct (startIngressGeneration rc G ph (rn_p r)) as [p'|] eqn:Hst; [|done]. cbn in H. injection H as <-.
  destruct (start_rank _ _ _ _ _ Hst) as (q & Hq & Hlt). rewrite (pi_ids _ Hp g G HG) in Hq.
  assert (p_supervisors p' !! g = Some q) as Hgq by (by rewrite Hq, lookup_insert_eq).
  unfold phase_of. destruct ph; try (cbn; rewrite Hgq; done).
  unfold native_call. destruct (rn_iso r); cbn; rewrite Hgq; done.
Qed.

Lemma helper_call_rank att r :
  rn_native (helper_call att r) = rn_native r ∧ rn_super (helper_call att r) = rn_super r
  ∧ rn_health (helper_call att r) = rn_health r ∧ rn_p (helper_call att r) = rn_p r
  ∧ rn_helpers (helper_call att r) <= rn_helpers r + 1.
Proof.
  unfold helper_call, attach, native_call. destruct (rn_iso r) eqn:Hi, (negb _); cbn; rewrite ?Hi; cbn;
    split_and!; done || lia.
Qed.

Lemma stop_section_rank g att rc r r' err :
  pinv (rn_p r) → stop_section g att rc r = Some (r', err) →
  rn_native r' = rn_native r ∧ rn_super r' = rn_super r ∧ rn_health r' = rn_health r
  ∧ 2 * phase_rank (default SEnded (phase_of g r')) + rn_helpers r'
    < 2 * phase_rank (default SEnded (phase_of g r)) + rn_helpers r.
Proof.
  intros Hp H. unfold stop_section in H.
  destruct (p_generations (rn_p r) !! g) as [G|] eqn:HG; [|done]. cbn in H.
  destruct (phase_of g r) as [ph|] eqn:Hph; [|done]. cbn in H.
  destruct (stopIngressGeneration G ph (rn_p r)) as [p'|] eqn:Hst; [|done]. cbn in H. injection H as H.
  destruct (stop_rank _ _ _ _ Hst) as (q & Hq & Hlt). rewrite (pi_ids _ Hp g G HG) in Hq.
  assert (p_supervisors p' !! g = Some q) as Hgq by (by rewrite Hq, lookup_insert_eq).
  destruct (helper_call_rank att r) as (H1 & H2 & H3 & H4 & H5).
  unfold phase_of. destruct ph; injection H as <- _; cbn; rewrite Hgq; cbn in *; split_and!; done || lia.
Qed.

(** Branches that only move a goroutine: [H] is the step, [Hph] gives the phase. *)
Ltac ranks H Hph :=
  repeat (first [apply bind_Some in H as (? & ? & H) | match type of H with context [match ?x with _ => _ end] =>
    first [is_var x; destruct x | destruct x eqn:?]; try done end]);
  injection H as <-; unfold left_of, phase_of, native_call, attach, detach, create_isolate;
  repeat match goal with |- context [match ?x with INone => _ | ILive => _ | ITorn => _ end] => destruct x end;
  cbn; rewrite ?lookup_insert_eq, ?Hph; cbn; simplify_eq; cbn; lia.

Lemma native_step_rank g att rc r r' :
  rinv waits g r → native_step waits g att rc r = Some r' → left_of g r' < left_of g r.
Proof.
  intros [Hp (G & ph & HG & Hph & Hok) _ _ _ _ _ _ _ _ _ _ _ _ _ _ _ _] H.
  destruct r as [p ctx iso at_ hel bad n v h cE rD tS tD hS hy sh]; cbn in *.
  unfold native_step in H. cbn in H. destruct n; cbn in Hok; try (by ranks H Hph).
  - destruct (phase_of g _) as [ph0|] eqn:Hph0 in H; [|unfold phase_of in Hph0; cbn in Hph0; congruence].
    assert (start_section g rc (Run p ctx iso at_ hel bad NStart v h cE rD tS tD hS hy sh) = Some r' →
      left_of g r' < left_of g (Run p ctx iso at_ hel bad NStart v h cE rD tS tD hS hy sh)) as Hsec.
    { intros (H1 & H2 & H3 & H4 & H5)%start_section_rank; [|done]. unfold left_of. rewrite H1, H2, H3, H4. lia. }
    destruct ph0; auto; injection H as <-; unfold left_of, phase_of; cbn; lia.
  - destruct (phase_of g _) as [ph0|] eqn:Hph0 in H; [|unfold phase_of in Hph0; cbn in Hph0; congruence].
    assert (fst <$> stop_section g att rc (Run p ctx iso at_ hel bad (NStop err) v h cE rD tS tD hS hy sh) = Some r' →
      left_of g r' < left_of g (Run p ctx iso at_ hel bad (NStop err) v h cE rD tS tD hS hy sh)) as Hsec.
    { destruct (stop_section _ _ _ _) as [[r'' e]|] eqn:Hss; [|done]. cbn. intros [= <-].
      apply stop_section_rank in Hss as (H1 & H2 & H3 & H4); [|done]. unfold left_of. rewrite H1, H2, H3. lia. }
    destruct ph0; auto; injection H as <-; unfold left_of, phase_of; cbn; lia.
  - unfold tear_down in H. destruct (waits && _); [done|]. cbn in H. by ranks H Hph.
  - unfold tear_down in H. destruct (waits && _); [done|]. cbn in H. by ranks H Hph.
  - done.
Qed.

Lemma super_step_rank g att rc c r r' :
  rinv waits g r → super_step g att rc c r = Some r' → left_of g r' < left_of g r.
Proof.
  intros [Hp (G & ph & HG & Hph & Hok) Hst _ _ _ _ _ _ _ _ _ Hsent _ _ _ _ _] H.
  destruct r as [p ctx iso at_ hel bad n v h cE rD tS tD hS hy sh]; cbn in *.
  assert (working v = true → phase_ok NRun v ph ∧ tS = false) as Hlive.
  { intros Hw. destruct (stage_super _ _ v _ _ Hst Hw Hw) as (Hu & Hts & _); [auto|].
    split; [by destruct n|done]. }
  unfold super_step in H. cbn in H. destruct v; try (destruct (Hlive eq_refl) as [Hv Hts]); cbn in Hv || idtac; try (by ranks H Hph).
  - assert (∀ r'' e, stop_section g att rc (Run p ctx iso at_ hel bad n (VStop reason exited) h cE rD tS tD hS hy sh) = Some (r'', e) →
      left_of g (set_super (VStop (or_reason reason e) exited) r'')
      < left_of g (Run p ctx iso at_ hel bad n (VStop reason exited) h cE rD tS tD hS hy sh)) as Hsec.
    { intros r'' e (H1 & H2 & H3 & H4)%stop_section_rank; [|done]. unfold left_of.
      change (phase_of g (set_super ?v r'')) with (phase_of g r''). cbn in *. rewrite H1, H3. lia. }
    unfold phase_of in H. cbn in H. rewrite Hph in H.
    destruct ph; [..|injection H as <-; unfold left_of, phase_of; cbn; lia];
      (destruct (stop_section _ _ _ _) as [[r'' e]|] eqn:Hss; [|done]; cbn in H; injection H as <-; by eapply Hsec).
  - destruct iso, (negb _); injection H as <-; unfold left_of, phase_of; cbn; rewrite Hph; cbn; lia.
  - done.
Qed.

Lemma health_step_rank g rc timer r r' :
  rn_ctx r ≠ None → health_step rc timer r = Some r' → left_of g r' < left_of g r.
Proof.
  intros Hctx H. destruct r as [p ctx iso at_ hel bad n v h cE rD tS tD hS hy sh]; cbn in *.
  assert (∀ hy' hS' tD' tS' rD' cE', health_cancelled (Run p ctx iso at_ hel bad n v h cE' rD' tS' tD' hS' hy' sh) = true) as Hcan.
  { intros. unfold health_cancelled. cbn. destruct ctx; [apply orb_true_r|done]. }
  unfold health_step in H. cbn in H. rewrite Hcan in H.
  destruct h, iso; try done; repeat (case_match; try done); injection H as <-; unfold left_of, phase_of; cbn; lia.
Qed.

(** Once the context is done, every step brings the run closer to its end. *)
Lemma own_step_rank g r r' :
  rinv waits g r → rn_ctx r ≠ None → own_step g r r' → left_of g r' < left_of g r.
Proof.
  intros Hr Hctx Hs. destruct Hs as [att rc r r' H|r r' H|att rc c r r' H|rc timer r r' H|r r' H].
  - by eapply native_step_rank.
  - destruct r as [p ctx iso at_ hel bad n v h cE rD tS tD hS hy sh]. unfold hand_off in H. cbn in H.
    destruct n; try done. destruct v; try done. injection H as <-.
    destruct (stage_before _ _ _ _ (ri_stage _ _ _ Hr) eq_refl) as (_ & Hh & _). cbn in Hh. subst h.
    unfold left_of, phase_of. cbn. lia.
  - by eapply super_step_rank.
  - by eapply health_step_rank.
  - unfold helper_detach in H. destruct (0 <? rn_helpers r) eqn:Hpos; [|done]. injection H as <-.
    unfold left_of, phase_of, detach, native_call. destruct (rn_iso r); cbn; lia.
Qed.

(** A goroutine that cannot move waits for a callback of the generation. *)
Definition callback_inside (g : Z) (r : runner) : Prop :=
  ∃ t q, p_threads (rn_p r) !! t = Some (g, q) ∧ past_gate q = true.

Lemma not_drained g G (r : runner) :
  pinv (rn_p r) → p_generations (rn_p r) !! g = Some G → drained G = false → callback_inside g r.
Proof.
  intros Hp HG Hd. unfold drained in Hd. rewrite (pi_count _ Hp g G HG) in Hd. unfold inside in Hd.
  destruct (map_choose (filter (is_inside g) (p_threads (rn_p r)))) as (t & [g' q] & Ht).
  { intros He. rewrite He in Hd. done. }
  apply map_lookup_filter_Some in Ht as [Ht [Hg Hq]]. cbn in Hg, Hq. subst g'. by exists t, q.
Qed.

Lemma start_section_enabled g ph (r : runner) :
  pinv (rn_p r) → is_Some (p_generations (rn_p r) !! g) → phase_of g r = Some ph → starting ph = true →
  ph = SRunning ∨ ph = SEnded ∨ is_Some (start_section g 0 r) ∨ callback_inside g r.
Proof.
  intros Hp [G HG] Hph Hs. unfold start_section. rewrite HG, Hph. cbn.
  destruct ph; try done; auto; cbn; try (right; right; left; by repeat case_match); auto.
  destruct (drained G) eqn:Hd; cbn; [by eauto|]. right; right; right. by eapply not_drained.
Qed.
Lemma stop_section_enabled g ph (r : runner) :
  pinv (rn_p r) → is_Some (p_generations (rn_p r) !! g) → phase_of g r = Some ph → stopping ph = true →
  ph = SEnded ∨ is_Some (stop_section g 0 0 r) ∨ callback_inside g r.
Proof.
  intros Hp [G HG] Hph Hs. unfold stop_section. rewrite HG, Hph. cbn.
  destruct ph; try done; auto; cbn; try (right; left; by repeat case_match).
  destruct (drained G) eqn:Hd; cbn; [by eauto|]. right; right. by eapply not_drained.
Qed.

(** Nothing is left to do, for each of the goroutines; or a callback is waited for. *)
Definition idle (g : Z) (r : runner) : Prop := ∀ r', ¬ own_step g r r'.

Lemma idle_health g r : rn_ctx r ≠ None → idle g r → rn_health r = HNone ∨ rn_health r = HDone.
Proof.
  intros Hctx Hi. destruct (rn_ctx r) as [e|] eqn:He; [|done].
  assert (health_step 0 true r = None) as H.
  { destruct (health_step 0 true r) eqn:H; [|done]. by destruct (Hi _ (o_health _ _ _ _ _ H)). }
  revert H. unfold health_step. destruct (rn_health r); auto; cbn; repeat case_match; done.
Qed.
Lemma idle_helpers g r : rinv waits g r → idle g r → rn_helpers r = 0.
Proof.
  intros Hr Hi. pose proof (ri_helpers _ _ _ Hr) as Hpos.
  destruct (helper_detach r) eqn:H; [by destruct (Hi _ (o_helper _ _ _ H))|].
  unfold helper_detach in H. destruct (0 <? rn_helpers r) eqn:?; [done|lia].
Qed.

(** What the goroutine of the isolate waits for. *)
Lemma idle_native g r :
  rinv waits g r → rn_ctx r ≠ None → idle g r →
  rn_native r = NDone ∨ (rn_native r = NBlocked ∧ rn_shut r ≠ Told) ∨ (rn_native r = NWaitTear ∧ rn_tearStart r = false)
  ∨ ((∃ e, rn_native r = NTear e) ∨ rn_native r = NTearFinal) ∧ rn_attached r ≠ 0
  ∨ callback_inside g r.
Proof.
  intros [Hp (G & ph & HG & Hph & Hok) _ _ _ _ _ _ _ _ _ _ _ _ _ _ _ _] Hctx Hi.
  assert (native_step waits g 0 0 r = None) as H.
  { destruct (native_step waits g 0 0 r) eqn:H; [|done]. by destruct (Hi _ (o_native _ _ _ _ _ H)). }
  assert (is_Some (p_generations (rn_p r) !! g)) as HG' by by rewrite HG.
  assert (ctx_done r ≠ None) as Hc by done. unfold native_step in H.
  destruct (rn_native r) eqn:Hn; cbn in Hok; auto; cbn in H; try (by destruct (ctx_done r)); try done.
  - destruct (start_section_enabled g ph r Hp HG' Hph Hok) as [->|[->|[[r' Hr']|?]]]; auto;
      unfold phase_of in H; rewrite Hph in H; try done. rewrite Hr' in H. by destruct ph.
  - destruct (stop_section_enabled g ph r Hp HG' Hph Hok) as [->|[[r' Hr']|?]]; auto;
      unfold phase_of in H; rewrite Hph in H; try done. rewrite Hr' in H. by destruct ph.
  - unfold tear_down in H. destruct (waits && _) eqn:Hw; [|done].
    right; right; right; left. split; [eauto|]. destruct waits; [|done]. cbn in Hw. lia.
  - right; left. split; [done|]. by destruct (rn_shut r).
  - destruct (rn_tearStart r); [done|]. auto.
  - unfold tear_down in H. destruct (waits && _) eqn:Hw; [|done].
    right; right; right; left. split; [auto|]. destruct waits; [|done]. cbn in Hw. lia.
Qed.

(** What the runner waits for. *)
Lemma idle_super g r :
  rinv waits g r → rn_ctx r ≠ None → idle g r →
  (∃ e, rn_super r = VReturned e) ∨ (∃ e x, rn_super r = VHealthWait e x ∧ rn_health r ≠ HDone)
  ∨ (∃ e, rn_super r = VRunDone e ∧ rn_runDone r = None) ∨ (∃ e, rn_super r = VTearDone e ∧ rn_tearDone r = None)
  ∨ callback_inside g r.
Proof.
  intros [Hp (G & ph & HG & Hph & Hok) Hst _ _ _ _ _ _ _ _ _ _ _ _ _ _ _] Hctx Hi.
  assert (super_step g 0 0 PickCtx r = None) as H.
  { destruct (super_step g 0 0 PickCtx r) eqn:H; [|done]. by destruct (Hi _ (o_super _ _ _ _ _ _ H)). }
  assert (is_Some (p_generations (rn_p r) !! g)) as HG' by by rewrite HG.
  unfold ctx_done in H. unfold super_step in H. destruct (rn_super r) eqn:Hv; eauto; cbn in H;
    try (unfold ctx_done in H; by destruct (rn_ctx r)); try (by rewrite HG in H).
  - assert (stopping ph = true) as Hs.
    { destruct (stage_super _ _ (VStop reason exited) _ _ Hst eq_refl eq_refl) as (Hu & _); [auto|].
      by destruct (rn_native r). }
    destruct (stop_section_enabled g ph r Hp HG' Hph Hs) as [->|[[[r' e] Hr']|?]]; auto 10;
      unfold phase_of in H; rewrite Hph in H; try done. rewrite Hr' in H. by destruct ph.
  - right; left. exists reason, exited. split; [done|]. intros Hh. by rewrite Hh in H.
  - destruct (rn_runDone r) eqn:?; [done|]. eauto 10.
  - by destruct (rn_tearStart r).
  - destruct (rn_tearDone r) eqn:?; [done|]. eauto 10.
Qed.

Lemma stage_working n v h ts : stage n v h ts → working v = true → up n = true ∧ h ≠ HNone ∧ ts = false.
Proof. intros [n0 v0 _ [->|[e ->]]|n0 v0 h0 Hu Hw Hh _|n0 e _|e]; done. Qed.
Lemma stage_returned n e h ts : stage n (VReturned e) h ts → up n = false.
Proof. inversion 1 as [n0 v0 [Hb| ->] _| | |]; subst; [by destruct n|done..]. Qed.
Lemma stage_tearDone n e h ts : stage n (VTearDone e) h ts → ts = true.
Proof. inversion 1 as [n0 v0 _ [|[? ?]]| | |]; done. Qed.

(** [run] waits for [geyser_run], which nobody has told to return: the request to shut down
    was refused, or counted down a latch that was not yet the one it waits for. *)
Definition unheard (r : runner) : Prop :=
  (∃ e, rn_super r = VRunDone e) ∧ rn_native r = NBlocked ∧ (rn_shut r = Refused ∨ rn_shut r = Early).

(** All of them together. *)
Lemma idle_ended g r :
  rinv waits g r → rn_ctx r ≠ None → idle g r →
  ((∃ e, rn_super r = VReturned e) ∧ rn_native r = NDone ∧ (rn_health r = HNone ∨ rn_health r = HDone)
   ∧ rn_helpers r = 0) ∨ callback_inside g r ∨ unheard r.
Proof.
  intros Hr Hctx Hi. pose proof (idle_health g r Hctx Hi) as Hh. pose proof (idle_helpers g r Hr Hi) as Hz.
  pose proof (ri_count _ _ _ Hr) as Hc. pose proof (ri_stage _ _ _ Hr) as Hst.
  pose proof (ri_run _ _ _ Hr) as Hrun. pose proof (ri_tear _ _ _ Hr) as Htear.
  assert (super_threads (rn_super r) = 0 → rn_attached r = 0) as Hatt.
  { destruct Hh as [Hh|Hh]; rewrite Hh in Hc; cbn in Hc; lia. }
  destruct (idle_super g r Hr Hctx Hi) as [[e Hs]|[(e & x & Hs & Hne)|[(e & Hs & Hd)|[(e & Hs & Hd)|]]]]; auto;
    (destruct (idle_native g r Hr Hctx Hi) as [Hn|[[Hn Ht]|[[Hn Ht]|[[_ Hna]|]]]]; [..|by auto]);
    rewrite Hs in *; try (by destruct Hna; apply Hatt); rewrite Hn in Hst.
  - left. by eauto.
  - by apply stage_returned in Hst.
  - by apply stage_returned in Hst.
  - by apply stage_working in Hst as [? _].
  - apply stage_working in Hst as (_ & ? & _); [|done]. by destruct Hh.
  - apply stage_working in Hst as (_ & ? & _); [|done]. by destruct Hh.
  - by apply stage_working in Hst as [? _].
  - right; right. split_and!; [by exists e|done|]. pose proof (ri_asked _ _ _ Hr e Hs). destruct (rn_shut r); auto; done.
  - destruct Hrun; [by left|done|congruence].
  - apply stage_tearDone in Hst. destruct Htear; [done..|by exists e|congruence].
  - pose proof (ri_calling _ _ _ Hr) as Hcal. rewrite Hn, Hs in Hcal. by specialize (Hcal eq_refl).
  - apply stage_tearDone in Hst. congruence.
Qed.

(** The rest of the process does not undo the progress; an [assign] adds a thread that is
    to detach. *)
Lemma others_left g p' r : others g (rn_p r) p' → left_of g (set_p p' r) = left_of g r.
Proof. intros (_ & Hs & _). unfold left_of, phase_of. cbn. by rewrite Hs. Qed.
Lemma assign_left g att p' r : others g (rn_p r) p' → left_of g (helper_call att (set_p p' r)) <= left_of g r + 1.
Proof.
  intros Ho. pose proof (others_left g p' r Ho) as Hl. destruct (helper_call_rank att (set_p p' r)) as (H1 & H2 & H3 & H4 & H5).
  unfold left_of, phase_of in *. rewrite H1, H2, H3, H4. lia.
Qed.
Lemma exits_left g rc r r' : exits rc r = Some r' → left_of g r' < left_of g r.
Proof.
  unfold exits, left_of, phase_of. destruct (rn_native r) eqn:Hn; try done; intros [= <-]; cbn; lia.
Qed.
Lemma left_of_nonneg g r : rinv waits g r → 0 <= left_of g r.
Proof.
  intros Hr. pose proof (ri_helpers _ _ _ Hr). pose proof (phase_rank_nonneg (default SEnded (phase_of g r))).
  unfold left_of. assert (0 <= native_rank (rn_native r)) by by destruct (rn_native r).
  assert (0 <= super_rank (rn_super r)) by by destruct (rn_super r).
  assert (0 <= health_rank (rn_health r)) by by destruct (rn_health r). lia.
Qed.

(** Any step of the process. *)
Lemma rstep_left g r r' :
  rinv waits g r → rn_ctx r ≠ None → rstep waits g r r' →
  left_of g r' <= left_of g r
  ∨ ∃ att p', assigns g (rn_p r) p' ∧ r' = helper_call att (set_p p' r) ∧ left_of g r' <= left_of g r + 1.
Proof.
  intros Hr Hctx Hs. assert (own_step g r r' → left_of g r' <= left_of g r) as Hown.
  { intros Ho. pose proof (own_step_rank g r r' Hr Hctx Ho). lia. }
  destruct Hs as [att rc r r' H|r r' H|att rc c r r' H|rc timer r r' H|r r' H|rc r r' H|c r H|p' r H H2|att p' r H H2];
    [left; apply Hown; by econstructor..| | | |].
  - left. apply exits_left with (g := g) in H. lia.
  - done.
  - left. by rewrite others_left.
  - right. exists att, p'. split_and!; [done..|by apply assign_left].
Qed.

(** The context stays done, and [run] returned. *)
Definition kept (r r' : runner) : Prop :=
  rn_ctx r' = rn_ctx r ∧ ∀ e, rn_super r = VReturned e → rn_super r' = VReturned e.
Lemma start_section_kept g rc r r' : start_section g rc r = Some r' → kept r r'.
Proof.
  unfold start_section, native_call. destruct (_ !! g); [|done]. cbn. destruct (phase_of g r) as [ph|]; [|done]. cbn.
  destruct (startIngressGeneration _ _ _ _); [|done]. cbn. intros [= <-]. by destruct ph, (rn_iso r).
Qed.
Lemma helper_call_kept att r : kept r (helper_call att r).
Proof. unfold kept, helper_call, attach, native_call. by destruct (rn_iso r) eqn:Hi, (negb _); cbn; rewrite ?Hi. Qed.
Lemma stop_section_kept g att rc r r' e : stop_section g att rc r = Some (r', e) → kept r r'.
Proof.
  unfold stop_section. destruct (_ !! g); [|done]. cbn. destruct (phase_of g r) as [ph|]; [|done]. cbn.
  destruct (stopIngressGeneration _ _ _); [|done]. cbn. intros [= H].
  destruct ph; injection H as <- _; try done. by apply helper_call_kept.
Qed.
Ltac is_kept H :=
  repeat (first [apply bind_Some in H as (? & ? & H) | match type of H with context [match ?x with _ => _ end] =>
    first [is_var x; destruct x | destruct x eqn:?]; try done end]);
  try (injection H as <-; unfold attach, detach, create_isolate, native_call;
       repeat match goal with |- context [match ?x with INone => _ | ILive => _ | ITorn => _ end] => destruct x end;
       by split; cbn).
Lemma own_step_kept g r r' : own_step g r r' → kept r r'.
Proof.
  intros Hs. destruct Hs as [att rc r r' H|r r' H|att rc c r r' H|rc timer r r' H|r r' H];
    destruct r as [p ctx iso at_ hel bad n v h cE rD tS tD hS hy sh].
  - unfold native_step, tear_down in H. cbn in H.
    assert (∀ o : option (runner * option runErr), fst <$> o = Some r' → ∃ e, o = Some (r', e)) as Hf.
    { intros [[]|]; cbn; intros [= <-]. eauto. }
    destruct n; try (by is_kept H); try (destruct (waits && _); [done|cbn in H; by is_kept H]); (destruct (phase_of g _) as [[]|]; try (by injection H as <-; split);
      first [by apply start_section_kept in H|apply Hf in H as [e H]; by apply stop_section_kept in H]).
  - unfold hand_off in H. cbn in H. by is_kept H.
  - unfold super_step in H. cbn in H. destruct v; try by is_kept H.
    destruct (phase_of g _) as [[]|]; try (by injection H as <-; split);
      apply bind_Some in H as ([r'' e] & H & [= <-]); apply stop_section_kept in H as [H _]; by split.
  - unfold health_step in H. cbn in H. destruct h; by is_kept H.
  - unfold helper_detach in H. by is_kept H.
Qed.
Lemma own_step_ctx g r r' : own_step g r r' → rn_ctx r' = rn_ctx r.
Proof. intros Hs. by apply own_step_kept in Hs as [? _]. Qed.
Lemma returned_stays g r r' e : rstep waits g r r' → rn_super r = VReturned e → rn_super r' = VReturned e.
Proof.
  intros Hs. destruct Hs as [att rc r r' H|r r' H|att rc c r r' H|rc timer r r' H|r r' H|rc r r' H|c r H|p' r H H2|att p' r H H2];
    try (apply own_step_kept with (g := g); by econstructor); try done.
  { unfold exits in H. destruct (rn_native r); try done; by injection H as <-. }
  apply (helper_call_kept att (set_p p' r)).
Qed.

(** ** The theorems *)

(** C11: An isolate is used only while it is live and torn down once: provided that
    [graal_tear_down_isolate] waits for attached threads, no native call of the runner, of
    the health poll or of an [assign] is made before the isolate is created or after it is
    torn down, it is created and torn down at most once and [tearDownStart] is closed at
    most once; without a live isolate no thread is attached and no callback of the
    generation is past the gate. *)
Theorem isolate_discipline g i r :
  rreach true g i r →
  rn_bad r = false
  ∧ (rn_iso r ≠ ILive →
       rn_attached r = 0 ∧ rn_helpers r = 0 ∧ (rn_health r = HNone ∨ rn_health r = HAttach ∨ rn_health r = HDone)
       ∧ ∀ t q, p_threads (rn_p r) !! t = Some (g, q) → past_gate q = false).
Proof.
  intros Hr%rreach_rinv. split; [by apply (ri_bad _ _ _ Hr)|]. intros Hi.
  pose proof (ri_gone _ _ _ Hr eq_refl Hi) as Hz. pose proof (ri_count _ _ _ Hr) as Hc.
  pose proof (ri_helpers _ _ _ Hr) as Hh.
  assert (0 <= super_threads (rn_super r)) by by destruct (rn_super r).
  assert (0 <= health_threads (rn_health r)) by by destruct (rn_health r).
  split_and!; [lia..| |].
  - destruct (rn_health r); auto; cbn in Hc; lia.
  - intros t q Ht. destruct (past_gate q) eqn:Hq; [|done]. destruct Hi. by eapply callback_live.
Qed.

(** C25: What [run] leaves when it returns: the server is not healthy; if it had been handed the
    isolate, that is torn down, the health poll has ended and the locked goroutine too; if
    not, either the error is the context's or the isolate is gone as well (or was never
    made). *)
Theorem run_returns_clean g i r e :
  rreach waits g i r → rn_super r = VReturned e →
  rn_healthy r = false
  ∧ (rn_health r ≠ HNone → rn_native r = NDone ∧ rn_health r = HDone ∧ rn_iso r ≠ ILive)
  ∧ (rn_health r = HNone → (∃ c, e = Some (RCtx c)) ∨ rn_native r = NDone ∧ rn_iso r ≠ ILive).
Proof.
  intros Hr%rreach_rinv Hv. pose proof (ri_stage _ _ _ Hr) as Hst. pose proof (ri_iso _ _ _ Hr) as Hi.
  split_and!.
  - apply (ri_healthy _ _ _ Hr). eauto.
  - intros Hh. rewrite Hv in Hst. inversion Hst as [|n v h Hu Hw| |e0 Hn]; subst; try congruence; [done|].
    symmetry in Hn. rewrite Hn in Hi. done.
  - intros Hh. destruct (ri_early _ _ _ Hr e Hv Hh) as [|Hn]; [by left|]. right. split; [done|].
    by rewrite Hn in Hi.
Qed.

(** C15: A cancelled run ends: every step of its goroutines brings it closer to the end, nothing
    else in the process takes it further away except an [assign] in flight, which adds at
    most one thread to detach; and when none of them can move, [run] has returned and they have
    all finished, unless a callback of the generation is still past the gate, or [run] waits for
    a [geyser_run] that was not told to return: attaching for [geyser_shutdown] or the call
    itself failed, or it came before [geyser_run] had replaced its latch. ([geyser_run] is taken
    to return once the latch it waits for is counted down, and may return by itself.) *)
Theorem run_terminates g i r :
  rreach waits g i r → rn_ctx r ≠ None →
  (∀ r', own_step g r r' → 0 <= left_of g r' < left_of g r ∧ rn_ctx r' ≠ None)
  ∧ (∀ r', rstep waits g r r' → left_of g r' <= left_of g r
       ∨ ∃ att p', assigns g (rn_p r) p' ∧ r' = helper_call att (set_p p' r) ∧ left_of g r' <= left_of g r + 1)
  ∧ ((∀ r', ¬ own_step g r r') →
       (∃ e, rn_super r = VReturned e) ∧ rn_native r = NDone ∧ (rn_health r = HNone ∨ rn_health r = HDone)
         ∧ rn_helpers r = 0
       ∨ callback_inside g r
       ∨ (∃ e, rn_super r = VRunDone e) ∧ rn_native r = NBlocked ∧ (rn_shut r = Refused ∨ rn_shut r = Early)).
Proof.
  intros Hr%rreach_rinv Hctx. split_and!.
  - intros r' Hs. split; [split|].
    + apply left_of_nonneg. eapply rstep_rinv; [done|]. by apply own_rstep.
    + by apply own_step_rank.
    + by rewrite (own_step_ctx g r r').
  - intros r' Hs. by apply rstep_left.
  - by apply idle_ended.
Qed.

(** ** Runs step by step *)

(** A schedule of the goroutines, and of the context. *)
Inductive act :=
| ANative (att rc : Z) | AHandOff | ASuper (att rc : Z) (c : pick) | AHealth (rc : Z) (timer : bool) | AHelper
| ACancel (e : ctxError).
Definition act_step (g : Z) (a : act) (r : runner) : option runner :=
  match a with
  | ANative att rc => native_step waits g att rc r
  | AHandOff => hand_off r
  | ASuper att rc c => super_step g att rc c r
  | AHealth rc timer => health_step rc timer r
  | AHelper => helper_detach r
  | ACancel e => match rn_ctx r with None => Some (set_ctx (Some e) r) | Some _ => None end
  end.
Definition play (g : Z) (acts : list act) (r : runner) : option runner :=
  foldl (λ o a, o ≫= act_step g a) (Some r) acts.

Lemma act_rstep g a r r' : act_step g a r = Some r' → rstep waits g r r'.
Proof.
  destruct a; cbn; intros H; try by econstructor.
  destruct (rn_ctx r) eqn:Hc; [done|]. injection H as <-. by constructor.
Qed.
Lemma play_none g acts : foldl (λ o a, o ≫= act_step g a) None acts = None.
Proof. by induction acts. Qed.
Lemma play_reach g i acts r r' : rreach waits g i r → play g acts r = Some r' → rreach waits g i r'.
Proof.
  unfold play. revert r. induction acts as [|a acts IH]; intros r Hr H; [by injection H as <-|].
  cbn in H. destruct (act_step g a r) as [r1|] eqn:Ha; [|by rewrite play_none in H].
  apply (IH r1); [|done]. eapply rreach_step; [done|]. by eapply act_rstep.
Qed.
End props.

(** ** A run that is cancelled while Geyser is up, one cancelled before the hand-off, and
    what goes wrong when the tear down does not wait *)
Module edemo.
Definition start : runner := run_start cdemo.p1.
Lemma start_reach waits : rreach waits 9 1 start.
Proof.
  apply rreach_start; [|done..]. apply preach_start. by intros i b [_ <-]%lookup_singleton_Some.
Qed.

Definition go_native (n : nat) : list act := replicate n (ANative 0 0).
Definition go_super (c : pick) (n : nat) : list act := replicate n (ASuper 0 0 c).
(** Created, initialised, registered, handed over, running, and up. *)
Definition until_up : list act :=
  go_native 9 ++ [AHandOff; ANative 0 0; ANative 0 0; AHealth 0 false; AHealth 0 false; AHealth 1 false].
Definition until_cancelled : list act := until_up ++ [ACancel Canceled].
(** From the cancellation to the return; the helpers detach before the tear down. *)
Definition ending : list act :=
  go_super PickCtx 8 ++ [AHealth 0 false] ++ go_super PickCtx 4 ++ [AHelper; AHelper; ANative 0 0]
  ++ go_super PickCtx 2 ++ go_native 2 ++ go_super PickCtx 1.
(** The context is done while Geyser is being initialised: [run] returns, which removes its
    directory and changes back, and the isolate lives on until its goroutine looks. *)
Definition early : list act := go_native 2 ++ [ACancel Canceled; ASuper 0 0 PickCtx].
(** As [ending], with no helper detached before the tear down. *)
Definition eager : list act :=
  go_super PickCtx 8 ++ [AHealth 0 false] ++ go_super PickCtx 4 ++ [ANative 0 0]
  ++ go_super PickCtx 2 ++ go_native 2.

Definition at_end (waits : bool) (acts : list act) : runner := default start (play waits 9 acts start).
Lemma at_end_reach waits acts :
  is_Some (play waits 9 acts start) → rreach waits 9 1 (at_end waits acts).
Proof.
  intros [r Hr]. apply (play_reach waits 9 1 acts start); [apply start_reach|]. unfold at_end. by rewrite Hr.
Qed.

(** The context is done once the isolate is handed over: the shutdown finds the latch that
    [geyser_run] then replaces, and nothing can move, though [geyser_shutdown] returned 0. *)
Definition lost : list act :=
  go_native 9 ++ [AHandOff; ACancel Canceled; AHealth 0 false; AHealth 0 false; AHealth 0 false] ++ go_super PickCtx 12
  ++ [AHelper; AHelper] ++ go_native 2.
Definition stuck : runner := at_end true lost.
Example shutdown_lost :
  is_Some (play true 9 lost start) ∧ unheard stuck ∧ rn_shut stuck = Early
  ∧ ∀ a, act_step true 9 a stuck = None.
Proof.
  split; [vm_compute; eauto|]. split; [split; [vm_compute; eauto|split; [by vm_compute|right; by vm_compute]]|].
  split; [by vm_compute|]. intros [| |? ? []| | |e]; by vm_compute.
Qed.
Example returns_early :
  (rn_super (at_end true early), rn_iso (at_end true early), rn_native (at_end true early))
  = (VReturned (Some (RCtx Canceled)), ILive, NInit).
Proof. vm_compute. reflexivity. Qed.
(** The isolate is torn down under the threads of the helpers, whose detach then meets a
    dead isolate. *)
Example eager_tear_down :
  play true 9 (until_cancelled ++ eager) start = None
  ∧ rn_iso (at_end false (until_cancelled ++ eager)) = ITorn
  ∧ rn_bad (at_end false (until_cancelled ++ eager ++ [AHelper])) = true.
Proof. by vm_compute. Qed.
End edemo.

Lemma isolate_discipline_witness :
  rn_bad (edemo.at_end true (edemo.until_cancelled ++ edemo.ending)) = false
  ∧ rn_attached (edemo.at_end true (edemo.until_cancelled ++ edemo.ending)) = 0.
Proof.
  assert (rreach true 9 1 (edemo.at_end true (edemo.until_cancelled ++ edemo.ending))) as Hr
    by (apply edemo.at_end_reach; vm_compute; eauto).
  destruct (isolate_discipline 9 1 _ Hr) as [Hb Hg]. split; [exact Hb|].
  apply Hg. by vm_compute.
Defined.

Lemma run_returns_clean_witness :
  rn_super (edemo.at_end true (edemo.until_cancelled ++ edemo.ending)) = VReturned (Some (RCtx Canceled))
  ∧ rn_healthy (edemo.at_end true (edemo.until_cancelled ++ edemo.ending)) = false
  ∧ rn_native (edemo.at_end true (edemo.until_cancelled ++ edemo.ending)) = NDone.
Proof.
  assert (rreach true 9 1 (edemo.at_end true (edemo.until_cancelled ++ edemo.ending))) as Hr
    by (apply edemo.at_end_reach; vm_compute; eauto).
  assert (rn_super (edemo.at_end true (edemo.until_cancelled ++ edemo.ending)) = VReturned (Some (RCtx Canceled))) as Hv
    by (vm_compute; reflexivity).
  destruct (run_returns_clean true 9 1 _ _ Hr Hv) as (Hh & Hn & _). split; [exact Hv|split; [exact Hh|]].
  apply Hn. by vm_compute.
Defined.

Lemma run_terminates_witness :
  left_of 9 (edemo.at_end true (edemo.until_cancelled ++ [ASuper 0 0 PickCtx]))
  < left_of 9 (edemo.at_end true edemo.until_cancelled).
Proof.
  assert (rreach true 9 1 (edemo.at_end true edemo.until_cancelled)) as Hr
    by (apply edemo.at_end_reach; vm_compute; eauto).
  assert (rn_ctx (edemo.at_end true edemo.until_cancelled) ≠ None) as Hc by by vm_compute.
  destruct (run_terminates true 9 1 _ Hr Hc) as (Hs & _). apply Hs.
  apply (o_super true 9 0 0 PickCtx). by vm_compute.
Defined.
