(* ===== verification/Ready.v ===== *)
(** * Reading the subprocess's output (subprocess.go)

    [pipeToLogger] raises the health flag at Geyser's boot line, which
    [isGeyserReady] recognises with the terminal's colour codes stripped in place. *)
From S2P Require Import Prelude GoStrings.

Definition ESC : Z := 27.
Definition letter_m : Z := 109.
Definition done_marker : bytes := str "Done (".

(** [for j < len(line) && line[j] != 'm' { j++ }]: how far [j] goes. *)
Fixpoint scan_m (l : bytes) : Z :=
  match l with
  | [] => 0
  | c :: l => if c =? letter_m then 0 else 1 + scan_m l
  end.

(** The first loop, from position [i]; [None] is the model's fuel running out. *)
Fixpoint strip_loop (fuel : nat) (line : bytes) (i : Z) : option bytes :=
  if i <? zlen line then
    match fuel with
    | O => None
    | S fuel =>
        if default 0 (line !! Z.to_nat i) =? ESC then
          let j := i + 1 + scan_m (zdrop (i + 1) line) in
          let line := ztake i line ++ zdrop (Z.min (j + 1) (zlen line)) line in
          let i := i - 1 in
          strip_loop fuel line (i + 1)
        else strip_loop fuel line (i + 1)
    end
  else Some line.

(** The second loop, from position [i]: [line[i:i+6] == "Done ("]. *)
Fixpoint find_marker (fuel : nat) (line : bytes) (i : Z) : bool :=
  match fuel with
  | O => false
  | S fuel =>
      if i + 6 <=? zlen line then
        if bool_decide (ztake 6 (zdrop i line) = done_marker) then true
        else find_marker fuel line (i + 1)
      else false
  end.

Definition isGeyserReady (line : bytes) : option bool :=
  line ← strip_loop (length line) line 0;
  Some (find_marker (length line) line 0).

(** The loop of [pipeToLogger] over the lines the scanner yields: the lines logged,
    and the flag, if there is one. *)
Fixpoint pipeToLogger (lines : list bytes) (readyFlag : option bool) : list bytes * option bool :=
  match lines with
  | [] => ([], readyFlag)
  | line :: lines =>
      let readyFlag :=
        match readyFlag with
        | Some false => match isGeyserReady line with Some true => Some true | _ => Some false end
        | _ => readyFlag
        end in
      let '(logged, flag) := pipeToLogger lines readyFlag in (line :: logged, flag)
  end.

(** ** What is stripped *)

(** The text after the next [m], if any. *)
Fixpoint after_m (l : bytes) : bytes :=
  match l with
  | [] => []
  | c :: l => if c =? letter_m then l else after_m l
  end.

(** Each escape goes, with everything up to the next [m]. *)
Fixpoint strip_ansi (skipping : bool) (l : bytes) : bytes :=
  match l with
  | [] => []
  | c :: l =>
      if skipping then strip_ansi (negb (c =? letter_m)) l
      else if c =? ESC then strip_ansi true l else c :: strip_ansi false l
  end.

Lemma strip_ansi_after l : strip_ansi true l = strip_ansi false (after_m l).
Proof. induction l as [|c l IH]; cbn; [done|]. by destruct (c =? letter_m). Qed.

Lemma scan_m_range l : 0 ≤ scan_m l ≤ zlen l.
Proof.
  induction l as [|c l IH]; [done|]. rewrite zlen_cons. cbn. destruct (c =? letter_m); lia.
Qed.

Lemma zdrop_scan l : zdrop (Z.min (scan_m l + 1) (zlen l)) l = after_m l.
Proof.
  induction l as [|c l IH]; [done|]. pose proof (scan_m_range l). pose proof (zlen_nonneg l).
  rewrite zlen_cons. cbn [scan_m after_m]. destruct (c =? letter_m).
  - replace (Z.min (0 + 1) (1 + zlen l)) with 1 by lia. done.
  - rewrite <-IH. replace (Z.min (1 + scan_m l + 1) (1 + zlen l))
      with (Z.succ (Z.min (scan_m l + 1) (zlen l))) by lia.
    unfold zdrop. by rewrite Z2Nat.inj_succ by lia.
Qed.

Lemma after_m_shorter l : zlen (after_m l) ≤ zlen l.
Proof.
  induction l as [|c l IH]; [done|]. rewrite zlen_cons. cbn. destruct (c =? letter_m); lia.
Qed.

(** The loop at the end of a stripped prefix. *)
Lemma strip_loop_spec fuel pre l :
  zlen l ≤ Z.of_nat fuel → strip_loop fuel (pre ++ l) (zlen pre) = Some (pre ++ strip_ansi false l).
Proof.
  revert pre l. induction fuel as [|fuel IH]; intros pre l Hf;
    pose proof (zlen_nonneg pre); pose proof (zlen_nonneg l).
  - assert (l = []) as -> by (apply zlen_zero_inv; lia). cbn. rewrite app_nil_r.
    by replace (zlen pre <? zlen pre) with false by lia.
  - cbn [strip_loop]. rewrite zlen_app. destruct l as [|c l].
    { change (zlen []) with 0. by replace (zlen pre <? zlen pre + 0) with false by lia. }
    rewrite zlen_cons in *. pose proof (zlen_nonneg l).
    replace (zlen pre <? zlen pre + (1 + zlen l)) with true by lia.
    assert ((pre ++ c :: l) !! Z.to_nat (zlen pre) = Some c) as ->.
    { unfold zlen. rewrite Nat2Z.id. by apply list_lookup_middle. }
    change (default 0 (Some c)) with c. cbn [strip_ansi]. destruct (c =? ESC) eqn:Hc.
    + assert (zdrop (zlen pre + 1) (pre ++ c :: l) = l) as ->.
      { rewrite <-zdrop_zdrop by lia. by rewrite zdrop_app_eq. }
      rewrite ztake_app_eq by done.
      assert (zdrop (Z.min (zlen pre + 1 + scan_m l + 1) (zlen pre + (1 + zlen l))) (pre ++ c :: l)
        = after_m l) as ->.
      { rewrite <-zdrop_scan.
        replace (Z.min (zlen pre + 1 + scan_m l + 1) (zlen pre + (1 + zlen l)))
          with (zlen pre + (1 + Z.min (scan_m l + 1) (zlen l))) by lia.
        pose proof (scan_m_range l).
        rewrite <-zdrop_zdrop, zdrop_app_eq by (done || lia).
        replace (1 + Z.min (scan_m l + 1) (zlen l)) with (Z.succ (Z.min (scan_m l + 1) (zlen l))) by lia.
        unfold zdrop. by rewrite Z2Nat.inj_succ by lia. }
      replace (zlen pre - 1 + 1) with (zlen pre) by lia.
      pose proof (after_m_shorter l). rewrite strip_ansi_after. apply IH. lia.
    + replace (zlen pre + 1) with (zlen (pre ++ [c])) by (rewrite zlen_app; done).
      change (c :: l) with ([c] ++ l). rewrite app_assoc, IH by lia. by rewrite <-app_assoc.
Qed.

Lemma find_marker_spec fuel line i :
  0 ≤ i → zlen line - i ≤ Z.of_nat fuel →
  find_marker fuel line i = true ↔ ∃ a b, zdrop i line = a ++ done_marker ++ b.
Proof.
  revert i. induction fuel as [|fuel IH]; intros i Hi Hf; cbn [find_marker].
  - split; [done|]. intros (a & b & Hd). apply (f_equal zlen) in Hd.
    rewrite !zlen_app in Hd. change (zlen done_marker) with 6 in Hd.
    assert (zdrop i line = []) as Hz.
    { unfold zdrop. apply drop_ge. unfold zlen in Hf. lia. }
    rewrite Hz in Hd. change (zlen []) with 0 in Hd.
    pose proof (zlen_nonneg a). pose proof (zlen_nonneg b). lia.
  - destruct (i + 6 <=? zlen line) eqn:Hl.
    + case_bool_decide as Hm.
      * split; [|done]. intros _. exists [], (zdrop 6 (zdrop i line)).
        rewrite <-Hm. change ([] ++ ?x) with x. by rewrite ztake_zdrop.
      * rewrite IH by lia. split.
        -- intros (a & b & Hd). destruct (zdrop i line) as [|c r] eqn:Hr.
           { apply (f_equal zlen) in Hr. rewrite zlen_zdrop in Hr by lia. change (zlen []) with 0 in Hr. lia. }
           exists (c :: a), b. change ((c :: a) ++ ?x) with (c :: (a ++ x)). f_equal. rewrite <-Hd, <-zdrop_zdrop, Hr by lia. done.
        -- intros (a & b & Hd). destruct a as [|c a].
           { exfalso. apply Hm. rewrite Hd. by apply (ztake_app_eq 6 done_marker b). }
           exists a, b. by rewrite <-zdrop_zdrop, Hd by lia.
    + split; [done|]. intros (a & b & Hd).
      assert (zlen line < i ∨ i ≤ zlen line) as [Hlt|Hle] by lia.
      * assert (zdrop i line = []) as Hz by (unfold zdrop; apply drop_ge; unfold zlen in Hlt; lia).
        rewrite Hz in Hd. by destruct a.
      * apply (f_equal zlen) in Hd. rewrite zlen_zdrop, !zlen_app in Hd by lia.
        change (zlen done_marker) with 6 in Hd. pose proof (zlen_nonneg a). pose proof (zlen_nonneg b). lia.
Qed.

Lemma isGeyserReady_strip line :
  ∃ r, isGeyserReady line = Some r
    ∧ (r = true ↔ ∃ a b, strip_ansi false line = a ++ done_marker ++ b).
Proof.
  unfold isGeyserReady.
  pose proof (strip_loop_spec (length line) [] line ltac:(unfold zlen; lia)) as Hs.
  change ([] ++ ?x) with x in Hs. change (zlen []) with 0 in Hs. rewrite Hs.
  cbn [mbind option_bind]. eexists. split; [done|].
  rewrite find_marker_spec by (unfold zlen; lia). by rewrite zdrop_0.
Qed.

(** C39: [isGeyserReady] terminates on every line, and answers whether the line, once
    each escape is removed up to the next [m], contains [Done (]. *)
Theorem isGeyserReady_spec line :
  ∃ r, isGeyserReady line = Some r
    ∧ (r = true ↔ ∃ a b, strip_ansi false line = a ++ done_marker ++ b).
Proof. apply isGeyserReady_strip. Qed.

(** [pipeToLogger] logs every line, in order, and raises the health flag exactly
    when it was up or one of the lines is the boot line; it never lowers it. *)
Lemma pipeToLogger_spec lines flag :
  pipeToLogger lines flag =
    (lines, b ← flag; Some (b || existsb (λ l, default false (isGeyserReady l)) lines)).
Proof.
  revert flag. induction lines as [|line lines IH]; intros flag; cbn [pipeToLogger existsb].
  - destruct flag as [b|]; cbn; [|done]. by rewrite orb_false_r.
  - rewrite IH. destruct (isGeyserReady_strip line) as (r & -> & _).
    destruct flag as [[|]|]; cbn; try done. by destruct r.
Qed.

(** A coloured boot line. *)
Example ready_coloured :
  isGeyserReady ([27] ++ str "[32mDone (1.2s)!" ++ [27] ++ str "[0m") = Some true.
Proof. by vm_compute. Qed.
Example not_ready : isGeyserReady (str "Loading" ++ [27] ++ str "[Done (") = Some false.
Proof. by vm_compute. Qed.
