(* ===== verification/Options.v ===== *)
(** * Options and their validation (geyserlite.go, options.go, fly.go, floodgate.go)

    A Go [int] enum is a [Z]; a pointer, slice or map that may be nil is an [option],
    or address 0. The process-wide [slog.Default()] logger is an argument. *)
From S2P Require Import Prelude GoInt GoStrings Supervisor.

Definition AuthType : Type := Z.
Definition Floodgate : AuthType := 0.
Definition Online : AuthType := 1.
Definition Offline : AuthType := 2.

(** [AuthType.String]. *)
Definition AuthType_String (a : AuthType) : bytes :=
  if a =? Floodgate then str "floodgate"
  else if a =? Online then str "online"
  else if a =? Offline then str "offline"
  else str "floodgate".

Definition Mode : Type := Z.
Definition ModeEmbedded : Mode := 0.
Definition ModeSubprocess : Mode := 1.

Record MOTD := Motd { Line1 : bytes; Line2 : bytes }.

Record Options := MkOptions {
  Listen : bytes;
  Upstream : bytes;
  AuthType_of : AuthType;
  FloodgateKey : bytes;
  MOTD_of : MOTD;
  Mode_of : Mode;
  LibraryPath : bytes;
  BinaryPath : bytes;
  JVMArgs : option (list bytes);
  Logger : option Z;                     (* the identity of a logger *)
  RestartPolicy_of : option RestartPolicy;
  ShutdownTimeout : Z;
  Version : bytes;
  Mirror : bytes;
  OfflineMode : bool;                    (* the field [Offline] *)
  ConfigOverrides : Z;                   (* the address of a map *)
}.

Inductive optionsError := ErrUpstreamRequired | ErrInvalidFloodgateKey.

Definition DefaultJVMArgs : list bytes := [
  str "-XX:MaxHeapFree=4m";
  str "-XX:+CollectYoungGenerationSeparately";
  str "-XX:ActiveProcessorCount=1";
  str "-Dio.netty.maxDirectMemory=67108864";
  str "-XX:MaxDirectMemorySize=64m";
  str "-Dio.netty.allocator.type=unpooled";
  str "-Dio.netty.allocator.numHeapArenas=1";
  str "-Dio.netty.allocator.numDirectArenas=1";
  str "-Dio.netty.eventLoopThreads=2";
  str "-Dio.netty.recycler.maxCapacityPerThread=0";
  str "-Dio.netty.leakDetection.level=disabled";
  str "-Djava.util.concurrent.ForkJoinPool.common.parallelism=1";
  str "-Dlog4j2.disableJmx=true" ].

Definition is_empty (s : bytes) : bool := zlen s =? 0.

(** [getenv] is the process's environment. *)
Definition FlyGlobalServices (getenv : bytes → bytes) : bytes :=
  if negb (is_empty (getenv (str "FLY_APP_NAME"))) then str "fly-global-services" else str "0.0.0.0".

(** [read n] is what [rand.Read] did with a buffer of [n] bytes. *)
Definition GenerateFloodgateKey (read : Z → option bytes) : option bytes := read 16.

(** [validate]: the options with their defaults, and the error. *)
Definition validate (slogDefault : Z) (o : Options) : Options * option optionsError :=
  if is_empty (Upstream o) then (o, Some ErrUpstreamRequired)
  else if (AuthType_of o =? Floodgate) && negb (zlen (FloodgateKey o) =? 16)
  then (o, Some ErrInvalidFloodgateKey)
  else
    (MkOptions
       (if is_empty (Listen o) then str ":19132" else Listen o)
       (Upstream o) (AuthType_of o) (FloodgateKey o) (MOTD_of o) (Mode_of o)
       (LibraryPath o) (BinaryPath o)
       (match JVMArgs o with None => Some DefaultJVMArgs | args => args end)
       (match Logger o with None => Some slogDefault | l => l end)
       (match RestartPolicy_of o with None => Some (Policy Second Minute 0) | p => p end)
       (if ShutdownTimeout o =? 0 then 30 * Second else ShutdownTimeout o)
       (Version o) (Mirror o) (OfflineMode o) (ConfigOverrides o),
     None).

(** What the rest of the library relies on. *)
Record ready_options (o : Options) : Prop := {
  ro_upstream : Upstream o ≠ [];
  ro_key : AuthType_of o = Floodgate → zlen (FloodgateKey o) = 16;
  ro_listen : Listen o ≠ [];
  ro_jvm : is_Some (JVMArgs o);
  ro_logger : is_Some (Logger o);
  ro_policy : is_Some (RestartPolicy_of o);
  ro_timeout : ShutdownTimeout o ≠ 0;
}.

(** Setting nothing the user set: [o'] agrees with [o] wherever [o] has a value. *)
Record completes (o o' : Options) : Prop := {
  cp_listen : Listen o ≠ [] → Listen o' = Listen o;
  cp_jvm : ∀ a, JVMArgs o = Some a → JVMArgs o' = Some a;
  cp_logger : ∀ l, Logger o = Some l → Logger o' = Some l;
  cp_policy : ∀ p, RestartPolicy_of o = Some p → RestartPolicy_of o' = Some p;
  cp_timeout : ShutdownTimeout o ≠ 0 → ShutdownTimeout o' = ShutdownTimeout o;
  cp_rest : (Upstream o', AuthType_of o', FloodgateKey o', MOTD_of o', Mode_of o')
    = (Upstream o, AuthType_of o, FloodgateKey o, MOTD_of o, Mode_of o);
  cp_paths : (LibraryPath o', BinaryPath o', Version o', Mirror o', OfflineMode o', ConfigOverrides o')
    = (LibraryPath o, BinaryPath o, Version o, Mirror o, OfflineMode o, ConfigOverrides o);
}.

Lemma is_empty_spec s : is_empty s = true ↔ s = [].
Proof.
  unfold is_empty. rewrite Z.eqb_eq. split; [apply zlen_zero_inv|by intros ->].
Qed.
Lemma is_empty_false s : is_empty s = false ↔ s ≠ [].
Proof. rewrite <-not_true_iff_false, is_empty_spec. done. Qed.

(** Options that are ready are left alone. *)
Lemma validate_ready d o : ready_options o → validate d o = (o, None).
Proof.
  intros [Hu Hk Hl [a Ha] [l Hlog] [p Hp] Ht]. unfold validate.
  destruct o as [li up au key mo mode lib bin jvm logger pol t ve mi off co]. cbn in *.
  apply is_empty_false in Hu as ->, Hl as ->. subst.
  replace (t =? 0) with false by lia.
  destruct (au =? Floodgate) eqn:E; [|done].
  rewrite (Hk (proj1 (Z.eqb_eq _ _) E)). done.
Qed.

Lemma validate_ok d o o' : validate d o = (o', None) → ready_options o' ∧ completes o o'.
Proof.
  unfold validate. destruct (is_empty (Upstream o)) eqn:Hu; [done|].
  destruct (_ && negb _) eqn:Hk; [done|]. intros [= <-]. apply is_empty_false in Hu. split.
  - constructor; cbn.
    + done.
    + intros Ha. rewrite Ha in Hk. cbn in Hk. lia.
    + destruct (is_empty (Listen o)) eqn:Hl; [by vm_compute|by apply is_empty_false].
    + destruct (JVMArgs o); eauto.
    + destruct (Logger o); eauto.
    + destruct (RestartPolicy_of o); eauto.
    + destruct (ShutdownTimeout o =? 0) eqn:Ht; [by vm_compute|lia].
  - constructor; cbn; try done.
    + intros Hl. by apply is_empty_false in Hl as ->.
    + by intros a ->.
    + by intros a ->.
    + by intros a ->.
    + intros Ht. by replace (ShutdownTimeout o =? 0) with false by lia.
Qed.

(** A generated key is one that [validate] takes. *)
Lemma generated_key_valid d read key (o : Options) :
  (∀ n b, read n = Some b → zlen b = n) → GenerateFloodgateKey read = Some key →
  FloodgateKey o = key → (validate d o).2 ≠ Some ErrInvalidFloodgateKey.
Proof.
  intros Hread Hkey Ho. apply Hread in Hkey. unfold validate. rewrite Ho, Hkey.
  by destruct (is_empty (Upstream o)), (AuthType_of o =? Floodgate).
Qed.

(** [validate] fails exactly on an empty [Upstream] (reported first) and on a
    Floodgate key that is not 16 bytes long, and then returns the options untouched;
    otherwise every default is filled in, so that no later code meets a nil logger or
    restart policy, nothing the caller set is changed, and validating again changes
    nothing. *)
Theorem validate_spec d o :
  (snd (validate d o) = Some ErrUpstreamRequired ↔ Upstream o = [])
  ∧ (snd (validate d o) = Some ErrInvalidFloodgateKey ↔
      Upstream o ≠ [] ∧ AuthType_of o = Floodgate ∧ zlen (FloodgateKey o) ≠ 16)
  ∧ (∀ e, snd (validate d o) = Some e → fst (validate d o) = o)
  ∧ (∀ o', validate d o = (o', None) →
      ready_options o' ∧ completes o o' ∧ ∀ d', validate d' o' = (o', None)).
Proof.
  split_and!.
  - unfold validate. destruct (is_empty _) eqn:Hu.
    + apply is_empty_spec in Hu. done.
    + apply is_empty_false in Hu. destruct (_ && negb _); split; done.
  - unfold validate. destruct (is_empty _) eqn:Hu.
    + apply is_empty_spec in Hu. split; [done|]. by intros [? _].
    + apply is_empty_false in Hu. destruct (_ && negb _) eqn:Hk; cbn.
      * split; [|done]. intros _. split; [done|]. lia.
      * split; [done|]. intros (_ & Ha & Hn). rewrite Ha in Hk. cbn in Hk. lia.
  - intros e. unfold validate. destruct (is_empty _); [done|]. by destruct (_ && negb _).
  - intros o' Ho. destruct (validate_ok d o o' Ho) as [Hr Hc].
    split_and!; [done..|]. intros d'. by apply validate_ready.
Qed.

Definition demo_options : Options :=
  MkOptions [] (str "127.0.0.1:25567") Online [] (Motd [] []) ModeEmbedded [] [] None None None 0
    [] [] false 0.
Lemma validate_spec_witness :
  let o' := fst (validate 7 demo_options) in
  validate 7 demo_options = (o', None) ∧ Listen o' = str ":19132" ∧ ready_options o'
  ∧ validate 8 o' = (o', None).
Proof.
  intros o'. assert (validate 7 demo_options = (o', None)) as H by (by vm_compute).
  destruct (validate_spec 7 demo_options) as (_ & _ & _ & Hv).
  destruct (Hv o' H) as (Hr & _ & Hi). split_and!; [exact H|by vm_compute|exact Hr|exact (Hi 8)].
Defined.
