(* ===== verification/MergeMap.v ===== *)
(** * Deep merging of configuration maps ([mergeMap] of config.go)

    A Go map is a reference: a [heap] maps addresses to maps, and a value of type
    [any] that is a map is its address. An address that is not in the heap is a nil
    map: reading it finds nothing, writing to it panics. [mergeMap] works on the heap,
    so that what it shares and what it overwrites is visible. *)
From S2P Require Import Prelude GoInt GoStrings.

(** A value that is not a map is copied, never looked into. [SStrs]: a slice of strings, which
    nothing writes to. *)
Inductive scalar := SStr (s : bytes) | SInt (n : Z) | SBool (b : bool) | SStrs (l : list bytes) | SOther (id : Z).
Inductive value := VScalar (s : scalar) | VMap (l : Z).

Abbreviation gomap := (gmap bytes value).
Abbreviation heap := (gmap Z gomap).

#[global] Instance scalar_eq_dec : EqDecision scalar.
Proof. solve_decision. Defined.
#[global] Instance value_eq_dec : EqDecision value.
Proof. solve_decision. Defined.

(** The errors of this part: the baseline does not parse, and the model's own
    [OutOfFuel]. *)
Inductive configError := ErrParseBaseline | OutOfFuel.

Definition entries (h : heap) (l : Z) : gomap := default ∅ (h !! l).

(** [m[k] = v]. *)
Definition put (h : heap) (l : Z) (k : bytes) (v : value) : res configError heap :=
  match h !! l with
  | Some m => Ok (<[l := <[k := v]> m]> h)
  | None => Panic
  end.

(** [for _, x := range l { s = f(s, x) }]. *)
Fixpoint range {S A} (f : S → A → res configError S) (s : S) (l : list A) : res configError S :=
  match l with
  | [] => Ok s
  | x :: l => s ← f s x; range f s l
  end.

(** The order a [range] over a map takes is the runtime's choice, made anew each time:
    here it may depend on the depth of the call, on the map and on its contents. *)
Definition map_order : Type := nat → Z → gomap → list (bytes * value).
Definition is_order (iter : map_order) : Prop := ∀ n l m, iter n l m ≡ₚ map_to_list m.

Fixpoint mergeMap (iter : map_order) (fuel : nat) (h : heap) (dst src : Z) : res configError heap :=
  match fuel with
  | O => Err OutOfFuel
  | S fuel =>
      range (λ h '(k, v),
        match entries h dst !! k, v with
        | Some (VMap dstMap), VMap srcMap => mergeMap iter fuel h dstMap srcMap
        | _, _ => put h dst k v
        end) h (iter fuel src (entries h src))
  end.

(** ** Reading a heap

    [value_at h v p]: the value reached from [v] along the keys [p]. *)

Fixpoint value_at (h : heap) (v : value) (p : list bytes) : option value :=
  match p with
  | [] => Some v
  | k :: p =>
      match v with
      | VMap l => v' ← entries h l !! k; value_at h v' p
      | VScalar _ => None
      end
  end.

(** What a reader sees at a path, addresses aside. *)
Inductive shape := IsMap | IsScalar (s : scalar).
Definition shape_of (v : value) : shape :=
  match v with VScalar s => IsScalar s | VMap _ => IsMap end.

Abbreviation doc := (list bytes → option shape).
Definition read (h : heap) (v : value) : doc := λ p, shape_of <$> value_at h v p.

Definition reaches (h : heap) (v : value) (c : Z) : Prop := ∃ p, value_at h v p = Some (VMap c).

(** Every map of a tree is allocated, and reached along one path only. *)
Definition tree (h : heap) (l : Z) : Prop :=
  ∀ p c, value_at h (VMap l) p = Some (VMap c) →
    is_Some (h !! c) ∧ ∀ q, value_at h (VMap l) q = Some (VMap c) → p = q.

Definition separate (h : heap) (v w : value) : Prop := ∀ c, reaches h v c → reaches h w c → False.

Definition shallow (n : nat) (h : heap) (v : value) : Prop :=
  ∀ p c, value_at h v p = Some (VMap c) → (length p ≤ n)%nat.

(** ** The specification: one document laid over another *)

Definition sub (D : doc) (k : bytes) : doc := λ p, D (k :: p).

Fixpoint overlay (D S : doc) (p : list bytes) : option shape :=
  match p with
  | [] => D []
  | k :: p' =>
      match D [k], S [k] with
      | _, None => D (k :: p')
      | Some IsMap, Some IsMap => overlay (sub D k) (sub S k) p'
      | _, _ => S (k :: p')
      end
  end.

Lemma overlay_ext D D' S S' p :
  (∀ q, D q = D' q) → (∀ q, S q = S' q) → overlay D S p = overlay D' S' p.
Proof.
  revert D D' S S'. induction p as [|k p IH]; intros D D' S S' HD HS; cbn; [done|].
  rewrite !HD, !HS. destruct (D' [k]) as [[|]|], (S' [k]) as [[|]|]; try done.
  apply IH; intros q; unfold sub; done.
Qed.

(** ** Frames: a heap changed where a value does not reach *)

Definition agree_off (X : Z → Prop) (h h' : heap) : Prop := ∀ c, ¬ X c → h' !! c = h !! c.

Lemma reaches_here h l : reaches h (VMap l) l.
Proof. by exists []. Qed.
Lemma reaches_child h l k v c : entries h l !! k = Some v → reaches h v c → reaches h (VMap l) c.
Proof. intros Hk [p Hp]. exists (k :: p). cbn. by rewrite Hk. Qed.
Lemma reaches_scalar h s c : ¬ reaches h (VScalar s) c.
Proof. by intros [[|k p] ?]. Qed.

Lemma value_at_frame h h' v p :
  (∀ c, reaches h v c → h' !! c = h !! c) → value_at h' v p = value_at h v p.
Proof.
  revert v. induction p as [|k p IH]; intros v Hv; [done|]. cbn. destruct v as [|l]; [done|].
  assert (entries h' l = entries h l) as Hl by (unfold entries; by rewrite Hv by apply reaches_here).
  rewrite Hl. destruct (entries h l !! k) as [v|] eqn:Hk; [|done]. cbn.
  apply IH. intros c Hc. apply Hv. by eapply reaches_child.
Qed.

Section frame.
Context (h h' : heap) (v : value) (Hv : ∀ c, reaches h v c → h' !! c = h !! c).

Lemma reaches_frame c : reaches h' v c ↔ reaches h v c.
Proof.
  split; intros [p Hp]; exists p; rewrite <-Hp; [symmetry|]; by apply value_at_frame.
Qed.
Lemma read_frame p : read h' v p = read h v p.
Proof. unfold read. by rewrite (value_at_frame h). Qed.
Lemma shallow_frame n : shallow n h v → shallow n h' v.
Proof. intros Hn p c. rewrite (value_at_frame h) by done. apply Hn. Qed.
End frame.

Lemma tree_frame h h' l :
  (∀ c, reaches h (VMap l) c → h' !! c = h !! c) → tree h l → tree h' l.
Proof.
  intros Hl Ht p c. rewrite (value_at_frame h) by done. intros Hp. destruct (Ht p c Hp) as [Ha Hu].
  split; [rewrite Hl; [done|by exists p]|]. intros q. rewrite (value_at_frame h) by done. apply Hu.
Qed.

Lemma tree_child h l k c : tree h l → entries h l !! k = Some (VMap c) → tree h c.
Proof.
  intros Ht Hk p x Hp. destruct (Ht (k :: p) x) as [Ha Hu]; [cbn; by rewrite Hk|].
  split; [done|]. intros q Hq. specialize (Hu (k :: q)). cbn in Hu. rewrite Hk in Hu.
  cbn in Hu. specialize (Hu Hq). by injection Hu.
Qed.
(** A tree does not meet itself. *)
Lemma tree_root h l k v : tree h l → entries h l !! k = Some v → ¬ reaches h v l.
Proof.
  intros Ht Hk [p Hp]. destruct (Ht [] l) as [_ Hu]; [done|].
  specialize (Hu (k :: p)). cbn in Hu. rewrite Hk in Hu. cbn in Hu. by specialize (Hu Hp).
Qed.
Lemma tree_siblings h l k k' v v' c :
  tree h l → entries h l !! k = Some v → entries h l !! k' = Some v' →
  reaches h v c → reaches h v' c → k = k'.
Proof.
  intros Ht Hk Hk' [p Hp] [q Hq]. destruct (Ht (k :: p) c) as [_ Hu]; [cbn; by rewrite Hk|].
  specialize (Hu (k' :: q)). cbn in Hu. rewrite Hk' in Hu. cbn in Hu. specialize (Hu Hq). congruence.
Qed.
Lemma shallow_child n h l k v : shallow (S n) h (VMap l) → entries h l !! k = Some v → shallow n h v.
Proof.
  intros Hs Hk p c Hp. specialize (Hs (k :: p) c). cbn in Hs. rewrite Hk in Hs. specialize (Hs Hp). lia.
Qed.
Lemma shallow_le n m h v : (n ≤ m)%nat → shallow n h v → shallow m h v.
Proof. intros Hle Hs p c Hp. specialize (Hs p c Hp). lia. Qed.

(** ** The merge *)

Lemma read_child h l k p : read h (VMap l) (k :: p) = (v ← entries h l !! k; read h v p).
Proof. unfold read. cbn. by destruct (entries h l !! k). Qed.
Lemma read_key h l k : read h (VMap l) [k] = shape_of <$> entries h l !! k.
Proof. rewrite read_child. by destruct (entries h l !! k). Qed.

(** What a merge of [src] into [dst] does to the heap. *)
Record merged (h : heap) (dst src : Z) (h' : heap) : Prop := {
  mg_off : agree_off (reaches h (VMap dst)) h h';
  mg_read p : read h' (VMap dst) p = overlay (read h (VMap dst)) (read h (VMap src)) p;
  mg_reach c : reaches h' (VMap dst) c → reaches h (VMap dst) c ∨ reaches h (VMap src) c;
  mg_tree : tree h src → tree h' dst;
}.

Section loop.
Context (h : heap) (dst src : Z) (Ht : tree h dst) (Hsep : separate h (VMap dst) (VMap src)).

(** What may be found below key [k] of the merged map. *)
Definition zone (k : bytes) (c : Z) : Prop :=
  (∃ d, entries h dst !! k = Some d ∧ reaches h d c)
  ∨ (∃ s, entries h src !! k = Some s ∧ reaches h s c).

Lemma zone_not_dst k : ¬ zone k dst.
Proof.
  intros [(d & Hk & Hr)|(s & Hk & Hr)]; [by eapply tree_root|].
  eapply Hsep; [apply reaches_here|by eapply reaches_child].
Qed.
Lemma zone_apart k k' d c :
  zone k c → k ≠ k' → entries h dst !! k' = Some d → reaches h d c → False.
Proof.
  intros [(d' & Hk & Hr)|(s & Hk & Hr)] Hne Hd Hc.
  - apply Hne. by eapply tree_siblings.
  - eapply Hsep; by eapply reaches_child.
Qed.

(** The state of the loop while the keys [todo] are left. *)
Record loop_inv (todo : bytes → Prop) (h1 : heap) : Prop := {
  li_off : agree_off (reaches h (VMap dst)) h h1;
  li_alloc : is_Some (h1 !! dst);
  li_todo k : todo k → entries h1 dst !! k = entries h dst !! k;
  li_kid k d c : todo k → entries h dst !! k = Some d → reaches h d c → h1 !! c = h !! c;
  li_read k p : ¬ todo k →
    read h1 (VMap dst) (k :: p) = overlay (read h (VMap dst)) (read h (VMap src)) (k :: p);
  li_zone k v c : ¬ todo k → entries h1 dst !! k = Some v → reaches h1 v c → zone k c;
  li_tree k l : tree h src → ¬ todo k → entries h1 dst !! k = Some (VMap l) → tree h1 l;
}.

Lemma loop_start todo : (∀ k, todo k ↔ is_Some (entries h src !! k)) → loop_inv todo h.
Proof.
  intros Htodo.
  assert (∀ k, ¬ todo k → entries h src !! k = None) as Hnone.
  { intros k Hk. rewrite Htodo in Hk. by apply eq_None_not_Some. }
  split; try done.
  - by apply (Ht [] dst).
  - intros k p Hk%Hnone. cbn [overlay]. rewrite !read_key, Hk. by destruct (entries h dst !! k) as [[|]|].
  - intros k v c _ Hv Hc. left. eauto.
  - intros k l _ _ Hl. by eapply tree_child.
Qed.

(** One iteration changes [dst] at [k], and what was below [k] in [dst]. *)
Lemma loop_advance todo h1 h2 k :
  loop_inv todo h1 →
  (∀ c, c ≠ dst → (∀ d, entries h dst !! k = Some d → ¬ reaches h d c) → h2 !! c = h1 !! c) →
  is_Some (h2 !! dst) →
  (∀ k', k' ≠ k → entries h2 dst !! k' = entries h1 dst !! k') →
  (∀ p, read h2 (VMap dst) (k :: p) = overlay (read h (VMap dst)) (read h (VMap src)) (k :: p)) →
  (∀ v c, entries h2 dst !! k = Some v → reaches h2 v c → zone k c) →
  (tree h src → ∀ l, entries h2 dst !! k = Some (VMap l) → tree h2 l) →
  loop_inv (λ x, todo x ∧ x ≠ k) h2.
Proof.
  intros I Hframe Halloc Hkeys Hread Hzone Htree.
  assert (∀ k' v c, k' ≠ k → ¬ todo k' → entries h1 dst !! k' = Some v → reaches h1 v c →
    h2 !! c = h1 !! c) as Hkeep.
  { intros k' v c Hne Hk' Hv Hc. apply Hframe.
    - intros ->. eapply zone_not_dst. by eapply li_zone.
    - intros d Hd Hrd. eapply (zone_apart k' k); [by eapply li_zone|done..]. }
  assert (∀ x, ¬ (todo x ∧ x ≠ k) → x ≠ k → ¬ todo x) as Hdone by naive_solver.
  split; [| |intros x|intros x|intros x p|intros x v|intros x l]; try done.
  - intros c Hc. rewrite Hframe; [by apply (li_off _ _ I)|..].
    + intros ->. apply Hc, reaches_here.
    + intros d Hd Hr. apply Hc. by eapply reaches_child.
  - intros [Hx Hne]. rewrite Hkeys by done. by apply (li_todo _ _ I).
  - intros d c [Hx Hne] Hd Hc. rewrite Hframe; [by eapply (li_kid _ _ I)|..].
    + intros ->. by eapply tree_root.
    + intros d' Hd' Hr. apply Hne. by eapply tree_siblings.
  - intros Hx. destruct (decide (x = k)) as [->|Hne]; [done|].
    pose proof (Hdone x Hx Hne) as Hx'. rewrite <-(li_read _ _ I) by done.
    rewrite !read_child, Hkeys by done. destruct (entries h1 dst !! x) as [v|] eqn:Hv; [|done].
    cbn. apply read_frame. intros c. by eapply Hkeep.
  - intros c Hx. destruct (decide (x = k)) as [->|Hne]; [apply Hzone|].
    pose proof (Hdone x Hx Hne) as Hx'. rewrite Hkeys by done. intros Hv Hc.
    eapply (li_zone _ _ I); [done..|]. apply (reaches_frame h1 h2); [|done].
    intros c'. by eapply Hkeep.
  - intros Hsrc Hx. destruct (decide (x = k)) as [->|Hne]; [by apply Htree|].
    pose proof (Hdone x Hx Hne) as Hx'. rewrite Hkeys by done. intros Hl.
    eapply tree_frame; [|by eapply (li_tree _ _ I)]. intros c. by eapply Hkeep.
Qed.

(** No key is left. *)
Lemma loop_end todo h1 : (∀ k, ¬ todo k) → loop_inv todo h1 → merged h dst src h1.
Proof.
  intros Hno I. split.
  - apply (li_off _ _ I).
  - intros [|k p]; [done|]. by apply (li_read _ _ I).
  - intros c [[|k p] Hp].
    + injection Hp as <-. left. apply reaches_here.
    + cbn in Hp. destruct (entries h1 dst !! k) as [v|] eqn:Hk; [|done].
      destruct (li_zone _ _ I k v c) as [(d & Hd & Hr)|(s & Hs & Hr)]; [done..|by exists p| |].
      * left. by eapply reaches_child.
      * right. by eapply reaches_child.
  - intros Hsrc p c Hp. destruct p as [|k p].
    + injection Hp as <-. split; [apply I|]. intros [|k q] Hq; [done|]. cbn in Hq.
      destruct (entries h1 dst !! k) as [v|] eqn:Hk; [|done]. exfalso.
      eapply (zone_not_dst k), li_zone; [done..|by exists q].
    + cbn in Hp. destruct (entries h1 dst !! k) as [v|] eqn:Hk; [|done]. cbn in Hp.
      assert (zone k c) as Hz by (eapply li_zone; [done..|by exists p]).
      destruct v as [s|l]; [by destruct p|].
      pose proof (li_tree _ _ I k l Hsrc (Hno k) Hk) as Hl. destruct (Hl p c Hp) as [Ha Hu].
      split; [done|]. intros [|k' q] Hq; cbn in Hq.
      { injection Hq as <-. by apply zone_not_dst in Hz. }
      destruct (entries h1 dst !! k') as [v'|] eqn:Hk'; [|done]. cbn in Hq.
      assert (zone k' c) as Hz' by (eapply li_zone; [done..|by exists q]).
      assert (k = k') as <-.
      { destruct (decide (k = k')) as [|Hne]; [done|]. exfalso.
        destruct Hz as [(d & Hd & Hr)|(s & Hs & Hr)].
        - apply (zone_apart k' k d c); [done|congruence|done..].
        - destruct Hz' as [(d' & Hd' & Hr')|(s' & Hs' & Hr')].
          + eapply Hsep; by eapply reaches_child.
          + apply Hne. by apply (tree_siblings h src k k' s s' c). }
      rewrite Hk in Hk'. injection Hk' as <-. f_equal. by apply Hu.
Qed.
End loop.

Section merge.
Context (iter : map_order) (Hiter : is_order iter).

Lemma iter_elem n l m k v : (k, v) ∈ iter n l m ↔ m !! k = Some v.
Proof. by rewrite (Hiter n l m), elem_of_map_to_list. Qed.
Lemma iter_keys n l m k : k ∈ (iter n l m).*1 ↔ is_Some (m !! k).
Proof.
  rewrite list_elem_of_fmap. split.
  - intros ([k' v] & -> & Hv%iter_elem). eauto.
  - intros [v Hv]. exists (k, v). by rewrite iter_elem.
Qed.
Lemma iter_NoDup n l m : NoDup (iter n l m).*1.
Proof. rewrite (Hiter n l m). apply NoDup_fst_map_to_list. Qed.

(** The assignment [dst[k] = v]. *)
Lemma put_step h dst src todo h1 k v :
  tree h dst → separate h (VMap dst) (VMap src) → loop_inv h dst src todo h1 →
  entries h src !! k = Some v →
  ¬ (∃ d s, entries h dst !! k = Some (VMap d) ∧ v = VMap s) →
  ∃ h2, put h1 dst k v = Ok h2 ∧ loop_inv h dst src (λ x, todo x ∧ x ≠ k) h2.
Proof.
  intros Ht Hsep I Hk Hboth. destruct (li_alloc _ _ _ _ _ I) as [m1 Hm1].
  exists (<[dst := <[k := v]> m1]> h1). split; [unfold put; by rewrite Hm1|].
  set (h2 := <[dst := _]> h1).
  assert (entries h2 dst = <[k := v]> m1) as He by (unfold entries, h2; by rewrite lookup_insert_eq).
  assert (entries h1 dst = m1) as He1 by (unfold entries; by rewrite Hm1).
  assert (∀ c, reaches h v c → h2 !! c = h !! c) as Hv.
  { intros c Hc. assert (reaches h (VMap src) c) by (by eapply reaches_child).
    unfold h2. rewrite lookup_insert_ne; [apply (li_off _ _ _ _ _ I)|].
    - intros Hd. by eapply Hsep.
    - intros <-. eapply Hsep; [apply reaches_here|done]. }
  eapply (loop_advance h dst src); try done; unfold h2.
  - intros c Hc _. by rewrite lookup_insert_ne.
  - rewrite lookup_insert_eq. eauto.
  - intros k' Hne. fold h2. by rewrite He, He1, lookup_insert_ne.
  - intros p. fold h2. rewrite read_child, He, lookup_insert_eq. cbn [mbind option_bind].
    rewrite (read_frame h h2 v Hv). cbn [overlay]. rewrite !read_key, Hk.
    rewrite (read_child h src), Hk. cbn [mbind option_bind fmap option_fmap option_map].
    destruct (entries h dst !! k) as [[s|d]|] eqn:Hd, v as [s'|l]; cbn [shape_of fmap option_fmap option_map]; try done.
    exfalso. apply Hboth. eauto.
  - fold h2. intros v' c. rewrite He, lookup_insert_eq. intros [= <-] Hc. right. exists v.
    split; [done|]. by apply (reaches_frame h h2 v Hv).
  - fold h2. intros Hsrc l. rewrite He, lookup_insert_eq. intros [= ->].
    eapply tree_frame; [|by eapply tree_child]. done.
Qed.

(** The recursive call, on maps at the same key. *)
Lemma recurse_step h dst src (todo : bytes → Prop) h1 k d s h2 :
  tree h dst → separate h (VMap dst) (VMap src) → loop_inv h dst src todo h1 → todo k →
  entries h src !! k = Some (VMap s) → entries h dst !! k = Some (VMap d) →
  merged h1 d s h2 →
  loop_inv h dst src (λ x, todo x ∧ x ≠ k) h2.
Proof.
  intros Ht Hsep I Htodo Hs Hd M.
  assert (∀ c, reaches h (VMap d) c → h1 !! c = h !! c) as Fd by (intros c; by eapply li_kid).
  assert (∀ c, reaches h (VMap s) c → h1 !! c = h !! c) as Fs.
  { intros c Hc. apply (li_off _ _ _ _ _ I). intros Hr. eapply Hsep; [done|by eapply reaches_child]. }
  assert (¬ reaches h1 (VMap d) dst) as Hdst.
  { rewrite (reaches_frame h h1) by done. by eapply tree_root. }
  assert (h2 !! dst = h1 !! dst) as Hdst2 by (by apply (mg_off _ _ _ _ M)).
  assert (entries h2 dst = entries h1 dst) as He by (unfold entries; by rewrite Hdst2).
  assert (entries h2 dst !! k = Some (VMap d)) as Hd2.
  { rewrite He, (li_todo _ _ _ _ _ I) by done. done. }
  eapply (loop_advance h dst src); try done.
  - intros c _ Hc. apply (mg_off _ _ _ _ M). rewrite (reaches_frame h h1) by done. by apply Hc.
  - rewrite Hdst2. apply I.
  - intros k' _. by rewrite He.
  - intros p. rewrite read_child, Hd2. cbn [mbind option_bind]. rewrite (mg_read _ _ _ _ M).
    cbn [overlay]. rewrite !read_key, Hs, Hd. cbn [fmap option_fmap option_map shape_of].
    apply overlay_ext; intros q; unfold sub; rewrite read_child, ?Hs, ?Hd; cbn [mbind option_bind];
      by apply read_frame.
  - rewrite Hd2. intros v c [= <-] [Hr|Hr]%(mg_reach _ _ _ _ M).
    + left. exists (VMap d). split; [done|]. by rewrite <-(reaches_frame h h1).
    + right. exists (VMap s). split; [done|]. by rewrite <-(reaches_frame h h1).
  - intros Hsrc l. rewrite Hd2. intros [= <-]. apply (mg_tree _ _ _ _ M).
    eapply tree_frame; [|by eapply tree_child]. done.
Qed.

Lemma loop_inv_iff h dst src (t1 t2 : bytes → Prop) h1 :
  (∀ k, t1 k ↔ t2 k) → loop_inv h dst src t1 h1 → loop_inv h dst src t2 h1.
Proof.
  intros Hiff I. split; try apply I.
  - intros k Hk%Hiff. by apply (li_todo _ _ _ _ _ I).
  - intros k d c Hk%Hiff. by apply (li_kid _ _ _ _ _ I).
  - intros k p Hk. apply (li_read _ _ _ _ _ I). by rewrite Hiff.
  - intros k v c Hk. apply (li_zone _ _ _ _ _ I). by rewrite Hiff.
  - intros k l Hsrc Hk. apply (li_tree _ _ _ _ _ I); [done|]. by rewrite Hiff.
Qed.

(** The loop, given that the recursive calls merge. *)
Lemma range_merged (call : heap → Z → Z → res configError heap) h dst src :
  tree h dst → separate h (VMap dst) (VMap src) →
  (∀ k d s h1, entries h dst !! k = Some (VMap d) → entries h src !! k = Some (VMap s) →
    tree h1 d → separate h1 (VMap d) (VMap s) → (∀ c, reaches h (VMap s) c → h1 !! c = h !! c) →
    ∃ h2, call h1 d s = Ok h2 ∧ merged h1 d s h2) →
  ∀ rem h1, loop_inv h dst src (λ k, k ∈ rem.*1) h1 →
  (∀ k v, (k, v) ∈ rem → entries h src !! k = Some v) → NoDup rem.*1 →
  ∃ h', range (λ h '(k, v),
      match entries h dst !! k, v with
      | Some (VMap dstMap), VMap srcMap => call h dstMap srcMap
      | _, _ => put h dst k v
      end) h1 rem = Ok h' ∧ merged h dst src h'.
Proof.
  intros Ht Hsep Hcall. induction rem as [|[k v] rem IH]; intros h1 I Hrem Hnd; cbn [range].
  { exists h1. split; [done|]. apply (loop_end h dst src Ht Hsep _ h1) in I; [done|].
    intros k. by apply not_elem_of_nil. }
  cbn in Hnd. apply NoDup_cons in Hnd as [Hk Hnd].
  assert (entries h src !! k = Some v) as Hv by (apply Hrem; left).
  assert (k ∈ ((k, v) :: rem).*1) as Htodo by (cbn; left).
  assert (∀ h2, loop_inv h dst src (λ x, x ∈ ((k, v) :: rem).*1 ∧ x ≠ k) h2 →
    loop_inv h dst src (λ x, x ∈ rem.*1) h2) as Hrest.
  { intros h2. apply loop_inv_iff. intros x. cbn. rewrite elem_of_cons. split.
    - by intros [[->|] ?].
    - intros Hx. split; [by right|]. by intros ->. }
  assert (∀ k' v', (k', v') ∈ rem → entries h src !! k' = Some v') as Hrem'
    by (intros k' v' Hin; apply Hrem; by right).
  rewrite (li_todo _ _ _ _ _ I k Htodo).
  assert ((∃ d s, entries h dst !! k = Some (VMap d) ∧ v = VMap s)
    ∨ ¬ ∃ d s, entries h dst !! k = Some (VMap d) ∧ v = VMap s) as [(d & s & Hd & ->)|Hno].
  { destruct (entries h dst !! k) as [[s|d]|], v as [s'|l]; eauto 6; right; naive_solver. }
  - rewrite Hd. assert (∀ c, reaches h (VMap s) c → h1 !! c = h !! c) as Fs.
    { intros c Hc. apply (li_off _ _ _ _ _ I). intros Hr. eapply Hsep; [done|by eapply reaches_child]. }
    assert (∀ c, reaches h (VMap d) c → h1 !! c = h !! c) as Fd
      by (intros c; by apply (li_kid _ _ _ _ _ I k)).
    destruct (Hcall k d s h1) as (h2 & -> & M); try done.
    + eapply tree_frame; [done|by eapply tree_child].
    + intros c. rewrite (reaches_frame h h1 _ Fd), (reaches_frame h h1 _ Fs). intros Hr1 Hr2.
      eapply Hsep; by eapply reaches_child.
    + rewrite res_bind_Ok. apply IH; [|done..]. apply Hrest. by eapply recurse_step.
  - destruct (put_step h dst src _ h1 k v Ht Hsep I Hv Hno) as (h2 & Hp & I2).
    assert (match entries h dst !! k, v with
      | Some (VMap dstMap), VMap srcMap => call h1 dstMap srcMap
      | _, _ => put h1 dst k v
      end = Ok h2) as ->.
    { destruct (entries h dst !! k) as [[s|d]|] eqn:Hd, v as [s'|l]; try done.
      exfalso. apply Hno. eauto. }
    rewrite res_bind_Ok. apply IH; [by apply Hrest|done..].
Qed.

(** A tree is merged with anything separate from it and of finite depth, within the
    fuel that the depth needs. *)
Lemma mergeMap_merged n h dst src :
  tree h dst → separate h (VMap dst) (VMap src) → shallow n h (VMap src) →
  ∃ h', mergeMap iter (S n) h dst src = Ok h' ∧ merged h dst src h'.
Proof.
  revert h dst src. induction n as [|n IH]; intros h dst src Ht Hsep Hn;
    apply (range_merged (mergeMap iter _)); try done.
  - intros k d s h1 _ Hs _ _ _. specialize (Hn [k] s). cbn in Hn. rewrite Hs in Hn.
    specialize (Hn eq_refl). lia.
  - apply loop_start; [done|]. intros k. apply iter_keys.
  - intros k v. apply iter_elem.
  - apply iter_NoDup.
  - intros k d s h1 _ Hs Htd Hsd Fs. apply IH; [done..|].
    apply (shallow_frame h); [done|]. by eapply shallow_child.
  - apply loop_start; [done|]. intros k. apply iter_keys.
  - intros k v. apply iter_elem.
  - apply iter_NoDup.
Qed.
End merge.

(** ** Building trees *)

Lemma tree_node h l m :
  h !! l = Some m →
  (∀ k c, m !! k = Some (VMap c) → tree h c ∧ ¬ reaches h (VMap c) l) →
  (∀ k k' c c' x, m !! k = Some (VMap c) → m !! k' = Some (VMap c') → k ≠ k' →
     reaches h (VMap c) x → ¬ reaches h (VMap c') x) →
  tree h l.
Proof.
  intros Hl Hkids Hdisj p c Hp. assert (entries h l = m) as He by (unfold entries; by rewrite Hl).
  destruct p as [|k p]; cbn in Hp; rewrite ?He in Hp.
  - injection Hp as <-. split; [by rewrite Hl|]. intros [|k q] Hq; [done|]. cbn in Hq. rewrite He in Hq.
    destruct (m !! k) as [[s|d]|] eqn:Hk; [by destruct q| |done].
    exfalso. apply (Hkids k d Hk). by exists q.
  - destruct (m !! k) as [[s|d]|] eqn:Hk; [by destruct p| |done]. cbn in Hp.
    destruct (Hkids k d Hk) as [Ht Hn]. destruct (Ht p c Hp) as [Ha Hu]. split; [done|].
    intros [|k' q] Hq; cbn in Hq; rewrite ?He in Hq.
    + injection Hq as <-. exfalso. apply Hn. by exists p.
    + destruct (m !! k') as [[s|d']|] eqn:Hk'; [by destruct q| |done]. cbn in Hq.
      destruct (decide (k = k')) as [<-|Hne].
      * rewrite Hk in Hk'. injection Hk' as <-. f_equal. by apply Hu.
      * exfalso. eapply (Hdisj k k' d d' c); [done..|by exists p|by exists q].
Qed.

(** A map of scalars. *)
Definition flat (m : gmap bytes scalar) : doc := λ p,
  match p with
  | [] => Some IsMap
  | [k] => IsScalar <$> m !! k
  | _ => None
  end.

Section flat.
Context (h : heap) (l : Z) (m : gmap bytes scalar) (Hl : h !! l = Some (VScalar <$> m)).

Lemma read_flat p : read h (VMap l) p = flat m p.
Proof.
  destruct p as [|k p]; [done|]. rewrite read_child.
  assert (entries h l = VScalar <$> m) as -> by (unfold entries; by rewrite Hl).
  rewrite lookup_fmap. cbn [flat].
  destruct (m !! k) as [s|]; cbn; [|by destruct p]. by destruct p.
Qed.
Lemma reaches_flat c : reaches h (VMap l) c ↔ c = l.
Proof.
  split; [|intros ->; apply reaches_here]. intros [p Hp]. pose proof (read_flat p) as Hr.
  unfold read in Hr. rewrite Hp in Hr. destruct p as [|k [|]]; cbn in *; [congruence| |done].
  by destruct (m !! k).
Qed.
Lemma tree_flat : tree h l.
Proof.
  eapply tree_node; [done|intros k c|intros k k' c c' x]; rewrite lookup_fmap;
    by destruct (m !! k).
Qed.
Lemma shallow_flat n : shallow n h (VMap l).
Proof.
  intros p c Hp. pose proof (read_flat p) as Hr. unfold read in Hr. rewrite Hp in Hr.
  destruct p as [|k [|]]; cbn in *; [lia| |done]. by destruct (m !! k).
Qed.
End flat.

(** A branch of a known map: reaching and depth, through its maps. *)
Lemma reaches_node h l c :
  reaches h (VMap l) c ↔ c = l ∨ ∃ k d, entries h l !! k = Some (VMap d) ∧ reaches h (VMap d) c.
Proof.
  split.
  - intros [[|k p] Hp]; cbn in Hp; [left; congruence|]. right.
    destruct (entries h l !! k) as [[s|d]|] eqn:Hk; [by destruct p| |done]. exists k, d. split; [done|].
    by exists p.
  - intros [->|(k & d & Hk & Hr)]; [apply reaches_here|by eapply reaches_child].
Qed.
Lemma shallow_node n h l :
  (∀ k d, entries h l !! k = Some (VMap d) → shallow n h (VMap d)) → shallow (S n) h (VMap l).
Proof.
  intros Hkids [|k p] c Hp; cbn in *; [lia|].
  destruct (entries h l !! k) as [[s|d]|] eqn:Hk; [by destruct p| |done].
  specialize (Hkids k d Hk p c Hp). lia.
Qed.

(** ** What a reader finds after a merge *)

(** A scalar of the upper document is always found. *)
Lemma overlay_scalar h v D p s :
  p ≠ [] → read h v p = Some (IsScalar s) → overlay D (read h v) p = Some (IsScalar s).
Proof.
  revert v D. induction p as [|k p IH]; intros v D Hp Hs; [done|]. cbn [overlay].
  destruct v as [|l]; [done|]. rewrite read_key. rewrite read_child in Hs.
  destruct (entries h l !! k) as [v|] eqn:Hk; [|done]. cbn in Hs |- *.
  assert (read h (VMap l) (k :: p) = Some (IsScalar s)) as Hr by (by rewrite read_child, Hk).
  destruct v as [s'|d]; cbn [shape_of]; [by destruct (D [k]) as [[|]|]|].
  destruct (D [k]) as [[|]|]; [|done..].
  rewrite (overlay_ext _ (sub D k) _ (read h (VMap d))); [|done|].
  - apply IH; [|done]. by intros ->.
  - intros q. unfold sub. by rewrite read_child, Hk.
Qed.
(** What the upper document says nothing about stays. *)
Lemma overlay_absent D S k p : S [k] = None → overlay D S (k :: p) = D (k :: p).
Proof. intros HS. cbn [overlay]. rewrite HS. by destruct (D [k]) as [[|]|]. Qed.
Lemma overlay_below D S k p :
  D [k] = Some IsMap → S [k] = Some IsMap → overlay D S (k :: p) = overlay (sub D k) (sub S k) p.
Proof. intros HD HS. cbn [overlay]. by rewrite HD, HS. Qed.

(** [mergeMap] terminates on every acyclic [src] that shares no map with the tree
    [dst], whatever order the runtime ranges over the maps in. Afterwards [dst] reads
    as [src] laid over the old [dst]: maps at the same key are merged, anything else
    of [src] wins, what [src] does not mention stays; and no map outside [dst], those of
    [src] among them, has been touched. *)
Theorem mergeMap_spec iter n h dst src :
  is_order iter → tree h dst → separate h (VMap dst) (VMap src) → shallow n h (VMap src) →
  ∃ h', mergeMap iter (S n) h dst src = Ok h'
    ∧ (∀ p, read h' (VMap dst) p = overlay (read h (VMap dst)) (read h (VMap src)) p)
    ∧ (∀ c, ¬ reaches h (VMap dst) c → h' !! c = h !! c)
    ∧ (∀ p, read h' (VMap src) p = read h (VMap src) p)
    ∧ (∀ p s, p ≠ [] → read h (VMap src) p = Some (IsScalar s) →
         read h' (VMap dst) p = Some (IsScalar s)).
Proof.
  intros Hi Ht Hsep Hn. destruct (mergeMap_merged iter Hi n h dst src) as (h' & -> & M); [done..|].
  exists h'. split_and!; [done|apply M|apply M| |].
  - intros p. apply read_frame. intros c Hc. apply M. intros Hd. by eapply Hsep.
  - intros p s Hp Hs. rewrite (mg_read _ _ _ _ M). by apply overlay_scalar.
Qed.

(** Overriding one key below [bedrock], and adding a map. *)
Definition demo_heap : heap := list_to_map
  [ (1, list_to_map [(str "bedrock", VMap 2); (str "mtu", VScalar (SInt 1400))]);
    (2, VScalar <$> list_to_map [(str "port", SInt 19132); (str "motd1", SStr (str "hi"))]);
    (3, list_to_map [(str "bedrock", VMap 4); (str "skulls", VMap 5)]);
    (4, VScalar <$> list_to_map [(str "port", SInt 19999)]);
    (5, VScalar <$> list_to_map [(str "max", SInt 3)]) ].

Lemma demo_kids k c :
  (entries demo_heap 1 !! k = Some (VMap c) → c = 2)
  ∧ (entries demo_heap 3 !! k = Some (VMap c) → c = 4 ∨ c = 5).
Proof.
  split; intros H%elem_of_list_to_map_2; set_unfold in H; naive_solver.
Qed.
Lemma demo_flat_maps c :
  (reaches demo_heap (VMap 2) c ↔ c = 2) ∧ (reaches demo_heap (VMap 4) c ↔ c = 4)
  ∧ (reaches demo_heap (VMap 5) c ↔ c = 5).
Proof. split_and!; eapply reaches_flat; reflexivity. Qed.

Lemma mergeMap_spec_witness :
  ∃ h', mergeMap (λ _ _ m, map_to_list m) 2 demo_heap 1 3 = Ok h'
    ∧ read h' (VMap 1) [str "bedrock"; str "port"] = Some (IsScalar (SInt 19999))
    ∧ read h' (VMap 1) [str "bedrock"; str "motd1"] = Some (IsScalar (SStr (str "hi")))
    ∧ read h' (VMap 1) [str "skulls"; str "max"] = Some (IsScalar (SInt 3)).
Proof.
  destruct (mergeMap_spec (λ _ _ m, map_to_list m) 1 demo_heap 1 3) as (h' & Hm & Hr & _ & _ & Hs).
  - by intros ???.
  - eapply tree_node; [reflexivity|intros k c Hk|intros k k' c c' x Hk Hk' Hne].
    + apply (demo_kids k c) in Hk as ->. split; [by eapply tree_flat|].
      intros Hx%demo_flat_maps. done.
    + exfalso. apply elem_of_list_to_map_2 in Hk, Hk'. set_unfold in Hk. set_unfold in Hk'. naive_solver.
  - intros c. rewrite !reaches_node. intros [->|(k & d & Hk & Hr)] [Hc|(k' & d' & Hk' & Hr')].
    + done.
    + destruct (proj2 (demo_kids k' d') Hk') as [->| ->]; by apply demo_flat_maps in Hr'.
    + subst c. apply (demo_kids k d) in Hk as ->. by apply demo_flat_maps in Hr.
    + apply (demo_kids k d) in Hk as ->. apply demo_flat_maps in Hr as ->.
      destruct (proj2 (demo_kids k' d') Hk') as [->| ->]; by apply demo_flat_maps in Hr'.
  - apply shallow_node. intros k d Hk.
    destruct (proj2 (demo_kids k d) Hk) as [->| ->]; by eapply shallow_flat.
  - exists h'. split; [exact Hm|]. rewrite !Hr. split_and!; by vm_compute.
Defined.
