(* ===== verification/Config.v ===== *)
(** * Rendering Geyser's configuration (config.go)

    [buildConfigMap] parses the baseline, merges the typed options over it, and the
    caller's overrides last. [yaml.Unmarshal] is not part of the repository: it is the
    argument [unmarshal], which allocates what it parses. *)
From S2P Require Import Prelude GoInt GoStrings Options MergeMap.

(** ** Addresses *)

Definition defaultStr (s fallback : bytes) : bytes := if is_empty s then fallback else s.

(** The host and the port of an address, each possibly empty. *)
Definition splitHostPortStr (s : bytes) : res configError (bytes * bytes) :=
  if has_prefix (str "[") s then
    match index_byte 93 s with
    | None => Ok ([], [])
    | Some end_ =>
        rest ← slice s (end_ + 1) (zlen s);
        host ← slice s 1 end_;
        if negb (has_prefix (str ":") rest) then Ok (host, [])
        else port ← slice rest 1 (zlen rest); Ok (host, port)
    end
  else
    match last_index_byte 58 s with
    | None => Ok (s, [])
    | Some idx =>
        host ← slice s 0 idx;
        port ← slice s (idx + 1) (zlen s);
        Ok (host, port)
    end.

Definition splitHostPort (s defaultHost : bytes) (defaultPort : Z) : res configError (bytes * Z) :=
  if is_empty s then Ok (defaultHost, defaultPort)
  else
    '(host, portStr) ← splitHostPortStr s;
    let host := if is_empty host then defaultHost else host in
    if is_empty portStr then Ok (host, defaultPort)
    else let '(port, ok) := atoi portStr in
         if negb ok then Ok (host, defaultPort) else Ok (host, port).

(** ** The configuration *)

Definition baselineConfigYAML : bytes := str "# Generated by go.minekube.com/geyserlite.
bedrock:
  address: 0.0.0.0
  port: 19132
  motd1: geyserlite
  motd2: cross-play
  server-name: geyserlite
  compression-level: 6

java:
  address: 127.0.0.1
  port: 25565
  auth-type: floodgate
  forward-hostname: true

advanced:
  java:
    use-haproxy-protocol: false

passthrough-motd: false
passthrough-player-counts: false
legacy-ping-passthrough: false

forward-player-ping: false
max-players: 100
debug-mode: false

show-cooldown: title
show-coordinates: true
disable-bedrock-scaffolding: false

xbox-achievements-enabled: false
log-player-ip-addresses: true
notify-on-new-bedrock-update: false

scoreboard-packet-threshold: 20
enable-proxy-connections: false
mtu: 1400
use-direct-connection: false
disable-compression: false

config-version: 4
".

(** A map literal: a new map. Address 0 is nil. *)
Definition alloc (h : heap) (m : gomap) : heap * Z :=
  let l := fresh ({[0]} ∪ dom h) in (<[l := m]> h, l).

Definition bedrock_knobs (opts : Options) (addr : bytes) (port : Z) : gmap bytes scalar :=
  list_to_map [
    (str "address", SStr addr);
    (str "port", SInt port);
    (str "motd1", SStr (defaultStr (Line1 (MOTD_of opts)) (str "geyserlite")));
    (str "motd2", SStr (defaultStr (Line2 (MOTD_of opts)) (str "cross-play")));
    (str "server-name", SStr (defaultStr (Line1 (MOTD_of opts)) (str "geyserlite"))) ].
Definition java_knobs (opts : Options) (addr : bytes) (port : Z) : gmap bytes scalar :=
  list_to_map [
    (str "address", SStr addr);
    (str "port", SInt port);
    (str "auth-type", SStr (AuthType_String (AuthType_of opts)));
    (str "forward-hostname", SBool true) ].
Definition advanced_java_knobs (opts : Options) : gmap bytes scalar :=
  list_to_map [(str "use-haproxy-protocol", SBool (AuthType_of opts =? Floodgate))].

(** The map literal of the typed options. *)
Definition alloc_knobs (h : heap) (bedrock java advanced_java : gmap bytes scalar) : heap * Z :=
  let '(h, b) := alloc h (VScalar <$> bedrock) in
  let '(h, j) := alloc h (VScalar <$> java) in
  let '(h, aj) := alloc h (VScalar <$> advanced_java) in
  let '(h, a) := alloc h {[str "java" := VMap aj]} in
  alloc h (list_to_map [(str "bedrock", VMap b); (str "java", VMap j); (str "advanced", VMap a)]).

Definition buildConfigMap (iter : map_order) (unmarshal : bytes → heap → option (heap * Z))
    (fuel : nat) (h : heap) (opts : Options) : res configError (heap * Z) :=
  '(h, cfg) ← match unmarshal baselineConfigYAML h with
              | Some r => Ok r
              | None => Err ErrParseBaseline
              end;
  '(listenAddr, listenPort) ← splitHostPort (Listen opts) (str "0.0.0.0") 19132;
  '(upstreamAddr, upstreamPort) ← splitHostPort (Upstream opts) (str "127.0.0.1") 25565;
  let '(h, knobs) := alloc_knobs h (bedrock_knobs opts listenAddr listenPort)
    (java_knobs opts upstreamAddr upstreamPort) (advanced_java_knobs opts) in
  h ← mergeMap iter fuel h cfg knobs;
  h ← (if AuthType_of opts =? Floodgate
       then put h cfg (str "floodgate-key-file") (VScalar (SStr (str "key.bin"))) else Ok h);
  h ← (if 0 <? Z.of_nat (size (entries h (ConfigOverrides opts)))
       then mergeMap iter fuel h cfg (ConfigOverrides opts) else Ok h);
  Ok (h, cfg).

(** ** Splitting addresses *)

Lemma has_prefix_cons a s : has_prefix [a] s = true ↔ ∃ r, s = a :: r.
Proof. apply has_prefix_spec. Qed.

(** Without brackets the last colon splits. *)
Lemma split_plain host port :
  ¬ (∃ r, host = 91 :: r) → 58 ∉ port →
  splitHostPortStr (host ++ 58 :: port) = Ok (host, port).
Proof.
  intros Hh Hp. unfold splitHostPortStr. pose proof (zlen_nonneg host). pose proof (zlen_nonneg port).
  destruct (has_prefix _ _) eqn:Hpre.
  { apply has_prefix_cons in Hpre as [r Hr]. exfalso. apply Hh.
    destruct host as [|c host]; [done|]. injection Hr as -> _. eauto. }
  rewrite last_index_byte_app by done.
  rewrite (slice_at (host ++ 58 :: port) [] host (58 :: port) 0 (zlen host)) by done.
  rewrite res_bind_Ok.
  rewrite (slice_at (host ++ 58 :: port) (host ++ [58]) port [] (zlen host + 1) (zlen (host ++ 58 :: port))); [done|..].
  - by rewrite app_nil_r, <-app_assoc.
  - rewrite zlen_app. done.
  - rewrite zlen_app, zlen_cons. lia.
Qed.
Lemma split_nocolon host :
  ¬ (∃ r, host = 91 :: r) → 58 ∉ host → splitHostPortStr host = Ok (host, []).
Proof.
  intros Hh Hp. unfold splitHostPortStr. destruct (has_prefix _ _) eqn:Hpre.
  { exfalso. by apply has_prefix_cons in Hpre. }
  by rewrite last_index_byte_None.
Qed.
(** Brackets protect the colons of an IPv6 address. *)
Lemma split_brackets host rest :
  93 ∉ host →
  splitHostPortStr (91 :: host ++ 93 :: rest) =
    Ok (host, match rest with c :: port => if c =? 58 then port else [] | [] => [] end).
Proof.
  intros Hh. unfold splitHostPortStr. pose proof (zlen_nonneg host). pose proof (zlen_nonneg rest).
  change (has_prefix (str "[") (91 :: host ++ 93 :: rest)) with true. cbv iota.
  change (91 :: host ++ 93 :: rest) with ((91 :: host) ++ 93 :: rest).
  rewrite index_byte_app by (apply not_elem_of_cons; split; [lia|done]).
  rewrite (slice_at ((91 :: host) ++ 93 :: rest) ((91 :: host) ++ [93]) rest []
    (zlen (91 :: host) + 1) (zlen ((91 :: host) ++ 93 :: rest))).
  2: by rewrite app_nil_r, <-app_assoc.
  2: rewrite zlen_app; done.
  2: rewrite zlen_app, (zlen_cons 93); lia.
  rewrite res_bind_Ok, (slice_at ((91 :: host) ++ 93 :: rest) [91] host (93 :: rest) 1 (zlen (91 :: host)));
    [|done|done|rewrite zlen_cons; done].
  rewrite res_bind_Ok. destruct rest as [|c port]; [done|]. change (str ":") with [58].
  cbn [has_prefix]. destruct (Z.eqb_spec 58 c) as [<-|Hne]; cbn [andb negb].
  - rewrite (slice_at (58 :: port) [58] port [] 1 (zlen (58 :: port))); [done|by rewrite app_nil_r|done|rewrite zlen_cons; done].
  - by replace (c =? 58) with false by lia.
Qed.
Lemma split_unclosed host : 93 ∉ host → splitHostPortStr (91 :: host) = Ok ([], []).
Proof.
  intros Hh. unfold splitHostPortStr. change (has_prefix (str "[") (91 :: host)) with true. cbv iota.
  by rewrite index_byte_None by (apply not_elem_of_cons; split; [lia|done]).
Qed.

Lemma splitHostPortStr_total s : ∃ host port, splitHostPortStr s = Ok (host, port).
Proof.
  assert ((∃ r, s = 91 :: r) ∨ ¬ ∃ r, s = 91 :: r) as [[r ->]|Hno].
  { destruct s as [|c s]; [right; by intros [r ?]|].
    destruct (decide (c = 91)) as [->|Hc]; [eauto|right]. intros [r [= ? ?]]. done. }
  - destruct (decide (93 ∈ r)) as [Hr|Hr]; [|rewrite split_unclosed by done; eauto].
    apply list_elem_of_split_l in Hr as (host & rest & -> & Hh). rewrite split_brackets by done. eauto.
  - destruct (decide (58 ∈ s)) as [Hs|Hs]; [|rewrite split_nocolon by done; eauto].
    apply list_elem_of_split_r in Hs as (host & port & -> & Hp). rewrite split_plain; eauto.
    intros [r ->]. apply Hno. eauto.
Qed.

Lemma digits_no_colon port : forallb is_digit port = true → 58 ∉ port.
Proof.
  intros Hd Hin. rewrite forallb_forall in Hd. apply list_elem_of_In in Hin. by specialize (Hd 58 Hin).
Qed.

Lemma splitHostPort_of s dh dp host port :
  s ≠ [] → splitHostPortStr s = Ok (host, port) →
  splitHostPort s dh dp =
    Ok (if is_empty host then dh else host,
        if is_empty port then dp else let '(n, ok) := atoi port in if ok : bool then n else dp).
Proof.
  intros Hs Hsplit. unfold splitHostPort. apply is_empty_false in Hs as ->. rewrite Hsplit, res_bind_Ok.
  destruct (is_empty port); [done|]. by destruct (atoi port) as [n []].
Qed.

Lemma atoi_port port dp :
  port ≠ [] → forallb is_digit port = true → decimal port < 2 ^ 63 →
  (if is_empty port then dp else let '(n, ok) := atoi port in if ok : bool then n else dp) = decimal port.
Proof. intros Hne Hd Hlt. apply is_empty_false in Hne as He. by rewrite He, atoi_digits. Qed.

Lemma splitHostPort_total s dh dp :
  ∃ host port, splitHostPort s dh dp = Ok (host, port)
    ∧ (dh ≠ [] → host ≠ []) ∧ (is_i64 dp → is_i64 port).
Proof.
  destruct (decide (s = [])) as [->|Hs]; [by exists dh, dp|].
  destruct (splitHostPortStr_total s) as (host & port & Hsplit).
  rewrite (splitHostPort_of s dh dp host port) by done. do 2 eexists. split; [done|]. split.
  - intros Hdh. destruct (is_empty host) eqn:He; [done|]. by apply is_empty_false in He.
  - intros Hdp. destruct (is_empty port); [done|]. pose proof (atoi_range port).
    by destruct (atoi port) as [n []].
Qed.

(** [splitHostPort] returns on every string, with a host unless the default is
    empty, and a port in range of an [int]; [host:port] and [[host]:port] are taken
    apart, an empty host and a missing port are replaced by the defaults. *)
Theorem splitHostPort_spec dh dp :
  (∀ s, ∃ host port, splitHostPort s dh dp = Ok (host, port)
    ∧ (dh ≠ [] → host ≠ []) ∧ (is_i64 dp → is_i64 port))
  ∧ (∀ host port, ¬ (∃ r, host = 91 :: r) →
      port ≠ [] → forallb is_digit port = true → decimal port < 2 ^ 63 →
      splitHostPort (host ++ str ":" ++ port) dh dp = Ok (defaultStr host dh, decimal port))
  ∧ (∀ host port, 93 ∉ host →
      port ≠ [] → forallb is_digit port = true → decimal port < 2 ^ 63 →
      splitHostPort (str "[" ++ host ++ str "]:" ++ port) dh dp = Ok (defaultStr host dh, decimal port))
  ∧ (∀ host, host ≠ [] → ¬ (∃ r, host = 91 :: r) → 58 ∉ host →
      splitHostPort host dh dp = Ok (host, dp))
  ∧ splitHostPort [] dh dp = Ok (dh, dp).
Proof.
  split_and!; [intros s; apply splitHostPort_total| | | |done].
  - intros host port Hh Hne Hd Hlt. rewrite (splitHostPort_of _ dh dp host port).
    + by rewrite atoi_port.
    + by destruct host.
    + by apply split_plain; [|apply digits_no_colon].
  - intros host port Hh Hne Hd Hlt. rewrite (splitHostPort_of _ dh dp host port); [|done|].
    + by rewrite atoi_port.
    + change (str "[" ++ host ++ str "]:" ++ port) with (91 :: host ++ 93 :: 58 :: port).
      by rewrite split_brackets.
  - intros host Hne Hh Hc. rewrite (splitHostPort_of _ dh dp host []) by (done || by apply split_nocolon).
    apply is_empty_false in Hne as ->. done.
Qed.
Lemma splitHostPort_spec_witness :
  splitHostPort (str "[::1]:25567") (str "127.0.0.1") 25565 = Ok (str "::1", 25567)
  ∧ splitHostPort (str ":19133") (str "0.0.0.0") 19132 = Ok (str "0.0.0.0", 19133).
Proof.
  destruct (splitHostPort_spec (str "127.0.0.1") 25565) as (_ & _ & Hb & _).
  destruct (splitHostPort_spec (str "0.0.0.0") 19132) as (_ & Hp & _). split.
  - apply (Hb (str "::1") (str "25567")); [|done|by vm_compute..].
    apply (bool_decide_unpack _); by vm_compute.
  - apply (Hp [] (str "19133")); [by intros [r Hr]|done|by vm_compute..].
Defined.

(** An IPv6 address without brackets is cut at its last colon. *)
Example split_bare_ipv6 : splitHostPort (str "::1") (str "127.0.0.1") 25565 = Ok (str ":", 1).
Proof. by vm_compute. Qed.

(** ** The map of the typed options *)

Definition knobs (bedrock java advanced_java : gmap bytes scalar) : doc := λ p,
  match p with
  | [] => Some IsMap
  | k :: p =>
      if decide (k = str "bedrock") then flat bedrock p
      else if decide (k = str "java") then flat java p
      else if decide (k = str "advanced") then
        match p with
        | [] => Some IsMap
        | k :: p => if decide (k = str "java") then flat advanced_java p else None
        end
      else None
  end.

Lemma alloc_fresh h m h' l :
  alloc h m = (h', l) → h' = <[l := m]> h ∧ l ≠ 0 ∧ h !! l = None.
Proof.
  unfold alloc. intros [= <- <-]. pose proof (is_fresh ({[0]} ∪ dom h)) as Hf.
  split_and!; [done|set_solver|apply not_elem_of_dom; set_solver].
Qed.

(** What the caller of an allocating function relies on: a tree of new maps. *)
Record allocates (h h' : heap) (l : Z) : Prop := {
  al_tree : tree h' l;
  al_kept c : is_Some (h !! c) → h' !! c = h !! c;
  al_new c : reaches h' (VMap l) c → h !! c = None;
  al_nil : h !! 0 = None → h' !! 0 = None;
}.

Section knobs_heap.
Context (h : heap) (B J AJ : gmap bytes scalar) (h' : heap) (b j aj a l : Z).
Context (Hb : h' !! b = Some (VScalar <$> B)) (Hj : h' !! j = Some (VScalar <$> J)).
Context (Haj : h' !! aj = Some (VScalar <$> AJ)) (Ha : h' !! a = Some {[str "java" := VMap aj]}).
Context (Hl : h' !! l = Some
  (list_to_map [(str "bedrock", VMap b); (str "java", VMap j); (str "advanced", VMap a)])).
Context (Hd : b ≠ j ∧ b ≠ aj ∧ b ≠ a ∧ b ≠ l
  ∧ j ≠ aj ∧ j ≠ a ∧ j ≠ l ∧ aj ≠ a ∧ aj ≠ l ∧ a ≠ l).

Lemma knobs_a k v : entries h' a !! k = Some v ↔ k = str "java" ∧ v = VMap aj.
Proof.
  assert (entries h' a = {[str "java" := VMap aj]}) as -> by (unfold entries; by rewrite Ha).
  rewrite lookup_singleton_Some. naive_solver.
Qed.
Lemma knobs_l k v : entries h' l !! k = Some v ↔
  k = str "bedrock" ∧ v = VMap b ∨ k = str "java" ∧ v = VMap j ∨ k = str "advanced" ∧ v = VMap a.
Proof.
  assert (entries h' l =
    list_to_map [(str "bedrock", VMap b); (str "java", VMap j); (str "advanced", VMap a)]) as ->
    by (unfold entries; by rewrite Hl).
  rewrite <-elem_of_list_to_map by (apply (bool_decide_unpack _); by vm_compute).
  rewrite !elem_of_cons, elem_of_nil. split.
  - intros [[= -> ->]|[[= -> ->]|[[= -> ->]|[]]]]; auto.
  - intros [[-> ->]|[[-> ->]|[-> ->]]]; auto.
Qed.

Lemma knobs_reaches_a c : reaches h' (VMap a) c ↔ c = a ∨ c = aj.
Proof.
  rewrite reaches_node. setoid_rewrite knobs_a. split.
  - intros [->|(k & d & [-> [= ->]] & Hr)]; [by left|right]. by apply (reaches_flat h' aj AJ).
  - intros [->| ->]; [by left|right]. exists (str "java"), aj. split; [done|apply reaches_here].
Qed.
Lemma knobs_reaches c : reaches h' (VMap l) c ↔ c ∈ [b; j; aj; a; l].
Proof.
  rewrite reaches_node. setoid_rewrite knobs_l.
  pose proof (reaches_flat h' b B Hb c). pose proof (reaches_flat h' j J Hj c).
  pose proof (knobs_reaches_a c) as HA. rewrite !elem_of_cons, elem_of_nil. split.
  - intros [->|(k & d & [[-> [= ->]]|[[-> [= ->]]|[-> [= ->]]]] & Hr)]; [by auto 6|tauto..].
  - intros [->|[->|[->|[->|[->|[]]]]]]; [right..|by left].
    + exists (str "bedrock"), b. by auto using reaches_here.
    + exists (str "java"), j. by auto using reaches_here.
    + exists (str "advanced"), a. rewrite knobs_reaches_a. by auto.
    + exists (str "advanced"), a. by auto using reaches_here.
Qed.

Lemma knobs_tree : tree h' l.
Proof.
  destruct Hd as (? & ? & ? & ? & ? & ? & ? & ? & ? & ?).
  assert (tree h' a) as Ta.
  { eapply tree_node; [done|intros k c Hk|intros k k' c c' x Hk Hk' Hne].
    - apply lookup_singleton_Some in Hk as [<- [= <-]]. split; [by eapply tree_flat|].
      rewrite (reaches_flat h' aj AJ) by done. congruence.
    - apply lookup_singleton_Some in Hk as [<- _], Hk' as [<- _]. done. }
  assert (∀ k c, entries h' l !! k = Some (VMap c) → tree h' c ∧ ¬ reaches h' (VMap c) l) as Hkids.
  { intros k c [[-> [= ->]]|[[-> [= ->]]|[-> [= ->]]]]%knobs_l.
    - split; [by eapply tree_flat|]. rewrite (reaches_flat h' b B) by done. congruence.
    - split; [by eapply tree_flat|]. rewrite (reaches_flat h' j J) by done. congruence.
    - split; [done|]. rewrite knobs_reaches_a. by intros [?|?]. }
  assert (entries h' l =
    list_to_map [(str "bedrock", VMap b); (str "java", VMap j); (str "advanced", VMap a)]) as Hel
    by (unfold entries; by rewrite Hl).
  eapply tree_node; [done|rewrite <-Hel; done|rewrite <-Hel].
  intros k k' c c' x Hk%knobs_l Hk'%knobs_l Hne.
  destruct Hk as [[-> [= ->]]|[[-> [= ->]]|[-> [= ->]]]];
    destruct Hk' as [[-> [= ->]]|[[-> [= ->]]|[-> [= ->]]]]; try done;
    rewrite ?(reaches_flat h' b B), ?(reaches_flat h' j J), ?knobs_reaches_a by done;
    intuition congruence.
Qed.

Lemma knobs_shallow : shallow 2 h' (VMap l).
Proof.
  apply shallow_node. intros k d [[-> [= ->]]|[[-> [= ->]]|[-> [= ->]]]]%knobs_l.
  - by eapply shallow_flat.
  - by eapply shallow_flat.
  - apply shallow_node. intros k d' [-> [= ->]]%knobs_a. by eapply shallow_flat.
Qed.

Lemma knobs_read p : read h' (VMap l) p = knobs B J AJ p.
Proof.
  destruct p as [|k p]; [done|]. rewrite read_child. cbn [knobs].
  destruct (entries h' l !! k) as [v|] eqn:Hk.
  - apply knobs_l in Hk. cbn [mbind option_bind].
    destruct Hk as [[-> ->]|[[-> ->]|[-> ->]]].
    + rewrite decide_True by done. by apply read_flat.
    + rewrite decide_False, decide_True by done. by apply read_flat.
    + rewrite 2!decide_False, decide_True by done. destruct p as [|k p]; [done|]. rewrite read_child.
      destruct (entries h' a !! k) as [v|] eqn:Hk.
      * apply knobs_a in Hk as [-> ->]. rewrite decide_True by done. by apply read_flat.
      * destruct (decide (k = str "java")) as [->|]; [|done].
        by rewrite (proj2 (knobs_a _ _) (conj eq_refl eq_refl)) in Hk.
  - cbn [mbind option_bind].
    destruct (decide (k = str "bedrock")) as [->|]; [|destruct (decide (k = str "java")) as [->|];
      [|destruct (decide (k = str "advanced")) as [->|]; [|done]]].
    + rewrite (proj2 (knobs_l (str "bedrock") (VMap b))) in Hk by (by left). done.
    + rewrite (proj2 (knobs_l (str "java") (VMap j))) in Hk by (by right; left). done.
    + rewrite (proj2 (knobs_l (str "advanced") (VMap a))) in Hk by (by right; right). done.
Qed.
End knobs_heap.

Lemma alloc_knobs_spec h B J AJ h' l :
  alloc_knobs h B J AJ = (h', l) →
  allocates h h' l ∧ shallow 2 h' (VMap l) ∧ (∀ p, read h' (VMap l) p = knobs B J AJ p).
Proof.
  unfold alloc_knobs. intros H.
  destruct (alloc h _) as [h1 b] eqn:H1. apply alloc_fresh in H1 as (E1 & Z1 & F1).
  destruct (alloc h1 _) as [h2 j] eqn:H2. apply alloc_fresh in H2 as (E2 & Z2 & F2).
  destruct (alloc h2 _) as [h3 aj] eqn:H3. apply alloc_fresh in H3 as (E3 & Z3 & F3).
  destruct (alloc h3 _) as [h4 a] eqn:H4. apply alloc_fresh in H4 as (E4 & Z4 & F4).
  apply alloc_fresh in H as (E5 & Z5 & F5).
  subst h1. apply lookup_insert_None in F2 as [F2 N21].
  subst h2. rewrite !lookup_insert_None in F3. destruct F3 as ((F3 & N31) & N32).
  subst h3. rewrite !lookup_insert_None in F4. destruct F4 as (((F4 & N41) & N42) & N43).
  subst h4. rewrite !lookup_insert_None in F5. destruct F5 as ((((F5 & N51) & N52) & N53) & N54).
  assert (b ≠ j ∧ b ≠ aj ∧ b ≠ a ∧ b ≠ l
    ∧ j ≠ aj ∧ j ≠ a ∧ j ≠ l ∧ aj ≠ a ∧ aj ≠ l ∧ a ≠ l) as Hd
    by (split_and!; congruence).
  assert (h' !! b = Some (VScalar <$> B) ∧ h' !! j = Some (VScalar <$> J)
    ∧ h' !! aj = Some (VScalar <$> AJ) ∧ h' !! a = Some {[str "java" := VMap aj]}
    ∧ h' !! l = Some
        (list_to_map [(str "bedrock", VMap b); (str "java", VMap j); (str "advanced", VMap a)]))
    as (Lb & Lj & Laj & La & Ll).
  { subst h'. split_and!; rewrite ?lookup_insert_ne by congruence; by rewrite lookup_insert_eq. }
  assert (∀ c, c ∈ [b; j; aj; a; l] → h !! c = None ∧ c ≠ 0) as Hnew.
  { intros c. rewrite !elem_of_cons, elem_of_nil. by intros [->|[->|[->|[->|[->|[]]]]]]. }
  assert (∀ c, c ∉ [b; j; aj; a; l] → h' !! c = h !! c) as Hold.
  { intros c. rewrite !not_elem_of_cons. intros (? & ? & ? & ? & ? & _). subst h'.
    by rewrite !lookup_insert_ne. }
  split; [|split].
  - split.
    + by eapply (knobs_tree B J AJ h' b j aj a l).
    + intros c Hc. apply Hold. intros Hin%Hnew. destruct Hin as [Hin _]. rewrite Hin in Hc. by destruct Hc.
    + intros c. rewrite (knobs_reaches B J AJ h' b j aj a l) by done. apply Hnew.
    + intros H0. rewrite Hold; [done|]. by intros [_ ?]%Hnew.
  - by eapply (knobs_shallow B J AJ h' b j aj a l).
  - by eapply (knobs_read B J AJ h' b j aj a l).
Qed.

(** ** The whole configuration *)

(** The document with one key. *)
Definition key_doc (k : bytes) (s : scalar) : doc := flat {[k := s]}.

Section put_scalar.
Context (h : heap) (l : Z) (k : bytes) (s : scalar) (m : gomap) (Hl : h !! l = Some m).
Context (Ht : tree h l).
Let h' := <[l := <[k := VScalar s]> m]> h.

Lemma put_entries : entries h' l = <[k := VScalar s]> (entries h l).
Proof. unfold entries, h'. by rewrite lookup_insert_eq, Hl. Qed.

Lemma put_value_at k' p :
  value_at h' (VMap l) (k' :: p) =
    if decide (k' = k) then match p with [] => Some (VScalar s) | _ => None end
    else value_at h (VMap l) (k' :: p).
Proof.
  cbn [value_at]. rewrite put_entries. destruct (decide (k' = k)) as [->|Hne].
  - rewrite lookup_insert_eq. by destruct p.
  - rewrite lookup_insert_ne by done. destruct (entries h l !! k') as [v|] eqn:Hk; [|done].
    cbn. apply value_at_frame. intros c Hc. unfold h'. rewrite lookup_insert_ne; [done|].
    intros <-. by eapply tree_root.
Qed.

Lemma put_value_map p c :
  value_at h' (VMap l) p = Some (VMap c) → value_at h (VMap l) p = Some (VMap c).
Proof.
  destruct p as [|k' p]; [done|]. rewrite put_value_at. destruct (decide _); [by destruct p|done].
Qed.

Lemma put_tree : tree h' l.
Proof.
  intros p c Hp. apply put_value_map in Hp as Hp'. destruct (Ht p c Hp') as [Ha Hu]. split.
  - unfold h'. destruct (decide (l = c)) as [<-|]; [rewrite lookup_insert_eq; eauto|].
    by rewrite lookup_insert_ne.
  - intros q Hq. apply Hu. by apply put_value_map.
Qed.

Lemma put_reaches c : reaches h' (VMap l) c → reaches h (VMap l) c.
Proof. intros [p Hp]. exists p. by apply put_value_map. Qed.

Lemma put_read p : read h' (VMap l) p = overlay (read h (VMap l)) (key_doc k s) p.
Proof.
  destruct p as [|k' p]; [done|]. cbn [overlay]. unfold read at 1. rewrite put_value_at.
  unfold key_doc. cbn [flat]. destruct (decide (k' = k)) as [->|Hne].
  - rewrite lookup_singleton_eq. cbn [fmap option_fmap option_map].
    destruct (read h (VMap l) [k]) as [[|]|]; by destruct p.
  - rewrite lookup_singleton_ne by done. by destruct (read h (VMap l) [k']) as [[|]|].
Qed.
End put_scalar.

Lemma overlay_empty D h l p : size (entries h l) = 0%nat → D [] = Some IsMap →
  overlay D (read h (VMap l)) p = D p.
Proof.
  intros Hs%map_size_empty_iff Hd. destruct p as [|k p]; [done|]. apply overlay_absent.
  by rewrite read_key, Hs, lookup_empty.
Qed.

(** The heap as the caller left it: nil is not a map, and addresses are not dangling. *)
Definition closed (h : heap) (l : Z) : Prop :=
  h !! 0 = None ∧ ∀ c, reaches h (VMap l) c → c = 0 ∨ is_Some (h !! c).

Section build.
Context (iter : map_order) (Hiter : is_order iter) (h : heap) (cfg : Z).

(** New maps, and maps from before, are apart. *)
Lemma allocates_alive h1 c : allocates h h1 cfg → reaches h1 (VMap cfg) c → is_Some (h1 !! c).
Proof. intros A [p Hp]. by destruct (al_tree _ _ _ A p c Hp). Qed.

Lemma merge_knobs n h1 h2 k B J AJ :
  allocates h h1 cfg → alloc_knobs h1 B J AJ = (h2, k) → (2 ≤ n)%nat →
  ∃ h3, mergeMap iter (S n) h2 cfg k = Ok h3 ∧ allocates h h3 cfg
    ∧ ∀ p, read h3 (VMap cfg) p = overlay (read h1 (VMap cfg)) (knobs B J AJ) p.
Proof.
  intros A Hk Hn. apply alloc_knobs_spec in Hk as (K & Hs & Hr).
  assert (∀ c, reaches h1 (VMap cfg) c → h2 !! c = h1 !! c) as Fc.
  { intros c Hc. apply (al_kept _ _ _ K). by eapply allocates_alive. }
  assert (∀ c, is_Some (h !! c) → ¬ reaches h2 (VMap cfg) c ∧ ¬ reaches h2 (VMap k) c
    ∧ h2 !! c = h !! c) as Fh.
  { intros c Hc. pose proof (al_kept _ _ _ A c Hc) as H1. split_and!.
    - rewrite (reaches_frame h1 h2) by done. intros Hn1%(al_new _ _ _ A). rewrite Hn1 in Hc. by destruct Hc.
    - intros Hn1%(al_new _ _ _ K). rewrite H1 in Hn1. rewrite Hn1 in Hc. by destruct Hc.
    - rewrite (al_kept _ _ _ K); [done|]. by rewrite H1. }
  destruct (mergeMap_merged iter Hiter n h2 cfg k) as (h3 & Hm & M).
  - eapply tree_frame; [done|apply A].
  - intros c. rewrite (reaches_frame h1 h2) by done. intros Hc Hck%(al_new _ _ _ K).
    destruct (allocates_alive h1 c A Hc). congruence.
  - by eapply shallow_le.
  - exists h3. split_and!; [done| |].
    + split.
      * apply (mg_tree _ _ _ _ M), K.
      * intros c Hc. destruct (Fh c Hc) as (? & ? & <-). by apply M.
      * intros c [Hc|Hc]%(mg_reach _ _ _ _ M); apply eq_None_not_Some; intros Hc';
          destruct (Fh c Hc') as (? & ? & _); done.
      * intros H0. rewrite (mg_off _ _ _ _ M); [by apply (al_nil _ _ _ K), (al_nil _ _ _ A)|].
        rewrite (reaches_frame h1 h2) by done. intros Hc%(allocates_alive h1 0 A).
        rewrite (al_nil _ _ _ A H0) in Hc. by destruct Hc.
    + intros p. rewrite (mg_read _ _ _ _ M). apply overlay_ext; [|done].
      intros q. by apply read_frame.
Qed.

Lemma put_knob h1 k s :
  allocates h h1 cfg →
  ∃ h2, put h1 cfg k (VScalar s) = Ok h2 ∧ allocates h h2 cfg
    ∧ ∀ p, read h2 (VMap cfg) p = overlay (read h1 (VMap cfg)) (key_doc k s) p.
Proof.
  intros A. destruct (allocates_alive h1 cfg A (reaches_here h1 cfg)) as [m Hm].
  pose proof (al_new _ _ _ A cfg (reaches_here h1 cfg)) as Hnew.
  eexists. split; [unfold put; by rewrite Hm|]. split.
  - split.
    + apply put_tree; [done|apply A].
    + intros c Hc. rewrite lookup_insert_ne; [by apply A|]. intros <-. rewrite Hnew in Hc. by destruct Hc.
    + intros c Hc. apply A. eapply put_reaches; [done|apply A|done].
    + intros H0. rewrite lookup_insert_ne; [by apply (al_nil _ _ _ A)|].
      intros ->. rewrite (al_nil _ _ _ A H0) in Hm. done.
  - intros p. apply put_read; [done|apply A].
Qed.

Lemma merge_overrides n h1 ov :
  allocates h h1 cfg → closed h ov → shallow n h (VMap ov) →
  ∃ h2, mergeMap iter (S n) h1 cfg ov = Ok h2
    ∧ (∀ p, read h2 (VMap cfg) p = overlay (read h1 (VMap cfg)) (read h (VMap ov)) p)
    ∧ (∀ c, is_Some (h !! c) → h2 !! c = h !! c).
Proof.
  intros A [H0 Hcl] Hn.
  assert (∀ c, reaches h (VMap ov) c → h1 !! c = h !! c) as Fo.
  { intros c Hc. destruct (Hcl c Hc) as [->|Hs]; [|by apply A].
    rewrite H0. by apply (al_nil _ _ _ A). }
  assert (∀ c, is_Some (h !! c) → ¬ reaches h1 (VMap cfg) c) as Fn.
  { intros c Hc Hr%(al_new _ _ _ A). rewrite Hr in Hc. by destruct Hc. }
  destruct (mergeMap_merged iter Hiter n h1 cfg ov) as (h2 & Hm & M).
  - apply A.
  - intros c Hc. rewrite (reaches_frame h h1) by done. intros Ho.
    destruct (Hcl c Ho) as [->|Hs]; [|by eapply Fn].
    apply (allocates_alive h1 0 A) in Hc. rewrite (al_nil _ _ _ A H0) in Hc. by destruct Hc.
  - by apply (shallow_frame h).
  - exists h2. split_and!; [done| |].
    + intros p. rewrite (mg_read _ _ _ _ M). apply overlay_ext; [done|]. intros q. by apply read_frame.
    + intros c Hc. rewrite (mg_off _ _ _ _ M) by (by apply Fn). by apply A.
Qed.

(** The documents, from the baseline up. *)
Definition typed_doc (opts : Options) (base : doc) (la : bytes) (lp : Z) (ua : bytes) (up : Z) : doc :=
  let D := overlay base (knobs (bedrock_knobs opts la lp) (java_knobs opts ua up) (advanced_java_knobs opts)) in
  if AuthType_of opts =? Floodgate
  then overlay D (key_doc (str "floodgate-key-file") (SStr (str "key.bin"))) else D.

Lemma buildConfigMap_ok unmarshal n opts h1 la lp ua up :
  unmarshal baselineConfigYAML h = Some (h1, cfg) → allocates h h1 cfg →
  closed h (ConfigOverrides opts) → shallow n h (VMap (ConfigOverrides opts)) → (2 ≤ n)%nat →
  splitHostPort (Listen opts) (str "0.0.0.0") 19132 = Ok (la, lp) →
  splitHostPort (Upstream opts) (str "127.0.0.1") 25565 = Ok (ua, up) →
  ∃ h', buildConfigMap iter unmarshal (S n) h opts = Ok (h', cfg)
    ∧ (∀ p, read h' (VMap cfg) p =
         overlay (typed_doc opts (read h1 (VMap cfg)) la lp ua up)
           (read h (VMap (ConfigOverrides opts))) p)
    ∧ (∀ c, is_Some (h !! c) → h' !! c = h !! c).
Proof.
  intros Hu A Hcl Hs Hn Hl Hup. unfold buildConfigMap. rewrite Hu, res_bind_Ok, Hl, res_bind_Ok, Hup, res_bind_Ok.
  destruct (alloc_knobs h1 _ _ _) as [h2 k] eqn:Hk.
  destruct (merge_knobs n h1 h2 k _ _ _ A Hk Hn) as (h3 & -> & A3 & R3). rewrite res_bind_Ok.
  assert (∃ h4, (if AuthType_of opts =? Floodgate
     then put h3 cfg (str "floodgate-key-file") (VScalar (SStr (str "key.bin"))) else Ok h3) = Ok h4
     ∧ allocates h h4 cfg
     ∧ ∀ p, read h4 (VMap cfg) p = typed_doc opts (read h1 (VMap cfg)) la lp ua up p) as (h4 & -> & A4 & R4).
  { unfold typed_doc. destruct (AuthType_of opts =? Floodgate); [|by exists h3].
    destruct (put_knob h3 (str "floodgate-key-file") (SStr (str "key.bin")) A3) as (h4 & -> & A4 & R4).
    exists h4. split_and!; [done..|]. intros p. rewrite R4. by apply overlay_ext. }
  rewrite res_bind_Ok. set (ov := ConfigOverrides opts) in *.
  assert (entries h4 ov = entries h ov) as He.
  { unfold entries. destruct Hcl as [H0 Hcl]. destruct (Hcl ov (reaches_here h ov)) as [->|Ha].
    - by rewrite (al_nil _ _ _ A4 H0), H0.
    - by rewrite (al_kept _ _ _ A4 ov Ha). }
  rewrite He. destruct (0 <? _) eqn:Hsz.
  - destruct (merge_overrides n h4 ov A4 Hcl Hs) as (h5 & -> & R5 & K5). rewrite res_bind_Ok.
    exists h5. split_and!; [done| |done]. intros p. rewrite R5. by apply overlay_ext.
  - exists h4. split_and!; [done| |apply A4]. intros p.
    rewrite R4, overlay_empty; [done|lia|]. by rewrite <-R4.
Qed.
End build.

(** A typed option under the overrides. *)
Lemma typed_doc_knob base opts la lp ua up k f s :
  knobs (bedrock_knobs opts la lp) (java_knobs opts ua up) (advanced_java_knobs opts) [k; f] = Some (IsScalar s) →
  typed_doc opts base la lp ua up [k] = Some IsMap
  ∧ typed_doc opts base la lp ua up [k; f] = Some (IsScalar s).
Proof.
  set (K := knobs _ _ _). intros HK.
  assert (K [k] = Some IsMap ∧ k ≠ str "floodgate-key-file") as [Hk Hkey].
  { unfold K, knobs in *. repeat (destruct (decide _) as [->|]; [done|]). done. }
  assert (∀ D, overlay D K [k] = Some IsMap) as Hm1.
  { intros D. cbn [overlay]. rewrite Hk. unfold sub. by destruct (D [k]) as [[|]|] eqn:HD. }
  assert (∀ D, overlay D K [k; f] = Some (IsScalar s)) as Hm2.
  { intros D. destruct (D [k]) as [[|s']|] eqn:HD.
    - rewrite overlay_below by done. cbn [overlay]. unfold sub. rewrite HK. by destruct (D [k; f]) as [[|]|].
    - cbn [overlay]. by rewrite HD, Hk.
    - cbn [overlay]. by rewrite HD, Hk. }
  unfold typed_doc. fold K. destruct (_ =? Floodgate); [|done].
  assert (∀ s', key_doc (str "floodgate-key-file") s' [k] = None) as Hnk.
  { intros s'. unfold key_doc. cbn [flat]. by rewrite lookup_singleton_ne by congruence. }
  cbv zeta. split; (rewrite overlay_absent; [|apply Hnk]); [apply Hm1|apply Hm2].
Qed.
(** ... that an override neither names nor covers. *)
Lemma typed_survives base opts la lp ua up ov l k f s :
  knobs (bedrock_knobs opts la lp) (java_knobs opts ua up) (advanced_java_knobs opts) [k; f] = Some (IsScalar s) →
  read ov (VMap l) [k; f] = None → (∀ s', read ov (VMap l) [k] ≠ Some (IsScalar s')) →
  overlay (typed_doc opts base la lp ua up) (read ov (VMap l)) [k; f] = Some (IsScalar s).
Proof.
  intros HK Hno Hns. destruct (typed_doc_knob base opts la lp ua up k f s HK) as [HT1 HT2].
  destruct (read ov (VMap l) [k]) as [[|s']|] eqn:Ho.
  - rewrite overlay_below by done. cbn [overlay]. unfold sub. rewrite Hno, HT2. done.
  - by destruct (Hns s').
  - by rewrite overlay_absent.
Qed.

(** C32: whenever the baseline parses, [buildConfigMap] returns a configuration, on any
    overrides without cycles and in any order of ranging. It reads as the baseline under
    the typed options under the overrides: every scalar override is in it; every typed
    option is in it unless an override names it or replaces its section; and no map the
    caller holds, those of the overrides among them, is modified. *)
Theorem buildConfigMap_spec iter unmarshal n h opts h1 cfg :
  is_order iter →
  unmarshal baselineConfigYAML h = Some (h1, cfg) → allocates h h1 cfg →
  closed h (ConfigOverrides opts) → shallow n h (VMap (ConfigOverrides opts)) → (2 ≤ n)%nat →
  ∃ h' la lp ua up,
    buildConfigMap iter unmarshal (S n) h opts = Ok (h', cfg)
    ∧ splitHostPort (Listen opts) (str "0.0.0.0") 19132 = Ok (la, lp)
    ∧ splitHostPort (Upstream opts) (str "127.0.0.1") 25565 = Ok (ua, up)
    ∧ (∀ p, read h' (VMap cfg) p =
         overlay (typed_doc opts (read h1 (VMap cfg)) la lp ua up)
           (read h (VMap (ConfigOverrides opts))) p)
    ∧ (∀ p s, p ≠ [] → read h (VMap (ConfigOverrides opts)) p = Some (IsScalar s) →
         read h' (VMap cfg) p = Some (IsScalar s))
    ∧ (∀ k f s,
         knobs (bedrock_knobs opts la lp) (java_knobs opts ua up) (advanced_java_knobs opts) [k; f]
           = Some (IsScalar s) →
         read h (VMap (ConfigOverrides opts)) [k; f] = None →
         (∀ s', read h (VMap (ConfigOverrides opts)) [k] ≠ Some (IsScalar s')) →
         read h' (VMap cfg) [k; f] = Some (IsScalar s))
    ∧ (∀ c, is_Some (h !! c) → h' !! c = h !! c).
Proof.
  intros Hi Hu A Hcl Hs Hn.
  destruct (splitHostPort_total (Listen opts) (str "0.0.0.0") 19132) as (la & lp & Hl & _).
  destruct (splitHostPort_total (Upstream opts) (str "127.0.0.1") 25565) as (ua & up & Hup & _).
  destruct (buildConfigMap_ok iter Hi h cfg unmarshal n opts h1 la lp ua up) as (h' & Hb & Hr & Hk); [done..|].
  exists h', la, lp, ua, up. split_and!; [done..| | |done].
  - intros p s Hp Ho. rewrite Hr. by apply overlay_scalar.
  - intros k f s HK Ho Hns. rewrite Hr. by apply typed_survives.
Qed.

(** ** Types

    A schema gives some paths a type; a document has it if at each of them it has a value of
    that type, or nothing. *)

Inductive ty := TMap | TStr | TInt | TBool.
Abbreviation schema := (list bytes → option ty).

Definition has_type (s : shape) (t : ty) : Prop :=
  match s, t with
  | IsMap, TMap | IsScalar (SStr _), TStr | IsScalar (SInt _), TInt | IsScalar (SBool _), TBool => True
  | _, _ => False
  end.
Definition well_typed (G : schema) (D : doc) : Prop := ∀ p s t, D p = Some s → G p = Some t → has_type s t.

#[global] Instance has_type_dec s t : Decision (has_type s t).
Proof. destruct s as [|[]], t; apply _. Defined.

Definition ty_of (s : scalar) : option ty :=
  match s with SStr _ => Some TStr | SInt _ => Some TInt | SBool _ => Some TBool | SStrs _ | SOther _ => None end.

(** What Geyser reads at the paths the typed options set. *)
Definition bedrock_fields : list (bytes * ty) :=
  [(str "address", TStr); (str "port", TInt); (str "motd1", TStr); (str "motd2", TStr); (str "server-name", TStr)].
Definition java_fields : list (bytes * ty) :=
  [(str "address", TStr); (str "port", TInt); (str "auth-type", TStr); (str "forward-hostname", TBool)].
Definition advanced_java_fields : list (bytes * ty) := [(str "use-haproxy-protocol", TBool)].
Definition field_types (fields : list (bytes * ty)) (p : list bytes) : option ty :=
  match p with
  | [] => Some TMap
  | [k] => (list_to_map fields : gmap bytes ty) !! k
  | _ => None
  end.
Definition config_schema : schema := λ p,
  match p with
  | [] => Some TMap
  | k :: p =>
      if decide (k = str "bedrock") then field_types bedrock_fields p
      else if decide (k = str "java") then field_types java_fields p
      else if decide (k = str "floodgate-key-file") then match p with [] => Some TStr | _ => None end
      else if decide (k = str "advanced") then
        match p with
        | [] => Some TMap
        | k :: p => if decide (k = str "java") then field_types advanced_java_fields p else None
        end
      else None
  end.

(** A value of an overlay is one of either document. *)
Lemma overlay_either D S p : overlay D S p = D p ∨ overlay D S p = S p.
Proof.
  revert D S. induction p as [|k p IH]; intros D S; cbn [overlay]; [by left|].
  destruct (D [k]) as [[|]|], (S [k]) as [[|]|]; try (by left); try (by right).
  destruct (IH (sub D k) (sub S k)) as [-> | ->]; [by left|by right].
Qed.
Lemma overlay_typed G D S : well_typed G D → well_typed G S → well_typed G (overlay D S).
Proof. intros HD HS p s t Ho. destruct (overlay_either D S p) as [He|He]; rewrite He in Ho; eauto. Qed.

(** The names of the fields with their types. *)
Definition conforms (m : gmap bytes scalar) (fields : list (bytes * ty)) : Prop :=
  ∀ k, (m !! k ≫= ty_of) = (list_to_map fields : gmap bytes ty) !! k.
Lemma flat_typed m fields p s t :
  conforms m fields → flat m p = Some s → field_types fields p = Some t → has_type s t.
Proof.
  intros Hm. destruct p as [|k [|? ?]]; cbn; [by intros [= <-] [= <-]| |done].
  rewrite <-(Hm k). destruct (m !! k) as [[]|]; cbn; by intros [= <-] [= <-].
Qed.
Lemma flat_present m fields k t :
  conforms m fields → field_types fields [k] = Some t → ∃ s, flat m [k] = Some (IsScalar s).
Proof. cbn. intros <-. destruct (m !! k) as [s|]; [by exists s|done]. Qed.
Lemma list_conforms (l : list (bytes * scalar)) fields :
  (prod_map id ty_of <$> l) = (prod_map id Some <$> fields) → conforms (list_to_map l) fields.
Proof.
  intros Hl k. revert fields Hl. induction l as [|[k1 s1] l IH]; intros [|[k2 t2] fields]; try done. cbn. intros [= -> Ht Hl].
  destruct (decide (k = k2)) as [->|]; [by rewrite !lookup_insert_eq|]. rewrite !lookup_insert_ne by done. by apply IH.
Qed.
Lemma bedrock_conforms opts a n : conforms (bedrock_knobs opts a n) bedrock_fields.
Proof. by apply list_conforms. Qed.
Lemma java_conforms opts a n : conforms (java_knobs opts a n) java_fields.
Proof. by apply list_conforms. Qed.
Lemma knobs_typed opts la lp ua up :
  well_typed config_schema (knobs (bedrock_knobs opts la lp) (java_knobs opts ua up) (advanced_java_knobs opts)).
Proof.
  intros [|k p] s t; cbn [knobs config_schema]; [by intros [= <-] [= <-]|].
  destruct (decide (k = str "bedrock")); [apply flat_typed, bedrock_conforms|].
  destruct (decide (k = str "java")); [apply flat_typed, java_conforms|].
  destruct (decide (k = str "advanced")) as [->|]; [|done].
  destruct (decide (str "advanced" = str "floodgate-key-file")) as [He|_]; [by vm_compute in He|].
  destruct p as [|k p]; [by intros [= <-] [= <-]|].
  destruct (decide (k = str "java")); [|done]. by apply flat_typed, list_conforms.
Qed.
Lemma typed_doc_typed opts base la lp ua up :
  well_typed config_schema base → well_typed config_schema (typed_doc opts base la lp ua up).
Proof.
  intros Hb. unfold typed_doc. cbv zeta. pose proof (overlay_typed _ _ _ Hb (knobs_typed opts la lp ua up)) as Ht.
  destruct (_ =? Floodgate); [|done]. apply overlay_typed; [done|].
  intros p s t. unfold key_doc. destruct p as [|k [|k2 p]]; cbn [flat]; [by intros [= <-] [= <-]| |done].
  destruct (decide (k = str "floodgate-key-file")) as [->|Hne]; [|by rewrite lookup_singleton_ne by congruence].
  rewrite lookup_singleton_eq. intros [= <-] Ht'. vm_compute in Ht'. by injection Ht' as <-.
Qed.

(** An option of a section stays, possibly overridden. *)
Lemma overlay_present D S k f :
  well_typed config_schema S → config_schema [k] = Some TMap →
  D [k] = Some IsMap → is_Some (D [k; f]) → is_Some (overlay D S [k; f]).
Proof.
  intros HS HG Hk Hf. destruct (S [k]) as [sh|] eqn:Hs; [|by rewrite overlay_absent].
  pose proof (HS _ _ _ Hs HG) as Ht. destruct sh as [|[]]; try done.
  rewrite overlay_below by done. cbn [overlay]. unfold sub.
  destruct Hf as [s Hf]. rewrite Hf. destruct s as [|s], (S [k; f]) as [[|]|]; eauto.
Qed.
Lemma knob_section B J AJ k f s : knobs B J AJ [k; f] = Some (IsScalar s) → config_schema [k] = Some TMap.
Proof.
  unfold knobs, config_schema. destruct (decide _) as [->|]; [done|]. destruct (decide _) as [->|]; [done|].
  destruct (decide _) as [->|]; [|done]. by destruct (decide _).
Qed.

(** C17: configurations are well typed: if the baseline and the overrides have, at each path
    that the typed options set, a value of the type Geyser reads there or nothing, then
    [buildConfigMap] returns a configuration that does too, whatever the options and the
    order of ranging, and in which every option of the sections [bedrock] and [java] has a
    value: with overrides that respect the types no option can be lost, or be rendered as a
    value of the wrong type. *)
Theorem config_well_typed iter unmarshal n h opts h1 cfg :
  is_order iter →
  unmarshal baselineConfigYAML h = Some (h1, cfg) → allocates h h1 cfg →
  closed h (ConfigOverrides opts) → shallow n h (VMap (ConfigOverrides opts)) → (2 ≤ n)%nat →
  well_typed config_schema (read h1 (VMap cfg)) →
  well_typed config_schema (read h (VMap (ConfigOverrides opts))) →
  ∃ h', buildConfigMap iter unmarshal (S n) h opts = Ok (h', cfg)
    ∧ well_typed config_schema (read h' (VMap cfg))
    ∧ ∀ k f t, k = str "bedrock" ∨ k = str "java" → config_schema [k; f] = Some t →
        ∃ s, read h' (VMap cfg) [k; f] = Some s ∧ has_type s t.
Proof.
  intros Hi Hu A Hcl Hs Hn Hbase Hov.
  destruct (splitHostPort_total (Listen opts) (str "0.0.0.0") 19132) as (la & lp & Hl & _).
  destruct (splitHostPort_total (Upstream opts) (str "127.0.0.1") 25565) as (ua & up & Hup & _).
  destruct (buildConfigMap_ok iter Hi h cfg unmarshal n opts h1 la lp ua up) as (h' & Hb & Hr & _); [done..|].
  assert (well_typed config_schema (read h' (VMap cfg))) as Ht.
  { intros p s t. rewrite Hr. by apply overlay_typed; [apply typed_doc_typed|]. }
  exists h'. split_and!; [done..|]. intros k f t Hk Hf.
  assert (∃ s, knobs (bedrock_knobs opts la lp) (java_knobs opts ua up) (advanced_java_knobs opts) [k; f]
    = Some (IsScalar s)) as [s HK].
  { destruct Hk as [-> | ->].
    - exact (flat_present (bedrock_knobs opts la lp) bedrock_fields f t (bedrock_conforms _ _ _) Hf).
    - exact (flat_present (java_knobs opts ua up) java_fields f t (java_conforms _ _ _) Hf). }
  destruct (typed_doc_knob (read h1 (VMap cfg)) _ _ _ _ _ _ _ _ HK) as [H1 H2].
  destruct (overlay_present (typed_doc opts (read h1 (VMap cfg)) la lp ua up) (read h (VMap (ConfigOverrides opts))) k f)
    as [s' Hs']; [done|by eapply knob_section|done|by rewrite H2|].
  exists s'. rewrite Hr. split; [done|]. apply (Ht [k; f]); [|done]. by rewrite Hr.
Qed.


Module demo.
Definition unmarshal (text : bytes) (h : heap) : option (heap * Z) :=
  Some (alloc h (VScalar <$> list_to_map [(str "mtu", SInt 1400)])).
Definition h0 : heap := list_to_map
  [(7, {[str "bedrock" := VMap 8]}); (8, VScalar <$> list_to_map [(str "port", SInt 19999)])].
Definition opts : Options :=
  MkOptions (str ":19132") (str "127.0.0.1:25567") Floodgate (zrep 16 1) (Motd [] []) ModeEmbedded
    [] [] None None None 0 [] [] false 7.

Lemma alloc_flat h m h1 l : alloc h (VScalar <$> m) = (h1, l) → allocates h h1 l.
Proof.
  intros (-> & Hz & Hf)%alloc_fresh.
  assert (<[l := VScalar <$> m]> h !! l = Some (VScalar <$> m)) as Hl by (by rewrite lookup_insert_eq).
  split.
  - by eapply tree_flat.
  - intros c Hc. rewrite lookup_insert_ne; [done|]. intros <-. rewrite Hf in Hc. by destruct Hc.
  - intros c Hc. apply (reaches_flat _ _ _ Hl) in Hc as ->. done.
  - intros H0. by rewrite lookup_insert_ne.
Qed.
Lemma h0_kids k d : entries h0 7 !! k = Some (VMap d) → d = 8.
Proof.
  change (entries h0 7) with ({[str "bedrock" := VMap 8]} : gomap).
  by intros [_ [= <-]]%lookup_singleton_Some.
Qed.
Lemma h0_closed : closed h0 7.
Proof.
  split; [done|]. intros c [->|(k & d & Hk & Hr)]%reaches_node; [right; eexists; reflexivity|].
  apply h0_kids in Hk as ->. apply (reaches_flat h0 8 _ eq_refl) in Hr as ->. right. eexists; reflexivity.
Qed.
Lemma h0_shallow : shallow 2 h0 (VMap 7).
Proof.
  apply (shallow_le 1 2); [lia|]. apply shallow_node. intros k d ->%h0_kids. by eapply shallow_flat.
Qed.
Lemma h0_typed : well_typed config_schema (read h0 (VMap 7)).
Proof.
  assert (∀ p s, read h0 (VMap 7) p = Some s →
    p = [] ∧ s = IsMap ∨ p = [str "bedrock"] ∧ s = IsMap ∨ p = [str "bedrock"; str "port"] ∧ s = IsScalar (SInt 19999)) as Hall.
  { unfold read. intros [|k p] s; cbn [value_at]; [intros [= <-]; auto|]. change (entries h0 7) with ({[str "bedrock" := VMap 8]} : gomap).
    destruct (decide (k = str "bedrock")) as [->|]; [rewrite lookup_singleton_eq|by rewrite lookup_singleton_ne].
    destruct p as [|f p]; cbn [value_at mbind option_bind]; [intros [= <-]; auto|].
    change (entries h0 8) with ({[str "port" := VScalar (SInt 19999)]} : gomap).
    destruct (decide (f = str "port")) as [->|]; [rewrite lookup_singleton_eq|by rewrite lookup_singleton_ne].
    destruct p; cbn [value_at mbind option_bind]; [intros [= <-]; auto|done]. }
  intros p s t [[-> ->]|[[-> ->]|[-> ->]]]%Hall Ht; vm_compute in Ht; injection Ht as <-; done.
Qed.
Lemma base_typed h1 l :
  h1 !! l = Some (VScalar <$> list_to_map [(str "mtu", SInt 1400)]) → well_typed config_schema (read h1 (VMap l)).
Proof.
  intros Hl [|k p] s t; cbn; [by intros [= <-] [= <-]|].
  assert (entries h1 l = VScalar <$> list_to_map [(str "mtu", SInt 1400)]) as -> by (unfold entries; by rewrite Hl).
  destruct (decide (k = str "mtu")) as [->|Hne].
  - intros _ Ht. by vm_compute in Ht.
  - rewrite lookup_fmap. cbn. by rewrite lookup_insert_ne by done.
Qed.
End demo.

Lemma buildConfigMap_spec_witness :
  ∃ h' cfg, buildConfigMap (λ _ _ m, map_to_list m) demo.unmarshal 3 demo.h0 demo.opts = Ok (h', cfg)
    ∧ read h' (VMap cfg) [str "bedrock"; str "port"] = Some (IsScalar (SInt 19999))
    ∧ read h' (VMap cfg) [str "java"; str "port"] = Some (IsScalar (SInt 25567)).
Proof.
  destruct (alloc demo.h0 (VScalar <$> list_to_map [(str "mtu", SInt 1400)])) as [h1 cfg] eqn:Ha.
  destruct (buildConfigMap_spec (λ _ _ m, map_to_list m) demo.unmarshal 2 demo.h0 demo.opts h1 cfg)
    as (h' & la & lp & ua & up & Hb & Hl & Hup & _ & Hov & Hty & _).
  - by intros ???.
  - unfold demo.unmarshal. by rewrite Ha.
  - by eapply demo.alloc_flat.
  - exact demo.h0_closed.
  - exact demo.h0_shallow.
  - done.
  - exists h', cfg. split_and!; [done| |].
    + apply Hov; [done|]. by vm_compute.
    + assert (splitHostPort (Upstream demo.opts) (str "127.0.0.1") 25565 = Ok (str "127.0.0.1", 25567)) as Hv
        by (by vm_compute).
      rewrite Hv in Hup. injection Hup as <- <-. apply Hty; [by vm_compute..|]. intros s'. by vm_compute.
Defined.

Lemma config_well_typed_witness :
  ∃ h' cfg s, buildConfigMap (λ _ _ m, map_to_list m) demo.unmarshal 3 demo.h0 demo.opts = Ok (h', cfg)
    ∧ read h' (VMap cfg) [str "bedrock"; str "port"] = Some s ∧ has_type s TInt.
Proof.
  destruct (alloc demo.h0 (VScalar <$> list_to_map [(str "mtu", SInt 1400)])) as [h1 cfg] eqn:Ha.
  destruct (config_well_typed (λ _ _ m, map_to_list m) demo.unmarshal 2 demo.h0 demo.opts h1 cfg)
    as (h' & Hb & _ & Hf).
  - by intros ???.
  - unfold demo.unmarshal. by rewrite Ha.
  - by eapply demo.alloc_flat.
  - exact demo.h0_closed.
  - exact demo.h0_shallow.
  - done.
  - apply demo.base_typed. apply alloc_fresh in Ha as (-> & _ & _). by rewrite lookup_insert_eq.
  - exact demo.h0_typed.
  - destruct (Hf (str "bedrock") (str "port") TInt) as (s & Hs & Ht); [by left|by vm_compute|].
    exists h', cfg, s. exact (conj Hb (conj Hs Ht)).
Defined.
