(* ===== verification/Server.v ===== *)
(** * The life of a server (server.go)

    [Start] and [Stop] may be called from any number of goroutines. Each is cut where
    another goroutine can run: [Start] into the locked prologue, the return of
    [runner.run], the deferred [cancel] and the deferred [close(s.done)]; [Stop] into the
    locked prologue, the call of [cancel] and the [select]. An error a runner returned is
    an [E]. *)
From S2P Require Import Prelude GoInt Supervisor Options.

Inductive runnerKind := embeddedRunner | subprocessRunner.

Section server.
Context {E : Type}.

Inductive serverError := ErrNotStarted | ErrAlreadyStarted | ErrContext (e : ctxError) | ErrRunner (e : E).

(** [sv_done] is the channel: none before [Start], then whether it is closed.
    [sv_cancelled]: the context of the run is cancelled. *)
Record Server := MkServer {
  sv_opts : Options;
  sv_runner : runnerKind;
  sv_started : bool;
  sv_cancelled : bool;
  sv_done : option bool;
  sv_runErr : option (option E);
}.

Definition New (slogDefault : Z) (opts : Options) : res optionsError Server :=
  let '(validated, err) := validate slogDefault opts in
  match err with
  | Some err => Err err
  | None =>
      let runner :=
        if Mode_of validated =? ModeEmbedded then embeddedRunner
        else if Mode_of validated =? ModeSubprocess then subprocessRunner
        else embeddedRunner in
      Ok (MkServer validated runner false false None None)
  end.

(** ** The pieces of [Start], [Stop] and [Healthy] *)

Definition start_lock (s : Server) : Server * option serverError :=
  if sv_started s then (s, Some ErrAlreadyStarted)
  else (MkServer (sv_opts s) (sv_runner s) true (sv_cancelled s) (Some false) (sv_runErr s), None).
Definition start_store (err : option E) (s : Server) : Server :=
  MkServer (sv_opts s) (sv_runner s) (sv_started s) (sv_cancelled s) (sv_done s) (Some err).
Definition call_cancel (s : Server) : Server :=
  MkServer (sv_opts s) (sv_runner s) (sv_started s) true (sv_done s) (sv_runErr s).
Definition close_done (s : Server) : res serverError Server :=
  match sv_done s with
  | Some false =>
      Ok (MkServer (sv_opts s) (sv_runner s) (sv_started s) (sv_cancelled s) (Some true) (sv_runErr s))
  | _ => Panic
  end.

Definition stop_lock (s : Server) : option serverError :=
  if negb (sv_started s) then Some ErrNotStarted else None.
(** [case <-done]: ready when the channel is closed. *)
Definition stop_done (s : Server) : option (option serverError) :=
  match sv_done s with
  | Some true => Some (match sv_runErr s with Some errp => ErrRunner <$> errp | None => None end)
  | _ => None
  end.

Definition Healthy (runner_healthy : bool) (s : Server) : bool :=
  if negb (sv_started s) then false else runner_healthy.

(** ** The goroutines *)

Inductive goroutine :=
| InRun                             (* in [runner.run] *)
| Returning (err : option E)        (* before the deferred [cancel] *)
| Cancelled (err : option E)        (* before the deferred [close] *)
| StopLocked                        (* before [cancel] *)
| StopWaiting.                      (* in the [select] *)

Inductive returned := StartReturned (r : option serverError) | StopReturned (r : option serverError).

Record life := Life {
  lf_server : Server;
  lf_threads : gmap Z goroutine;
  lf_returns : list (Z * returned);
  lf_runs : list Z;                  (* the goroutines that called [runner.run] *)
  lf_result : option (option E);     (* what [runner.run] returned *)
  lf_panicked : bool;
}.

Definition life_of (s : Server) : life := Life s ∅ [] [] None false.

Inductive call :=
| CStart (t : Z) | CRunReturns (t : Z) (err : option E) | CCancel (t : Z) | CClose (t : Z)
| CStop (t : Z) | CStopCancel (t : Z) | CStopDone (t : Z) | CStopCtx (t : Z) (e : ctxError).

Definition lstep (l : life) (c : call) : option life :=
  let s := lf_server l in
  let ths := lf_threads l in
  match c with
  | CStart t =>
      match ths !! t with
      | Some _ => None
      | None =>
          match start_lock s with
          | (s, Some e) =>
              Some (Life s ths ((t, StartReturned (Some e)) :: lf_returns l) (lf_runs l) (lf_result l) (lf_panicked l))
          | (s, None) =>
              Some (Life s (<[t := InRun]> ths) (lf_returns l) (t :: lf_runs l) (lf_result l) (lf_panicked l))
          end
      end
  | CRunReturns t err =>
      match ths !! t with
      | Some InRun =>
          Some (Life (start_store err s) (<[t := Returning err]> ths) (lf_returns l) (lf_runs l)
            (Some err) (lf_panicked l))
      | _ => None
      end
  | CCancel t =>
      match ths !! t with
      | Some (Returning err) =>
          Some (Life (call_cancel s) (<[t := Cancelled err]> ths) (lf_returns l) (lf_runs l)
            (lf_result l) (lf_panicked l))
      | _ => None
      end
  | CClose t =>
      match ths !! t with
      | Some (Cancelled err) =>
          let returns := (t, StartReturned (ErrRunner <$> err)) :: lf_returns l in
          match close_done s with
          | Ok s => Some (Life s (delete t ths) returns (lf_runs l) (lf_result l) (lf_panicked l))
          | _ => Some (Life s (delete t ths) (lf_returns l) (lf_runs l) (lf_result l) true)
          end
      | _ => None
      end
  | CStop t =>
      match ths !! t with
      | Some _ => None
      | None =>
          match stop_lock s with
          | Some e =>
              Some (Life s ths ((t, StopReturned (Some e)) :: lf_returns l) (lf_runs l) (lf_result l) (lf_panicked l))
          | None => Some (Life s (<[t := StopLocked]> ths) (lf_returns l) (lf_runs l) (lf_result l) (lf_panicked l))
          end
      end
  | CStopCancel t =>
      match ths !! t with
      | Some StopLocked =>
          Some (Life (call_cancel s) (<[t := StopWaiting]> ths) (lf_returns l) (lf_runs l)
            (lf_result l) (lf_panicked l))
      | _ => None
      end
  | CStopDone t =>
      match ths !! t, stop_done s with
      | Some StopWaiting, Some r =>
          Some (Life s (delete t ths) ((t, StopReturned r) :: lf_returns l) (lf_runs l)
            (lf_result l) (lf_panicked l))
      | _, _ => None
      end
  | CStopCtx t e =>
      match ths !! t with
      | Some StopWaiting =>
          Some (Life s (delete t ths) ((t, StopReturned (Some (ErrContext e))) :: lf_returns l) (lf_runs l)
            (lf_result l) (lf_panicked l))
      | _ => None
      end
  end.

Fixpoint lrun (l : life) (cs : list call) : option life :=
  match cs with
  | [] => Some l
  | c :: cs => l ← lstep l c; lrun l cs
  end.
End server.
Arguments serverError : clear implicits.
Arguments Server : clear implicits.
Arguments goroutine : clear implicits.
Arguments returned : clear implicits.
Arguments life : clear implicits.
Arguments call : clear implicits.

(** ** The invariant *)

Section invariant.
Context {E : Type}.
Implicit Types (l : life E) (s : Server E) (ths : gmap Z (goroutine E)).

(** How far the one run has come. *)
Inductive stage :=
| Idle
| Running (t : Z)
| Stored (t : Z) (err : option E)
| Stopping (t : Z) (err : option E)
| Done (t : Z) (err : option E).

Definition starter (g : goroutine E) : bool :=
  match g with InRun | Returning _ | Cancelled _ => true | StopLocked | StopWaiting => false end.

(** The goroutine that runs, and its phase. *)
Definition stage_thread (st : stage) : option (Z * goroutine E) :=
  match st with
  | Running t => Some (t, InRun)
  | Stored t err => Some (t, Returning err)
  | Stopping t err => Some (t, Cancelled err)
  | Idle | Done _ _ => None
  end.
Definition stage_runs (st : stage) : list Z :=
  match st with Idle => [] | Running t | Stored t _ | Stopping t _ | Done t _ => [t] end.
Definition stage_result (st : stage) : option (option E) :=
  match st with Idle | Running _ => None | Stored _ err | Stopping _ err | Done _ err => Some err end.
Definition stage_done (st : stage) : option bool :=
  match st with Idle => None | Done _ _ => Some true | _ => Some false end.

Definition good_return (st : stage) (cancelled : bool) (t : Z) (r : returned E) : Prop :=
  match r with
  | StartReturned r =>
      r = Some ErrAlreadyStarted ∨ ∃ err, st = Done t err ∧ r = ErrRunner <$> err
  | StopReturned r =>
      r = Some ErrNotStarted
      ∨ cancelled = true ∧
          ((∃ e, r = Some (ErrContext e)) ∨ ∃ t' err, st = Done t' err ∧ r = ErrRunner <$> err)
  end.

Record linv (st : stage) l : Prop := {
  lv_panic : lf_panicked l = false;
  lv_started : sv_started (lf_server l) = match st with Idle => false | _ => true end;
  lv_done : sv_done (lf_server l) = stage_done st;
  lv_runErr : sv_runErr (lf_server l) = stage_result st;
  lv_result : lf_result l = stage_result st;
  lv_runs : lf_runs l = stage_runs st;
  lv_cancelled : match st with Stopping _ _ | Done _ _ => sv_cancelled (lf_server l) = true | _ => True end;
  lv_runner t g : starter g = true → lf_threads l !! t = Some g ↔ stage_thread st = Some (t, g);
  lv_waiting t : lf_threads l !! t = Some StopWaiting → sv_cancelled (lf_server l) = true;
  lv_stopper t g : lf_threads l !! t = Some g → st ≠ Idle;
  lv_returns t r : (t, r) ∈ lf_returns l → good_return st (sv_cancelled (lf_server l)) t r;
}.

Lemma linv_init d o s : New d o = Ok s → linv Idle (life_of s).
Proof.
  unfold New. destruct (validate d o) as [v [e|]]; [done|]. intros [= <-].
  split; cbn; try done.
  intros t r Hin. by apply elem_of_nil in Hin.
Qed.

Lemma good_return_mono st st' b b' t r :
  good_return st b t r → (b = true → b' = true) → (∀ t err, st = Done t err → st' = st) →
  good_return st' b' t r.
Proof.
  destruct r as [r|r]; cbn; intros Hg Hb Hst.
  - destruct Hg as [->|(err & -> & ->)]; [by left|]. right. exists err. split; [by eapply Hst|done].
  - destruct Hg as [->|[Hc Hr]]; [by left|]. right. split; [auto|].
    destruct Hr as [Hr|(t' & err & -> & ->)]; [by left|]. right. exists t', err.
    split; [by eapply Hst|done].
Qed.

Lemma not_starting st l t g g' :
  linv st l → lf_threads l !! t = Some g → starter g = false → stage_thread st = Some (t, g') → starter g' = true → False.
Proof. intros I Ht Hg Hst Hg'. apply (lv_runner _ _ I) in Hst; [congruence|done]. Qed.

(** A stopper changes its own phase, and may cancel. *)
Lemma linv_stopper st l ths' s' rets' t :
  linv st l → st ≠ Idle →
  (∀ g', stage_thread st ≠ Some (t, g')) →
  (∀ t', t' ≠ t → ths' !! t' = lf_threads l !! t') →
  (∀ g, ths' !! t = Some g → starter g = false ∧ (g = StopWaiting → sv_cancelled s' = true)) →
  (s' = lf_server l ∨ s' = call_cancel (lf_server l)) →
  (∀ t' r, (t', r) ∈ rets' → (t', r) ∈ lf_returns l ∨ good_return st (sv_cancelled s') t' r) →
  linv st (Life s' ths' rets' (lf_runs l) (lf_result l) (lf_panicked l)).
Proof.
  intros I Hne Hno Hoth Hmine Hs Hrets.
  assert (sv_cancelled (lf_server l) = true → sv_cancelled s' = true) as Hmono by (by destruct Hs as [->| ->]).
  split; cbn; try apply I.
  - destruct Hs as [->| ->]; apply I.
  - destruct Hs as [->| ->]; apply I.
  - destruct Hs as [->| ->]; apply I.
  - pose proof (lv_cancelled _ _ I). destruct st; auto.
  - intros t' g Hg. destruct (decide (t' = t)) as [->|Hne'].
    + split; [intros Ht; destruct (Hmine g Ht); congruence|]. intros Hst. by apply Hno in Hst.
    + rewrite Hoth by done. by apply (lv_runner _ _ I).
  - intros t' Ht'. destruct (decide (t' = t)) as [->|Hne']; [by apply (Hmine _ Ht')|].
    rewrite Hoth in Ht' by done. apply Hmono. by eapply lv_waiting.
  - done.
  - intros t' r Hin. apply Hrets in Hin as [Hin|Hin]; [|done].
    apply (lv_returns _ _ I) in Hin. eapply good_return_mono; [done|done|done].
Qed.

(** The run takes its next step. *)
Lemma linv_runner st st' l s' ths' rets' runs' res' t :
  linv st l →
  (∀ t', t' ≠ t → ths' !! t' = lf_threads l !! t' ∧ ∀ g, stage_thread st ≠ Some (t', g)) →
  (∀ g, ths' !! t = Some g ↔ stage_thread st' = Some (t, g)) →
  (∀ t' g, stage_thread st' = Some (t', g) → t' = t ∧ starter g = true) →
  sv_started s' = true → st' ≠ Idle → sv_done s' = stage_done st' →
  sv_runErr s' = stage_result st' → res' = stage_result st' → runs' = stage_runs st' →
  (sv_cancelled (lf_server l) = true → sv_cancelled s' = true) →
  match st' with Stopping _ _ | Done _ _ => sv_cancelled s' = true | _ => True end →
  (∀ t err, st ≠ Done t err) →
  (∀ t' r, (t', r) ∈ rets' → (t', r) ∈ lf_returns l ∨ good_return st' (sv_cancelled s') t' r) →
  linv st' (Life s' ths' rets' runs' res' (lf_panicked l)).
Proof.
  intros I Hoth Hmine Hst' Hs Hne Hd Hre Hr Hrs Hmono Hc Hnd Hrets. split; cbn; try done.
  - apply I.
  - rewrite Hs. by destruct st'.
  - intros t' g Hg. destruct (decide (t' = t)) as [->|Hne']; [apply Hmine|].
    destruct (Hoth t' Hne') as [-> Hno]. rewrite (lv_runner _ _ I) by done. split.
    + intros Hst. by apply Hno in Hst.
    + intros Hst. by destruct (Hst' _ _ Hst).
  - intros t' Ht'. destruct (decide (t' = t)) as [->|Hne'].
    + apply Hmine in Ht'. by destruct (Hst' _ _ Ht').
    + destruct (Hoth t' Hne') as [Heq _]. rewrite Heq in Ht'. apply Hmono. by eapply lv_waiting.
  - intros t' r Hin. apply Hrets in Hin as [Hin|Hin]; [|done].
    apply (lv_returns _ _ I) in Hin. eapply good_return_mono; [done|done|].
    intros t0 err ->. by destruct (Hnd t0 err).
Qed.

Ltac keep_return := intros t' r Hin; by left.
Ltac new_return := intros t' r' [[= -> ->]|Hin]%elem_of_cons; [right|by left].

Lemma lstep_start st l t l' : linv st l → lstep l (CStart t) = Some l' → ∃ st', linv st' l'.
Proof.
  intros I. cbn [lstep]. destruct (lf_threads l !! t) eqn:Ht; [done|]. unfold start_lock.
  pose proof (lv_started _ _ I) as Hs. destruct (sv_started (lf_server l)) eqn:Hst; intros [= <-].
  - exists st. eapply (linv_stopper st l _ _ _ t); try done.
    + by intros ->.
    + intros g Hg. pose proof Hg as Hg'. apply (lv_runner _ _ I) in Hg'; [congruence|].
      destruct st; cbn in Hg; naive_solver.
    + intros g Hg. congruence.
    + by left.
    + new_return. by left.
  - destruct st; try done. exists (Running t).
    eapply (linv_runner Idle (Running t) l _ _ _ _ _ t); try done.
    + intros t' Hne. split; [by rewrite lookup_insert_ne|done].
    + intros g. rewrite lookup_insert_eq. cbn. naive_solver.
    + intros t' g. cbn. naive_solver.
    + apply (lv_runErr _ _ I).
    + apply (lv_result _ _ I).
    + cbn. by rewrite (lv_runs _ _ I).
    + keep_return.
Qed.

(** The stage of a goroutine of [Start]. *)
Lemma linv_at st l t g : linv st l → lf_threads l !! t = Some g → starter g = true →
  match g with
  | InRun => st = Running t
  | Returning err => st = Stored t err
  | Cancelled err => st = Stopping t err
  | _ => False
  end.
Proof.
  intros I Ht Hg. apply (lv_runner _ _ I) in Ht; [|done]. destruct st; cbn in Ht; naive_solver.
Qed.

Lemma lstep_runner st l t c l' :
  linv st l → (c = CCancel t ∨ c = CClose t ∨ ∃ err, c = CRunReturns t err) →
  lstep l c = Some l' → ∃ st', linv st' l'.
Proof.
  intros I Hc Hl.
  assert (∀ t' g, t' ≠ t → stage_thread st = Some (t, g) → ∀ g', stage_thread st ≠ Some (t', g')) as Hone
    by (intros; congruence).
  destruct Hc as [->|[->|[err ->]]]; cbn [lstep] in Hl;
    destruct (lf_threads l !! t) as [g|] eqn:Ht; try done; destruct g; try done;
    pose proof (linv_at _ _ _ _ I Ht eq_refl) as Hst; cbn in Hst; subst st.
  - injection Hl as <-. exists (Stopping t err).
    eapply (linv_runner _ (Stopping t err) l _ _ _ _ _ t I); try done.
    + intros t' Hne. split; [by rewrite lookup_insert_ne|by eapply Hone].
    + intros g. rewrite lookup_insert_eq. cbn. naive_solver.
    + intros t' g. cbn. naive_solver.
    + apply (lv_started _ _ I).
    + apply (lv_done _ _ I).
    + apply (lv_runErr _ _ I).
    + apply (lv_result _ _ I).
    + apply (lv_runs _ _ I).
    + keep_return.
  - unfold close_done in Hl. rewrite (lv_done _ _ I) in Hl. cbn [stage_done] in Hl. injection Hl as <-.
    exists (Done t err). eapply (linv_runner _ (Done t err) l _ _ _ _ _ t I); try done.
    + intros t' Hne. split; [by rewrite lookup_delete_ne|by eapply Hone].
    + intros g. rewrite lookup_delete_eq. cbn. naive_solver.
    + apply (lv_started _ _ I).
    + apply (lv_runErr _ _ I).
    + apply (lv_result _ _ I).
    + apply (lv_runs _ _ I).
    + apply (lv_cancelled _ _ I).
    + new_return. right. by exists err.
  - injection Hl as <-. exists (Stored t err).
    eapply (linv_runner _ (Stored t err) l _ _ _ _ _ t I); try done.
    + intros t' Hne. split; [by rewrite lookup_insert_ne|by eapply Hone].
    + intros g. rewrite lookup_insert_eq. cbn. naive_solver.
    + intros t' g. cbn. naive_solver.
    + apply (lv_started _ _ I).
    + apply (lv_done _ _ I).
    + apply (lv_runs _ _ I).
    + keep_return.
Qed.

(** A goroutine of [Stop] is not the one that runs. *)
Lemma stopper_apart st l t g :
  linv st l → lf_threads l !! t = Some g → starter g = false → ∀ g', stage_thread st ≠ Some (t, g').
Proof.
  intros I Ht Hg g' Hst. assert (starter g' = true) as Hg' by (destruct st; cbn in Hst; naive_solver).
  by eapply not_starting.
Qed.

Lemma lstep_stop st l t l' : linv st l → lstep l (CStop t) = Some l' → ∃ st', linv st' l'.
Proof.
  intros I. cbn [lstep]. destruct (lf_threads l !! t) eqn:Ht; [done|]. unfold stop_lock.
  pose proof (lv_started _ _ I) as Hs. destruct (sv_started (lf_server l)) eqn:Hst; intros [= <-]; exists st.
  - eapply (linv_stopper st l _ _ _ t); try done.
    + by intros ->.
    + intros g Hg. pose proof Hg as Hg'. apply (lv_runner _ _ I) in Hg'; [congruence|].
      destruct st; cbn in Hg; naive_solver.
    + intros t' Hne. by rewrite lookup_insert_ne.
    + intros g. rewrite lookup_insert_eq. by intros [= <-].
    + by left.
    + keep_return.
  - destruct st; try done. split; try apply I. intros t' r Hin. cbn in Hin.
    apply elem_of_cons in Hin as [[= -> ->]|Hin]; [by left|by apply (lv_returns _ _ I)].
Qed.

Lemma lstep_stopper st l t c l' :
  linv st l → (c = CStopCancel t ∨ c = CStopDone t ∨ ∃ e, c = CStopCtx t e) →
  lstep l c = Some l' → ∃ st', linv st' l'.
Proof.
  intros I Hc Hl.
  destruct Hc as [->|[->|[e ->]]]; cbn [lstep] in Hl;
    destruct (lf_threads l !! t) as [g|] eqn:Ht; try done; destruct g; try done;
    pose proof (lv_stopper _ _ I t _ Ht) as Hne; pose proof (stopper_apart _ _ _ _ I Ht eq_refl) as Hap;
    exists st.
  - injection Hl as <-. eapply (linv_stopper st l _ _ _ t); try done.
    + intros t' Hn. by rewrite lookup_insert_ne.
    + intros g. rewrite lookup_insert_eq. by intros [= <-].
    + by right.
    + keep_return.
  - destruct (stop_done (lf_server l)) as [r|] eqn:Hd; [|done]. injection Hl as <-.
    eapply (linv_stopper st l _ _ _ t); try done.
    + intros t' Hn. by rewrite lookup_delete_ne.
    + intros g. by rewrite lookup_delete_eq.
    + by left.
    + new_return. right. split; [by apply (lv_waiting _ _ I t)|right].
      unfold stop_done in Hd. rewrite (lv_done _ _ I), (lv_runErr _ _ I) in Hd.
      destruct st as [| | | |t0 err]; cbn in Hd; try done. injection Hd as <-. by exists t0, err.
  - injection Hl as <-. eapply (linv_stopper st l _ _ _ t); try done.
    + intros t' Hn. by rewrite lookup_delete_ne.
    + intros g. by rewrite lookup_delete_eq.
    + by left.
    + new_return. right. split; [by apply (lv_waiting _ _ I t)|left]. eauto.
Qed.

Lemma lstep_inv st l c l' : linv st l → lstep l c = Some l' → ∃ st', linv st' l'.
Proof.
  intros I Hl. destruct c as [t|t err|t|t|t|t|t|t e].
  - by eapply lstep_start.
  - eapply (lstep_runner _ _ t _ _ I); [|exact Hl]; naive_solver.
  - eapply (lstep_runner _ _ t _ _ I); [|exact Hl]; naive_solver.
  - eapply (lstep_runner _ _ t _ _ I); [|exact Hl]; naive_solver.
  - by eapply lstep_stop.
  - eapply (lstep_stopper _ _ t _ _ I); [|exact Hl]; naive_solver.
  - eapply (lstep_stopper _ _ t _ _ I); [|exact Hl]; naive_solver.
  - eapply (lstep_stopper _ _ t _ _ I); [|exact Hl]; naive_solver.
Qed.
Lemma lrun_inv st l cs l' : linv st l → lrun l cs = Some l' → ∃ st', linv st' l'.
Proof.
  revert st l. induction cs as [|c cs IH]; intros st l I; cbn; [intros [= <-]; eauto|].
  destruct (lstep l c) as [l1|] eqn:Hc; [|done]. cbn.
  destruct (lstep_inv _ _ _ _ I Hc) as [st1 I1]. by eapply IH.
Qed.

(** ** A waiting [Stop] goes on once the runner returns *)

Definition waits l (t t0 : Z) (g : goroutine E) : Prop :=
  lf_threads l !! t = Some StopWaiting ∧ lf_threads l !! t0 = Some g ∧ t ≠ t0
  ∧ sv_done (lf_server l) = Some false.

Definition completes_by l (t : Z) (cs : list (call E)) (err : option E) : Prop :=
  ∃ l', lrun l cs = Some l' ∧ (t, StopReturned (ErrRunner <$> err)) ∈ lf_returns l'.

Lemma closing_completes l t t0 err :
  waits l t t0 (Cancelled err) → sv_runErr (lf_server l) = Some err →
  completes_by l t [CClose t0; CStopDone t] err.
Proof.
  intros (Ht & H0 & Hne & Hd) He. unfold completes_by. cbn [lrun lstep]. unfold close_done.
  rewrite H0, Hd. cbn. rewrite lookup_delete_ne, Ht by done. unfold stop_done. cbn. rewrite He.
  eexists. split; [done|]. left.
Qed.
Lemma cancelling_completes l t t0 err :
  waits l t t0 (Returning err) → sv_runErr (lf_server l) = Some err →
  completes_by l t [CCancel t0; CClose t0; CStopDone t] err.
Proof.
  intros (Ht & H0 & Hne & Hd) He.
  destruct (closing_completes (Life (call_cancel (lf_server l)) (<[t0 := Cancelled err]> (lf_threads l))
    (lf_returns l) (lf_runs l) (lf_result l) (lf_panicked l)) t t0 err) as (l' & Hl & Hin).
  - split_and!; cbn; [by rewrite lookup_insert_ne|by rewrite lookup_insert_eq|done..].
  - done.
  - exists l'. split; [|done]. cbn [lrun lstep] in Hl |- *. by rewrite H0.
Qed.
Lemma running_completes l t t0 err :
  waits l t t0 InRun → completes_by l t [CRunReturns t0 err; CCancel t0; CClose t0; CStopDone t] err.
Proof.
  intros (Ht & H0 & Hne & Hd).
  destruct (cancelling_completes (Life (start_store err (lf_server l)) (<[t0 := Returning err]> (lf_threads l))
    (lf_returns l) (lf_runs l) (Some err) (lf_panicked l)) t t0 err) as (l' & Hl & Hin).
  - split_and!; cbn; [by rewrite lookup_insert_ne|by rewrite lookup_insert_eq|done..].
  - done.
  - exists l'. split; [|done]. change (lrun l (CRunReturns t0 err :: ?cs)) with (lstep l (CRunReturns t0 err) ≫= λ l, lrun l cs).
    cbn [lstep]. by rewrite H0.
Qed.

Lemma stop_completes st l t :
  linv st l → lf_threads l !! t = Some StopWaiting →
  match st with
  | Idle => False
  | Running t0 => ∀ err, completes_by l t [CRunReturns t0 err; CCancel t0; CClose t0; CStopDone t] err
  | Stored t0 err => completes_by l t [CCancel t0; CClose t0; CStopDone t] err
  | Stopping t0 err => completes_by l t [CClose t0; CStopDone t] err
  | Done t0 err => completes_by l t [CStopDone t] err
  end.
Proof.
  intros I Ht. pose proof (lv_stopper _ _ I t _ Ht) as Hne.
  assert (∀ t0 g, stage_thread st = Some (t0, g) → starter g = true → stage_done st = Some false →
    waits l t t0 g) as Hw.
  { intros t0 g Hst Hg Hd. apply (lv_runner _ _ I) in Hst; [|done]. split_and!; try done.
    - intros ->. rewrite Ht in Hst. injection Hst as <-. done.
    - by rewrite (lv_done _ _ I). }
  pose proof (lv_runErr _ _ I) as He.
  destruct st as [|t0|t0 err|t0 err|t0 err]; [done| | | |].
  - intros err. apply running_completes. by apply Hw.
  - apply cancelling_completes; [by apply Hw|done].
  - apply closing_completes; [by apply Hw|done].
  - unfold completes_by. cbn [lrun lstep]. unfold stop_done. rewrite Ht, (lv_done _ _ I), He. cbn.
    eexists. split; [done|]. left.
Qed.
End invariant.

(** C28: however calls of [Start] and [Stop] interleave, the runner runs at most once, on
    the first [Start], every other [Start] fails with [ErrAlreadyStarted] also after the
    server has stopped, and [close(s.done)] never panics; [Start] returns what the runner
    returned. [Stop] returns [ErrNotStarted] or, having cancelled the context, the error of
    its own context or what the runner returned, and this last only after the runner has
    returned. *)
Theorem server_lifecycle E d o (s : Server E) cs l :
  New d o = Ok s → lrun (life_of s) cs = Some l →
  lf_panicked l = false
  ∧ (length (lf_runs l) ≤ 1)%nat
  ∧ (∀ t r, (t, StartReturned r) ∈ lf_returns l →
      r = Some ErrAlreadyStarted
      ∨ lf_runs l = [t] ∧ ∃ err, lf_result l = Some err ∧ r = ErrRunner <$> err)
  ∧ (∀ t r, (t, StopReturned r) ∈ lf_returns l →
      r = Some ErrNotStarted
      ∨ sv_cancelled (lf_server l) = true ∧
          ((∃ e, r = Some (ErrContext e)) ∨ ∃ err, lf_result l = Some err ∧ r = ErrRunner <$> err)).
Proof.
  intros Hn Hl. destruct (lrun_inv Idle _ _ _ (linv_init _ _ _ Hn) Hl) as [st I].
  split_and!.
  - apply I.
  - rewrite (lv_runs _ _ I). destruct st; cbn; lia.
  - intros t r Hin. destruct (lv_returns _ _ I _ _ Hin) as [->|(err & -> & ->)]; [by left|right].
    rewrite (lv_runs _ _ I), (lv_result _ _ I). eauto.
  - intros t r Hin. destruct (lv_returns _ _ I _ _ Hin) as [->|[Hc [He|(t' & err & -> & ->)]]]; [by left|eauto|].
    right. rewrite (lv_result _ _ I). cbn. eauto.
Qed.

(** A [Stop] that waits is not stuck: in every reachable state, once the runner
    returns (if it has not yet), at most three more steps of the goroutine that runs and of
    the [Stop] itself make the [Stop] return what the runner returned. *)
Theorem stop_not_stuck E d o (s : Server E) cs l t err :
  New d o = Ok s → lrun (life_of s) cs = Some l → lf_threads l !! t = Some StopWaiting →
  ∃ t0 cs' r, cs' `suffix_of` [CRunReturns t0 err; CCancel t0; CClose t0; CStopDone t]
    ∧ (lf_result l = None → r = err) ∧ (∀ r', lf_result l = Some r' → r = r')
    ∧ completes_by l t cs' r.
Proof.
  intros Hn Hl Ht. destruct (lrun_inv Idle _ _ _ (linv_init _ _ _ Hn) Hl) as [st I].
  pose proof (stop_completes st l t I Ht) as H. rewrite (lv_result _ _ I).
  destruct st as [|t0|t0 e|t0 e|t0 e]; [done| | | |]; exists t0; cbn.
  - exists [CRunReturns t0 err; CCancel t0; CClose t0; CStopDone t], err. split_and!; [by exists []|done..|apply H].
  - exists [CCancel t0; CClose t0; CStopDone t], e. split_and!; [by exists [CRunReturns t0 err]|done|congruence|done].
  - exists [CClose t0; CStopDone t], e. split_and!; [by exists [CRunReturns t0 err; CCancel t0]|done|congruence|done].
  - exists [CStopDone t], e. split_and!; [by exists [CRunReturns t0 err; CCancel t0; CClose t0]|done|congruence|done].
Qed.

(** A second [Start] and a [Stop] race with the run. *)
Module demo.
Definition server : Server Z :=
  MkServer (fst (validate 7 demo_options)) embeddedRunner false false None None.
Definition race : list (call Z) := [CStart 1; CStop 2; CStart 3; CStopCancel 2].
Definition full : list (call Z) := race ++ [CRunReturns 1 (Some 5); CCancel 1; CClose 1; CStopDone 2].
Definition after (cs : list (call Z)) : life Z := default (life_of server) (lrun (life_of server) cs).

Lemma new : New 7 demo_options = Ok server.
Proof. by vm_compute. Qed.
Lemma race_runs : lrun (life_of server) race = Some (after race).
Proof. by vm_compute. Qed.
Lemma full_runs : lrun (life_of server) full = Some (after full).
Proof. by vm_compute. Qed.
Lemma race_waits : lf_threads (after race) !! 2 = Some StopWaiting.
Proof. by vm_compute. Qed.
End demo.

Lemma stop_not_stuck_witness :
  lf_threads (demo.after demo.race) !! 2 = Some StopWaiting
  ∧ ∃ t0 cs' r, cs' `suffix_of` [CRunReturns t0 (Some 5); CCancel t0; CClose t0; CStopDone 2]
      ∧ completes_by (demo.after demo.race) 2 cs' r.
Proof.
  split; [exact demo.race_waits|].
  destruct (stop_not_stuck Z 7 demo_options demo.server demo.race (demo.after demo.race) 2 (Some 5)
    demo.new demo.race_runs demo.race_waits) as (t0 & cs' & r & Hs & _ & _ & Hc).
  exists t0, cs', r. split; [exact Hs|exact Hc].
Defined.
Lemma server_lifecycle_witness :
  lf_panicked (demo.after demo.full) = false
  ∧ lf_runs (demo.after demo.full) = [1]
  ∧ lf_returns (demo.after demo.full) =
      [(2, StopReturned (Some (ErrRunner 5))); (1, StartReturned (Some (ErrRunner 5)));
       (3, StartReturned (Some ErrAlreadyStarted))].
Proof.
  destruct (server_lifecycle Z 7 demo_options demo.server demo.full (demo.after demo.full)
    demo.new demo.full_runs) as (Hp & _).
  split; [exact Hp|]. split; by vm_compute.
Defined.
