(* ===== verification/Gate.v ===== *)
(** * The adapter for the Gate proxy (integration/gate/config.go, gate.go)

    A configuration in Gate's terms becomes options, and the options a server behind the
    lifecycle Gate expects. A nil [*Bedrock] is [None]. *)
From S2P Require Import Prelude GoInt GoStrings GoText Sha256 Supervisor Options Server.

Record Config := MkConfig {
  Enabled : bool;
  cfg_Listen : bytes;
  cfg_Upstream : bytes;
  cfg_AuthType : bytes;
  cfg_FloodgateKey : bytes;
  cfg_MOTD : MOTD;
  cfg_Mode : bytes;
  cfg_LibraryPath : bytes;
  cfg_Mirror : bytes;
  cfg_Offline : bool;
  cfg_ConfigOverrides : Z;
}.

#[export] Instance ctxError_eq_dec : EqDecision ctxError.
Proof. solve_decision. Defined.

Inductive gateError := ErrAuthType | ErrMode | ErrKeyHex | ErrOptions (e : optionsError).

(** The nil slice is the empty one. *)
Definition decodeFloodgateKey (s : bytes) : res gateError bytes :=
  let s := trim_space s in
  if is_empty s then Ok []
  else match hex_decode (trim_prefix (str "0x") s) with Some b => Ok b | None => Err ErrKeyHex end.

Section gate.
Context (unicode_lower : bytes → bytes) (slogDefault : Z).

Definition is_one_of (s : bytes) (l : list bytes) : bool := bool_decide (s ∈ l).

Definition toOptions (c : Config) (logger : option Z) : res gateError Options :=
  let auth := to_lower unicode_lower (cfg_AuthType c) in
  let mode := to_lower unicode_lower (cfg_Mode c) in
  '(authType, key) ←
    (if is_one_of auth [str ""; str "floodgate"] then
       key ← decodeFloodgateKey (cfg_FloodgateKey c); Ok (Floodgate, key)
     else if is_one_of auth [str "online"] then Ok (Online, [])
     else if is_one_of auth [str "offline"] then Ok (Offline, [])
     else Err ErrAuthType);
  mode ←
    (if is_one_of mode [str ""; str "embedded"] then Ok ModeEmbedded
     else if is_one_of mode [str "subprocess"] then Ok ModeSubprocess
     else Err ErrMode);
  Ok (MkOptions (cfg_Listen c) (cfg_Upstream c) authType key (cfg_MOTD c) mode
        (cfg_LibraryPath c) [] None logger None 0 [] (cfg_Mirror c) (cfg_Offline c) (cfg_ConfigOverrides c)).

(** ** The handle *)

Context {E : Type}.

Record Bedrock := MkBedrock { server : Server E; logger : option Z }.

Definition newSrv (opts : Options) : res gateError (Server E) :=
  match Server.New slogDefault opts with
  | Ok s => Ok s
  | Err e => Err (ErrOptions e)
  | Panic => Panic
  end.

Definition New (cfg : Config) (logger : option Z) : res gateError (option Bedrock) :=
  if negb (Enabled cfg) then Ok None
  else
  let logger := match logger with None => Some slogDefault | l => l end in
  opts ← toOptions cfg logger;
  srv ← newSrv opts;
  Ok (Some (MkBedrock srv logger)).

(** [errors.Is(err, target)] for the errors of a server; [is_ctx] for a runner's. *)
Definition errors_Is (is_ctx : E → ctxError → bool) (err : serverError E) (target : ctxError) : bool :=
  match err with
  | ErrContext e => bool_decide (e = target)
  | ErrRunner e => is_ctx e target
  | ErrNotStarted | ErrAlreadyStarted => false
  end.

(** [Start], [Stop] and [Healthy], from what the server's method gives. *)
Definition Start (is_ctx : E → ctxError → bool) (b : option Bedrock) (run : Bedrock → option (serverError E))
    : option (serverError E) :=
  match b with
  | None => None
  | Some b =>
      match run b with
      | Some err =>
          if errors_Is is_ctx err Canceled || errors_Is is_ctx err DeadlineExceeded then None else Some err
      | None => None
      end
  end.
Definition Stop (b : option Bedrock) (stop : Bedrock → option (serverError E)) : option (serverError E) :=
  match b with None => None | Some b => stop b end.
Definition Healthy (b : option Bedrock) (runner_healthy : bool) : bool :=
  match b with None => false | Some b => Server.Healthy runner_healthy (server b) end.
End gate.
Arguments Bedrock E : clear implicits.
Arguments MkBedrock {E} server logger.

(** ** The key *)

(** ASCII white space. *)
Definition is_blank (c : Z) : bool := bool_decide (c ∈ [9; 10; 11; 12; 13; 32]).

Lemma space_len_ascii c s : is_blank c = true → space_len (c :: s) = 1%nat.
Proof.
  unfold is_blank. intros H%bool_decide_eq_true. rewrite !elem_of_cons, elem_of_nil in H.
  by destruct H as [->|[->|[->|[->|[->|[->|[]]]]]]].
Qed.
Lemma trim_left_blanks pad s : forallb is_blank pad = true → trim_left 0 (pad ++ s) = trim_left 0 s.
Proof.
  induction pad as [|c pad IH]; [done|]. cbn [forallb]. intros [Hc Hp]%andb_prop.
  cbn [app trim_left]. rewrite space_len_ascii by done. by apply IH.
Qed.
Lemma text_len_blanks pad i j : forallb is_blank pad = true → text_len 0 i j pad = j.
Proof.
  revert i. induction pad as [|c pad IH]; intros i; [done|]. cbn [forallb]. intros [Hc Hp]%andb_prop.
  cbn [text_len]. rewrite space_len_ascii by done. by apply IH.
Qed.
Lemma text_len_print_app w pad i j :
  forallb is_print w = true → w ≠ [] → forallb is_blank pad = true →
  text_len 0 i j (w ++ pad) = i + zlen w.
Proof.
  revert i j. induction w as [|c w IH]; intros i j Hw Hne Hp; [done|].
  cbn [forallb] in Hw. apply andb_prop in Hw as [Hc Hw]. cbn [app text_len].
  rewrite space_len_print by done. destruct w as [|c' w].
  - cbn [app]. rewrite text_len_blanks by done. by unfold zlen.
  - rewrite IH by done. rewrite (zlen_cons c). lia.
Qed.
(** [strings.TrimSpace] of a word between blanks. *)
Lemma trim_space_padded pad w pad' :
  forallb is_blank pad = true → forallb is_blank pad' = true → forallb is_print w = true → w ≠ [] →
  trim_space (pad ++ w ++ pad') = w.
Proof.
  intros Hp Hp' Hw Hne. unfold trim_space. rewrite trim_left_blanks by done.
  assert (trim_left 0 (w ++ pad') = w ++ pad') as ->.
  { destruct w as [|c w]; [done|]. cbn in Hw. apply andb_prop in Hw as [Hc _]. by apply trim_left_print. }
  rewrite text_len_print_app by done. by apply ztake_app_eq.
Qed.

Lemma hex_print l : forallb is_hex_lower l = true → forallb is_print l = true.
Proof.
  rewrite !forallb_forall. intros H c Hin. specialize (H c Hin).
  unfold is_hex_lower, is_digit in H. unfold is_print. lia.
Qed.
(** Hexadecimal digits do not start with [0x]. *)
Lemma hex_no_prefix l : forallb is_hex_lower l = true → has_prefix (str "0x") l = false.
Proof.
  intros H. destruct l as [|a [|b l]]; [done|by cbn; rewrite andb_false_r|].
  cbn [forallb] in H. apply andb_prop in H as [_ [Hb _]%andb_prop].
  unfold is_hex_lower, is_digit in Hb. change (str "0x") with [48; 120]. cbn [has_prefix].
  replace (120 =? b) with false by lia. by rewrite andb_false_r.
Qed.

Lemma decode_padded k prefix pad pad' :
  Bytes k → k ≠ [] → prefix = [] ∨ prefix = str "0x" →
  forallb is_blank pad = true → forallb is_blank pad' = true →
  decodeFloodgateKey (pad ++ (prefix ++ hex_encode k) ++ pad') = Ok k.
Proof.
  intros HB Hne Hpre Hp Hp'. pose proof (hex_encode_lower k HB) as Hl.
  assert (hex_encode k ≠ []) as Hh.
  { intros H. apply (f_equal zlen) in H. rewrite zlen_hex_encode in H. change (zlen []) with 0 in H.
    apply Hne, zlen_zero_inv. lia. }
  unfold decodeFloodgateKey. rewrite trim_space_padded; [|done..| |].
  - rewrite (proj2 (is_empty_false _)) by (intros [_ ?]%app_eq_nil; done).
    assert (trim_prefix (str "0x") (prefix ++ hex_encode k) = hex_encode k) as ->.
    { destruct Hpre as [->| ->]; [|apply trim_prefix_app]. by apply trim_prefix_other, hex_no_prefix. }
    by rewrite hex_decode_encode.
  - rewrite forallb_app. rewrite (hex_print _ Hl). by destruct Hpre as [->| ->].
  - by intros [_ ?]%app_eq_nil.
Qed.

Lemma key_decode_sound s k : decodeFloodgateKey s = Ok k → Bytes k.
Proof.
  unfold decodeFloodgateKey. destruct (is_empty _); [intros [= <-]; constructor|].
  destruct (hex_decode _) as [b|] eqn:Hb; [|done]. intros [= <-]. by apply hex_decode_len in Hb as [_ ?].
Qed.

(** What a key's text says, apart from how it is decoded: two hexadecimal digits a byte, in
    either case, maybe after [0x], between white space. *)
Inductive hex_digit_of (v : Z) : Z → Prop :=
| hd_decimal : 0 ≤ v < 10 → hex_digit_of v (48 + v)
| hd_lower : 10 ≤ v < 16 → hex_digit_of v (97 + (v - 10))
| hd_upper : 10 ≤ v < 16 → hex_digit_of v (65 + (v - 10)).
Inductive spells : bytes → bytes → Prop :=
| sp_end : spells [] []
| sp_byte h l c d s k : hex_digit_of h c → hex_digit_of l d → spells s k → spells (c :: d :: s) (16 * h + l :: k).
Definition says_key (s k : bytes) : Prop :=
  ∃ digits, spells digits k ∧ (trim_space s = digits ∨ trim_space s = str "0x" ++ digits).

Lemma hex_value_spec v c : hex_value c = Some v ↔ hex_digit_of v c.
Proof.
  unfold hex_value, is_digit. split.
  - destruct ((48 <=? c) && (c <=? 57)) eqn:H1.
    { intros [= <-]. replace c with (48 + (c - 48)) at 2 by lia. constructor. lia. }
    destruct ((97 <=? c) && (c <=? 102)) eqn:H2.
    { intros [= <-]. replace c with (97 + ((c - 87) - 10)) at 2 by lia. constructor. lia. }
    destruct ((65 <=? c) && (c <=? 70)) eqn:H3; [|done].
    intros [= <-]. replace c with (65 + ((c - 55) - 10)) at 2 by lia. constructor. lia.
  - intros [H|H|H].
    + replace ((48 <=? 48 + v) && _) with true by lia. f_equal. lia.
    + replace ((48 <=? 97 + (v - 10)) && _) with false by lia.
      replace ((97 <=? 97 + (v - 10)) && _) with true by lia. f_equal. lia.
    + replace ((48 <=? 65 + (v - 10)) && _) with false by lia.
      replace ((97 <=? 65 + (v - 10)) && _) with false by lia.
      replace ((65 <=? 65 + (v - 10)) && _) with true by lia. f_equal. lia.
Qed.
Lemma hex_decode_spec s k : hex_decode s = Some k ↔ spells s k.
Proof.
  split.
  - remember (length s) as n eqn:Hn. revert s k Hn. induction (lt_wf n) as [n _ IH]. intros [|a [|b s]] k ->; cbn.
    + intros [= <-]. constructor.
    + done.
    + destruct (hex_value a) as [h|] eqn:Ha; [|done]. destruct (hex_value b) as [l|] eqn:Hb; [|done].
      destruct (hex_decode s) as [rest|] eqn:Hs; [|done]. cbn. intros [= <-].
      replace (h * 16 + l) with (16 * h + l) by lia. constructor; [by apply hex_value_spec..|eapply IH; [|done..]; cbn; lia].
  - induction 1 as [|h l c d s k Hh Hl _ IH]; [done|]. cbn.
    rewrite (proj2 (hex_value_spec h c) Hh), (proj2 (hex_value_spec l d) Hl), IH. cbn.
    by replace (h * 16 + l) with (16 * h + l) by lia.
Qed.
Lemma spells_no_prefix s k : spells s k → has_prefix (str "0x") s = false.
Proof.
  intros [|h l c d s' k' _ Hl _]; [done|]. change (str "0x") with [48; 120]. cbn [has_prefix].
  replace (120 =? d) with false by (destruct Hl; lia). by rewrite andb_false_r.
Qed.
Lemma decode_says s k : decodeFloodgateKey s = Ok k ↔ says_key s k.
Proof.
  unfold decodeFloodgateKey, says_key. generalize (trim_space s). intros t. split.
  - destruct (is_empty t) eqn:He.
    { apply is_empty_spec in He as ->. intros [= <-]. exists []. split; [constructor|by left]. }
    destruct (hex_decode _) as [b|] eqn:Hb; [|done]. intros [= <-]. apply hex_decode_spec in Hb.
    destruct (has_prefix (str "0x") t) eqn:Hp.
    + apply has_prefix_spec in Hp as [r ->]. rewrite trim_prefix_app in Hb. exists r. auto.
    + rewrite trim_prefix_other in Hb by done. exists t. auto.
  - intros (ds & Hs & [->| ->]).
    + destruct (is_empty ds) eqn:He.
      { apply is_empty_spec in He as ->. by inversion Hs. }
      rewrite trim_prefix_other by (by eapply spells_no_prefix). by rewrite (proj2 (hex_decode_spec ds k) Hs).
    + rewrite (proj2 (is_empty_false _)) by done. rewrite trim_prefix_app. by rewrite (proj2 (hex_decode_spec ds k) Hs).
Qed.

(** ** The options of a configuration *)

(** How the two words are read. *)
Definition auth_of (u : bytes → bytes) (c : Config) : option AuthType :=
  let auth := to_lower u (cfg_AuthType c) in
  if is_one_of auth [str ""; str "floodgate"] then Some Floodgate
  else if is_one_of auth [str "online"] then Some Online
  else if is_one_of auth [str "offline"] then Some Offline
  else None.
Definition mode_of (u : bytes → bytes) (c : Config) : option Mode :=
  let mode := to_lower u (cfg_Mode c) in
  if is_one_of mode [str ""; str "embedded"] then Some ModeEmbedded
  else if is_one_of mode [str "subprocess"] then Some ModeSubprocess
  else None.

(** The options a configuration means. *)
Record means (u : bytes → bytes) (c : Config) (logger : option Z) (o : Options) : Prop := {
  mn_auth : auth_of u c = Some (AuthType_of o);
  mn_mode : mode_of u c = Some (Mode_of o);
  mn_key : if AuthType_of o =? Floodgate then decodeFloodgateKey (cfg_FloodgateKey c) = Ok (FloodgateKey o)
           else FloodgateKey o = [];
  mn_logger : Logger o = logger;
  mn_same : (Listen o, Upstream o, MOTD_of o, LibraryPath o, Mirror o, OfflineMode o, ConfigOverrides o)
    = (cfg_Listen c, cfg_Upstream c, cfg_MOTD c, cfg_LibraryPath c, cfg_Mirror c, cfg_Offline c, cfg_ConfigOverrides c);
  mn_unset : (BinaryPath o, JVMArgs o, RestartPolicy_of o, ShutdownTimeout o, Version o) = ([], None, None, 0, []);
}.

Lemma toOptions_cases u c logger :
  match toOptions u c logger with
  | Ok o => means u c logger o
  | Err ErrAuthType => auth_of u c = None
  | Err ErrKeyHex => auth_of u c = Some Floodgate ∧ decodeFloodgateKey (cfg_FloodgateKey c) = Err ErrKeyHex
  | Err ErrMode => auth_of u c ≠ None ∧ mode_of u c = None
  | Err (ErrOptions _) | Panic => False
  end.
Proof.
  unfold toOptions.
  assert (∀ a key, auth_of u c = Some a →
    (if a =? Floodgate then decodeFloodgateKey (cfg_FloodgateKey c) = Ok key else key = []) →
    match (mode ← (if is_one_of (to_lower u (cfg_Mode c)) [str ""; str "embedded"] then Ok ModeEmbedded
             else if is_one_of (to_lower u (cfg_Mode c)) [str "subprocess"] then Ok ModeSubprocess
             else Err ErrMode);
           Ok (MkOptions (cfg_Listen c) (cfg_Upstream c) a key (cfg_MOTD c) mode
             (cfg_LibraryPath c) [] None logger None 0 [] (cfg_Mirror c) (cfg_Offline c) (cfg_ConfigOverrides c))) with
    | Ok o => means u c logger o
    | Err ErrMode => auth_of u c ≠ None ∧ mode_of u c = None
    | _ => False
    end) as Hmode.
  { intros a key Ha Hkey. unfold mode_of. destruct (is_one_of _ [str ""; str "embedded"]) eqn:H1.
    - constructor; cbn; try done. unfold mode_of. by rewrite H1.
    - destruct (is_one_of _ [str "subprocess"]) eqn:H2; [|split; [by rewrite Ha|done]].
      constructor; cbn; try done. unfold mode_of. by rewrite H1, H2. }
  unfold auth_of in *. destruct (is_one_of _ [str ""; str "floodgate"]).
  - destruct (decodeFloodgateKey (cfg_FloodgateKey c)) as [key|e|] eqn:Hkey.
    + specialize (Hmode Floodgate key eq_refl eq_refl). cbn [mbind res_bind].
      destruct (_ ≫= _) as [o|[]|]; done.
    + cbn. unfold decodeFloodgateKey in Hkey. repeat case_match; by simplify_eq.
    + unfold decodeFloodgateKey in Hkey. repeat case_match; by simplify_eq.
  - destruct (is_one_of _ [str "online"]).
    + specialize (Hmode Online [] eq_refl eq_refl). cbn [mbind res_bind]. destruct (_ ≫= _) as [o|[]|]; done.
    + destruct (is_one_of _ [str "offline"]); [|done].
      specialize (Hmode Offline [] eq_refl eq_refl). cbn [mbind res_bind]. destruct (_ ≫= _) as [o|[]|]; done.
Qed.

(** ** Properties *)

Section props.
Context (u : bytes → bytes) (d : Z) {E : Type}.

(** The server behind a handle. *)
Record wraps (c : Config) (o : Options) (b : Bedrock E) : Prop := {
  wr_means : means u c (logger b) o;
  wr_ready : ready_options (sv_opts (server b));
  wr_completes : completes o (sv_opts (server b));
  wr_runner : sv_runner (server b) = if Mode_of o =? ModeSubprocess then subprocessRunner else embeddedRunner;
  wr_fresh : sv_started (server b) = false ∧ sv_done (server b) = None;
}.

Lemma newSrv_cases (o : Options) (Hm : Mode_of o = ModeEmbedded ∨ Mode_of o = ModeSubprocess) :
  match newSrv (E := E) d o with
  | Ok s => validate d o = (sv_opts s, None) ∧ sv_started s = false ∧ sv_done s = None
      ∧ sv_runner s = if Mode_of o =? ModeSubprocess then subprocessRunner else embeddedRunner
  | Err e => ∃ e', e = ErrOptions e' ∧ (validate d o).2 = Some e'
  | Panic => False
  end.
Proof.
  unfold newSrv, Server.New. destruct (validate d o) as [o' [e|]] eqn:Hv; [by exists e|].
  cbn. split_and!; try done. destruct (validate_ok d o o' Hv) as [_ [_ _ _ _ _ Hrest _]].
  injection Hrest as _ _ _ _ Hmode. rewrite Hmode. by destruct Hm as [->| ->].
Qed.

Lemma validate_accepts (o : Options) :
  (validate d o).2 = None ↔ Upstream o ≠ [] ∧ (AuthType_of o = Floodgate → zlen (FloodgateKey o) = 16).
Proof.
  unfold validate. destruct (is_empty (Upstream o)) eqn:Hu.
  { apply is_empty_spec in Hu. split; [done|]. by intros []. }
  apply is_empty_false in Hu. destruct (AuthType_of o =? Floodgate) eqn:Ha; cbn [andb].
  - destruct (zlen (FloodgateKey o) =? 16) eqn:Hk; cbn; [split; [split; [done|lia]|done]|].
    split; [done|]. intros [_ H]. lia.
  - split; [split; [done|lia]|done].
Qed.

Lemma mode_of_cases c m : mode_of u c = Some m → m = ModeEmbedded ∨ m = ModeSubprocess.
Proof. unfold mode_of. repeat case_match; intros; simplify_eq; auto. Qed.

(** C35: a disabled configuration gives the nil handle. An enabled one gives a handle
    exactly when its two words are known (in any letter case, or empty), the upstream is
    set and, for Floodgate, the key is the hexadecimal of 16 bytes (two digits a byte, in
    either case, with or without [0x] and white space around); the server behind it has the
    options the configuration means, those bytes as its key, completed with the defaults
    only, the runner of its mode, and has not been started. [New] cannot panic. *)
Theorem gate_new_spec c log :
  New (E := E) u d c log ≠ Panic
  ∧ (Enabled c = false → New (E := E) u d c log = Ok None)
  ∧ (∀ k, decodeFloodgateKey (cfg_FloodgateKey c) = Ok k ↔ says_key (cfg_FloodgateKey c) k)
  ∧ (Enabled c = true →
      (∀ b, New (E := E) u d c log = Ok b → ∃ b' o, b = Some b' ∧ wraps c o b'
         ∧ logger b' = match log with None => Some d | l => l end
         ∧ (auth_of u c = Some Floodgate → says_key (cfg_FloodgateKey c) (FloodgateKey (sv_opts (server b')))))
      ∧ ((∃ b, New (E := E) u d c log = Ok b) ↔
          auth_of u c ≠ None ∧ mode_of u c ≠ None ∧ cfg_Upstream c ≠ []
          ∧ (auth_of u c = Some Floodgate → ∃ k, says_key (cfg_FloodgateKey c) k ∧ zlen k = 16))).
Proof.
  setoid_rewrite <-decode_says. unfold New. set (l := match log with None => Some d | _ => log end).
  pose proof (toOptions_cases u c l) as Ho. destruct (Enabled c); cbn [negb]; [|done].
  destruct (toOptions u c l) as [o|e|]; cbn [mbind res_bind]; [|split_and!; try done; intros _|done].
  2: { split; [done|]. split; [by intros []|]. intros (Ha & Hm & _ & Hk). destruct e as [| | |]; [done|by destruct Ho| |done].
       destruct Ho as [Ha' Hd]. destruct (Hk Ha') as (k & Hk' & _). congruence. }
  pose proof (newSrv_cases o (mode_of_cases c _ (mn_mode _ _ _ _ Ho))) as Hs.
  pose proof (validate_accepts o) as Hacc. destruct Ho as [Ha Hm Hk Hl Hsame Hunset].
  assert (Upstream o = cfg_Upstream c) as Hup by congruence.
  assert (((validate d o).2 = None) ↔ auth_of u c ≠ None ∧ mode_of u c ≠ None ∧ cfg_Upstream c ≠ []
    ∧ (auth_of u c = Some Floodgate → ∃ k, decodeFloodgateKey (cfg_FloodgateKey c) = Ok k ∧ zlen k = 16)) as Hiff.
  { rewrite Hacc, Hup, Ha, Hm. split.
    - intros [Hu Hk16]. split_and!; try done. intros [= Hf]. rewrite Hf in Hk. exists (FloodgateKey o). split; [exact Hk|auto].
    - intros (_ & _ & Hu & Hk16). split; [done|]. intros Hf. rewrite Hf in Hk, Hk16.
      destruct (Hk16 eq_refl) as (k & Hk' & Hlen). cbn in Hk. congruence. }
  destruct (newSrv d o) as [s|e|]; cbn [mbind res_bind]; [|split_and!; try done; intros _|done].
  - destruct Hs as (Hv & Hst & Hdone & Hrun). destruct (validate_ok d o _ Hv) as [Hr Hc].
    split_and!; try done. intros _. split.
    + intros b [= <-]. exists (MkBedrock s l), o. split_and!; try done. intros Hf. rewrite Ha in Hf.
      injection Hf as Hf. rewrite Hf in Hk. cbn in Hk. cbn. rewrite Hk. destruct Hc as [_ _ _ _ _ Hrest _]. congruence.
    + rewrite <-Hiff, Hv. split; [done|]. eauto.
  - destruct Hs as (e' & -> & Hv). split; [done|]. rewrite <-Hiff, Hv. split; [by intros []|done].
Qed.
End props.

(** The key reaches the server intact: written in lower-case hexadecimal, with or
    without [0x] and with white space around, any 16 bytes come out of [New] as the key in
    the options of the server. *)
Theorem floodgate_key_intact {E} u d c log k prefix pad pad' :
  Bytes k → zlen k = 16 → prefix = [] ∨ prefix = str "0x" →
  forallb is_blank pad = true → forallb is_blank pad' = true →
  Enabled c = true → auth_of u c = Some Floodgate → mode_of u c ≠ None → cfg_Upstream c ≠ [] →
  cfg_FloodgateKey c = pad ++ (prefix ++ hex_encode k) ++ pad' →
  ∃ b, New (E := E) u d c log = Ok (Some b) ∧ FloodgateKey (sv_opts (server b)) = k.
Proof.
  intros HB Hk Hpre Hp Hp' Hen Ha Hm Hu Hkey. unfold New. rewrite Hen. cbn [negb].
  set (l := match log with None => Some d | _ => log end).
  assert (decodeFloodgateKey (cfg_FloodgateKey c) = Ok k) as Hdec.
  { rewrite Hkey. apply decode_padded; try done. by intros ->. }
  pose proof (toOptions_cases u c l) as Ho. destruct (toOptions u c l) as [o|[| | |e]|]; cbn [mbind res_bind].
  - pose proof (newSrv_cases (E := E) d o (mode_of_cases u c _ (mn_mode _ _ _ _ Ho))) as Hs.
    destruct Ho as [Ha' _ Hk' _ Hsame _]. rewrite Ha in Ha'. injection Ha' as Hf. rewrite <-Hf in Hk'. cbn in Hk'.
    assert (FloodgateKey o = k) as Hok by congruence.
    destruct (newSrv d o) as [s|e|]; [|destruct Hs as (e' & _ & Hv)|done].
    + destruct Hs as (Hv & _). destruct (validate_ok d o _ Hv) as [_ [_ _ _ _ _ Hrest _]].
      eexists. split; [done|]. cbn. congruence.
    + exfalso. assert ((validate d o).2 = None) as Hn; [|by rewrite Hv in Hn].
      apply validate_accepts. rewrite Hok. split; [congruence|done].
  - by rewrite Ha in Ho.
  - by destruct Ho.
  - destruct Ho as [_ H]. congruence.
  - done.
  - done.
Qed.

Module gate_demo.
Definition key : bytes := Z.of_nat <$> seq 160 16.
Definition cfg : Config :=
  MkConfig true (str ":19132") (str "127.0.0.1:25567") (str "FloodGate")
    ([32; 9] ++ (str "0x" ++ hex_encode key) ++ [10]) (Motd [] []) (str "Subprocess") [] [] false 0.
End gate_demo.

Lemma floodgate_key_intact_witness :
  ∃ b : Bedrock Z, New id 7 gate_demo.cfg None = Ok (Some b)
  ∧ FloodgateKey (sv_opts (server b)) = gate_demo.key.
Proof.
  apply (floodgate_key_intact id 7 gate_demo.cfg None gate_demo.key (str "0x") [32; 9] [10]).
  - apply (bool_decide_unpack _). by vm_compute.
  - reflexivity.
  - right. reflexivity.
  - reflexivity.
  - reflexivity.
  - reflexivity.
  - reflexivity.
  - vm_compute. discriminate.
  - vm_compute. discriminate.
  - reflexivity.
Defined.

Lemma gate_new_spec_witness :
  ∃ (b : Bedrock Z) o, New id 7 gate_demo.cfg None = Ok (Some b) ∧ wraps id gate_demo.cfg o b ∧ logger b = Some 7.
Proof.
  destruct (gate_new_spec id 7 (E := Z) gate_demo.cfg None) as (_ & _ & Hk & H).
  destruct (H eq_refl) as [Hw Hiff]. destruct (proj2 Hiff) as [b Hb].
  - split; [vm_compute; discriminate|]. split; [vm_compute; discriminate|]. split; [vm_compute; discriminate|].
    intros _. exists gate_demo.key. split; [apply Hk|]; vm_compute; reflexivity.
  - destruct (Hw b Hb) as (b' & o & Hbb & Hwr & Hl & _). exists b', o. subst b. exact (conj Hb (conj Hwr Hl)).
Defined.

(** The handle's methods: a nil one does nothing, and the end of a context is a clean stop. *)
Lemma gate_start_clean {E} (is_ctx : E → ctxError → bool) b run e :
  Start is_ctx b run = Some e →
  ∃ b', b = Some b' ∧ run b' = Some e ∧ ∀ target, errors_Is is_ctx e target = false.
Proof.
  destruct b as [b|]; [|done]. cbn. destruct (run b) as [e'|] eqn:Hr; [|done].
  destruct (_ || _) eqn:Hc; [done|]. intros [= <-]. exists b. split_and!; [done..|].
  apply orb_false_iff in Hc as [? ?]. by intros [].
Qed.

