(* ===== verification/Os.v ===== *)
(** * Files, paths and requests (Go's [os], [path/filepath] and the network)

    A file system maps cleaned Unix paths to nodes. An operation is a function on the
    state [os]; besides the failures its arguments cause, any operation can be made to
    fail by [os_faults], the environment's choice, one entry per operation. Nothing else
    changes the files between two operations. Programs are run in a state and error
    monad, [io], and reasoned about with its weakest preconditions, [wp]. *)
From S2P Require Import Prelude GoInt GoStrings.
From Stdlib Require Import DecimalString DecimalN.

(** ** Paths *)

Definition slash : Z := 47.

(** One element of a path, on the reversed stack of the elements before it. *)
Definition clean_step (rooted : bool) (stack : list bytes) (part : bytes) : list bytes :=
  if bool_decide (part = []) || bool_decide (part = str ".") then stack
  else if bool_decide (part = str "..") then
    match stack with
    | top :: rest => if bool_decide (top = str "..") then part :: stack else rest
    | [] => if rooted then [] else [part]
    end
  else part :: stack.

(** [filepath.Clean]. *)
Definition path_clean (p : bytes) : bytes :=
  let rooted := has_prefix [slash] p in
  let parts := rev (foldl (clean_step rooted) [] (split slash p)) in
  if rooted then slash :: join slash parts
  else match parts with [] => str "." | _ => join slash parts end.

(** [filepath.Join]: the empty elements are dropped. *)
Definition path_join (elems : list bytes) : bytes :=
  match filter (λ e, e ≠ []) elems with
  | [] => []
  | elems => path_clean (join slash elems)
  end.

(** [filepath.Dir]. *)
Definition path_dir (p : bytes) : bytes :=
  match last_index_byte slash p with
  | Some i => path_clean (ztake (i + 1) p)
  | None => str "."
  end.

Example path_join_dots :
  path_join [str "/var/cache"; str "geyserlite"; str ".."; str "x"] = str "/var/cache/x".
Proof. reflexivity. Qed.
Example path_dir_file : path_dir (str "/var/cache/x") = str "/var/cache".
Proof. reflexivity. Qed.

(** An element of a path that cleaning keeps. *)
Record plain (a : bytes) : Prop := {
  pl_nonempty : a ≠ [];
  pl_dot : a ≠ str ".";
  pl_dots : a ≠ str "..";
  pl_slash : slash ∉ a;
}.

Lemma last_app_ne {A} (l k : list A) : k ≠ [] → last (l ++ k) = last k.
Proof. intros Hk. rewrite last_app. destruct (last k) eqn:H; [done|]. by apply last_None in H. Qed.

Lemma join_snoc c l a : join c (l ++ [a]) = match l with [] => a | _ => join c l ++ c :: a end.
Proof.
  induction l as [|x l IH]; [done|]. destruct l as [|y l]; [done|].
  change (join c ((x :: y :: l) ++ [a])) with (x ++ c :: join c ((y :: l) ++ [a])).
  rewrite IH. change (join c (x :: y :: l)) with (x ++ c :: join c (y :: l)). by rewrite <-app_assoc.
Qed.
Lemma split_snoc c x a : c ∉ a → split c (x ++ c :: a) = split c x ++ [a].
Proof.
  intros Ha. induction x as [|b x IH]; cbn [split app]; [by rewrite Z.eqb_refl, split_part|].
  rewrite IH. destruct (b =? c); [done|].
  destruct (split_nonempty c x) as (part & parts & ->). done.
Qed.

(** The last element of a path stays at its end. *)
Lemma path_clean_last x a : x ≠ [] → plain a → last (path_clean (x ++ slash :: a)) = last a.
Proof.
  intros Hx [Hne Hd Hdd Hs]. unfold path_clean. rewrite split_snoc by done. rewrite foldl_snoc.
  set (rooted := has_prefix _ _). set (stack := foldl _ _ _).
  assert (clean_step rooted stack a = a :: stack) as ->.
  { unfold clean_step. by rewrite !bool_decide_false by done. }
  cbn [rev]. assert (last (join slash (rev stack ++ [a])) = last a) as Hl.
  { rewrite join_snoc. destruct (rev stack); [done|]. rewrite last_app_ne by done.
    change (slash :: a) with ([slash] ++ a). by rewrite last_app_ne. }
  assert (join slash (rev stack ++ [a]) ≠ []) as Hj.
  { intros H. rewrite H in Hl. symmetry in Hl. by apply last_None in Hl. }
  destruct rooted.
  - change (slash :: join slash (rev stack ++ [a])) with ([slash] ++ join slash (rev stack ++ [a])).
    by rewrite last_app_ne.
  - destruct (rev stack ++ [a]) eqn:H; [by destruct (rev stack)|done].
Qed.

(** A cleaned path of a directory other than the root and the current one. *)
Record tidy (w : bytes) : Prop := {
  td_clean : path_clean w = w;
  td_dot : w ≠ str ".";
  td_root : w ≠ [slash];
  td_last : last w ≠ Some slash;
}.

Lemma tidy_nonempty w : tidy w → w ≠ [].
Proof. intros [Hc _ _ _] ->. done. Qed.

(** Below it, cleaning does nothing. *)
Lemma path_clean_below w a : tidy w → plain a → path_clean (w ++ slash :: a) = w ++ slash :: a.
Proof.
  intros Hw [Hne Hd Hdd Hs]. pose proof (tidy_nonempty w Hw) as Hwne. destruct Hw as [Hc Hdot Hroot _].
  unfold path_clean in *. rewrite split_snoc by done. rewrite foldl_snoc.
  assert (has_prefix [slash] (w ++ slash :: a) = has_prefix [slash] w) as -> by (by destruct w).
  revert Hc. set (rooted := has_prefix _ _). set (stack := foldl _ _ _). intros Hc.
  assert (clean_step rooted stack a = a :: stack) as ->.
  { unfold clean_step. by rewrite !bool_decide_false by done. }
  cbn [rev]. rewrite join_snoc. destruct (rev stack) as [|x l] eqn:Hst.
  - destruct rooted; [by destruct Hroot|by destruct Hdot].
  - destruct rooted; [|by rewrite Hc].
    change (slash :: join slash (x :: l) ++ slash :: a) with ((slash :: join slash (x :: l)) ++ slash :: a).
    by rewrite Hc.
Qed.
Lemma tidy_below w a : tidy w → plain a → tidy (w ++ slash :: a).
Proof.
  intros Hw Ha. split; [by apply path_clean_below| | |].
  - intros H%(f_equal length). rewrite length_app in H. cbn in H.
    pose proof (tidy_nonempty w Hw). pose proof (pl_nonempty a Ha). destruct w, a; cbn in H; done || lia.
  - intros H%(f_equal length). rewrite length_app in H. cbn in H.
    pose proof (tidy_nonempty w Hw). destruct w; cbn in H; done || lia.
  - change (slash :: a) with ([slash] ++ a). rewrite app_assoc, last_app_ne by apply Ha.
    intros H%last_Some. destruct H as [l Hl]. apply (pl_slash a Ha). rewrite Hl. rewrite elem_of_app.
    right. apply list_elem_of_here.
Qed.
Lemma path_join_below w a : tidy w → plain a → path_join [w; a] = w ++ slash :: a.
Proof.
  intros Hw Ha. unfold path_join. rewrite !filter_cons, filter_nil.
  rewrite (decide_True (P := w ≠ [])) by (by apply tidy_nonempty).
  rewrite (decide_True (P := a ≠ [])) by (by apply pl_nonempty).
  by apply path_clean_below.
Qed.

Lemma path_dir_below w a : tidy w → plain a → path_dir (w ++ slash :: a) = w.
Proof.
  intros Hw Ha. unfold path_dir. rewrite last_index_byte_app by apply Ha.
  change (w ++ slash :: a) with (w ++ [slash] ++ a). rewrite app_assoc, ztake_app_eq.
  2: { rewrite zlen_app. done. }
  pose proof (tidy_nonempty w Hw) as Hwne. destruct Hw as [Hc _ _ _]. unfold path_clean in *.
  assert (has_prefix [slash] (w ++ [slash]) = has_prefix [slash] w) as -> by (by destruct w).
  rewrite (split_snoc slash w []) by apply not_elem_of_nil. by rewrite foldl_snoc.
Qed.

Lemma path_join2_last d a : plain a → last (path_join [d; a]) = last a.
Proof.
  intros Ha. pose proof (pl_nonempty a Ha) as Hne. unfold path_join. rewrite !filter_cons, filter_nil.
  rewrite (decide_True (P := a ≠ [])) by done. case_decide as Hd; cbn [join].
  - by apply path_clean_last.
  - unfold path_clean. rewrite split_part by apply Ha. destruct Ha as [_ Hdot Hdd Hs].
    assert (has_prefix [slash] a = false) as ->.
    { destruct a as [|b a]; [done|]. apply not_true_iff_false.
      intros [Hb%Z.eqb_eq _]%andb_prop. destruct Hs. subst b. apply list_elem_of_here. }
    cbn. unfold clean_step. by rewrite !bool_decide_false by done.
Qed.
Lemma path_join3_last d e a : plain a → last (path_join [d; e; a]) = last a.
Proof.
  intros Ha. destruct (decide (e = [])) as [->|He].
  { rewrite <-(path_join2_last d a Ha). unfold path_join. by rewrite !filter_cons. }
  pose proof (pl_nonempty a Ha) as Hne. unfold path_join. rewrite !filter_cons, filter_nil.
  rewrite (decide_True (P := e ≠ [])), (decide_True (P := a ≠ [])) by done.
  case_decide as Hd; cbn [join].
  - change (d ++ slash :: e ++ slash :: a) with (d ++ (slash :: e) ++ slash :: a).
    rewrite app_assoc. apply path_clean_last; [by destruct d|done].
  - by apply path_clean_last.
Qed.

(** ** The state *)

(** A file has its content and its permission bits. *)
Inductive node := Dir | File (data : bytes) (mode : Z).

#[export] Instance node_eq_dec : EqDecision node.
Proof. solve_decision. Defined.

(** The mode [0ougo]. *)
Definition perm (u g o : Z) : Z := u * 64 + g * 8 + o.

Abbreviation files := (gmap bytes node).

(** [Some n]: the operation fails; if it writes, after [n] bytes, or before opening the
    file when [n] is negative. *)
Abbreviation fault := (option Z).

Record os := Os {
  os_files : files;
  os_faults : list fault;
  os_rand : list N;         (* the random numbers in the names of temporary files *)
  os_umask : Z;
  os_sent : list bytes;     (* the URLs requested so far, the last one first *)
  os_cwd : bytes;           (* the current directory of the process *)
}.

Definition set_files (fs : files) (s : os) : os :=
  Os fs (os_faults s) (os_rand s) (os_umask s) (os_sent s) (os_cwd s).
Definition set_rand (rs : list N) (s : os) : os :=
  Os (os_files s) (os_faults s) rs (os_umask s) (os_sent s) (os_cwd s).
Definition sent (url : bytes) (s : os) : os :=
  Os (os_files s) (os_faults s) (os_rand s) (os_umask s) (url :: os_sent s) (os_cwd s).
Definition set_cwd (d : bytes) (s : os) : os :=
  Os (os_files s) (os_faults s) (os_rand s) (os_umask s) (os_sent s) d.

Inductive errno := ENOENT | EOTHER.

(** ** The monad *)

Definition io (E A : Type) : Type := os → res E A * os.
#[export] Instance io_ret {E} : MRet (io E) := λ A a s, (Ok a, s).
#[export] Instance io_bind {E} : MBind (io E) := λ A B f m s,
  match m s with
  | (Ok a, s) => f a s
  | (Err e, s) => (Err e, s)
  | (Panic, s) => (Panic, s)
  end.

Definition throw {E A} (e : E) : io E A := λ s, (Err e, s).

(** [if err != nil { return e }]. *)
Definition or_fail {E E' A} (e : E) (m : io E' A) : io E A := λ s,
  match m s with
  | (Ok a, s) => (Ok a, s)
  | (Err _, s) => (Err e, s)
  | (Panic, s) => (Panic, s)
  end.

(** The error is looked at, or ignored, by what follows. *)
Definition try {E E' A} (m : io E' A) : io E (E' + A) := λ s,
  match m s with
  | (Ok a, s) => (Ok (inr a), s)
  | (Err e, s) => (Ok (inl e), s)
  | (Panic, s) => (Panic, s)
  end.

(** [if err != nil { _ = c(); return err }]. *)
Definition cleanup {E E' A B} (c : io E' B) (m : io E A) : io E A := λ s,
  match m s with
  | (Err e, s) => (Err e, (c s).2)
  | r => r
  end.

(** A pure step that may fail. *)
Definition lift {E A} (r : res E A) : io E A := λ s, (r, s).

(** ** Operations *)

(** The environment's choice for the next operation. *)
Definition next_fault (s : os) : fault * os :=
  match os_faults s with
  | [] => (None, s)
  | f :: rest => (f, Os (os_files s) rest (os_rand s) (os_umask s) (os_sent s) (os_cwd s))
  end.

(** An operation: the result and the new files, or failure without an effect. *)
Definition syscall {A} (act : files → res errno (A * files)) : io errno A := λ s,
  let '(f, s) := next_fault s in
  match f with
  | Some _ => (Err EOTHER, s)
  | None =>
      match act (os_files s) with
      | Ok (a, fs) => (Ok a, set_files fs s)
      | Err e => (Err e, s)
      | Panic => (Panic, s)
      end
  end.

(** [os.Open], the whole content and [Close]; a directory opens but does not read. *)
Definition read_file (p : bytes) : io errno bytes :=
  syscall (λ fs, match fs !! p with
                 | Some (File d _) => Ok (d, fs)
                 | Some Dir => Err EOTHER
                 | None => Err ENOENT
                 end).

Definition stat (p : bytes) : io errno node :=
  syscall (λ fs, match fs !! p with Some n => Ok (n, fs) | None => Err ENOENT end).

(** The directories above a cleaned path, itself included, [fuel] levels at most. *)
Fixpoint ancestors (fuel : nat) (p : bytes) : list bytes :=
  match fuel with
  | O => [p]
  | S fuel => let d := path_dir p in if bool_decide (d = p) then [p] else p :: ancestors fuel d
  end.

(** [os.MkdirAll]: fails on a file in the way. *)
Definition mkdir_all (p : bytes) : io errno unit :=
  syscall (λ fs,
    let ps := ancestors (length p) p in
    if forallb (λ d, match fs !! d with Some (File _ _) => false | _ => true end) ps
    then Ok (tt, foldr (λ d fs, <[d := Dir]> fs) fs ps) else Err EOTHER).

(** The name of a new file in [dir]. *)
Definition in_dir (dir name : bytes) : bytes :=
  if bool_decide (last dir = Some slash) then dir ++ name else dir ++ [slash] ++ name.

(** A number in decimal. *)
Definition itoa (n : N) : bytes := str (NilZero.string_of_uint (N.to_uint n)).

(** The first of the random names that is new, and the names left. *)
Fixpoint fresh_name (fs : files) (pre suf : bytes) (tries : list N) : option (bytes * list N) :=
  match tries with
  | [] => None
  | r :: tries =>
      let name := pre ++ itoa r ++ suf in
      if bool_decide (fs !! name = None) then Some (name, tries)
      else fresh_name fs pre suf tries
  end.

(** [os.CreateTemp(dir, pre + "*" + suf)], with [new] for the new node; 10000 tries. *)
Definition make_temp (new : Z → node) (dir pre suf : bytes) : io errno bytes := λ s,
  let '(f, s) := next_fault s in
  match f, os_files s !! dir, fresh_name (os_files s) (in_dir dir pre) suf (ztake 10000 (os_rand s)) with
  | None, Some Dir, Some (name, rest) =>
      (Ok name, set_rand rest (set_files (<[name := new (os_umask s)]> (os_files s)) s))
  | _, _, _ => (Err EOTHER, s)
  end.
Definition create_temp := make_temp (λ umask, File [] (Z.ldiff (perm 6 0 0) umask)).
Definition mkdir_temp := make_temp (λ _, Dir).

(** [os.OpenFile(p, O_CREATE|O_WRONLY|O_TRUNC, mode)], writing [data] and [Close]: on a
    fault a prefix of [data] is there. [complete]: the source of the data gave all of it. *)
Definition write_file (p data : bytes) (mode : Z) (complete : bool) : io errno unit := λ s,
  let '(f, s) := next_fault s in
  let put m :=
    match f with
    | Some n =>
        (Err EOTHER, if n <? 0 then s else set_files (<[p := File (ztake n data) m]> (os_files s)) s)
    | None =>
        (if complete then Ok tt else Err EOTHER, set_files (<[p := File data m]> (os_files s)) s)
    end in
  match os_files s !! p, os_files s !! path_dir p with
  | Some Dir, _ => (Err EOTHER, s)
  | Some (File _ m), _ => put m
  | None, Some Dir => put (Z.ldiff mode (os_umask s))
  | None, _ => (Err EOTHER, s)
  end.

Definition chmod (p : bytes) (mode : Z) : io errno unit :=
  syscall (λ fs, match fs !! p with
                 | Some (File d _) => Ok (tt, <[p := File d mode]> fs)
                 | Some Dir => Ok (tt, fs)
                 | None => Err ENOENT
                 end).

(** [os.Rename] of a file: replaces a file, fails on a directory. *)
Definition rename (old new : bytes) : io errno unit :=
  syscall (λ fs, match fs !! old, fs !! new, fs !! path_dir new with
                 | Some (File d m), Some Dir, _ => Err EOTHER
                 | Some (File d m), _, Some Dir => Ok (tt, <[new := File d m]> (delete old fs))
                 | _, _, _ => Err EOTHER
                 end).

Definition remove (p : bytes) : io errno unit :=
  syscall (λ fs, match fs !! p with
                 | Some (File _ _) => Ok (tt, delete p fs)
                 | Some Dir => Err EOTHER
                 | None => Err ENOENT
                 end).

(** [os.Getwd] and [os.Chdir]. *)
Definition getwd : io errno bytes := λ s,
  let '(f, s) := next_fault s in
  match f with None => (Ok (os_cwd s), s) | Some _ => (Err EOTHER, s) end.
Definition chdir (p : bytes) : io errno unit := λ s,
  let '(f, s) := next_fault s in
  match f, os_files s !! p with
  | None, Some Dir => (Ok tt, set_cwd p s)
  | _, _ => (Err EOTHER, s)
  end.

(** [p] is [dir] or below it. *)
Definition under (dir p : bytes) : bool := bool_decide (p = dir) || has_prefix (dir ++ [slash]) p.

(** [os.RemoveAll] of a directory that is not the root; on a fault part of it may be left. *)
Definition remove_all (dir : bytes) : io errno unit := λ s,
  let '(f, s) := next_fault s in
  let ps := filter (λ p, under dir p = true) (map_to_list (os_files s)).*1 in
  let drop ps := set_files (foldr delete (os_files s) ps) s in
  match f with
  | None => (Ok tt, drop ps)
  | Some n => (Err EOTHER, drop (ztake n ps))
  end.

(** [defer c()] around the rest of a function. *)
Definition deferring {E E' A B} (c : io E' B) (m : io E A) : io E A := λ s,
  let '(r, s) := m s in (r, (c s).2).

(** What is still running when a function has returned, and goes on after it. *)
Definition outlived {E E' A} (late : E → io E' unit) (m : io E A) : io E A := λ s,
  let '(r, s) := m s in (r, match r with Err e => (late e s).2 | _ => s end).

(** ** Weakest preconditions *)

Definition wp {E A} (m : io E A) (Q : res E A → os → Prop) (s : os) : Prop := Q (m s).1 (m s).2.

Section wp.
Context {E E' A B : Type}.

Lemma wp_mono (m : io E A) (P Q : res E A → os → Prop) s :
  (∀ r s', P r s' → Q r s') → wp m P s → wp m Q s.
Proof. unfold wp. auto. Qed.

Lemma wp_bind (m : io E A) (f : A → io E B) Q s :
  wp m (λ r s', match r with
                | Ok a => wp (f a) Q s'
                | Err e => Q (Err e) s'
                | Panic => Q Panic s'
                end) s → wp (m ≫= f) Q s.
Proof. unfold wp, mbind, io_bind. by destruct (m s) as [[]]. Qed.
Lemma wp_ret (a : A) (Q : res E A → os → Prop) s : Q (Ok a) s → wp (mret a) Q s.
Proof. done. Qed.
Lemma wp_throw (e : E) (Q : res E A → os → Prop) s : Q (Err e) s → wp (throw e) Q s.
Proof. done. Qed.
Lemma wp_lift (r : res E A) Q s : Q r s → wp (lift r) Q s.
Proof. done. Qed.
Lemma wp_or_fail (e : E) (m : io E' A) Q s :
  wp m (λ r s', Q match r with Ok a => Ok a | Err _ => Err e | Panic => Panic end s') s →
  wp (or_fail e m) Q s.
Proof. unfold wp, or_fail. by destruct (m s) as [[]]. Qed.
Lemma wp_try (m : io E' A) (Q : res E (E' + A) → os → Prop) s :
  wp m (λ r s', Q match r with Ok a => Ok (inr a) | Err e => Ok (inl e) | Panic => Panic end s') s →
  wp (try m) Q s.
Proof. unfold wp, try. by destruct (m s) as [[]]. Qed.
Lemma wp_cleanup (c : io E' B) (m : io E A) Q s :
  wp m (λ r s', match r with
                | Err e => wp c (λ _ s'', Q (Err e) s'') s'
                | r => Q r s'
                end) s → wp (cleanup c m) Q s.
Proof. unfold wp, cleanup. by destruct (m s) as [[]]. Qed.
End wp.

(** No operation is made to fail. *)
Definition quiet (s : os) : Prop := os_faults s = [].

(** The files are now [fs]; no request was made. *)
Record becomes (fs : files) (s s' : os) : Prop := {
  bc_files : os_files s' = fs;
  bc_sent : os_sent s' = os_sent s;
  bc_quiet : quiet s → quiet s';
}.

Lemma next_fault_becomes s :
  becomes (os_files s) s (next_fault s).2 ∧ os_umask (next_fault s).2 = os_umask s
  ∧ os_rand (next_fault s).2 = os_rand s ∧ (quiet s → (next_fault s).1 = None).
Proof. unfold next_fault, quiet. destruct (os_faults s) eqn:Hf; (split; [constructor|split; [|split]]); congruence || done. Qed.

Lemma wp_syscall {A} (act : files → res errno (A * files)) Q s :
  (∀ fs, act fs ≠ Panic) →
  (∀ e s', becomes (os_files s) s s' → act (os_files s) = Err e ∨ ¬ quiet s → Q (Err e) s') →
  (∀ a fs s', becomes fs s s' → act (os_files s) = Ok (a, fs) → Q (Ok a) s') →
  wp (syscall act) Q s.
Proof.
  intros Hp He Ho. unfold wp, syscall. destruct (next_fault_becomes s) as ([Hfs Hs Hq] & _ & _ & Hn).
  destruct (next_fault s) as [f s1]; cbn in *. destruct f.
  - apply He; [done|]. right. intros Hqu. by specialize (Hn Hqu).
  - rewrite Hfs. specialize (Hp (os_files s)). destruct (act (os_files s)) as [[a fs]|e|] eqn:Ha; [| |done].
    + by eapply Ho.
    + apply He; [done|]. by left.
Qed.

Lemma becomes_trans fs fs' s s1 s2 : becomes fs s s1 → becomes fs' s1 s2 → becomes fs' s s2.
Proof. intros [? H1 Hq1] [? H2 Hq2]. constructor; [done|congruence|auto]. Qed.

(** The rules of the operations. *)
Section rules.
Context (s : os).

(** An error of the operation itself comes from the files. *)
Definition fault_or (P : Prop) : Prop := P ∨ ¬ quiet s.

Lemma wp_read_file p Q :
  (∀ e s', becomes (os_files s) s s' → fault_or (∀ d m, os_files s !! p ≠ Some (File d m)) → Q (Err e) s') →
  (∀ d m s', becomes (os_files s) s s' → os_files s !! p = Some (File d m) → Q (Ok d) s') →
  wp (read_file p) Q s.
Proof.
  intros He Ho. apply wp_syscall.
  - intros fs. by destruct (fs !! p) as [[]|].
  - intros e s' Hs Hc. apply He; [done|]. destruct Hc as [Hc|Hc]; [left|by right].
    intros d m Hd. by rewrite Hd in Hc.
  - intros a fs s' Hs Hc. destruct (os_files s !! p) as [[|d m]|] eqn:Hd; [done| |done].
    injection Hc as <- <-. by eapply Ho.
Qed.

Lemma wp_stat p Q :
  (∀ e s', becomes (os_files s) s s' → fault_or (e = ENOENT ∧ os_files s !! p = None) → Q (Err e) s') →
  (∀ n s', becomes (os_files s) s s' → os_files s !! p = Some n → Q (Ok n) s') →
  wp (stat p) Q s.
Proof.
  intros He Ho. apply wp_syscall.
  - intros fs. by destruct (fs !! p).
  - intros e s' Hs Hc. apply He; [done|]. destruct Hc as [Hc|Hc]; [left|by right].
    destruct (os_files s !! p); by simplify_eq.
  - intros a fs s' Hs Hc. destruct (os_files s !! p) as [n|] eqn:Hd; [|done].
    injection Hc as <- <-. by eapply Ho.
Qed.

Lemma wp_chmod p mode Q :
  (∀ e s', becomes (os_files s) s s' → fault_or (os_files s !! p = None) → Q (Err e) s') →
  (∀ d m s', becomes (<[p := File d mode]> (os_files s)) s s' →
     os_files s !! p = Some (File d m) → Q (Ok tt) s') →
  (∀ s', becomes (os_files s) s s' → os_files s !! p = Some Dir → Q (Ok tt) s') →
  wp (chmod p mode) Q s.
Proof.
  intros He Ho Hdir. apply wp_syscall.
  - intros fs. by destruct (fs !! p) as [[]|].
  - intros e s' Hs Hc. apply He; [done|]. destruct Hc as [Hc|Hc]; [left|by right].
    by destruct (os_files s !! p) as [[]|].
  - intros [] fs s' Hs Hc. destruct (os_files s !! p) as [[|d m]|] eqn:Hd; [| |done];
      injection Hc as <-; eauto.
Qed.

Lemma wp_remove p Q :
  (∀ e s', becomes (os_files s) s s' → fault_or (∀ d m, os_files s !! p ≠ Some (File d m)) → Q (Err e) s') →
  (∀ s', becomes (delete p (os_files s)) s s' → Q (Ok tt) s') →
  wp (remove p) Q s.
Proof.
  intros He Ho. apply wp_syscall.
  - intros fs. by destruct (fs !! p) as [[]|].
  - intros e s' Hs Hc. apply He; [done|]. destruct Hc as [Hc|Hc]; [left|by right].
    intros d m Hd. by rewrite Hd in Hc.
  - intros [] fs s' Hs Hc. destruct (os_files s !! p) as [[|d m]|] eqn:Hd; [done| |done].
    injection Hc as <-. auto.
Qed.

Lemma wp_rename old new Q :
  (∀ e s', becomes (os_files s) s s' → Q (Err e) s') →
  (∀ d m s', becomes (<[new := File d m]> (delete old (os_files s))) s s' →
     os_files s !! old = Some (File d m) → Q (Ok tt) s') →
  wp (rename old new) Q s.
Proof.
  intros He Ho. apply wp_syscall.
  - intros fs. by repeat case_match.
  - auto.
  - intros [] fs s' Hs Hc. destruct (os_files s !! old) as [[|d m]|] eqn:Hd; [done| |done].
    repeat case_match; try done; injection Hc as <-; eauto.
Qed.

(** Directories made: nothing else changes. *)
Definition adds_dirs (fs fs' : files) : Prop :=
  ∀ p, fs' !! p = fs !! p ∨ fs !! p = None ∧ fs' !! p = Some Dir.

Lemma foldr_dirs (ps : list bytes) (fs : files) :
  forallb (λ d, match fs !! d with Some (File _ _) => false | _ => true end) ps = true →
  adds_dirs fs (foldr (λ d fs, <[d := Dir]> fs) fs ps).
Proof.
  induction ps as [|d ps IH]; cbn [forallb foldr]; intros H p; [by left|].
  apply andb_prop in H as [Hd H]. destruct (decide (p = d)) as [->|Hne].
  - rewrite lookup_insert_eq. destruct (fs !! d) as [[]|]; auto. done.
  - rewrite lookup_insert_ne by done. by apply IH.
Qed.

Lemma wp_mkdir_all p Q :
  (∀ e s', becomes (os_files s) s s' → Q (Err e) s') →
  (∀ fs s', becomes fs s s' → adds_dirs (os_files s) fs → Q (Ok tt) s') →
  wp (mkdir_all p) Q s.
Proof.
  intros He Ho. apply wp_syscall.
  - intros fs. cbv zeta. by case_match.
  - auto.
  - intros [] fs s' Hs Hc. cbv zeta in Hc. case_match eqn:Hb; [|done]. injection Hc as <-.
    eapply Ho; [done|]. by apply foldr_dirs.
Qed.

Lemma itoa_digits n : forallb is_digit (itoa n) = true.
Proof.
  unfold itoa. assert (∀ d, forallb is_digit (str (NilEmpty.string_of_uint d)) = true) as H.
  { by induction d. }
  unfold NilZero.string_of_uint. destruct (N.to_uint n); [done|apply H..].
Qed.

Lemma fresh_name_spec fs pre suf tries name rest :
  fresh_name fs pre suf tries = Some (name, rest) →
  fs !! name = None ∧ ∃ r, name = pre ++ itoa r ++ suf.
Proof.
  induction tries as [|r tries IH]; cbn [fresh_name]; [done|]. cbv zeta. case_bool_decide as Hf.
  - intros [= <- <-]. eauto.
  - apply IH.
Qed.

Lemma wp_make_temp new dir pre suf Q :
  (∀ s', becomes (os_files s) s s' → Q (Err EOTHER) s') →
  (∀ name r s', becomes (<[name := new (os_umask s)]> (os_files s)) s s' →
     os_files s !! name = None → name = in_dir dir pre ++ itoa r ++ suf → os_files s !! dir = Some Dir →
     Q (Ok name) s') →
  wp (make_temp new dir pre suf) Q s.
Proof.
  intros He Ho. unfold wp, make_temp.
  destruct (next_fault_becomes s) as (Hb & Hu & Hr & _). pose proof Hb as [Hfs Hs Hq].
  destruct (next_fault s) as [f s1]; cbn in *. rewrite Hfs, Hu, Hr.
  destruct f; [by apply He|]. destruct (os_files s !! dir) as [[]|] eqn:Hd; [|by apply He..].
  destruct (fresh_name (os_files s) _ _ _) as [[name rest]|] eqn:Hf; [|by apply He].
  apply fresh_name_spec in Hf as (Hfresh & r & Heq).
  eapply (Ho name r); [constructor; [done|done|exact Hq]|done..].
Qed.

Lemma wp_write_file p data mode complete Q :
  (∀ e s', becomes (os_files s) s s' → Q (Err e) s') →
  (∀ e d m s', becomes (<[p := File d m]> (os_files s)) s s' → fault_or (complete = false) → Q (Err e) s') →
  (∀ m s', becomes (<[p := File data m]> (os_files s)) s s' → complete = true →
     m = match os_files s !! p with Some (File _ m) => m | _ => Z.ldiff mode (os_umask s) end →
     os_files s !! p ≠ Some Dir →
     Q (Ok tt) s') →
  wp (write_file p data mode complete) Q s.
Proof.
  intros He Hpart Ho. unfold wp, write_file.
  destruct (next_fault_becomes s) as (Hb & Hu & Hr & Hn). pose proof Hb as [Hfs Hs Hq].
  destruct (next_fault s) as [f s1]; cbn in *. rewrite Hfs, Hu.
  assert (∀ d m, becomes (<[p := File d m]> (os_files s)) s (set_files (<[p := File d m]> (os_files s)) s1)) as Hset.
  { intros d m. by constructor. }
  assert (∀ m, m = match os_files s !! p with Some (File _ m) => m | _ => Z.ldiff mode (os_umask s) end →
    os_files s !! p ≠ Some Dir →
    Q (match f with Some _ => Err EOTHER | None => if complete then Ok tt else Err EOTHER end)
      (match f with
       | Some n => if n <? 0 then s1 else set_files (<[p := File (ztake n data) m]> (os_files s)) s1
       | None => set_files (<[p := File data m]> (os_files s)) s1
       end)) as Hput.
  { intros m Hm Hd. destruct f as [n|].
    - destruct (n <? 0); [by apply He|]. eapply Hpart; [apply Hset|]. right. intros Hqu. by specialize (Hn Hqu).
    - destruct complete eqn:Hc; [by eapply Ho|]. eapply Hpart; [apply Hset|by left]. }
  destruct (os_files s !! p) as [[|d m]|] eqn:Hp; [by apply He| |].
  - specialize (Hput _ eq_refl). by destruct f; apply Hput.
  - destruct (os_files s !! path_dir p) as [[]|]; [|by apply He..].
    specialize (Hput _ eq_refl). by destruct f; apply Hput.
Qed.

Lemma lookup_foldr_delete (m : files) (ps : list bytes) q :
  foldr delete m ps !! q = if bool_decide (q ∈ ps) then None else m !! q.
Proof.
  induction ps as [|p ps IH]; cbn [foldr]; [done|]. destruct (decide (q = p)) as [->|Hne].
  - rewrite lookup_delete_eq, bool_decide_true; [done|apply list_elem_of_here].
  - rewrite lookup_delete_ne by done. rewrite IH.
    destruct (decide (q ∈ ps)).
    + by rewrite !bool_decide_true by (rewrite ?elem_of_cons; auto).
    + by rewrite !bool_decide_false by (rewrite ?elem_of_cons; intuition).
Qed.

Lemma wp_remove_all dir Q :
  (∀ r fs s', becomes fs s s' → r ≠ Panic → os_cwd s' = os_cwd s →
     (∀ q, under dir q = false → fs !! q = os_files s !! q) →
     (quiet s → ∀ q, under dir q = true → fs !! q = None) → Q r s') →
  wp (remove_all dir) Q s.
Proof.
  intros HQ. unfold wp, remove_all.
  destruct (next_fault_becomes s) as (Hb & _ & _ & Hn). pose proof Hb as [Hfs Hs Hq].
  assert (os_cwd (next_fault s).2 = os_cwd s) as Hcwd by (unfold next_fault; by destruct (os_faults s)).
  destruct (next_fault s) as [f s1]; cbn in *. rewrite Hfs.
  set (ps := filter _ _).
  assert (∀ ps', ps' ⊆ ps → ∀ q, under dir q = false → foldr delete (os_files s) ps' !! q = os_files s !! q) as Hout.
  { intros ps' Hsub q Hq'. rewrite lookup_foldr_delete, bool_decide_false; [done|].
    intros Hin%Hsub. unfold ps in Hin. apply list_elem_of_filter in Hin as [Hin _]. congruence. }
  destruct f as [n|]; cbn.
  - apply (HQ _ (foldr delete (os_files s) (ztake n ps))); [by constructor|done|done| |by intros Hqs; specialize (Hn Hqs)].
    apply Hout. intros q. apply subseteq_take.
  - apply (HQ _ (foldr delete (os_files s) ps)); [by constructor|done|done|by apply Hout|]. intros _ q Hq'. rewrite lookup_foldr_delete.
    case_bool_decide as Hin; [done|]. destruct (os_files s !! q) as [n|] eqn:Hl; [|done].
    destruct Hin. apply list_elem_of_filter. split; [done|].
    apply list_elem_of_fmap. exists (q, n). split; [done|]. by apply elem_of_map_to_list.
Qed.
End rules.

(** Writing a new file when nothing fails. *)
Lemma write_file_quiet s p data mode :
  quiet s → os_files s !! p = None → os_files s !! path_dir p = Some Dir →
  write_file p data mode true s =
    (Ok tt, set_files (<[p := File data (Z.ldiff mode (os_umask s))]> (os_files s)) s).
Proof.
  intros Hq Hp Hd. unfold write_file, next_fault. unfold quiet in Hq. by rewrite Hq, Hp, Hd.
Qed.
