(* ===== verification/Download.v ===== *)
(** * The verified download of a release asset (download.go)

    A run of [downloadAsset] is a program of [Os]: it reads the checksum manifest, looks
    for the asset in the cache, or fetches it next to its place, checks it and renames
    it. The network, the platform and Go's table of letter case are arguments. *)
From S2P Require Import Prelude GoInt GoStrings GoText Sha256 Supervisor Options Os.

(** What a request gives: no response, or a status and the body, which may end early. *)
Inductive response := NetError | Response (status : Z) (body : bytes) (complete : bool).

Definition DefaultVersion : bytes := str "v0.7.6".
Definition DefaultDownloadBase : bytes := str "https://github.com/minekube/geyserlite/releases/download".

Definition assetKind : Type := Z.
Definition assetKindBinary : assetKind := 0.
Definition assetKindLibrary : assetKind := 1.

Inductive dlError :=
| ErrArch | ErrWindows | ErrPlatform | ErrKind       (* assetFor *)
| ErrCache                                           (* os.UserCacheDir *)
| ErrManifest | ErrManifestRead | ErrNotListed       (* fetchExpectedSha *)
| ErrMkdir | ErrTemp | ErrGet | ErrWrite | ErrHash | ErrMismatch | ErrRename.

#[export] Instance dlError_eq_dec : EqDecision dlError.
Proof. solve_decision. Defined.

Definition assetFor (kind : assetKind) (goos goarch : bytes) : res dlError bytes :=
  arch ← (if bool_decide (goarch = str "amd64") then Ok (str "amd64")
          else if bool_decide (goarch = str "arm64") then Ok (str "arm64")
          else Err ErrArch);
  if bool_decide (goos = str "windows") then
    if (kind =? assetKindBinary) && bool_decide (arch = str "amd64")
    then Ok (str "geyserlite-windows-amd64.exe") else Err ErrWindows
  else if negb (bool_decide (goos = str "linux")) then Err ErrPlatform
  else if kind =? assetKindBinary then Ok (str "geyserlite-linux-" ++ arch)
  else if kind =? assetKindLibrary then Ok (str "libgeyserlite-linux-" ++ arch ++ str ".so")
  else Err ErrKind.

Definition verifiedDownloadPath (dir assetName expectedSha : bytes) : bytes :=
  path_join [dir; expectedSha; assetName].

(** What the code is run on. *)
Record host := Host {
  GOOS : bytes;
  GOARCH : bytes;
  UserCacheDir : option bytes;
  unicode_lower : bytes → bytes;
  dir_size : bytes → Z;    (* what [Stat] reports as the size of a directory *)
  net : list bytes → bytes → response;   (* to a URL, after the earlier requests *)
}.

(** ** The operations *)

Section download.
Context (h : host).

(** The loop of [fetchExpectedSha]. *)
Fixpoint lookup_sha (assetName : bytes) (lines : list bytes) : option bytes :=
  match lines with
  | [] => None
  | line :: lines =>
      match fields line with
      | [sha; file] =>
          let name := trim_prefix (str "*") file in
          if bool_decide (name = assetName) || has_suffix (str "/" ++ assetName) name
          then Some (to_lower (unicode_lower h) sha)
          else lookup_sha assetName lines
      | _ => lookup_sha assetName lines
      end
  end.
Definition manifest_sha (assetName data : bytes) : option bytes :=
  lookup_sha assetName (split 10 data).

Definition httpGet (url : bytes) : io unit (bytes * bool) := λ s,
  let s' := sent url s in
  match net h (os_sent s) url with
  | NetError => (Err tt, s')
  | Response status body complete =>
      if Z.quot status 100 =? 2 then (Ok (body, complete), s') else (Err tt, s')
  end.

(** [io.ReadAll(io.LimitReader(body, 1<<20))]: an early end after the limit is not seen. *)
Definition limit : Z := 2 ^ 20.
Definition read_limited (body : bytes) (complete : bool) : res dlError bytes :=
  if complete || (limit <=? zlen body) then Ok (ztake limit body) else Err ErrManifestRead.

Definition checksums_url (base version : bytes) : bytes :=
  trim_suffix (str "/") base ++ str "/" ++ version ++ str "/checksums.txt".
Definition asset_url (base version assetName : bytes) : bytes :=
  trim_suffix (str "/") base ++ str "/" ++ version ++ str "/" ++ assetName.

Definition fetchExpectedSha (base version assetName : bytes) : io dlError bytes :=
  '(body, complete) ← or_fail ErrManifest (httpGet (checksums_url base version));
  data ← lift (read_limited body complete);
  lift (match manifest_sha assetName data with Some sha => Ok sha | None => Err ErrNotListed end).

Definition downloadFile (url dest : bytes) : io dlError unit :=
  '(body, complete) ← or_fail ErrGet (httpGet url);
  or_fail ErrWrite (write_file dest body (perm 6 4 4) complete).

Definition shaFile (path : bytes) : io errno bytes :=
  data ← read_file path; mret (hex_encode (sha256 data)).

(** The reuse test: the file opens, reads and has the expected sum. *)
Definition matches (path expectedSha : bytes) : io dlError bool :=
  r ← try (shaFile path);
  mret (match r with inr sum => bool_decide (sum = expectedSha) | inl _ => false end).

(** The download and check of the temporary file, removed on a failure. *)
Definition fetch_tmp (url tmpPath expectedSha : bytes) : io dlError unit :=
  cleanup (remove tmpPath) (
    downloadFile url tmpPath;;
    gotSha ← or_fail ErrHash (shaFile tmpPath);
    if bool_decide (gotSha = expectedSha) then mret tt else throw ErrMismatch).

(** The temporary file takes the asset's place. *)
Definition install (kind : assetKind) (tmpPath cachedPath expectedSha : bytes) : io dlError bytes :=
  _ ← try (if kind =? assetKindBinary then chmod tmpPath (perm 7 5 5) else mret tt);
  hit ← matches cachedPath expectedSha;
  if hit : bool then _ ← try (remove tmpPath); mret cachedPath
  else cleanup (remove tmpPath) (or_fail ErrRename (rename tmpPath cachedPath));; mret cachedPath.

Definition downloadAsset (opts : Options) (kind : assetKind) : io dlError bytes :=
  let version := if is_empty (Version opts) then DefaultVersion else Version opts in
  let base := if is_empty (Mirror opts) then DefaultDownloadBase else Mirror opts in
  assetName ← lift (assetFor kind (GOOS h) (GOARCH h));
  cacheDir ← lift (match UserCacheDir h with Some d => Ok d | None => Err ErrCache end);
  let dir := path_join [cacheDir; str "geyserlite"; version] in
  let legacyCachedPath := path_join [dir; assetName] in
  expectedSha ← fetchExpectedSha base version assetName;
  let cachedPath := verifiedDownloadPath dir assetName expectedSha in
  hit ← matches cachedPath expectedSha;
  if hit : bool then mret cachedPath else
  old ← (if bool_decide (legacyCachedPath = cachedPath) then mret false
         else matches legacyCachedPath expectedSha);
  if old : bool then mret legacyCachedPath else
  or_fail ErrMkdir (mkdir_all (path_dir cachedPath));;
  tmpPath ← or_fail ErrTemp (create_temp (path_dir cachedPath) (assetName ++ str ".") (str ".tmp"));
  fetch_tmp (asset_url base version assetName) tmpPath expectedSha;;
  install kind tmpPath cachedPath expectedSha.
End download.

(** ** Asset names *)

Lemma assetFor_cases kind goos goarch name :
  assetFor kind goos goarch = Ok name →
  (goarch = str "amd64" ∨ goarch = str "arm64")
  ∧ (kind = assetKindBinary ∧ goos = str "windows" ∧ goarch = str "amd64"
       ∧ name = str "geyserlite-windows-amd64.exe"
     ∨ kind = assetKindBinary ∧ goos = str "linux" ∧ name = str "geyserlite-linux-" ++ goarch
     ∨ kind = assetKindLibrary ∧ goos = str "linux" ∧ name = str "libgeyserlite-linux-" ++ goarch ++ str ".so").
Proof.
  unfold assetFor. intros (arch & Ha & H)%res_bind_Ok_inv.
  assert (arch = goarch ∧ (goarch = str "amd64" ∨ goarch = str "arm64")) as [-> Hg].
  { clear H. case_bool_decide; [split; [congruence|by left]|]. case_bool_decide; [split; [congruence|by right]|done]. }
  split; [done|]. destruct (bool_decide (goos = str "windows")) eqn:Hw.
  - apply bool_decide_eq_true in Hw. destruct (kind =? assetKindBinary) eqn:Hb; [|done]. case_bool_decide as Ha'; [|done].
    injection H as <-. left. split_and!; done || lia.
  - destruct (bool_decide (goos = str "linux")) eqn:Hlin; [|done].
    apply bool_decide_eq_true in Hlin. cbn [negb] in H. right.
    destruct (kind =? assetKindBinary) eqn:Hb.
    + injection H as <-. left. split_and!; done || lia.
    + destruct (kind =? assetKindLibrary) eqn:Hl; [|done].
      injection H as <-. right. split_and!; done || lia.
Qed.

Lemma assetFor_not_Panic kind goos goarch : assetFor kind goos goarch ≠ Panic.
Proof.
  unfold assetFor. apply res_bind_not_Panic.
  - by repeat case_bool_decide.
  - intros arch. repeat case_match; done.
Qed.

(** An asset's name is a plain file name and not that of a temporary file. *)
Lemma assetFor_name kind goos goarch name :
  assetFor kind goos goarch = Ok name → plain name ∧ last name ≠ Some 112.
Proof.
  intros [[->| ->] [(_ & _ & _ & ->)|[(_ & _ & ->)|(_ & _ & ->)]]]%assetFor_cases;
    (split; [constructor; try discriminate; apply (bool_decide_unpack _); by vm_compute|by vm_compute]).
Qed.

(** ** What the operations do *)

(** A file of [p] has the SHA-256 sum [sha]. *)
Definition has_sum (fs : files) (p sha : bytes) : Prop :=
  ∃ d m, fs !! p = Some (File d m) ∧ hex_encode (sha256 d) = sha.

(** Only [tmp] and the paths of [X] differ, and [tmp] is gone if nothing was made to fail. *)
Record settled (tmp : bytes) (X : bytes → Prop) (s s' : os) : Prop := {
  st_rest : ∀ q, q ≠ tmp → ¬ X q → os_files s' !! q = os_files s !! q;
  st_tmp : quiet s → os_files s' !! tmp = None;
  st_quiet : quiet s → quiet s';
}.

(** A request does nothing to the files. *)
Record asks (url : bytes) (s s' : os) : Prop := {
  ak_files : os_files s' = os_files s;
  ak_sent : os_sent s' = url :: os_sent s;
  ak_quiet : quiet s → quiet s';
}.

Section rules.
Context (h : host).

(** A response that is a manifest in which the asset's first line has the sum [sha]. *)
Inductive manifest_says (r : response) (name sha : bytes) : Prop :=
| ManifestSays st body complete :
    r = Response st body complete → Z.quot st 100 = 2 → complete || (limit <=? zlen body) = true →
    manifest_sha h name (ztake limit body) = Some sha → manifest_says r name sha.

Lemma wp_httpGet url Q s :
  (∀ s', asks url s s' → Q (Err tt) s') →
  (∀ st b c s', asks url s s' → net h (os_sent s) url = Response st b c → Z.quot st 100 = 2 →
     Q (Ok (b, c)) s') →
  wp (httpGet h url) Q s.
Proof.
  intros He Ho. unfold wp, httpGet. destruct (net h (os_sent s) url) as [|st b c]; [by apply He|].
  destruct (Z.eqb_spec (Z.quot st 100) 2); [by eapply Ho|by apply He].
Qed.

Lemma wp_shaFile p Q s :
  (∀ e s', becomes (os_files s) s s' → fault_or s (∀ d m, os_files s !! p ≠ Some (File d m)) → Q (Err e) s') →
  (∀ d m s', becomes (os_files s) s s' → os_files s !! p = Some (File d m) → Q (Ok (hex_encode (sha256 d))) s') →
  wp (shaFile p) Q s.
Proof. intros He Ho. apply wp_bind, wp_read_file; [done|]. intros. apply wp_ret. eauto. Qed.

Lemma wp_matches p sha Q s :
  (∀ s', becomes (os_files s) s s' → has_sum (os_files s) p sha → Q (Ok true) s') →
  (∀ s', becomes (os_files s) s s' → fault_or s (¬ has_sum (os_files s) p sha) → Q (Ok false) s') →
  wp (matches p sha) Q s.
Proof.
  intros Ht Hf. apply wp_bind, wp_try, wp_shaFile.
  - intros e s' Hs Hn. apply wp_ret, Hf; [done|]. destruct Hn as [Hn|Hn]; [left|by right].
    intros (d & m & Hd & _). by eapply Hn.
  - intros d m s' Hs Hd. apply wp_ret. case_bool_decide as He.
    + apply Ht; [done|]. by exists d, m.
    + apply Hf; [done|]. left. intros (d' & m' & Hd' & He'). congruence.
Qed.

Lemma wp_remove_tmp tmp X (Q : res errno unit → os → Prop) s s1 :
  (∀ q, q ≠ tmp → ¬ X q → os_files s1 !! q = os_files s !! q) → (quiet s → quiet s1) →
  os_files s1 !! tmp ≠ Some Dir →
  (∀ r s', r ≠ Panic → settled tmp X s s' → os_files s' !! tmp = os_files s1 !! tmp ∨ os_files s' !! tmp = None →
     (∀ q, q ≠ tmp → os_files s' !! q = os_files s1 !! q) → Q r s') →
  wp (remove tmp) Q s1.
Proof.
  intros Hrest Hq Hdir HQ. apply wp_remove.
  - intros e s' [Hf _ Hq'] Hn. apply HQ; [done| |left; by rewrite Hf|intros; by rewrite Hf].
    constructor; rewrite ?Hf; [done| |auto].
    intros Hs. destruct Hn as [Hn|[]]; [|auto]. destruct (os_files s1 !! tmp) as [[|d m]|]; [done| |done].
    by edestruct Hn.
  - intros s' [Hf _ Hq']. 
    apply HQ; [done| |right; by rewrite Hf, lookup_delete_eq|intros; by rewrite Hf, lookup_delete_ne].
    constructor; rewrite ?Hf; [|by rewrite lookup_delete_eq|auto].
    intros q Hne HX. rewrite lookup_delete_ne by done. auto.
Qed.

Lemma wp_fetch_tmp url tmp sha Q s :
  (∃ d m, os_files s !! tmp = Some (File d m)) →
  (∀ e s', settled tmp (λ _, False) s s' → Q (Err e) s') →
  (∀ d m s', os_files s' = <[tmp := File d m]> (os_files s) → (quiet s → quiet s') →
     hex_encode (sha256 d) = sha → Q (Ok tt) s') →
  wp (fetch_tmp h url tmp sha) Q s.
Proof.
  intros (d0 & m0 & Htmp) He Ho.
  assert (∀ e s1, (∀ q, q ≠ tmp → os_files s1 !! q = os_files s !! q) → (quiet s → quiet s1) →
    os_files s1 !! tmp ≠ Some Dir → wp (remove tmp) (λ _ s', Q (Err e) s') s1) as Hclean.
  { intros e s1 H1 H2 H3. apply (wp_remove_tmp _ (λ _, False) _ s); auto. }
  apply wp_cleanup, wp_bind, wp_bind, wp_or_fail, wp_httpGet.
  { intros s1 [Hf _ Hq]. apply Hclean; rewrite ?Hf, ?Htmp; done. }
  intros st body complete s1 [Hf1 _ Hq1] _ _. apply wp_or_fail, wp_write_file.
  - intros e s2 [Hf2 _ Hq2]. apply Hclean; rewrite ?Hf2, ?Hf1, ?Htmp; auto.
  - intros e d m s2 [Hf2 _ Hq2] _. apply Hclean; rewrite ?Hf2, ?Hf1; [|auto|by rewrite lookup_insert_eq].
    intros q Hq. by rewrite lookup_insert_ne.
  - intros m s2 [Hf2 _ Hq2] _ _ _. apply wp_bind, wp_or_fail, wp_shaFile.
    + intros e s3 [Hf3 _ Hq3] _. apply Hclean; rewrite ?Hf3, ?Hf2, ?Hf1; [|auto|by rewrite lookup_insert_eq].
      intros q Hq. by rewrite lookup_insert_ne.
    + intros d m' s3 [Hf3 _ Hq3] Hd. rewrite Hf2, lookup_insert_eq in Hd. injection Hd as <- <-.
      case_bool_decide as Hsum.
      * apply wp_ret. eapply Ho; [by rewrite Hf3, Hf2, Hf1|auto|done].
      * apply wp_throw, Hclean; rewrite ?Hf3, ?Hf2, ?Hf1; [|auto|by rewrite lookup_insert_eq].
        intros q Hq. by rewrite lookup_insert_ne.
Qed.

Lemma wp_install kind tmp cached sha d m Q s :
  os_files s !! tmp = Some (File d m) → hex_encode (sha256 d) = sha → tmp ≠ cached →
  (∀ e s', settled tmp (λ _, False) s s' → Q (Err e) s') →
  (∀ s', settled tmp (λ q, q = cached) s s' → has_sum (os_files s') cached sha → Q (Ok cached) s') →
  wp (install kind tmp cached sha) Q s.
Proof.
  intros Htmp Hsum Hne He Ho. apply wp_bind, wp_try.
  assert (∀ s1 m', os_files s1 = <[tmp := File d m']> (os_files s) → (quiet s → quiet s1) →
    wp (hit ← matches cached sha;
        if hit : bool then _ ← try (remove tmp); mret cached
        else cleanup (remove tmp) (or_fail ErrRename (rename tmp cached));; mret cached) Q s1) as Hrest.
  { intros s1 m1 Hf1 Hq1.
    assert (∀ X q, q ≠ tmp → ¬ X q → os_files s1 !! q = os_files s !! q) as Hsame.
    { intros X q Hq _. rewrite Hf1. by rewrite lookup_insert_ne. }
    apply wp_bind, wp_matches.
    - intros s2 [Hf2 _ Hq2] Hhit. apply wp_bind, wp_try.
      eapply (wp_remove_tmp _ (λ q, q = cached) _ s); rewrite ?Hf2; [apply Hsame|auto|by rewrite Hf1, lookup_insert_eq|].
      intros r s' Hr Hset _ Hs'.
      assert (Q (Ok cached) s') as HQ.
      { apply Ho; [done|]. destruct Hhit as (d' & m' & Hd' & Hh). exists d', m'. by rewrite Hs'. }
      by destruct r.
    - intros s2 [Hf2 _ Hq2] _. apply wp_bind, wp_cleanup, wp_or_fail, wp_rename.
      + intros e s3 [Hf3 _ Hq3]. eapply (wp_remove_tmp _ (λ _, False) _ s); rewrite ?Hf3, ?Hf2;
          [apply Hsame|auto|by rewrite Hf1, lookup_insert_eq|]. intros r s' _ Hset _ _. by apply He.
      + intros d' m' s3 [Hf3 _ Hq3] Hd'. rewrite Hf2, Hf1, lookup_insert_eq in Hd'. injection Hd' as <- <-.
        apply wp_ret, Ho.
        * constructor; rewrite ?Hf3, ?Hf2; [|intros _; rewrite lookup_insert_ne by congruence; apply lookup_delete_eq|auto].
          intros q Hq Hc. rewrite lookup_insert_ne by congruence. rewrite lookup_delete_ne by done. apply (Hsame (λ _, False)); tauto.
        * exists d, m1. by rewrite Hf3, lookup_insert_eq. }
  assert (os_files s = <[tmp := File d m]> (os_files s)) as Hid by (by rewrite insert_id).
  destruct (kind =? assetKindBinary).
  - apply wp_chmod.
    + intros e s1 [Hf1 _ Hq1] _. apply (Hrest s1 m); [by rewrite Hf1|done].
    + intros d' m' s1 [Hf1 _ Hq1] Hd'. eapply Hrest; [|done]. by simplify_eq.
    + intros s1 _ Hd'. congruence.
  - apply wp_ret. by apply (Hrest s m).
Qed.

Lemma wp_fetchExpectedSha base version name Q s :
  (∀ e s', asks (checksums_url base version) s s' → Q (Err e) s') →
  (∀ sha s', asks (checksums_url base version) s s' →
     manifest_says (net h (os_sent s) (checksums_url base version)) name sha → Q (Ok sha) s') →
  wp (fetchExpectedSha h base version name) Q s.
Proof.
  intros He Ho. apply wp_bind, wp_or_fail, wp_httpGet; [by auto|].
  intros st body complete s1 Hs1 Hnet Hst. apply wp_bind, wp_lift. unfold read_limited.
  destruct (complete || _) eqn:Hc; [|by apply He]. apply wp_lift.
  destruct (manifest_sha h name _) as [sha|] eqn:Hm; [|by apply He].
  apply Ho; [done|]. by eapply ManifestSays.
Qed.
End rules.

Lemma has_sum_hex fs p sha : has_sum fs p sha → zlen sha = 64 ∧ forallb is_hex_lower sha = true.
Proof.
  intros (d & m & _ & <-). split; [by rewrite zlen_hex_encode, zlen_sha256|].
  apply hex_encode_lower, Bytes_sha256.
Qed.

(** The temporary file is not the asset. *)
Lemma tmp_not_cached kind goos goarch name dir sha tdir r :
  assetFor kind goos goarch = Ok name →
  in_dir tdir (name ++ str ".") ++ r ++ str ".tmp" ≠ verifiedDownloadPath dir name sha.
Proof.
  intros Hn Heq. apply assetFor_name in Hn as [Hp Hl]. apply (f_equal last) in Heq.
  unfold verifiedDownloadPath in Heq. rewrite path_join3_last in Heq by done.
  rewrite app_assoc, last_app_ne in Heq by done. by rewrite <-Heq in Hl.
Qed.

(** ** The whole download *)

Definition version_of (opts : Options) : bytes :=
  if is_empty (Version opts) then DefaultVersion else Version opts.
Definition base_of (opts : Options) : bytes :=
  if is_empty (Mirror opts) then DefaultDownloadBase else Mirror opts.
Definition cache_dir (opts : Options) (cache : bytes) : bytes :=
  path_join [cache; str "geyserlite"; version_of opts].

(** What the manifest read in [s] says of the asset. *)
Record listed (h : host) (opts : Options) (kind : assetKind) (s : os) (name sha : bytes) : Prop := {
  ls_name : assetFor kind (GOOS h) (GOARCH h) = Ok name;
  ls_sha : manifest_says h (net h (os_sent s) (checksums_url (base_of opts) (version_of opts))) name sha;
}.

(** The outcome of a download from [s]. *)
Record outcome (h : host) (opts : Options) (kind : assetKind) (s : os) (r : res dlError bytes) (s' : os) : Prop := {
  oc_panic : r ≠ Panic;
  oc_ok : ∀ p, r = Ok p → ∃ name sha cache, listed h opts kind s name sha
    ∧ UserCacheDir h = Some cache ∧ has_sum (os_files s') p sha
    ∧ (p = verifiedDownloadPath (cache_dir opts cache) name sha
       ∨ p = path_join [cache_dir opts cache; name] ∧ os_files s' = os_files s);
  oc_kept : ∀ q n, os_files s !! q = Some n → r ≠ Ok q → os_files s' !! q = Some n;
  oc_clean : quiet s → ∀ q, r ≠ Ok q →
    os_files s' !! q = os_files s !! q ∨ os_files s !! q = None ∧ os_files s' !! q = Some Dir;
  oc_quiet : quiet s → quiet s';
}.

Lemma outcome_err h opts kind s e s' :
  os_files s' = os_files s → (quiet s → quiet s') → outcome h opts kind s (Err e) s'.
Proof. intros Hf Hq. constructor; rewrite ?Hf; auto; done. Qed.

(** What a failure, or a success at [p], after the temporary file was made leaves. *)
Lemma settled_files s fs tmp d0 m0 s3 (r : res dlError bytes) s' :
  (∀ q, fs !! q = os_files s !! q ∨ os_files s !! q = None ∧ fs !! q = Some Dir) → fs !! tmp = None →
  os_files s3 = <[tmp := File d0 m0]> fs → (quiet s → quiet s3) → settled tmp (λ q, r = Ok q) s3 s' →
  (∀ q n, os_files s !! q = Some n → r ≠ Ok q → os_files s' !! q = Some n)
  ∧ (quiet s → ∀ q, r ≠ Ok q →
       os_files s' !! q = os_files s !! q ∨ os_files s !! q = None ∧ os_files s' !! q = Some Dir).
Proof.
  intros Hdirs Hfresh Hf3 Hq3 [Hrest Ht _].
  assert (os_files s !! tmp = None) as Hnew by (destruct (Hdirs tmp) as [<-|[? ?]]; [done|congruence]).
  split.
  - intros q n Hq Hr. assert (q ≠ tmp) as Hqt by congruence.
    rewrite Hrest by done. rewrite Hf3, lookup_insert_ne by done.
    destruct (Hdirs q) as [->|[? _]]; [done|congruence].
  - intros Hqs q Hr. destruct (decide (q = tmp)) as [->|Hqt]; [left; rewrite Ht by auto; done|].
    rewrite Hrest by done. rewrite Hf3, lookup_insert_ne by done. apply Hdirs.
Qed.

(** The part after the cache was found not to have the asset. *)
Lemma wp_fetch h opts kind s name sha cache s1 :
  let cached := verifiedDownloadPath (cache_dir opts cache) name sha in
  listed h opts kind s name sha → UserCacheDir h = Some cache →
  os_files s1 = os_files s → (quiet s → quiet s1) →
  wp (or_fail ErrMkdir (mkdir_all (path_dir cached));;
      tmpPath ← or_fail ErrTemp (create_temp (path_dir cached) (name ++ str ".") (str ".tmp"));
      fetch_tmp h (asset_url (base_of opts) (version_of opts) name) tmpPath sha;;
      install kind tmpPath cached sha) (outcome h opts kind s) s1.
Proof.
  intros cached Hls Hcache Hf1 Hq1. apply wp_bind, wp_or_fail, wp_mkdir_all.
  { intros e s2 [Hf2 _ Hq2]. apply outcome_err; [by rewrite Hf2|auto]. }
  intros fs s2 [Hf2 _ Hq2] Hdirs. rewrite Hf1 in Hdirs.
  apply wp_bind, wp_or_fail, wp_make_temp.
  { intros s3 [Hf3 _ Hq3]. rewrite Hf2 in Hf3. constructor; rewrite ?Hf3; [done|done| |intros _ q _; apply Hdirs|auto].
    intros q n Hq _. destruct (Hdirs q) as [->|[? _]]; [done|congruence]. }
  intros tmp rand s3 [Hf3 _ Hq3] Hfresh Htmp _. rewrite Hf2 in Hf3, Hfresh.
  assert (tmp ≠ cached) as Hne by (rewrite Htmp; destruct Hls; by eapply tmp_not_cached).
  pose proof (λ r s', settled_files s fs tmp _ _ s3 r s' Hdirs Hfresh Hf3 ltac:(auto)) as Hset.
  assert (∀ e s', settled tmp (λ _, False) s3 s' → outcome h opts kind s (Err e) s') as Herr.
  { intros e s' [Hr Ht Hq]. destruct (Hset (Err e) s') as [Hk Hc]; [by constructor; auto|]. constructor; [done..|auto 8]. }
  assert (∃ d m, os_files s3 !! tmp = Some (File d m)) as Hfile.
  { rewrite Hf3, lookup_insert_eq. eauto. }
  apply wp_bind, wp_fetch_tmp; [done|done|]. intros d m s4 Hf4 Hq4 Hsum.
  eapply wp_install; [by rewrite Hf4, lookup_insert_eq|done|done| |].
  - intros e s' [Hr Ht Hq]. apply Herr. constructor; [|auto..].
    intros q Hqt _. rewrite Hr, Hf4, lookup_insert_ne by auto. done.
  - intros s' [Hr Ht Hq] Hhas. destruct (Hset (Ok cached) s') as [Hk Hc].
    { constructor; [|auto..]. intros q Hqt Hqc. rewrite Hr, Hf4, lookup_insert_ne by congruence. done. }
    constructor; [done| |done|done|auto 8]. intros p [= <-]. exists name, sha, cache. split_and!; auto.
Qed.

Lemma wp_downloadAsset h opts kind s : wp (downloadAsset h opts kind) (outcome h opts kind s) s.
Proof.
  unfold downloadAsset. fold (version_of opts) (base_of opts). cbv zeta.
  apply wp_bind, wp_lift. destruct (assetFor kind _ _) as [name|e|] eqn:Hname.
  2: by apply outcome_err. 2: by destruct (assetFor_not_Panic _ _ _ Hname).
  apply wp_bind, wp_lift. destruct (UserCacheDir h) as [cache|] eqn:Hcache; [|by apply outcome_err].
  fold (cache_dir opts cache). apply wp_bind, wp_fetchExpectedSha.
  { intros e s1 [Hf _ Hq]. by apply outcome_err. }
  intros sha s1 [Hf1 _ Hq1] Hsha.
  assert (listed h opts kind s name sha) as Hls by (by constructor).
  assert (∀ p s', os_files s' = os_files s → (quiet s → quiet s') → has_sum (os_files s) p sha →
    p = verifiedDownloadPath (cache_dir opts cache) name sha ∨ p = path_join [cache_dir opts cache; name] →
    outcome h opts kind s (Ok p) s') as Hhit.
  { intros p s' Hf Hq Hs Hp. constructor; rewrite ?Hf; [done| |done|by left|done].
    intros p' [= <-]. exists name, sha, cache. split_and!; [done..|]. destruct Hp; auto. }
  apply wp_bind, wp_matches; rewrite Hf1.
  { intros s2 [Hf2 _ Hq2] Hs. apply wp_ret, Hhit; [done|auto|done|by left]. }
  intros s2 [Hf2 _ Hq2] _. apply wp_bind.
  set (cached := verifiedDownloadPath _ _ _) in *. set (legacy := path_join [_; name]) in *.
  case_bool_decide as Hleg; [apply wp_ret, wp_fetch; auto|]. apply wp_matches; rewrite Hf2.
  - intros s3 [Hf3 _ Hq3] Hs. apply wp_ret, Hhit; [by rewrite Hf3|auto|done|by right].
  - intros s3 [Hf3 _ Hq3] _. apply wp_fetch; auto.
Qed.

(** ** Runs in which nothing fails *)

Definition sum_ok (fs : files) (p sha : bytes) : bool :=
  match fs !! p with Some (File d _) => bool_decide (hex_encode (sha256 d) = sha) | _ => false end.
Lemma sum_ok_spec fs p sha : sum_ok fs p sha = true ↔ has_sum fs p sha.
Proof.
  unfold sum_ok, has_sum. destruct (fs !! p) as [[|d m]|].
  - split; [done|]. by intros (? & ? & ? & _).
  - rewrite bool_decide_eq_true. split; [eauto|]. by intros (d' & m' & [= <- <-] & ?).
  - split; [done|]. by intros (? & ? & ? & _).
Qed.

Lemma matches_quiet p sha s : quiet s → matches p sha s = (Ok (sum_ok (os_files s) p sha), s).
Proof.
  intros Hq. destruct s as [fs fa rs um se cw]. unfold quiet in Hq. cbn in Hq. subst fa.
  unfold matches, try, shaFile, read_file, syscall, sum_ok, mbind, io_bind, mret, io_ret. cbn.
  by destruct (fs !! p) as [[]|].
Qed.

Section again.
Context (h : host) (opts : Options) (kind : assetKind) (name sha cache : bytes).
Let url := checksums_url (base_of opts) (version_of opts).
Let cached := verifiedDownloadPath (cache_dir opts cache) name sha.
Let legacy := path_join [cache_dir opts cache; name].

Lemma fetch_says s :
  manifest_says h (net h (os_sent s) url) name sha →
  fetchExpectedSha h (base_of opts) (version_of opts) name s = (Ok sha, sent url s).
Proof.
  intros [st body complete Hn Hst Hc Hm]. unfold fetchExpectedSha, or_fail, httpGet, mbind, io_bind.
  fold url. rewrite Hn, Hst. cbn. unfold lift, read_limited. rewrite Hc. by rewrite Hm.
Qed.

(** What is in the cache is returned, after one request and no change. *)
Lemma download_hit s :
  quiet s → listed h opts kind s name sha → UserCacheDir h = Some cache →
  sum_ok (os_files s) cached sha || sum_ok (os_files s) legacy sha = true →
  downloadAsset h opts kind s =
    (Ok (if sum_ok (os_files s) cached sha then cached else legacy), sent url s).
Proof.
  intros Hq [Hname Hsays] Hcache Hhit. unfold downloadAsset. fold (version_of opts) (base_of opts).
  cbv zeta. unfold mbind, io_bind, lift at 1 2. rewrite Hname, Hcache. fold (cache_dir opts cache).
  rewrite (fetch_says s Hsays). fold cached legacy.
  assert (quiet (sent url s)) as Hq' by done. rewrite (matches_quiet cached sha _ Hq').
  change (os_files (sent url s)) with (os_files s).
  destruct (sum_ok (os_files s) cached sha) eqn:Hc; [done|]. cbn in Hhit.
  case_bool_decide as Hl; [by rewrite Hl, Hc in Hhit|].
  rewrite (matches_quiet legacy sha _ Hq'). change (os_files (sent url s)) with (os_files s).
  by rewrite Hhit.
Qed.
End again.

(** ** The manifest *)

Definition names_asset (assetName file : bytes) : bool :=
  let name := trim_prefix (str "*") file in
  bool_decide (name = assetName) || has_suffix (str "/" ++ assetName) name.

(** A line as [sha256sum] prints it, and the whole manifest. *)
Definition sum_line (e : bytes * bytes) : bytes := e.1 ++ [32; 32] ++ e.2.
Definition manifest (entries : list (bytes * bytes)) : bytes := e ← entries; sum_line e ++ [10].

(** A sum and a file name without white space. *)
Record sum_entry (e : bytes * bytes) : Prop := {
  se_sum : e.1 ≠ [] ∧ forallb is_print e.1 = true;
  se_file : e.2 ≠ [] ∧ forallb is_print e.2 = true;
}.

Lemma print_no_newline w : forallb is_print w = true → 10 ∉ w.
Proof.
  intros H Hin. rewrite forallb_forall in H. by specialize (H 10 (proj1 (list_elem_of_In _ _) Hin)).
Qed.

Lemma manifest_lines entries :
  Forall sum_entry entries → split 10 (manifest entries) = (sum_line <$> entries) ++ [[]].
Proof.
  induction 1 as [|e entries [[_ H1] [_ H2]] _ IH]; [done|].
  change (manifest (e :: entries)) with ((sum_line e ++ [10]) ++ manifest entries).
  rewrite <-app_assoc. change ([10] ++ ?l) with (10 :: l). rewrite split_app; [by rewrite IH|].
  unfold sum_line. rewrite !elem_of_app. intros [Hin|[Hin|Hin]];
    [by destruct (print_no_newline _ H1)| |by destruct (print_no_newline _ H2)].
  by apply list_elem_of_In in Hin as [?|[?|[]]].
Qed.

Lemma lookup_sha_lines h name entries rest :
  Forall sum_entry entries →
  lookup_sha h name ((sum_line <$> entries) ++ rest)
  = match filter (λ e, names_asset name e.2 = true) entries with
    | e :: _ => Some (to_lower (unicode_lower h) e.1)
    | [] => lookup_sha h name rest
    end.
Proof.
  induction 1 as [|[sum file] entries [[Hn1 Hp1] [Hn2 Hp2]] _ IH]; [done|].
  cbn [fmap list_fmap app lookup_sha]. unfold sum_line at 1. rewrite fields_two by done.
  change (bool_decide _ || _) with (names_asset name file). destruct (names_asset name file) eqn:Hf.
  - by rewrite filter_cons_True by exact Hf.
  - rewrite filter_cons_False by (cbn; by rewrite Hf). exact IH.
Qed.

(** ** Properties *)

(** C14: a download that succeeds returns a path at which, at that moment, there is a file
    whose SHA-256 sum is the one the manifest it just read gives for the asset of this
    platform: either the content-addressed place, or the older layout's, in which case no
    file was touched. Whatever fails, in the network or in any file operation, nothing
    that existed is changed but the returned path, and if the file operations do what they
    are asked, a failed download leaves nothing behind but directories. It cannot panic. *)
Theorem download_verified h opts kind s :
  outcome h opts kind s (downloadAsset h opts kind s).1 (downloadAsset h opts kind s).2.
Proof. apply wp_downloadAsset. Qed.

(** A download is done once: as long as the manifest stays the same, asking again
    returns the same path after one request, that of the manifest, and changes no file. *)
Theorem download_again h opts kind s p s' :
  let url := checksums_url (base_of opts) (version_of opts) in
  quiet s → downloadAsset h opts kind s = (Ok p, s') →
  net h (os_sent s') url = net h (os_sent s) url →
  downloadAsset h opts kind s' = (Ok p, sent url s').
Proof.
  intros url Hq Hrun Hnet. pose proof (wp_downloadAsset h opts kind s) as H. unfold wp in H.
  rewrite Hrun in H. cbn [fst snd] in H. destruct H as [_ Hok _ _ Hq'].
  destruct (Hok p eq_refl) as (name & sha & cache & Hls & Hcache & Hsum%sum_ok_spec & Hp).
  assert (listed h opts kind s' name sha) as Hls'.
  { destruct Hls as [Hn Hs]. constructor; [done|]. fold url in Hs |- *. by rewrite Hnet. }
  specialize (Hq' Hq). destruct Hp as [->|[-> Hf]].
  - rewrite (download_hit h opts kind name sha cache s' Hq' Hls' Hcache); by rewrite Hsum.
  - assert (sum_ok (os_files s') (verifiedDownloadPath (cache_dir opts cache) name sha) sha = true →
      verifiedDownloadPath (cache_dir opts cache) name sha = path_join [cache_dir opts cache; name]) as Heq.
    { rewrite Hf. intros Hc. pose proof (download_hit h opts kind name sha cache s Hq Hls Hcache) as Hh.
      rewrite Hc in Hh. specialize (Hh eq_refl). rewrite Hrun in Hh. congruence. }
    rewrite (download_hit h opts kind name sha cache s' Hq' Hls' Hcache); [|by rewrite Hsum, orb_true_r].
    destruct (sum_ok _ (verifiedDownloadPath _ _ _) _); [by rewrite (Heq eq_refl)|done].
Qed.

(** The sum looked up in a manifest of [sha256sum] lines, text ([*] absent) or binary,
    is the lower-case form of the one in the first line whose file is the asset's name,
    alone or after a directory; with no such line the lookup fails. *)
Theorem manifest_sha_spec h name entries :
  Forall sum_entry entries →
  manifest_sha h name (manifest entries)
  = (λ e, to_lower (unicode_lower h) e.1) <$> head (filter (λ e, names_asset name e.2 = true) entries).
Proof.
  intros He. unfold manifest_sha. rewrite manifest_lines, lookup_sha_lines by done.
  by destruct (filter _ entries).
Qed.

(** ** A download *)
Module demo.
Definition asset : bytes := str "geyser".
Definition sum : bytes := hex_encode (sha256 asset).
Definition body : bytes :=
  manifest [(str "00", str "other"); (sum, str "*dist/geyserlite-linux-arm64"); (str "11", str "geyserlite-linux-arm64")].
Definition platform : host :=
  Host (str "linux") (str "arm64") (Some (str "/cache")) id (λ _, 4096)
    (λ _ url, if has_suffix (str "checksums.txt") url then Response 200 body true
              else Response 200 asset true).
Definition opts : Options := demo_options.
Definition start : os := Os {[ str "/" := Dir ]} [] [1; 2]%N 18 [] (str "/").
Definition path : bytes :=
  str "/cache/geyserlite/v0.7.6/" ++ sum ++ str "/geyserlite-linux-arm64".
Definition first_run := downloadAsset platform opts assetKindBinary start.

Lemma first_ok : first_run.1 = Ok path.
Proof. by vm_compute. Qed.
Lemma first_run_eq : downloadAsset platform opts assetKindBinary start = (Ok path, first_run.2).
Proof. unfold first_run. rewrite <-first_ok. unfold first_run. apply surjective_pairing. Qed.
Lemma manifest_stable :
  net platform (os_sent first_run.2) (checksums_url (base_of opts) (version_of opts))
  = net platform (os_sent start) (checksums_url (base_of opts) (version_of opts)).
Proof. by vm_compute. Qed.
Lemma first_installs : os_files first_run.2 !! path = Some (File asset (perm 7 5 5)).
Proof. by vm_compute. Qed.
(** A truncated asset is refused and removed; the directories stay. *)
Definition cut : host :=
  Host (str "linux") (str "arm64") (Some (str "/cache")) id (λ _, 4096)
    (λ _ url, if has_suffix (str "checksums.txt") url then Response 200 body true
              else Response 200 (str "gey") true).
Lemma cut_fails :
  let run := downloadAsset cut opts assetKindBinary start in
  run.1 = Err ErrMismatch ∧ filter (λ '(_, n), n ≠ Dir) (os_files run.2) = ∅.
Proof. by vm_compute. Qed.
(** The sum is not checked to be one before it is used in a path: a manifest can have the
    directories made outside the cache. *)
Definition escape : host :=
  Host (str "linux") (str "arm64") (Some (str "/cache")) id (λ _, 4096)
    (λ _ _, Response 200 (str "../../../etc/x geyserlite-linux-arm64") true).
Lemma escape_mkdir :
  os_files (downloadAsset escape opts assetKindBinary start).2 !! str "/etc/x" = Some Dir.
Proof. by vm_compute. Qed.
End demo.

Lemma download_again_witness :
  downloadAsset demo.platform demo.opts assetKindBinary demo.first_run.2
  = (Ok demo.path, sent (checksums_url DefaultDownloadBase DefaultVersion) demo.first_run.2).
Proof.
  exact (download_again demo.platform demo.opts assetKindBinary demo.start demo.path demo.first_run.2
    eq_refl demo.first_run_eq demo.manifest_stable).
Defined.

Lemma manifest_sha_spec_witness :
  manifest_sha demo.platform (str "geyserlite-linux-arm64")
    (manifest [(str "00", str "other"); (str "AB01", str "dist/geyserlite-linux-arm64")]) = Some (str "ab01").
Proof.
  rewrite manifest_sha_spec.
  - vm_compute. reflexivity.
  - apply Forall_cons_2; [|apply Forall_cons_2; [|apply Forall_nil_2]]; constructor; by vm_compute.
Defined.
