(* ===== verification/Locate.v ===== *)
(** * Where the native code comes from (locate.go, embed.go, embed_*.go)

    The sources are tried in a fixed order: the option, the environment, the blob built
    into the program, the system, the download. Paths are Unix paths. *)
From S2P Require Import Prelude GoInt GoStrings GoText Sha256 Supervisor Options Os Download.

(** The process's environment variables and the blobs it was built with; [None]: without
    the build tag, or with it on another platform. *)
Record site := Site {
  Getenv : bytes → bytes;
  embeddedBinary : option bytes;
  embeddedLibrary : option bytes;
}.

(** ** The blob built in *)

Inductive embedError := ErrCacheDir | ErrStat | ErrMkdirCache | ErrWriteTmp | ErrRenameCache.

Section embed.
Context (h : host).

(** [info.Size()] of what is at [p]. *)
Definition node_size (p : bytes) (n : node) : Z := match n with File d _ => zlen d | Dir => dir_size h p end.

(** [None]: the empty path and [false]. *)
Definition extractEmbeddedAsset (blob name : bytes) (executable : bool) : io embedError (option bytes) :=
  if is_empty blob then mret None else
  let hexSum := hex_encode (sha256 blob) in
  cacheRoot ← lift (match UserCacheDir h with Some d => Ok d | None => Err ErrCacheDir end);
  let dir := path_join [cacheRoot; str "geyserlite"; hexSum] in
  let path := path_join [dir; name] in
  info ← try (stat path);
  let write :=
    or_fail ErrMkdirCache (mkdir_all dir);;
    let tmp := path ++ str ".tmp" in
    let mode := if executable then perm 7 5 5 else perm 6 4 4 in
    or_fail ErrWriteTmp (write_file tmp blob mode true);;
    cleanup (remove tmp) (or_fail ErrRenameCache (rename tmp path));;
    mret (Some path) in
  match info with
  | inr n => if node_size path n =? zlen blob then mret (Some path) else write
  | inl ENOENT => write
  | inl EOTHER => throw ErrStat
  end.

Definition extractEmbedded (blob : option bytes) (name : bytes) (executable : bool) : io embedError (option bytes) :=
  match blob with Some b => extractEmbeddedAsset b name executable | None => mret None end.
Definition extractEmbeddedBinary (e : site) := extractEmbedded (embeddedBinary e) (str "geyserlite") true.
Definition extractEmbeddedLibrary (e : site) := extractEmbedded (embeddedLibrary e) (str "libgeyserlite.so") false.
End embed.

(** ** Looking at a path *)

Inductive atError := StatFailed | IsADirectory | NotExecutable.

Definition executableAt (goos p : bytes) : io atError unit :=
  info ← or_fail StatFailed (stat p);
  match info with
  | Dir => throw IsADirectory
  | File _ mode =>
      if negb (bool_decide (goos = str "windows")) && (Z.land mode (perm 1 1 1) =? 0)
      then throw NotExecutable else mret tt
  end.

Definition fileAt (p : bytes) : io atError unit :=
  info ← or_fail StatFailed (stat p);
  match info with Dir => throw IsADirectory | File _ _ => mret tt end.

(** [filepath.SplitList]. *)
Definition split_list (path : bytes) : list bytes := if is_empty path then [] else split 58 path.

(** The first directory of [dirs] in which [at_] accepts the file. *)
Fixpoint first_at {E} (at_ : bytes → io atError unit) (file : bytes) (dirs : list bytes) : io E (option bytes) :=
  match dirs with
  | [] => mret None
  | dir :: dirs =>
      let p := path_join [dir; file] in
      r ← try (at_ p);
      match r with inr _ => mret (Some p) | inl _ => first_at at_ file dirs end
  end.

(** [exec.LookPath] of a name without a slash: the first executable of [$PATH], an error
    when that is in a relative directory. An empty element of [$PATH] is ["."]. *)
Definition look_path {E} (goos path file : bytes) : io E (option bytes) :=
  r ← first_at (executableAt goos) file
        ((λ d : bytes, if is_empty d then str "." else d) <$> split_list path);
  mret (match r with Some p => if has_prefix [slash] p then Some p else None | None => None end).

Definition libraryName (goos : bytes) : bytes :=
  if bool_decide (goos = str "darwin") then str "libgeyserlite.dylib"
  else if bool_decide (goos = str "windows") then str "geyserlite.dll"
  else str "libgeyserlite.so".

Definition systemLibDirs (e : site) : list bytes :=
  let dirs := [str "/usr/local/lib"; str "/usr/lib"] in
  let env := Getenv e (str "LD_LIBRARY_PATH") in
  if is_empty env then dirs else split_list env ++ dirs.

(** ** Locating *)

(** [ErrNone] is [ErrNoBinary] or [ErrNoLibrary], with what the download said. *)
Inductive locateError :=
| ErrOption (e : atError) | ErrEnv (e : atError) | ErrEmbedded (e : embedError)
| ErrNone (download : option dlError).

(** [if err := check; err != nil { return fmt.Errorf("...: %w", err) }]. *)
Definition wrap {E E' A} (f : E' → E) (m : io E' A) : io E A := λ s,
  match m s with
  | (Ok a, s) => (Ok a, s)
  | (Err e, s) => (Err (f e), s)
  | (Panic, s) => (Panic, s)
  end.

Section locate.
Context (h : host) (e : site) (opts : Options).

Definition download (kind : assetKind) : io locateError bytes :=
  if OfflineMode opts then throw (ErrNone None)
  else wrap (λ err, ErrNone (Some err)) (downloadAsset h opts kind).

Definition locateBinary : io locateError bytes :=
  if negb (is_empty (BinaryPath opts)) then
    wrap ErrOption (executableAt (GOOS h) (BinaryPath opts));; mret (BinaryPath opts)
  else
  let env := Getenv e (str "GEYSERLITE_BINARY") in
  if negb (is_empty env) then wrap ErrEnv (executableAt (GOOS h) env);; mret env
  else
  embedded ← wrap ErrEmbedded (extractEmbeddedBinary h e);
  match embedded with
  | Some path => mret path
  | None =>
      system ← look_path (GOOS h) (Getenv e (str "PATH")) (str "geyserlite");
      match system with Some path => mret path | None => download assetKindBinary end
  end.

Definition locateLibrary : io locateError bytes :=
  if negb (is_empty (LibraryPath opts)) then
    wrap ErrOption (fileAt (LibraryPath opts));; mret (LibraryPath opts)
  else
  let env := Getenv e (str "GEYSERLITE_LIBRARY") in
  if negb (is_empty env) then wrap ErrEnv (fileAt env);; mret env
  else
  embedded ← wrap ErrEmbedded (extractEmbeddedLibrary h e);
  match embedded with
  | Some path => mret path
  | None =>
      system ← first_at fileAt (libraryName (GOOS h)) (systemLibDirs e);
      match system with Some path => mret path | None => download assetKindLibrary end
  end.
End locate.

(** ** What the tests accept *)

Definition is_file (fs : files) (p : bytes) : bool :=
  match fs !! p with Some (File _ _) => true | _ => false end.
Definition runnable (goos : bytes) (fs : files) (p : bytes) : bool :=
  match fs !! p with
  | Some (File _ mode) => bool_decide (goos = str "windows") || negb (Z.land mode (perm 1 1 1) =? 0)
  | _ => false
  end.

Definition first_found (accept : bytes → bool) (file : bytes) (dirs : list bytes) : option bytes :=
  head (filter (λ p, accept p = true) ((λ d, path_join [d; file]) <$> dirs)).

Lemma wp_wrap {E E' A} (f : E' → E) (m : io E' A) Q s :
  wp m (λ r s', Q match r with Ok a => Ok a | Err e => Err (f e) | Panic => Panic end s') s → wp (wrap f m) Q s.
Proof. unfold wp, wrap. by destruct (m s) as [[]]. Qed.

(** An operation that only looks: it says whether the files satisfy a test. *)
Definition tests (at_ : bytes → io atError unit) (accept : files → bytes → bool) : Prop :=
  ∀ p Q s,
    (∀ e s', becomes (os_files s) s s' → fault_or s (accept (os_files s) p = false) → Q (Err e) s') →
    (∀ s', becomes (os_files s) s s' → accept (os_files s) p = true → Q (Ok tt) s') →
    wp (at_ p) Q s.

Lemma tests_executableAt goos : tests (executableAt goos) (runnable goos).
Proof.
  intros p Q s He Ho. apply wp_bind, wp_or_fail, wp_stat.
  - intros err s' Hs [[_ Hn]|Hn]; apply He; try done; [left|by right]. unfold runnable. by rewrite Hn.
  - intros n s' Hs Hn. destruct n as [|d m].
    + apply wp_throw, He; [done|left]. unfold runnable. by rewrite Hn.
    + assert (∀ b, bool_decide (goos = str "windows") || negb (Z.land m (perm 1 1 1) =? 0) = b →
        runnable goos (os_files s) p = b) as Hr by (unfold runnable; by rewrite Hn).
      destruct (bool_decide _), (_ =? 0); cbn in *; try (apply wp_ret, Ho; auto; done).
      apply wp_throw, He; [done|left; auto].
Qed.
Lemma tests_fileAt : tests fileAt is_file.
Proof.
  intros p Q s He Ho. apply wp_bind, wp_or_fail, wp_stat.
  - intros err s' Hs [[_ Hn]|Hn]; apply He; try done; [left|by right]. unfold is_file. by rewrite Hn.
  - intros n s' Hs Hn. destruct n as [|d m].
    + apply wp_throw, He; [done|left]. unfold is_file. by rewrite Hn.
    + apply wp_ret, Ho; [done|]. unfold is_file. by rewrite Hn.
Qed.

Lemma wp_first_at {E} at_ accept file dirs (Q : res E (option bytes) → os → Prop) s :
  tests at_ accept →
  (∀ r s', becomes (os_files s) s s' → (∀ p, r = Some p → accept (os_files s) p = true) →
     (quiet s → r = first_found (accept (os_files s)) file dirs) → Q (Ok r) s') →
  wp (first_at at_ file dirs) Q s.
Proof.
  intros Ht. revert s. induction dirs as [|dir dirs IH]; intros s HQ; cbn [first_at].
  { apply wp_ret, HQ; done. }
  unfold first_found in HQ. rewrite fmap_cons in HQ.
  apply wp_bind, wp_try, Ht.
  - intros e s1 Hs1 Hno. apply IH. intros r s2 Hs2 Hr Hf. pose proof Hs1 as [Hf1 _ Hq1].
    rewrite Hf1 in Hs2, Hr, Hf. apply HQ; [by eapply becomes_trans|done|].
    intros Hq. destruct Hno as [Hno|[]]; [|done]. rewrite filter_cons_False by (by rewrite Hno). auto.
  - intros s1 Hs1 Hyes. apply wp_ret, HQ; [done|by intros p [= <-]|].
    intros _. by rewrite filter_cons_True.
Qed.

(** ** The embedded blob *)

Definition blob_path (cache blob name : bytes) : bytes :=
  path_join [path_join [cache; str "geyserlite"; hex_encode (sha256 blob)]; name].

(** What an extraction from [s] leaves: on success the blob is in its place, or what was
    there, of the blob's size; apart from the place and the temporary file next to it,
    only directories are new. *)
Record extracted (h : host) (cache blob name : bytes) (s : os) (r : res embedError (option bytes)) (s' : os) : Prop := {
  ex_panic : r ≠ Panic;
  ex_path : ∀ o, r = Ok o → o = Some (blob_path cache blob name);
  ex_file : ∀ p, r = Ok (Some p) → ∃ n, os_files s' !! p = Some n
    ∧ ((∃ m, n = File blob m) ∨ node_size h p n = zlen blob ∧ os_files s' = os_files s);
  ex_rest : ∀ q, q ≠ blob_path cache blob name → q ≠ blob_path cache blob name ++ str ".tmp" →
    os_files s' !! q = os_files s !! q ∨ os_files s !! q = None ∧ os_files s' !! q = Some Dir;
  ex_kept : ∀ e, r = Err e → os_files s' !! blob_path cache blob name = os_files s !! blob_path cache blob name
    ∨ os_files s !! blob_path cache blob name = None;
  ex_sent : os_sent s' = os_sent s;
  ex_quiet : quiet s → quiet s';
}.

Lemma wp_extractEmbeddedAsset h cache blob name executable s :
  UserCacheDir h = Some cache → blob ≠ [] →
  wp (extractEmbeddedAsset h blob name executable) (extracted h cache blob name s) s.
Proof.
  intros Hcache Hb. unfold extractEmbeddedAsset. rewrite (proj2 (is_empty_false blob) Hb).
  apply wp_bind, wp_lift. rewrite Hcache. fold (blob_path cache blob name).
  set (path := blob_path cache blob name). cbv zeta.
  assert (path ≠ path ++ str ".tmp") as Htmp.
  { intros H%(f_equal length). rewrite length_app in H. cbn in H. lia. }
  assert (∀ e s', os_files s' = os_files s → os_sent s' = os_sent s → (quiet s → quiet s') →
    extracted h cache blob name s (Err e) s') as Hsame.
  { intros e s' Hf Hsent Hq. constructor; rewrite ?Hf; auto; done. }
  assert (∀ s1, os_files s1 = os_files s → os_sent s1 = os_sent s → (quiet s → quiet s1) → 
    wp (or_fail ErrMkdirCache (mkdir_all (path_join [cache; str "geyserlite"; hex_encode (sha256 blob)]));;
        or_fail ErrWriteTmp (write_file (path ++ str ".tmp") blob (if executable then perm 7 5 5 else perm 6 4 4) true);;
        cleanup (remove (path ++ str ".tmp")) (or_fail ErrRenameCache (rename (path ++ str ".tmp") path));;
        mret (Some path)) (extracted h cache blob name s) s1) as Hwrite.
  { intros s1 Hf1 Hs1 Hq1. apply wp_bind, wp_or_fail, wp_mkdir_all.
    { intros e s2 [Hf2 Hs2 Hq2]. apply Hsame; [congruence..|auto]. }
    intros fs s2 [Hf2 Hs2 Hq2] Hdirs. rewrite Hf1 in Hdirs.
    assert (∀ e s', (∀ q, q ≠ path ++ str ".tmp" → os_files s' !! q = fs !! q) → os_sent s' = os_sent s2 →
      (quiet s2 → quiet s') → extracted h cache blob name s (Err e) s') as Herr.
    { intros e s' Hf Hsent Hq. constructor; [done..| | |congruence|auto].
      - intros q _ Hq'. rewrite Hf by done. apply Hdirs.
      - intros _ _. fold path. rewrite Hf by done. destruct (Hdirs path) as [?|[? _]]; auto. }
    apply wp_bind, wp_or_fail, wp_write_file; rewrite Hf2.
    { intros e s3 [Hf3 Hs3 Hq3]. apply Herr; [by rewrite Hf3|done|auto]. }
    { intros e d m s3 [Hf3 Hs3 Hq3] _. apply Herr; [|done|auto]. intros q Hq. by rewrite Hf3, lookup_insert_ne. }
    intros m s3 [Hf3 Hs3 Hq3] _ _ _. apply wp_bind, wp_cleanup, wp_or_fail, wp_rename; rewrite Hf3.
    - intros e s4 [Hf4 Hs4 Hq4]. apply wp_remove; rewrite Hf4.
      + intros _ s5 [Hf5 Hs5 Hq5] _. apply Herr; [|congruence|auto].
        intros q Hq. by rewrite Hf5, lookup_insert_ne.
      + intros s5 [Hf5 Hs5 Hq5]. apply Herr; [|congruence|auto].
        intros q Hq. by rewrite Hf5, lookup_delete_ne, lookup_insert_ne.
    - intros d m' s4 [Hf4 Hs4 Hq4] Hd. rewrite lookup_insert_eq in Hd. injection Hd as <- <-.
      apply wp_ret. constructor; [done|by intros o [= <-]| | |done|congruence|auto 8].
      + intros p [= <-]. exists (File blob m). split; [by rewrite Hf4, lookup_insert_eq|left; by exists m].
      + fold path. intros q Hq1' Hq2'. rewrite Hf4.
        rewrite lookup_insert_ne, lookup_delete_ne, lookup_insert_ne by congruence. apply Hdirs. }
  apply wp_bind, wp_try, wp_stat.
  - intros e s1 [Hf1 Hs1 Hq1] _. destruct e; [by apply Hwrite|by apply wp_throw, Hsame].
  - intros n s1 [Hf1 Hs1 Hq1] Hn. destruct (Z.eqb_spec (node_size h path n) (zlen blob)) as [Hsize|_]; [|by apply Hwrite].
    apply wp_ret. constructor; rewrite ?Hf1; try done; [by intros o [= <-]| |by left].
    intros p [= <-]. fold path. rewrite Hn. exists n. auto.
Qed.

(** ** The order of the sources *)

(** What a run from [s] with result [r] and final state [s'] did. [opt] and [env] are the
    paths the user gave, [accept] the test for them, [name] the blob's file name, and
    [system] what a search of the system finds in the files. *)
Section located.
Context (h : host) (opts : Options) (kind : assetKind) (opt env : bytes) (accept : files → bytes → bool)
  (blob : option bytes) (name : bytes) (system : files → option bytes).

(** Nothing was done but to look. *)
Definition looked (s s' : os) : Prop :=
  os_files s' = os_files s ∧ os_sent s' = os_sent s ∧ (quiet s → quiet s').

(** The user gave a path: it is the result, or the failure is final. *)
Definition by_path (path : bytes) (bad : atError → locateError) (s : os) (r : res locateError bytes) (s' : os) : Prop :=
  looked s s' ∧ (r = Ok path ∧ accept (os_files s) path = true
                 ∨ (∃ e, r = Err (bad e)) ∧ (quiet s → accept (os_files s) path = false)).

Definition by_blob (b : bytes) (s : os) (r : res locateError bytes) (s' : os) : Prop :=
  match UserCacheDir h with
  | None => r = Err (ErrEmbedded ErrCacheDir) ∧ looked s s'
  | Some cache => ∃ r1, extracted h cache b name s r1 s'
      ∧ r = match r1 with
            | Ok _ => Ok (blob_path cache b name)
            | Err e => Err (ErrEmbedded e)
            | Panic => Panic
            end
  end.

(** The system is searched, and the network is asked only if that found nothing. *)
Definition by_search (s : os) (r : res locateError bytes) (s' : os) : Prop :=
  (∃ p, r = Ok p ∧ accept (os_files s) p = true ∧ (quiet s → system (os_files s) = Some p) ∧ looked s s')
  ∨ (quiet s → system (os_files s) = None)
    ∧ (OfflineMode opts = true ∧ r = Err (ErrNone None) ∧ looked s s'
       ∨ OfflineMode opts = false ∧ ∃ s1 r1, looked s s1 ∧ outcome h opts kind s1 r1 s'
           ∧ r = match r1 with Ok p => Ok p | Err e => Err (ErrNone (Some e)) | Panic => Panic end).

Definition located (s : os) (r : res locateError bytes) (s' : os) : Prop :=
  if negb (is_empty opt) then by_path opt ErrOption s r s'
  else if negb (is_empty env) then by_path env ErrEnv s r s'
  else match blob with
       | Some (c :: b) => by_blob (c :: b) s r s'
       | _ => by_search s r s'
       end.

Context (at_ : bytes → io atError unit) (search : io locateError (option bytes)) (executable : bool).

(** The shape of [locateBinary] and [locateLibrary]. *)
Definition locate_with : io locateError bytes :=
  if negb (is_empty opt) then wrap ErrOption (at_ opt);; mret opt
  else if negb (is_empty env) then wrap ErrEnv (at_ env);; mret env
  else
  embedded ← wrap ErrEmbedded (extractEmbedded h blob name executable);
  match embedded with
  | Some path => mret path
  | None =>
      found ← search;
      match found with Some path => mret path | None => download h opts kind end
  end.

Hypothesis at_tests : tests at_ accept.
Hypothesis wp_search : ∀ Q s,
  (∀ r s', becomes (os_files s) s s' → (∀ p, r = Some p → accept (os_files s) p = true) →
     (quiet s → r = system (os_files s)) → Q (Ok r) s') → wp search Q s.

Lemma wp_by_path path bad (Q : res locateError bytes → os → Prop) s :
  (∀ r s', by_path path bad s r s' → Q r s') → wp (wrap bad (at_ path);; mret path) Q s.
Proof.
  intros HQ. apply wp_bind, wp_wrap, at_tests.
  - intros e s' [Hf Hs Hq'] Hno. apply HQ. split; [done|]. right. split; [eauto|].
    intros Hq. by destruct Hno.
  - intros s' [Hf Hs Hq'] Hyes. apply wp_ret, HQ. split; [done|]. by left.
Qed.

Lemma wp_by_search s :
  wp (found ← search; match found with Some path => mret path | None => download h opts kind end)
     (by_search s) s.
Proof.
  apply wp_bind, wp_search. intros r s1 [Hf1 Hs1 Hq1] Hacc Hsys. destruct r as [p|].
  { apply wp_ret. left. exists p. split_and!; try done; auto. intros Hq. by rewrite <-Hsys. }
  unfold download. destruct (OfflineMode opts) eqn:Hoff.
  - apply wp_throw. right. split; [intros Hq; by rewrite <-Hsys|]. left. done.
  - apply wp_wrap. pose proof (wp_downloadAsset h opts kind s1) as H. unfold wp in *.
    right. split; [intros Hq; by rewrite <-Hsys|]. right. split; [done|].
    eexists s1, _. split; [done|]. split; [exact H|done].
Qed.

Lemma wp_locate_with s : wp locate_with (located s) s.
Proof.
  unfold locate_with, located. destruct (is_empty opt); cbn [negb]; [|by apply wp_by_path].
  destruct (is_empty env); cbn [negb]; [|by apply wp_by_path].
  apply wp_bind, wp_wrap. destruct blob as [[|c b]|]; cbn [extractEmbedded].
  - apply wp_ret, wp_by_search.
  - unfold by_blob. destruct (UserCacheDir h) as [cache|] eqn:Hcache.
    + eapply wp_mono; [|by apply wp_extractEmbeddedAsset]. intros r s' Hex. pose proof Hex as [Hp Ho' _ _ _ _ _].
      destruct r as [o|e|]; [|by exists (Err e)|done]. rewrite (Ho' o eq_refl). apply wp_ret. by exists (Ok o).
    + unfold extractEmbeddedAsset. cbn [is_empty]. apply wp_bind, wp_lift. by rewrite Hcache.
  - apply wp_ret, wp_by_search.
Qed.

(** Reading the order off [located]. *)
Lemma located_quiet_network s r s' :
  located s r s' → OfflineMode opts = true ∨ opt ≠ [] ∨ env ≠ [] → os_sent s' = os_sent s.
Proof.
  unfold located. intros H Hoff. destruct (is_empty opt) eqn:Ho; cbn [negb] in H; [|by destruct H as [(_ & ? & _) _]].
  destruct (is_empty env) eqn:He; cbn [negb] in H; [|by destruct H as [(_ & ? & _) _]].
  apply is_empty_spec in Ho, He. destruct Hoff as [Hoff|[|]]; [|done..].
  assert (by_search s r s' → os_sent s' = os_sent s) as Hsearch.
  { intros [(p & _ & _ & _ & (_ & ? & _))|(_ & [(_ & _ & (_ & ? & _))|(Hn & _)])]; [done..|congruence]. }
  destruct blob as [[|c b]|]; [auto| |auto].
  unfold by_blob in H. destruct (UserCacheDir h); [by destruct H as (r1 & Hex & _); apply Hex|by destruct H as (_ & _ & ? & _)].
Qed.
Lemma located_quiet s r s' : located s r s' → quiet s → quiet s'.
Proof.
  unfold located. intros H. destruct (is_empty opt); cbn [negb] in H; [|by destruct H as [(_ & _ & ?) _]].
  destruct (is_empty env); cbn [negb] in H; [|by destruct H as [(_ & _ & ?) _]].
  assert (by_search s r s' → quiet s → quiet s') as Hsearch.
  { intros [(p & _ & _ & _ & (_ & _ & ?))|(_ & [(_ & _ & (_ & _ & ?))|(_ & s1 & r1 & (_ & _ & ?) & Hoc & _)])]; [done..|].
    intros Hq. apply (oc_quiet _ _ _ _ _ _ Hoc). auto. }
  destruct blob as [[|c b]|]; [auto| |auto].
  unfold by_blob in H. destruct (UserCacheDir h); [by destruct H as (r1 & Hex & _); apply Hex|by destruct H as (_ & _ & _ & ?)].
Qed.
End located.

(** What [look_path] finds when no operation fails. *)
Definition path_found (e : site) (goos : bytes) (fs : files) : option bytes :=
  p ← first_found (runnable goos fs) (str "geyserlite")
        ((λ d : bytes, if is_empty d then str "." else d) <$> split_list (Getenv e (str "PATH")));
  if has_prefix [slash] p then Some p else None.

Lemma wp_look_path e goos (Q : res locateError (option bytes) → os → Prop) s :
  (∀ r s', becomes (os_files s) s s' → (∀ p, r = Some p → runnable goos (os_files s) p = true) →
     (quiet s → r = path_found e goos (os_files s)) → Q (Ok r) s') →
  wp (look_path goos (Getenv e (str "PATH")) (str "geyserlite")) Q s.
Proof.
  intros HQ. apply wp_bind, (wp_first_at _ (runnable goos)); [apply tests_executableAt|].
  intros r s' Hs Hacc Hf. apply wp_ret, HQ; [done| |].
  - intros p. destruct r as [p'|]; [|done]. destruct (has_prefix _ _); [|done]. intros [= ->]. auto.
  - intros Hq. unfold path_found. rewrite <-Hf by done. by destruct r.
Qed.

Lemma locateBinary_located h e opts s :
  located h opts assetKindBinary (BinaryPath opts) (Getenv e (str "GEYSERLITE_BINARY")) (runnable (GOOS h))
    (embeddedBinary e) (str "geyserlite") (path_found e (GOOS h)) s
    (locateBinary h e opts s).1 (locateBinary h e opts s).2.
Proof.
  apply (wp_locate_with h opts assetKindBinary _ _ (runnable (GOOS h)) _ _ (path_found e (GOOS h))
    (executableAt (GOOS h)) (look_path (GOOS h) (Getenv e (str "PATH")) (str "geyserlite")) true).
  - apply tests_executableAt.
  - apply wp_look_path.
Qed.
Lemma locateLibrary_located h e opts s :
  located h opts assetKindLibrary (LibraryPath opts) (Getenv e (str "GEYSERLITE_LIBRARY")) is_file
    (embeddedLibrary e) (str "libgeyserlite.so")
    (λ fs, first_found (is_file fs) (libraryName (GOOS h)) (systemLibDirs e)) s
    (locateLibrary h e opts s).1 (locateLibrary h e opts s).2.
Proof.
  apply (wp_locate_with h opts assetKindLibrary _ _ is_file _ _
    (λ fs, first_found (is_file fs) (libraryName (GOOS h)) (systemLibDirs e))
    fileAt (first_at fileAt (libraryName (GOOS h)) (systemLibDirs e)) false).
  - apply tests_fileAt.
  - intros Q s' HQ. by apply (wp_first_at _ is_file); [apply tests_fileAt|].
Qed.

(** C27: the binary is looked for in the documented order, each source only after the
    earlier ones: a path given in the options or the environment decides alone, the built-in
    blob comes before [$PATH], and the download last, never when [Offline]; whatever is
    returned passed the test of its source, and a failure says which source failed. *)
Theorem locateBinary_spec h e opts s :
  located h opts assetKindBinary (BinaryPath opts) (Getenv e (str "GEYSERLITE_BINARY")) (runnable (GOOS h))
    (embeddedBinary e) (str "geyserlite") (path_found e (GOOS h)) s
    (locateBinary h e opts s).1 (locateBinary h e opts s).2.
Proof. apply locateBinary_located. Qed.

(** The same for the library, of which only the existence is tested and whose system
    directories are those of [$LD_LIBRARY_PATH], then [/usr/local/lib] and [/usr/lib]. *)
Theorem locateLibrary_spec h e opts s :
  located h opts assetKindLibrary (LibraryPath opts) (Getenv e (str "GEYSERLITE_LIBRARY")) is_file
    (embeddedLibrary e) (str "libgeyserlite.so")
    (λ fs, first_found (is_file fs) (libraryName (GOOS h)) (systemLibDirs e)) s
    (locateLibrary h e opts s).1 (locateLibrary h e opts s).2.
Proof. apply locateLibrary_located. Qed.

(** With [Offline] set, or with a path given, locating makes no request, whatever is
    found or fails. *)
Theorem offline_no_network h e opts s :
  OfflineMode opts = true →
  os_sent (locateBinary h e opts s).2 = os_sent s ∧ os_sent (locateLibrary h e opts s).2 = os_sent s.
Proof.
  intros Hoff. split.
  - eapply located_quiet_network; [apply locateBinary_located|by left].
  - eapply located_quiet_network; [apply locateLibrary_located|by left].
Qed.

(** ** Every source *)
Module sources.
Definition env (l : list (bytes * bytes)) (k : bytes) : bytes :=
  match filter (λ p : bytes * bytes, p.1 = k) l with p :: _ => p.2 | [] => [] end.
Definition fs : files := {[
  str "/" := Dir; str "/bin" := Dir; str "/opt" := Dir;
  str "/bin/geyserlite" := File [1] (perm 7 5 5);
  str "/opt/geyserlite" := File [2] (perm 6 4 4);
  str "/usr/lib/libgeyserlite.so" := File [3] (perm 6 4 4)]}.
Definition start : os := Os fs [] [1]%N 18 [] (str "/").
Definition given (binary : bytes) (offline : bool) : Options :=
  MkOptions [] (str "127.0.0.1:25567") Online [] (Motd [] []) ModeEmbedded [] binary None None None 0
    [] [] offline 0.
Definition plain_site : site := Site (env [(str "PATH", str "/opt::/bin")]) None None.

(** A given path without execute permission is final, though [$PATH] has a binary. *)
Lemma given_path_final :
  (locateBinary demo.platform plain_site (given (str "/opt/geyserlite") false) start).1
  = Err (ErrOption NotExecutable).
Proof. by vm_compute. Qed.
Lemma path_search :
  (locateBinary demo.platform plain_site (given [] true) start).1 = Ok (str "/bin/geyserlite").
Proof. by vm_compute. Qed.
Lemma blob_before_path :
  (locateBinary demo.platform (Site (Getenv plain_site) (Some [7; 7]) None) (given [] true) start).1
  = Ok (blob_path (str "/cache") [7; 7] (str "geyserlite")).
Proof. by vm_compute. Qed.
Lemma library_in_usr_lib :
  (locateLibrary demo.platform plain_site (given [] true) start).1 = Ok (str "/usr/lib/libgeyserlite.so").
Proof. by vm_compute. Qed.
Lemma nothing_offline :
  (locateLibrary demo.platform plain_site (given [] true) (Os ∅ [] [] 18 [] (str "/"))).1 = Err (ErrNone None).
Proof. by vm_compute. Qed.
Lemma download_last :
  (locateBinary demo.platform (Site (env []) None None) (given [] false) start).1 = Ok demo.path.
Proof. by vm_compute. Qed.
End sources.

Lemma offline_no_network_witness :
  os_sent (locateBinary demo.platform sources.plain_site (sources.given [] true) sources.start).2 = []
  ∧ os_sent (locateLibrary demo.platform sources.plain_site (sources.given [] true) sources.start).2 = [].
Proof. apply (offline_no_network demo.platform sources.plain_site (sources.given [] true) sources.start). reflexivity. Defined.
