(* ===== verification/Library.v ===== *)
(** * Loading the native library ([load] of embedded.go, library_unix.go, library_windows.go)

    [embeddedRunner.load] opens libgeyserlite and binds its exports, once per runner; a
    string is handed to it NUL-terminated. The dynamic loader is an argument. *)
From S2P Require Import Prelude GoInt GoStrings GoText.

(** [purego.Dlopen] or [syscall.LoadLibrary]: a handle or an error; and whether
    [purego.RegisterLibFunc] finds a symbol, or panics. *)
Record dynlink := Dynlink {
  dl_open : bytes → option Z;
  dl_find : Z → bytes → bool;
}.

(** [embeddedRunner], less its health: [once] has run, [lib], and the functions of [api] that
    are bound, by their symbols. *)
Record embeddedRunner := Embedded {
  er_once : bool;
  er_lib : Z;
  er_api : list bytes;
}.
Definition newEmbeddedRunner : embeddedRunner := Embedded false 0 [].

Inductive loadError := LoadOpen (path : bytes) | LoadBind (name : bytes).

(** The symbols in the order they are bound. *)
Definition exports : list bytes :=
  [str "graal_create_isolate"; str "graal_tear_down_isolate"; str "graal_attach_thread"; str "graal_detach_thread";
   str "geyser_init"; str "geyser_run"; str "geyser_shutdown"; str "geyser_status";
   str "geyserlite_set_ingress_callbacks_v1"; str "geyserlite_assign_verified_ingress_v1"].

Section load.
Context (d : dynlink).

Definition openLibrary (path : bytes) : option Z := dl_open d path.

(** The closure [bind]: it does nothing once [loadErr] is set, and sets it if
    [RegisterLibFunc] panics. *)
Definition bind (lib : Z) (name : bytes) (st : list bytes * option loadError) : list bytes * option loadError :=
  match st with
  | (api, Some e) => (api, Some e)
  | (api, None) => if dl_find d lib name then (api ++ [name], None) else (api, Some (LoadBind name))
  end.

(** The function given to [once.Do]. *)
Definition load_once (libpath : bytes) (r : embeddedRunner) : embeddedRunner * option loadError :=
  match openLibrary libpath with
  | None => (r, Some (LoadOpen libpath))
  | Some lib =>
      let '(api, loadErr) := foldl (λ st name, bind lib name st) (er_api r, None) exports in
      (Embedded (er_once r) lib api, loadErr)
  end.

(** [loadErr] is a variable of the call: a call that does not run the function returns nil. *)
Definition load (libpath : bytes) (r : embeddedRunner) : embeddedRunner * option loadError :=
  if er_once r then (r, None)
  else let '(r, loadErr) := load_once libpath r in (Embedded true (er_lib r) (er_api r), loadErr).

(** ** Binding *)

Lemma bind_stops lib names api e : foldl (λ st name, bind lib name st) (api, Some e) names = (api, Some e).
Proof. by induction names. Qed.
Lemma bind_all lib names api :
  forallb (dl_find d lib) names = true →
  foldl (λ st name, bind lib name st) (api, None) names = (api ++ names, None).
Proof.
  revert api. induction names as [|n names IH]; intros api; cbn; [by rewrite app_nil_r|].
  intros [Hn Hns]%andb_true_iff. rewrite Hn, IH by done. by rewrite <-app_assoc.
Qed.
Lemma bind_first lib before name after api :
  forallb (dl_find d lib) before = true → dl_find d lib name = false →
  foldl (λ st name, bind lib name st) (api, None) (before ++ name :: after) = (api ++ before, Some (LoadBind name)).
Proof. intros Hb Hn. rewrite foldl_app, bind_all by done. cbn. by rewrite Hn, bind_stops. Qed.
Lemma forallb_split {X} (f : X → bool) l :
  forallb f l = true ∨ ∃ before x after, l = before ++ x :: after ∧ forallb f before = true ∧ f x = false.
Proof.
  induction l as [|x l IH]; [by left|]. cbn. destruct (f x) eqn:Hx; [|right; by exists [], x, l].
  destruct IH as [->|(b & z & a & -> & Hb & Hz)]; [by left|]. right. exists (x :: b), z, a. cbn. by rewrite Hx.
Qed.

(** C21: loading the library: a runner's first [load] returns nil exactly if the library
    opens and has all ten symbols, which are bound then, in the order of the list; if it
    does not open nothing is bound; if a symbol is missing, the error names the first
    missing one, and the ones before it, and no others, are bound. Every later [load]
    changes nothing and returns nil, also after one that failed. *)
Theorem load_binds libpath r :
  let '(r1, e) := load libpath r in
  (er_once r = true → r1 = r ∧ e = None)
  ∧ (er_once r = false → er_api r = [] →
      match dl_open d libpath with
      | None => e = Some (LoadOpen libpath) ∧ er_api r1 = []
      | Some lib =>
          er_lib r1 = lib
          ∧ (e = None ↔ ∀ name, name ∈ exports → dl_find d lib name = true)
          ∧ (e = None → er_api r1 = exports)
          ∧ (e ≠ None → ∃ before name after, exports = before ++ name :: after ∧ e = Some (LoadBind name)
               ∧ er_api r1 = before ∧ dl_find d lib name = false
               ∧ ∀ n, n ∈ before → dl_find d lib n = true)
      end)
  ∧ ∀ path2, load path2 r1 = (r1, None).
Proof.
  unfold load at 1. destruct (er_once r) eqn:Ho.
  { split_and!; try done. intros path2. unfold load. by rewrite Ho. }
  unfold load_once, openLibrary. destruct (dl_open d libpath) as [lib|]; [|done].
  assert (∀ l, forallb (dl_find d lib) l = true ↔ ∀ n, n ∈ l → dl_find d lib n = true) as Hall.
  { intros l. rewrite forallb_forall. by setoid_rewrite <-list_elem_of_In. }
  destruct (forallb_split (dl_find d lib) exports) as [Hok|(before & name & after & Heq & Hb & Hn)].
  - rewrite bind_all by done. split_and!; [done| |done]. intros _ ->. cbn [er_lib er_api app]. split_and!; [done| |done|done].
    split; [|done]. intros _. by apply Hall.
  - rewrite Heq, bind_first by done. split_and!; [done| |done]. intros _ ->. cbn [er_lib er_api app]. split_and!; [done| |done|].
    + split; [done|]. intros H. rewrite H in Hn; [done|]. apply elem_of_app. right. constructor.
    + intros _. exists before, name, after. split_and!; try done. by apply Hall.
Qed.
End load.

(** ** Strings *)

(** [cString]: the bytes the pointer points to. *)
Definition cString (s : bytes) : bytes := s ++ [0].
(** What C reads there. *)
Fixpoint c_read (b : bytes) : bytes :=
  match b with
  | [] => []
  | c :: b => if c =? 0 then [] else c :: c_read b
  end.
Lemma cString_read s : 0 ∉ s → c_read (cString s) = s.
Proof.
  induction s as [|c s IH]; intros H; [done|]. cbn. apply not_elem_of_cons in H as [Hc Hs].
  destruct (Z.eqb_spec c 0); [by subst|]. by rewrite <-IH at 2.
Qed.

(** ** Witness: a library without its last symbol *)
Module dl_demo.
Definition old_library : dynlink :=
  Dynlink (λ _, Some 4096) (λ _ name, negb (bool_decide (name = str "geyserlite_assign_verified_ingress_v1"))).
Definition loaded : embeddedRunner * option loadError := load old_library (str "libgeyserlite.so") newEmbeddedRunner.
Lemma old_library_fails :
  loaded.2 = Some (LoadBind (str "geyserlite_assign_verified_ingress_v1")) ∧ er_api loaded.1 = take 9 exports.
Proof. split; by vm_compute. Qed.
End dl_demo.

Lemma load_binds_witness :
  dl_demo.loaded.2 ≠ None ∧ load dl_demo.old_library (str "other.so") dl_demo.loaded.1 = (dl_demo.loaded.1, None).
Proof.
  destruct dl_demo.old_library_fails as [He _]. split; [rewrite He; discriminate|].
  pose proof (load_binds dl_demo.old_library (str "libgeyserlite.so") newEmbeddedRunner) as H.
  change (load dl_demo.old_library (str "libgeyserlite.so") newEmbeddedRunner) with dl_demo.loaded in H.
  destruct dl_demo.loaded as [r1 e]. destruct H as (_ & _ & H). apply H.
Defined.
