(* ===== verification/Launch.v ===== *)
(** * What both runners do around a run (subprocess.go, embedded.go, config.go)

    The native code is located, a private directory is made for it, the key and the
    configuration are written there, and the directory is removed when the run is over.
    YAML, [dlopen] and the run itself are arguments. *)
From S2P Require Import Prelude GoInt GoStrings GoText Sha256 Supervisor Options MergeMap Config Os Download Locate Library.

Inductive launchError (X : Type) :=
| ErrLocate (e : locateError) | ErrLoad (e : loadError) | ErrWorkdir
| ErrInvalidKey | ErrWriteKey                        (* writeFloodgateKey *)
| ErrBuildConfig (e : configError) | ErrMarshal | ErrWriteConfig
| ErrChdir | ErrRun (e : X).
Arguments ErrLocate {X}. Arguments ErrLoad {X}. Arguments ErrWorkdir {X}. Arguments ErrInvalidKey {X}.
Arguments ErrWriteKey {X}. Arguments ErrBuildConfig {X}. Arguments ErrMarshal {X}.
Arguments ErrWriteConfig {X}. Arguments ErrChdir {X}. Arguments ErrRun {X}.

(** The YAML library, Go's order of ranging over maps, and the maps the process holds. *)
Record yaml := Yaml {
  ym_iter : map_order;
  ym_unmarshal : bytes → heap → option (heap * Z);
  ym_marshal : heap → Z → option bytes;
  ym_fuel : nat;
  ym_heap : heap;
}.

Section launch.
Context {X : Type} (h : host) (e : site) (y : yaml) (tmpdir : bytes).

Definition writeFloodgateKey (workdir : bytes) (opts : Options) : io (launchError X) unit :=
  if negb (AuthType_of opts =? Floodgate) then mret tt
  else if negb (zlen (FloodgateKey opts) =? 16) then throw ErrInvalidKey
  else or_fail ErrWriteKey (write_file (path_join [workdir; str "key.bin"]) (FloodgateKey opts) (perm 6 0 0) true).

(** The text of the configuration. *)
Definition config_text (opts : Options) : res (launchError X) bytes :=
  match buildConfigMap (ym_iter y) (ym_unmarshal y) (ym_fuel y) (ym_heap y) opts with
  | Ok (heap, cfg) => match ym_marshal y heap cfg with Some out => Ok out | None => Err ErrMarshal end
  | Err err => Err (ErrBuildConfig err)
  | Panic => Panic
  end.
Definition renderConfig (workdir : bytes) (opts : Options) : io (launchError X) unit :=
  out ← lift (config_text opts);
  or_fail ErrWriteConfig (write_file (path_join [workdir; str "config.yml"]) out (perm 6 0 0) true).

Definition permissions : bytes := str "# Default permissions.yml — see GeyserMC docs.
default-permissions: []
".
Definition copyPermissionsYML (workdir : bytes) : io errno unit :=
  write_file (path_join [workdir; str "permissions.yml"]) permissions (perm 6 4 4) true.

(** The part the runners share. *)
Definition prepare (workdir : bytes) (opts : Options) : io (launchError X) unit :=
  writeFloodgateKey workdir opts;;
  renderConfig workdir opts;;
  _ ← try (copyPermissionsYML workdir);
  mret tt.

(** [os.MkdirTemp("", "geyserlite-*")]. *)
Definition make_workdir : io (launchError X) bytes :=
  or_fail ErrWorkdir (mkdir_temp tmpdir (str "geyserlite-") []).

(** [subprocessRunner.run]; [supervise]: the loop that runs the binary. *)
Definition subprocess_run (opts : Options) (supervise : bytes → bytes → io X unit) : io (launchError X) unit :=
  binary ← wrap ErrLocate (locateBinary h e opts);
  workdir ← make_workdir;
  deferring (remove_all workdir) (
    prepare workdir opts;;
    wrap ErrRun (supervise binary workdir)).

(** [embeddedRunner.run]; [native]: the rest up to its return, from the runner with its library
    loaded, the C string of the path of the configuration, and the work directory; [late]: what
    the goroutine of the isolate goes on to do when [run] has returned that error, which it may
    if the context ends while the goroutine is in a native call. *)
Definition embedded_run (opts : Options) (d : dynlink) (r : embeddedRunner)
    (native : embeddedRunner → bytes → bytes → io X unit) (late : X → embeddedRunner → bytes → bytes → io X unit)
    : io (launchError X) unit :=
  libpath ← wrap ErrLocate (locateLibrary h e opts);
  r ← lift (match load d libpath r with (r, None) => Ok r | (_, Some err) => Err (ErrLoad err) end);
  workdir ← make_workdir;
  let cstr := cString (path_join [workdir; str "config.yml"]) in
  outlived (λ err, match err with ErrRun x => late x r cstr workdir | _ => mret tt end) (
    deferring (remove_all workdir) (
      prepare workdir opts;;
      prev ← try getwd;
      let prev := match prev with inr d => d | inl _ => [] end in
      or_fail ErrChdir (chdir workdir);;
      deferring (chdir prev) (wrap ErrRun (native r cstr workdir)))).
End launch.

(** ** The files of the work directory *)

Section proofs.
Context {X : Type} (y : yaml).

Lemma wp_deferring {E E' A B} (c : io E' B) (m : io E A) Q s :
  wp m (λ r s', wp c (λ _ s'', Q r s'') s') s → wp (deferring c m) Q s.
Proof. unfold wp, deferring. by destruct (m s). Qed.

(** A file only its owner can read or write. *)
Definition private_file (fs : files) (p data : bytes) : Prop :=
  ∃ mode, fs !! p = Some (File data mode) ∧ Z.land mode (perm 0 7 7) = 0.

(** What the native code finds in [workdir]. *)
Record staged (workdir : bytes) (opts : Options) (fs : files) : Prop := {
  sg_key : if AuthType_of opts =? Floodgate
    then zlen (FloodgateKey opts) = 16 ∧ private_file fs (workdir ++ slash :: str "key.bin") (FloodgateKey opts)
    else fs !! (workdir ++ slash :: str "key.bin") = None;
  sg_config : ∃ out, config_text (X := X) y opts = Ok out
    ∧ private_file fs (workdir ++ slash :: str "config.yml") out;
}.

(** Only paths in [workdir] changed. *)
Definition within (workdir : bytes) (fs fs' : files) : Prop :=
  ∀ q, under workdir q = false → fs' !! q = fs !! q.

Lemma within_trans w fs1 fs2 fs3 : within w fs1 fs2 → within w fs2 fs3 → within w fs1 fs3.
Proof. intros H1 H2 q Hq. by rewrite H2, H1. Qed.
Lemma under_below w a : under w (w ++ slash :: a) = true.
Proof.
  unfold under. apply orb_true_iff. right. apply has_prefix_spec. exists a. by rewrite <-app_assoc.
Qed.
Lemma within_insert w a n fs : within w fs (<[w ++ slash :: a := n]> fs).
Proof. intros q Hq. rewrite lookup_insert_ne; [done|]. intros <-. by rewrite under_below in Hq. Qed.
Lemma below_inj (w a b : bytes) : w ++ slash :: a = w ++ slash :: b → a = b.
Proof. intros [= ?]%app_inv_head. done. Qed.

Lemma plain_key : plain (str "key.bin").
Proof. constructor; try discriminate. apply (bool_decide_unpack _). by vm_compute. Qed.
Lemma plain_config : plain (str "config.yml").
Proof. constructor; try discriminate. apply (bool_decide_unpack _). by vm_compute. Qed.
Lemma plain_permissions : plain (str "permissions.yml").
Proof. constructor; try discriminate. apply (bool_decide_unpack _). by vm_compute. Qed.

(** Not readable or writable by the group or others, whatever the umask. *)
Lemma private_mode umask : Z.land (Z.ldiff (perm 6 0 0) umask) (perm 0 7 7) = 0.
Proof.
  apply Z.bits_inj'. intros n Hn. rewrite Z.land_spec, Z.ldiff_spec, Z.bits_0.
  assert (Z.testbit (perm 6 0 0) n && Z.testbit (perm 0 7 7) n = false) as H.
  { rewrite <-Z.land_spec. by rewrite Z.bits_0. }
  destruct (Z.testbit (perm 6 0 0) n), (Z.testbit umask n), (Z.testbit (perm 0 7 7) n); done.
Qed.

(** The work directory is new. *)
Definition empty_dir (w : bytes) (fs : files) : Prop :=
  fs !! w = Some Dir ∧ ∀ a, fs !! (w ++ slash :: a) = None.

Record prepared (w : bytes) (opts : Options) (s : os) (r : res (launchError X) unit) (s' : os) : Prop := {
  pr_within : within w (os_files s) (os_files s');
  pr_staged : r = Ok tt → empty_dir w (os_files s) → staged w opts (os_files s');
  pr_panic : r = Panic → config_text (X := X) y opts = Panic;
  pr_dir : os_files s' !! w = os_files s !! w;
  pr_quiet : quiet s → quiet s';
}.

Lemma lookup_below_ne (w a : bytes) (n : node) (fs : files) (p : bytes) :
  p ≠ w ++ slash :: a → <[w ++ slash :: a := n]> fs !! p = fs !! p.
Proof. intros H. by rewrite lookup_insert_ne. Qed.
Lemma below_ne_dir (w a : bytes) : w ++ slash :: a ≠ w.
Proof. intros H%(f_equal length). rewrite length_app in H. cbn in H. lia. Qed.

(** Writing a file below [w]: only that path may change. *)
Lemma wp_write_below {E} (err : E) w a data Q s :
  tidy w → plain a →
  (∀ fs' s', (∀ p, p ≠ w ++ slash :: a → fs' !! p = os_files s !! p) → os_files s' = fs' →
     (quiet s → quiet s') → Q (Err err) s') →
  (∀ m s', os_files s' = <[w ++ slash :: a := File data m]> (os_files s) → (quiet s → quiet s') →
     (os_files s !! (w ++ slash :: a) = None → Z.land m (perm 0 7 7) = 0) → Q (Ok tt) s') →
  wp (or_fail err (write_file (path_join [w; a]) data (perm 6 0 0) true)) Q s.
Proof.
  intros Hw Ha He Ho. rewrite path_join_below by done. apply wp_or_fail, wp_write_file.
  - intros e s' [Hf _ Hq]. by apply (He (os_files s)).
  - intros e d m s' [Hf _ Hq] _. eapply He; [|done|done]. intros p Hp. by apply lookup_below_ne.
  - intros m s' [Hf _ Hq] _ Hm _. apply (Ho m); [done..|]. intros Hn. rewrite Hn in Hm. subst m.
    apply private_mode.
Qed.

Lemma within_but (w a : bytes) (fs fs' : files) :
  (∀ p, p ≠ w ++ slash :: a → fs' !! p = fs !! p) → within w fs fs'.
Proof. intros H q Hq. apply H. intros ->. by rewrite under_below in Hq. Qed.

(** The key and the configuration are the only files touched. *)
Definition only_two (w : bytes) (fs fs' : files) : Prop :=
  ∀ p, p ≠ w ++ slash :: str "key.bin" → p ≠ w ++ slash :: str "config.yml" → fs' !! p = fs !! p.
Lemma only_two_within w fs fs' : only_two w fs fs' → within w fs fs' ∧ fs' !! w = fs !! w.
Proof.
  intros H. split.
  - intros q Hu. apply H; intros ->; by rewrite under_below in Hu.
  - apply H; intros Heq; symmetry in Heq; by apply below_ne_dir in Heq.
Qed.
Lemma prepared_fails w opts s r s' :
  only_two w (os_files s) (os_files s') → (quiet s → quiet s') → r ≠ Ok tt →
  (r = Panic → config_text (X := X) y opts = Panic) → prepared w opts s r s'.
Proof. intros [H1 H2]%only_two_within Hq Hr Hp. by constructor. Qed.

(** After [writeFloodgateKey]: the key is there, or not wanted. *)
Definition key_written (w : bytes) (opts : Options) (s s1 : os) : Prop :=
  os_files s1 = os_files s ∧ AuthType_of opts ≠ Floodgate
  ∨ AuthType_of opts = Floodgate ∧ zlen (FloodgateKey opts) = 16 ∧ ∃ m,
      os_files s1 = <[w ++ slash :: str "key.bin" := File (FloodgateKey opts) m]> (os_files s)
      ∧ (os_files s !! (w ++ slash :: str "key.bin") = None → Z.land m (perm 0 7 7) = 0).
Lemma key_written_others w opts s s1 p :
  key_written w opts s s1 → p ≠ w ++ slash :: str "key.bin" → os_files s1 !! p = os_files s !! p.
Proof. intros [[-> _]|(_ & _ & m & -> & _)] Hp; [done|by apply lookup_below_ne]. Qed.

(** Both files written, and anything done to the permissions. *)
Lemma prepared_done w opts s s1 s2 s3 out m :
  key_written w opts s s1 → config_text (X := X) y opts = Ok out →
  os_files s2 = <[w ++ slash :: str "config.yml" := File out m]> (os_files s1) →
  (os_files s1 !! (w ++ slash :: str "config.yml") = None → Z.land m (perm 0 7 7) = 0) →
  (∀ p, p ≠ w ++ slash :: str "permissions.yml" → os_files s3 !! p = os_files s2 !! p) →
  (quiet s → quiet s3) → prepared w opts s (Ok tt) s3.
Proof.
  intros Hs1 Hout Hf2 Hm Hs3 Hq. pose proof (λ p, key_written_others w opts s s1 p Hs1) as Hkey.
  assert (only_two w (os_files s) (os_files s2)) as [Hw2 Hd2]%only_two_within.
  { intros p Hp Hc. rewrite Hf2, lookup_below_ne by done. by apply Hkey. }
  constructor; [| |done| |done].
  - intros q Hu. rewrite Hs3; [by apply Hw2|]. intros ->. by rewrite under_below in Hu.
  - intros _ [_ Hempty].
    assert (os_files s3 !! (w ++ slash :: str "key.bin") = os_files s1 !! (w ++ slash :: str "key.bin")) as Hk3.
    { rewrite Hs3 by (by intros ?%below_inj). rewrite Hf2. apply lookup_below_ne. by intros ?%below_inj. }
    constructor.
    + destruct Hs1 as [[Hf1 Ha]|(Ha & Hl & mk & Hf1 & Hmk)].
      * replace (AuthType_of opts =? Floodgate) with false by lia. by rewrite Hk3, Hf1, Hempty.
      * rewrite Ha. split; [done|]. exists mk. split; [by rewrite Hk3, Hf1, lookup_insert_eq|auto].
    + exists out. split; [done|]. exists m. split.
      * rewrite Hs3 by (by intros ?%below_inj). by rewrite Hf2, lookup_insert_eq.
      * apply Hm. rewrite Hkey by (by intros ?%below_inj). apply Hempty.
  - rewrite Hs3; [done|]. intros Heq; symmetry in Heq; by apply below_ne_dir in Heq.
Qed.

(** From the configuration on. *)
Lemma wp_prepare_rest w opts s s1 :
  tidy w → key_written w opts s s1 → (quiet s → quiet s1) →
  wp (renderConfig y w opts;; _ ← try (copyPermissionsYML w); mret tt) (prepared w opts s) s1.
Proof.
  intros Hw Hs1 Hq1. pose proof (λ p, key_written_others w opts s s1 p Hs1) as Hkey.
  assert (∀ r s', (∀ p, p ≠ w ++ slash :: str "config.yml" → os_files s' !! p = os_files s1 !! p) →
    (quiet s → quiet s') → r ≠ Ok tt → (r = Panic → config_text (X := X) y opts = Panic) → prepared w opts s r s') as Hfail.
  { intros r s' Hf Hq Hr Hp. apply prepared_fails; try done. intros p Hp1 Hp2. rewrite Hf by done. by apply Hkey. }
  apply wp_bind, wp_bind, wp_lift. destruct (config_text y opts) as [out|e|] eqn:Hout; [|by apply Hfail..].
  apply wp_write_below; [done|apply plain_config| |].
  { intros fs' s2 Hfs Hf2 Hq2. apply Hfail; [by rewrite Hf2|auto|done|done]. }
  intros mc s2 Hf2 Hq2 Hmc. pose proof (prepared_done w opts s s1 s2) as Hdone.
  apply wp_bind, wp_try. unfold copyPermissionsYML. rewrite path_join_below by (done || apply plain_permissions).
  apply wp_write_file.
  - intros e s3 [Hf3 _ Hq3]. apply wp_ret. eapply Hdone; eauto. by rewrite Hf3.
  - intros e d m s3 [Hf3 _ Hq3] _. apply wp_ret. eapply Hdone; eauto. intros p Hp. by rewrite Hf3, lookup_below_ne.
  - intros m s3 [Hf3 _ Hq3] _ _ _. apply wp_ret. eapply Hdone; eauto. intros p Hp. by rewrite Hf3, lookup_below_ne.
Qed.

Lemma wp_prepare w opts s : tidy w → wp (prepare y w opts) (prepared w opts s) s.
Proof.
  intros Hw. unfold prepare. apply wp_bind. unfold writeFloodgateKey.
  destruct (Z.eqb_spec (AuthType_of opts) Floodgate) as [Ha|Ha]; cbn [negb].
  2: { apply wp_ret, wp_prepare_rest; [done|by left|done]. }
  destruct (Z.eqb_spec (zlen (FloodgateKey opts)) 16) as [Hl|Hl]; cbn [negb].
  2: { apply wp_throw. by apply prepared_fails. }
  apply wp_write_below; [done|apply plain_key| |].
  - intros fs' s1 Hfs Hf Hq. apply prepared_fails; [|done..]. intros p Hp _. rewrite Hf. by apply Hfs.
  - intros m s1 Hf Hq Hm. apply wp_prepare_rest; [done| |done]. right. split_and!; [done..|]. by exists m.
Qed.
End proofs.

(** ** The whole of a run *)

(** An action that, whatever it returns, changes only files of [w], and does not stop a
    later operation. *)
Definition confined {E A} (w : bytes) (m : io E A) : Prop :=
  ∀ s, wp m (λ _ s', within w (os_files s) (os_files s') ∧ (quiet s → quiet s')) s.

(** No file outside of a directory that did not exist has changed, ... *)
Definition untouched (s s' : os) : Prop := ∀ q,
  os_files s' !! q = os_files s !! q ∨ ∃ w, under w q = true ∧ os_files s !! w = None.
(** ... and none is left in it. *)
Definition cleaned (s s' : os) : Prop := ∀ q,
  os_files s' !! q = os_files s !! q
  ∨ os_files s' !! q = None ∧ ∃ w, under w q = true ∧ os_files s !! w = None.
Lemma cleaned_untouched s s' : cleaned s s' → untouched s s'.
Proof. intros H q. destruct (H q) as [|[_ ?]]; auto. Qed.

Section runs.
Context {X : Type} (h : host) (e : site) (y : yaml) (tmpdir : bytes).

Lemma plain_workdir n : plain (str "geyserlite-" ++ itoa n ++ []).
Proof.
  pose proof (itoa_digits n) as Hd. rewrite app_nil_r. constructor; try discriminate.
  rewrite elem_of_app. intros [H|H].
  - by apply (bool_decide_unpack (slash ∉ str "geyserlite-")) in H; [|by vm_compute].
  - rewrite forallb_forall in Hd. by specialize (Hd slash (proj1 (list_elem_of_In _ _) H)).
Qed.

Lemma wp_make_workdir Q s :
  tidy tmpdir → quiet s →
  (∀ s', os_files s' = os_files s → quiet s' → Q (Err ErrWorkdir) s') →
  (∀ w s', tidy w → os_files s !! w = None → os_files s' = <[w := Dir]> (os_files s) → quiet s' → Q (Ok w) s') →
  wp (make_workdir (X := X) tmpdir) Q s.
Proof.
  intros Ht Hqs Hf Ho. apply wp_or_fail, wp_make_temp; [intros s' [Hf' _ Hq]; auto|].
  intros w n s1 [Hf1 _ Hq1] Hnew Hw _. apply Ho; auto.
  rewrite Hw. unfold in_dir. rewrite bool_decide_false by apply Ht. rewrite <-app_assoc.
  apply (tidy_below tmpdir (str "geyserlite-" ++ itoa n ++ [])); [done|apply plain_workdir].
Qed.
(** A body confined to a directory, which is then removed. *)
Lemma wp_removed {E} w (body : io E unit) s :
  quiet s → confined w body →
  wp (deferring (remove_all w) body)
     (λ _ s', (∀ q, under w q = true → os_files s' !! q = None) ∧ within w (os_files s) (os_files s') ∧ quiet s') s.
Proof.
  intros Hqs Hbody. apply wp_deferring. eapply wp_mono; [|by apply Hbody]. intros r s2 [Hin Hq2].
  apply wp_remove_all. intros r' fs s3 [Hf3 _ Hq3] _ _ Hout Hgone. rewrite Hf3. split_and!; [auto| |auto].
  intros q Hu. by rewrite Hout, Hin.
Qed.
Lemma within_new w (s s1 s2 : os) q :
  os_files s1 = <[w := Dir]> (os_files s) → within w (os_files s1) (os_files s2) → under w q = false →
  os_files s2 !! q = os_files s !! q.
Proof.
  intros Hf Hin Hu. rewrite Hin, Hf by done. apply lookup_insert_ne. intros <-.
  unfold under in Hu. by rewrite bool_decide_true in Hu.
Qed.

(** Making the directory, a body confined to it, and removing it. *)
Lemma wp_in_workdir (body : bytes → io (launchError X) unit) s :
  tidy tmpdir → quiet s → (∀ w, tidy w → confined w (body w)) →
  wp (workdir ← make_workdir tmpdir; deferring (remove_all workdir) (body workdir)) (λ _ s', cleaned s s') s.
Proof.
  intros Ht Hqs Hbody. apply wp_bind, wp_make_workdir; [done..| |].
  { intros s' Hf _ q. left. by rewrite Hf. }
  intros w s1 Htw Hnew Hf1 Hq1. eapply wp_mono; [|by apply wp_removed, Hbody]. intros r s2 (Hgone & Hin & _) q.
  destruct (under w q) eqn:Hu; [right; eauto|left; by eapply within_new].
Qed.
(** ... and something confined to it that outlives the removal. *)
Lemma wp_in_workdir_late (body : bytes → io (launchError X) unit) (late : bytes → launchError X → io X unit) s :
  tidy tmpdir → quiet s → (∀ w, tidy w → confined w (body w)) → (∀ w e, confined w (late w e)) →
  wp (workdir ← make_workdir tmpdir; outlived (late workdir) (deferring (remove_all workdir) (body workdir)))
     (λ r s', untouched s s'
        ∧ ((∀ e, r = Err e → ∀ w s, os_files (late w e s).2 = os_files s) → cleaned s s')) s.
Proof.
  intros Ht Hqs Hbody Hlate. apply wp_bind, wp_make_workdir; [done..| |].
  { intros s' Hf _. assert (cleaned s s') by (intros q; left; by rewrite Hf). auto using cleaned_untouched. }
  intros w s1 Htw Hnew Hf1 Hq1. pose proof (wp_removed w (body w) s1 Hq1 (Hbody w Htw)) as Hr.
  unfold wp, outlived in *. destruct (deferring _ _ s1) as [r s2]. cbn in *. destruct Hr as (Hgone & Hin & _).
  set (s3 := match r with Err e => (late w e s2).2 | _ => s2 end).
  assert (within w (os_files s1) (os_files s3)) as Hin3.
  { eapply within_trans; [done|]. unfold s3. destruct r as [|e0|]; try done. apply (Hlate w e0 s2). }
  split.
  - intros q. destruct (under w q) eqn:Hu; [right; eauto|left; by eapply within_new].
  - intros Hend q. destruct (under w q) eqn:Hu; [right|left; by eapply within_new].
    split; [|eauto]. unfold s3. destruct r as [|e0|]; try (by apply Hgone). rewrite (Hend e0 eq_refl w s2). by apply Hgone.
Qed.

Lemma confined_bind {E A B} w (m : io E A) (f : A → io E B) :
  confined w m → (∀ a, confined w (f a)) → confined w (m ≫= f).
Proof.
  intros Hm Hf s. apply wp_bind. eapply wp_mono; [|apply Hm]. intros r s1 [H1 Hq1]. destruct r as [a|err|]; [|done..].
  eapply wp_mono; [|apply Hf]. intros r s2 [H2 Hq2]. split; [by eapply within_trans|auto].
Qed.
Lemma confined_prepare w opts : tidy w → confined w (prepare (X := X) y w opts).
Proof. intros Hw s. eapply wp_mono; [|by apply wp_prepare]. intros r s' [H _ _ _ Hq]. done. Qed.
Lemma confined_wrap {E E' A} w (f : E' → E) (m : io E' A) : confined w m → confined w (wrap f m).
Proof. intros Hm s. apply wp_wrap. eapply wp_mono; [|apply Hm]. done. Qed.

Lemma becomes_within w s s' : becomes (os_files s) s s' → within w (os_files s) (os_files s') ∧ (quiet s → quiet s').
Proof. intros [Hf _ Hq]. split; [by rewrite Hf|done]. Qed.
Lemma wp_getwd Q s :
  (∀ r s', becomes (os_files s) s s' → r ≠ Panic → (quiet s → r = Ok (os_cwd s)) → Q r s') → wp getwd Q s.
Proof.
  intros HQ. unfold wp, getwd. destruct (next_fault_becomes s) as (Hb & _ & _ & Hn).
  assert (os_cwd (next_fault s).2 = os_cwd s) as Hcwd by (unfold next_fault; by destruct (os_faults s)).
  destruct (next_fault s) as [[n|] s1]; cbn in *; apply HQ; try done.
  - intros Hq. by specialize (Hn Hq).
  - by rewrite Hcwd.
Qed.
Lemma wp_chdir p Q s :
  (∀ r s', becomes (os_files s) s s' → r ≠ Panic →
     (quiet s → os_files s !! p = Some Dir → os_cwd s' = p) → Q r s') → wp (chdir p) Q s.
Proof.
  intros HQ. unfold wp, chdir. destruct (next_fault_becomes s) as (Hb & _ & _ & Hn). pose proof Hb as [Hf Hs Hq'].
  destruct (next_fault s) as [[n|] s1]; cbn in *.
  - apply HQ; try done. intros Hq. by specialize (Hn Hq).
  - rewrite Hf. destruct (os_files s !! p) as [[]|] eqn:Hp; (apply HQ; [by constructor|done|done]).
Qed.

(** The part of [embeddedRunner.run] in the work directory. *)
Definition embedded_body (native : bytes → io X unit) (opts : Options) (w : bytes) : io (launchError X) unit :=
  prepare y w opts;;
  prev ← try getwd;
  let prev := match prev with inr d => d | inl _ => [] end in
  or_fail ErrChdir (chdir w);;
  deferring (chdir prev) (wrap ErrRun (native w)).

Lemma confined_embedded_body native opts w :
  tidy w → confined w (native w) → confined w (embedded_body native opts w).
Proof.
  intros Hw Hn. apply confined_bind; [by apply confined_prepare|]. intros _. apply confined_bind.
  { intros s. apply wp_try, wp_getwd. intros r s' Hb%(becomes_within w) _ _. done. }
  intros prev. cbv zeta. apply confined_bind.
  { intros s. apply wp_or_fail, wp_chdir. intros r s' Hb%(becomes_within w) _ _. done. }
  intros _ s. apply wp_deferring. eapply wp_mono; [|by apply confined_wrap]. intros r s1 [H1 Hq1].
  apply wp_chdir. intros r' s2 [Hf2 _ Hq2] _ _. split; [by rewrite Hf2|auto].
Qed.

Lemma write_below_quiet w s1 a data mode :
  tidy w → quiet s1 → plain a → os_files s1 !! w = Some Dir → os_files s1 !! (w ++ slash :: a) = None →
  ∃ s2, write_file (path_join [w; a]) data mode true s1 = (Ok tt, s2) ∧ quiet s2 ∧
    ∀ p, p ≠ w ++ slash :: a → os_files s2 !! p = os_files s1 !! p.
Proof.
  intros Hw Hq1 Ha Hd1 Hn1. rewrite path_join_below by done.
  rewrite write_file_quiet; [|done|done|by rewrite path_dir_below].
  eexists. split; [done|]. split; [done|]. intros p Hp. by apply lookup_below_ne.
Qed.

(** C30: what the native code is started on: once the work directory is prepared it holds
    the key, if and only if the authentication is Floodgate's, and the configuration that
    the options mean, both readable by the owner alone whatever the umask; and if no file
    operation fails, preparing fails only for a key that is not 16 bytes long or a
    configuration that cannot be built. Nothing outside of the directory is touched. *)
Theorem prepare_stages w opts s :
  tidy w → empty_dir w (os_files s) →
  within w (os_files s) (os_files (prepare (X := X) y w opts s).2)
  ∧ ((prepare (X := X) y w opts s).1 = Ok tt → staged (X := X) y w opts (os_files (prepare (X := X) y w opts s).2))
  ∧ (quiet s → (prepare (X := X) y w opts s).1 = Ok tt ↔
       (AuthType_of opts = Floodgate → zlen (FloodgateKey opts) = 16) ∧ ∃ out, config_text (X := X) y opts = Ok out).
Proof.
  intros Hw He. pose proof (wp_prepare (X := X) y w opts s Hw) as [Hin Hst _ _ _].
  split_and!; [done|auto|]. intros Hq. split.
  { intros Hok. destruct (Hst Hok He) as [Hk (out & Hc & _)]. split; [|by exists out].
    intros Ha. rewrite Ha in Hk. apply Hk. }
  intros [Hk [out Hc]]. destruct He as [Hd Hnone].
  assert (∃ s1, writeFloodgateKey (X := X) w opts s = (Ok tt, s1) ∧ quiet s1 ∧
    ∀ p, p ≠ w ++ slash :: str "key.bin" → os_files s1 !! p = os_files s !! p) as (s1 & H1 & Hq1 & Hf1).
  { unfold writeFloodgateKey. destruct (Z.eqb_spec (AuthType_of opts) Floodgate) as [Ha|Ha]; cbn [negb]; [|by exists s].
    rewrite (Hk Ha). cbn [negb Z.eqb Pos.eqb].
    destruct (write_below_quiet w s (str "key.bin") (FloodgateKey opts) (perm 6 0 0)) as (s1 & Hr & ? & ?);
      [done..|apply plain_key|done|apply Hnone|]. exists s1. unfold or_fail. by rewrite Hr. }
  destruct (write_below_quiet w s1 (str "config.yml") out (perm 6 0 0)) as (s2 & H2 & Hq2 & Hf2);
    [done..|apply plain_config| | |].
  { rewrite Hf1; [done|]. intros Heq; symmetry in Heq; by apply below_ne_dir in Heq. }
  { rewrite Hf1; [apply Hnone|by intros ?%below_inj]. }
  destruct (write_below_quiet w s2 (str "permissions.yml") permissions (perm 6 4 4)) as (s3 & H3 & _ & _);
    [done..|apply plain_permissions| | |].
  { rewrite Hf2, Hf1; [done|..]; intros Heq; symmetry in Heq; by apply below_ne_dir in Heq. }
  { rewrite Hf2, Hf1; [apply Hnone|by intros ?%below_inj..]. }
  unfold prepare, renderConfig, copyPermissionsYML, mbind, io_bind, lift, or_fail, try.
  by rewrite H1, Hc, H2, H3.
Qed.

(** C31: the work directory goes with the run. Provided that the supervised process, or the
    native code, changes only files of that directory and the file operations do what they are
    asked, then whatever [run] returns: in subprocess mode every file is as it was once the
    binary had been located, and nothing is left of the directory; in embedded mode too, unless
    the goroutine of the isolate outlives [run], which happens if [run] returns early, while the
    goroutine is in a native call: what that writes after the directory was removed stays, and
    no other file is changed. *)
Theorem run_cleans_up opts d r (supervise : bytes → bytes → io X unit)
    (native : embeddedRunner → bytes → bytes → io X unit) (late : X → embeddedRunner → bytes → bytes → io X unit) s :
  tidy tmpdir → quiet s →
  (∀ binary w, confined w (supervise binary w)) → (∀ r cstr w, confined w (native r cstr w)) →
  (∀ x r cstr w, confined w (late x r cstr w)) →
  let run := embedded_run h e y tmpdir opts d r native late s in
  cleaned (locateBinary h e opts s).2 (subprocess_run h e y tmpdir opts supervise s).2
  ∧ untouched (locateLibrary h e opts s).2 run.2
  ∧ ((∀ x, run.1 = Err (ErrRun x) → ∀ r cstr w s, os_files (late x r cstr w s).2 = os_files s) →
       cleaned (locateLibrary h e opts s).2 run.2).
Proof.
  intros Ht Hq Hs Hn Hl run. pose proof (locateBinary_located h e opts s) as Hb.
  pose proof (locateLibrary_located h e opts s) as Hlib.
  apply located_quiet in Hb; [|done]. apply located_quiet in Hlib; [|done].
  assert (∀ s1, cleaned s1 s1) as Hsame by (intros s1 q; by left). split.
  - unfold subprocess_run, mbind at 1, io_bind at 1, wrap at 1.
    destruct (locateBinary h e opts s) as [[binary|err|] s1]; [|apply Hsame..].
    apply wp_in_workdir; [done..|]. intros w Hw. apply confined_bind; [by apply confined_prepare|].
    intros _. by apply confined_wrap.
  - change (wp (embedded_run h e y tmpdir opts d r native late) (λ r s', untouched (locateLibrary h e opts s).2 s'
      ∧ ((∀ x, r = Err (ErrRun x) → ∀ r cstr w s, os_files (late x r cstr w s).2 = os_files s) →
          cleaned (locateLibrary h e opts s).2 s')) s).
    unfold embedded_run. apply wp_bind. unfold wp at 1, wrap.
    destruct (locateLibrary h e opts s) as [[libpath|err|] s1]; cbn in *; [|by auto using cleaned_untouched..].
    apply wp_bind, wp_lift. destruct (load d libpath r) as [r1 [err|]]; [by auto using cleaned_untouched|].
    eapply wp_mono; [|apply (wp_in_workdir_late
      (λ w, embedded_body (λ w, native r1 (cString (path_join [w; str "config.yml"])) w) opts w)
      (λ w err, match err with ErrRun x => late x r1 (cString (path_join [w; str "config.yml"])) w | _ => mret tt end));
      [done|done| |]].
    + intros r2 s2 [H1 H2]. split; [done|]. intros Hend. apply H2. intros e2 -> w2 s3. destruct e2; try done. by apply Hend.
    + intros w Hw. by apply confined_embedded_body.
    + intros w e2. destruct e2; try apply Hl; by intros s2.
Qed.
End runs.

Module launch_demo.
Definition yaml_demo : yaml :=
  Yaml (λ _ _ m, map_to_list m) Config.demo.unmarshal (λ _ _, Some (str "bedrock: {}")) 3 Config.demo.h0.
Definition w : bytes := str "/tmp/geyserlite-7".
Definition start : os := Os {[w := Dir]} [] [] 18 [] (str "/").
Definition staged_run := prepare (X := Z) yaml_demo w Config.demo.opts start.
(** A process that writes to its directory and fails. *)
Definition native (w : bytes) : io Z unit :=
  or_fail 1 (write_file (w ++ slash :: str "log") [1] (perm 6 4 4) true);; throw 9.
(** The goroutine goes on after a return with the error 8: it makes the directory again, and a
    file in it. *)
Definition late (x : Z) (_ : embeddedRunner) (_ w : bytes) : io Z unit := λ s,
  (Ok tt, if x =? 8 then set_files (<[w ++ slash :: str "late" := File [2] (perm 6 4 4)]> (<[w := Dir]> (os_files s))) s else s).
Definition early_return (w : bytes) : io Z unit := throw 8.
Definition host_fs : os :=

  Os {[str "/" := Dir; str "/tmp" := Dir; str "/tmp/geyserlite-1" := Dir;
       str "/lib/g.so" := File [1] (perm 7 5 5)]} [] [1; 2]%N 18 [] (str "/").
Definition opts : Options :=
  MkOptions (str ":19132") (str "127.0.0.1:25567") Floodgate (zrep 16 1) (Motd [] []) ModeEmbedded
    (str "/lib/g.so") (str "/lib/g.so") None None None 0 [] [] true 7.
Definition whole_run :=
  embedded_run Download.demo.platform sources.plain_site yaml_demo (str "/tmp") opts (Dynlink (λ _, Some 4096) (λ _ _, true))
    newEmbeddedRunner (λ _ _, native) late host_fs.
Definition early_run :=
  embedded_run Download.demo.platform sources.plain_site yaml_demo (str "/tmp") opts (Dynlink (λ _, Some 4096) (λ _ _, true))
    newEmbeddedRunner (λ _ _, early_return) late host_fs.

Lemma tidy_tmp : tidy (str "/tmp").
Proof. by constructor; vm_compute. Qed.
Lemma tidy_w : tidy w.
Proof. by constructor; vm_compute. Qed.
Lemma empty_w : empty_dir w (os_files start).
Proof.
  split; [by vm_compute|]. intros a. change (os_files start) with ({[w := Dir]} : files).
  rewrite lookup_singleton_ne; [done|].
  intros H. by apply (below_ne_dir w a).
Qed.
Lemma native_confined w' : confined w' (native w').
Proof.
  intros s. apply wp_bind, wp_or_fail, wp_write_file.
  - intros e s' Hb. by apply becomes_within.
  - intros e d m s' [Hf _ Hq] _. split; [rewrite Hf; apply within_insert|done].
  - intros m s' [Hf _ Hq] _ _ _. apply wp_throw. split; [rewrite Hf; apply within_insert|done].
Qed.
Lemma late_confined x r cstr w' : confined w' (late x r cstr w').
Proof.
  intros s. unfold wp, late. cbn. destruct (x =? 8); [|by split]. split; [|done]. cbn.
  eapply within_trans; [|apply within_insert]. intros q Hq. apply lookup_insert_ne. intros <-.
  unfold under in Hq. by rewrite bool_decide_true in Hq.
Qed.
(** What the goroutine writes after an early return stays. *)
Example early_run_leaves :
  early_run.1 = Err (ErrRun 8)
  ∧ os_files early_run.2 !! str "/tmp/geyserlite-2/late" = Some (File [2] (perm 6 4 4))
  ∧ os_files host_fs !! str "/tmp/geyserlite-2" = None.
Proof. by vm_compute. Qed.
Lemma whole_run_ends :
  bool_decide (os_files whole_run.2 = os_files host_fs ∧ os_cwd whole_run.2 = str "/")
  && match whole_run.1 with Err (ErrRun 9) => true | _ => false end = true.
Proof. vm_compute. reflexivity. Qed.
End launch_demo.

Lemma prepare_stages_witness :
  launch_demo.staged_run.1 = Ok tt
  ∧ staged (X := Z) launch_demo.yaml_demo launch_demo.w Config.demo.opts (os_files launch_demo.staged_run.2).
Proof.
  assert (launch_demo.staged_run.1 = Ok tt) as Hok by (by vm_compute).
  destruct (prepare_stages (X := Z) launch_demo.yaml_demo launch_demo.w Config.demo.opts launch_demo.start
    launch_demo.tidy_w launch_demo.empty_w) as (_ & Hst & _).
  split; [exact Hok|exact (Hst Hok)].
Defined.

Lemma run_cleans_up_witness :
  cleaned (locateLibrary Download.demo.platform sources.plain_site launch_demo.opts launch_demo.host_fs).2
    launch_demo.whole_run.2.
Proof.
  apply (run_cleans_up Download.demo.platform sources.plain_site launch_demo.yaml_demo (str "/tmp")
    launch_demo.opts (Dynlink (λ _, Some 4096) (λ _ _, true)) newEmbeddedRunner (λ _, launch_demo.native)
    (λ _ _, launch_demo.native) launch_demo.late launch_demo.host_fs).
  - exact launch_demo.tidy_tmp.
  - reflexivity.
  - intros binary w. apply launch_demo.native_confined.
  - intros r cstr w. apply launch_demo.native_confined.
  - intros x r cstr w. apply launch_demo.late_confined.
  - intros x Hx. assert (x = 9) as -> by (revert Hx; vm_compute; congruence). intros r cstr w s. reflexivity.
Defined.
