(* ===== verification/ServerRun.v ===== *)
(** * A server and its runner (server.go with the runner it calls)

    Server.v has [Start] and [Stop] around a call of [runner.run], of which it knows what it
    returned. Here the runner is a system of its own, behind an interface, and runs beside
    the goroutines of [Start] and [Stop], which cancel its context. *)
From S2P Require Import Prelude GoInt Supervisor Options Server.

(** One call of [runner.run], from its start to its result. *)
Class RunnerSys (R E : Type) := {
  rs_starts : R → Prop;             (* [run] is called *)
  rs_own : R → R → Prop;            (* a step of [run] and its goroutines *)
  rs_env : R → R → Prop;            (* a step of what they run beside *)
  rs_ctx : R → option ctxError;     (* the error of its context *)
  rs_cancel : ctxError → R → R;     (* the end of its context *)
  rs_result : R → option (option E);
  rs_left : R → Z;                  (* a bound on its own steps, once its context has ended *)
  rs_awaits : R → Prop;             (* it waits for something outside *)
}.

Inductive rs_reach `{RunnerSys R E} : R → Prop :=
| rs_reach_start x : rs_starts x → rs_reach x
| rs_reach_own x x' : rs_reach x → rs_own x x' → rs_reach x'
| rs_reach_env x x' : rs_reach x → rs_env x x' → rs_reach x'
| rs_reach_cancel e x : rs_reach x → rs_ctx x = None → rs_reach (rs_cancel e x).

(** What [Start] and [Stop] need of it: it returns once, it respects its context. *)
Class RunnerLaws (R E : Type) `{RunnerSys R E} : Prop := {
  rl_fresh x : rs_starts x → rs_result x = None;
  rl_final x x' e : rs_reach x → rs_own x x' ∨ rs_env x x' → rs_result x = Some e → rs_result x' = Some e;
  rl_final_cancel x c e : rs_result x = Some e → rs_result (rs_cancel c x) = Some e;
  rl_ctx x x' : rs_own x x' ∨ rs_env x x' → rs_ctx x' = rs_ctx x;
  rl_cancelled c x : rs_ctx (rs_cancel c x) = Some c;
  rl_left x : rs_reach x → 0 ≤ rs_left x;
  rl_less x x' : rs_reach x → rs_ctx x ≠ None → rs_own x x' → rs_left x' < rs_left x;
  rl_idle x : rs_reach x → rs_ctx x ≠ None → (∀ x', ¬ rs_own x x') → is_Some (rs_result x) ∨ rs_awaits x;
}.

Section managed.
Context {R E : Type} {RS : RunnerSys R E} {RL : RunnerLaws R E}.

Record managed := Managed {
  mg_life : life E;
  mg_run : option R;     (* the runner, from the call of [run] on *)
}.

(** [cancel()]: a context that has ended stays as it is. *)
Definition cancelled (x : R) : R := match rs_ctx x with None => rs_cancel Canceled x | Some _ => x end.

Inductive mstep : managed → managed → Prop :=
(* [Start] returns ErrAlreadyStarted; or calls [run] *)
| m_refused t l l' r : lstep l (CStart t) = Some l' → lf_runs l' = lf_runs l → mstep (Managed l r) (Managed l' r)
| m_start t l l' x :
    lstep l (CStart t) = Some l' → lf_runs l' = t :: lf_runs l → rs_starts x →
    mstep (Managed l None) (Managed l' (Some x))
| m_return t l l' x e :
    rs_result x = Some e → lstep l (CRunReturns t e) = Some l' → mstep (Managed l (Some x)) (Managed l' (Some x))
| m_cancel c t l l' r :
    c = CCancel t ∨ c = CStopCancel t → lstep l c = Some l' → mstep (Managed l r) (Managed l' (cancelled <$> r))
| m_call c t l l' r :
    c = CClose t ∨ c = CStop t ∨ c = CStopDone t ∨ (∃ e, c = CStopCtx t e) → lstep l c = Some l' →
    mstep (Managed l r) (Managed l' r)
(* the runner, what is beside it, and the context given to [Start] *)
| m_own l x x' : rs_own x x' → mstep (Managed l (Some x)) (Managed l (Some x'))
| m_env l x x' : rs_env x x' → mstep (Managed l (Some x)) (Managed l (Some x'))
| m_parent e l x : rs_ctx x = None → mstep (Managed l (Some x)) (Managed l (Some (rs_cancel e x))).

Inductive mreach : managed → Prop :=
| mreach_new d o s : New d o = Ok s → mreach (Managed (life_of s) None)
| mreach_step m m' : mreach m → mstep m m' → mreach m'.

(** ** The invariant *)

Definition run_inv (l : life E) (r : option R) : Prop :=
  match r with
  | None => sv_started (lf_server l) = false ∧ sv_cancelled (lf_server l) = false
  | Some x =>
      sv_started (lf_server l) = true ∧ rs_reach x
      ∧ (∀ e, lf_result l = Some e → rs_result x = Some e)
      ∧ (sv_cancelled (lf_server l) = true → rs_ctx x ≠ None)
  end.
Definition minv (m : managed) : Prop := (∃ st, linv st (mg_life m)) ∧ run_inv (mg_life m) (mg_run m).

(** What a call does to what the invariant speaks of. *)
Lemma lstep_effect (l l' : life E) c :
  lstep l c = Some l' →
  lf_result l' = match c with CRunReturns _ e => Some e | _ => lf_result l end
  ∧ sv_cancelled (lf_server l') = match c with CCancel _ | CStopCancel _ => true | _ => sv_cancelled (lf_server l) end
  ∧ sv_started (lf_server l') = match c with CStart _ => true | _ => sv_started (lf_server l) end.
Proof.
  destruct c as [t|t e|t|t|t|t|t|t e]; cbn; destruct (lf_threads l !! t) as [[]|]; try done;
    try by intros [= <-].
  - unfold start_lock. destruct (sv_started (lf_server l)) eqn:Hs; intros [= <-]; by rewrite ?Hs.
  - unfold close_done. destruct (sv_done (lf_server l)) as [[]|]; by intros [= <-].
  - destruct (stop_lock _); by intros [= <-].
  - destruct (stop_done _); [|done]. by intros [= <-].
Qed.

Lemma lstep_linv (l l' : life E) c : (∃ st, linv st l) → lstep l c = Some l' → ∃ st, linv st l'.
Proof. intros [st Hl] Hs. by eapply lstep_inv. Qed.

(** A goroutine of [Start] or [Stop] is past the prologue: there is a runner. *)
Lemma thread_started (l : life E) t g : (∃ st, linv st l) → lf_threads l !! t = Some g → sv_started (lf_server l) = true.
Proof.
  intros [st I] Ht. rewrite (lv_started _ _ I). pose proof (lv_stopper _ _ I t g Ht). by destruct st.
Qed.

(** The first [Start] calls [run]. *)
Lemma start_first (l l' : life E) t :
  sv_started (lf_server l) = false → lstep l (CStart t) = Some l' →
  lf_runs l' = t :: lf_runs l ∧ lf_threads l' !! t = Some InRun.
Proof.
  intros Hs. cbn. unfold start_lock. rewrite Hs. destruct (lf_threads l !! t); [done|]. intros [= <-]. cbn.
  by rewrite lookup_insert_eq.
Qed.

Lemma cancelled_reach x : rs_reach x → rs_reach (cancelled x) ∧ rs_ctx (cancelled x) ≠ None.
Proof.
  intros Hx. unfold cancelled. destruct (rs_ctx x) eqn:Hc; [by rewrite Hc|].
  split; [by constructor|]. by rewrite rl_cancelled.
Qed.
Lemma cancelled_result x e : rs_result x = Some e → rs_result (cancelled x) = Some e.
Proof. intros He. unfold cancelled. destruct (rs_ctx x); [done|]. by apply rl_final_cancel. Qed.

Lemma mstep_minv m m' : minv m → mstep m m' → minv m'.
Proof.
  intros [Hl Hr] Hs. destruct Hs as [t l l' r Hc Hruns|t l l' x Hc Hruns Hx|t l l' x e He Hc|c t l l' r Hct Hc
    |c t l l' r Hct Hc|l x x' Ho|l x x' Ho|e l x Hctx]; cbn [mg_life mg_run run_inv] in *;
    try (pose proof (lstep_effect _ _ _ Hc) as (Hres & Hcan & Hst); split; [by eapply lstep_linv|cbn [mg_life mg_run run_inv]]).
  - destruct r as [x|]; cbn in Hr |- *.
    + destruct Hr as (_ & Hx & He & Hctx). by rewrite Hres, Hcan, Hst.
    + destruct Hr as [Hr _]. destruct (start_first _ _ _ Hr Hc) as [Heq _]. rewrite Hruns in Heq.
      by apply (f_equal length) in Heq; cbn in Heq; lia.
  - destruct Hr as [Hr Hcn]. rewrite Hres, Hcan, Hst, Hcn. split_and!; [done|by constructor| |done].
    destruct Hl as [st I]. pose proof (lv_started _ _ I) as Hi. rewrite Hr in Hi.
    rewrite (lv_result _ _ I). by destruct st.
  - destruct Hr as (Hs & Hx & _ & Hctx). rewrite Hres, Hcan, Hst. split_and!; [done|done|by intros e' [= <-]|done].
  - assert (∃ g, lf_threads l !! t = Some g) as [g Hg].
    { destruct Hct as [-> | ->]; cbn in Hc; destruct (lf_threads l !! t); eauto; done. }
    assert (Hcan' : sv_cancelled (lf_server l') = true) by (by destruct Hct as [-> | ->]).
    assert (Hres' : lf_result l' = lf_result l) by (by destruct Hct as [-> | ->]).
    assert (Hst' : sv_started (lf_server l') = sv_started (lf_server l)) by (by destruct Hct as [-> | ->]).
    pose proof (thread_started _ _ _ Hl Hg) as Hs. destruct r as [x|]; cbn in Hr |- *; [|destruct Hr; congruence].
    destruct Hr as (_ & Hx & He & _). rewrite Hst', Hres'. destruct (cancelled_reach x Hx) as [Hx' Hctx'].
    split_and!; [done|done| |done]. intros e Hle. by apply cancelled_result, He.
  - assert (Hres' : lf_result l' = lf_result l) by (by destruct Hct as [->|[->|[->|[? ->]]]]).
    assert (Hcan' : sv_cancelled (lf_server l') = sv_cancelled (lf_server l)) by (by destruct Hct as [->|[->|[->|[? ->]]]]).
    assert (Hst' : sv_started (lf_server l') = sv_started (lf_server l)) by (by destruct Hct as [->|[->|[->|[? ->]]]]).
    unfold run_inv. by rewrite Hres', Hcan', Hst'.
  - split; [done|cbn [mg_life mg_run run_inv]]. destruct Hr as (Hs & Hx & He & Hctx). split_and!; [done|by eapply rs_reach_own| |].
    + intros e Hle. eapply rl_final; [done|by left|by apply He].
    + rewrite (rl_ctx x x') by (by left). done.
  - split; [done|cbn [mg_life mg_run run_inv]]. destruct Hr as (Hs & Hx & He & Hctx). split_and!; [done|by eapply rs_reach_env| |].
    + intros e Hle. eapply rl_final; [done|by right|by apply He].
    + rewrite (rl_ctx x x') by (by right). done.
  - split; [done|cbn [mg_life mg_run run_inv]]. destruct Hr as (Hs & Hx & He & _). split_and!; [done|by constructor| |by rewrite rl_cancelled].
    intros e' Hle. by apply rl_final_cancel, He.
Qed.
Lemma mreach_minv m : mreach m → minv m.
Proof.
  induction 1 as [d o s Hn|m m' _ IH Hs]; [|by eapply mstep_minv].
  split; [exists Idle; by eapply linv_init|]. unfold New in Hn. cbn. destruct (validate d o) as [v [e|]]; [done|].
  by injection Hn as <-.
Qed.

(** ** A server that has stopped is over *)

(** What [Start], or a [Stop] that waited for it, returned of the run. *)
Definition returned_run (r : returned E) (e : option E) : Prop :=
  r = StartReturned (ErrRunner <$> e) ∨ r = StopReturned (ErrRunner <$> e).

Lemma server_over m t r e :
  mreach m → (t, r) ∈ lf_returns (mg_life m) → returned_run r e →
  ∃ x, mg_run m = Some x ∧ rs_reach x ∧ rs_result x = Some e.
Proof.
  intros Hm Hin Hr. destruct (mreach_minv _ Hm) as [[st I] Hrun]. pose proof (lv_returns _ _ I t r Hin) as Hg.
  assert (∀ err, (ErrRunner <$> e : option (serverError E)) = ErrRunner <$> err → err = e) as Hinj
    by (intros [|]; destruct e; cbn; congruence).
  assert (∃ t', st = Done t' e) as [t' ->].
  { destruct Hr as [-> | ->]; cbn in Hg.
    - destruct Hg as [Heq|(err & -> & ->%Hinj)]; [by destruct e|eauto].
    - destruct Hg as [Heq|[_ [[c Heq]|(t' & err & -> & ->%Hinj)]]]; [by destruct e..|eauto]. }
  pose proof (lv_started _ _ I) as Hs. pose proof (lv_result _ _ I) as Hres. cbn in Hs, Hres.
  unfold run_inv in Hrun. destruct (mg_run m) as [x|]; [|destruct Hrun; congruence].
  destruct Hrun as (_ & Hx & He & _). exists x. auto.
Qed.

(** ** A [Stop] that waits ends *)

(** The steps of the run, and of the goroutine that called it. *)
Inductive mown : managed → managed → Prop :=
| mo_run l x x' : rs_own x x' → mown (Managed l (Some x)) (Managed l (Some x'))
| mo_return t l l' x e :
    rs_result x = Some e → lstep l (CRunReturns t e) = Some l' → mown (Managed l (Some x)) (Managed l' (Some x))
| mo_cancel t l l' r : lstep l (CCancel t) = Some l' → mown (Managed l r) (Managed l' (cancelled <$> r))
| mo_close t l l' r : lstep l (CClose t) = Some l' → mown (Managed l r) (Managed l' r).

Lemma mown_mstep m m' : mown m m' → mstep m m'.
Proof.
  intros [l x x' H|t l l' x e He H|t l l' r H|t l l' r H].
  - by apply m_own.
  - by eapply m_return.
  - by apply (m_cancel (CCancel t) t); [left|].
  - by apply (m_call (CClose t) t); [left|].
Qed.

(** What is left of [Start], and of both. *)
Definition start_left (l : life E) : Z :=
  match lf_result l, lf_runs l with
  | None, _ => 3
  | Some _, t :: _ => match lf_threads l !! t with Some (Returning _) => 2 | Some (Cancelled _) => 1 | _ => 0 end
  | Some _, [] => 0
  end.
Definition mleft (m : managed) : Z := start_left (mg_life m) + match mg_run m with Some x => rs_left x | None => 0 end.

Lemma start_left_nonneg (l : life E) : 0 ≤ start_left l.
Proof. unfold start_left. by repeat case_match. Qed.

(** Where the one run is, from its goroutine. *)
Lemma start_stage (l : life E) t g :
  (∃ st, linv st l) → lf_threads l !! t = Some g → starter g = true →
  lf_runs l = [t] ∧ lf_result l = match g with Returning e | Cancelled e => Some e | _ => None end.
Proof.
  intros [st I] Ht Hg. pose proof (linv_at _ _ _ _ I Ht Hg) as Hst. rewrite (lv_runs _ _ I), (lv_result _ _ I).
  by destruct g; subst.
Qed.

Lemma mown_less m m' t :
  mreach m → lf_threads (mg_life m) !! t = Some StopWaiting → mown m m' →
  mleft m' < mleft m ∧ lf_threads (mg_life m') !! t = Some StopWaiting.
Proof.
  intros Hm Ht Ho. destruct (mreach_minv _ Hm) as [Hl Hr].
  assert (∀ x, mg_run m = Some x → rs_reach x ∧ rs_ctx x ≠ None) as Hx.
  { intros x Hmx. rewrite Hmx in Hr. destruct Hr as (_ & Hx & _ & Hc). split; [done|]. apply Hc.
    destruct Hl as [st I]. by eapply lv_waiting. }
  destruct Ho as [l x x' Ho|t0 l l' x e He Hc|t0 l l' r Hc|t0 l l' r Hc]; unfold mleft; cbn [mg_life mg_run] in *.
  - split; [|done]. destruct (Hx x eq_refl). pose proof (rl_less x x'); intuition lia.
  - cbn in Hc. destruct (lf_threads l !! t0) as [[]|] eqn:H0; try done. injection Hc as <-.
    destruct (start_stage l t0 _ Hl H0 eq_refl) as [Hruns Hres]. unfold start_left. cbn. rewrite Hres, Hruns, lookup_insert_eq.
    split; [lia|]. rewrite lookup_insert_ne; [done|congruence].
  - cbn in Hc. destruct (lf_threads l !! t0) as [[]|] eqn:H0; try done. injection Hc as <-.
    destruct (start_stage l t0 _ Hl H0 eq_refl) as [Hruns Hres]. unfold start_left. cbn. rewrite Hres, Hruns, H0, lookup_insert_eq.
    split; [|rewrite lookup_insert_ne; [done|congruence]]. destruct r as [x|]; cbn; [|lia].
    destruct (Hx x eq_refl) as [_ Hcx]. unfold cancelled. destruct (rs_ctx x); [lia|done].
  - cbn in Hc. destruct (lf_threads l !! t0) as [[]|] eqn:H0; try done.
    destruct (start_stage l t0 _ Hl H0 eq_refl) as [Hruns Hres]. unfold start_left. rewrite Hruns, Hres, H0.
    unfold close_done in Hc. destruct (sv_done (lf_server l)) as [[]|]; injection Hc as <-; cbn; rewrite Hres, Hruns, lookup_delete_eq;
      (split; [lia|]); (rewrite lookup_delete_ne; [done|congruence]).
Qed.

Lemma server_stops m t :
  mreach m → lf_threads (mg_life m) !! t = Some StopWaiting →
  ∃ x, mg_run m = Some x ∧ rs_reach x ∧ rs_ctx x ≠ None
  ∧ (∀ m', mown m m' → 0 ≤ mleft m' < mleft m ∧ mstep m m' ∧ lf_threads (mg_life m') !! t = Some StopWaiting)
  ∧ ((∀ m', ¬ mown m m') →
       rs_awaits x
       ∨ ∃ e l', rs_result x = Some e ∧ lstep (mg_life m) (CStopDone t) = Some l'
           ∧ (t, StopReturned (ErrRunner <$> e)) ∈ lf_returns l').
Proof.
  intros Hm Ht. pose proof (mreach_minv _ Hm) as [Hl Hr].
  destruct m as [l r]. cbn [mg_life mg_run] in *. pose proof (thread_started _ _ _ Hl Ht) as Hs.
  destruct r as [x|]; cbn in Hr; [|destruct Hr; congruence]. destruct Hr as (_ & Hx & He & Hc).
  assert (rs_ctx x ≠ None) as Hctx by (apply Hc; destruct Hl as [st I]; by eapply lv_waiting).
  exists x. split_and!; [done..| |].
  - intros m' Ho. destruct (mown_less _ _ t Hm Ht Ho) as [Hlt Hw]. split_and!; [|done|by apply mown_mstep|done].
    assert (mreach m') as Hm' by (eapply mreach_step; [done|by apply mown_mstep]).
    destruct (mreach_minv _ Hm') as [_ Hr']. unfold mleft, run_inv in *. pose proof (start_left_nonneg (mg_life m')).
    destruct (mg_run m') as [x'|]; [|lia]. destruct Hr' as (_ & Hx' & _). pose proof (rl_left x' Hx'). lia.
  - intros Hidle. assert (∀ x', ¬ rs_own x x') as Hno by (intros x' Ho; by eapply Hidle, mo_run).
    destruct (rl_idle x Hx Hctx Hno) as [[e Hres]|]; [right|by left]. destruct Hl as [st I].
    pose proof (stop_completes st l t I Ht) as Hst.
    assert (∀ t0 g, stage_thread st = Some (t0, g) → starter g = true → lf_threads l !! t0 = Some g) as Hth
      by (intros t0 g Hst' Hg; by apply (lv_runner _ _ I)).
    destruct st as [|t0|t0 err|t0 err|t0 err]; [done|..].
    + exfalso. eapply Hidle, (mo_return t0 l _ x e); [done|]. cbn. by rewrite (Hth t0 InRun).
    + exfalso. eapply Hidle, (mo_cancel t0 l). cbn. by rewrite (Hth t0 (Returning err)).
    + exfalso. eapply Hidle, (mo_close t0 l). cbn. rewrite (Hth t0 (Cancelled err)) by done.
      unfold close_done. by rewrite (lv_done _ _ I).
    + pose proof (lv_result _ _ I) as Hlr. cbn in Hlr. apply He in Hlr. rewrite Hlr in Hres. injection Hres as <-.
      destruct Hst as (l' & Hrun & Hin). cbn [lrun] in Hrun.
      destruct (lstep l (CStopDone t)) as [l1|] eqn:H1; [|done]. cbn in Hrun. injection Hrun as <-. exists err, l1. auto.
Qed.
End managed.
