(* ===== verification/Managed.v ===== *)
(** * Servers with the runners of the library (server.go, subprocess.go, embedded.go)

    Both runners satisfy the interface of ServerRun.v: the restart loop of Launches.v with
    its launches, and the embedded run of EmbeddedRun.v. So what a server promises holds with
    either: a server that has stopped is over, and a [Stop] ends. *)
From S2P Require Import Prelude GoInt Sha256 Abi Broker BrokerInv BrokerSys Supervisor Session SessionSys SessionProps SessionSpec Callback CallbackSys RunOnce RunOnceProps Launches EmbeddedRun EmbeddedRunInv EmbeddedRunProps Options Server Launch ServerRun.

(** ** The subprocess runner *)

Section subprocess.
Context {A : IngressAbi} {AL : AbiLaws A} {M : Mac} {B : Type} `{SB : IngressSink B} {SL : SinkLaws B}.
Context (supported : bool) (activate : Z → B → B) {SV : SinkServes B activate} (policy : RestartPolicy).
Abbreviation supervisor := (Launches.supervisor (B := B)).
Abbreviation launch := (RunOnce.launch (B := B)).
Abbreviation once_step := (RunOnce.once_step supported activate).
Abbreviation loop_step := (Launches.loop_step policy).
Implicit Types (s : supervisor).
Abbreviation svreach := (Launches.svreach supported activate policy).

(** A step of the loop, or a call of its launch, but for one: see [picks_timer]. *)
Inductive sv_own : supervisor → supervisor → Prop :=
| own_loop elapsed s s' : loop_step elapsed s = Some s' → (elapsed = true → sv_ctx s = None) → sv_own s s'
| own_call g r l l' s :
    sv_phase s = SvLaunch g l → (∀ key, r ≠ Random key) → once_step g r l = Some l' →
    sv_own s (at_svphase (SvLaunch g l') s)
| own_number g key l l' s :
    sv_phase s = SvLaunch g l → la_phase l = LKey → Bytes key → zlen key = SubprocessIPCKeyBytes →
    once_step g (Random key) l = Some l' →
    sv_own s (let '(s, generation) := take_generation s in at_svphase (SvLaunch generation l') s).

(** The step of the loop that is not among them, and so one of [sub_env]: the delay elapses
    though the context has ended, and [select], which may take either case, takes the timer.
    [run] is at the head of its loop again. *)
Definition picks_timer (s s' : supervisor) : Prop :=
  (∃ c, sv_phase s = SvBackoff c) ∧ is_Some (sv_ctx s) ∧ loop_step true s = Some s'
  ∧ sv_phase s' = SvHead ∧ sv_attempt s' = sv_attempt s + 1.
Lemma own_or_timer elapsed s s' : loop_step elapsed s = Some s' → sv_own s s' ∨ picks_timer s s'.
Proof.
  intros H. destruct (sv_ctx s) as [e|] eqn:Hc; [|by left; eapply own_loop].
  destruct elapsed; [|by left; eapply own_loop].
  destruct (sv_phase s) as [|g l|c|e'] eqn:Hp.
  - left. apply (own_loop false); [|done]. unfold Launches.loop_step in *. by rewrite Hp in *.
  - left. apply (own_loop false); [|done]. unfold Launches.loop_step in *. by rewrite Hp in *.
  - right. unfold picks_timer. rewrite H, Hc. unfold Launches.loop_step in H. rewrite Hp in H. injection H as <-. eauto 10.
  - unfold Launches.loop_step in H. by rewrite Hp in H.
Qed.

Lemma select_context s c :
  sv_ctx s ≠ None → sv_phase s = SvBackoff c →
  ∃ s' e, loop_step false s = Some s' ∧ sv_own s s' ∧ sv_phase s' = SvReturned (Some (RunCtx e)).
Proof.
  intros Hc Hp. destruct (sv_ctx s) as [e|] eqn:He; [|done].
  eassert (loop_step false s = Some _) as H by (unfold Launches.loop_step; by rewrite Hp, He).
  do 2 eexists. split_and!; [exact H|by eapply own_loop|done].
Qed.

(** [run] locates the binary and stages the work directory (Launch.v), and enters the loop. *)
Inductive subprocess_run :=
| SubPreparing (c : option ctxError)
| SubFailed (c : option ctxError) (e : launchError runError)
| SubLoop (s : supervisor).

Definition entering (c : option ctxError) (raised : Z) (b : B) : supervisor :=
  match c with Some e => with_ctx e (sv_start policy raised b) | None => sv_start policy raised b end.

Inductive sub_own : subprocess_run → subprocess_run → Prop :=
| so_fail c e : (∀ x, e ≠ ErrRun x) → sub_own (SubPreparing c) (SubFailed c e)
| so_enter c raised b : 0 ≤ raised → serves_none b → sub_own (SubPreparing c) (SubLoop (entering c raised b))
| so_loop s s' : sv_own s s' → sub_own (SubLoop s) (SubLoop s').
Inductive sub_env : subprocess_run → subprocess_run → Prop :=
| se_loop s s' : svstep supported activate policy s s' → sv_ctx s' = sv_ctx s → sub_env (SubLoop s) (SubLoop s').

Definition sv_left (s : supervisor) : Z :=
  match sv_phase s with
  | SvHead => 18
  | SvLaunch _ l => 2 + lrank (la_phase l)
  | SvBackoff _ => 1
  | SvReturned _ => 0
  end.

#[local] Instance subprocess_sys : RunnerSys subprocess_run (launchError runError) := {|
  rs_starts x := ∃ c, x = SubPreparing c;
  rs_own := sub_own;
  rs_env := sub_env;
  rs_ctx x := match x with SubPreparing c | SubFailed c _ => c | SubLoop s => sv_ctx s end;
  rs_cancel e x :=
    match x with
    | SubPreparing _ => SubPreparing (Some e)
    | SubFailed _ err => SubFailed (Some e) err
    | SubLoop s => SubLoop (with_ctx e s)
    end;
  rs_result x :=
    match x with
    | SubPreparing _ => None
    | SubFailed _ e => Some (Some e)
    | SubLoop s => match sv_phase s with SvReturned e => Some (ErrRun <$> e) | _ => None end
    end;
  rs_left x := match x with SubPreparing _ => 19 | SubFailed _ _ => 0 | SubLoop s => sv_left s end;
  rs_awaits x := ∃ s g l, x = SubLoop s ∧ sv_phase s = SvLaunch g l ∧ awaited l;
|}.

Lemma own_svstep s s' : sv_own s s' → svstep supported activate policy s s'.
Proof.
  intros [el s0 s1 H _|g r l l' s0 Hp Hr H|g key l l' s0 Hp Hk Hb Hl H].
  - by eapply sv_loop.
  - apply (sv_launch _ _ _ g l l'); [done| |].
    + apply (o_call _ _ _ r); [|done]. intros key ->. by destruct (Hr key).
    + intros Hk. unfold RunOnce.once_step, socketpair, set_nonblock in H. rewrite Hk in H. destruct r; simplify_eq; try done. by edestruct Hr.
  - by apply (sv_number _ _ _ g key l l').
Qed.
Lemma loop_step_ctx el (s s' : supervisor) : loop_step el s = Some s' → sv_ctx s' = sv_ctx s.
Proof.
  unfold Launches.loop_step. destruct (sv_phase s) as [|g l|c|e]; try done.
  - destruct (exceeded policy s); by intros [= <-].
  - destruct (la_phase l); try done. intros [= <-]. unfold finish. by destruct (once_result _).
  - destruct el; [by intros [= <-]|]. destruct (sv_ctx s) eqn:Hc; [|done]. by intros [= <-].
Qed.
Lemma own_ctx (s s' : supervisor) : sv_own s s' → sv_ctx s' = sv_ctx s.
Proof. intros [el s0 s1 H _| |]; [by eapply loop_step_ctx|done|done]. Qed.

Lemma returned_final s s' e :
  svstep supported activate policy s s' → sv_phase s = SvReturned e → sv_phase s' = SvReturned e.
Proof.
  intros [el s0 s1 H|g l l' s0 Hp| g key l l' s0 Hp|c s0|s0|b s0] Hr; try done; try congruence.
  unfold Launches.loop_step in H. by rewrite Hr in H.
Qed.
Lemma reach_loop x s : rs_reach x → x = SubLoop s → svreach s.
Proof.
  intros Hx. revert s. induction Hx as [x [c ->]|x x' Hx IH Ho|x x' Hx IH Ho|e x Hx IH Hc]; intros s Heq; try done.
  - destruct Ho as [| c raised b Hr Hb|s0 s1 Ho]; [done| |].
    + injection Heq as <-. unfold entering. destruct c as [e|]; [|by constructor].
      eapply svreach_step; [by constructor|]. by constructor.
    + injection Heq as <-. eapply svreach_step; [by apply IH|by apply own_svstep].
  - destruct Ho as [s0 s1 Ho _]. injection Heq as <-. eapply svreach_step; [by apply IH|done].
  - destruct x as [| |s0]; try done. injection Heq as <-. eapply svreach_step; [by apply IH|]. by constructor.
Qed.

Lemma reach_failed x c err : rs_reach x → x = SubFailed c err → ∀ y, err ≠ ErrRun y.
Proof.
  intros Hx. revert c err. induction Hx as [x [c' ->]|x x' Hx IH Ho|x x' Hx IH Ho|e x Hx IH Hc]; intros c err Heq; try done.
  - destruct Ho; try done. by injection Heq as <- <-.
  - by destruct Ho.
  - destruct x; try done. injection Heq as <- <-. by eapply IH.
Qed.

(** An own step of the loop once the context has ended. *)
Lemma sv_left_less s s' : sv_ctx s ≠ None → sv_own s s' → sv_left s' < sv_left s.
Proof.
  intros Hc Ho. revert Hc.
  destruct Ho as [el s0 s1 H He|g r l l' s0 Hp Hr H|g key l l' s0 Hp Hk Hb Hl H]; intros Hc; unfold sv_left.
  - unfold Launches.loop_step in H. destruct (sv_phase s0) as [|g l|c|e] eqn:Hp; try done.
    + destruct (exceeded policy s0); injection H as <-; cbn; lia.
    + destruct (la_phase l) eqn:Hl; try done. injection H as <-. unfold finish.
      destruct (once_result _); cbn; lia.
    + destruct el; [by destruct (Hc (He eq_refl))|]. destruct (sv_ctx s0); [|done]. injection H as <-. cbn. lia.
  - rewrite Hp. cbn. apply once_step_rank in H. lia.
  - rewrite Hp. cbn. apply once_step_rank in H. lia.
Qed.
Lemma sv_idle s :
  svreach s → sv_ctx s ≠ None → (∀ s', ¬ sv_own s s') →
  (∃ e, sv_phase s = SvReturned e) ∨ ∃ g l, sv_phase s = SvLaunch g l ∧ awaited l.
Proof.
  intros Hs Hc Hno. pose proof (svreach_generations _ _ _ _ Hs) as [Hl _ _ _].
  assert (∀ s', loop_step false s ≠ Some s') as Hnl by (intros s' H; eapply Hno, own_loop; [exact H|done]).
  unfold Launches.loop_step in Hnl. destruct (sv_phase s) as [|g l|c|e] eqn:Hp; [..|by left; eauto].
  - destruct (exceeded policy s); by edestruct Hnl.
  - right. exists g, l. split; [done|].
    destruct (once_step g Success l) as [l1|] eqn:H1; [by edestruct Hno; apply (own_call g Success l)|].
    destruct (once_step g PickWait l) as [l1|] eqn:H2; [by edestruct Hno; apply (own_call g PickWait l)|].
    destruct (once_stuck _ _ g l (oreach_inv _ _ _ _ (li_reach _ _ _ _ _ Hl)) H1 H2) as [[o Ho]|]; [|done].
    rewrite Ho in Hnl. by edestruct Hnl.
  - destruct (sv_ctx s); [|done]. by edestruct Hnl.
Qed.

#[local] Instance subprocess_laws : RunnerLaws subprocess_run (launchError runError).
Proof.
  split; cbn.
  - by intros x [c ->].
  - intros x x' e _ Ho He. assert (∀ s s', svstep supported activate policy s s' →
      match sv_phase s with SvReturned e => Some (ErrRun <$> e) | _ => None end = Some e →
      match sv_phase s' with SvReturned e => Some (ErrRun <$> e) | _ => None end = Some e) as Hf.
    { intros s s' Hs H. destruct (sv_phase s) as [| | |e0] eqn:Hp; try done. by rewrite (returned_final s s' e0). }
    destruct Ho as [Ho|Ho]; destruct Ho; cbn in He |- *; try done; [by eapply Hf; [apply own_svstep|]|by eapply Hf].
  - intros x c e. by destruct x.
  - intros x x' [Ho|Ho]; [|by destruct Ho]. destruct Ho as [| c raised b|s s' Ho]; [done| |by apply own_ctx].
    unfold entering. by destruct c.
  - intros c x. by destruct x.
  - intros [| |s] _; [done..|]. unfold sv_left. destruct (sv_phase s) as [|g l| |]; try done. by destruct (la_phase l).
  - intros x x' _ Hc Ho. destruct Ho as [| c raised b|s s' Ho]; [done| |by apply sv_left_less].
    unfold entering. by destruct c.
  - intros x Hx Hc Hno. destruct x as [c|c e|s]; [|by left|].
    + destruct (Hno (SubFailed c ErrWorkdir)). by constructor.
    + destruct (sv_idle s) as [[e He]|(g & l & Hp & Ha)]; [by eapply reach_loop|done|by intros s' Ho; eapply Hno, so_loop
        |left; rewrite He; eauto|right; eauto 6].
Qed.

(** Nothing of the launches is left, once the loop has returned. *)
Lemma loop_returned_clean s e :
  svreach s → sv_phase s = SvReturned e →
  (∀ g l, (g, l) ∈ sv_past s → left_clean g l) ∧ serves_none (sv_served s).
Proof.
  intros Hs He. destruct (svreach_generations _ _ _ _ Hs) as [Hl Hpa _ _]. unfold sv_served. rewrite He in Hl |- *.
  split; [|done]. intros g l Hin. rewrite Forall_forall in Hpa. by destruct (Hpa _ Hin) as (_ & ? & _).
Qed.

(** Runs step by step: the loop of a server can be driven. *)
Lemma svstep_ctx s s' :
  svstep supported activate policy s s' → sv_ctx s' = sv_ctx s ∨ ∃ e, sv_ctx s = None ∧ s' = with_ctx e s.
Proof.
  intros [el s0 s1 H|g l l' s0 Hp| g key l l' s0 Hp|c s0|s0|b s0]; try (by left); [left; by eapply loop_step_ctx|right; eauto].
Qed.
Lemma managed_step l s s' :
  svstep supported activate policy s s' →
  mreach (Managed l (Some (SubLoop s))) → mreach (Managed l (Some (SubLoop s'))).
Proof.
  intros Hs Hm. eapply mreach_step; [done|]. destruct (svstep_ctx s s' Hs) as [Hc|(e & Hc & ->)].
  - apply m_env. by constructor.
  - exact (m_parent e l (SubLoop s) Hc).
Qed.
Lemma managed_drive l ms s s' :
  drive supported activate policy ms s = Some s' →
  mreach (Managed l (Some (SubLoop s))) → mreach (Managed l (Some (SubLoop s'))).
Proof.
  unfold drive. revert s. induction ms as [|mv ms IH]; intros s H; cbn in H; [by injection H as <-|].
  destruct (drive_step _ _ _ mv s) as [s1|] eqn:H1; [|by rewrite drive_none in H].
  intros Hm. eapply IH; [done|]. eapply managed_step; [by eapply drive_svstep|done].
Qed.

Lemma cancelled_loop s : sv_ctx s = None → Some (SubLoop (with_ctx Canceled s)) = cancelled <$> Some (SubLoop s).
Proof. intros Hc. cbn. unfold cancelled. cbn. by rewrite Hc. Qed.

(** C8: a server in subprocess mode that has stopped is over: when [Start] or a [Stop] has
    returned what the run returned, the run failed before its first launch, or its loop has
    returned that error; then no process, no goroutine and no open session is left of any
    launch, no end of its socket pair or pipes is open but the write end of its stdout pipe if
    [StderrPipe] failed, no copy of its key but in its bootstrap packet and, if that could not
    be sent, in its session, which was never started; and the broker serves nobody. *)
Theorem subprocess_server_over m t r e :
  mreach (R := subprocess_run) m → (t, r) ∈ lf_returns (mg_life m) → returned_run r e →
  (∃ c err, mg_run m = Some (SubFailed c err) ∧ e = Some err ∧ ∀ x, err ≠ ErrRun x)
  ∨ ∃ s e', mg_run m = Some (SubLoop s) ∧ svreach s ∧ e = ErrRun <$> e' ∧ sv_phase s = SvReturned e'
      ∧ (∀ g l, (g, l) ∈ sv_past s → left_clean g l) ∧ ∀ g, ¬ sink_live g (sv_served s).
Proof.
  intros Hm Hin Hr. destruct (server_over m t r e Hm Hin Hr) as (x & Hx & Hreach & He). rewrite Hx.
  destruct x as [c|c err|s]; cbn in He; [done| |].
  - left. injection He as <-. exists c, err. split_and!; [done..|]. by eapply reach_failed.
  - right. destruct (sv_phase s) as [| | |e'] eqn:Hp; try done. injection He as <-.
    pose proof (reach_loop _ s Hreach eq_refl) as Hs. destruct (loop_returned_clean s e' Hs Hp) as [Hc Hn].
    exists s, e'. by split_and!.
Qed.

(** C9: a [Stop] of a server in subprocess mode ends: once it waits, the context has ended,
    every step of the run and of the goroutine of [Start] but one brings it closer to its end,
    and when there is none left the [Stop] can return the error of the run, unless a launch
    waits for its process to exit, for [cmd.Wait] of one that has exited, for a goroutine of
    its closed session or for the end of the output. The one step: if a delay is over too when
    the context has ended, [select] may take the timer, and the loop makes another attempt
    ([picks_timer]; every other step of the loop is one of those counted). [run] returns at the
    first [select] that takes the context. *)
Theorem subprocess_stop_ends m t :
  mreach (R := subprocess_run) m → lf_threads (mg_life m) !! t = Some StopWaiting →
  ∃ x, mg_run m = Some x
  ∧ (∀ m', mown m m' → 0 ≤ mleft m' < mleft m ∧ mstep m m' ∧ lf_threads (mg_life m') !! t = Some StopWaiting)
  ∧ (∀ s elapsed s', x = SubLoop s → loop_step elapsed s = Some s' → sv_own s s' ∨ picks_timer s s')
  ∧ (∀ s, x = SubLoop s → (∃ c, sv_phase s = SvBackoff c) →
       ∃ s' e, loop_step false s = Some s' ∧ sv_own s s' ∧ sv_phase s' = SvReturned (Some (RunCtx e)))
  ∧ ((∀ m', ¬ mown m m') →
       (∃ s g l, x = SubLoop s ∧ sv_phase s = SvLaunch g l ∧ awaited l)
       ∨ ∃ e l', rs_result x = Some e ∧ lstep (mg_life m) (CStopDone t) = Some l'
           ∧ (t, StopReturned (ErrRunner <$> e)) ∈ lf_returns l').
Proof.
  intros Hm Ht. destruct (server_stops m t Hm Ht) as (x & Hx & _ & Hc & Hown & Hidle). exists x. split_and!; try done.
  - intros s el s' _. apply own_or_timer.
  - intros s -> [c Hp]. by eapply select_context.
Qed.
End subprocess.

(** ** The embedded runner *)

Section embedded.
Context {A : IngressAbi} (waits : bool) (g i : Z).

(** [run] loads the library, stages and enters the work directory (Launch.v), and starts the
    goroutine of the isolate. *)
Inductive embedded_run :=
| EmbPreparing (c : option ctxError)
| EmbFailed (c : option ctxError) (e : launchError runErr)
| EmbRun (r : runner).

Definition launched (c : option ctxError) (p : process) : runner :=
  let r := run_start (set_phase g SActivate (set_generation g (newCallbackGeneration g i) p)) in
  match c with Some e => set_ctx (Some e) r | None => r end.

Inductive emb_own : embedded_run → embedded_run → Prop :=
| eo_fail c e : (∀ x, e ≠ ErrRun x) → emb_own (EmbPreparing c) (EmbFailed c e)
| eo_launch c p :
    preach p → p_generations p !! g = None → p_supervisors p !! g = None → emb_own (EmbPreparing c) (EmbRun (launched c p))
| eo_run r r' : own_step waits g r r' → emb_own (EmbRun r) (EmbRun r').
Inductive emb_env : embedded_run → embedded_run → Prop :=
| ee_run r r' : rstep waits g r r' → rn_ctx r' = rn_ctx r → emb_env (EmbRun r) (EmbRun r').

#[local] Instance embedded_sys : RunnerSys embedded_run (launchError runErr) := {|
  rs_starts x := ∃ c, x = EmbPreparing c;
  rs_own := emb_own;
  rs_env := emb_env;
  rs_ctx x := match x with EmbPreparing c | EmbFailed c _ => c | EmbRun r => rn_ctx r end;
  rs_cancel e x :=
    match x with
    | EmbPreparing _ => EmbPreparing (Some e)
    | EmbFailed _ err => EmbFailed (Some e) err
    | EmbRun r => EmbRun (set_ctx (Some e) r)
    end;
  rs_result x :=
    match x with
    | EmbPreparing _ => None
    | EmbFailed _ e => Some (Some e)
    | EmbRun r => match rn_super r with VReturned e => Some (ErrRun <$> e) | _ => None end
    end;
  rs_left x := match x with EmbPreparing _ => 139 | EmbFailed _ _ => 0 | EmbRun r => left_of g r end;
  rs_awaits x := ∃ r, x = EmbRun r ∧ (callback_inside g r ∨ unheard r);
|}.

Lemma reach_run x r : rs_reach x → x = EmbRun r → rreach waits g i r.
Proof.
  intros Hx. revert r. induction Hx as [x [c ->]|x x' Hx IH Ho|x x' Hx IH Ho|e x Hx IH Hc]; intros r Heq; try done.
  - destruct Ho as [|c p Hp HG Hs|r0 r1 Ho]; [done| |].
    + injection Heq as <-. unfold launched. destruct c as [e|]; [|by constructor].
      eapply rreach_step; [by constructor|]. by constructor.
    + injection Heq as <-. eapply rreach_step; [by apply IH|by apply own_rstep].
  - destruct Ho as [r0 r1 Ho _]. injection Heq as <-. eapply rreach_step; [by apply IH|done].
  - destruct x as [| |r0]; try done. injection Heq as <-. eapply rreach_step; [by apply IH|]. by constructor.
Qed.

Lemma launched_left c p : left_of g (launched c p) = 138.
Proof. unfold launched. destruct c; unfold left_of, phase_of; cbn; by rewrite lookup_insert_eq. Qed.

#[local] Instance embedded_laws : RunnerLaws embedded_run (launchError runErr).
Proof.
  split; cbn.
  - by intros x [c ->].
  - intros x x' e _ Ho He. assert (∀ r r', rstep waits g r r' →
      match rn_super r with VReturned e => Some (ErrRun <$> e) | _ => None end = Some e →
      match rn_super r' with VReturned e => Some (ErrRun <$> e) | _ => None end = Some e) as Hf.
    { intros r r' Hs H. destruct (rn_super r) eqn:Hv; try done. by rewrite (returned_stays waits g r r' _ Hs Hv). }
    destruct Ho as [Ho|Ho]; destruct Ho; cbn in He |- *; try done; [by eapply Hf; [apply own_rstep|]|by eapply Hf].
  - intros x c e. by destruct x.
  - intros x x' [Ho|Ho]; [|by destruct Ho]. destruct Ho as [|c p Hp HG Hs|r r' Ho]; [done| |by eapply own_step_ctx].
    unfold launched. by destruct c.
  - intros c x. by destruct x.
  - intros [| |r] Hx; [done..|]. eapply left_of_nonneg, rreach_rinv. by eapply reach_run.
  - intros x x' Hx Hc Ho. destruct Ho as [|c p Hp HG Hs|r r' Ho]; [done|rewrite launched_left; lia|].
    eapply own_step_rank; [|done..]. eapply rreach_rinv. by eapply reach_run.
  - intros x Hx Hc Hno. destruct x as [c|c e|r]; [|by left; eauto|].
    + destruct (Hno (EmbFailed c ErrWorkdir)). by constructor.
    + assert (rreach waits g i r) as Hr by (by eapply reach_run).
      destruct (idle_ended waits g r (rreach_rinv _ _ _ _ Hr) Hc) as [([e He] & _)|Hin].
      * intros r' Ho. by eapply Hno, eo_run.
      * left. rewrite He. eauto.
      * right. eauto.
Qed.

(** Runs step by step: the run of a server can be played. *)
Lemma managed_play l acts r r' :
  play waits g acts r = Some r' → mreach (Managed l (Some (EmbRun r))) → mreach (Managed l (Some (EmbRun r'))).
Proof.
  unfold play. revert r. induction acts as [|a acts IH]; intros r H; cbn in H; [by injection H as <-|].
  destruct (act_step waits g a r) as [r1|] eqn:H1; [|by rewrite play_none in H].
  intros Hm. eapply IH; [done|]. eapply mreach_step; [done|]. destruct a; cbn in H1.
  6: { destruct (rn_ctx r) eqn:Hc; [done|]. injection H1 as <-. exact (m_parent e l (EmbRun r) Hc). }
  all: apply m_own, eo_run; by econstructor.
Qed.
Lemma cancelled_embedded r : rn_ctx r = None → Some (EmbRun (set_ctx (Some Canceled) r)) = cancelled <$> Some (EmbRun r).
Proof. intros Hc. cbn. unfold cancelled. cbn. by rewrite Hc. Qed.

(** C29: a [Stop] of an embedded server ends: once it waits, the context has ended, every
    step of the run, of its goroutines and of the goroutine of [Start] brings it closer to
    its end, and when there is none left the [Stop] can return the error of the run, unless
    a callback of the run's generation is still past its gate, or the run waits for a
    [geyser_run] that was not told to return: attaching for [geyser_shutdown] or the call itself
    failed, or it came before [geyser_run] had replaced its latch. ([geyser_run] is taken to
    return once the latch it waits for is counted down.) *)
Theorem embedded_stop_ends m t :
  mreach (R := embedded_run) m → lf_threads (mg_life m) !! t = Some StopWaiting →
  ∃ x, mg_run m = Some x
  ∧ (∀ m', mown m m' → 0 ≤ mleft m' < mleft m ∧ mstep m m' ∧ lf_threads (mg_life m') !! t = Some StopWaiting)
  ∧ ((∀ m', ¬ mown m m') →
       (∃ r, x = EmbRun r ∧ (callback_inside g r
          ∨ (∃ e, rn_super r = VRunDone e) ∧ rn_native r = NBlocked ∧ (rn_shut r = Refused ∨ rn_shut r = Early)))
       ∨ ∃ e l', rs_result x = Some e ∧ lstep (mg_life m) (CStopDone t) = Some l'
           ∧ (t, StopReturned (ErrRunner <$> e)) ∈ lf_returns l').
Proof.
  intros Hm Ht. destruct (server_stops m t Hm Ht) as (x & Hx & _ & _ & Hown & Hidle). exists x. by split_and!.
Qed.
End embedded.

(** ** A server whose run restarts once and ends, and one that is stopped early *)
Module mdemo.
Import odemo ldemo.
Abbreviation reach := (mreach (RS := subprocess_sys true act policy)).
Definition server (mode : Mode) : Server.Server (launchError runError) :=
  default (MkServer demo_options Server.embeddedRunner false false None None)
    (match New 7 (MkOptions [] (str "127.0.0.1:25567") Online [] (Motd [] []) mode [] [] None None None 0 [] [] false 0) with
     | Ok s => Some s | _ => None end).
Definition after (cs : list (call (launchError runError))) : life (launchError runError) :=
  default (life_of (server ModeSubprocess)) (lrun (life_of (server ModeSubprocess)) cs).

Lemma entered : reach (Managed (after [CStart 1]) (Some (SubPreparing None))).
Proof.
  eapply mreach_step; [apply (mreach_new 7 (MkOptions [] (str "127.0.0.1:25567") Online [] (Motd [] []) ModeSubprocess
    [] [] None None None 0 [] [] false 0) (server ModeSubprocess)); vm_compute; reflexivity|].
  eapply (m_start 1); [vm_compute; reflexivity|reflexivity|by exists None].
Qed.
Lemma ended :
  reach (Managed (after [CStart 1; CRunReturns 1 None; CCancel 1; CClose 1]) (Some (SubLoop (with_ctx Canceled (at_ until_return))))).
Proof.
  assert (reach (Managed (after [CStart 1]) (Some (SubLoop (at_ until_return))))) as H1.
  { eapply (managed_drive true act policy _ until_return s0); [vm_compute; reflexivity|].
    eapply mreach_step; [exact entered|]. apply m_own. apply (so_enter true act policy None 0 b0); [done|]. by intros g [_ ?]. }
  assert (Some (SubLoop (with_ctx Canceled (at_ until_return)))
    = cancelled (RS := subprocess_sys true act policy) <$> Some (SubLoop (at_ until_return))) as ->.
  { apply cancelled_loop. vm_compute. reflexivity. }
  eapply mreach_step; [|apply (m_call (CClose 1) 1 (after [CStart 1; CRunReturns 1 None; CCancel 1])); [by left|vm_compute; reflexivity]].
  eapply mreach_step; [|apply (m_cancel (CCancel 1) 1 (after [CStart 1; CRunReturns 1 None]) _ (Some (SubLoop (at_ until_return))));
    [by left|vm_compute; reflexivity]].
  eapply mreach_step; [exact H1|]. eapply (m_return 1); vm_compute; reflexivity.
Qed.
(** A [Stop] that has cancelled the context of a run that is still locating its binary. *)
Lemma stopping :
  reach (Managed (after [CStart 1; CStop 2; CStopCancel 2]) (Some (SubPreparing (Some Canceled)))).
Proof.
  change (Some (SubPreparing (Some Canceled)))
    with (cancelled (RS := subprocess_sys true act policy) <$> Some (SubPreparing None)).
  eapply mreach_step; [|apply (m_cancel (CStopCancel 2) 2 (after [CStart 1; CStop 2]) _ (Some (SubPreparing None)));
    [by right|vm_compute; reflexivity]].
  eapply mreach_step; [exact entered|]. apply (m_call (CStop 2) 2 (after [CStart 1])); [by right; left|vm_compute; reflexivity].
Qed.

(** A [Stop] of an embedded server that is up. *)
Abbreviation embedded_reach := (mreach (RS := embedded_sys true 9 1)).
Definition embedded_server : Server.Server (launchError runErr) :=
  MkServer (fst (validate 7 demo_options)) Server.embeddedRunner false false None None.
Definition embedded_after (cs : list (call (launchError runErr))) : life (launchError runErr) :=
  default (life_of embedded_server) (lrun (life_of embedded_server) cs).
Definition up : runner := edemo.at_end true edemo.until_up.
Lemma embedded_stopping :
  embedded_reach (Managed (embedded_after [CStart 1; CStop 2; CStopCancel 2]) (Some (EmbRun (set_ctx (Some Canceled) up)))).
Proof.
  rewrite (cancelled_embedded true 9 1 up) by (vm_compute; reflexivity).
  eapply mreach_step; [|apply (m_cancel (CStopCancel 2) 2 (embedded_after [CStart 1; CStop 2]) _ (Some (EmbRun up)));
    [by right|vm_compute; reflexivity]].
  eapply mreach_step; [|apply (m_call (CStop 2) 2 (embedded_after [CStart 1])); [by right; left|vm_compute; reflexivity]].
  eapply (managed_play true 9 1 _ edemo.until_up edemo.start); [vm_compute; reflexivity|].
  eapply mreach_step; [|apply m_own, (eo_launch true 9 1 None cdemo.p0); [|done..]].
  - eapply mreach_step; [apply (mreach_new 7 demo_options embedded_server); vm_compute; reflexivity|].
    eapply (m_start 1); [vm_compute; reflexivity|reflexivity|by exists None].
  - apply preach_start. by intros i b [_ <-]%lookup_singleton_Some.
Qed.
End mdemo.

Lemma embedded_stop_ends_witness :
  lf_threads (mdemo.embedded_after [CStart 1; CStop 2; CStopCancel 2]) !! 2 = Some StopWaiting
  ∧ ∀ m', mown (RS := embedded_sys true 9 1)
      (Managed (mdemo.embedded_after [CStart 1; CStop 2; CStopCancel 2]) (Some (EmbRun (set_ctx (Some Canceled) mdemo.up)))) m' →
    lf_threads (mg_life m') !! 2 = Some StopWaiting.
Proof.
  assert (lf_threads (mdemo.embedded_after [CStart 1; CStop 2; CStopCancel 2]) !! 2 = Some StopWaiting) as Ht
    by (vm_compute; reflexivity).
  split; [exact Ht|].
  destruct (embedded_stop_ends true 9 1 _ 2 mdemo.embedded_stopping Ht) as (x & _ & Hown & _).
  intros m' Hm. exact (proj2 (proj2 (Hown m' Hm))).
Defined.

Lemma subprocess_server_over_witness :
  (1, StartReturned None) ∈ lf_returns (mdemo.after [CStart 1; CRunReturns 1 None; CCancel 1; CClose 1])
  ∧ sv_its (ldemo.at_ ldemo.until_return) ≠ []
  ∧ ∀ g, ¬ sink_live g (sv_served (with_ctx Canceled (ldemo.at_ ldemo.until_return))).
Proof.
  assert ((1, StartReturned None) ∈ lf_returns (mdemo.after [CStart 1; CRunReturns 1 None; CCancel 1; CClose 1])) as Hin
    by (vm_compute; constructor).
  split; [exact Hin|]. split; [by vm_compute|].
  destruct (subprocess_server_over true _ ldemo.policy _ 1 _ None mdemo.ended Hin) as [(c & err & H & _)|(s & e' & H & _ & _ & _ & _ & Hn)].
  - by left.
  - cbn [mg_run] in H. congruence.
  - cbn [mg_run] in H. assert (s = with_ctx Canceled (ldemo.at_ ldemo.until_return)) as Hs by congruence.
    rewrite Hs in Hn. exact Hn.
Defined.

Lemma subprocess_stop_ends_witness :
  lf_threads (mdemo.after [CStart 1; CStop 2; CStopCancel 2]) !! 2 = Some StopWaiting
  ∧ ∀ m', mown (RS := subprocess_sys true odemo.act ldemo.policy)
      (Managed (mdemo.after [CStart 1; CStop 2; CStopCancel 2]) (Some (SubPreparing (Some Canceled)))) m' →
    mleft (RS := subprocess_sys true odemo.act ldemo.policy) m' < 22.
Proof.
  assert (lf_threads (mdemo.after [CStart 1; CStop 2; CStopCancel 2]) !! 2 = Some StopWaiting) as Ht by (vm_compute; reflexivity).
  split; [exact Ht|].
  destruct (subprocess_stop_ends true _ ldemo.policy _ 2 mdemo.stopping Ht) as (x & _ & Hown & _).
  intros m' Hm. exact (proj2 (proj1 (Hown m' Hm))).
Defined.
