(* ===== verification/Base64.v ===== *)
(** * Base 64 (Go's [base64.StdEncoding])

    The decoder the fly example uses on its key, and the encoder of [base64(1)] that the
    example's message tells the user to run. *)
From S2P Require Import Prelude GoInt.

(** The alphabet. *)
Definition b64_digit (d : Z) : Z :=
  if d <? 26 then 65 + d else if d <? 52 then 71 + d else if d <? 62 then d - 4 else if d =? 62 then 43 else 47.
Definition b64_value (c : Z) : option Z :=
  if (65 <=? c) && (c <=? 90) then Some (c - 65)
  else if (97 <=? c) && (c <=? 122) then Some (c - 71)
  else if (48 <=? c) && (c <=? 57) then Some (c + 4)
  else if c =? 43 then Some 62
  else if c =? 47 then Some 63
  else None.
Definition pad : Z := 61.

(** Four characters at a time; only the last four may be padded. *)
Fixpoint decode_quanta (s : bytes) : option bytes :=
  match s with
  | [] => Some []
  | c0 :: c1 :: c2 :: c3 :: rest =>
      d0 ← b64_value c0;
      d1 ← b64_value c1;
      let b0 := d0 * 4 + d1 / 16 in
      match b64_value c2, b64_value c3 with
      | Some d2, Some d3 =>
          l ← decode_quanta rest;
          Some (b0 :: (d1 mod 16) * 16 + d2 / 4 :: (d2 mod 4) * 64 + d3 :: l)
      | Some d2, None =>
          if (c3 =? pad) && bool_decide (rest = []) then Some [b0; (d1 mod 16) * 16 + d2 / 4] else None
      | None, _ =>
          if (c2 =? pad) && (c3 =? pad) && bool_decide (rest = []) then Some [b0] else None
      end
  | _ => None
  end.

(** [DecodeString] skips the ends of lines; [None]: an error. *)
Definition is_newline (c : Z) : bool := (c =? 10) || (c =? 13).
Definition base64_decode (s : bytes) : option bytes := decode_quanta (filter (λ c, is_newline c = false) s).

Fixpoint base64_encode (l : bytes) : bytes :=
  match l with
  | [] => []
  | [b0] => [b64_digit (b0 / 4); b64_digit ((b0 mod 4) * 16); pad; pad]
  | [b0; b1] => [b64_digit (b0 / 4); b64_digit ((b0 mod 4) * 16 + b1 / 16); b64_digit ((b1 mod 16) * 4); pad]
  | b0 :: b1 :: b2 :: l =>
      b64_digit (b0 / 4) :: b64_digit ((b0 mod 4) * 16 + b1 / 16) :: b64_digit ((b1 mod 16) * 4 + b2 / 64)
      :: b64_digit (b2 mod 64) :: base64_encode l
  end.

Example encode_man : base64_encode (str "Man is") = str "TWFuIGlz" ∧ base64_encode (str "Ma") = str "TWE="
  ∧ base64_encode (str "M") = str "TQ==".
Proof. by vm_compute. Qed.
Example decode_man : base64_decode (str "TWFu" ++ [13; 10] ++ str "TQ==" ++ [10]) = Some (str "ManM")
  ∧ base64_decode (str "TQ==TQ==") = None ∧ base64_decode (str "TQ=") = None ∧ base64_decode (str "T=Q=") = None.
Proof. by vm_compute. Qed.

(** ** The round trip *)

Lemma b64_value_digit d : 0 ≤ d < 64 → b64_value (b64_digit d) = Some d.
Proof.
  intros Hd. assert (Forall (λ n, b64_value (b64_digit (Z.of_nat n)) = Some (Z.of_nat n)) (seq 0 64)) as Hall.
  { apply (bool_decide_unpack _). by vm_compute. }
  rewrite Forall_forall in Hall. specialize (Hall (Z.to_nat d)). rewrite Z2Nat.id in Hall by lia.
  apply Hall, elem_of_seq. lia.
Qed.
Lemma b64_digit_printed d : 0 ≤ d < 64 → is_newline (b64_digit d) = false.
Proof. intros Hd. unfold is_newline, b64_digit. repeat case_match; lia. Qed.

(** Three bytes at a time. *)
Lemma bytes_ind3 (P : bytes → Prop) :
  P [] → (∀ a, P [a]) → (∀ a b, P [a; b]) → (∀ a b c l, P l → P (a :: b :: c :: l)) → ∀ l, P l.
Proof.
  intros H0 H1 H2 H3. fix IH 1. intros [|a [|b [|c l]]]; [done..|]. apply H3, IH.
Qed.

(** The six-bit digits of three bytes, and back. *)
Ltac digits := repeat match goal with H : is_byte _ |- _ => unfold is_byte in H end; Z.div_mod_to_equations; lia.
Lemma quanta_encode l : Bytes l → decode_quanta (base64_encode l) = Some l.
Proof.
  induction l as [|a|a b|a b c l IH] using bytes_ind3; intros Hl; [done|..];
    repeat match goal with H : Forall _ (_ :: _) |- _ => apply Forall_cons in H as [? H] end;
    cbn [base64_encode decode_quanta].
  - rewrite !b64_value_digit by digits. cbn. do 2 f_equal. digits.
  - rewrite !b64_value_digit by digits. cbn. do 3 f_equal; [digits|f_equal; digits].
  - rewrite !b64_value_digit by digits. cbn [mbind option_bind]. rewrite IH by done. cbn.
    f_equal. f_equal; [digits|f_equal; [digits|f_equal; digits]].
Qed.
Lemma encode_printed l : Bytes l → filter (λ c, is_newline c = false) (base64_encode l) = base64_encode l.
Proof.
  induction l as [|a|a b|a b c l IH] using bytes_ind3; intros Hl; [done|..];
    repeat match goal with H : Forall _ (_ :: _) |- _ => apply Forall_cons in H as [? H] end;
    cbn [base64_encode]; rewrite !filter_cons_True by (done || apply b64_digit_printed; digits); [done..|].
  by rewrite IH.
Qed.

(** What is encoded decodes, with the newlines a tool or a secret store adds. *)
Lemma base64_round_trip l newlines :
  Bytes l → forallb is_newline newlines = true → base64_decode (base64_encode l ++ newlines) = Some l.
Proof.
  intros Hl Hn. unfold base64_decode. rewrite filter_app, encode_printed by done.
  assert (filter (λ c, is_newline c = false) newlines = []) as ->.
  { induction newlines as [|c ns IH]; [done|]. cbn in Hn. apply andb_prop in Hn as [Hc Hn].
    rewrite filter_cons_False by (by rewrite Hc). by apply IH. }
  rewrite app_nil_r. by apply quanta_encode.
Qed.
Lemma zlen_base64_16 l : zlen l = 16 → zlen (base64_encode l) = 24.
Proof.
  unfold zlen. intros H. do 16 (destruct l as [|? l]; [cbn in H; lia|]). destruct l; [done|cbn in H; lia].
Qed.
