(* ===== verification/Commands.v ===== *)
(** * The commands (cmd/bedrock-probe, cmd/integration-test)

    What each command does with its flags, once package [flag] has parsed them, and with
    what the network answers: its exit code and what it prints. *)
From S2P Require Import Prelude GoInt GoStrings GoText Supervisor Options RakNet Server.

(** [strings.Contains]. *)
Fixpoint contains (s sub : bytes) : bool :=
  has_prefix sub s || match s with [] => false | _ :: s => contains s sub end.

(** ** bedrock-probe *)
Module BedrockProbe.

Record flags := Flags {
  fl_addr : bytes;
  fl_wait : Z;
  fl_json : bool;
  fl_quiet : bool;
  fl_args : list bytes;     (* the arguments that are not flags *)
}.

Definition address (f : flags) : bytes :=
  if is_empty (fl_addr f) then match fl_args f with arg :: _ => arg | [] => fl_addr f end else fl_addr f.

Definition maxDuration (a b : Z) : Z := if b <? a then a else b.
Definition timeout (wait : Z) : Z := maxDuration (3 * Second) (i64 (wait + Second)).

(** What is printed, the pong and its round trip among it, and the exit code of the process.
    A panic is not caught: the runtime prints it and exits with status 2. *)
Inductive output :=
| Missing | Failure | Silent | Json (motd : RakNet.MOTD * Z) | Lines (addr : bytes) (motd : RakNet.MOTD * Z) | Traceback.
Inductive result := Exit (code : Z) (out : output).
Definition panics : result := Exit 2 Traceback.
Definition exit_code (r : result) : Z := match r with Exit code _ => code end.

Definition print (f : flags) (motd : RakNet.MOTD * Z) : output :=
  if fl_quiet f then Silent else if fl_json f then Json motd else Lines (address f) motd.

(** What is known of the server: [synthetic.Wait] or [synthetic.Probe]; [None]: not yet. *)
Definition ask (f : flags) (attempts : list (Z * exchange * waitResult)) : option (res unit (RakNet.MOTD * Z)) :=
  if 0 <? fl_wait f then
    match (Wait (250 * Millisecond) attempts).2 with
    | Some (Ok motd) => Some (Ok motd)
    | Some (Err _) => Some (Err tt)
    | Some Panic => Some Panic
    | None => None
    end
  else
    match attempts with
    | [] => None
    | (t0, x, _) :: _ =>
        Some (match Probe t0 x with Ok motd => Ok motd | Err _ => Err tt | Panic => Panic end)
    end.

Definition main (f : flags) (attempts : list (Z * exchange * waitResult)) : option result :=
  if is_empty (address f) then Some (Exit 2 Missing)
  else
    match ask f attempts with
    | None => None
    | Some (Err _) => Some (Exit 1 Failure)
    | Some Panic => Some panics
    | Some (Ok motd) => Some (Exit 0 (print f motd))
    end.

(** The attempt the answer comes from: the first that does not fail, or the last one; there
    is one attempt without [-wait]. *)
Definition failing (a : Z * exchange * waitResult) : Prop := ∃ e, Probe a.1.1 a.1.2 = Err e.
Definition decides (f : flags) (attempts : list (Z * exchange * waitResult)) (a : Z * exchange * waitResult) : Prop :=
  ∃ failed rest, attempts = failed ++ a :: rest ∧ Forall (λ a, failing a ∧ a.2 = WaitElapsed) failed
    ∧ (fl_wait f ≤ 0 → failed = [])
    ∧ (0 < fl_wait f → failing a → ∃ e, a.2 = WaitCancelled e).

Lemma wait_decides d attempts r :
  (wait_loop d attempts).2 = Some r →
  ∃ failed a rest, attempts = failed ++ a :: rest ∧ Forall (λ a, failing a ∧ a.2 = WaitElapsed) failed
    ∧ match r with
      | Ok m => Probe a.1.1 a.1.2 = Ok m
      | Err e => failing a ∧ a.2 = WaitCancelled e
      | Panic => Probe a.1.1 a.1.2 = Panic
      end.
Proof.
  induction attempts as [|[[t0 x] w] attempts IH]; [done|]. cbn.
  destruct (Probe t0 x) as [m|e|] eqn:Hp; [intros [= <-]; by exists [], (t0, x, w), attempts| |
    intros [= <-]; by exists [], (t0, x, w), attempts].
  destruct w as [c|].
  - intros [= <-]. exists [], (t0, x, WaitCancelled c), attempts. split_and!; [done|done|by exists e|done].
  - destruct (wait_loop d attempts) as [ds r'] eqn:Hw. cbn. intros ->.
    destruct (IH eq_refl) as (failed & a & rest & -> & Hf & Hr).
    exists ((t0, x, WaitElapsed) :: failed), a, rest. split_and!; [done| |done]. constructor; [|done]. split; [by exists e|done].
Qed.
Lemma ask_decides f attempts r :
  ask f attempts = Some r →
  ∃ a, decides f attempts a ∧ match r with
    | Ok m => Probe a.1.1 a.1.2 = Ok m | Err _ => failing a | Panic => Probe a.1.1 a.1.2 = Panic end.
Proof.
  unfold ask. destruct (0 <? fl_wait f) eqn:Hw.
  - unfold Wait. cbn [Z.leb]. destruct (wait_loop _ attempts).2 as [r'|] eqn:Hr; [|done].
    apply wait_decides in Hr as (failed & a & rest & -> & Hf & Hr). intros Heq. exists a. split.
    + exists failed, rest. split_and!; [done..|lia|]. intros _ [e He]. destruct r'; [congruence|by destruct Hr; eexists|congruence].
    + destruct r'; simplify_eq; [done|apply Hr|done].
  - destruct attempts as [|[[t0 x] w] attempts]; [done|]. intros [= <-]. exists (t0, x, w). split.
    + exists [], attempts. split_and!; [done..|lia].
    + cbn. destruct (Probe t0 x) eqn:Hp; [done|by eexists|done].
Qed.

(** At most one attempt decides. *)
Lemma failing_not a : failing a → ∀ m, Probe a.1.1 a.1.2 ≠ Ok m ∧ Probe a.1.1 a.1.2 ≠ Panic.
Proof. intros [e He] m. by rewrite He. Qed.
Lemma decides_panic f attempts a a' :
  decides f attempts a → decides f attempts a' → Probe a'.1.1 a'.1.2 = Panic → a = a'.
Proof.
  intros (failed & rest & H1 & Hf & H0 & Hc) (failed' & rest' & H2 & Hf' & H0' & _) Hp.
  rewrite H1 in H2. clear H1. revert failed' H2 Hf' H0'. induction failed as [|b failed IH]; intros [|b' failed'] H2 Hf' H0'; cbn in H2.
  - by simplify_eq.
  - injection H2 as -> _. apply Forall_cons in Hf' as [[Hb Hel] _]. destruct (Z.lt_ge_cases 0 (fl_wait f)) as [Hw|Hw].
    + destruct (Hc Hw Hb) as [e He]. congruence.
    + by specialize (H0' Hw).
  - injection H2 as <- _. apply Forall_cons in Hf as [[[e He] _] _]. congruence.
  - injection H2 as <- H2. apply Forall_cons in Hf as [_ Hf]. apply Forall_cons in Hf' as [_ Hf'].
    apply (IH Hf) with failed'; try done; intros Hw; [by specialize (H0 Hw)|by specialize (H0' Hw)].
Qed.

Lemma timeout_bounds wait :
  is_i64 wait →
  timeout wait = if wait <=? GoInt.maxDuration - Second then Z.max (3 * Second) (wait + Second) else 3 * Second.
Proof.
  unfold is_i64, timeout, maxDuration, GoInt.maxDuration. change Second with 1000000000. intros Hw.
  destruct (wait <=? _) eqn:Hc.
  - rewrite (swrap_id 64) by lia. destruct (_ <? _) eqn:?; lia.
  - assert (i64 (wait + 1000000000) < 0) as Hneg.
    { unfold swrap. change (2 ^ (64 - 1)) with 9223372036854775808. change (2 ^ 64) with 18446744073709551616.
      Z.div_mod_to_equations. lia. }
    destruct (_ <? _) eqn:?; lia.
Qed.

(** C40: what bedrock-probe exits with, its flags parsed: 0 exactly if the attempt that decides
    (the first that does not fail; the only one, without [-wait]) is answered by a pong that
    decodes, which is what is printed; 1 exactly if it fails, with [-wait] only once the context
    has ended; 2 exactly if no address is given, or if it is answered by a pong that [parsePong]
    panics on, which nothing catches; and there is no other exit code. The context ends a second after [-wait], but
    never before three seconds; a [-wait] within a second of the largest duration wraps
    around to three seconds. *)
Theorem bedrock_probe_exit f attempts r :
  main f attempts = Some r →
  (address f = [] ∧ r = Exit 2 Missing
   ∨ address f ≠ [] ∧ ∃ a, decides f attempts a
     ∧ match Probe a.1.1 a.1.2 with
       | Ok m => r = Exit 0 (print f m)
       | Err _ => r = Exit 1 Failure
       | Panic => r = Exit 2 Traceback
       end)
  ∧ (exit_code r = 2 ↔ address f = [] ∨ ∃ a data rtt, decides f attempts a
       ∧ a.1.2 = Reply data rtt ∧ parsePong (ztake 2048 data) = Panic)
  ∧ (is_i64 (fl_wait f) →
      timeout (fl_wait f) = if fl_wait f <=? GoInt.maxDuration - Second then Z.max (3 * Second) (fl_wait f + Second) else 3 * Second).
Proof.
  unfold main. intros Hm.
  destruct (is_empty (address f)) eqn:Ha.
  { apply is_empty_spec in Ha. simplify_eq. split; [by left|]. split; [|apply timeout_bounds]. cbn. naive_solver. }
  apply is_empty_false in Ha. destruct (ask f attempts) as [r'|] eqn:Hr; [|done].
  apply ask_decides in Hr as (a & Hd & Hr).
  assert (match Probe a.1.1 a.1.2 with
          | Ok m => r = Exit 0 (print f m) | Err _ => r = Exit 1 Failure | Panic => r = Exit 2 Traceback end) as Hres.
  { destruct r' as [m|e|]; [|destruct Hr as [e' Hr]|]; rewrite Hr; by simplify_eq. }
  split; [right; eauto|]. split; [|apply timeout_bounds]. split.
  - intros Hc. right. destruct (Probe a.1.1 a.1.2) eqn:Hp; subst r; try done.
    apply Probe_panics in Hp as (data & rtt & ? & ?). by exists a, data, rtt.
  - intros [?|(a' & data & rtt & Hd' & Hx & Hp)]; [done|].
    assert (Probe a'.1.1 a'.1.2 = Panic) as Hp' by (apply Probe_panics; eauto).
    assert (a = a') as -> by (by eapply decides_panic). by rewrite Hp' in Hres; subst r.
Qed.
End BedrockProbe.

(** ** integration-test *)
Module IntegrationTest.

Record flags := Flags {
  fl_listen : bytes;
  fl_upstream : bytes;
  fl_timeout : Z;
  fl_mode : bytes;
}.

Definition run_mode (mode : bytes) : option Mode :=
  if decide (mode = str "embedded") then Some ModeEmbedded
  else if decide (mode = str "subprocess") then Some ModeSubprocess
  else None.

Definition options (f : flags) (mode : Mode) (logger : Z) : Options :=
  MkOptions (fl_listen f) (fl_upstream f) Offline [] (Options.Motd [] []) mode [] [] None (Some logger) None 0 [] [] false 0.

(** One turn of the loop: the time its condition sees, what [net.ListenUDP] returns (the
    message of its error), and whether the [select] receives the server's error. *)
Record poll := Poll { po_now : Z; po_listen : option bytes; po_exited : bool }.

Inductive reason := UnknownMode | NewFailed (e : optionsError) | Unresolved | ServerExited | TimedOut.
(** [Passed]: once the context has ended. *)
Inductive result := Passed | Failed (why : reason).
Definition code (r : result) : Z := match r with Passed => 0 | Failed _ => 1 end.

Section main.
(** [strings.ToLower] outside of ASCII. *)
Context (unicode_lower : bytes → bytes).

Definition isUDPBound (listen : option bytes) : bool :=
  match listen with
  | None => false
  | Some err =>
      let msg := to_lower unicode_lower err in
      contains msg (str "address already in use") || contains msg (str "addrinuse")
  end.

(** [None]: the loop goes on. *)
Fixpoint poll_loop (deadline : Z) (polls : list poll) : option result :=
  match polls with
  | [] => None
  | p :: polls =>
      if po_now p <? deadline then
        if isUDPBound (po_listen p) then Some Passed
        else if po_exited p then Some (Failed ServerExited)
        else poll_loop deadline polls
      else Some (Failed TimedOut)
  end.

Definition main (f : flags) (slogDefault logger : Z) (resolves : bool) (start : Z) (polls : list poll) : option result :=
  match run_mode (fl_mode f) with
  | None => Some (Failed UnknownMode)
  | Some mode =>
      match New (E := unit) slogDefault (options f mode logger) with
      | Err e => Some (Failed (NewFailed e))
      | _ => if negb resolves then Some (Failed Unresolved) else poll_loop (start + fl_timeout f) polls
      end
  end.

(** The loop goes on after a turn. *)
Definition undecided (deadline : Z) (p : poll) : Prop :=
  po_now p < deadline ∧ isUDPBound (po_listen p) = false ∧ po_exited p = false.

Lemma poll_loop_end deadline polls :
  match poll_loop deadline polls with
  | None => Forall (undecided deadline) polls
  | Some r => ∃ before p after, polls = before ++ p :: after ∧ Forall (undecided deadline) before
      ∧ match r with
        | Passed => po_now p < deadline ∧ isUDPBound (po_listen p) = true
        | Failed why => po_now p < deadline ∧ isUDPBound (po_listen p) = false ∧ po_exited p = true ∧ why = ServerExited
            ∨ deadline ≤ po_now p ∧ why = TimedOut
        end
  end.
Proof.
  induction polls as [|p polls IH]; [constructor|]. cbn.
  destruct (po_now p <? deadline) eqn:Hn; [|exists [], p, polls; split_and!; [done|done|right; split; [lia|done]]].
  destruct (isUDPBound (po_listen p)) eqn:Hb; [exists [], p, polls; split_and!; [done|done|lia|done]|].
  destruct (po_exited p) eqn:He; [exists [], p, polls; split_and!; [done|done|left; split_and!; (done || lia)]|].
  assert (undecided deadline p) as Hp by (split_and!; (done || lia)).
  destruct (poll_loop deadline polls) as [r|]; [|by constructor].
  destruct IH as (before & q & after & -> & Hf & Hq). exists (p :: before), q, after. split_and!; [done|by constructor|done].
Qed.

Lemma poll_loop_undecided deadline before polls :
  Forall (undecided deadline) before → poll_loop deadline (before ++ polls) = poll_loop deadline polls.
Proof.
  induction 1 as [|p before (Hn & Hb & He) _ IH]; [done|]. cbn. rewrite Hb, He, IH.
  by replace (po_now p <? deadline) with true by lia.
Qed.
Lemma run_mode_known mode : is_Some (run_mode mode) ↔ mode = str "embedded" ∨ mode = str "subprocess".
Proof.
  unfold run_mode. destruct (decide (mode = str "embedded")); [split; eauto|].
  destruct (decide (mode = str "subprocess")); [split; eauto|]. split; [by intros []|by intros []].
Qed.
Lemma new_offline f mode d logger :
  if decide (fl_upstream f = []) then New (E := unit) d (options f mode logger) = Err ErrUpstreamRequired
  else ∃ s, New (E := unit) d (options f mode logger) = Ok s.
Proof.
  unfold New, validate. cbn. destruct (decide _) as [->|Hu]; [done|]. apply is_empty_false in Hu as ->. cbn. by eexists.
Qed.

(** The turns are at least half a second apart. *)
Definition spaced (start : Z) (polls : list poll) : Prop :=
  ∀ i p, polls !! i = Some p → start + Z.of_nat i * (500 * Millisecond) ≤ po_now p.

(** Integration-test passes exactly if the mode is one of the two, an upstream is
    given, the address resolves, and, before the deadline, some attempt to bind the address
    finds it in use while no earlier one did and the server had not ended before; it does not matter
    whether it is the server that holds the address, nor what the server returned at that
    very moment. Otherwise it fails, and it ends: the turns of its loop are half a second
    apart, so that there are at most two a second of the timeout, and one more. *)
Theorem integration_test_exit f slogDefault logger resolves start polls :
  (main f slogDefault logger resolves start polls = Some Passed ↔
    (fl_mode f = str "embedded" ∨ fl_mode f = str "subprocess") ∧ fl_upstream f ≠ [] ∧ resolves = true
    ∧ ∃ before p after, polls = before ++ p :: after ∧ Forall (undecided (start + fl_timeout f)) before
        ∧ po_now p < start + fl_timeout f ∧ isUDPBound (po_listen p) = true)
  ∧ (spaced start polls → 0 < zlen polls → fl_timeout f ≤ (zlen polls - 1) * (500 * Millisecond) →
      is_Some (main f slogDefault logger resolves start polls)).
Proof.
  unfold main. pose proof (run_mode_known (fl_mode f)) as Hmode.
  destruct (run_mode (fl_mode f)) as [mode|].
  2: { split; [|by eexists]. split; [done|]. intros ([]%Hmode & _). done. }
  pose proof (new_offline f mode slogDefault logger) as Hnew.
  destruct (decide (fl_upstream f = [])) as [|Hu]; [rewrite Hnew; split; [|by eexists]; naive_solver|].
  destruct Hnew as [s ->]. destruct resolves; cbn [negb]; [|split; [|by eexists]; naive_solver].
  pose proof (poll_loop_end (start + fl_timeout f) polls) as Hend. split; [split|].
  - intros Hp. rewrite Hp in Hend. destruct Hend as (before & p & after & Hpo & Hf & ?).
    split_and!; [by apply Hmode; eexists|done|done|]. exists before, p, after. done.
  - intros (_ & _ & _ & before & p & after & -> & Hf & Hn & Hb). rewrite poll_loop_undecided by done. cbn.
    replace (po_now p <? start + fl_timeout f) with true by lia. by rewrite Hb.
  - intros Hsp Hlen Ht. destruct (poll_loop _ polls); [by eexists|].
    destruct (polls !! Z.to_nat (zlen polls - 1)) as [p|] eqn:Hl.
    + pose proof (Hsp _ _ Hl) as Hnow. rewrite Forall_lookup in Hend. destruct (Hend _ _ Hl) as [Hd _].
      rewrite Z2Nat.id in Hnow by lia. lia.
    + apply lookup_ge_None in Hl. unfold zlen in *. lia.
Qed.
End main.
End IntegrationTest.

(** ** Witnesses *)

Module cdemo.
Definition flags : BedrockProbe.flags := BedrockProbe.Flags [] 0 true false [str "127.0.0.1:19132"].
Definition reply : bytes :=
  pong idUnconnectedPong (zrep 8 0) (zrep 8 17) rakNetMagic (be_split 2 (zlen (join 59 sample_fields))) (join 59 sample_fields).
Definition attempts : list (Z * exchange * waitResult) := [(0, Reply reply 1500000, WaitElapsed)].
Definition answer : BedrockProbe.result := default BedrockProbe.panics (BedrockProbe.main flags attempts).

(** The port was taken before the server started: the first turn passes. *)
Definition it_flags : IntegrationTest.flags :=
  IntegrationTest.Flags (str "127.0.0.1:19132") (str "127.0.0.1:25565") (30 * Second) (str "subprocess").
Definition taken : IntegrationTest.poll :=
  IntegrationTest.Poll 5 (Some (str "listen udp 127.0.0.1:19132: bind: address already in use")) true.
End cdemo.

Lemma bedrock_probe_exit_witness :
  BedrockProbe.main cdemo.flags cdemo.attempts = Some cdemo.answer
  ∧ ∃ a, BedrockProbe.decides cdemo.flags cdemo.attempts a.
Proof.
  assert (BedrockProbe.main cdemo.flags cdemo.attempts = Some cdemo.answer) as Hm by (vm_compute; reflexivity).
  split; [exact Hm|]. destruct (BedrockProbe.bedrock_probe_exit _ _ _ Hm) as [[[Ha _]|(_ & a & Hd & _)] _].
  - vm_compute in Ha. discriminate Ha.
  - exists a. exact Hd.
Defined.

Lemma integration_test_exit_witness :
  IntegrationTest.main id cdemo.it_flags 1 2 true 0 [cdemo.taken] = Some IntegrationTest.Passed.
Proof.
  apply (IntegrationTest.integration_test_exit id cdemo.it_flags 1 2 true 0 [cdemo.taken]).
  split; [right; reflexivity|]. split; [discriminate|]. split; [reflexivity|].
  exists [], cdemo.taken, []. split; [reflexivity|]. split; [constructor|]. split; [reflexivity|vm_compute; reflexivity].
Defined.
