(* ===== verification/Examples.v ===== *)
(** * The examples (examples/basic, floodgate, fly, healthcheck, custom-config)

    What each example's [main] makes of its environment: the options it gives [New], and
    how it ends. A server is started by an argument; a [slog] handler is an identity. *)
From S2P Require Import Prelude GoInt GoStrings GoText Supervisor Options MergeMap Config Server Base64.

Section examples.
Context {E : Type}.
Abbreviation Server := (Server E).

(** How [log.Fatal] ends an example. *)
Inductive fatal :=
| FNew (e : optionsError) | FStart (e : serverError E)
| FNoKeyFile | FReadKey | FKeyLength (n : Z)        (* floodgate *)
| FNoKey | FDecodeKey.                              (* fly *)

(** The end of most of them: [New], and [Start] until the signal. *)
Definition serve (slogDefault : Z) (opts : Options) (start : Server → option (serverError E)) : res fatal unit :=
  match New slogDefault opts with
  | Ok srv => match start srv with None => Ok tt | Some e => Err (FStart e) end
  | Err e => Err (FNew e)
  | Panic => Panic
  end.

(** ** basic *)

Definition basic_options (slogDefault : Z) : Options :=
  MkOptions (str ":19132") (str "127.0.0.1:25565") Offline [] (Motd [] []) 0 [] [] None (Some slogDefault) None 0
    [] [] false 0.
Definition basic_main (slogDefault : Z) (start : Server → option (serverError E)) : res fatal unit :=
  serve slogDefault (basic_options slogDefault) start.

(** ** floodgate *)

Definition floodgate_options (slogDefault : Z) (key : bytes) : Options :=
  MkOptions (str ":19132") (str "gate.internal:25567") Floodgate key (Motd (str "minekube") (str "cross-play")) 0 [] []
    None (Some slogDefault) None 0 [] [] false 0.
Definition floodgate_main (getenv : bytes → bytes) (readFile : bytes → option bytes) (slogDefault : Z)
    (start : Server → option (serverError E)) : res fatal unit :=
  let keyPath := getenv (str "FLOODGATE_KEY_FILE") in
  if is_empty keyPath then Err FNoKeyFile
  else
    match readFile keyPath with
    | None => Err FReadKey
    | Some key =>
        if negb (zlen key =? 16) then Err (FKeyLength (zlen key))
        else serve slogDefault (floodgate_options slogDefault key) start
    end.

(** ** fly *)

(** The map literals. *)
Definition fly_overrides (advertised : bytes) (h : heap) : heap * Z :=
  let '(h, signaling) := alloc h (VScalar <$> list_to_map [
    (str "mode", SStr (str "builtin")); (str "advertise-addresses", SStrs [advertised]);
    (str "stun-discovery", SBool false)]) in
  let '(h, bedrock) := alloc h (list_to_map [
    (str "transport", VScalar (SStr (str "both"))); (str "webrtc-port", VScalar (SInt 19133));
    (str "signaling", VMap signaling)]) in
  alloc h {[str "bedrock" := VMap bedrock]}.

Definition fly_options (listen key : bytes) (overrides logger : Z) : Options :=
  MkOptions listen (str "127.0.0.1:25567") Floodgate key (Motd [] []) 0 [] [] None (Some logger) None 0 [] [] false overrides.

Definition fly_main (getenv : bytes → bytes) (h : heap) (slogDefault logger : Z)
    (start : heap → Server → option (serverError E)) : res fatal unit :=
  let listen := FlyGlobalServices getenv ++ str ":19132" in
  let advertised := getenv (str "GEYSERLITE_ADVERTISE_ADDRESS") in
  let '(h, overrides) := if negb (is_empty advertised) then fly_overrides advertised h else (h, 0) in
  let keyB64 := getenv (str "FLOODGATE_KEY_BASE64") in
  if is_empty keyB64 then Err FNoKey
  else
    match base64_decode keyB64 with
    | None => Err FDecodeKey
    | Some key => serve slogDefault (fly_options listen key overrides logger) (start h)
    end.

(** ** healthcheck *)

(** The key's error is dropped. *)
Definition generated (read : Z → option bytes) : bytes := default [] (GenerateFloodgateKey read).

Definition healthcheck_options (slogDefault : Z) (key : bytes) : Options :=
  MkOptions [] (str "127.0.0.1:25567") Floodgate key (Motd [] []) 0 [] [] None (Some slogDefault) None 0 [] [] false 0.

(** The handlers, by the path of the request: the status and the body. *)
Definition StatusOK : Z := 200.
Definition StatusServiceUnavailable : Z := 503.
Definition http_error (msg : bytes) (status : Z) : Z * bytes := (status, msg ++ [10]).
Definition healthz (healthy : bool) : Z * bytes :=
  if negb healthy then http_error (str "geyser not ready") StatusServiceUnavailable else (StatusOK, str "ok" ++ [10]).
Definition readyz (healthy : bool) : Z * bytes :=
  if negb healthy then http_error (str "not ready") StatusServiceUnavailable else (StatusOK, []).
Definition mux (path : bytes) (srv : Server) (runner_healthy : bool) : Z * bytes :=
  if decide (path = str "/healthz") then healthz (Healthy runner_healthy srv)
  else if decide (path = str "/readyz") then readyz (Healthy runner_healthy srv)
  else http_error (str "404 page not found") 404.

(** The server, or [log.Fatal]. [Start] then runs beside the HTTP server, until the signal
    or until it returns: Healthcheck.v. *)
Definition healthcheck_main (read : Z → option bytes) (slogDefault : Z) : res fatal Server :=
  match New slogDefault (healthcheck_options slogDefault (generated read)) with
  | Ok srv => Ok srv
  | Err e => Err (FNew e)
  | Panic => Panic
  end.

(** ** custom-config *)

Definition custom_jvmArgs : list bytes := [
  str "-Xmx256m";
  str "-XX:MaxHeapFree=16m";
  str "-XX:+CollectYoungGenerationSeparately";
  str "-Dio.netty.maxDirectMemory=64m";
  str "-XX:MaxDirectMemorySize=64m";
  str "-Dio.netty.allocator.type=pooled";
  str "-Dio.netty.allocator.numHeapArenas=4";
  str "-Dio.netty.allocator.numDirectArenas=4";
  str "-Dio.netty.eventLoopThreads=8";
  str "-Dlog4j2.disableJmx=true" ].
Definition custom_options (slogDefault : Z) (key : bytes) : Options :=
  MkOptions [] (str "127.0.0.1:25567") Floodgate key (Motd [] []) ModeSubprocess [] [] (Some custom_jvmArgs)
    (Some slogDefault) (Some (Policy (500 * Millisecond) (30 * Second) 0)) (60 * Second) [] [] false 0.
Definition custom_main (read : Z → option bytes) (slogDefault : Z) (start : Server → option (serverError E)) : res fatal unit :=
  serve slogDefault (custom_options slogDefault (generated read)) start.

(** ** What becomes of them *)

(** A server of the given options, with their defaults. *)
Definition serves_with (slogDefault : Z) (opts : Options) (srv : Server) : Prop :=
  New slogDefault opts = Ok srv ∧ sv_started srv = false
  ∧ ready_options (sv_opts srv) ∧ completes opts (sv_opts srv).

Lemma new_ready slogDefault opts :
  Upstream opts ≠ [] → (AuthType_of opts = Floodgate → zlen (FloodgateKey opts) = 16) →
  ∃ srv, serves_with slogDefault opts srv ∧ (Mode_of opts = ModeSubprocess ↔ sv_runner srv = subprocessRunner).
Proof.
  intros Hu Hk. destruct (validate slogDefault opts) as [o e] eqn:Hv.
  assert (e = None) as ->.
  { revert Hv. unfold validate. apply is_empty_false in Hu as ->.
    destruct (AuthType_of opts =? Floodgate) eqn:Ha; cbn; [|by intros [= <- <-]].
    rewrite Hk by lia. by intros [= <- <-]. }
  pose proof (validate_ok slogDefault opts o Hv) as [Hr Hc].
  eexists. split; [split; [unfold New; by rewrite Hv|exact (conj eq_refl (conj Hr Hc))]|]. cbn.
  assert (Mode_of o = Mode_of opts) as -> by (by injection (cp_rest _ _ Hc)).
  unfold ModeEmbedded, ModeSubprocess. destruct (Z.eqb_spec (Mode_of opts) 0) as [H|H]; [split; [lia|done]|].
  destruct (Z.eqb_spec (Mode_of opts) 1); split; done.
Qed.

Definition ends_with (start : Server → option (serverError E)) (srv : Server) : res fatal unit :=
  match start srv with None => Ok tt | Some e => Err (FStart e) end.
Lemma serve_ready slogDefault opts start :
  Upstream opts ≠ [] → (AuthType_of opts = Floodgate → zlen (FloodgateKey opts) = 16) →
  ∃ srv, serves_with slogDefault opts srv ∧ (Mode_of opts = ModeSubprocess ↔ sv_runner srv = subprocessRunner)
    ∧ serve slogDefault opts start = ends_with start srv.
Proof.
  intros Hu Hk. destruct (new_ready slogDefault opts Hu Hk) as (srv & Hs & Hm). exists srv. split_and!; [done..|].
  unfold serve. by destruct Hs as [-> _].
Qed.
Lemma serve_bad_key slogDefault opts start :
  Upstream opts ≠ [] → AuthType_of opts = Floodgate → zlen (FloodgateKey opts) ≠ 16 →
  serve slogDefault opts start = Err (FNew ErrInvalidFloodgateKey).
Proof.
  intros Hu Ha Hk. unfold serve, New, validate. apply is_empty_false in Hu as ->. rewrite Ha. cbn.
  by replace (zlen (FloodgateKey opts) =? 16) with false by lia.
Qed.

(** Every example gets a server: basic's and healthcheck's options are accepted, with
    any generated key, and run embedded (basic's comment says subprocess mode);
    custom-config's run in a subprocess, with its own arguments and restart policy;
    floodgate's exactly if the file of FLOODGATE_KEY_FILE holds 16 bytes, and the server
    has them as its key; and each example then ends as [Start] does. healthcheck answers
    200 on both of its paths exactly if the server is healthy, and 503 before. *)
Theorem examples_get_servers slogDefault read key start getenv readFile :
  read 16 = Some key → zlen key = 16 →
  (∃ srv, serves_with slogDefault (basic_options slogDefault) srv ∧ sv_runner srv ≠ subprocessRunner
    ∧ basic_main slogDefault start = ends_with start srv)
  ∧ (∃ srv, serves_with slogDefault (custom_options slogDefault key) srv ∧ sv_runner srv = subprocessRunner
      ∧ JVMArgs (sv_opts srv) = Some custom_jvmArgs ∧ ShutdownTimeout (sv_opts srv) = 60 * Second
      ∧ RestartPolicy_of (sv_opts srv) = Some (Policy (500 * Millisecond) (30 * Second) 0)
      ∧ custom_main read slogDefault start = ends_with start srv)
  ∧ (∃ srv, serves_with slogDefault (healthcheck_options slogDefault key) srv
      ∧ healthcheck_main read slogDefault = Ok srv
      ∧ ∀ path srv' h, path = str "/healthz" ∨ path = str "/readyz" →
          ((mux path srv' h).1 = 200 ↔ sv_started srv' = true ∧ h = true)
          ∧ ((mux path srv' h).1 = 503 ↔ ¬ (sv_started srv' = true ∧ h = true)))
  ∧ match readFile (getenv (str "FLOODGATE_KEY_FILE")) with
    | Some k =>
        if decide (getenv (str "FLOODGATE_KEY_FILE") ≠ [] ∧ zlen k = 16)
        then ∃ srv, serves_with slogDefault (floodgate_options slogDefault k) srv
          ∧ FloodgateKey (sv_opts srv) = k ∧ floodgate_main getenv readFile slogDefault start = ends_with start srv
        else ∃ e, floodgate_main getenv readFile slogDefault start = Err e
    | None => ∃ e, floodgate_main getenv readFile slogDefault start = Err e
    end.
Proof.
  intros Hread Hkey.
  assert (generated read = key) as Hgen by (unfold generated, GenerateFloodgateKey; by rewrite Hread).
  split_and!.
  - destruct (serve_ready slogDefault (basic_options slogDefault) start) as (srv & Hs & Hm & Hr); [done..|].
    exists srv. split_and!; [done| |done]. by intros H%Hm.
  - destruct (serve_ready slogDefault (custom_options slogDefault key) start) as (srv & Hs & Hm & Hr); [done..|].
    pose proof Hs as (_ & _ & _ & Hc). exists srv. unfold custom_main. rewrite Hgen. split_and!; [done|by apply Hm|..|done].
    + by apply (cp_jvm _ _ Hc).
    + by rewrite (cp_timeout _ _ Hc).
    + by apply (cp_policy _ _ Hc).
  - destruct (new_ready slogDefault (healthcheck_options slogDefault key)) as (srv & Hs & _); [done..|].
    exists srv. unfold healthcheck_main. rewrite Hgen. split_and!; [done|by destruct Hs as [-> _]|].
    intros path srv' h Hp.
    assert (mux path srv' h = healthz (Healthy h srv') ∨ mux path srv' h = readyz (Healthy h srv')) as Hmux.
    { destruct Hp as [-> | ->]; [by left|by right]. }
    unfold Healthy in Hmux. destruct (sv_started srv'), h; destruct Hmux as [-> | ->]; cbn; split; naive_solver.
  - unfold floodgate_main. set (path := getenv _). destruct (readFile path) as [k|]; [|destruct (is_empty path); by eexists].
    destruct (is_empty path) eqn:He.
    { rewrite decide_False; [by eexists|]. apply is_empty_spec in He. naive_solver. }
    apply is_empty_false in He. destruct (decide _) as [[_ Hk]|Hn].
    + replace (zlen k =? 16) with true by lia. cbn [negb].
      destruct (serve_ready slogDefault (floodgate_options slogDefault k) start) as (srv & Hs & _ & Hr); [done..|].
      pose proof Hs as (_ & _ & _ & Hc). exists srv. split_and!; [done| |done]. by injection (cp_rest _ _ Hc).
    + destruct (Z.eqb_spec (zlen k) 16); [naive_solver|]. by eexists.
Qed.

(** ** The configuration of the fly example *)

Definition signaling_doc (advertised : bytes) : gmap bytes scalar := list_to_map [
  (str "mode", SStr (str "builtin")); (str "advertise-addresses", SStrs [advertised]); (str "stun-discovery", SBool false)].

(** What [fly_overrides] builds, and nothing else changed. *)
Lemma fly_overrides_spec advertised h h' ov :
  h !! 0 = None → fly_overrides advertised h = (h', ov) →
  closed h' ov ∧ shallow 2 h' (VMap ov) ∧ ov ≠ 0
  ∧ ∀ p, read h' (VMap ov) p = match p with
    | [] => Some IsMap
    | k :: p =>
        if decide (k = str "bedrock") then
          match p with
          | [] => Some IsMap
          | f :: p =>
              if decide (f = str "transport") then match p with [] => Some (IsScalar (SStr (str "both"))) | _ => None end
              else if decide (f = str "webrtc-port") then match p with [] => Some (IsScalar (SInt 19133)) | _ => None end
              else if decide (f = str "signaling") then flat (signaling_doc advertised) p
              else None
          end
        else None
    end.
Proof.
  intros H0. unfold fly_overrides. fold (signaling_doc advertised).
  destruct (alloc h _) as [h1 s] eqn:H1. destruct (alloc h1 _) as [h2 b] eqn:H2. intros H3.
  apply alloc_fresh in H1 as (-> & Hs0 & Hs), H2 as (-> & Hb0 & Hb), H3 as (-> & Ho0 & Ho).
  assert (b ≠ s) as Hbs by (intros ->; by rewrite lookup_insert_eq in Hb).
  assert (ov ≠ b) as Hob by (intros ->; by rewrite lookup_insert_eq in Ho).
  assert (ov ≠ s) as Hos by (intros ->; by rewrite lookup_insert_ne, lookup_insert_eq in Ho by done).
  set (B := list_to_map [(str "transport", VScalar (SStr (str "both"))); _; _]) in *.
  set (h' := <[ov := _]> _).
  assert (entries h' ov = {[str "bedrock" := VMap b]}) as Ev by (unfold entries, h'; by rewrite lookup_insert_eq).
  assert (entries h' b = B) as Eb by (unfold entries, h'; by rewrite lookup_insert_ne, lookup_insert_eq by done).
  assert (h' !! s = Some (VScalar <$> signaling_doc advertised)) as Es
    by (unfold h'; rewrite lookup_insert_ne, lookup_insert_ne by done; apply lookup_insert_eq).
  assert (∀ k d, entries h' ov !! k = Some (VMap d) → d = b) as Kv.
  { rewrite Ev. by intros k d [_ [= <-]]%lookup_singleton_Some. }
  assert (∀ k d, entries h' b !! k = Some (VMap d) → d = s) as Kb.
  { rewrite Eb. unfold B. intros k d. rewrite <-elem_of_list_to_map by (apply (bool_decide_unpack _); by vm_compute).
    rewrite !elem_of_cons, elem_of_nil. by intros [[=]|[[=]|[[= _ ->]|[]]]]. }
  split_and!; [| |done|].
  - split; [unfold h'; rewrite !lookup_insert_ne by done; done|].
    intros c [->|(k & d & ->%Kv & [->|(k' & d' & ->%Kb & ->%(reaches_flat _ _ _ Es))]%reaches_node)]%reaches_node; right.
    + unfold h'. rewrite lookup_insert_eq. by eexists.
    + unfold h'. rewrite lookup_insert_ne, lookup_insert_eq by done. by eexists.
    + rewrite Es. by eexists.
  - apply shallow_node. intros k d ->%Kv. apply shallow_node. intros k' d' ->%Kb. by eapply shallow_flat.
  - unfold read. intros [|k p]; [done|]. cbn [value_at]. rewrite Ev.
    destruct (decide (k = str "bedrock")) as [->|]; [rewrite lookup_singleton_eq|by rewrite lookup_singleton_ne].
    destruct p as [|f p]; [done|]. cbn [value_at mbind option_bind]. rewrite Eb. unfold B. rewrite !list_to_map_cons, list_to_map_nil.
    destruct (decide (f = str "transport")) as [->|]; [rewrite lookup_insert_eq; by destruct p|].
    rewrite lookup_insert_ne by done.
    destruct (decide (f = str "webrtc-port")) as [->|]; [rewrite lookup_insert_eq; by destruct p|].
    rewrite lookup_insert_ne by done.
    destruct (decide (f = str "signaling")) as [->|]; [rewrite lookup_insert_eq|by rewrite lookup_insert_ne].
    cbn [mbind option_bind]. exact (read_flat _ _ _ Es p).
Qed.

Lemma fly_serves getenv h slogDefault logger start key :
  base64_decode (getenv (str "FLOODGATE_KEY_BASE64")) = Some key → zlen key = 16 →
  ∃ h' ov srv,
    (h', ov) = (if negb (is_empty (getenv (str "GEYSERLITE_ADVERTISE_ADDRESS"))) then fly_overrides (getenv (str "GEYSERLITE_ADVERTISE_ADDRESS")) h else (h, 0))
    ∧ serves_with slogDefault (fly_options (FlyGlobalServices getenv ++ str ":19132") key ov logger) srv
    ∧ fly_main getenv h slogDefault logger start = ends_with (start h') srv.
Proof.
  intros Hd Hk. unfold fly_main.
  destruct (if negb _ then fly_overrides (getenv (str "GEYSERLITE_ADVERTISE_ADDRESS")) h else (h, 0)) as [h' ov]. exists h', ov.
  destruct (serve_ready slogDefault (fly_options (FlyGlobalServices getenv ++ str ":19132") key ov logger) (start h'))
    as (srv & Hs & _ & Hr); [done..|].
  exists srv. split_and!; [done..|]. destruct (is_empty (getenv (str "FLOODGATE_KEY_BASE64"))) eqn:He.
  - apply is_empty_spec in He. rewrite He in Hd. injection Hd as <-. done.
  - by rewrite Hd.
Qed.

(** The key gets to the fly example through its secret: what base64 makes of 16 bytes,
    with or without line ends, is decoded to these bytes, with which the server is made;
    with any other value of the secret, unset, not base 64 or not 16 bytes, the example
    ends before anything is started. *)
Theorem fly_key_round_trip getenv h slogDefault logger start key newlines :
  Bytes key → forallb is_newline newlines = true →
  getenv (str "FLOODGATE_KEY_BASE64") = base64_encode key ++ newlines →
  if decide (zlen key = 16)
  then ∃ h' srv, FloodgateKey (sv_opts srv) = key ∧ AuthType_of (sv_opts srv) = Floodgate
    ∧ sv_started srv = false ∧ fly_main getenv h slogDefault logger start = ends_with (start h') srv
  else ∃ e, fly_main getenv h slogDefault logger start = Err e ∧ ∀ e', e ≠ FStart e'.
Proof.
  intros Hb Hn Henv. pose proof (base64_round_trip key newlines Hb Hn) as Hd. rewrite <-Henv in Hd.
  destruct (decide (zlen key = 16)) as [Hk|Hk].
  - destruct (fly_serves getenv h slogDefault logger start key Hd Hk) as (h' & ov & srv & _ & Hs & Hr).
    exists h', srv. destruct Hs as (_ & Hst & _ & Hc). injection (cp_rest _ _ Hc) as _ Ha Hkey _ _. by split_and!.
  - unfold fly_main. destruct (if negb _ then fly_overrides (getenv (str "GEYSERLITE_ADVERTISE_ADDRESS")) h else (h, 0)) as [h' ov].
    destruct (is_empty _); [by eexists|]. rewrite Hd. rewrite serve_bad_key by done. by eexists.
Qed.

(** The address the example listens on, and the one of Gate. *)
Lemma fly_listen_split getenv :
  splitHostPort (FlyGlobalServices getenv ++ str ":19132") (str "0.0.0.0") 19132 = Ok (FlyGlobalServices getenv, 19132).
Proof. unfold FlyGlobalServices. destruct (negb _); by vm_compute. Qed.
Lemma fly_upstream_split : splitHostPort (str "127.0.0.1:25567") (str "127.0.0.1") 25565 = Ok (str "127.0.0.1", 25567).
Proof. by vm_compute. Qed.

(** No override: the nil map. *)
Lemma nil_map h : h !! 0 = None →
  closed h 0 ∧ (∀ n, shallow n h (VMap 0)) ∧ ∀ k p, read h (VMap 0) (k :: p) = None.
Proof.
  intros H0. assert (entries h 0 = ∅) as He by (unfold entries; by rewrite H0). split_and!.
  - split; [done|]. intros c [->|(k & d & Hk & _)]%reaches_node; [by left|]. by rewrite He in Hk.
  - intros n [|k p] c; cbn; [lia|]. by rewrite He.
  - intros k p. unfold read. cbn. by rewrite He.
Qed.
(** The overrides of the example are fit for [buildConfigMap], and leave the typed options. *)
Lemma fly_overrides_fit getenv h h' ov :
  h !! 0 = None →
  (h', ov) = (if negb (is_empty (getenv (str "GEYSERLITE_ADVERTISE_ADDRESS"))) then fly_overrides (getenv (str "GEYSERLITE_ADVERTISE_ADDRESS")) h else (h, 0)) →
  closed h' ov ∧ shallow 2 h' (VMap ov)
  ∧ (∀ k s, read h' (VMap ov) [k] ≠ Some (IsScalar s))
  ∧ (∀ f, f = str "address" ∨ f = str "port" → read h' (VMap ov) [str "bedrock"; f] = None)
  ∧ (∀ p, read h' (VMap ov) (str "java" :: p) = None).
Proof.
  intros H0. destruct (negb _) eqn:Hadv.
  - destruct (fly_overrides (getenv (str "GEYSERLITE_ADVERTISE_ADDRESS")) h) as [h1 ov1] eqn:Hf. intros [= -> ->].
    destruct (fly_overrides_spec (getenv (str "GEYSERLITE_ADVERTISE_ADDRESS")) h h1 ov1 H0 Hf) as (Hcl & Hsh & _ & Hr). split_and!; [done..| | |].
    + intros k s. rewrite Hr. by destruct (decide _).
    + intros f [-> | ->]; by rewrite Hr.
    + intros p. by rewrite Hr.
  - intros [= -> ->]. destruct (nil_map h H0) as (Hcl & Hsh & Hr). split_and!; [done..| | |]; intros; by rewrite Hr.
Qed.

Lemma fly_transport getenv h h' ov :
  h !! 0 = None →
  (h', ov) = (if negb (is_empty (getenv (str "GEYSERLITE_ADVERTISE_ADDRESS"))) then fly_overrides (getenv (str "GEYSERLITE_ADVERTISE_ADDRESS")) h else (h, 0)) →
  getenv (str "GEYSERLITE_ADVERTISE_ADDRESS") ≠ [] →
  read h' (VMap ov) [str "bedrock"; str "transport"] = Some (IsScalar (SStr (str "both")))
  ∧ read h' (VMap ov) [str "bedrock"; str "webrtc-port"] = Some (IsScalar (SInt 19133))
  ∧ read h' (VMap ov) [str "bedrock"; str "signaling"; str "mode"] = Some (IsScalar (SStr (str "builtin")))
  ∧ read h' (VMap ov) [str "bedrock"; str "signaling"; str "advertise-addresses"]
    = Some (IsScalar (SStrs [getenv (str "GEYSERLITE_ADVERTISE_ADDRESS")]))
  ∧ read h' (VMap ov) [str "bedrock"; str "signaling"; str "stun-discovery"] = Some (IsScalar (SBool false)).
Proof.
  intros H0 Hov Hadv. apply is_empty_false in Hadv. rewrite Hadv in Hov. cbn [negb] in Hov.
  destruct (fly_overrides (getenv (str "GEYSERLITE_ADVERTISE_ADDRESS")) h) as [h1 ov1] eqn:Hf. injection Hov as -> ->.
  destruct (fly_overrides_spec (getenv (str "GEYSERLITE_ADVERTISE_ADDRESS")) h h1 ov1 H0 Hf) as (_ & _ & _ & Hr). rewrite !Hr. by split_and!.
Qed.
(** The typed options of the addresses. *)
Lemma knob_values opts a n :
  bedrock_knobs opts a n !! str "address" = Some (SStr a) ∧ bedrock_knobs opts a n !! str "port" = Some (SInt n)
  ∧ java_knobs opts a n !! str "address" = Some (SStr a) ∧ java_knobs opts a n !! str "port" = Some (SInt n)
  ∧ java_knobs opts a n !! str "auth-type" = Some (SStr (AuthType_String (AuthType_of opts))).
Proof. split_and!; by vm_compute. Qed.

(** C33: what Geyser is configured with on Fly: it listens on [fly-global-services] where
    FLY_APP_NAME is set and on 0.0.0.0 elsewhere, port 19132, and connects to Gate on the
    same machine with Floodgate; and if an address is advertised, both transports are on, with
    their signaling, which advertises just that address, over these typed options, none of
    which the override replaces. *)
Theorem fly_config getenv h slogDefault logger start key iter unmarshal :
  base64_decode (getenv (str "FLOODGATE_KEY_BASE64")) = Some key → zlen key = 16 →
  h !! 0 = None → is_order iter →
  (∀ h0, ∃ h1 cfg, unmarshal baselineConfigYAML h0 = Some (h1, cfg) ∧ allocates h0 h1 cfg) →
  ∃ h' srv h2 cfg, fly_main getenv h slogDefault logger start = ends_with (start h') srv
    ∧ buildConfigMap iter unmarshal 3 h' (sv_opts srv) = Ok (h2, cfg)
    ∧ read h2 (VMap cfg) [str "bedrock"; str "address"] = Some (IsScalar (SStr (FlyGlobalServices getenv)))
    ∧ read h2 (VMap cfg) [str "bedrock"; str "port"] = Some (IsScalar (SInt 19132))
    ∧ read h2 (VMap cfg) [str "java"; str "address"] = Some (IsScalar (SStr (str "127.0.0.1")))
    ∧ read h2 (VMap cfg) [str "java"; str "port"] = Some (IsScalar (SInt 25567))
    ∧ read h2 (VMap cfg) [str "java"; str "auth-type"] = Some (IsScalar (SStr (str "floodgate")))
    ∧ (getenv (str "GEYSERLITE_ADVERTISE_ADDRESS") ≠ [] →
        read h2 (VMap cfg) [str "bedrock"; str "transport"] = Some (IsScalar (SStr (str "both")))
        ∧ read h2 (VMap cfg) [str "bedrock"; str "webrtc-port"] = Some (IsScalar (SInt 19133))
        ∧ read h2 (VMap cfg) [str "bedrock"; str "signaling"; str "mode"] = Some (IsScalar (SStr (str "builtin")))
        ∧ read h2 (VMap cfg) [str "bedrock"; str "signaling"; str "advertise-addresses"]
          = Some (IsScalar (SStrs [getenv (str "GEYSERLITE_ADVERTISE_ADDRESS")]))
        ∧ read h2 (VMap cfg) [str "bedrock"; str "signaling"; str "stun-discovery"] = Some (IsScalar (SBool false))).
Proof.
  intros Hd Hk H0 Hi Hu.
  destruct (fly_serves getenv h slogDefault logger start key Hd Hk) as (h' & ov & srv & Hov & Hs & Hr).
  destruct Hs as (_ & _ & _ & Hc). injection (cp_rest _ _ Hc) as Hup Ha _ Hmotd _.
  injection (cp_paths _ _ Hc) as _ _ _ _ _ Hco.
  assert (Listen (sv_opts srv) = FlyGlobalServices getenv ++ str ":19132") as Hli.
  { apply (cp_listen _ _ Hc). cbn [Listen fly_options]. intros [_ H]%app_nil. by vm_compute in H. }
  exists h', srv.
  destruct (fly_overrides_fit getenv h h' ov H0 Hov) as (Hcl & Hsh & Hk1 & Hbed & Hjava).
  destruct (Hu h') as (h1 & cfg & Hun & A).
  rewrite <-Hco in Hcl, Hsh.
  destruct (buildConfigMap_ok iter Hi h' cfg unmarshal 2 (sv_opts srv) h1 (FlyGlobalServices getenv) 19132
    (str "127.0.0.1") 25567) as (h2 & Hb & Hrd & _);
    [done..|by rewrite Hli; apply fly_listen_split|by rewrite Hup; apply fly_upstream_split|].
  exists h2, cfg. rewrite Hco in Hrd. destruct (knob_values (sv_opts srv) (FlyGlobalServices getenv) 19132) as (B1 & B2 & _).
  destruct (knob_values (sv_opts srv) (str "127.0.0.1") 25567) as (_ & _ & J1 & J2 & J3). rewrite Ha in J3.
  assert (∀ f s, bedrock_knobs (sv_opts srv) (FlyGlobalServices getenv) 19132 !! f = Some s →
    f = str "address" ∨ f = str "port" → read h2 (VMap cfg) [str "bedrock"; f] = Some (IsScalar s)) as Hbty.
  { intros f s Hf Hin. rewrite Hrd. apply typed_survives; [|by apply Hbed|done].
    change (IsScalar <$> bedrock_knobs (sv_opts srv) (FlyGlobalServices getenv) 19132 !! f = Some (IsScalar s)). by rewrite Hf. }
  assert (∀ f s, java_knobs (sv_opts srv) (str "127.0.0.1") 25567 !! f = Some s →
    read h2 (VMap cfg) [str "java"; f] = Some (IsScalar s)) as Hjty.
  { intros f s Hf. rewrite Hrd. apply typed_survives; [|by apply Hjava|done].
    change (IsScalar <$> java_knobs (sv_opts srv) (str "127.0.0.1") 25567 !! f = Some (IsScalar s)). by rewrite Hf. }
  split_and!; [done|done|apply Hbty; auto|apply Hbty; auto|by apply Hjty|by apply Hjty|by apply Hjty|].
  intros Hadv. destruct (fly_transport getenv h h' ov H0 Hov Hadv) as (T1 & T2 & T3 & T4 & T5).
  rewrite !Hrd. split_and!; by apply overlay_scalar.
Qed.
End examples.

(** ** Witnesses: a machine of Fly, and its secret with the line end of [base64] *)
Module fdemo.
Definition key : bytes := Z.of_nat <$> seq 1 16.
Definition getenv (name : bytes) : bytes :=
  if decide (name = str "FLOODGATE_KEY_BASE64") then base64_encode key ++ [10]
  else if decide (name = str "GEYSERLITE_ADVERTISE_ADDRESS") then str "203.0.113.7"
  else if decide (name = str "FLY_APP_NAME") then str "app"
  else if decide (name = str "FLOODGATE_KEY_FILE") then str "/secrets/key.bin"
  else [].
Lemma key_bytes : Bytes key.
Proof. apply (bool_decide_unpack _). by vm_compute. Qed.
Lemma secret_decodes : base64_decode (getenv (str "FLOODGATE_KEY_BASE64")) = Some key.
Proof. by vm_compute. Qed.
Definition start (srv : Server Z) : option (serverError Z) := None.
Definition start_on (h : heap) (srv : Server Z) : option (serverError Z) := None.
End fdemo.

Lemma examples_get_servers_witness :
  ∃ srv, serves_with 1 (basic_options 1) srv
    ∧ basic_main 1 fdemo.start = ends_with fdemo.start srv.
Proof.
  destruct (examples_get_servers (E := Z) 1 (λ n, Some (zrep n 1)) (zrep 16 1) fdemo.start fdemo.getenv (λ _, None))
    as ((srv & Hs & _ & Hr) & _); [reflexivity|reflexivity|].
  exists srv. exact (conj Hs Hr).
Defined.

Lemma fly_key_round_trip_witness :
  ∃ h' srv, FloodgateKey (sv_opts srv) = fdemo.key
    ∧ fly_main fdemo.getenv ∅ 1 2 fdemo.start_on = ends_with (fdemo.start_on h') srv.
Proof.
  pose proof (fly_key_round_trip (E := Z) fdemo.getenv ∅ 1 2 fdemo.start_on fdemo.key [10]
    fdemo.key_bytes eq_refl eq_refl) as H.
  destruct (decide (zlen fdemo.key = 16)) as [|Hne]; [|exfalso; apply Hne; reflexivity].
  destruct H as (h' & srv & Hk & _ & _ & Hr). exists h', srv. exact (conj Hk Hr).
Defined.

Lemma fly_config_witness :
  ∃ h' srv h2 cfg, buildConfigMap (λ _ _ m, map_to_list m) Config.demo.unmarshal 3 h' (sv_opts (E := Z) srv) = Ok (h2, cfg)
    ∧ read h2 (VMap cfg) [str "bedrock"; str "address"] = Some (IsScalar (SStr (str "fly-global-services")))
    ∧ read h2 (VMap cfg) [str "bedrock"; str "transport"] = Some (IsScalar (SStr (str "both")))
    ∧ read h2 (VMap cfg) [str "bedrock"; str "signaling"; str "advertise-addresses"]
      = Some (IsScalar (SStrs [str "203.0.113.7"])).
Proof.
  destruct (fly_config (E := Z) fdemo.getenv ∅ 1 2 fdemo.start_on fdemo.key (λ _ _ m, map_to_list m) Config.demo.unmarshal)
    as (h' & srv & h2 & cfg & _ & Hb & Ha & _ & _ & _ & _ & Ht).
  - exact fdemo.secret_decodes.
  - reflexivity.
  - reflexivity.
  - intros ???. reflexivity.
  - intros h0. destruct (alloc h0 (VScalar <$> list_to_map [(str "mtu", SInt 1400)])) as [h1 cfg] eqn:Hal.
    exists h1, cfg. split; [unfold Config.demo.unmarshal; by rewrite Hal|by eapply Config.demo.alloc_flat].
  - destruct Ht as (Ht & _ & _ & Hadv & _); [vm_compute; discriminate|].
    exists h', srv, h2, cfg. exact (conj Hb (conj Ha (conj Ht Hadv))).
Defined.
