(* ===== verification/Locks.v ===== *)
(** * The locks (ingress.go, subprocess_ingress.go, embedded_ingress.go, server.go)

    The other files run what a goroutine does between [Lock] and [Unlock] as one step. Here
    are the same methods, reduced to what they do with mutexes, with [sync.Once] and with
    wait groups, and where they call code outside of the program: each branch of the code is
    a branch here, its data are left out. Any number of goroutines run them at once. *)
From stdpp Require Import relations.
From S2P Require Import Prelude.

(** ** The resources

    A wait group is held by whoever has added to it and is not done; what has a number is of
    one generation: of a session or of a [callbackGeneration]. *)
Inductive lock :=
| LReaders (g : Z)   (* wg of the session *)
| LOps (g : Z)       (* opWG *)
| LInFlight (g : Z)  (* inFlight *)
| LWrite (g : Z)     (* writeMu *)
| LCloseOnce (g : Z) | LFatalOnce (g : Z)
| LServer            (* mu of the Server *)
| LOp (g : Z)        (* opMu *)
| LSession (g : Z)   (* mu of the session *)
| LGate (g : Z)      (* mu of the callbackGeneration *)
| LBroker.           (* mu of the broker *)

#[export] Instance lock_eq_dec : EqDecision lock.
Proof. solve_decision. Defined.

(** The order in which they are taken. *)
Definition rank (l : lock) : Z :=
  match l with
  | LReaders _ => 0 | LOps _ => 1 | LInFlight _ => 2 | LWrite _ => 3 | LCloseOnce _ => 4 | LFatalOnce _ => 5
  | LServer => 6 | LOp _ => 7 | LSession _ => 8 | LGate _ => 9 | LBroker => 10
  end.

(** The calls that wait for something outside: reading, writing and closing the connection,
    a native call, and the [select] on an acknowledgement with its timer. *)
Inductive outside := XRead | XWrite | XClose | XNative | XSelect.

(** What a goroutine has left to do. *)
Inductive prog :=
| Return
| Lock (l : lock) (k : prog)
| Unlock (l : lock) (k : prog)
| Add (l : lock) (k : prog)      (* wg.Add(1) *)
| Finish (l : lock) (k : prog)   (* wg.Done() *)
| Wait (l : lock) (k : prog)     (* wg.Wait() *)
| Out (x : outside) (k : prog)
| Or (k k' : prog).              (* a branch of the code *)

(** [defer mu.Unlock()] around code that does not block; and [once.Do], whose fast path
    takes no lock. *)
Definition section (l : lock) (k : prog) : prog := Lock l (Unlock l k).
Definition once_do (l : lock) (f : prog → prog) (k : prog) : prog := Or k (Lock l (Or (Unlock l k) (f (Unlock l k)))).

(** ** The broker

    The functions it is given by [activate], for a session or for a generation of
    callbacks; none once it is deactivated. [ok] and [err] are what the caller does next. *)
Inductive owner := Nobody | SessionOf (g : Z) | CallbacksOf (g : Z).

Definition lk_activate (k : prog) : prog := section LBroker k.
Definition lk_deactivate (k : prog) : prog := section LBroker k.
Definition lk_failGeneration (k : prog) : prog := section LBroker k.
Definition lk_closeHandle (k : prog) : prog := section LBroker k.
Definition lk_closeCorrelation (k : prog) : prog := section LBroker k.
Definition lk_expire (k : prog) : prog := section LBroker k.

(** *** What the functions are: [close] of the session, [fail] of the generation *)

Definition lk_session_close (g : Z) (k : prog) : prog :=
  once_do (LCloseOnce g) (λ k,
    section (LOp g) (section (LSession g) (lk_deactivate (Out XClose (section (LSession g) k))))) k.
Definition lk_closeGate (g : Z) (k : prog) : prog := section (LGate g) k.
Definition lk_generation_fail (g : Z) (k : prog) : prog :=
  lk_failGeneration (once_do (LFatalOnce g) (lk_closeGate g) k).
Definition lk_fatal (o : owner) (k : prog) : prog :=
  match o with Nobody => k | SessionOf g => lk_session_close g k | CallbacksOf g => lk_generation_fail g k end.

Definition lk_open (o : owner) (ok err : prog) : prog :=
  Lock LBroker
    (Or (Unlock LBroker err)                    (* another generation, closed *)
    (Or (Unlock LBroker (lk_fatal o err))          (* mismatch, duplicate, overflow *)
        (Unlock LBroker ok))).
Definition lk_deliver (o : owner) (ok err : prog) : prog :=
  Or (lk_closeCorrelation err)
    (Lock LBroker
      (Or (Unlock LBroker err)
      (Or (Unlock LBroker ok)
          (Unlock LBroker (lk_fatal o err))))).
Definition lk_deliverIPCFrame (o : owner) (ok err : prog) : prog :=
  section LBroker (Or err (lk_deliver o ok err)).

(** ** The session *)

Definition lk_removePending (g : Z) (k : prog) : prog := section (LSession g) k.
Definition lk_expirePending (g : Z) (k : prog) : prog := section (LSession g) k.
Definition lk_session_err (g : Z) (k : prog) : prog := section (LSession g) k.
Definition lk_session_wait (g : Z) (k : prog) : prog := Wait (LReaders g) (Wait (LOps g) k).

Definition lk_session_assign (g : Z) (k : prog) : prog :=
  let return_ := Finish (LOps g) k in
  Lock (LOp g)
    (Or (Unlock (LOp g) k)
      (Add (LOps g) (Unlock (LOp g)
        (Or return_                                           (* generation, lifetime *)
          (Lock (LSession g)
            (Or (Unlock (LSession g) return_)                 (* duplicate *)
              (Unlock (LSession g)
                (Lock (LWrite g)
                  (Or (Unlock (LWrite g) (lk_removePending g return_))
                    (Out XWrite (Unlock (LWrite g)
                      (Or (lk_session_close g (lk_removePending g return_))
                      (Or (lk_removePending g return_)
                        (Out XSelect (Or return_ (lk_removePending g return_)))))))))))))))).

(** The loop of [readLoop], for a run of any length: of each turn, the functions that the
    broker has then. It ends in [wg.Done]. *)
Fixpoint lk_readLoop (g : Z) (turns : list owner) : prog :=
  let return_ := Finish (LReaders g) Return in
  match turns with
  | [] => return_
  | o :: turns =>
      let continue := lk_readLoop g turns in
      let fail := lk_session_close g return_ in
      Out XRead
        (Or fail                                              (* Read, decoding, the type *)
        (Or (lk_open o continue fail)
        (Or (section (LSession g) (Or continue fail))         (* an acknowledgement *)
            (Or fail                                          (* extractIngressCorrelation *)
              (section (LSession g)
                (Or continue (Or fail
                  (lk_deliverIPCFrame o continue (Or continue fail)))))))))
  end.

(** ** The generations of callbacks *)

Definition lk_enter (g : Z) (no yes : prog) : prog :=
  Lock (LGate g) (Or (Unlock (LGate g) no) (Add (LInFlight g) (Unlock (LGate g) yes))).
Definition lk_closeAndWait (g : Z) (k : prog) : prog := lk_closeGate g (Wait (LInFlight g) k).

Definition lk_openFn (g : Z) (o : owner) : prog :=
  let return_ := Finish (LInFlight g) Return in
  lk_enter g Return (lk_open o return_ (lk_generation_fail g return_)).
Definition lk_verifiedFn (g : Z) (o : owner) : prog :=
  let return_ := Finish (LInFlight g) Return in
  lk_enter g Return
    (Or (lk_generation_fail g return_) (lk_deliver o return_ (lk_generation_fail g return_))).
Definition lk_assign_callbacks (g : Z) (k : prog) : prog :=
  lk_enter g k (Out XNative (Finish (LInFlight g) k)).

Definition lk_startIngressGeneration (g : Z) (k : prog) : prog :=
  lk_activate
    (Or (lk_closeAndWait g (lk_deactivate k))
      (Out XNative (Or k (Out XNative (lk_closeAndWait g (lk_deactivate k)))))).
Definition lk_stopIngressGeneration (g : Z) (k : prog) : prog :=
  lk_closeGate g (lk_deactivate (Out XNative (Wait (LInFlight g) k))).

(** ** [assign] of the broker, and the server *)

Definition lk_assignNative (o : owner) (k : prog) : prog :=
  match o with Nobody => k | SessionOf g => lk_session_assign g k | CallbacksOf g => lk_assign_callbacks g k end.
Definition lk_assign (o : owner) (k : prog) : prog :=
  Or (lk_closeHandle k)
    (Lock LBroker
      (Or (Unlock LBroker k)
        (Unlock LBroker (lk_assignNative o (Or k (lk_closeHandle k)))))).

Definition lk_Start (k : prog) : prog := section LServer k.
Definition lk_Stop (k : prog) : prog := section LServer k.

(** What a goroutine, a timer or a callback from native code runs, with what it was handed
    by its creator. *)
Inductive entry : prog → list lock → Prop :=
| e_start : entry (lk_Start Return) []
| e_stop : entry (lk_Stop Return) []
| e_assign o : entry (lk_assign o Return) []
| e_expire : entry (lk_expire Return) []
| e_expirePending g : entry (lk_expirePending g Return) []
| e_readLoop g turns : entry (lk_readLoop g turns) [LReaders g]
(* [runOnce]: a failed bootstrap; activation; the end of the process; that of the session *)
| e_abort g : entry (lk_session_close g Return) []
| e_activate : entry (lk_activate Return) []
| e_exit g : entry (lk_session_close g (lk_session_wait g Return)) []
| e_done g : entry (lk_session_err g (lk_session_wait g Return)) []
| e_openFn g o : entry (lk_openFn g o) []
| e_verifiedFn g o : entry (lk_verifiedFn g o) []
| e_startIngress g : entry (lk_startIngressGeneration g Return) []
| e_gate g : entry (lk_closeGate g (lk_stopIngressGeneration g Return)) []
| e_stopIngress g : entry (lk_stopIngressGeneration g Return) [].

(** ** Goroutines

    A goroutine has its program and what it holds. *)
Abbreviation thread := (prog * list lock)%type.
Abbreviation threads := (gmap Z thread).

Definition free (l : lock) (T : threads) : Prop := ∀ t p held, T !! t = Some (p, held) → l ∉ held.
Definition drop (l : lock) (held : list lock) : list lock := filter (λ l', l' ≠ l) held.

(** The next step of a goroutine, which waits while a lock is held, or a wait group. *)
Inductive thread_step (T : threads) : thread → thread → Prop :=
| t_lock l k held : free l T → thread_step T (Lock l k, held) (k, l :: held)
| t_unlock l k held : thread_step T (Unlock l k, held) (k, drop l held)
| t_add l k held : thread_step T (Add l k, held) (k, l :: held)
| t_finish l k held : thread_step T (Finish l k, held) (k, drop l held)
| t_wait l k held : free l T → thread_step T (Wait l k, held) (k, held)
| t_out x k held : thread_step T (Out x k, held) (k, held)
| t_left k k' held : thread_step T (Or k k', held) (k, held)
| t_right k k' held : thread_step T (Or k k', held) (k', held).

Inductive go_step : threads → threads → Prop :=
| g_step t th th' T : T !! t = Some th → thread_step T th th' → go_step T (<[t := th']> T)
| g_go t p held T : T !! t = None → entry p held → go_step T (<[t := (p, held)]> T).
Inductive greach : threads → Prop :=
| greach_start : greach ∅
| greach_step T T' : greach T → go_step T T' → greach T'.

(** ** Programs that take the locks in order

    Whatever a program waits for ranks above all it holds; it holds nothing when it ends;
    around a call to the outside it holds only what that call is known to be made under. *)

Definition below (held : list lock) (l : lock) : Prop := ∀ l', l' ∈ held → rank l' < rank l.

Definition held_outside (x : outside) (l : lock) : Prop :=
  match x, l with
  | XRead, LReaders _ | XWrite, LOps _ | XWrite, LWrite _ | XSelect, LOps _
  | XClose, LReaders _ | XClose, LOps _ | XClose, LInFlight _ | XClose, LCloseOnce _
  | XNative, LInFlight _ => True
  | _, _ => False
  end.

Fixpoint ordered (held : list lock) (p : prog) : Prop :=
  match p with
  | Return => held = []
  | Lock l k => below held l ∧ ordered (l :: held) k
  | Add l k => rank l ≤ 2 ∧ l ∉ held ∧ ordered (l :: held) k
  | Unlock l k | Finish l k => l ∈ held ∧ ordered (drop l held) k
  | Wait l k => below held l ∧ ordered held k
  | Out x k => (∀ l, l ∈ held → held_outside x l) ∧ ordered held k
  | Or k k' => ordered held k ∧ ordered held k'
  end.

Lemma below_fresh held l : below held l → l ∉ held.
Proof. intros H Hin. specialize (H _ Hin). lia. Qed.
Lemma drop_fresh l held : l ∉ held → drop l (l :: held) = held.
Proof.
  intros H. unfold drop. rewrite filter_cons_False by (by intros []).
  induction held as [|l' held IH]; [done|]. apply not_elem_of_cons in H as [Hne H].
  rewrite filter_cons_True by done. by rewrite IH.
Qed.

(** The rules. What the callers hold is wait groups only. *)
Definition tokens (held : list lock) : Prop := ∀ l, l ∈ held → rank l ≤ 2.
Lemma tokens_nil : tokens [].
Proof. by intros l H%elem_of_nil. Qed.
Lemma tokens_one l : rank l ≤ 2 → tokens [l].
Proof. by intros H l' ->%list_elem_of_singleton. Qed.
Lemma tokens_below held l : tokens held → 3 ≤ rank l → below held l.
Proof. intros Ht Hl l' Hin. specialize (Ht _ Hin). lia. Qed.
Lemma tokens_close held l : tokens held → l ∈ held → held_outside XClose l.
Proof. intros Ht Hin. specialize (Ht _ Hin). by destruct l. Qed.
Lemma below_cons l' held l : rank l' < rank l → below held l → below (l' :: held) l.
Proof. intros Hl Hb l0 [->|Hin]%elem_of_cons; [done|by apply Hb]. Qed.

Lemma section_ordered l held k : below held l → ordered held k → ordered held (section l k).
Proof. intros Hb Hk. split; [done|]. split; [by left|]. by rewrite drop_fresh by by apply below_fresh. Qed.
Lemma locked_ordered l held k :
  below held l → ordered (l :: held) k → ordered held (Lock l k).
Proof. by split. Qed.
Lemma unlock_ordered l held k : below held l → ordered held k → ordered (l :: held) (Unlock l k).
Proof. intros Hb Hk. split; [by left|]. by rewrite drop_fresh by by apply below_fresh. Qed.
Lemma finish_ordered l held k : l ∉ held → ordered held k → ordered (l :: held) (Finish l k).
Proof. intros Hb Hk. split; [by left|]. by rewrite drop_fresh. Qed.
Lemma once_ordered l held f k :
  below held l → ordered held k → (∀ k, ordered (l :: held) k → ordered (l :: held) (f k)) →
  ordered held (once_do l f k).
Proof.
  intros Hb Hk Hf. split; [done|]. apply locked_ordered; [done|]. split; [by apply unlock_ordered|].
  by apply Hf, unlock_ordered.
Qed.

Lemma wait_ordered l k : ordered [] k → ordered [] (Wait l k).
Proof. split; [by intros ? ?%elem_of_nil|done]. Qed.
Lemma native_ordered k : ordered [] k → ordered [] (Out XNative k).
Proof. split; [by intros ? ?%elem_of_nil|done]. Qed.

Create HintDb locks.
#[local] Hint Resolve tokens_nil tokens_one : locks.
#[local] Hint Extern 1 (below (_ :: _) _) => apply below_cons; [cbn; lia|] : locks.
#[local] Hint Extern 2 (below _ _) => apply tokens_below; [|cbn; lia] : locks.
#[local] Hint Extern 1 (rank _ ≤ 2) => cbn; lia : locks.

(** Follows the program as long as a rule applies. *)
Ltac in_order :=
  repeat match goal with
  | |- ordered _ (Or _ _) => split
  | |- ordered _ (section _ _) => apply section_ordered; [by eauto with locks|]
  | |- ordered _ (Lock _ _) => apply locked_ordered; [by eauto with locks|]
  | |- ordered _ (Unlock _ _) => apply unlock_ordered; [by eauto with locks|]
  | |- ordered _ (once_do _ _ _) => apply once_ordered; [by eauto with locks| |intros]
  | |- ordered [] (Wait _ _) => apply wait_ordered
  | |- ordered [] (Out XNative _) => apply native_ordered
  | _ => by eauto with locks
  end.

Lemma close_ordered g held k : tokens held → ordered held k → ordered held (lk_session_close g k).
Proof.
  intros Ht Hk. unfold lk_session_close, lk_deactivate. in_order. split; [|by in_order].
  intros l [->|Hin]%elem_of_cons; [done|by eapply tokens_close].
Qed.
Lemma gate_ordered g held k : tokens held → ordered held k → ordered held (lk_closeGate g k).
Proof. intros. unfold lk_closeGate. in_order. Qed.
Lemma generation_fail_ordered g held k : tokens held → ordered held k → ordered held (lk_generation_fail g k).
Proof. intros. unfold lk_generation_fail, lk_failGeneration, lk_closeGate. in_order. Qed.
Lemma fatal_ordered o held k : tokens held → ordered held k → ordered held (lk_fatal o k).
Proof. destruct o; [done|apply close_ordered|apply generation_fail_ordered]. Qed.
#[local] Hint Resolve close_ordered gate_ordered generation_fail_ordered fatal_ordered : locks.

Lemma open_ordered o held ok err :
  tokens held → ordered held ok → ordered held err → ordered held (lk_open o ok err).
Proof. intros. unfold lk_open. in_order. Qed.
Lemma deliver_ordered o held ok err :
  tokens held → ordered held ok → ordered held err → ordered held (lk_deliver o ok err).
Proof. intros. unfold lk_deliver, lk_closeCorrelation. in_order. Qed.
Lemma deliverIPCFrame_ordered o held ok err :
  tokens held → ordered held ok → ordered held err → ordered held (lk_deliverIPCFrame o ok err).
Proof. intros. unfold lk_deliverIPCFrame. in_order. by apply deliver_ordered. Qed.
#[local] Hint Resolve open_ordered deliver_ordered deliverIPCFrame_ordered : locks.

(** The wait group is joined under the mutex that guards [accepting]. *)
Lemma join_ordered w l held k :
  rank w ≤ 2 → 3 ≤ rank l → w ∉ held → below held l → ordered (w :: held) k →
  ordered (l :: held) (Add w (Unlock l k)).
Proof.
  intros Hw Hl Hin Hb Hk. split_and!; [done| |].
  { intros [->|?]%elem_of_cons; [lia|done]. }
  split; [right; by left|]. unfold drop. rewrite filter_cons_True; [|intros ->; lia].
  fold (drop l (l :: held)). by rewrite drop_fresh by by apply below_fresh.
Qed.
Lemma outside_ordered x held k :
  Forall (held_outside x) held → ordered held k → ordered held (Out x k).
Proof. intros Hf Hk. split; [|done]. by apply Forall_forall. Qed.
#[local] Hint Extern 1 (_ ∉ []) => apply not_elem_of_nil : locks.
#[local] Hint Extern 1 (ordered [_] (Finish _ Return)) => apply finish_ordered; [apply not_elem_of_nil|done] : locks.

Lemma removePending_ordered g held k : tokens held → ordered held k → ordered held (lk_removePending g k).
Proof. intros. unfold lk_removePending. in_order. Qed.
#[local] Hint Resolve removePending_ordered : locks.

Lemma session_assign_ordered g k : ordered [] k → ordered [] (lk_session_assign g k).
Proof.
  intros Hk. unfold lk_session_assign. in_order. apply join_ordered; [done|done|by apply not_elem_of_nil|by in_order|].
  assert (ordered [LOps g] (Finish (LOps g) k)) as Hret by (by apply finish_ordered; [apply not_elem_of_nil|]).
  in_order.
  apply outside_ordered; [by repeat constructor|]. in_order.
  apply outside_ordered; [by repeat constructor|]. in_order.
Qed.

Lemma readLoop_ordered g turns : ordered [LReaders g] (lk_readLoop g turns).
Proof.
  induction turns as [|o turns IH]; cbn [lk_readLoop]; [by eauto with locks|].
  assert (ordered [LReaders g] (lk_session_close g (Finish (LReaders g) Return))) as Hfail by eauto with locks.
  apply outside_ordered; [by repeat constructor|]. in_order.
  all: first [apply open_ordered | apply deliverIPCFrame_ordered]; in_order.
Qed.

Lemma enter_ordered g no yes : ordered [] no → ordered [LInFlight g] yes → ordered [] (lk_enter g no yes).
Proof.
  intros Hno Hyes. unfold lk_enter. in_order. apply join_ordered; [done|done|by apply not_elem_of_nil|by in_order|done].
Qed.
Lemma callback_ordered g o : ordered [] (lk_openFn g o) ∧ ordered [] (lk_verifiedFn g o).
Proof. split; (apply enter_ordered; [done|]); in_order. Qed.
Lemma assign_callbacks_ordered g k : ordered [] k → ordered [] (lk_assign_callbacks g k).
Proof.
  intros. apply enter_ordered; [done|]. apply outside_ordered; [by repeat constructor|].
  by apply finish_ordered; [apply not_elem_of_nil|].
Qed.
Lemma assign_ordered o k : ordered [] k → ordered [] (lk_assign o k).
Proof.
  intros Hk. unfold lk_assign, lk_closeHandle. in_order. assert (ordered [] (Or k (section LBroker k))) by in_order.
  destruct o; [done|by apply session_assign_ordered|by apply assign_callbacks_ordered].
Qed.

Lemma startIngress_ordered g k : ordered [] k → ordered [] (lk_startIngressGeneration g k).
Proof. intros. unfold lk_startIngressGeneration, lk_activate, lk_closeAndWait, lk_deactivate, lk_closeGate. in_order. Qed.
Lemma stopIngress_ordered g k : ordered [] k → ordered [] (lk_stopIngressGeneration g k).
Proof. intros. unfold lk_stopIngressGeneration, lk_deactivate, lk_closeGate. in_order. Qed.
Lemma session_wait_ordered g k : ordered [] k → ordered [] (lk_session_wait g k).
Proof. intros. unfold lk_session_wait. in_order. Qed.
#[local] Hint Resolve startIngress_ordered stopIngress_ordered session_wait_ordered : locks.

Lemma entry_ordered p held : entry p held → ordered held p ∧ tokens held.
Proof.
  assert (ordered [] Return) by done. destruct 1; (split; [|by eauto with locks]).
  all: unfold lk_Start, lk_Stop, lk_expire, lk_expirePending, lk_activate, lk_session_err.
  all: first [by in_order | by apply assign_ordered | by apply readLoop_ordered | by apply callback_ordered].
Qed.

(** ** What holds of the goroutines *)

Definition exclusive (T : threads) : Prop :=
  ∀ l t t' p p' held held', 3 ≤ rank l → T !! t = Some (p, held) → T !! t' = Some (p', held') →
    l ∈ held → l ∈ held' → t = t'.
Definition all_ordered (T : threads) : Prop := ∀ t p held, T !! t = Some (p, held) → ordered held p.

Lemma step_ordered T p held p' held' :
  thread_step T (p, held) (p', held') → ordered held p → ordered held' p'.
Proof. inversion 1; subst; cbn; tauto. Qed.

(** What a step adds to what a goroutine holds: a lock that nobody has, or a wait group. *)
Lemma step_held T p held p' held' l :
  thread_step T (p, held) (p', held') → ordered held p → l ∈ held' →
  l ∈ held ∨ free l T ∨ rank l ≤ 2.
Proof.
  inversion 1; subst; cbn; intros Ho Hin; try tauto.
  - apply elem_of_cons in Hin as [->|?]; tauto.
  - apply list_elem_of_filter in Hin as [_ ?]; tauto.
  - apply elem_of_cons in Hin as [->|?]; tauto.
  - apply list_elem_of_filter in Hin as [_ ?]; tauto.
Qed.

Lemma exclusive_update T t p' held' :
  exclusive T →
  (∀ l, l ∈ held' → 3 ≤ rank l → free l T ∨ ∃ p held, T !! t = Some (p, held) ∧ l ∈ held) →
  exclusive (<[t := (p', held')]> T).
Proof.
  intros Hx Hnew l t1 t2 p1 p2 h1 h2 Hr H1 H2 Hl1 Hl2.
  assert (∀ t3 p3 h3, T !! t3 = Some (p3, h3) → l ∈ h3 → l ∈ held' → t = t3) as Hother.
  { intros t3 p3 h3 H3 Hl3 Hl'. destruct (Hnew l Hl' Hr) as [Hf|(p & held & Ht & Hl)].
    - by destruct (Hf _ _ _ H3).
    - by eapply Hx. }
  apply lookup_insert_Some in H1 as [[<- [= <- <-]]|[Hn1 H1]], H2 as [[<- [= <- <-]]|[Hn2 H2]]; [done|..].
  - by eapply Hother.
  - symmetry. by eapply Hother.
  - by eapply Hx.
Qed.

Lemma greach_ordered T : greach T → all_ordered T ∧ exclusive T.
Proof.
  induction 1 as [|T T' _ [Ho Hx] Hg]; [split; [by intros ???|by intros ???????? ?%lookup_empty_Some]|].
  revert Ho Hx. destruct Hg as [t [p held] [p' held'] T Ht Hs|t p held T Ht He]; intros Ho Hx.
  - split.
    + intros t1 p1 h1 [[<- [= <- <-]]|[_ H1]]%lookup_insert_Some; [|by eapply Ho].
      by eapply step_ordered, Ho.
    + apply exclusive_update; [done|]. intros l Hl Hr.
      destruct (step_held _ _ _ _ _ l Hs (Ho _ _ _ Ht) Hl) as [?|[?|?]]; [by eauto 10|by left|lia].
  - apply entry_ordered in He as [Hp Htok]. split.
    + intros t1 p1 h1 [[<- [= <- <-]]|[_ H1]]%lookup_insert_Some; [done|by eapply Ho].
    + apply exclusive_update; [done|]. intros l Hl Hr. specialize (Htok l Hl). lia.
Qed.

(** ** Waiting *)

Definition awaits (p : prog) : option lock :=
  match p with Lock l _ | Wait l _ => Some l | _ => None end.
Definition waits (T : threads) (t t' : Z) : Prop :=
  ∃ l p held p' held', T !! t = Some (p, held) ∧ awaits p = Some l ∧ T !! t' = Some (p', held') ∧ l ∈ held'.
Definition can_step (T : threads) (t : Z) : Prop := ∃ th th', T !! t = Some th ∧ thread_step T th th'.
Definition returned (th : thread) : Prop := th = (Return, []).
Definition calls_out (th : thread) : Prop := match th.1 with Out _ _ => True | _ => False end.

#[export] Instance free_dec l T : Decision (free l T).
Proof.
  refine (cast_if (decide (map_Forall (λ _ (th : thread), l ∉ th.2) T))).
  - intros t p held Ht. apply (m t (p, held) Ht).
  - intros Hf. apply n. intros t [p held] Ht. by eapply Hf.
Defined.

Lemma not_free_holder l T : ¬ free l T → ∃ t p held, T !! t = Some (p, held) ∧ l ∈ held.
Proof.
  intros Hn. destruct (decide (map_Forall (λ _ (th : thread), l ∉ th.2) T)) as [Hf|Hf].
  - destruct Hn. intros t p held Ht. apply (Hf t (p, held) Ht).
  - apply map_not_Forall in Hf as (t & [p held] & Ht & Hl); [|apply _].
    exists t, p, held. split; [done|]. by apply dec_stable.
Qed.

(** A goroutine has returned, or takes a step, or waits for another. *)
Lemma progress T t p held :
  all_ordered T → T !! t = Some (p, held) →
  returned (p, held) ∨ can_step T t ∨ ∃ l t' p' held', awaits p = Some l ∧ T !! t' = Some (p', held') ∧ l ∈ held'.
Proof.
  intros Ho Ht. specialize (Ho _ _ _ Ht) as Hp.
  assert (∀ th', thread_step T (p, held) th' → can_step T t) as Hstep by (by intros th'; exists (p, held), th').
  destruct p as [|l k|l k|l k|l k|l k|x k|k k']; cbn in Hp |- *.
  - left. by rewrite Hp.
  - destruct (decide (free l T)) as [Hf|Hf]; [right; left; by eapply Hstep, t_lock|].
    apply not_free_holder in Hf as (t' & p' & held' & ? & ?). right; right. by exists l, t', p', held'.
  - right; left. eapply Hstep, t_unlock.
  - right; left. eapply Hstep, t_add.
  - right; left. eapply Hstep, t_finish.
  - destruct (decide (free l T)) as [Hf|Hf]; [right; left; by eapply Hstep, t_wait|].
    apply not_free_holder in Hf as (t' & p' & held' & ? & ?). right; right. by exists l, t', p', held'.
  - right; left. eapply Hstep, t_out.
  - right; left. eapply Hstep, t_left.
Qed.

Lemma awaits_below held p l : ordered held p → awaits p = Some l → below held l.
Proof. destruct p; cbn; intros Ho [= ->]; by destruct Ho. Qed.
Lemma calls_low held p l : ordered held p → l ∈ held → 5 ≤ rank l → ¬ calls_out (p, held).
Proof.
  destruct p as [| | | | | |x k|]; cbn; try tauto. intros [Hx _] Hl Hr _. specialize (Hx l Hl).
  by destruct x, l; cbn in Hr; try lia.
Qed.

(** Following what the holders wait for, the rank rises; there are only eleven. *)
Lemma waits_for_runner T (n : nat) l t p held :
  all_ordered T → T !! t = Some (p, held) → l ∈ held → 11 - rank l ≤ Z.of_nat n →
  ∃ t', rtc (waits T) t t' ∧ can_step T t' ∧ (5 ≤ rank l → ∀ th, T !! t' = Some th → ¬ calls_out th).
Proof.
  intros Ho. revert l t p held. induction n as [|n IH]; intros l t p held Ht Hl Hn; [by destruct l; cbn in Hn; lia|].
  destruct (progress T t p held Ho Ht) as [[= -> ->]|[Hs|(l' & t' & p' & held' & Ha & Ht' & Hl')]].
  - by apply elem_of_nil in Hl.
  - exists t. split_and!; [done|done|]. intros Hr th Hth. pose proof (eq_trans (eq_sym Ht) Hth) as [= <-]. by apply (calls_low held p l (Ho _ _ _ Ht)).
  - pose proof (awaits_below _ _ _ (Ho _ _ _ Ht) Ha l Hl) as Hrank.
    destruct (IH l' t' p' held') as (t'' & Hw & Hs & Hc); [done|done|lia|].
    exists t''. split_and!; [|done|intros Hr; apply Hc; lia].
    eapply rtc_l; [|done]. by exists l', p, held, p', held'.
Qed.

(** ** How long it takes *)

Fixpoint size (p : prog) : nat :=
  match p with
  | Return => 0
  | Lock _ k | Unlock _ k | Add _ k | Finish _ k | Wait _ k | Out _ k => S (size k)
  | Or k k' => S (size k + size k')
  end.
Definition total (T : threads) : nat := map_fold (λ _ (th : thread) n, (size th.1 + n)%nat) 0%nat T.

(** A step of a goroutine that is there already. *)
Definition move (T T' : threads) : Prop :=
  ∃ t th th', T !! t = Some th ∧ thread_step T th th' ∧ T' = <[t := th']> T.

Lemma step_size T th th' : thread_step T th th' → (size th'.1 < size th.1)%nat.
Proof. destruct 1; cbn; lia. Qed.
Lemma total_lookup T t th : T !! t = Some th → total T = (size th.1 + total (delete t T))%nat.
Proof.
  intros Ht. unfold total. apply (map_fold_delete_L (λ _ (th : thread) n, size th.1 + n)%nat); [|done].
  intros. lia.
Qed.
Lemma move_total T T' : move T T' → (total T' < total T)%nat.
Proof.
  intros (t & th & th' & Ht & Hs & ->). rewrite (total_lookup T t th Ht).
  rewrite (total_lookup _ t th' (lookup_insert_eq _ _ _)), delete_insert_eq. apply step_size in Hs. lia.
Qed.
Lemma moves_total n T T' : nsteps move n T T' → (n + total T' ≤ total T)%nat.
Proof. induction 1 as [|n T1 T2 T3 Hm%move_total _ IH]; lia. Qed.
Lemma moves_greach T T' : greach T → rtc move T T' → greach T'.
Proof.
  intros HT. induction 1 as [|T1 T2 T3 (t & th & th' & Ht & Hs & ->) _ IH]; [done|].
  apply IH. eapply greach_step; [done|]. by econstructor.
Qed.
Lemma blocked_runner T t p held :
  all_ordered T → T !! t = Some (p, held) →
  returned (p, held) ∨
  ∃ t', rtc (waits T) t t' ∧ can_step T t' ∧
    ∀ l th, awaits p = Some l → t ≠ t' → 5 ≤ rank l → T !! t' = Some th → ¬ calls_out th.
Proof.
  intros Ho Ht. destruct (progress T t p held Ho Ht) as [?|[Hs|(l & t' & p' & held' & Ha & Ht' & Hl)]]; [by left|right..].
  - by exists t.
  - destruct (waits_for_runner T 11 l t' p' held') as (t'' & Hw & Hs & Hc); [done..|destruct l; cbn; lia|].
    exists t''. split_and!; [|done|].
    + eapply rtc_l; [|done]. by exists l, p, held, p', held'.
    + intros l0 th Ha0 _ Hr. assert (l0 = l) as -> by congruence. by apply Hc.
Qed.

(** C13: no lock of the program deadlocks. Take any number of goroutines that run [Start],
    [Stop], [assign], the timers, the readers of sessions, the ends of launches, the
    callbacks from native code and the supervisors of embedded generations, at any point.
    No mutex and no [sync.Once] is held twice. A goroutine that has not returned can take
    a step, or waits, through other goroutines, for one that can; and where it waits for a
    mutex of the broker, of a session (the one around the write excepted), of a generation
    or of the server, that one is not in a call to the outside: no connection and no native
    code can hold it up. Without new goroutines every run ends, after at most [total] steps,
    and at its end all have returned and hold nothing. (A call to the
    outside is taken to return at some point, which is its step.) *)
Theorem no_deadlock T :
  greach T →
  exclusive T ∧
  (∀ t p held, T !! t = Some (p, held) →
    returned (p, held) ∨
    ∃ t', rtc (waits T) t t' ∧ can_step T t' ∧
      ∀ l th, awaits p = Some l → t ≠ t' → 5 ≤ rank l → T !! t' = Some th → ¬ calls_out th) ∧
  (∀ n T', nsteps move n T T' → (n ≤ total T)%nat ∧
    ((∀ T2, ¬ move T' T2) → map_Forall (λ _, returned) T')).
Proof.
  intros HT. pose proof (greach_ordered T HT) as [Ho Hx]. split_and!; [done|by intros; eapply blocked_runner|].
  intros n T' Hn. split; [apply moves_total in Hn; lia|]. intros Hstuck t [p held] Ht.
  apply rtc_nsteps_2 in Hn as Hr. destruct (greach_ordered T' (moves_greach _ _ HT Hr)) as [Ho' _].
  destruct (blocked_runner T' t p held Ho' Ht) as [?|(t' & _ & (th & th' & Ht' & Hs) & _)]; [done|].
  destruct (Hstuck (<[t' := th']> T')). by exists t', th, th'.
Qed.

(** An [assign] holds the mutex of the broker, and the timer of another assignment waits
    for it. *)
Lemma no_deadlock_witness :
  ∃ T, greach T ∧ waits T 2 1 ∧ exclusive T ∧ ∃ t', rtc (waits T) 2 t' ∧ can_step T t'.
Proof.
  assert (∃ T k, greach T ∧ T !! 1 = Some (k, [LBroker]) ∧ T !! 2 = Some (lk_expire Return, [])) as (T & k & HT & H1 & H2).
  { pose proof (greach_step _ _ greach_start (g_go 1 _ _ ∅ eq_refl (e_assign (SessionOf 1)))) as HT.
    eapply greach_step in HT; [|eapply (g_step 1); [reflexivity|apply t_right]].
    eapply greach_step in HT; [|eapply (g_step 1); [reflexivity|apply t_lock]].
    2: { intros t p held [[<- [= <- <-]]|[_ Ht]]%lookup_insert_Some; [by intros ?%elem_of_nil|].
         apply lookup_insert_Some in Ht as [[<- [= <- <-]]|[_ []%lookup_empty_Some]]; by intros ?%elem_of_nil. }
    eapply greach_step in HT; [|eapply (g_go 2); [reflexivity|apply e_expire]].
    by eexists _, _. }
  exists T. pose proof (no_deadlock T HT) as (Hx & Hw & _). split_and!; [done| |done|].
  - exists LBroker, (lk_expire Return), [], k, [LBroker]. split_and!; [done|done|done|by left].
  - destruct (Hw 2 _ _ H2) as [[= ]|(t' & ? & ? & _)]. by exists t'.
Defined.
