(* ===== verification/Healthcheck.v ===== *)
(** * The life of examples/healthcheck

    [main] runs [Start] in a goroutine, the HTTP server in another, waits for the signal or
    for the end of [Start], shuts the HTTP server down and returns, which ends the process.
    The server is the one of ServerRun.v, with either runner; the options and the handlers
    are in Examples.v. *)
From S2P Require Import Prelude GoInt Abi Protobuf Supervisor Options Server ServerRun CallbackSys EmbeddedRun EmbeddedRunProps Launch Managed Examples.

Section healthcheck.
Context {R E : Type} {RS : RunnerSys R E} {RL : RunnerLaws R E}.
Implicit Types (l : life E) (x : R).

(** Where [main] is; [HExited]: there is no process any more. *)
Inductive hphase := HSelect | HShutdown | HExited.

(** [geyserDone], a channel with room for the one value sent to it. *)
Inductive geyserDone := DoneUnsent | DoneSent (err : option (serverError E)) | DoneReceived (err : option (serverError E)).

Record health := Health {
  hc_life : life E;
  hc_run : option R;
  hc_signal : bool;        (* ctx has ended *)
  hc_done : geyserDone;
  hc_listening : bool;     (* the goroutine in [ListenAndServe] *)
  hc_main : hphase;
}.

Definition managed_of (h : health) : managed := Managed (hc_life h) (hc_run h).

(** The next step of [main]; [pick]: which case the [select] takes when both are ready. *)
Inductive case := PickSignal | PickDone.
Definition main_step (pick : case) (h : health) : option health :=
  match hc_main h, pick with
  | HSelect, PickSignal =>
      if hc_signal h then Some (Health (hc_life h) (hc_run h) (hc_signal h) (hc_done h) (hc_listening h) HShutdown) else None
  | HSelect, PickDone =>
      match hc_done h with
      | DoneSent err =>
          Some (Health (hc_life h) (hc_run h) (hc_signal h) (DoneReceived err) (hc_listening h) HShutdown)
      | _ => None
      end
  (* [Shutdown] closes the listener and waits for the handlers, or for thirty seconds *)
  | HShutdown, _ => Some (Health (hc_life h) (hc_run h) (hc_signal h) (hc_done h) false HExited)
  | HExited, _ => None
  end.

(** The one [Start], in goroutine 0, with [ctx]. *)
Definition inherits (signal : bool) (x : R) : Prop := rs_ctx x = if signal then Some Canceled else None.

Inductive hstep : health → health → Prop :=
| h_start l l' x sig d w p :
    lstep l (CStart 0) = Some l' → lf_runs l' = 0 :: lf_runs l → rs_starts x → inherits sig x →
    hstep (Health l None sig d w p) (Health l' (Some x) sig d w p)
| h_own l x x' sig d w p : rs_own x x' → hstep (Health l (Some x) sig d w p) (Health l (Some x') sig d w p)
| h_env l x x' sig d w p : rs_env x x' → hstep (Health l (Some x) sig d w p) (Health l (Some x') sig d w p)
| h_return l l' x e sig d w p :
    rs_result x = Some e → lstep l (CRunReturns 0 e) = Some l' →
    hstep (Health l (Some x) sig d w p) (Health l' (Some x) sig d w p)
| h_cancel l l' r sig d w p :
    lstep l (CCancel 0) = Some l' → hstep (Health l r sig d w p) (Health l' (cancelled <$> r) sig d w p)
| h_close l l' r sig d w p :
    lstep l (CClose 0) = Some l' → hstep (Health l r sig d w p) (Health l' r sig d w p)
| h_send l r err sig w p :
    (0, StartReturned err) ∈ lf_returns l →
    hstep (Health l r sig DoneUnsent w p) (Health l r sig (DoneSent err) w p)
(* SIGINT or SIGTERM: [ctx] ends, and the context of the run *)
| h_signal l r d w p : hstep (Health l r false d w p) (Health l (cancelled <$> r) true d w p)
(* [ListenAndServe] fails: a line in the log *)
| h_unserved l r sig d p : hstep (Health l r sig d true p) (Health l r sig d false p)
| h_main pick h h' : main_step pick h = Some h' → hstep h h'.

Definition health_start (srv : Server E) : health := Health (life_of srv) None false DoneUnsent true HSelect.

(** The steps that the process takes: none after [main] has returned. *)
Inductive hreach : health → Prop :=
| hreach_start read slogDefault srv : healthcheck_main read slogDefault = Ok srv → hreach (health_start srv)
| hreach_step h h' : hreach h → hc_main h ≠ HExited → hstep h h' → hreach h'.

(** ** What holds *)

Lemma hstep_managed h h' : hstep h h' → managed_of h' = managed_of h ∨ mstep (managed_of h) (managed_of h').
Proof.
  intros Hs. destruct Hs as [l l' x sig d w p H1 H2 H3 _|l x x' sig d w p H|l x x' sig d w p H|l l' x e sig d w p H1 H2
    |l l' r sig d w p H|l l' r sig d w p H| |l r d w p| |pick h h' H]; unfold managed_of; cbn; auto.
  - right. by eapply m_start.
  - right. by apply m_own.
  - right. by apply m_env.
  - right. by eapply m_return.
  - right. eapply (m_cancel (CCancel 0)); [by left|done].
  - right. eapply (m_call (CClose 0)); [by left|done].
  - destruct r as [x|]; cbn; [|by left]. unfold cancelled. destruct (rs_ctx x) eqn:Hc; [by left|right]. by apply m_parent.
  - left. unfold main_step in H. destruct (hc_main h), pick; try done; [| |by injection H as <-..].
    + destruct (hc_signal h); [|done]. by injection H as <-.
    + destruct (hc_done h); try done. by injection H as <-.
Qed.
Lemma hreach_mreach h : hreach h → mreach (managed_of h).
Proof.
  induction 1 as [read d srv Hn|h h' _ IH _ Hs].
  { unfold healthcheck_main in Hn. destruct (New d _) as [srv'| |] eqn:Hnew; try done. injection Hn as <-. by eapply mreach_new. }
  destruct (hstep_managed _ _ Hs) as [->|Hm]; [done|]. by eapply mreach_step.
Qed.

Lemma lstep_returns l l' c r : lstep l c = Some l' → r ∈ lf_returns l → r ∈ lf_returns l'.
Proof.
  destruct c as [t|t e|t|t|t|t|t|t e]; cbn; destruct (lf_threads l !! t) as [[]|]; try done; repeat case_match; try done;
    intros [= <-]; cbn; auto; intros; by right.
Qed.

Definition sent_of (d : geyserDone) : option (option (serverError E)) :=
  match d with DoneUnsent => None | DoneSent e | DoneReceived e => Some e end.

(** [Start] returned what the run did. *)
Definition ran (l : life E) : Prop := ∀ t r, (t, r) ∈ lf_returns l → ∃ e, r = StartReturned (ErrRunner <$> e).
Lemma lstep_ran l l' c :
  lstep l c = Some l' →
  c = CStart 0 ∧ lf_runs l' = 0 :: lf_runs l ∨ (∃ e, c = CRunReturns 0 e) ∨ c = CCancel 0 ∨ c = CClose 0 →
  ran l → ran l'.
Proof.
  intros Hs Hc Hr. unfold ran in *. destruct Hc as [[-> Hruns]|[[e ->]|[-> | ->]]]; cbn in Hs.
  - destruct (lf_threads l !! 0); [done|]. destruct (start_lock (lf_server l)) as [s [e|]]; injection Hs as <-; [|done].
    by apply (f_equal length) in Hruns; cbn in Hruns; lia.
  - destruct (lf_threads l !! 0) as [[]|]; try done. by injection Hs as <-.
  - destruct (lf_threads l !! 0) as [[]|]; try done. by injection Hs as <-.
  - destruct (lf_threads l !! 0) as [[]|]; try done. destruct (close_done _); injection Hs as <-; [|done..].
    intros t r [[= -> ->]|Hin]%elem_of_cons; [by eexists|by eapply Hr].
Qed.
#[local] Arguments lstep : simpl never.

Record hinv (h : health) : Prop := {
  hi_sent : ∀ err, sent_of (hc_done h) = Some err → (0, StartReturned err) ∈ lf_returns (hc_life h);
  hi_main : hc_main h ≠ HSelect → hc_signal h = true ∨ ∃ err, hc_done h = DoneReceived err;
  hi_exit : hc_main h = HExited → hc_listening h = false;
  hi_received : ∀ err, hc_done h = DoneReceived err → hc_main h ≠ HSelect;
  hi_ran : ran (hc_life h);
  hi_signal : ∀ x, hc_signal h = true → hc_run h = Some x → rs_ctx x ≠ None;
}.

Lemma main_step_inv pick h h' : hinv h → main_step pick h = Some h' → hinv h'.
Proof.
  intros [Hs Hm He Hr Ht Hc]. unfold main_step. destruct h as [l r sig d w p]. cbn in *.
  destruct p, pick; try done.
  - destruct sig; [|done]. intros [= <-]. split; cbn; auto; done.
  - destruct d as [|err|]; try done. intros [= <-]. split; cbn; eauto; done.
  - intros [= <-]. split; cbn; auto.
  - intros [= <-]. split; cbn; auto.
Qed.
Lemma hstep_inv h h' : hreach h → hc_main h ≠ HExited → hinv h → hstep h h' → hinv h'.
Proof.
  intros Hreach Hx Hi Hs. destruct (mreach_minv _ (hreach_mreach _ Hreach)) as [_ Hrun]. unfold managed_of in Hrun. cbn in Hrun.
  destruct Hs as [l l' x sig d w p H1 H2 H3 H4|l x x' sig d w p H|l x x' sig d w p H|l l' x e sig d w p H1 H2
    |l l' r sig d w p H|l l' r sig d w p H|l r err sig w p H|l r d w p| |pick h h' H];
    [..|by eapply main_step_inv]; destruct Hi as [Is Im Ie Ir It Ic]; cbn in *; split; cbn; eauto.
  all: try by (intros err Herr; eapply lstep_returns; [eassumption|by apply Is]).
  all: try by (eapply lstep_ran; [eassumption| |done]; eauto).
  - intros x0 -> [= <-]. rewrite H4. done.
  - intros x0 Hsig [= <-]. rewrite (rl_ctx x x') by (by left). by apply Ic.
  - intros x0 Hsig [= <-]. rewrite (rl_ctx x x') by (by right). by apply Ic.
  - intros x0 Hsig Hx0. destruct r as [x|]; [|done]. injection Hx0 as <-. unfold cancelled.
    destruct (rs_ctx x) eqn:Hcx; [by rewrite Hcx|by rewrite rl_cancelled].
  - by intros err0 [= <-].
  - intros Hne. destruct (Im Hne) as [?|[? ?]]; [by left|done].
  - intros x0 _ Hx0. destruct r as [x|]; [|done]. injection Hx0 as <-. unfold cancelled.
    destruct (rs_ctx x) eqn:Hcx; [by rewrite Hcx|by rewrite rl_cancelled].
Qed.
Lemma hreach_inv h : hreach h → hinv h.
Proof.
  induction 1; [|by eapply hstep_inv]. split; try done. intros t r Hin. by apply elem_of_nil in Hin.
Qed.

(** The end of examples/healthcheck. [main] returns, with the listener closed, only after a
    signal or with what [Start] returned, which then is what the run returned; once there
    was a signal or [Start] has returned, it can always take its next step, whatever the
    runner does, and it returns after two of them. *)
Theorem healthcheck_ends h :
  hreach h →
  (hc_main h = HExited → hc_listening h = false ∧ (hc_signal h = true ∨ ∃ err, hc_done h = DoneReceived err))
  ∧ (∀ err, sent_of (hc_done h) = Some err → ∃ e x, err = ErrRunner <$> e ∧ hc_run h = Some x ∧ rs_result x = Some e)
  ∧ (hc_signal h = true ∨ (∃ err, sent_of (hc_done h) = Some err) → hc_main h ≠ HExited →
      ∃ pick h', main_step pick h = Some h'
        ∧ (hc_main h' = HExited ∨ ∃ h'', main_step pick h' = Some h'' ∧ hc_main h'' = HExited)).
Proof.
  intros Hh. destruct (hreach_inv h Hh) as [Is Im Ie Ir It Ic]. split_and!.
  - intros Hx. split; [by apply Ie|]. apply Im. by rewrite Hx.
  - intros err Herr. apply Is in Herr. destruct (It _ _ Herr) as [e [= ->]].
    destruct (server_over (managed_of h) 0 _ e (hreach_mreach h Hh) Herr) as (x & Hx & _ & Hres); [by left|]. by exists e, x.
  - intros Hgo Hx. unfold main_step. destruct h as [l r sig d w p]. cbn in *. destruct p; [| |done].
    + destruct sig.
      { exists PickSignal. eexists. split; [done|]. right. by eexists. }
      destruct Hgo as [|[err Herr]]; [done|]. exists PickDone.
      destruct d as [|err'|err']; [done| |by destruct (Ir err' eq_refl)].
      eexists. split; [done|]. right. by eexists.
    + exists PickSignal. eexists. split; [done|]. by left.
Qed.
End healthcheck.

(** ** The process can end while Geyser runs *)
Module hdemo.
Abbreviation reach := (hreach (RS := embedded_sys true 9 1)).
Definition read (n : Z) : option bytes := Some (zrep n 7).
Definition server : Server.Server (launchError runErr) :=
  MkServer (fst (validate 7 (healthcheck_options 7 (generated read)))) Server.embeddedRunner false false None None.
Definition started : life (launchError runErr) := default (life_of server) (lrun (life_of server) [CStart 0]).

Lemma health_played l acts r r' :
  (∀ e, ACancel e ∉ acts) → play true 9 acts r = Some r' →
  reach (Health l (Some (EmbRun r)) false DoneUnsent true HSelect) →
  reach (Health l (Some (EmbRun r')) false DoneUnsent true HSelect).
Proof.
  unfold play. revert r. induction acts as [|a acts IH]; intros r Hn H; cbn in H; [by injection H as <-|].
  destruct (act_step true 9 a r) as [r1|] eqn:H1; [|by rewrite play_none in H].
  intros Hm. eapply IH; [intros e Hin; apply (Hn e); by right|done|]. eapply hreach_step; [done|done|]. destruct a; cbn in H1.
  6: { destruct (Hn e). by left. }
  all: apply h_own, eo_run; by econstructor.
Qed.

(** The signal comes while [geyser_run] runs: [main] shuts the HTTP server down and returns,
    and Geyser has not been told to shut down yet. *)
Example exit_while_running :
  ∃ h r, reach h ∧ hc_main h = HExited ∧ hc_signal h = true ∧ hc_run h = Some (EmbRun r)
    ∧ rn_native r = NBlocked ∧ rn_super r = VWait ∧ rn_shut r = NotAsked.
Proof.
  assert (reach (Health started (Some (EmbRun mdemo.up)) false DoneUnsent true HSelect)) as Hup.
  { eapply (health_played _ edemo.until_up edemo.start).
    - intros e. vm_compute. intros Hin. repeat (apply elem_of_cons in Hin as [[=]|Hin]). by apply elem_of_nil in Hin.
    - vm_compute. reflexivity.
    - eapply hreach_step; [| |apply h_own, (eo_launch true 9 1 None cdemo.p0); [|done..]].
      + eapply hreach_step; [apply (hreach_start read 7 server); vm_compute; reflexivity|done|].
        eapply h_start; [vm_compute; reflexivity|reflexivity|by exists None|reflexivity].
      + done.
      + apply preach_start. by intros i b [_ <-]%lookup_singleton_Some. }
  eapply hreach_step in Hup; [|done|apply h_signal].
  eapply hreach_step in Hup; [|done|by apply (h_main PickSignal)].
  eapply hreach_step in Hup; [|done|by apply (h_main PickSignal)].
  eexists _, _. split; [exact Hup|]. by vm_compute.
Qed.
End hdemo.

Lemma healthcheck_ends_witness :
  ∃ h : health (R := embedded_run) (E := launchError runErr), hc_main h = HExited ∧ hc_listening h = false.
Proof.
  destruct hdemo.exit_while_running as (h & r & Hh & Hx & _).
  exists h. split; [exact Hx|]. destruct (healthcheck_ends (RL := embedded_laws true 9 1) h Hh) as [He _].
  exact (proj1 (He Hx)).
Defined.
